(* ===== verification/_CoqProject ===== *)
-Q . S2P
Prelude.v
Bytes.v
Hash.v
MerkleSpec.v
Merkle.v
MerkleProof.v
Sha256Instance.v
ProofTheorems.v
Sth.v
SdkVerifier.v
Rocksdb.v
StorageTypes.v
Utf8.v
Db.v
LogStore.v
LogTheorems.v
TreeStore.v
Table.v
LogConcurrent.v
HeadStore.v
KeyStore.v
StorageDemo.v
ServerState.v
Service.v
ServerInv.v
Concurrent.v
ServiceTheorems.v
Reads.v
Watch.v
WatchLive.v
Admin.v
Poison.v
KeyHistory.v
RateLimit.v
Client.v
Check.v
Paging.v
SthTask.v
ServerMain.v
Metrics.v
Tools.v
TestVectors.v
CoreTests.v
StorageTests.v
Benches.v
Drain.v
DemoFormat.v
Demo.v
DemoRun.v
DemoTheorems.v
ServerDemo.v
HistoryDemo.v
ProcessDemo.v
DemoExample.v
RaceDemo.v
