(* ===== verification/Prelude.v ===== *)
(** * Settled: a tamper-evident audit log

    A verification of the Rust parts of Settled: an append-only log whose entries
    are the leaves of an RFC 6962 Merkle tree, whose roots are signed at intervals,
    and whose clients check inclusion and consistency proofs against the signed
    heads.

    ** The program and its model

    - [crates/settled-core]: hashing, the tree, proofs, head signatures.
      [Hash] ([hash.rs]), [Merkle] ([merkle.rs]: [mth] and the incremental
      [MerkleTree]), [MerkleProof] ([proof.rs]), [Sth] ([sth.rs]).  [MerkleSpec]
      is the specification: trees as an inductive type with the shape RFC 6962
      prescribes, their roots, paths and subproofs, and functions that compute a SHA-256
      collision from a proof that should not exist.  [Sha256Instance] is FIPS 180-4.  [CoreTests]: the unit
      and property tests of the crate on the vectors of [TestVectors] (test-vectors/);
      [Benches]: its benchmarks.
    - [sdks/rust/src/verifier.rs]: [SdkVerifier], a second implementation of the checks.
    - [crates/settled-storage]: [Rocksdb] (the database as a class), [StorageTypes]
      ([types.rs], [proto.rs], [error.rs], [verify.rs]), [Db] ([db.rs]), [LogStore] and
      [LogTheorems] ([log_store.rs]), [LogConcurrent] (its [append] and [append_batch]
      called from several threads), [TreeStore] ([tree_store.rs]), [HeadStore]
      ([head_store.rs]) and [KeyStore] ([key_store.rs]), both on [Table], the sorted tables
      they refine.  [StorageTests]: the tests of the stores and the crash recovery test of [lib.rs].
    - [crates/settled-server]: [ServerState] ([error.rs], [signer.rs], [config.rs],
      [state.rs], and [sign_and_store] of [sth_task.rs]), [Service] ([service.rs]; the
      handlers are [rpc_append], [rpc_get], ...), [Reads] (the handlers that read several times,
      as sequences of queries with other tasks in between), [Watch] and [WatchLive] (its [watch], as a
      function of what it reads and as a task beside the server), [Poison] (the requests that take [append_mu],
      with what a panic under it does to later ones),
      [Admin] (the handlers of [admin.rs] and the interceptor of [main.rs]), [RateLimit]
      ([rate_limit.rs]), [SthTask] (the loop [run] of [sth_task.rs], with the requests handled between its
      wake-ups), [ServerMain] (arguments,
      configuration, admin router, start-up, serving and shutdown of [main.rs]), [Drain] (its shutdown with
      streams still open), [Metrics]
      ([metrics.rs] and its updates, in steps that interleave with requests and signing runs), [Paging] (a client's walk
      over the pages of [rpc_list_entries] and [rpc_get_by_key]).  [ServerInv] is the invariant of the server,
      [Concurrent] the interleavings of its tasks, [ServiceTheorems] the
      properties of the handlers, [KeyHistory] those of the recorded keys.
    - [sdks/rust/src/client.rs] and [crates/settled-check]: [Client], and [Check], the checker's output.
    - [demos/rust/src/main.rs]: [Demo], the program as an interaction tree whose events are
      the client's calls, the operating system and early exits; [DemoFormat], its texts, on
      [Utf8]; [DemoRun], the interpretation of the events over an environment and the rules
      to reason about it; [DemoTheorems], the program against an honest server.
    - [fuzz/fuzz_targets] and [tools/gen-sth-vectors]: [Tools].
    - [StorageDemo], [ServerDemo], [HistoryDemo], [ProcessDemo], [DemoExample] and [RaceDemo] run the
      components: every theorem with hypotheses is applied to a state reached by running
      the operations.

    A Rust expression becomes an [outcome]: a value, a panic or fuel that ran out.
    [Result] is [result].  Machine integers are [Z] with the wrap-around or the panic of
    the build profile written out ([Profile] is either).  Byte arrays [\[u8; n\]]
    are [array n], slices [bytes].  Handlers take and return the state they
    change.

    ** Interfaces

    Code outside the repository is a class whose operations the definitions take as
    parameters and whose documented behaviour is a class of laws: [Sha256] (any
    function; no law), [Ed25519] with [Ed25519Laws] (signing then verifying
    succeeds, keys decode), [Rocksdb] with [RocksdbLaws] (a write applies its
    batch or changes nothing, iterators return a prefix of the sorted contents),
    [Prost] with [ProstLaws] (decoding inverts encoding), [RateLimit] (implemented by
    [RateLimit.bucket_limiter]), [ErrorDisplay], [Hex] and [Stub] (the transport and the generated
    client; [Client.serve] is the stub of a modelled server).  [HexLaws] says that [hex::encode] writes two digits
    per byte; [TonicDisplay] is the text of a transport error; [HexDecode] is
    [hex::decode] of the tests.  [Broadcast] with [BroadcastLaws] is tokio's broadcast channel: a receiver gets the
    values sent since it subscribed, in order, or learns that it lagged by more than the capacity.  [StorageTests.HealthyDisk]
    is a database that reports no error.  [MemDb],
    [DemoCodec], [ToyEd25519] and [RaceDemo.list_channel] are instances that satisfy the laws.  The clock,
    the file system and generated keys are arguments; the environment of the demo is a function
    from states to answers ([DemoRun.Env]).

    ** What is shown

    - Proof systems.  [ProofTheorems.consistency_sound],
      [ProofTheorems.inclusion_sound] and [ProofTheorems.tampered_history_detected]: an
      accepted proof, however made, means what it should, or a SHA-256 collision is
      computed.  [inclusion_complete] and [consistency_complete]: generated proofs verify.
      [verifiers_total]: the verifiers return on every input.  [Merkle]: the
      incremental tree computes the root of the batch definition.  [SdkVerifier]:
      agreement with the core crate up to sizes of 2^63, and what happens above.
      [Sth]: the signing payload is injective, signatures bind heads.  [CoreTests.property_tests]: the
      property tests of the crate hold for every input, except the one that does not.
    - Storage.  Each store refines an abstract value (a list of entries sorted by number with
      a key index, a table of heads, a table of keys, the complete nodes of a tree): what
      every operation does to it and returns, errors included, reopening, rebuilding, and the
      gap that a failed append leaves.  [StorageTests.crash_recovery_passes]: entries written before and
      after a crash are read back and proved after the tree was rebuilt, for all sizes.
      [LogConcurrent.concurrent_appends_gap_free]: concurrent appends take every number once, and leave no gap
      unless one of them fails.
    - Server.  [Concurrent.server_invariant]: along every interleaving of appends,
      batches, notifications, signing runs and rotations, and with failing writes, log, in-memory tree,
      counter and heads stay consistent and nothing stored is lost.
      [Concurrent.heads_verify]: stored heads verify, unless a rotation hits a head being
      signed.  [ServiceTheorems]: the handlers on every branch and start-up from
      disk; the proof handlers on a log without gaps ([ServerDemo.gap_proof_rejected] is what a gap does to them).
      [Reads.interleaved_proofs_verify] composes the layers: what the server
      proves while other tasks run between the reads of a request, the SDK accepts, if no append fails, no rotation hits a
      head being signed and the size asked for was reached on arrival ([RaceDemo.late_size_race] otherwise).  [WatchLive.watch_stream]: a stream
      is complete and in order if notifications are, and ends only for a stated reason.
      [Poison.clock_panic_stops_server]: a panic under the append lock loses nothing and stops
      the server until it is restarted.  [Paging]: following the cursors yields every entry once.
      [SthTask], [ServerMain.shutdown_covers_log]: whatever requests it handles, with a clock after 1970 and room in its
      counters, no task of the process panics, and when it is shut down it leaves a head
      for the whole log; [Drain.open_watch_blocks_shutdown]: as long as no client watches.  [KeyHistory.chain_verifies]: as long as rotations do not overlap
      with each other, with a signing run or with a crash, every stored head is accepted against
      the key history; [KeyHistory.restart_history]: what a restart repairs and what it
      does not.  [Admin], [ServerMain.admin_requests_safe], [RateLimit]: rotation,
      the admin API, authentication, limits.  [Metrics.metrics_match]: the counters and
      gauges report the log and its heads, the gauges only as long as signing runs do not overlap.
    - Clients.  [Client]: what a successful [verify] means against an arbitrary server, and
      that it succeeds against an honest one; [Check.check_reports]: it says so exactly then.  [DemoTheorems]: against an honest
      server that does not change meanwhile, the demo prints the
      entries its head covers, each with a proof that verifies, and its watch mode every new entry;
      [DemoRun.check_proof_forgeable]: what the demo's check does not establish.
    - Tools.  [Tools.fuzz_targets_never_panic]: no input makes a fuzz target panic.

    ** Fuel

    [tree_fuel] is 65: recursion over a tree of less than 2^64 leaves is at most 64 deep, and so
    are the loops that halve or double a [u64].  [parents_loop] has 64 for a loop that stops
    at level 63.  [Watch.replay] and [Paging.walk] take their fuel as an argument, and
    [watch_exact] and [paging_complete] show that one more than the number of entries is enough.  The totality
    theorems show [OutOfFuel] is never returned; where the code itself does not
    terminate ([SdkVerifier.sdk_agrees_with_core], new sizes above 2^63) every amount of fuel runs out.  Decoding of
    UTF-8 has the length of its input as fuel, and takes at least one byte per step.  The loops of
    the demo are [ITree.iter] and have no fuel: that a run ends is a theorem
    ([DemoRun.wait_for_sth_ends] and the theorems of [DemoTheorems]).

    ** Not modelled

    Measured durations, the Prometheus text and tracing, which no decision reads;
    allocation failure; sockets, signals and timers, which are
    arguments; backpressure of a Watch client beyond the prefix it has received; the poisoning of the signer's
    lock and of the rate limiter's mutex, whose critical sections do not panic; the point between the write
    of the key file and the swap of the key in memory ([rotate] does both in one step), where two overlapping rotations could
    leave the file of the one and the key of the other; calls of the demo that are never answered; the
    configuration fields no handler reads; the build scripts; the
    SDKs in other languages and the tests that start a server over sockets.

    ** Next

    The tests of the Rust SDK's verifier and the socket tests of the server, as sequences of requests. *)

From Stdlib Require Export ZArith Lia.
From Stdlib Require Init.Byte Strings.Byte.
From stdpp Require Export base list numbers countable sorting.

#[global] Open Scope Z_scope.
#[global] Set Default Goal Selector "!".

(** ** Outcomes of Rust evaluation

    A Rust expression returns a value, panics (a failed [unwrap] or [assert!],
    an index out of range, an arithmetic overflow in a build with overflow
    checks), or loops.  [OutOfFuel] is the third: a model function that is
    not structurally recursive takes fuel, and totality theorems show that
    the fuel each caller passes is enough. *)
Inductive outcome (A : Type) : Type :=
| Ret (a : A)
| Panic
| OutOfFuel.
Arguments Ret {A} a.
Arguments Panic {A}.
Arguments OutOfFuel {A}.

Definition obind {A B} (m : outcome A) (k : A -> outcome B) : outcome B :=
  match m with
  | Ret a => k a
  | Panic => Panic
  | OutOfFuel => OutOfFuel
  end.

Declare Scope rust_scope.
Delimit Scope rust_scope with rust.
Notation "'let!' x := m 'in' k" := (obind m (fun x => k))
  (at level 200, x pattern, m at level 100, k at level 200) : rust_scope.
#[global] Open Scope rust_scope.

(** [Result<T, E>]. *)
Inductive result (A E : Type) : Type :=
| Ok (a : A)
| Err (e : E).
Arguments Ok {A E} a.
Arguments Err {A E} e.

(** The [?] operator inside a function that may also panic. *)
Notation "'let?' x := m 'in' k" :=
  (obind m (fun r => match r with Ok x => k | Err e => Ret (Err e) end))
  (at level 200, x name, m at level 100, k at level 200) : rust_scope.

Definition map_err {A E F} (f : E -> F) (r : result A E) : result A F :=
  match r with Ok a => Ok a | Err e => Err (f e) end.

(** [Option::unwrap] *)
Definition unwrap {A} (o : option A) : outcome A :=
  match o with Some a => Ret a | None => Panic end.

Lemma obind_Ret_inv {A B} (m : outcome A) (k : A -> outcome B) b :
  obind m k = Ret b -> exists a, m = Ret a /\ k a = Ret b.
Proof. destruct m; simpl; [eauto|discriminate|discriminate]. Qed.

Lemma obind_assoc {A B C} (m : outcome A) (f : A -> outcome B) (g : B -> outcome C) :
  obind (obind m f) g = obind m (fun a => obind (f a) g).
Proof. destruct m; reflexivity. Qed.

(** ** Machine integers

    [u64], [u32], [usize] (on the 64-bit targets the server is built for)
    and [i64] values are [Z] in range.  Whether [+], [-] and [*] panic or
    wrap on overflow is decided by the build profile; the theorems hold for
    both values unless they say otherwise. *)
Class Profile := overflow_checks : bool.

Definition two64 : Z := 18446744073709551616.
Definition two63 : Z := 9223372036854775808.
Definition two32 : Z := 4294967296.

Definition in_u64 (x : Z) : Prop := 0 <= x < two64.
Definition in_u32 (x : Z) : Prop := 0 <= x < two32.
Definition in_i64 (x : Z) : Prop := - two63 <= x < two63.

#[global] Instance in_u64_dec x : Decision (in_u64 x).
Proof. unfold in_u64; apply _. Defined.
#[global] Instance in_u32_dec x : Decision (in_u32 x).
Proof. unfold in_u32; apply _. Defined.
#[global] Instance in_i64_dec x : Decision (in_i64 x).
Proof. unfold in_i64; apply _. Defined.

Definition wrap_u64 (x : Z) : Z := x mod two64.
Definition wrap_u32 (x : Z) : Z := x mod two32.
(** [as i64] of a wider integer: two's complement truncation. *)
Definition wrap_i64 (x : Z) : Z := (x + two63) mod two64 - two63.

Section Arithmetic.
Context `{Profile}.

(** An arithmetic result [x] of width [2^w = bound]. *)
Definition checked (bound x : Z) : outcome Z :=
  if (0 <=? x) && (x <? bound) then Ret x
  else if overflow_checks then Panic else Ret (x mod bound).

Definition u64_add (a b : Z) := checked two64 (a + b).
Definition u64_sub (a b : Z) := checked two64 (a - b).
Definition u64_mul (a b : Z) := checked two64 (a * b).
Definition u32_add (a b : Z) := checked two32 (a + b).
Definition u32_sub (a b : Z) := checked two32 (a - b).

(** [a << s]: bits shifted out are lost silently; a shift of at least the
    width panics with overflow checks and is masked without them. *)
Definition u64_shl (a s : Z) : outcome Z :=
  if s <? 64 then Ret (Z.shiftl a s mod two64)
  else if overflow_checks then Panic else Ret (Z.shiftl a (s mod 64) mod two64).

Lemma checked_in bound x : 0 <= x < bound -> checked bound x = Ret x.
Proof.
  intros Hx. unfold checked.
  by rewrite (proj2 (Z.leb_le 0 x)), (proj2 (Z.ltb_lt x bound)) by lia.
Qed.

Lemma u64_add_in a b : in_u64 (a + b) -> u64_add a b = Ret (a + b).
Proof. apply checked_in. Qed.
Lemma u64_sub_in a b : in_u64 (a - b) -> u64_sub a b = Ret (a - b).
Proof. apply checked_in. Qed.
Lemma u64_mul_in a b : in_u64 (a * b) -> u64_mul a b = Ret (a * b).
Proof. apply checked_in. Qed.
Lemma u32_sub_in a b : in_u32 (a - b) -> u32_sub a b = Ret (a - b).
Proof. apply checked_in. Qed.
Lemma u32_add_in a b : in_u32 (a + b) -> u32_add a b = Ret (a + b).
Proof. apply checked_in. Qed.

Lemma u64_shl_in a s :
  0 <= s < 64 -> in_u64 (a * 2 ^ s) -> u64_shl a s = Ret (a * 2 ^ s).
Proof.
  intros Hs Ha. unfold u64_shl. rewrite (proj2 (Z.ltb_lt s 64)) by lia.
  by rewrite Z.shiftl_mul_pow2, Z.mod_small by (unfold in_u64 in *; lia).
Qed.
End Arithmetic.

(** [u64::leading_zeros] *)
Definition leading_zeros (x : Z) : Z := if x =? 0 then 64 else 63 - Z.log2 x.

(** ** Vectors and slices *)

(** [v.len()] *)
Definition len {A} (l : list A) : Z := Z.of_nat (length l).

(** [&v[..i]], [&v[i..]] and [v[i]] panic out of range. *)
Definition slice_to {A} (l : list A) (i : Z) : outcome (list A) :=
  if (0 <=? i) && (i <=? len l) then Ret (take (Z.to_nat i) l) else Panic.
Definition slice_from {A} (l : list A) (i : Z) : outcome (list A) :=
  if (0 <=? i) && (i <=? len l) then Ret (drop (Z.to_nat i) l) else Panic.
Definition index {A} (l : list A) (i : Z) : outcome A :=
  if 0 <=? i then unwrap (l !! Z.to_nat i) else Panic.
(** [v[i] = x] panics out of range. *)
Definition index_set {A} (l : list A) (i : Z) (x : A) : outcome (list A) :=
  if (0 <=? i) && (i <? len l) then Ret (<[Z.to_nat i := x]> l) else Panic.

Section Slices.
Context {A : Type}.
Implicit Types (l : list A) (i : Z).

Lemma len_nonneg l : 0 <= len l.
Proof. unfold len; lia. Qed.
Lemma len_nil : len (@nil A) = 0.
Proof. done. Qed.
Lemma len_cons a l : len (a :: l) = len l + 1.
Proof. unfold len; simpl; lia. Qed.
Lemma len_app l1 l2 : len (l1 ++ l2) = len l1 + len l2.
Proof. unfold len. rewrite length_app. lia. Qed.

Lemma slice_to_take l i : 0 <= i <= len l -> slice_to l i = Ret (take (Z.to_nat i) l).
Proof. intros Hi. unfold slice_to. by rewrite (proj2 (Z.leb_le _ _)), (proj2 (Z.leb_le _ _)) by lia. Qed.

Lemma slice_to_app l1 l2 : slice_to (l1 ++ l2) (len l1) = Ret l1.
Proof.
  unfold slice_to. rewrite len_app.
  pose proof (len_nonneg l1). pose proof (len_nonneg l2).
  rewrite (proj2 (Z.leb_le _ _)), (proj2 (Z.leb_le _ _)) by lia. simpl.
  unfold len. rewrite Nat2Z.id. by rewrite take_app_length.
Qed.

Lemma slice_from_app l1 l2 : slice_from (l1 ++ l2) (len l1) = Ret l2.
Proof.
  unfold slice_from. rewrite len_app.
  pose proof (len_nonneg l1). pose proof (len_nonneg l2).
  rewrite (proj2 (Z.leb_le _ _)), (proj2 (Z.leb_le _ _)) by lia. simpl.
  unfold len. rewrite Nat2Z.id. by rewrite drop_app_length.
Qed.

Lemma index_Some l i x :
  0 <= i -> l !! Z.to_nat i = Some x -> index l i = Ret x.
Proof.
  intros Hi Hx. unfold index. rewrite (proj2 (Z.leb_le _ _)) by lia.
  by rewrite Hx.
Qed.

Lemma index_set_in l i x :
  0 <= i < len l -> index_set l i x = Ret (<[Z.to_nat i := x]> l).
Proof.
  intros Hi. unfold index_set.
  by rewrite (proj2 (Z.leb_le _ _)), (proj2 (Z.ltb_lt _ _)) by lia.
Qed.
End Slices.

Lemma len_fmap {A B} (f : A -> B) l : len (f <$> l) = len l.
Proof. unfold len. by rewrite length_fmap. Qed.

Lemma Forall_filter {A} (Q P : A -> Prop) `{!forall x, Decision (P x)} (l : list A) :
  Forall Q l -> Forall Q (filter P l).
Proof. rewrite !Forall_forall. intros HQ x [_ Hx]%list_elem_of_filter. auto. Qed.

Lemma filter_all {A} (P : A -> Prop) `{!forall x, Decision (P x)} (l : list A) :
  Forall P l -> filter P l = l.
Proof. induction 1; [done|]. rewrite filter_cons_True by done. by f_equal. Qed.

Lemma filter_none {A} (P : A -> Prop) `{!forall x, Decision (P x)} (l : list A) :
  Forall (fun x => ~ P x) l -> filter P l = [].
Proof. induction 1; [done|]. by rewrite filter_cons_False. Qed.

Lemma StronglySorted_filter {A} (R : relation A) (P : A -> Prop) `{!forall x, Decision (P x)} l :
  StronglySorted R l -> StronglySorted R (filter P l).
Proof.
  induction 1 as [|x l Hs IH Hf]; [constructor|]. rewrite filter_cons. case_decide; [|done].
  constructor; [done|]. by apply Forall_filter.
Qed.

(** ** Tactics and hint databases *)

(** [len] computes lengths; [frame] carries an invariant over to a state that agrees
    on what the invariant reads (each component adds its frame lemma). *)
Create HintDb len.
#[export] Hint Rewrite @len_nil @len_cons @len_app : len.
Create HintDb frame.
#[export] Hint Extern 1 (_ <> _) => discriminate : frame.
Ltac frame := solve [eauto with frame].

(** [breflect] turns boolean comparisons of [Z] in the context into propositions. *)
Ltac breflect :=
  repeat match goal with
  | H : (_ && _)%bool = true |- _ => apply andb_true_iff in H as [? ?]
  | H : (_ && _)%bool = false |- _ => apply andb_false_iff in H
  | H : (_ || _)%bool = true |- _ => apply orb_true_iff in H
  | H : (_ || _)%bool = false |- _ => apply orb_false_iff in H as [? ?]
  | H : negb _ = true |- _ => apply negb_true_iff in H
  | H : negb _ = false |- _ => apply negb_false_iff in H
  | H : (_ <? _) = true |- _ => apply Z.ltb_lt in H
  | H : (_ <? _) = false |- _ => apply Z.ltb_ge in H
  | H : (_ <=? _) = true |- _ => apply Z.leb_le in H
  | H : (_ <=? _) = false |- _ => apply Z.leb_gt in H
  | H : (_ =? _) = true |- _ => apply Z.eqb_eq in H
  | H : (_ =? _) = false |- _ => apply Z.eqb_neq in H
  end.

(** [decide_if] decides every [if] of the goal whose condition is a [Z]
    comparison that [lia] settles from the context. *)
Ltac decide_if :=
  repeat match goal with
  | |- context [ ?a <? ?b ] =>
      first [ rewrite (proj2 (Z.ltb_lt a b)) by lia
            | rewrite (proj2 (Z.ltb_ge a b)) by lia ]
  | |- context [ ?a <=? ?b ] =>
      first [ rewrite (proj2 (Z.leb_le a b)) by lia
            | rewrite (proj2 (Z.leb_gt a b)) by lia ]
  | |- context [ ?a =? ?b ] =>
      first [ rewrite (proj2 (Z.eqb_eq a b)) by lia
            | rewrite (proj2 (Z.eqb_neq a b)) by lia ]
  end; cbn [andb orb negb].

(** Invert a run of the [outcome] monad that returned. *)
Ltac unret H :=
  let a := fresh "a" in let Ha := fresh "Ha" in
  apply obind_Ret_inv in H; destruct H as (a & Ha & H).

(** Width bounds for [lia]. *)
Ltac ulia := unfold in_u64, in_u32, in_i64, two64, two63, two32 in *; lia.
