(* ===== verification/Bytes.v ===== *)
(** * Bytes, fixed-size arrays and big-endian integers

    The parts of Rust's core library the components share: [u8] and [Vec<u8>],
    [\[u8; N\]] with its fallible conversion from a vector, [to_be_bytes] and
    [from_be_bytes], and the bytewise order of keys. *)

From S2P Require Import Prelude.

Notation byte := Init.Byte.byte.
Notation bytes := (list Init.Byte.byte).

(** ** Bytes as integers *)

Definition Z_of_byte (b : byte) : Z := Z.of_N (Strings.Byte.to_N b).
Definition byte_of_Z (z : Z) : byte :=
  default Init.Byte.x00 (Strings.Byte.of_N (Z.to_N (z mod 256))).

Lemma Z_of_byte_range b : 0 <= Z_of_byte b < 256.
Proof.
  unfold Z_of_byte. pose proof (Strings.Byte.to_N_bounded b). lia.
Qed.

Lemma byte_of_Z_of_byte b : byte_of_Z (Z_of_byte b) = b.
Proof.
  unfold byte_of_Z. rewrite Z.mod_small by apply Z_of_byte_range.
  unfold Z_of_byte. by rewrite N2Z.id, Strings.Byte.of_to_N.
Qed.

Lemma Z_of_byte_of_Z z : Z_of_byte (byte_of_Z z) = z mod 256.
Proof.
  unfold byte_of_Z. pose proof (Z.mod_pos_bound z 256 ltac:(lia)) as Hz.
  destruct (Strings.Byte.of_N (Z.to_N (z mod 256))) as [b|] eqn:E; simpl.
  - apply Strings.Byte.to_of_N in E. unfold Z_of_byte. rewrite E. lia.
  - apply Strings.Byte.of_N_None_iff in E. lia.
Qed.

#[global] Instance Z_of_byte_inj : Inj (=) (=) Z_of_byte.
Proof.
  intros b c E. by rewrite <- (byte_of_Z_of_byte b), E, byte_of_Z_of_byte.
Qed.

#[global] Instance byte_eq_dec : EqDecision byte := Strings.Byte.byte_eq_dec.
#[global] Instance byte_countable : Countable byte.
Proof.
  refine (inj_countable Strings.Byte.to_N Strings.Byte.of_N _).
  apply Strings.Byte.of_to_N.
Defined.

(** ** Arrays [\[u8; n\]] *)

Record array (n : nat) := Array {
  to_vec : bytes;
  array_ok : Is_true (Nat.eqb (length to_vec) n)
}.
Arguments Array {n} to_vec array_ok.
Arguments to_vec {n} a.

Abbreviation hash32 := (array 32).

Lemma array_length {n} (a : array n) : length (to_vec a) = n.
Proof. destruct a as [l Hl]; simpl. apply Is_true_eq_true in Hl. by apply Nat.eqb_eq. Qed.

#[global] Instance to_vec_inj n : Inj (=) (=) (@to_vec n).
Proof.
  intros [a Ha] [b Hb]; simpl. intros ->. f_equal. apply proof_irrel.
Qed.

#[global] Instance array_eq_dec n : EqDecision (array n).
Proof.
  intros a b. destruct (decide (to_vec a = to_vec b)) as [E|E].
  - left. by apply to_vec_inj.
  - right. congruence.
Defined.

(** [<\[u8; n\]>::try_from(v)]: [Some] exactly on vectors of length [n]. *)
Definition array_try_from (n : nat) (v : bytes) : option (array n) :=
  match decide (Is_true (Nat.eqb (length v) n)) with
  | left H => Some (Array v H)
  | right _ => None
  end.

Lemma array_try_from_to_vec {n} (a : array n) : array_try_from n (to_vec a) = Some a.
Proof.
  unfold array_try_from. case_decide as H.
  - f_equal. by apply to_vec_inj.
  - destruct H. rewrite array_length. by rewrite Nat.eqb_refl.
Qed.

Lemma array_try_from_Some {n} v (a : array n) : array_try_from n v = Some a <-> v = to_vec a.
Proof.
  split.
  - unfold array_try_from. case_decide; [|done]. by intros [= <-].
  - intros ->. apply array_try_from_to_vec.
Qed.

Lemma array_try_from_None n v : array_try_from n v = None <-> length v <> n.
Proof.
  unfold array_try_from. case_decide as H.
  - split; [done|]. pose proof (Is_true_eq_true _ H) as E%Nat.eqb_eq. done.
  - split; [|done]. intros _ E. apply H. rewrite E. by rewrite Nat.eqb_refl.
Qed.

(** [\[b; n\]] *)
Lemma array_fill_ok (n : nat) (b : byte) : Is_true (Nat.eqb (length (replicate n b)) n).
Proof. rewrite length_replicate. by rewrite Nat.eqb_refl. Qed.
Definition array_fill (n : nat) (b : byte) : array n :=
  Array (replicate n b) (array_fill_ok n b).

(** [buf\[off..off+src.len()\].copy_from_slice(src)] *)
Definition copy_from_slice (buf : bytes) (off : nat) (src : bytes) : bytes :=
  take off buf ++ src ++ drop (off + length src) buf.

Lemma length_copy_from_slice buf off src :
  (off + length src <= length buf)%nat -> length (copy_from_slice buf off src) = length buf.
Proof. unfold copy_from_slice. rewrite !length_app, length_take, length_drop. lia. Qed.

Lemma copy_from_slice_app a x src off :
  off = length a -> copy_from_slice (a ++ x) off src = a ++ src ++ drop (length src) x.
Proof.
  intros ->. unfold copy_from_slice. rewrite take_app_length.
  rewrite drop_app_ge by lia. do 3 f_equal. lia.
Qed.

Lemma app_inj_len {A} (a b c d : list A) :
  length a = length c -> a ++ b = c ++ d -> a = c /\ b = d.
Proof. apply app_inj_1. Qed.

(** ** Big-endian integers *)

(** The [n] low-order bytes of [x], most significant first.  [Z.shiftr] is
    arithmetic, so a negative [i64] gives its two's complement bytes. *)
Fixpoint be_bytes (n : nat) (x : Z) : bytes :=
  match n with
  | O => []
  | S n => byte_of_Z (Z.shiftr x (8 * Z.of_nat n)) :: be_bytes n x
  end.

Fixpoint from_be (l : bytes) : Z :=
  match l with
  | [] => 0
  | b :: t => Z_of_byte b * 256 ^ len t + from_be t
  end.

(** [u64::to_be_bytes], [u64::from_be_bytes], [u32::...], [i64::to_be_bytes] *)
Lemma length_be_bytes n x : length (be_bytes n x) = n.
Proof. induction n; simpl; congruence. Qed.

Lemma be_bytes_ok n x : Is_true (Nat.eqb (length (be_bytes n x)) n).
Proof. rewrite length_be_bytes. by rewrite Nat.eqb_refl. Qed.

Definition u64_to_be_bytes (x : Z) : array 8 := Array (be_bytes 8 x) (be_bytes_ok 8 x).
Definition i64_to_be_bytes (x : Z) : array 8 := Array (be_bytes 8 x) (be_bytes_ok 8 x).
Definition u32_to_be_bytes (x : Z) : array 4 := Array (be_bytes 4 x) (be_bytes_ok 4 x).
Definition u64_from_be_bytes (a : array 8) : Z := from_be (to_vec a).
Definition u32_from_be_bytes (a : array 4) : Z := from_be (to_vec a).

Lemma pow256 n : 256 ^ Z.of_nat n = 2 ^ (8 * Z.of_nat n).
Proof. rewrite Z.pow_mul_r by lia. done. Qed.

Lemma pow256_pos n : 0 < 256 ^ Z.of_nat n.
Proof. apply Z.pow_pos_nonneg; lia. Qed.

(** The head byte and the tail of the encoding split [x] by quotient and
    remainder. *)
Lemma be_split n x :
  x mod 256 ^ Z.of_nat (S n) =
  (Z.shiftr x (8 * Z.of_nat n)) mod 256 * 256 ^ Z.of_nat n + x mod 256 ^ Z.of_nat n.
Proof.
  rewrite Z.shiftr_div_pow2, <- pow256 by lia.
  rewrite Nat2Z.inj_succ, Z.pow_succ_r by lia.
  rewrite (Z.mul_comm 256), Z.rem_mul_r by (pose proof (pow256_pos n); lia). lia.
Qed.

Lemma from_be_be_bytes n x : from_be (be_bytes n x) = x mod 256 ^ Z.of_nat n.
Proof.
  induction n as [|n IH]; [symmetry; apply Z.mod_1_r|].
  cbn [be_bytes from_be]. rewrite be_split, Z_of_byte_of_Z, IH.
  unfold len. by rewrite length_be_bytes.
Qed.

Lemma from_be_range l : 0 <= from_be l < 256 ^ len l.
Proof.
  induction l as [|b l IH]; [done|]. cbn [from_be].
  rewrite len_cons, Z.pow_add_r by (unfold len; lia).
  pose proof (Z_of_byte_range b). change (256 ^ 1) with 256. nia.
Qed.

Lemma be_bytes_mod n x : be_bytes n (x mod 256 ^ Z.of_nat n) = be_bytes n x.
Proof.
  assert (H : forall k m, (k <= m)%nat -> be_bytes k (x mod 256 ^ Z.of_nat m) = be_bytes k x).
  { induction k as [|k IH]; intros m Hm; [done|]. cbn [be_bytes]. f_equal; [|apply IH; lia].
    apply Z_of_byte_inj. rewrite !Z_of_byte_of_Z, !Z.shiftr_div_pow2, <- pow256 by lia.
    replace (Z.of_nat m) with (Z.of_nat k + Z.of_nat (m - k - 1) + 1) by lia.
    rewrite !Z.pow_add_r by lia. change (256 ^ 1) with 256.
    pose proof (pow256_pos k). pose proof (pow256_pos (m - k - 1)).
    rewrite <- Z.mul_assoc, Z.rem_mul_r by lia.
    rewrite (Z.mul_comm (256 ^ Z.of_nat k)), Z.div_add by lia.
    rewrite (Z.div_small (x mod _)) by (apply Z.mod_pos_bound; lia).
    rewrite Z.add_0_l. rewrite (Z.mul_comm _ 256), Z.rem_mul_r by lia.
    rewrite Z.mul_comm, Z.mod_add by lia. apply Z.mod_mod. lia. }
  by apply H.
Qed.

Lemma be_bytes_from_be l : be_bytes (length l) (from_be l) = l.
Proof.
  induction l as [|b l IH]; [done|]. cbn [length be_bytes from_be].
  pose proof (from_be_range l) as Hr. unfold len in *. pose proof (pow256_pos (length l)).
  f_equal.
  - apply Z_of_byte_inj. rewrite Z_of_byte_of_Z, Z.shiftr_div_pow2, <- pow256 by lia.
    rewrite Z.add_comm, Z.div_add, Z.div_small by lia.
    rewrite Z.add_0_l. apply Z.mod_small, Z_of_byte_range.
  - rewrite <- (be_bytes_mod (length l)), Z.add_comm, Z.mod_add by lia.
    rewrite Z.mod_small by lia. apply IH.
Qed.

Lemma from_be_inj a b : length a = length b -> from_be a = from_be b -> a = b.
Proof.
  intros Hl E. rewrite <- (be_bytes_from_be a), <- (be_bytes_from_be b). by rewrite Hl, E.
Qed.

Lemma two64_256 : two64 = 256 ^ Z.of_nat 8. Proof. done. Qed.

Lemma u64_be_roundtrip x : in_u64 x -> u64_from_be_bytes (u64_to_be_bytes x) = x.
Proof.
  intros Hx. unfold u64_from_be_bytes. cbn [to_vec u64_to_be_bytes].
  rewrite from_be_be_bytes. by apply Z.mod_small.
Qed.

Lemma u64_from_be_range a : in_u64 (u64_from_be_bytes a).
Proof.
  unfold u64_from_be_bytes. pose proof (from_be_range (to_vec a)) as H.
  unfold len in H. rewrite array_length in H. exact H.
Qed.

Lemma u64_to_from_be a : u64_to_be_bytes (u64_from_be_bytes a) = a.
Proof.
  apply to_vec_inj. unfold u64_from_be_bytes. cbn [to_vec u64_to_be_bytes].
  rewrite <- (array_length a) at 1. apply be_bytes_from_be.
Qed.

Lemma u32_be_roundtrip x : in_u32 x -> u32_from_be_bytes (u32_to_be_bytes x) = x.
Proof.
  intros Hx. unfold u32_from_be_bytes. cbn [to_vec u32_to_be_bytes].
  rewrite from_be_be_bytes. by apply Z.mod_small.
Qed.

Lemma u64_to_be_bytes_inj x y :
  in_u64 x -> in_u64 y -> to_vec (u64_to_be_bytes x) = to_vec (u64_to_be_bytes y) -> x = y.
Proof.
  intros Hx Hy E%to_vec_inj. rewrite <- (u64_be_roundtrip x), <- (u64_be_roundtrip y) by done.
  by rewrite E.
Qed.

Lemma u32_to_be_bytes_inj x y :
  in_u32 x -> in_u32 y -> to_vec (u32_to_be_bytes x) = to_vec (u32_to_be_bytes y) -> x = y.
Proof.
  intros Hx Hy E%to_vec_inj. rewrite <- (u32_be_roundtrip x), <- (u32_be_roundtrip y) by done.
  by rewrite E.
Qed.

Lemma i64_to_be_bytes_inj x y :
  in_i64 x -> in_i64 y -> to_vec (i64_to_be_bytes x) = to_vec (i64_to_be_bytes y) -> x = y.
Proof.
  intros Hx Hy E. apply (f_equal from_be) in E. cbn [to_vec i64_to_be_bytes] in E.
  rewrite !from_be_be_bytes, <- two64_256 in E.
  unfold in_i64 in *. unfold two64, two63 in *.
  pose proof (Z.div_mod x 18446744073709551616 ltac:(lia)).
  pose proof (Z.div_mod y 18446744073709551616 ltac:(lia)). lia.
Qed.

(** ** The bytewise order of keys *)

(** [memcmp] on the common prefix, the shorter key first: RocksDB's default
    comparator. *)
Fixpoint bytes_ltb (a b : bytes) : bool :=
  match a, b with
  | _, [] => false
  | [], _ :: _ => true
  | x :: a, y :: b =>
      (Z_of_byte x <? Z_of_byte y) || ((Z_of_byte x =? Z_of_byte y) && bytes_ltb a b)
  end.
Definition bytes_lt (a b : bytes) : Prop := bytes_ltb a b = true.
Definition bytes_le (a b : bytes) : Prop := bytes_ltb b a = false.

#[global] Instance bytes_lt_dec a b : Decision (bytes_lt a b).
Proof. unfold bytes_lt; apply _. Defined.
#[global] Instance bytes_le_dec a b : Decision (bytes_le a b).
Proof. unfold bytes_le; apply _. Defined.

Lemma bytes_lt_irrefl a : ~ bytes_lt a a.
Proof.
  unfold bytes_lt. induction a as [|x a IH]; simpl; [done|].
  by rewrite Z.ltb_irrefl, Z.eqb_refl.
Qed.

Lemma bytes_lt_trans a b c : bytes_lt a b -> bytes_lt b c -> bytes_lt a c.
Proof.
  unfold bytes_lt. revert b c. induction a as [|x a IH]; intros [|y b] [|z c]; simpl; try done.
  rewrite !orb_true_iff, !andb_true_iff, !Z.ltb_lt, !Z.eqb_eq.
  intros [ ? |[? ?]] [ ? |[? ?]]; try (left; lia). right. split; [lia|]. by eapply IH.
Qed.

#[global] Instance bytes_lt_strict : StrictOrder bytes_lt.
Proof.
  split; [intros a; apply bytes_lt_irrefl|intros a b c; apply bytes_lt_trans].
Qed.

Lemma bytes_lt_total a b : bytes_lt a b \/ a = b \/ bytes_lt b a.
Proof.
  unfold bytes_lt. revert b. induction a as [|x a IH]; intros [|y b]; simpl; auto.
  rewrite !orb_true_iff, !andb_true_iff, !Z.ltb_lt, !Z.eqb_eq.
  destruct (Z.lt_total (Z_of_byte x) (Z_of_byte y)) as [ ? |[E|?]]; auto.
  apply Z_of_byte_inj in E as ->. destruct (IH b) as [ ? |[->|?]]; auto.
Qed.

Lemma bytes_le_lt_eq a b : bytes_le a b <-> bytes_lt a b \/ a = b.
Proof.
  unfold bytes_le. split.
  - intros H. destruct (bytes_lt_total a b) as [ ? |[ ? |Hb]]; auto.
    unfold bytes_lt in Hb. congruence.
  - intros [H| ->].
    + destruct (bytes_ltb b a) eqn:E; [|done].
      exfalso. eapply (bytes_lt_irrefl a), bytes_lt_trans; eauto.
    + destruct (bytes_ltb b b) eqn:E; [|done]. by apply bytes_lt_irrefl in E.
Qed.

(** Big-endian encodings are ordered as the numbers they encode. *)
Lemma be_bytes_ltb n x y :
  bytes_ltb (be_bytes n x) (be_bytes n y) =
  (x mod 256 ^ Z.of_nat n <? y mod 256 ^ Z.of_nat n).
Proof.
  induction n as [|n IH]; [by rewrite !Z.mod_1_r|].
  cbn [be_bytes bytes_ltb]. rewrite IH, !be_split, !Z_of_byte_of_Z.
  set (a := Z.shiftr x _ mod 256). set (b := Z.shiftr y _ mod 256).
  pose proof (Z.mod_pos_bound x _ (pow256_pos n)).
  pose proof (Z.mod_pos_bound y _ (pow256_pos n)).
  set (P := 256 ^ Z.of_nat n) in *. set (c := x mod P) in *. set (d := y mod P) in *.
  apply eq_bool_prop_intro. rewrite !Is_true_true.
  rewrite orb_true_iff, andb_true_iff, !Z.ltb_lt, Z.eqb_eq. nia.
Qed.

Lemma u64_be_lt x y :
  in_u64 x -> in_u64 y ->
  bytes_lt (to_vec (u64_to_be_bytes x)) (to_vec (u64_to_be_bytes y)) <-> x < y.
Proof.
  intros Hx Hy. unfold bytes_lt. cbn [to_vec u64_to_be_bytes].
  rewrite be_bytes_ltb, <- two64_256, !Z.mod_small, Z.ltb_lt by done. done.
Qed.

Lemma u64_be_le x y :
  in_u64 x -> in_u64 y ->
  bytes_le (to_vec (u64_to_be_bytes x)) (to_vec (u64_to_be_bytes y)) <-> x <= y.
Proof.
  intros Hx Hy. unfold bytes_le. cbn [to_vec u64_to_be_bytes].
  rewrite be_bytes_ltb, <- two64_256, !Z.mod_small, Z.ltb_ge by done. done.
Qed.

Lemma u32_be_lt x y :
  in_u32 x -> in_u32 y ->
  bytes_lt (to_vec (u32_to_be_bytes x)) (to_vec (u32_to_be_bytes y)) <-> x < y.
Proof.
  intros Hx Hy. unfold bytes_lt. cbn [to_vec u32_to_be_bytes].
  rewrite be_bytes_ltb. change (256 ^ Z.of_nat 4) with two32.
  rewrite !Z.mod_small, Z.ltb_lt by done. done.
Qed.

#[global] Arguments u64_to_be_bytes : simpl never.
#[global] Arguments i64_to_be_bytes : simpl never.
#[global] Arguments u32_to_be_bytes : simpl never.
