(* ===== verification/Hash.v ===== *)
(** * Leaf and node hashes (crates/settled-core/src/hash.rs)

    SHA-256 comes from the [sha2] crate: it is the parameter [sha256] of the
    development, a function from byte strings to 32 bytes about which nothing
    else is assumed.  No theorem assumes collision resistance (a function onto
    32 bytes has collisions); the security theorems compute a colliding pair
    instead. *)

From S2P Require Import Prelude Bytes.

Class Sha256 := sha256 : bytes -> hash32.

(** The incremental hasher: [update] feeds bytes, [finalize] digests
    everything fed since [new]. *)
Module Hasher.
Definition t := bytes.
Definition new : t := [].
Definition update (h : t) (data : bytes) : t := h ++ data.
Definition finalize `{Sha256} (h : t) : hash32 := sha256 h.
End Hasher.

Section Hash.
Context `{Sha256}.

Definition leaf_hash (data : bytes) : hash32 :=
  let h := Hasher.new in
  let h := Hasher.update h [Init.Byte.x00] in
  let h := Hasher.update h data in
  Hasher.finalize h.

Definition node_hash (left right : hash32) : hash32 :=
  let h := Hasher.new in
  let h := Hasher.update h [Init.Byte.x01] in
  let h := Hasher.update h (to_vec left) in
  let h := Hasher.update h (to_vec right) in
  Hasher.finalize h.

(** The byte strings the two functions feed to SHA-256. *)
Definition leaf_preimage (data : bytes) : bytes := Init.Byte.x00 :: data.
Definition node_preimage (left right : hash32) : bytes :=
  Init.Byte.x01 :: to_vec left ++ to_vec right.

Lemma leaf_hash_eq data : leaf_hash data = sha256 (leaf_preimage data).
Proof. done. Qed.

Lemma node_hash_eq l r : node_hash l r = sha256 (node_preimage l r).
Proof. done. Qed.

Lemma leaf_preimage_inj d d' : leaf_preimage d = leaf_preimage d' -> d = d'.
Proof. by intros [= ->]. Qed.

Lemma node_preimage_inj l r l' r' :
  node_preimage l r = node_preimage l' r' -> l = l' /\ r = r'.
Proof.
  intros [= E]. apply app_inj_len in E as [? ?]; [|by rewrite !array_length].
  by split; apply to_vec_inj.
Qed.

Lemma leaf_node_preimage d l r : leaf_preimage d <> node_preimage l r.
Proof. done. Qed.

(** A pair of distinct byte strings with the same digest. *)
Definition collision (c : bytes * bytes) : Prop :=
  c.1 <> c.2 /\ sha256 c.1 = sha256 c.2.

#[global] Instance collision_dec c : Decision (collision c).
Proof. unfold collision; apply _. Defined.

(** Compare two nodes: [None] when the children agree, otherwise the two
    preimages. *)
Definition node_clash (l r l' r' : hash32) : option (bytes * bytes) :=
  if decide (l = l' /\ r = r') then None
  else Some (node_preimage l r, node_preimage l' r').

Lemma node_clash_None l r l' r' : node_clash l r l' r' = None -> l = l' /\ r = r'.
Proof. unfold node_clash. by case_decide. Qed.

Lemma node_clash_Some l r l' r' c :
  node_hash l r = node_hash l' r' -> node_clash l r l' r' = Some c -> collision c.
Proof.
  unfold node_clash. intros E. case_decide as D; [done|]. intros [= <-].
  split; [|exact E]. simpl. intros E'%node_preimage_inj. done.
Qed.

(** Domain separation.  A leaf and an interior node with the same hash
    give a SHA-256 collision, computed from the two: the [0x00]/[0x01]
    prefixes rule out reading one as the other. *)
Theorem leaf_node_separation (d : bytes) (l r : hash32)
    (Heq : leaf_hash d = node_hash l r) :
  collision (leaf_preimage d, node_preimage l r).
Proof. split; [apply leaf_node_preimage|exact Heq]. Qed.

(** The hash of a leaf commits to its data. *)
Lemma leaf_hash_commits d d' :
  leaf_hash d = leaf_hash d' -> d = d' \/ collision (leaf_preimage d, leaf_preimage d').
Proof.
  intros E. destruct (decide (d = d')) as [->|Hne]; [by left|right].
  split; [|exact E]. simpl. by intros ?%leaf_preimage_inj.
Qed.
End Hash.
