(* ===== verification/MerkleSpec.v ===== *)
(** * RFC 6962 Merkle trees: the specification

    The tree over a list of leaf hashes as a data type: [rfc_shape] is the
    shape the RFC prescribes (docs/wire-format.md section 2), [build] the tree over
    given leaves, [troot] its root.  Root, audit path and proof checking are
    structural recursions here; Merkle.v and MerkleProof.v show that the loops
    and slice recursions of the code compute them. *)

From S2P Require Import Prelude Bytes Hash.

Inductive mtree :=
| Leaf (h : hash32)
| Node (l r : mtree).

Fixpoint leaves (T : mtree) : list hash32 :=
  match T with
  | Leaf h => [h]
  | Node l r => leaves l ++ leaves r
  end.

Definition tsize (T : mtree) : Z := len (leaves T).

Fixpoint height (T : mtree) : nat :=
  match T with
  | Leaf _ => O
  | Node l r => S (Nat.max (height l) (height r))
  end.

(** The left subtree of every node is the largest power of two that leaves
    the right one non-empty. *)
Fixpoint rfc_shape (T : mtree) : Prop :=
  match T with
  | Leaf _ => True
  | Node l r =>
      (exists h, 0 <= h /\ tsize l = 2 ^ h /\ tsize r <= 2 ^ h) /\ rfc_shape l /\ rfc_shape r
  end.

(** Largest power of two strictly less than [n], for [n > 1]. *)
Definition split_point (n : Z) : Z := 2 ^ Z.log2 (n - 1).

Fixpoint build_fuel (fuel : nat) (l : list hash32) : option mtree :=
  match fuel with
  | O => None
  | S f =>
      match l with
      | [] => None
      | [h] => Some (Leaf h)
      | _ =>
          let k := Z.to_nat (split_point (len l)) in
          match build_fuel f (take k l), build_fuel f (drop k l) with
          | Some a, Some b => Some (Node a b)
          | _, _ => None
          end
      end
  end.
Definition build (l : list hash32) : option mtree := build_fuel (length l) l.

(** ** Sizes *)

Lemma tsize_Leaf h : tsize (Leaf h) = 1.
Proof. done. Qed.
Lemma tsize_Node l r : tsize (Node l r) = tsize l + tsize r.
Proof. apply len_app. Qed.

Lemma tsize_pos T : 1 <= tsize T.
Proof.
  induction T as [h|l IHl r IHr]; [done|]. rewrite tsize_Node. lia.
Qed.

Lemma pow2_pos h : 0 <= h -> 0 < 2 ^ h.
Proof. intros. apply Z.pow_pos_nonneg; lia. Qed.

Lemma pow2_inj a b : 0 <= a -> 0 <= b -> 2 ^ a = 2 ^ b -> a = b.
Proof. intros. apply (Z.pow_inj_r 2); lia. Qed.

Lemma split_point_unique h r : 0 <= h -> 1 <= r <= 2 ^ h -> split_point (2 ^ h + r) = 2 ^ h.
Proof.
  intros Hh Hr. unfold split_point. f_equal. apply Z.log2_unique; [lia|].
  rewrite Z.pow_succ_r by lia. lia.
Qed.

Lemma split_point_spec n :
  1 < n -> exists h, 0 <= h /\ split_point n = 2 ^ h /\ 2 ^ h < n <= 2 ^ h + 2 ^ h.
Proof.
  intros Hn. exists (Z.log2 (n - 1)). split; [apply Z.log2_nonneg|]. split; [done|].
  pose proof (Z.log2_spec (n - 1) ltac:(lia)) as H.
  rewrite Z.pow_succ_r in H by apply Z.log2_nonneg. lia.
Qed.

Lemma split_point_Node l r : rfc_shape (Node l r) -> split_point (tsize (Node l r)) = tsize l.
Proof.
  intros [(h & Hh & El & Hr) _]. rewrite tsize_Node, El.
  apply split_point_unique; [done|]. pose proof (tsize_pos r). lia.
Qed.

Lemma height_bound T h :
  rfc_shape T -> 0 <= h -> tsize T <= 2 ^ h -> Z.of_nat (height T) <= h.
Proof.
  revert h. induction T as [x|l IHl r IHr]; intros h; cbn [rfc_shape height]; [lia|].
  intros ((k & Hk & El & Er) & Sl & Sr) Hh. rewrite tsize_Node. intros Hs.
  pose proof (tsize_pos r).
  assert (k < h) by (apply (Z.pow_lt_mono_r_iff 2); lia).
  specialize (IHl k Sl Hk ltac:(lia)). specialize (IHr k Sr Hk ltac:(lia)). lia.
Qed.

(** Enough fuel for every recursion over a tree of [u64] size. *)
Definition tree_fuel : nat := 65.

Lemma height_fuel T : rfc_shape T -> tsize T < two64 -> (height T < tree_fuel)%nat.
Proof.
  intros HT Hs. pose proof (height_bound T 64 HT ltac:(lia)) as H.
  change (2 ^ 64) with two64 in H. unfold tree_fuel. lia.
Qed.

(** ** Existence and uniqueness of the tree over given leaves *)

Lemma build_fuel_spec fuel l :
  l <> [] -> (length l <= fuel)%nat ->
  exists T, build_fuel fuel l = Some T /\ leaves T = l /\ rfc_shape T.
Proof.
  revert l. induction fuel as [|f IH]; intros l Hl Hf; [destruct l; simpl in *; [done|lia]|].
  destruct l as [|x [|y l]]; [done|by exists (Leaf x)|].
  remember (x :: y :: l) as L eqn:EL.
  assert (Hn : 1 < len L) by (subst; unfold len; simpl; lia).
  assert (E : build_fuel (S f) L =
    let k := Z.to_nat (split_point (len L)) in
    match build_fuel f (take k L), build_fuel f (drop k L) with
    | Some a, Some b => Some (Node a b) | _, _ => None end) by (by subst).
  rewrite E; clear E. cbv zeta.
  destruct (split_point_spec _ Hn) as (h & Hh & -> & Hsp).
  pose proof (pow2_pos h Hh). unfold len in *. set (k := Z.to_nat (2 ^ h)).
  assert (Hk : (0 < k < length L)%nat) by (unfold k; lia).
  destruct (IH (take k L)) as (a & -> & La & Sa).
  { rewrite <- length_zero_iff_nil, length_take. lia. }
  { rewrite length_take. lia. }
  destruct (IH (drop k L)) as (b & -> & Lb & Sb).
  { rewrite <- length_zero_iff_nil, length_drop. lia. }
  { rewrite length_drop. lia. }
  exists (Node a b). cbn [leaves rfc_shape]. rewrite La, Lb, take_drop.
  do 2 (split; [done|]). split; [|done]. exists h. unfold tsize, len.
  rewrite La, Lb, length_take, length_drop. unfold k in *. lia.
Qed.

Lemma build_spec l : l <> [] -> exists T, build l = Some T /\ leaves T = l /\ rfc_shape T.
Proof. intros. by apply build_fuel_spec. Qed.

Lemma rfc_shape_unique T T' :
  rfc_shape T -> rfc_shape T' -> leaves T = leaves T' -> T = T'.
Proof.
  revert T'. induction T as [x|l IHl r IHr]; intros [x'|l' r'] S S' E.
  - cbn in E. congruence.
  - apply (f_equal len) in E. fold (tsize (Leaf x)) in E. fold (tsize (Node l' r')) in E.
    rewrite tsize_Leaf, tsize_Node in E. pose proof (tsize_pos l'). pose proof (tsize_pos r'). lia.
  - apply (f_equal len) in E. fold (tsize (Leaf x')) in E. fold (tsize (Node l r)) in E.
    rewrite tsize_Leaf, tsize_Node in E. pose proof (tsize_pos l). pose proof (tsize_pos r). lia.
  - assert (Es : tsize l = tsize l').
    { rewrite <- (split_point_Node l r S), <- (split_point_Node l' r' S').
      unfold tsize. by rewrite E. }
    cbn [leaves] in E. apply app_inj_len in E as [El Er]; [|unfold tsize, len in Es; lia].
    destruct S as (_ & ? & ?), S' as (_ & ? & ?).
    by rewrite (IHl l'), (IHr r').
Qed.

Lemma build_leaves T : rfc_shape T -> build (leaves T) = Some T.
Proof.
  intros HT. destruct (build_spec (leaves T)) as (T' & -> & El & ST').
  { pose proof (tsize_pos T). unfold tsize in *. intros E. rewrite E in *. done. }
  f_equal. by apply rfc_shape_unique.
Qed.

Lemma shape_of_size n : 1 <= n -> exists T, rfc_shape T /\ tsize T = n.
Proof.
  intros Hn. pose (x := array_fill 32 Init.Byte.x00).
  destruct (build_spec (replicate (Z.to_nat n) x)) as (T & _ & El & ST).
  { rewrite <- length_zero_iff_nil, length_replicate. lia. }
  exists T. split; [done|]. unfold tsize, len. rewrite El, length_replicate. lia.
Qed.

(** Two trees of the same size have the same shape at the top. *)
Lemma same_size_Node l r l' r' :
  rfc_shape (Node l r) -> rfc_shape (Node l' r') ->
  tsize (Node l r) = tsize (Node l' r') -> tsize l = tsize l' /\ tsize r = tsize r'.
Proof.
  intros S S' E. assert (El : tsize l = tsize l').
  { by rewrite <- (split_point_Node l r S), <- (split_point_Node l' r' S'), E. }
  rewrite !tsize_Node in E. lia.
Qed.

(** A tree larger than the left subtree splits at the same point. *)
Lemma size_Node l r T1 :
  rfc_shape (Node l r) -> rfc_shape T1 -> tsize l < tsize T1 <= tsize l + tsize r ->
  exists l1 r1, T1 = Node l1 r1 /\ tsize l1 = tsize l /\ tsize T1 - tsize l = tsize r1.
Proof.
  intros [(k & Hk & El & Er) _] S1 Hs. pose proof (tsize_pos l).
  destruct T1 as [x|l1 r1]; [rewrite tsize_Leaf in Hs; lia|].
  exists l1, r1. split; [done|]. pose proof (split_point_Node l1 r1 S1) as E.
  replace (tsize (Node l1 r1)) with (2 ^ k + (tsize (Node l1 r1) - tsize l)) in E by lia.
  rewrite split_point_unique in E by lia. rewrite tsize_Node. lia.
Qed.

(** Perfect trees: [2 ^ h] leaves. *)
Lemma perfect_Node l r h :
  rfc_shape (Node l r) -> 0 <= h -> tsize (Node l r) = 2 ^ h ->
  1 <= h /\ tsize l = 2 ^ (h - 1) /\ tsize r = 2 ^ (h - 1).
Proof.
  intros [(k & Hk & El & Er) _] Hh. rewrite tsize_Node. intros E.
  pose proof (tsize_pos r). pose proof (pow2_pos k Hk).
  assert (k < h) by (apply (Z.pow_lt_mono_r_iff 2); lia).
  assert (h <= Z.succ k).
  { apply (Z.pow_le_mono_r_iff 2); [lia|lia|]. rewrite Z.pow_succ_r by lia. lia. }
  replace k with (h - 1) in * by lia. split; [lia|]. split; [done|].
  replace h with (Z.succ (h - 1)) in E by lia. rewrite Z.pow_succ_r in E by lia. lia.
Qed.

(** The tree over a proper prefix that reaches into the right subtree shares
    the left one. *)
Lemma prefix_Node l r T1 m :
  rfc_shape (Node l r) -> rfc_shape T1 -> tsize l < m <= tsize l + tsize r ->
  leaves T1 = take (Z.to_nat m) (leaves (Node l r)) ->
  exists r1, T1 = Node l r1 /\ rfc_shape r1 /\
             leaves r1 = take (Z.to_nat (m - tsize l)) (leaves r).
Proof.
  intros ((k & Hk & El & Er) & Sl & Sr) S1 Hm E1. pose proof (tsize_pos l).
  destruct (build_spec (take (Z.to_nat (m - tsize l)) (leaves r))) as (r1 & _ & Er1 & Sr1).
  { rewrite <- length_zero_iff_nil, length_take. unfold tsize, len in *. lia. }
  exists r1. split; [|done]. apply rfc_shape_unique; [done| |].
  - cbn [rfc_shape]. split; [|done]. exists k. do 2 (split; [done|]).
    unfold tsize, len in *. rewrite Er1, length_take. lia.
  - rewrite E1. cbn [leaves]. rewrite Er1, take_app_ge by (unfold tsize, len in *; lia).
    f_equal. f_equal. unfold tsize, len. lia.
Qed.

(** ** Roots, audit paths and proof checking *)

Section Spec.
Context `{Sha256}.

(** MTH *)
Fixpoint troot (T : mtree) : hash32 :=
  match T with
  | Leaf h => h
  | Node l r => node_hash (troot l) (troot r)
  end.

(** PATH(m, D\[n\]), from leaf to root. *)
Fixpoint tpath (T : mtree) (m : Z) : list hash32 :=
  match T with
  | Leaf _ => []
  | Node l r =>
      if m <? tsize l then tpath l m ++ [troot r]
      else tpath r (m - tsize l) ++ [troot l]
  end.

(** The root an audit path [q] (from root to leaf) reconstructs from the
    leaf hash [lh] at index [m]; it depends only on the shape of [T]. *)
Fixpoint tfold (T : mtree) (m : Z) (lh : hash32) (q : list hash32) : option hash32 :=
  match T with
  | Leaf _ => match q with [] => Some lh | _ => None end
  | Node l r =>
      match q with
      | [] => None
      | s :: q =>
          if m <? tsize l then (fun x => node_hash x s) <$> tfold l m lh q
          else node_hash s <$> tfold r (m - tsize l) lh q
      end
  end.

Fixpoint tdepth (T : mtree) (m : Z) : nat :=
  match T with
  | Leaf _ => O
  | Node l r => S (if m <? tsize l then tdepth l m else tdepth r (m - tsize l))
  end.

(** SUBPROOF(m, D\[n\], b) *)
Fixpoint tsub (T : mtree) (m : Z) (b : bool) : list hash32 :=
  if m =? tsize T then (if b then [] else [troot T])
  else match T with
       | Leaf _ => []
       | Node l r =>
           if m <=? tsize l then tsub l m b ++ [troot r]
           else tsub r (m - tsize l) false ++ [troot l]
       end.

(** The old and the new root a consistency proof reconstructs, with what it
    leaves of the proof. *)
Fixpoint tver (T : mtree) (m : Z) (o : hash32) (b : bool) (p : list hash32)
  : option (hash32 * hash32 * list hash32) :=
  if m =? tsize T then
    if b then Some (o, o, p)
    else match p with [] => None | h :: p => Some (h, h, p) end
  else match T with
       | Leaf _ => None
       | Node l r =>
           if m <=? tsize l then
             match tver l m o b p with
             | Some (lo, ln, s :: p) => Some (lo, node_hash ln s, p)
             | _ => None
             end
           else
             match tver r (m - tsize l) o false p with
             | Some (ro, rn, s :: p) => Some (node_hash s ro, node_hash s rn, p)
             | _ => None
             end
       end.

Lemma tfold_depth T m lh q : is_Some (tfold T m lh q) <-> length q = tdepth T m.
Proof.
  revert m q. induction T as [x|l IHl r IHr]; intros m q; cbn [tfold tdepth].
  - destruct q; simpl; split; try done; eauto; intros [? ?]; done.
  - destruct q as [|s q]; simpl; [split; [intros [? ?]; done|done]|].
    destruct (m <? tsize l); rewrite fmap_is_Some.
    + rewrite IHl. split; congruence.
    + rewrite IHr. split; congruence.
Qed.

Lemma tdepth_height T m : (tdepth T m <= height T)%nat.
Proof.
  revert m. induction T as [x|l IHl r IHr]; intros m; cbn [tdepth height]; [lia|].
  destruct (m <? tsize l); [specialize (IHl m)|specialize (IHr (m - tsize l))]; lia.
Qed.

Lemma length_tpath T m : length (tpath T m) = tdepth T m.
Proof.
  revert m. induction T as [x|l IHl r IHr]; intros m; cbn [tpath tdepth]; [done|].
  destruct (m <? tsize l); rewrite length_app; simpl; rewrite ?IHl, ?IHr; lia.
Qed.

(** The path of a leaf reconstructs the root. *)
Lemma tfold_tpath T m lh :
  0 <= m -> leaves T !! Z.to_nat m = Some lh ->
  tfold T m lh (rev (tpath T m)) = Some (troot T).
Proof.
  revert m. induction T as [x|l IHl r IHr]; intros m Hm; cbn [leaves tpath troot].
  - intros E.
    destruct (Z.to_nat m); simpl in E; [by injection E as ->|done].
  - intros E. destruct (Z.ltb_spec m (tsize l)) as [Hlt|Hge].
    + rewrite rev_unit. cbn [tfold]. rewrite (proj2 (Z.ltb_lt _ _) Hlt).
      rewrite IHl; [done|done|]. rewrite lookup_app_l in E; [done|].
      unfold tsize, len in Hlt. lia.
    + rewrite rev_unit. cbn [tfold]. rewrite (proj2 (Z.ltb_ge _ _) Hge).
      rewrite IHr; [done|lia|]. unfold tsize, len in Hge |- *.
      rewrite lookup_app_r in E by lia. rewrite <- E. f_equal. lia.
Qed.

(** The subproof reconstructs both roots. *)
Lemma tver_tsub T T1 m o b rest :
  rfc_shape T -> rfc_shape T1 -> 1 <= m <= tsize T -> leaves T1 = take (Z.to_nat m) (leaves T) ->
  (b = true -> o = troot T1) ->
  tver T m o b (tsub T m b ++ rest) = Some (troot T1, troot T, rest).
Proof.
  revert T1 m b rest. induction T as [x|l IHl r IHr]; intros T1 m b rest S S1 Hm El Ho.
  - rewrite tsize_Leaf in Hm. replace m with 1 in * by lia.
    change (leaves T1 = leaves (Leaf x)) in El.
    apply rfc_shape_unique in El as ->; [|done|done]. cbn. destruct b; [|done].
    by rewrite Ho.
  - destruct (Z.eq_dec m (tsize (Node l r))) as [Em|Em].
    + assert (T1 = Node l r) as ->.
      { apply rfc_shape_unique; [done|done|]. rewrite El, Em. unfold tsize, len.
        rewrite Nat2Z.id. by rewrite firstn_all. }
      cbn [tver tsub]. rewrite (proj2 (Z.eqb_eq _ _) Em). destruct b; [by rewrite Ho|done].
    + cbn [tver tsub]. rewrite (proj2 (Z.eqb_neq _ _) Em). rewrite tsize_Node in *.
      pose proof S as (_ & Sl & Sr).
      destruct (Z.leb_spec m (tsize l)) as [Hle|Hgt].
      * rewrite <- app_assoc, (IHl T1); try done; [lia|].
        rewrite El. cbn [leaves]. rewrite take_app_le; [done|]. unfold tsize, len in Hle. lia.
      * destruct (prefix_Node l r T1 m S S1 ltac:(lia) El) as (r1 & -> & S1r & Er1).
        rewrite <- app_assoc, (IHr r1); [done..|lia|done|done].
Qed.

(** ** Extracting collisions

    When a proof reconstructs the root of a tree that does not hold what the
    proof claims, two different nodes have the same hash.  These functions
    walk down and return the first such pair. *)

Definition or_else (a b : option (bytes * bytes)) : option (bytes * bytes) :=
  match a with Some c => Some c | None => b end.

(** Two trees of the same size. *)
Fixpoint tclash (T T' : mtree) : option (bytes * bytes) :=
  match T, T' with
  | Node l r, Node l' r' =>
      or_else (node_clash (troot l) (troot r) (troot l') (troot r'))
              (or_else (tclash l l') (tclash r r'))
  | _, _ => None
  end.

(** An audit path [q] (from root to leaf) checked against [T]. *)
Fixpoint path_clash (T : mtree) (m : Z) (lh : hash32) (q : list hash32)
  : option (bytes * bytes) :=
  match T, q with
  | Node l r, s :: q =>
      if m <? tsize l then
        match tfold l m lh q with
        | Some x => or_else (node_clash x s (troot l) (troot r)) (path_clash l m lh q)
        | None => None
        end
      else
        match tfold r (m - tsize l) lh q with
        | Some x => or_else (node_clash s x (troot l) (troot r))
                            (path_clash r (m - tsize l) lh q)
        | None => None
        end
  | _, _ => None
  end.

(** A consistency proof [p] from [T1] to [T]. *)
Fixpoint consistency_clash (T1 T : mtree) (o : hash32) (b : bool) (p : list hash32)
  : option (bytes * bytes) :=
  if tsize T1 =? tsize T then tclash T1 T
  else match T with
       | Leaf _ => None
       | Node l r =>
           if tsize T1 <=? tsize l then
             match tver l (tsize T1) o b p with
             | Some (_, ln, s :: _) =>
                 or_else (node_clash ln s (troot l) (troot r)) (consistency_clash T1 l o b p)
             | _ => None
             end
           else
             match T1 with
             | Leaf _ => None
             | Node l1 r1 =>
                 match tver r (tsize T1 - tsize l) o false p with
                 | Some (ro, rn, s :: _) =>
                     or_else (node_clash s ro (troot l1) (troot r1))
                       (or_else (node_clash s rn (troot l) (troot r))
                          (or_else (tclash l1 l) (consistency_clash r1 r o false p)))
                 | _ => None
                 end
             end
       end.

(** An extractor either returns a collision or proves [P]. *)
Definition clash_or (o : option (bytes * bytes)) (P : Prop) : Prop :=
  match o with Some c => collision c | None => P end.

Lemma clash_or_node l r l' r' o P :
  node_hash l r = node_hash l' r' ->
  (l = l' -> r = r' -> clash_or o P) ->
  clash_or (or_else (node_clash l r l' r') o) P.
Proof.
  intros E K. destruct (node_clash l r l' r') as [c|] eqn:C; simpl.
  - by eapply node_clash_Some.
  - apply node_clash_None in C as [-> ->]. by apply K.
Qed.

Lemma clash_or_else o o' P Q :
  clash_or o P -> (P -> clash_or o' Q) -> clash_or (or_else o o') Q.
Proof. destruct o as [c|]; simpl; auto. Qed.

Lemma clash_or_impl o (P Q : Prop) : clash_or o P -> (P -> Q) -> clash_or o Q.
Proof. destruct o; simpl; auto. Qed.

Lemma tclash_spec T T' :
  rfc_shape T -> rfc_shape T' -> tsize T = tsize T' -> troot T = troot T' ->
  clash_or (tclash T T') (leaves T = leaves T').
Proof.
  revert T'. induction T as [x|l IHl r IHr]; intros [x'|l' r'] S S' Es Er.
  - cbn in *. by rewrite Er.
  - rewrite tsize_Leaf, tsize_Node in Es.
    pose proof (tsize_pos l'). pose proof (tsize_pos r'). lia.
  - rewrite tsize_Leaf, tsize_Node in Es.
    pose proof (tsize_pos l). pose proof (tsize_pos r). lia.
  - destruct (same_size_Node l r l' r' S S' Es) as [Esl Esr].
    destruct S as (_ & Sl & Sr), S' as (_ & Sl' & Sr').
    cbn [tclash troot leaves] in *. apply clash_or_node; [done|]. intros Erl Err.
    apply clash_or_else with (P := leaves l = leaves l'); [by apply IHl|]. intros ->.
    apply clash_or_impl with (P := leaves r = leaves r'); [by apply IHr|]. by intros ->.
Qed.

Lemma path_clash_spec T m lh q :
  0 <= m < tsize T -> tfold T m lh q = Some (troot T) ->
  clash_or (path_clash T m lh q) (leaves T !! Z.to_nat m = Some lh).
Proof.
  revert m q. induction T as [x|l IHl r IHr]; intros m q Hm E.
  - rewrite tsize_Leaf in Hm. replace m with 0 by lia. destruct q; cbn in *; [|done].
    by injection E as ->.
  - destruct q as [|s q]; [done|]. cbn [tfold path_clash leaves troot] in *.
    rewrite tsize_Node in Hm. destruct (Z.ltb_spec m (tsize l)) as [Hlt|Hge].
    + destruct (tfold l m lh q) as [x|] eqn:F; [|done]. injection E as E.
      apply clash_or_node; [done|]. intros -> ->.
      eapply clash_or_impl; [apply IHl; [lia|done]|]. intros L. rewrite lookup_app_l; [done|].
      by eapply lookup_lt_Some.
    + destruct (tfold r (m - tsize l) lh q) as [x|] eqn:F; [|done]. injection E as E.
      apply clash_or_node; [done|]. intros -> ->.
      eapply clash_or_impl; [apply IHr; [lia|done]|]. intros L.
      unfold tsize, len in *. rewrite lookup_app_r by lia. rewrite <- L. f_equal. lia.
Qed.

Lemma tver_same T m o b p x y rest :
  m = tsize T -> tver T m o b p = Some (x, y, rest) -> x = y.
Proof.
  intros -> E. destruct T; cbn [tver] in E; rewrite Z.eqb_refl in E; destruct b, p; congruence.
Qed.

Lemma consistency_clash_same T1 T o b p rest :
  rfc_shape T1 -> rfc_shape T -> tsize T1 = tsize T ->
  tver T (tsize T1) o b p = Some (troot T1, troot T, rest) ->
  clash_or (consistency_clash T1 T o b p)
           (leaves T1 = take (Z.to_nat (tsize T1)) (leaves T)).
Proof.
  intros S1 S Es E. apply tver_same in E; [|done].
  replace (consistency_clash T1 T o b p) with (tclash T1 T).
  - eapply clash_or_impl; [by apply tclash_spec|]. intros ->.
    unfold tsize in *. rewrite Es. unfold len. rewrite Nat2Z.id. by rewrite firstn_all.
  - destruct T; cbn [consistency_clash]; by rewrite Es, Z.eqb_refl.
Qed.

Lemma consistency_clash_spec T1 T o b p rest :
  rfc_shape T1 -> rfc_shape T -> tsize T1 <= tsize T ->
  tver T (tsize T1) o b p = Some (troot T1, troot T, rest) ->
  clash_or (consistency_clash T1 T o b p)
           (leaves T1 = take (Z.to_nat (tsize T1)) (leaves T)).
Proof.
  revert T1 b p rest. induction T as [x|l IHl r IHr]; intros T1 b p rest S1 S Hs E.
  { apply (consistency_clash_same _ _ _ _ _ rest); try done.
    rewrite tsize_Leaf in *. pose proof (tsize_pos T1). lia. }
  destruct (Z.eq_dec (tsize T1) (tsize (Node l r))) as [Es|Es].
  { by apply (consistency_clash_same _ _ _ _ _ rest). }
  cbn [tver consistency_clash leaves troot] in *.
  rewrite (proj2 (Z.eqb_neq _ _) Es) in *. rewrite tsize_Node in *.
  pose proof S as (_ & Sl & Sr). destruct (Z.leb_spec (tsize T1) (tsize l)) as [Hle|Hgt].
  - destruct (tver l (tsize T1) o b p) as [[[lo ln] [|s p']]|] eqn:F; [done| |done].
    injection E as -> E ->. apply clash_or_node; [done|]. intros -> ->.
    eapply clash_or_impl; [by eapply IHl|]. intros L.
    rewrite take_app_le by (unfold tsize, len in *; lia). exact L.
  - destruct (size_Node l r T1 S S1 ltac:(lia)) as (l1 & r1 & -> & El1 & Er1).
    destruct (tver r (tsize (Node l1 r1) - tsize l) o false p)
      as [[[ro rn] [|s p']]|] eqn:F; [done| |done].
    injection E as E1 E2 ->. apply clash_or_node; [done|]. intros -> ->.
    apply clash_or_node; [done|]. intros El ->. pose proof S1 as (_ & S1l & S1r).
    eapply clash_or_else; [by apply tclash_spec|]. intros Ell. rewrite Er1 in F.
    eapply clash_or_impl; [eapply IHr; [done..| |exact F]; rewrite <- Er1, tsize_Node in *; lia|].
    intros Err. cbn [leaves]. rewrite Ell.
    rewrite take_app_ge by (unfold tsize, len in *; lia).
    f_equal. rewrite Err at 1. f_equal. rewrite <- Er1. unfold tsize, len. lia.
Qed.
End Spec.
