(* ===== verification/Merkle.v ===== *)
(** * Merkle roots and the append-only tree (crates/settled-core/src/merkle.rs)

    [mth] recurses on slices; [MerkleTree] keeps the frontier of perfect
    subtrees and folds it into the root.  Both compute the root of the RFC 6962
    tree over the leaves, without panicking. *)

From S2P Require Import Prelude Bytes Hash MerkleSpec.

(** ** Definitions *)

Section Definitions.
Context `{Profile} `{Sha256}.

(** Largest power of two strictly less than [n]; asserts [n > 1]. *)
Definition k (n : Z) : outcome Z :=
  if 1 <? n then
    let! m := u64_sub n 1 in
    let! s := u32_sub 63 (leading_zeros m) in
    u64_shl 1 s
  else Panic.

Fixpoint mth_fuel (fuel : nat) (leaf_hashes : list hash32) : outcome (option hash32) :=
  match fuel with
  | O => OutOfFuel
  | S fuel =>
      let n := len leaf_hashes in
      if n =? 0 then Ret None
      else if n =? 1 then let! h := index leaf_hashes 0 in Ret (Some h)
      else
        let! split := k n in
        let! l := slice_to leaf_hashes split in
        let! left_ := mth_fuel fuel l in
        let! left_ := unwrap left_ in
        let! r := slice_from leaf_hashes split in
        let! right_ := mth_fuel fuel r in
        let! right_ := unwrap right_ in
        Ret (Some (node_hash left_ right_))
  end.
Definition mth (leaf_hashes : list hash32) : outcome (option hash32) :=
  mth_fuel tree_fuel leaf_hashes.
End Definitions.

Module MerkleTree.
Record t := mk { frontier : list hash32; size_ : Z }.

Definition zero : hash32 := array_fill 32 Init.Byte.x00.

Section Operations.
Context `{Profile} `{Sha256}.

Definition new : t := {| frontier := []; size_ := 0 |}.

Definition size (self : t) : Z := self.(size_).

(** [while self.size & (1 << level) != 0] *)
Fixpoint append_loop (fuel : nat) (self : t) (hash : hash32) (level : Z)
  : outcome (hash32 * Z) :=
  match fuel with
  | O => OutOfFuel
  | S fuel =>
      let! bit := u64_shl 1 level in
      if negb (Z.land self.(size_) bit =? 0) then
        let! f := index self.(frontier) level in
        let hash := node_hash f hash in
        let! level := u64_add level 1 in
        append_loop fuel self hash level
      else Ret (hash, level)
  end.

(** [for l in 0..level { self.frontier\[l\] = \[0u8; 32\]; }] *)
Fixpoint zero_below (n : nat) (frontier : list hash32) : outcome (list hash32) :=
  match n with
  | O => Ret frontier
  | S n => let! f := zero_below n frontier in index_set f (Z.of_nat n) zero
  end.

Definition append (self : t) (lh : hash32) : outcome (t * Z) :=
  let index := self.(size_) in
  let! (hash, level) := append_loop tree_fuel self lh 0 in
  let! frontier :=
    if level <? len self.(frontier) then index_set self.(frontier) level hash
    else Ret (self.(frontier) ++ [hash]) in
  let! frontier := zero_below (Z.to_nat level) frontier in
  let! size := u64_add self.(size_) 1 in
  Ret ({| frontier := frontier; size_ := size |}, index).

(** [for (level, &node) in self.frontier.iter().enumerate()] *)
Fixpoint root_loop (size : Z) (nodes : list hash32) (level : Z) (hash : option hash32)
  : outcome (option hash32) :=
  match nodes with
  | [] => Ret hash
  | node :: nodes =>
      let! bit := u64_shl 1 level in
      let hash :=
        if Z.land size bit =? 0 then hash
        else Some (match hash with
                   | None => node
                   | Some h => node_hash node h
                   end) in
      root_loop size nodes (level + 1) hash
  end.

Definition root (self : t) : outcome (option hash32) :=
  if self.(size_) =? 0 then Ret None
  else root_loop self.(size_) self.(frontier) 0 None.

(** Append leaf hashes in order, as the server does at startup and for a
    batch. *)
Fixpoint append_all (self : t) (lhs : list hash32) : outcome t :=
  match lhs with
  | [] => Ret self
  | lh :: lhs => let! (self, _) := append self lh in append_all self lhs
  end.
End Operations.
End MerkleTree.

(** ** The split point and [mth] *)

Section Mth.
Context `{Profile} `{Sha256}.

Lemma leading_zeros_pos m : 0 < m -> leading_zeros m = 63 - Z.log2 m.
Proof. intros. unfold leading_zeros. by decide_if. Qed.

Lemma log2_u64 m : 0 < m < two64 -> 0 <= Z.log2 m < 64.
Proof.
  intros Hm. split; [apply Z.log2_nonneg|]. apply Z.log2_lt_pow2; [lia|].
  change (2 ^ 64) with two64. lia.
Qed.

Lemma k_spec n : 1 < n < two64 -> k n = Ret (split_point n).
Proof.
  intros Hn. unfold k. decide_if. pose proof (log2_u64 (n - 1) ltac:(lia)) as Hl.
  rewrite u64_sub_in by (unfold in_u64; lia). simpl.
  rewrite leading_zeros_pos, u32_sub_in by ulia. simpl.
  replace (63 - (63 - Z.log2 (n - 1))) with (Z.log2 (n - 1)) by lia.
  pose proof (Z.log2_spec (n - 1) ltac:(lia)).
  rewrite u64_shl_in by (unfold in_u64; lia).
  unfold split_point. f_equal. lia.
Qed.

(** [k] never panics on a tree size above one and returns the largest
    power of two strictly below it. *)
Theorem k_largest_power (n : Z) (Hn : 1 < n < two64) :
  exists h, 0 <= h /\ k n = Ret (2 ^ h) /\ 2 ^ h < n /\
    (forall h', 0 <= h' -> 2 ^ h' < n -> 2 ^ h' <= 2 ^ h).
Proof.
  destruct (split_point_spec n ltac:(lia)) as (h & Hh & E & Hb).
  exists h. rewrite k_spec, E by done. do 2 (split; [done|]). split; [lia|].
  intros h' Hh' Hlt. apply Z.pow_le_mono_r; [lia|].
  apply Z.lt_succ_r. apply (Z.pow_lt_mono_r_iff 2); [lia|lia|].
  rewrite Z.pow_succ_r by lia. lia.
Qed.

Lemma mth_fuel_tree T fuel :
  rfc_shape T -> tsize T < two64 -> (height T < fuel)%nat ->
  mth_fuel fuel (leaves T) = Ret (Some (troot T)).
Proof.
  revert fuel. induction T as [x|l IHl r IHr]; intros fuel S Hs Hf.
  - destruct fuel; [lia|]. done.
  - destruct fuel as [|fuel]; [lia|]. cbn [height] in Hf.
    pose proof (tsize_pos l). pose proof (tsize_pos r).
    pose proof (split_point_Node l r S) as Ek. rewrite tsize_Node in *.
    pose proof S as (_ & Sl & Sr).
    cbn [mth_fuel leaves troot]. change (len (leaves l ++ leaves r)) with (tsize (Node l r)).
    rewrite tsize_Node. decide_if.
    rewrite k_spec, Ek by lia. simpl. unfold tsize at 1. rewrite slice_to_app. simpl.
    rewrite IHl by (done || lia). simpl. unfold tsize at 1. rewrite slice_from_app. simpl.
    rewrite IHr by (done || lia). done.
Qed.

Lemma mth_tree T : rfc_shape T -> tsize T < two64 -> mth (leaves T) = Ret (Some (troot T)).
Proof. intros. apply mth_fuel_tree; [done|done|]. by apply height_fuel. Qed.

Lemma mth_build l : len l < two64 -> mth l = Ret (troot <$> build l).
Proof.
  intros Hl. destruct (decide (l = [])) as [->|Hne]; [done|].
  destruct (build_spec l Hne) as (T & -> & <- & ST). by apply mth_tree.
Qed.

(** C40: [mth] is the RFC 6962 tree hash.  It never panics and never runs
    out of recursion depth on a slice of [u64] length: the empty slice has
    no root, any other has the root of the RFC tree over its leaves. *)
Theorem mth_correct (l : list hash32) (Hl : len l < two64) :
  mth l = Ret (troot <$> build l).
Proof. by apply mth_build. Qed.
End Mth.

(** ** The frontier *)

Section Frontier.
Context `{Profile} `{Sha256}.

(** [rep h s f L]: the frontier suffix [f], whose first element is at level
    [h], holds the roots of the perfect trees given by the bits of [s], and
    those trees cover the leaves [L] from left (high levels) to right. *)
Inductive rep : Z -> Z -> list hash32 -> list hash32 -> Prop :=
| rep_nil h : rep h 0 [] []
| rep_zero h s x f L : 0 < s -> rep (h + 1) s f L -> rep h (2 * s) (x :: f) L
| rep_one h s x f L T :
    rep (h + 1) s f L -> rfc_shape T -> tsize T = 2 ^ h -> troot T = x ->
    rep h (2 * s + 1) (x :: f) (L ++ leaves T).

(** The invariant of [MerkleTree]: it represents the leaves [L]. *)
Definition represents (t : MerkleTree.t) (L : list hash32) : Prop :=
  rep 0 (MerkleTree.size_ t) (MerkleTree.frontier t) L /\ in_u64 (MerkleTree.size_ t).

Lemma rep_nonneg h s f L : rep h s f L -> 0 <= s.
Proof. induction 1; lia. Qed.

Lemma rep_len h s f L : rep h s f L -> f = [] \/ 2 ^ len f <= 2 * s.
Proof.
  induction 1 as [|h s x f L Hs R IH|h s x f L T R IH _ _ _]; [by left|right|right];
    pose proof (rep_nonneg _ _ _ _ R); pose proof (len_nonneg f);
    rewrite len_cons, Z.pow_add_r by lia; change (2 ^ 1) with 2;
    (destruct IH as [->|IH]; [rewrite len_nil|]; lia).
Qed.

Lemma rep_size h s f L : 0 <= h -> rep h s f L -> len L = s * 2 ^ h.
Proof.
  intros Hh R. induction R as [h|h s x f L Hs R IH|h s x f L T R IH ST Hs _]; [done| |].
  - rewrite IH by lia. rewrite Z.pow_add_r by lia. lia.
  - rewrite len_app. fold (tsize T). rewrite IH, Hs by lia.
    rewrite Z.pow_add_r by lia. lia.
Qed.

Lemma represents_size t L : represents t L -> MerkleTree.size t = len L.
Proof. intros [R%rep_size _]; [|lia]. unfold MerkleTree.size. lia. Qed.

Lemma rep_len_64 s f L : rep 0 s f L -> s < two64 -> len f <= 64.
Proof.
  intros R Hs. destruct (rep_len _ _ _ _ R) as [->|Hl]; [done|].
  assert (len f < 65); [|lia]. apply (Z.pow_lt_mono_r_iff 2); [lia|lia|].
  change (2 ^ 65) with (2 * two64). lia.
Qed.

Lemma bit_odd a l : 0 <= l -> negb (Z.land a (2 ^ l) =? 0) = Z.odd (a / 2 ^ l).
Proof.
  intros Hl. rewrite <- Z.shiftr_div_pow2, <- Z.testbit_odd by lia.
  destruct (Z.testbit a l) eqn:B.
  - apply negb_true_iff, Z.eqb_neq. intros E.
    apply (f_equal (fun x => Z.testbit x l)) in E.
    rewrite Z.land_spec, B, Z.pow2_bits_true, Z.bits_0 in E by lia. done.
  - apply negb_false_iff, Z.eqb_eq. apply Z.bits_inj'. intros i Hi.
    rewrite Z.land_spec, Z.bits_0. destruct (Z.eq_dec i l) as [->|Hne]; [by rewrite B|].
    by rewrite Z.pow2_bits_false, andb_false_r by lia.
Qed.

Lemma shl_one l : 0 <= l < 64 -> u64_shl 1 l = Ret (2 ^ l).
Proof.
  intros Hl. rewrite u64_shl_in; [f_equal; lia|done|].
  rewrite Z.mul_1_l. unfold in_u64. pose proof (pow2_pos l ltac:(lia)).
  change two64 with (2 ^ 64). split; [lia|]. apply Z.pow_lt_mono_r; lia.
Qed.

Lemma odd_double s : Z.odd (2 * s) = false.
Proof. rewrite Z.odd_mul. done. Qed.
Lemma odd_double_1 s : Z.odd (2 * s + 1) = true.
Proof. rewrite Z.odd_add, odd_double. done. Qed.

Lemma div_pow_succ a l b s :
  0 <= l -> 0 <= b < 2 -> a / 2 ^ l = 2 * s + b -> a / 2 ^ (l + 1) = s.
Proof.
  intros Hl Hb E. rewrite Z.pow_add_r by lia.
  pose proof (pow2_pos l Hl). rewrite <- Z.div_div, E by lia. change (2 ^ 1) with 2.
  rewrite Z.mul_comm, Z.div_add_l, Z.div_small by lia. lia.
Qed.

Lemma level_64 s l : 0 <= s -> 0 <= l -> (s + 1) * 2 ^ l < two64 -> l < 64.
Proof.
  intros Hs Hl Hb. apply (Z.pow_lt_mono_r_iff 2); [lia|lia|].
  change (2 ^ 64) with two64. pose proof (pow2_pos l Hl). nia.
Qed.

(** The carry loop: it merges the perfect tree [T] with the occupied levels
    above it. *)
Lemma append_loop_spec self pre f s L T fuel :
  rep (len pre) s f L ->
  MerkleTree.frontier self = pre ++ f -> MerkleTree.size_ self / 2 ^ len pre = s ->
  rfc_shape T -> tsize T = 2 ^ len pre ->
  (s + 1) * 2 ^ len pre < two64 -> 64 < Z.of_nat fuel + len pre ->
  exists (n : nat) hash rest,
    MerkleTree.append_loop fuel self (troot T) (len pre) = Ret (hash, len pre + Z.of_nat n) /\
    (n <= length f)%nat /\ rest = drop (S n) f /\
    rep (len pre) (s + 1) (replicate n MerkleTree.zero ++ hash :: rest) (L ++ leaves T).
Proof.
  intros R. remember (len pre) as h eqn:Eh. revert pre fuel T Eh.
  induction R as [h|h s x f L Hs R IH|h s x f L T0 R IH S0 Hs0 E0];
    intros pre fuel T Eh Ef Ed ST HsT Hb Hfuel; pose proof (len_nonneg pre) as Hp.
  all: try pose proof (rep_nonneg _ _ _ _ R) as Hs'.
  all: assert (Hh : h < 64) by (eapply level_64; [| |exact Hb]; lia).
  all: destruct fuel as [|fuel]; [lia|]; cbn [MerkleTree.append_loop];
    rewrite shl_one by lia; cbn [obind]; rewrite bit_odd, Ed by lia.
  - exists 0%nat, (troot T), []. cbn. rewrite Z.add_0_r. do 3 (split; [done|]).
    by apply (rep_one h 0 (troot T) [] []); [apply rep_nil|..].
  - rewrite odd_double. exists 0%nat, (troot T), f. cbn. rewrite Z.add_0_r.
    split; [done|]. split; [lia|]. split; [done|].
    by apply rep_one.
  - rewrite odd_double_1.
    assert (Ei : index (MerkleTree.frontier self) h = Ret x).
    { apply index_Some; [lia|]. rewrite Ef, Eh. unfold len. rewrite Nat2Z.id.
      by apply list_lookup_middle. }
    rewrite Ei. cbn [obind]. rewrite u64_add_in by ulia. cbn [obind].
    destruct (IH (pre ++ [x]) fuel (Node T0 T)) as (n & hash & rest & El & Hn & Er & R').
    + rewrite len_app, <- Eh. done.
    + by rewrite <- app_assoc.
    + apply (div_pow_succ _ _ 1); [lia|lia|done].
    + cbn [rfc_shape]. split; [|done]. exists h. lia.
    + rewrite tsize_Node, Hs0, HsT, Z.pow_add_r by lia. lia.
    + rewrite Z.pow_add_r by lia. lia.
    + lia.
    + exists (S n), hash, rest. subst x. cbn [troot] in El. rewrite El.
      split; [do 2 f_equal; lia|]. split; [cbn; lia|]. split; [done|].
      cbn [replicate app]. replace (2 * s + 1 + 1) with (2 * (s + 1)) by lia.
      rewrite <- app_assoc. apply rep_zero; [lia|done].
Qed.
Lemma zero_below_spec n f :
  (n <= length f)%nat ->
  MerkleTree.zero_below n f = Ret (replicate n MerkleTree.zero ++ drop n f).
Proof.
  induction n as [|n IH]; intros Hn; [done|]. cbn [MerkleTree.zero_below].
  rewrite IH by lia. cbn [obind].
  rewrite index_set_in.
  - f_equal. rewrite Nat2Z.id. rewrite insert_app_r_alt by (rewrite length_replicate; lia).
    rewrite length_replicate, Nat.sub_diag.
    destruct (drop n f) as [|y f'] eqn:D.
    { apply (f_equal length) in D. rewrite length_drop in D. simpl in D. lia. }
    rewrite <- (take_drop n f) in Hn. cbn [insert list_insert].
    replace (drop (S n) f) with f'.
    + rewrite replicate_S_end, <- app_assoc. done.
    + replace (S n) with (n + 1)%nat by lia. rewrite <- drop_drop, D. done.
  - unfold len. rewrite length_app, length_replicate, length_drop. lia.
Qed.

(** Replacing or pushing at level [n] of a frontier. *)
Lemma set_or_push n hash (f : list hash32) :
  (n <= length f)%nat ->
  (if Z.of_nat n <? len f then index_set f (Z.of_nat n) hash else Ret (f ++ [hash])) =
  Ret (take n f ++ hash :: drop (S n) f).
Proof.
  intros Hn. unfold len. destruct (Z.ltb_spec (Z.of_nat n) (Z.of_nat (length f))) as [Hlt|Hge].
  - rewrite index_set_in by (unfold len; lia). f_equal. rewrite Nat2Z.id.
    apply insert_take_drop. lia.
  - assert (n = length f) as -> by lia. rewrite firstn_all, drop_ge by lia. done.
Qed.

Lemma append_represents t L lh :
  represents t L -> MerkleTree.size_ t + 1 < two64 ->
  exists t', MerkleTree.append t lh = Ret (t', MerkleTree.size_ t) /\ represents t' (L ++ [lh]).
Proof.
  intros [R Hs] Hb. pose proof (rep_nonneg _ _ _ _ R) as Hn.
  destruct (append_loop_spec t [] (MerkleTree.frontier t) (MerkleTree.size_ t) L (Leaf lh) tree_fuel)
    as (n & hash & rest & El & Hle & -> & R'); try done.
  { by rewrite Z.div_1_r. }
  { rewrite len_nil, Z.pow_0_r. lia. }
  unfold MerkleTree.append. cbn [troot] in El. rewrite len_nil in El. rewrite El. cbn [obind].
  rewrite Z.add_0_l, set_or_push, Nat2Z.id by done. cbn [obind].
  rewrite zero_below_spec by (rewrite length_app, length_take; simpl; lia). cbn [obind].
  rewrite u64_add_in by (unfold in_u64; lia). cbn [obind].
  eexists. split; [done|]. split; cbn [MerkleTree.size_ MerkleTree.frontier];
    [|unfold in_u64; lia].
  rewrite drop_app_length' by (rewrite length_take; lia). done.
Qed.

Definition leaves_opt (T : option mtree) : list hash32 := default [] (leaves <$> T).

(** Folding the frontier from level [h] up, with the tree [acc] over the
    leaves to the right. *)
Lemma root_loop_spec h s f L size acc :
  rep h s f L -> 0 <= h -> h + len f <= 64 -> size / 2 ^ h = s ->
  (forall T, acc = Some T -> rfc_shape T /\ tsize T <= 2 ^ h) ->
  exists acc', MerkleTree.root_loop size f h (troot <$> acc) = Ret (troot <$> acc') /\
    leaves_opt acc' = L ++ leaves_opt acc /\ (forall T, acc' = Some T -> rfc_shape T).
Proof.
  intros R. revert acc.
  induction R as [h|h s x f L Hs R IH|h s x f L T0 R IH S0 Hs0 E0]; intros acc Hh Hl Ed Ha.
  { exists acc. cbn. repeat split; try done. intros T E. by apply Ha. }
  all: rewrite len_cons in Hl; pose proof (len_nonneg f);
    assert (Ep : 2 ^ (h + 1) = 2 ^ h + 2 ^ h) by (rewrite Z.pow_add_r by lia; lia);
    pose proof (pow2_pos h Hh);
    cbn [MerkleTree.root_loop]; rewrite shl_one by lia; cbn [obind];
    rewrite <- (negb_involutive (Z.land size _ =? 0)), bit_odd, Ed by lia.
  - rewrite odd_double. apply IH; [lia|lia| |].
    + apply (div_pow_succ _ _ 0); lia.
    + intros T E. destruct (Ha T E). split; [done|lia].
  - rewrite odd_double_1. cbn [negb].
    set (acc1 := Some (match acc with None => T0 | Some T => Node T0 T end)).
    destruct (IH acc1) as (acc' & El & Eleaves & HS); [lia|lia|..].
    + apply (div_pow_succ _ _ 1); lia.
    + intros T [= <-]. destruct acc as [T|]; [|split; [done|lia]].
      destruct (Ha T eq_refl) as [ST HsT]. rewrite tsize_Node. split; [|lia].
      cbn [rfc_shape]. split; [|done]. exists h. lia.
    + exists acc'. split; [|split; [|done]].
      * rewrite <- El. subst x acc1. by destruct acc.
      * rewrite Eleaves, <- app_assoc. f_equal. subst acc1. destruct acc; cbn; [done|].
        by rewrite app_nil_r.
Qed.

Lemma root_represents t L : represents t L -> MerkleTree.root t = Ret (troot <$> build L).
Proof.
  intros [R Hs]. unfold MerkleTree.root.
  pose proof (rep_size 0 _ _ _ ltac:(lia) R) as Hlen. change (2 ^ 0) with 1 in Hlen.
  destruct (Z.eqb_spec (MerkleTree.size_ t) 0) as [E0|E0].
  { destruct L; [done|]. rewrite len_cons in Hlen. pose proof (len_nonneg L). lia. }
  pose proof (rep_len_64 _ _ _ R ltac:(unfold in_u64 in Hs; lia)) as Hl.
  destruct (root_loop_spec 0 _ _ L (MerkleTree.size_ t) None R) as (acc & E & El & HS);
    [lia|lia|apply Z.div_1_r|done|].
  cbn [fmap option_fmap option_map] in E. rewrite E. f_equal.
  cbn in El. rewrite app_nil_r in El. destruct acc as [T|]; cbn in El.
  - rewrite <- El, build_leaves; [done|]. by apply HS.
  - subst L. change (len []) with 0 in Hlen. lia.
Qed.

Lemma new_represents : represents MerkleTree.new [].
Proof. split; [apply rep_nil|done]. Qed.

Lemma append_all_represents t L lhs :
  represents t L -> len L + len lhs < two64 ->
  exists t', MerkleTree.append_all t lhs = Ret t' /\ represents t' (L ++ lhs).
Proof.
  revert t L. induction lhs as [|lh lhs IH]; intros t L R Hb.
  { exists t. by rewrite app_nil_r. }
  rewrite len_cons in Hb. pose proof (len_nonneg lhs).
  pose proof (represents_size t L R) as Hs. unfold MerkleTree.size in Hs.
  destruct (append_represents t L lh R ltac:(lia)) as (t' & Ea & R').
  cbn [MerkleTree.append_all]. rewrite Ea. cbn [obind].
  destruct (IH t' (L ++ [lh]) R') as (t'' & Ea' & R'').
  { autorewrite with len. lia. }
  exists t''. split; [done|]. by rewrite <- app_assoc in R''.
Qed.

(** [append] keeps the frontier invariant.  On a tree that represents
    the leaves [L] and is not full, it returns the next index, never panics,
    and the new tree represents [L] followed by the new leaf. *)
Theorem append_preserves (t : MerkleTree.t) (L : list hash32) (lh : hash32)
    (R : represents t L) (Hroom : len L + 1 < two64) :
  exists t', MerkleTree.append t lh = Ret (t', len L) /\ represents t' (L ++ [lh]).
Proof.
  pose proof (represents_size t L R) as Hs. unfold MerkleTree.size in Hs.
  destruct (append_represents t L lh R ltac:(lia)) as (t' & Ea & R').
  exists t'. by rewrite <- Hs.
Qed.

(** C11: the incremental tree agrees with the batch computation.  Appending
    any sequence of fewer than 2^64 leaf hashes to a new tree returns a tree
    of that size whose [root] is the [mth] of the sequence. *)
Theorem incremental_root_is_mth (L : list hash32) (HL : len L < two64) :
  exists t, MerkleTree.append_all MerkleTree.new L = Ret t /\
    MerkleTree.size t = len L /\ MerkleTree.root t = mth L.
Proof.
  destruct (append_all_represents _ [] L new_represents) as (t & E & R); [done|].
  exists t. split; [done|]. split; [by apply represents_size|].
  rewrite mth_build by done. by apply root_represents.
Qed.
End Frontier.
