(* ===== verification/MerkleProof.v ===== *)
(** * Inclusion and consistency proofs (crates/settled-core/src/proof.rs)

    Generation recurses on slices of the leaf hashes; [verify_inclusion] is the
    bit-twiddling loop of the wire format, [verify_consistency] a recursion that
    consumes the proof.  This file translates them and shows that each computes
    the corresponding function of MerkleSpec.v, for all inputs of [u64] size. *)

From S2P Require Import Prelude Bytes Hash MerkleSpec.
From S2P Require Merkle.

Inductive ProofError :=
| LeafIndexOutOfRange (leaf_index tree_size : Z)
| InvalidSizes (old_size new_size : Z)
| TooShort
| TooLong.

(** ** Definitions *)

(** [use crate::merkle::mth] *)
Abbreviation mth := Merkle.mth.

Section Definitions.
Context `{Profile} `{Sha256}.

(** Largest power of two strictly less than [n]; the caller ensures [n > 1]. *)
Definition k (n : Z) : outcome Z :=
  let! m := u64_sub n 1 in
  let! b := u32_sub 64 1 in
  let! s := u32_sub b (leading_zeros m) in
  u64_shl 1 s.

Fixpoint path_fuel (fuel : nat) (leaf_hashes : list hash32) (m : Z) : outcome (list hash32) :=
  match fuel with
  | O => OutOfFuel
  | S fuel =>
      let n := len leaf_hashes in
      if n =? 1 then Ret []
      else
        let! split := k n in
        let! l := slice_to leaf_hashes split in
        let! r := slice_from leaf_hashes split in
        if m <? split then
          let! p := path_fuel fuel l m in
          let! h := mth r in
          let! h := unwrap h in
          Ret (p ++ [h])
        else
          let! m' := u64_sub m split in
          let! p := path_fuel fuel r m' in
          let! h := mth l in
          let! h := unwrap h in
          Ret (p ++ [h])
  end.
Definition path := path_fuel tree_fuel.

Definition inclusion_proof (leaf_hashes : list hash32) (leaf_index : Z)
  : outcome (result (list hash32) ProofError) :=
  let n := len leaf_hashes in
  if n <=? leaf_index then Ret (Err (LeafIndexOutOfRange leaf_index n))
  else let! p := path leaf_hashes leaf_index in Ret (Ok p).

(** [while fn_ != 0 && (fn_ & 1) == 0 { fn_ >>= 1; sn >>= 1; }] *)
Fixpoint shift_while (fuel : nat) (fn_ sn : Z) : outcome (Z * Z) :=
  match fuel with
  | O => OutOfFuel
  | S fuel =>
      if negb (fn_ =? 0) && (Z.land fn_ 1 =? 0)
      then shift_while fuel (Z.shiftr fn_ 1) (Z.shiftr sn 1)
      else Ret (fn_, sn)
  end.

(** The loop over the proof; [None] is the early [return false]. *)
Fixpoint inclusion_loop (proof : list hash32) (fn_ sn : Z) (r : hash32)
  : outcome (option (Z * Z * hash32)) :=
  match proof with
  | [] => Ret (Some (fn_, sn, r))
  | step :: proof =>
      if sn =? 0 then Ret None
      else
        let! (fn_, sn, r) :=
          if negb (Z.land fn_ 1 =? 0) || (fn_ =? sn) then
            let r := node_hash step r in
            let! (fn_, sn) := shift_while tree_fuel fn_ sn in
            Ret (fn_, sn, r)
          else Ret (fn_, sn, node_hash r step) in
        inclusion_loop proof (Z.shiftr fn_ 1) (Z.shiftr sn 1) r
  end.

Definition verify_inclusion (leaf_hash : hash32) (leaf_index tree_size : Z)
    (proof : list hash32) (root : hash32) : outcome bool :=
  if (tree_size =? 0) || (tree_size <=? leaf_index) then Ret false
  else
    let! sn := u64_sub tree_size 1 in
    let! res := inclusion_loop proof leaf_index sn leaf_hash in
    match res with
    | None => Ret false
    | Some (_, sn, r) => Ret ((sn =? 0) && bool_decide (r = root))
    end.

Fixpoint subproof_fuel (fuel : nat) (leaf_hashes : list hash32) (m : Z) (b : bool)
  : outcome (list hash32) :=
  match fuel with
  | O => OutOfFuel
  | S fuel =>
      let n := len leaf_hashes in
      if m =? n then
        if b then Ret []
        else let! h := mth leaf_hashes in let! h := unwrap h in Ret [h]
      else
        let! split := k n in
        let! l := slice_to leaf_hashes split in
        let! r := slice_from leaf_hashes split in
        if m <=? split then
          let! p := subproof_fuel fuel l m b in
          let! h := mth r in
          let! h := unwrap h in
          Ret (p ++ [h])
        else
          let! m' := u64_sub m split in
          let! p := subproof_fuel fuel r m' false in
          let! h := mth l in
          let! h := unwrap h in
          Ret (p ++ [h])
  end.
Definition subproof := subproof_fuel tree_fuel.

Definition consistency_proof (leaf_hashes : list hash32) (old_size : Z)
  : outcome (result (list hash32) ProofError) :=
  let new_size := len leaf_hashes in
  if (old_size =? 0) || (new_size <? old_size) then Ret (Err (InvalidSizes old_size new_size))
  else if old_size =? new_size then Ret (Ok [])
  else let! p := subproof leaf_hashes old_size true in Ret (Ok p).

(** [iter] is the part of the proof not yet consumed. *)
Fixpoint verify_subproof_fuel (fuel : nat) (m n : Z) (old_root : hash32)
    (iter : list hash32) (b : bool) : outcome (option (hash32 * hash32 * list hash32)) :=
  match fuel with
  | O => OutOfFuel
  | S fuel =>
      if m =? n then
        if b then Ret (Some (old_root, old_root, iter))
        else match iter with
             | [] => Ret None
             | h :: iter => Ret (Some (h, h, iter))
             end
      else
        let! split := k n in
        if m <=? split then
          let! res := verify_subproof_fuel fuel m split old_root iter b in
          match res with
          | Some (lo, ln, rh :: iter) => Ret (Some (lo, node_hash ln rh, iter))
          | _ => Ret None
          end
        else
          let! m' := u64_sub m split in
          let! n' := u64_sub n split in
          let! res := verify_subproof_fuel fuel m' n' old_root iter false in
          match res with
          | Some (ro, rn, lh :: iter) =>
              Ret (Some (node_hash lh ro, node_hash lh rn, iter))
          | _ => Ret None
          end
  end.
Definition verify_subproof := verify_subproof_fuel tree_fuel.

Definition verify_consistency (old_size new_size : Z) (proof : list hash32)
    (old_root new_root : hash32) : outcome bool :=
  if old_size =? new_size then
    Ret (bool_decide (proof = []) && bool_decide (old_root = new_root))
  else if (old_size =? 0) || (new_size <? old_size) then Ret false
  else
    let! res := verify_subproof old_size new_size old_root proof true in
    match res with
    | Some (computed_old, computed_new, iter) =>
        Ret (bool_decide (iter = []) && bool_decide (computed_old = old_root)
             && bool_decide (computed_new = new_root))
    | None => Ret false
    end.
End Definitions.

(** ** Generation *)

Section Generation.
Context `{Profile} `{Sha256}.

Lemma proof_k_spec n : 1 < n < two64 -> k n = Ret (split_point n).
Proof.
  intros Hn. rewrite <- Merkle.k_spec by done. unfold k, Merkle.k. decide_if.
  rewrite u64_sub_in by (unfold in_u64; lia). cbn [obind].
  rewrite (u32_sub_in 64 1) by ulia. done.
Qed.

Lemma k_Node l r :
  rfc_shape (Node l r) -> tsize (Node l r) < two64 -> k (tsize (Node l r)) = Ret (tsize l).
Proof.
  intros S Hs. rewrite proof_k_spec, split_point_Node; [done..|].
  rewrite tsize_Node in *. pose proof (tsize_pos l). pose proof (tsize_pos r). lia.
Qed.

Lemma mth_leaves T : rfc_shape T -> tsize T < two64 -> mth (leaves T) = Ret (Some (troot T)).
Proof. apply Merkle.mth_tree. Qed.

Lemma path_fuel_tree T fuel m :
  rfc_shape T -> tsize T < two64 -> (height T < fuel)%nat -> 0 <= m < tsize T ->
  path_fuel fuel (leaves T) m = Ret (tpath T m).
Proof.
  revert fuel m. induction T as [x|l IHl r IHr]; intros fuel m S Hs Hf Hm;
    (destruct fuel as [|fuel]; [lia|]); [done|].
  pose proof (k_Node l r S Hs) as Ek. pose proof S as (_ & Sl & Sr).
  pose proof (tsize_pos l). pose proof (tsize_pos r). rewrite tsize_Node in *.
  cbn [path_fuel height leaves tpath] in *. change (len (leaves l ++ leaves r)) with (tsize (Node l r)).
  rewrite tsize_Node. decide_if. rewrite Ek. cbn [obind].
  unfold tsize at 1. rewrite slice_to_app. cbn [obind].
  unfold tsize at 1. rewrite slice_from_app. cbn [obind].
  destruct (Z.ltb_spec m (tsize l)).
  - rewrite IHl by (done || lia). cbn [obind]. rewrite mth_leaves by (done || lia). done.
  - rewrite u64_sub_in by (unfold in_u64; lia). cbn [obind].
    rewrite IHr by (done || lia). cbn [obind]. rewrite mth_leaves by (done || lia). done.
Qed.

Lemma inclusion_proof_tree T m :
  rfc_shape T -> tsize T < two64 -> 0 <= m < tsize T ->
  inclusion_proof (leaves T) m = Ret (Ok (tpath T m)).
Proof.
  intros S Hs Hm. unfold inclusion_proof. fold (tsize T). decide_if. unfold path.
  rewrite path_fuel_tree; [done|done|done|by apply height_fuel|done].
Qed.

Lemma subproof_fuel_tree T fuel m b :
  rfc_shape T -> tsize T < two64 -> (height T < fuel)%nat -> 1 <= m <= tsize T ->
  subproof_fuel fuel (leaves T) m b = Ret (tsub T m b).
Proof.
  revert fuel m b. induction T as [x|l IHl r IHr]; intros fuel m b S Hs Hf Hm;
    (destruct fuel as [|fuel]; [lia|]).
  { rewrite tsize_Leaf in Hm. replace m with 1 by lia. by destruct b. }
  cbn [subproof_fuel]. fold (tsize (Node l r)).
  destruct (Z.eqb_spec m (tsize (Node l r))) as [Em|Em].
  { cbn [tsub]. rewrite (proj2 (Z.eqb_eq _ _) Em). destruct b; [done|].
    by rewrite mth_leaves. }
  rewrite (k_Node l r S Hs). cbn [obind leaves].
  pose proof S as (_ & Sl & Sr). cbn [tsub height] in *. rewrite (proj2 (Z.eqb_neq _ _) Em).
  pose proof (tsize_pos l). pose proof (tsize_pos r). rewrite tsize_Node in *.
  unfold tsize at 1. rewrite slice_to_app. cbn [obind].
  unfold tsize at 1. rewrite slice_from_app. cbn [obind].
  destruct (Z.leb_spec m (tsize l)).
  - rewrite IHl by (done || lia). cbn [obind]. rewrite mth_leaves by (done || lia). done.
  - rewrite u64_sub_in by (unfold in_u64; lia). cbn [obind].
    rewrite IHr by (done || lia). cbn [obind]. rewrite mth_leaves by (done || lia). done.
Qed.

(** The proof the code returns for [old_size <= new_size]. *)
Lemma consistency_proof_tree T m :
  rfc_shape T -> tsize T < two64 -> 1 <= m <= tsize T ->
  consistency_proof (leaves T) m = Ret (Ok (tsub T m true)).
Proof.
  intros S Hs Hm. unfold consistency_proof. fold (tsize T).
  rewrite (proj2 (Z.eqb_neq m 0)), (proj2 (Z.ltb_ge (tsize T) m)) by lia. cbn [orb].
  destruct (Z.eqb_spec m (tsize T)) as [Em|Em].
  - destruct T; cbn [tsub]; by rewrite (proj2 (Z.eqb_eq _ _) Em).
  - unfold subproof. rewrite subproof_fuel_tree; [done|done|done|by apply height_fuel|done].
Qed.
End Generation.

(** ** The inclusion loop *)

Section InclusionLoop.
Context `{Profile} `{Sha256}.

Lemma inclusion_loop_app p q fn_ sn r :
  inclusion_loop (p ++ q) fn_ sn r =
  let! res := inclusion_loop p fn_ sn r in
  match res with
  | None => Ret None
  | Some (fn_, sn, r) => inclusion_loop q fn_ sn r
  end.
Proof.
  revert fn_ sn r. induction p as [|s p IH]; intros fn_ sn r; [done|].
  cbn [inclusion_loop app]. destruct (sn =? 0); [done|].
  rewrite obind_assoc.
  match goal with |- obind ?m _ = _ => destruct m as [[[f s'] r']| |] end; cbn; auto.
Qed.

Lemma land_1_odd x : (Z.land x 1 =? 0) = negb (Z.odd x).
Proof. rewrite <- (Z.bit0_odd x). change 1 with (2 ^ 0) at 1.
  rewrite <- (negb_involutive (_ =? 0)), Merkle.bit_odd by lia.
  by rewrite Z.pow_0_r, Z.div_1_r, Z.bit0_odd.
Qed.

Lemma shiftr_1 x : Z.shiftr x 1 = x / 2.
Proof. by rewrite Z.shiftr_div_pow2. Qed.

(** One step with an odd index: the sibling is on the left. *)
Lemma step_odd s p a b r :
  b <> 0 -> inclusion_loop (s :: p) (2 * a + 1) b r = inclusion_loop p a (b / 2) (node_hash s r).
Proof.
  intros Hb. cbn [inclusion_loop]. rewrite (proj2 (Z.eqb_neq _ _) Hb), land_1_odd, Merkle.odd_double_1.
  cbn [negb orb]. cbn [tree_fuel shift_while]. rewrite land_1_odd, Merkle.odd_double_1.
  cbn [negb]. rewrite andb_false_r. cbn [obind]. rewrite !shiftr_1. f_equal.
  rewrite Z.mul_comm, Z.div_add_l, Z.div_small by lia. lia.
Qed.

(** One step with an even index inside the tree: the sibling is on the right. *)
Lemma step_even s p a b r :
  b <> 0 -> 2 * a <> b ->
  inclusion_loop (s :: p) (2 * a) b r = inclusion_loop p a (b / 2) (node_hash r s).
Proof.
  intros Hb Hab. cbn [inclusion_loop]. rewrite (proj2 (Z.eqb_neq _ _) Hb), land_1_odd, Merkle.odd_double.
  cbn [negb orb]. rewrite (proj2 (Z.eqb_neq _ _) Hab). cbn [obind]. rewrite !shiftr_1. f_equal.
  rewrite Z.mul_comm, Z.div_mul by lia. done.
Qed.

Lemma shift_while_odd (fuel e : nat) c :
  (e < fuel)%nat -> Z.odd c = true ->
  shift_while fuel (c * 2 ^ Z.of_nat e) (c * 2 ^ Z.of_nat e) = Ret (c, c).
Proof.
  revert fuel. induction e as [|e IH]; intros fuel Hf Hc; (destruct fuel as [|fuel]; [lia|]);
    cbn [shift_while]; rewrite land_1_odd.
  - rewrite Z.mul_1_r, Hc. cbn [negb]. by rewrite andb_false_r.
  - rewrite Nat2Z.inj_succ, Z.pow_succ_r by lia.
    replace (c * (2 * 2 ^ Z.of_nat e)) with (2 * (c * 2 ^ Z.of_nat e)) by lia.
    rewrite Merkle.odd_double. cbn [negb]. rewrite andb_true_r.
    assert (c <> 0) by (intros ->; done). pose proof (pow2_pos (Z.of_nat e) ltac:(lia)).
    rewrite (proj2 (Z.eqb_neq _ _)) by nia. cbn [negb].
    rewrite !shiftr_1, Z.mul_comm, Z.div_mul by lia. by apply IH; [lia|].
Qed.

(** One step on the right edge, where index and last index agree: the loop
    skips the levels at which the node has no sibling. *)
Lemma step_edge s p a e r :
  0 <= a -> 0 <= e < 64 ->
  inclusion_loop (s :: p) ((2 * a + 1) * 2 ^ e) ((2 * a + 1) * 2 ^ e) r =
  inclusion_loop p a a (node_hash s r).
Proof.
  intros Ha He. pose proof (pow2_pos e ltac:(lia)). cbn [inclusion_loop].
  rewrite (proj2 (Z.eqb_neq _ _)) by nia. rewrite Z.eqb_refl, orb_true_r.
  replace e with (Z.of_nat (Z.to_nat e)) by lia.
  rewrite shift_while_odd; [|unfold tree_fuel; lia|apply Merkle.odd_double_1].
  cbn [obind]. rewrite !shiftr_1. rewrite Z.mul_comm, Z.div_add_l, Z.div_small by lia.
  by rewrite Z.add_0_r.
Qed.
(** Inside a perfect subtree of [2 ^ h] leaves that is not on the right
    edge, the loop climbs [h] levels. *)
Lemma loop_perfect T h m a sn lh w r q :
  rfc_shape T -> 0 <= h -> tsize T = 2 ^ h -> 0 <= m < 2 ^ h -> 0 <= a < sn / 2 ^ h ->
  tfold T m lh w = Some r ->
  inclusion_loop (rev w ++ q) (a * 2 ^ h + m) sn lh = inclusion_loop q a (sn / 2 ^ h) r.
Proof.
  revert h m a w r q. induction T as [x|l IHl r' IHr]; intros h m a w r q S Hh Es Hm Ha E.
  - destruct w; [|done]. injection E as <-. rewrite tsize_Leaf in Es.
    replace h with 0 by (apply pow2_inj; [lia|lia|]; rewrite <- Es; done).
    change (2 ^ 0) with 1 in *. rewrite Z.div_1_r. cbn. f_equal. lia.
  - destruct w as [|s w]; [done|].
    destruct (perfect_Node l r' h S Hh Es) as (Hh1 & El & Er).
    destruct S as (_ & Sl & Sr). cbn [rev tfold] in *. rewrite <- app_assoc.
    assert (Ep : 2 ^ h = 2 * 2 ^ (h - 1)).
    { replace h with (Z.succ (h - 1)) at 1 by lia. by rewrite Z.pow_succ_r by lia. }
    pose proof (pow2_pos (h - 1) ltac:(lia)) as Hp.
    assert (Ed : sn / 2 ^ (h - 1) / 2 = sn / 2 ^ h).
    { rewrite Z.div_div by lia. f_equal. lia. }
    set (d := sn / 2 ^ (h - 1)) in *. rewrite <- Ed in *.
    assert (Hd : 2 * a + 2 <= d).
    { pose proof (Z.mul_div_le d 2 ltac:(lia)). lia. }
    rewrite El in E. destruct (Z.ltb_spec m (2 ^ (h - 1))).
    + destruct (tfold l m lh w) as [x|] eqn:F; [|done]. injection E as <-.
      replace (a * 2 ^ h + m) with (2 * a * 2 ^ (h - 1) + m) by lia.
      rewrite (IHl (h - 1) m (2 * a) w x); [|done|lia|done|lia|lia|done].
      apply step_even; lia.
    + destruct (tfold r' (m - 2 ^ (h - 1)) lh w) as [x|] eqn:F; [|done]. injection E as <-.
      replace (a * 2 ^ h + m) with ((2 * a + 1) * 2 ^ (h - 1) + (m - 2 ^ (h - 1))) by lia.
      rewrite (IHr (h - 1) (m - 2 ^ (h - 1)) (2 * a + 1) w x); [|done|lia|done|lia|lia|done].
      apply step_odd; lia.
Qed.

(** On the right edge the loop ends with index and last index equal. *)
Lemma loop_edge T h m c lh w r q :
  rfc_shape T -> 0 <= h <= 64 -> tsize T <= 2 ^ h -> 0 <= m < tsize T -> 0 <= c ->
  tfold T m lh w = Some r ->
  exists t, 0 <= t <= h /\
    inclusion_loop (rev w ++ q) (c * 2 ^ h + m) (c * 2 ^ h + (tsize T - 1)) lh =
    inclusion_loop q (c * 2 ^ t) (c * 2 ^ t) r.
Proof.
  revert h m c w r q. induction T as [x|l IHl r' IHr]; intros h m c w r q S Hh Hs Hm Hc E.
  - destruct w; [|done]. injection E as <-. rewrite tsize_Leaf in *. exists h. split; [lia|].
    cbn. f_equal; lia.
  - destruct w as [|s w]; [done|]. pose proof (tsize_pos r') as Hr1.
    destruct S as ((j & Hj & El & Er) & Sl & Sr). cbn [rev tfold] in *.
    rewrite tsize_Node, El in *. rewrite <- app_assoc.
    assert (Hjh : j < h) by (apply (Z.pow_lt_mono_r_iff 2); lia).
    set (b := c * 2 ^ (h - j - 1)). exists (h - j - 1). split; [lia|]. fold b.
    pose proof (pow2_pos j Hj) as Hp. pose proof (pow2_pos (h - j - 1) ltac:(lia)) as Hp'.
    assert (Hb : 0 <= b) by (unfold b; nia).
    assert (Ec : c * 2 ^ h = 2 * b * 2 ^ j).
    { unfold b. replace h with (1 + (h - j - 1) + j) at 1 by lia.
      rewrite !Z.pow_add_r by lia. lia. }
    rewrite Ec. destruct (Z.ltb_spec m (2 ^ j)).
    + destruct (tfold l m lh w) as [x|] eqn:F; [|done]. injection E as <-.
      assert (Ed : (2 * b * 2 ^ j + (2 ^ j + tsize r' - 1)) / 2 ^ j = 2 * b + 1).
      { replace (2 * b * 2 ^ j + (2 ^ j + tsize r' - 1))
          with ((2 * b + 1) * 2 ^ j + (tsize r' - 1)) by lia.
        rewrite Z.div_add_l, Z.div_small by lia. lia. }
      rewrite (loop_perfect l j m (2 * b) _ lh w x); rewrite ?Ed; [|done|lia|done|lia|lia|done].
      cbn [app]. rewrite step_even by lia. f_equal.
      rewrite Z.mul_comm, Z.div_add_l, Z.div_small by lia. lia.
    + destruct (tfold r' (m - 2 ^ j) lh w) as [x|] eqn:F; [|done]. injection E as <-.
      destruct (IHr j (m - 2 ^ j) (2 * b + 1) w x ([s] ++ q)) as (t & Ht & El'); try done; try lia.
      replace (2 * b * 2 ^ j + m) with ((2 * b + 1) * 2 ^ j + (m - 2 ^ j)) by lia.
      replace (2 * b * 2 ^ j + (2 ^ j + tsize r' - 1))
        with ((2 * b + 1) * 2 ^ j + (tsize r' - 1)) by lia.
      rewrite El'. cbn [app]. apply step_edge; lia.
Qed.

Lemma loop_tree T m lh w r q :
  rfc_shape T -> tsize T < two64 -> 0 <= m < tsize T -> tfold T m lh w = Some r ->
  inclusion_loop (rev w ++ q) m (tsize T - 1) lh = inclusion_loop q 0 0 r.
Proof.
  intros S Hs Hm E.
  destruct (loop_edge T 64 m 0 lh w r q S) as (t & Ht & El); [lia| |lia|lia|done|].
  - change (2 ^ 64) with two64. lia.
  - by rewrite !Z.mul_0_l, !Z.add_0_l in El.
Qed.

Lemma loop_stuck q r : q <> [] -> inclusion_loop q 0 0 r = Ret None.
Proof. by destruct q. Qed.

(** The loop computes [tfold] and accepts nothing else. *)
Lemma verify_inclusion_tree T m lh p root :
  rfc_shape T -> tsize T < two64 -> 0 <= m < tsize T ->
  verify_inclusion lh m (tsize T) p root = Ret (bool_decide (tfold T m lh (rev p) = Some root)).
Proof.
  intros S Hs Hm. unfold verify_inclusion. pose proof (tsize_pos T).
  rewrite (proj2 (Z.eqb_neq (tsize T) 0)), (proj2 (Z.leb_gt (tsize T) m)) by lia. cbn [orb].
  rewrite u64_sub_in by (unfold in_u64; lia). cbn [obind].
  destruct (Nat.lt_trichotomy (length p) (tdepth T m)) as [Hlt|[Heq|Hgt]].
  - (* too short *)
    assert (tfold T m lh (rev p) = None) as ->.
    { apply eq_None_not_Some. rewrite tfold_depth, length_rev. lia. }
    rewrite bool_decide_false by done.
    pose (pad := replicate (tdepth T m - length p) lh).
    assert (is_Some (tfold T m lh (rev (p ++ pad)))) as [r E].
    { apply tfold_depth. rewrite length_rev, length_app. unfold pad.
      rewrite length_replicate. lia. }
    pose proof (loop_tree T m lh _ r [] S Hs Hm E) as L.
    rewrite rev_involutive, app_nil_r, inclusion_loop_app in L.
    destruct (inclusion_loop p m (tsize T - 1) lh) as [[[[f sn] x]|]| |]; cbn in *; try done.
    unfold pad in L. destruct (tdepth T m - length p)%nat as [|d] eqn:Ed; [lia|].
    cbn [replicate inclusion_loop] in L. by destruct (sn =? 0).
  - assert (is_Some (tfold T m lh (rev p))) as [r E] by (apply tfold_depth; by rewrite length_rev).
    pose proof (loop_tree T m lh _ r [] S Hs Hm E) as L.
    rewrite rev_involutive, app_nil_r in L. rewrite L, E. cbn. f_equal.
    apply bool_decide_ext. naive_solver.
  - (* too long *)
    assert (tfold T m lh (rev p) = None) as ->.
    { apply eq_None_not_Some. rewrite tfold_depth, length_rev. lia. }
    rewrite bool_decide_false by done.
    assert (is_Some (tfold T m lh (rev (take (tdepth T m) p)))) as [r E].
    { apply tfold_depth. rewrite length_rev, length_take. lia. }
    pose proof (loop_tree T m lh _ r (drop (tdepth T m) p) S Hs Hm E) as L.
    rewrite rev_involutive, take_drop in L. rewrite L, loop_stuck; [done|].
    intros D. apply (f_equal length) in D. rewrite length_drop in D. simpl in D. lia.
Qed.
End InclusionLoop.

(** ** The consistency recursion *)

Section ConsistencyRecursion.
Context `{Profile} `{Sha256}.

Lemma verify_subproof_fuel_tree T fuel m o p b :
  rfc_shape T -> tsize T < two64 -> (height T < fuel)%nat -> 1 <= m <= tsize T ->
  verify_subproof_fuel fuel m (tsize T) o p b = Ret (tver T m o b p).
Proof.
  revert fuel m p b. induction T as [x|l IHl r IHr]; intros fuel m p b S Hs Hf Hm;
    (destruct fuel as [|fuel]; [lia|]).
  { rewrite tsize_Leaf in *. replace m with 1 by lia. by destruct b, p. }
  cbn [verify_subproof_fuel tver].
  destruct (Z.eqb_spec m (tsize (Node l r))) as [Em|Em]; [by destruct b, p|].
  rewrite (k_Node l r S Hs). cbn [obind height] in *.
  pose proof S as (_ & Sl & Sr). pose proof (tsize_pos l). pose proof (tsize_pos r).
  rewrite tsize_Node in *. destruct (Z.leb_spec m (tsize l)).
  - rewrite IHl by (done || lia). cbn [obind].
    by destruct (tver l m o b p) as [[[? ?] [|? ?]]|].
  - rewrite u64_sub_in by (unfold in_u64; lia). cbn [obind].
    rewrite u64_sub_in by (unfold in_u64; lia). cbn [obind].
    replace (tsize l + tsize r - tsize l) with (tsize r) by lia.
    rewrite IHr by (done || lia). cbn [obind].
    by destruct (tver r (m - tsize l) o false p) as [[[? ?] [|? ?]]|].
Qed.

(** What [verify_consistency] accepts: for equal sizes the empty proof and
    equal roots, otherwise proofs that reconstruct both roots exactly. *)
Lemma verify_consistency_tree T m p o n :
  rfc_shape T -> tsize T < two64 -> 1 <= m <= tsize T ->
  verify_consistency m (tsize T) p o n =
  Ret (bool_decide (tver T m o true p = Some (o, n, []))).
Proof.
  intros S Hs Hm. unfold verify_consistency.
  destruct (Z.eqb_spec m (tsize T)) as [Em|Em].
  - f_equal. assert (E : tver T m o true p = Some (o, o, p)).
    { destruct T; cbn [tver]; by rewrite (proj2 (Z.eqb_eq _ _) Em). }
    rewrite E, <- bool_decide_and. apply bool_decide_ext. naive_solver.
  - rewrite (proj2 (Z.eqb_neq m 0)), (proj2 (Z.ltb_ge (tsize T) m)) by lia. cbn [orb].
    unfold verify_subproof. rewrite verify_subproof_fuel_tree by (done || by apply height_fuel).
    cbn [obind]. destruct (tver T m o true p) as [[[co cn] rest]|]; [|done].
    f_equal. rewrite <- !bool_decide_and. apply bool_decide_ext. naive_solver.
Qed.
End ConsistencyRecursion.
