(* ===== verification/Sha256Instance.v ===== *)
(** * SHA-256 as FIPS 180-4 defines it

    An instance of the parameter [sha256], so that the model runs: the witnesses
    evaluate it, and the vectors below are those of src/test-vectors/. *)

From S2P Require Import Prelude Bytes Hash.
From Stdlib Require Ascii String.

Module Fips180.
Definition add32 (a b : Z) : Z := Z.land (a + b) 0xffffffff.
Definition rotr (n x : Z) : Z :=
  Z.lor (Z.shiftr x n) (Z.land (Z.shiftl x (32 - n)) 0xffffffff).
Definition xor3 (a b c : Z) : Z := Z.lxor a (Z.lxor b c).

Definition bsig0 x := xor3 (rotr 2 x) (rotr 13 x) (rotr 22 x).
Definition bsig1 x := xor3 (rotr 6 x) (rotr 11 x) (rotr 25 x).
Definition ssig0 x := xor3 (rotr 7 x) (rotr 18 x) (Z.shiftr x 3).
Definition ssig1 x := xor3 (rotr 17 x) (rotr 19 x) (Z.shiftr x 10).
Definition ch x y z := Z.lxor z (Z.land x (Z.lxor y z)).
Definition maj x y z := Z.lor (Z.land x y) (Z.land z (Z.lor x y)).

Definition primes : list Z :=
  [2; 3; 5; 7; 11; 13; 17; 19; 23; 29; 31; 37; 41; 43; 47; 53; 59; 61; 67; 71; 73; 79; 83; 89;
   97; 101; 103; 107; 109; 113; 127; 131; 137; 139; 149; 151; 157; 163; 167; 173; 179; 181; 191;
   193; 197; 199; 211; 223; 227; 229; 233; 239; 241; 251; 257; 263; 269; 271; 277; 281; 283; 293;
   307; 311].

(** Integer cube root by bisection on the bits of the result. *)
Fixpoint icbrt (n : nat) (acc x : Z) : Z :=
  match n with
  | O => acc
  | S n =>
      let acc' := acc + 2 ^ Z.of_nat n in
      icbrt n (if acc' * acc' * acc' <=? x then acc' else acc) x
  end.

(** The first 32 bits of the fractional parts of the square roots of the
    first eight primes, and of the cube roots of the first 64. *)
Definition iv : list Z :=
  Eval vm_compute in map (fun p => Z.sqrt (p * 2 ^ 64) mod 2 ^ 32) (take 8 primes).
Definition round_constants : list Z :=
  Eval vm_compute in map (fun p => icbrt 36 0 (p * 2 ^ 96) mod 2 ^ 32) primes.

(** The last sixteen schedule words, newest first, give the next one. *)
Definition next_word (w : list Z) : Z :=
  let at_ i := nth i w 0 in
  add32 (add32 (ssig1 (at_ 1%nat)) (at_ 6%nat)) (add32 (ssig0 (at_ 14%nat)) (at_ 15%nat)).

Definition round (st : list Z) (kt wt : Z) : list Z :=
  match st with
  | [a; b; c; d; e; f; g; h] =>
      let t1 := add32 (add32 (add32 h (bsig1 e)) (add32 (ch e f g) kt)) wt in
      let t2 := add32 (bsig0 a) (maj a b c) in
      [add32 t1 t2; a; b; c; add32 d t1; e; f; g]
  | _ => st
  end.

(** [pending] holds message words not yet used, [w] the window. *)
Fixpoint rounds (ks pending w : list Z) (st : list Z) : list Z :=
  match ks with
  | [] => st
  | kt :: ks =>
      let '(wt, pending) :=
        match pending with
        | m :: pending => (m, pending)
        | [] => (next_word w, [])
        end in
      rounds ks pending (wt :: take 15 w) (round st kt wt)
  end.

Definition compress (st : list Z) (block : list Z) : list Z :=
  zip_with add32 st (rounds round_constants block [] st).

Fixpoint words (fuel : nat) (bs : bytes) : list Z :=
  match fuel, bs with
  | S fuel, a :: b :: c :: d :: bs => from_be [a; b; c; d] :: words fuel bs
  | _, _ => []
  end.

Definition pad (msg : bytes) : bytes :=
  let zeros := Z.to_nat ((55 - len msg) mod 64) in
  msg ++ Init.Byte.x80 :: replicate zeros Init.Byte.x00 ++ be_bytes 8 (8 * len msg).

Fixpoint blocks (fuel : nat) (ws : list Z) (st : list Z) : list Z :=
  match fuel, ws with
  | O, _ | _, [] => st
  | S fuel, _ => blocks fuel (drop 16 ws) (compress st (take 16 ws))
  end.

Definition digest (msg : bytes) : bytes :=
  let p := pad msg in
  let ws := words (length p) p in
  flat_map (be_bytes 4) (blocks (length ws) ws iv).

(** The digest has 32 bytes; [default] only serves the type. *)
Definition sha256 (msg : bytes) : hash32 :=
  default (array_fill 32 Init.Byte.x00) (array_try_from 32 (digest msg)).
End Fips180.

Definition fips_sha256 : Sha256 := Fips180.sha256.

(** ** Hexadecimal literals *)

Definition hex_digit (a : Ascii.ascii) : Z :=
  let n := Z.of_N (Ascii.N_of_ascii a) in
  if n <? 58 then n - 48 else n - 87.
Fixpoint hex (s : String.string) : bytes :=
  match s with
  | String.String a (String.String b s) => byte_of_Z (16 * hex_digit a + hex_digit b) :: hex s
  | _ => []
  end.
Definition hex32 (s : String.string) : hash32 :=
  default (array_fill 32 Init.Byte.x00) (array_try_from 32 (hex s)).

Fixpoint ascii_bytes (s : String.string) : bytes :=
  match s with
  | String.String a s => byte_of_Z (Z.of_N (Ascii.N_of_ascii a)) :: ascii_bytes s
  | String.EmptyString => []
  end.
