(* ===== verification/ProofTheorems.v ===== *)
(** * What inclusion and consistency proofs guarantee

    Completeness, soundness, totality, bounds and error behaviour of
    crates/settled-core/src/proof.rs, from the correspondence of MerkleProof.v.
    The soundness theorems are reductions: from an accepted proof of a false
    statement the functions below compute two different inputs of SHA-256 with the
    same digest. *)

From S2P Require Import Prelude Bytes Hash MerkleSpec.
From S2P Require Merkle.
From S2P Require Import MerkleProof Sha256Instance.
From Stdlib Require String.
Import String.StringSyntax.

Section Extractors.
Context `{Sha256}.

(** From a path accepted for a leaf hash that is not the one in the tree. *)
Definition inclusion_collision (l : list hash32) (i : Z) (lh : hash32) (p : list hash32)
  : option (bytes * bytes) :=
  match build l with Some T => path_clash T i lh (rev p) | None => None end.

(** From a consistency proof accepted between trees of which the first is
    not a prefix of the second. *)
Definition consistency_collision (l1 l2 : list hash32) (p : list hash32)
  : option (bytes * bytes) :=
  match build l1, build l2 with
  | Some T1, Some T2 => consistency_clash T1 T2 (troot T1) true p
  | _, _ => None
  end.

(** The first position at which two data lists differ but hash alike. *)
Fixpoint leaf_clash (d d' : list bytes) : option (bytes * bytes) :=
  match d, d' with
  | x :: d, y :: d' =>
      if decide (x = y) then leaf_clash d d' else Some (leaf_preimage x, leaf_preimage y)
  | _, _ => None
  end.

Definition history_collision (d1 d2 : list bytes) (p : list hash32) : option (bytes * bytes) :=
  or_else (consistency_collision (leaf_hash <$> d1) (leaf_hash <$> d2) p)
          (leaf_clash d1 (take (length d1) d2)).

Lemma leaf_clash_spec d d' :
  leaf_hash <$> d = leaf_hash <$> d' -> clash_or (leaf_clash d d') (d = d').
Proof.
  revert d'. induction d as [|x d IH]; intros [|y d'] E; try done.
  cbn in *. injection E as Ex Ed. case_decide as D.
  - subst y. eapply clash_or_impl; [by apply IH|]. by intros ->.
  - split; [|exact Ex]. cbn. by intros ?%leaf_preimage_inj.
Qed.
End Extractors.

Section Theorems.
Context `{Profile} `{Sha256}.

Lemma build_root l root :
  len l < two64 -> mth l = Ret (Some root) ->
  exists T, build l = Some T /\ leaves T = l /\ rfc_shape T /\ troot T = root.
Proof.
  intros Hl E. rewrite Merkle.mth_build in E by done.
  destruct (decide (l = [])) as [->|Hne]; [done|].
  destruct (build_spec l Hne) as (T & HT & El & ST). rewrite HT in E. injection E as E.
  by exists T.
Qed.

Lemma mth_nonempty l : len l < two64 -> l <> [] -> exists root, mth l = Ret (Some root).
Proof.
  intros Hl Hne. destruct (build_spec l Hne) as (T & HT & El & ST).
  exists (troot T). by rewrite Merkle.mth_build, HT.
Qed.

Lemma inclusion_complete_tree (l : list hash32) (i : Z) (lh : hash32) :
  len l < two64 -> 0 <= i -> l !! Z.to_nat i = Some lh ->
  exists p root, inclusion_proof l i = Ret (Ok p) /\ mth l = Ret (Some root) /\
    verify_inclusion lh i (len l) p root = Ret true.
Proof.
  intros Hl Hi Hlh.
  destruct (build_spec l) as (T & HT & <- & ST); [by intros ->|].
  assert (Hi' : 0 <= i < tsize T) by (apply lookup_lt_Some in Hlh; unfold tsize, len; lia).
  exists (tpath T i), (troot T). split; [by apply inclusion_proof_tree|].
  split; [by apply mth_leaves|]. fold (tsize T). rewrite verify_inclusion_tree by done.
  rewrite tfold_tpath by (done || lia). f_equal. by apply bool_decide_eq_true.
Qed.

(** Proof generation always returns. *)
Lemma inclusion_total (l : list hash32) (i : Z) :
  len l < two64 -> 0 <= i -> exists r, inclusion_proof l i = Ret r.
Proof.
  intros Hl Hi. destruct (l !! Z.to_nat i) as [lh|] eqn:E.
  - destruct (inclusion_complete_tree l i lh Hl Hi E) as (p & _ & -> & _). eauto.
  - apply lookup_ge_None in E. unfold inclusion_proof.
    rewrite (proj2 (Z.leb_le _ _)) by (unfold len; lia). eauto.
Qed.

(** C12: completeness of inclusion proofs.  For every leaf of every tree of
    [u64] size, [inclusion_proof] returns a path (no panic, no error) and
    [verify_inclusion] accepts it against the root that [mth] computes. *)
Theorem inclusion_complete (l : list hash32) (i : Z) (lh : hash32)
    (Hl : len l < two64) (Hi : 0 <= i) (Hlh : l !! Z.to_nat i = Some lh) :
  exists p root, inclusion_proof l i = Ret (Ok p) /\ mth l = Ret (Some root) /\
    verify_inclusion lh i (len l) p root = Ret true.
Proof. by apply inclusion_complete_tree. Qed.

Lemma inclusion_sound_tree l root i lh p :
  len l < two64 -> mth l = Ret (Some root) -> 0 <= i ->
  verify_inclusion lh i (len l) p root = Ret true ->
  clash_or (inclusion_collision l i lh p) (l !! Z.to_nat i = Some lh).
Proof.
  intros Hl Hroot Hi Hv. destruct (build_root l root Hl Hroot) as (T & HT & El & ST & Er).
  unfold inclusion_collision. rewrite HT. subst l root. fold (tsize T) in *.
  destruct (Z.lt_ge_cases i (tsize T)) as [Hlt|Hge].
  - rewrite verify_inclusion_tree in Hv by done. injection Hv as Hv%bool_decide_eq_true.
    by apply path_clash_spec.
  - unfold verify_inclusion in Hv. rewrite (proj2 (Z.leb_le _ _) Hge), orb_true_r in Hv. done.
Qed.

(** C4: soundness of inclusion proofs.  If [verify_inclusion] accepts a leaf
    hash at index [i] against the root of the tree over [l], then it is the
    leaf at [i] of [l], or [inclusion_collision] returns a SHA-256
    collision.  The proof [p] is arbitrary. *)
Theorem inclusion_sound (l : list hash32) (root : hash32) (i : Z) (lh : hash32)
    (p : list hash32) (Hl : len l < two64) (Hroot : mth l = Ret (Some root)) (Hi : 0 <= i)
    (Hv : verify_inclusion lh i (len l) p root = Ret true) :
  clash_or (inclusion_collision l i lh p) (l !! Z.to_nat i = Some lh).
Proof. by eapply inclusion_sound_tree. Qed.

Lemma consistency_complete_tree (l : list hash32) (m : Z) :
  len l < two64 -> 1 <= m <= len l ->
  exists p old_root new_root,
    consistency_proof l m = Ret (Ok p) /\
    mth (take (Z.to_nat m) l) = Ret (Some old_root) /\ mth l = Ret (Some new_root) /\
    verify_consistency m (len l) p old_root new_root = Ret true.
Proof.
  intros Hl Hm.
  destruct (build_spec l) as (T & HT & <- & ST).
  { intros ->. rewrite len_nil in Hm. lia. }
  fold (tsize T) in *.
  destruct (build_spec (take (Z.to_nat m) (leaves T))) as (T1 & HT1 & El1 & ST1).
  { rewrite <- length_zero_iff_nil, length_take. unfold tsize, len in Hm. lia. }
  exists (tsub T m true), (troot T1), (troot T).
  split; [by apply consistency_proof_tree|]. rewrite <- El1.
  split; [apply mth_leaves; [done|]; unfold tsize, len in *; rewrite El1, length_take; lia|].
  split; [by apply mth_leaves|]. rewrite verify_consistency_tree by done. f_equal.
  apply bool_decide_eq_true. rewrite <- (app_nil_r (tsub T m true)).
  by apply tver_tsub.
Qed.

Lemma consistency_total (l : list hash32) (m : Z) :
  len l < two64 -> 0 <= m -> exists r, consistency_proof l m = Ret r.
Proof.
  intros Hl Hm. destruct (decide (1 <= m <= len l)) as [Hr|Hr].
  - destruct (consistency_complete_tree l m Hl Hr) as (p & _ & _ & -> & _). eauto.
  - unfold consistency_proof. destruct ((m =? 0) || (len l <? m)) eqn:E; [eauto|]. breflect. lia.
Qed.

(** C13: completeness of consistency proofs.  Between any two non-empty
    snapshots of a growing log, [consistency_proof] returns a proof and
    [verify_consistency] accepts it against the two roots. *)
Theorem consistency_complete (l : list hash32) (m : Z) (Hl : len l < two64)
    (Hm : 1 <= m <= len l) :
  exists p old_root new_root,
    consistency_proof l m = Ret (Ok p) /\
    mth (take (Z.to_nat m) l) = Ret (Some old_root) /\ mth l = Ret (Some new_root) /\
    verify_consistency m (len l) p old_root new_root = Ret true.
Proof. by apply consistency_complete_tree. Qed.

Lemma consistency_sound_tree l1 l2 r1 r2 p :
  len l1 < two64 -> len l2 < two64 ->
  mth l1 = Ret (Some r1) -> mth l2 = Ret (Some r2) ->
  verify_consistency (len l1) (len l2) p r1 r2 = Ret true ->
  clash_or (consistency_collision l1 l2 p) (l1 = take (length l1) l2).
Proof.
  intros Hl1 Hl2 H1 H2 Hv.
  destruct (build_root l1 r1 Hl1 H1) as (T1 & HT1 & E1 & S1 & R1).
  destruct (build_root l2 r2 Hl2 H2) as (T2 & HT2 & E2 & S2 & R2).
  unfold consistency_collision. rewrite HT1, HT2. subst l1 l2 r1 r2.
  fold (tsize T1) in *. fold (tsize T2) in *. pose proof (tsize_pos T1).
  destruct (Z.le_gt_cases (tsize T1) (tsize T2)) as [Hle|Hgt].
  - rewrite verify_consistency_tree in Hv by done.
    injection Hv as Hv%bool_decide_eq_true.
    replace (length (leaves T1)) with (Z.to_nat (tsize T1)) by (unfold tsize, len; lia).
    by eapply consistency_clash_spec.
  - unfold verify_consistency in Hv. rewrite (proj2 (Z.eqb_neq _ _)) in Hv by lia.
    rewrite (proj2 (Z.ltb_lt (tsize T2) (tsize T1))), orb_true_r in Hv by lia. done.
Qed.

(** C1: soundness of consistency proofs, the append-only guarantee.  If
    [verify_consistency] accepts between the roots of [l1] and [l2], then
    [l1] is a prefix of [l2], or [consistency_collision] returns a SHA-256
    collision.  The proof [p] is arbitrary. *)
Theorem consistency_sound (l1 l2 : list hash32) (r1 r2 : hash32) (p : list hash32)
    (Hl1 : len l1 < two64) (Hl2 : len l2 < two64)
    (H1 : mth l1 = Ret (Some r1)) (H2 : mth l2 = Ret (Some r2))
    (Hv : verify_consistency (len l1) (len l2) p r1 r2 = Ret true) :
  clash_or (consistency_collision l1 l2 p) (l1 = take (length l1) l2).
Proof. by eapply consistency_sound_tree. Qed.

(** C6: tamper evidence.  A server that rewrote any of the entries [d1] a
    client has a signed root for cannot have a consistency proof to the
    root of its new history [d2] accepted, unless it exhibits a SHA-256
    collision, which [history_collision] computes from the two histories
    and the proof. *)
Theorem tampered_history_detected (d1 d2 : list bytes) (r1 r2 : hash32) (p : list hash32)
    (Hl1 : len d1 < two64) (Hl2 : len d2 < two64)
    (H1 : mth (leaf_hash <$> d1) = Ret (Some r1)) (H2 : mth (leaf_hash <$> d2) = Ret (Some r2))
    (Hv : verify_consistency (len d1) (len d2) p r1 r2 = Ret true) :
  clash_or (history_collision d1 d2 p) (d1 = take (length d1) d2).
Proof.
  unfold history_collision. assert (Hf : forall d, len (leaf_hash <$> d) = len d).
  { intros d. unfold len. by rewrite length_fmap. }
  eapply clash_or_else.
  - eapply consistency_sound_tree; rewrite ?Hf; done.
  - intros E. rewrite length_fmap, <- fmap_take in E. by apply leaf_clash_spec.
Qed.

Lemma verifiers_return (a b : Z) (Ha : in_u64 a) (Hb : in_u64 b)
    (lh r1 r2 : hash32) (p : list hash32) :
  (exists x, verify_inclusion lh a b p r1 = Ret x) /\
  (exists x, verify_consistency a b p r1 r2 = Ret x).
Proof.
  unfold in_u64 in *. split.
  - destruct (Z.lt_ge_cases a b) as [Hlt|Hge].
    + destruct (shape_of_size b ltac:(lia)) as (T & ST & <-).
      rewrite verify_inclusion_tree by (done || lia). eauto.
    + unfold verify_inclusion. rewrite (proj2 (Z.leb_le _ _) Hge), orb_true_r. eauto.
  - destruct (Z.lt_ge_cases b a) as [Hlt|Hge].
    + unfold verify_consistency. rewrite (proj2 (Z.eqb_neq _ _)) by lia.
      rewrite (proj2 (Z.ltb_lt _ _) Hlt), orb_true_r. eauto.
    + destruct (Z.eq_dec a 0) as [->|Ha0].
      * unfold verify_consistency. destruct (0 =? b); cbn; eauto.
      * destruct (shape_of_size b ltac:(lia)) as (T & ST & <-).
        rewrite verify_consistency_tree by (done || lia). eauto.
Qed.

(** The verifiers are total.  On every [u64] index and size, every proof
    and every root, [verify_inclusion] and [verify_consistency] return a
    boolean: they neither panic nor exhaust the recursion depth, in builds
    with and without overflow checks. *)
Theorem verifiers_total (a b : Z) (Ha : in_u64 a) (Hb : in_u64 b)
    (lh r1 r2 : hash32) (p : list hash32) :
  (exists x, verify_inclusion lh a b p r1 = Ret x) /\
  (exists x, verify_consistency a b p r1 r2 = Ret x).
Proof. by apply verifiers_return. Qed.

(** The errors of proof generation.  [inclusion_proof] fails exactly on
    an index that is not below the number of leaves, [consistency_proof]
    exactly on an old size that is zero or above it, with the error that
    reports the two numbers. *)
Theorem generation_errors (l : list hash32) (i : Z) (Hl : len l < two64) (Hi : 0 <= i) :
  (forall e, inclusion_proof l i = Ret (Err e) <->
             len l <= i /\ e = LeafIndexOutOfRange i (len l)) /\
  (forall e, consistency_proof l i = Ret (Err e) <->
             (i = 0 \/ len l < i) /\ e = InvalidSizes i (len l)).
Proof.
  assert (Hne : forall j, 0 < j -> j <= len l -> l <> []) by (intros j ? ? ->; rewrite len_nil in *; lia).
  split; intros e.
  - unfold inclusion_proof. destruct (Z.leb_spec (len l) i) as [Hle|Hgt]; [naive_solver|].
    destruct (build_spec l (Hne (len l) ltac:(lia) ltac:(lia))) as (T & _ & <- & ST).
    pose proof (inclusion_proof_tree T i ST Hl (conj Hi Hgt)) as E. unfold inclusion_proof in E.
    rewrite (proj2 (Z.leb_gt _ _) Hgt) in E. rewrite E. split; [done|]. intros [? _]. lia.
  - destruct (Z.eq_dec i 0) as [->|Hi0]; [cbn; naive_solver|].
    destruct (Z.lt_ge_cases (len l) i) as [Hlt|Hge].
    + unfold consistency_proof. rewrite (proj2 (Z.ltb_lt _ _) Hlt), orb_true_r. naive_solver.
    + destruct (build_spec l (Hne i ltac:(lia) Hge)) as (T & _ & <- & ST).
      fold (tsize T) in *. rewrite consistency_proof_tree by (done || lia).
      split; [done|]. intros [[? | ?] _]; lia.
Qed.

Lemma height_log2_up T : rfc_shape T -> Z.of_nat (height T) <= Z.log2_up (tsize T).
Proof.
  intros ST. apply height_bound; [done|apply Z.log2_up_nonneg|].
  destruct (Z.eq_dec (tsize T) 1) as [->|Hne]; [done|].
  pose proof (tsize_pos T). apply Z.log2_up_spec. lia.
Qed.

(** Proofs are logarithmic.  Any path [verify_inclusion] accepts for a
    tree of [n] leaves has at most [log2_up n] hashes (so at most 64). *)
Theorem inclusion_length_bound (lh root : hash32) (i n : Z) (p : list hash32)
    (Hi : 0 <= i) (Hn : in_u64 n) (Hv : verify_inclusion lh i n p root = Ret true) :
  len p <= Z.log2_up n <= 64.
Proof.
  unfold in_u64 in Hn. destruct (Z.lt_ge_cases i n) as [Hlt|Hge].
  - destruct (shape_of_size n ltac:(lia)) as (T & ST & <-).
    rewrite verify_inclusion_tree in Hv by (done || lia).
    injection Hv as Hv%bool_decide_eq_true.
    assert (length (rev p) = tdepth T i) as E by (apply (tfold_depth T i lh); eauto).
    rewrite length_rev in E. pose proof (tdepth_height T i). pose proof (height_log2_up T ST).
    split; [unfold len; lia|]. apply Z.log2_up_le_pow2; [lia|]. change (2 ^ 64) with two64. lia.
  - unfold verify_inclusion in Hv. rewrite (proj2 (Z.leb_le _ _) Hge), orb_true_r in Hv. done.
Qed.
End Theorems.

(** ** The vectors of src/test-vectors *)

Module Vectors.
#[local] Existing Instance fips_sha256.
#[local] Instance release : Profile := false.
#[local] Open Scope string_scope.

(** Leaf hashes of "entry-0" to "entry-6" (tree-roots.json, size 7). *)
Definition leaves7 : list hash32 :=
  Eval vm_compute in
  [
   hex32 "40766b2033429026f53d54502679a839706b4741f8dcaf3a8bba5f41b5ffe075";
   hex32 "e868811a482c27d50b6d45dde79c465d6adb9b06645100477a90cf3d8518898b";
   hex32 "049d7dcdb56bcfebd313304c9839f196a3d4b6ef3bdc0b08298f93ac8191f0a8";
   hex32 "27479b6ab321d2ee477452f68ba527748e863cafe8fbd1df2bf89d1570d1b697";
   hex32 "194bb5a2d5bd10e5d1aa6fd5d42980b356caf1da623cd9987c4bfa2f81771ed7";
   hex32 "514158527515064c7bbd35b44c9f11addcfc38b439554fc9bb0d8b7c661c3e8f";
   hex32 "0cfda576ff4b29ea33c3afdaeed1bd637eb654b28a04302fcab5fd7db07801cc"].

Definition root7 : hash32 := Eval vm_compute in hex32 "9139601cc1ca8ab2a7a0c2c134c04845f2b1ba549a83d6c845cfcda439cc585d".
Definition root3 : hash32 := Eval vm_compute in hex32 "a64bf26e09128f6fe2fe6f8b2d8c801e166b57c047a7cd9b2b809e7a96a2f1cb".

(** inclusion-proofs.json: leaf 4 of 7. *)
Definition path4 : list hash32 :=
  Eval vm_compute in
  [hex32 "514158527515064c7bbd35b44c9f11addcfc38b439554fc9bb0d8b7c661c3e8f";
   hex32 "0cfda576ff4b29ea33c3afdaeed1bd637eb654b28a04302fcab5fd7db07801cc";
   hex32 "256b9e8825e5d370a4ae005d0901ea291977e2927f5cf8e3e72660dd09519edb"].

(** consistency-proofs.json: 3 to 7. *)
Definition proof37 : list hash32 :=
  Eval vm_compute in
  [hex32 "049d7dcdb56bcfebd313304c9839f196a3d4b6ef3bdc0b08298f93ac8191f0a8";
   hex32 "27479b6ab321d2ee477452f68ba527748e863cafe8fbd1df2bf89d1570d1b697";
   hex32 "2f27a5082c1d42afa488ac350a9fc4390c084f54f71ecdff859e98db8429b479";
   hex32 "e429c5b5ccaa9523c37297f1846766f903137e82195c5199e6be57130d1006c8"].

(** The payloads of the first entries. *)
Definition history (n : nat) : list bytes :=
  take n [ascii_bytes "entry-0"; ascii_bytes "entry-1"; ascii_bytes "entry-2"].

(** leaf-hashes.json: the empty payload; tree-roots.json: entry-0. *)
Example leaf_hash_vectors :
  leaf_hash [] = hex32 "6e340b9cffb37a989ca544e6bb780a2c78901d3fb33738768511a30617afa01d" /\
  Some (leaf_hash (ascii_bytes "entry-0")) = leaves7 !! 0%nat.
Proof. split; vm_compute; reflexivity. Qed.

Example mth_vectors :
  mth leaves7 = Ret (Some root7) /\ mth (take 3 leaves7) = Ret (Some root3).
Proof. split; vm_compute; reflexivity. Qed.

Example proof_vectors :
  inclusion_proof leaves7 4 = Ret (Ok path4) /\
  consistency_proof leaves7 3 = Ret (Ok proof37).
Proof. split; vm_compute; reflexivity. Qed.

Example verify_vectors :
  verify_inclusion (nth 4 leaves7 root7) 4 7 path4 root7 = Ret true /\
  verify_inclusion (nth 4 leaves7 root7) 5 7 path4 root7 = Ret false /\
  verify_consistency 3 7 proof37 root3 root7 = Ret true /\
  verify_consistency 3 7 proof37 root7 root7 = Ret false.
Proof. vm_compute. auto. Qed.
End Vectors.

(** ** Witnesses: the theorems at the vectors *)

Section Witnesses.
#[local] Existing Instance fips_sha256.
#[local] Existing Instance Vectors.release.
Import Vectors.

Lemma inclusion_complete_witness :
  exists p root, inclusion_proof leaves7 4 = Ret (Ok p) /\ mth leaves7 = Ret (Some root) /\
    verify_inclusion (nth 4 leaves7 root7) 4 (len leaves7) p root = Ret true.
Proof. apply (inclusion_complete leaves7 4); [reflexivity|lia|reflexivity]. Defined.

Lemma inclusion_sound_witness :
  clash_or (inclusion_collision leaves7 4 (nth 4 leaves7 root7) path4)
           (leaves7 !! Z.to_nat 4 = Some (nth 4 leaves7 root7)).
Proof.
  apply (inclusion_sound leaves7 root7 4 (nth 4 leaves7 root7) path4);
    [reflexivity|vm_compute; reflexivity|lia|vm_compute; reflexivity].
Defined.

Lemma consistency_complete_witness :
  exists p old_root new_root,
    consistency_proof leaves7 3 = Ret (Ok p) /\
    mth (take (Z.to_nat 3) leaves7) = Ret (Some old_root) /\ mth leaves7 = Ret (Some new_root) /\
    verify_consistency 3 (len leaves7) p old_root new_root = Ret true.
Proof. apply (consistency_complete leaves7 3); [reflexivity|vm_compute; split; discriminate]. Defined.

Lemma consistency_sound_witness :
  clash_or (consistency_collision (take 3 leaves7) leaves7 proof37)
           (take 3 leaves7 = take (length (take 3 leaves7)) leaves7).
Proof.
  apply (consistency_sound (take 3 leaves7) leaves7 root3 root7 proof37);
    [reflexivity|reflexivity|vm_compute; reflexivity..].
Defined.

Lemma tampered_history_detected_witness :
  clash_or (history_collision (history 2) (history 3) [nth 2 leaves7 root7])
           (history 2 = take (length (history 2)) (history 3)).
Proof.
  eapply (tampered_history_detected (history 2) (history 3));
    [reflexivity|reflexivity|vm_compute; reflexivity..].
Defined.

Lemma verifiers_total_witness :
  (exists x, verify_inclusion root3 (two64 - 2) (two64 - 1) path4 root7 = Ret x) /\
  (exists x, verify_consistency (two64 - 2) (two64 - 1) path4 root7 root3 = Ret x).
Proof. apply (verifiers_total (two64 - 2) (two64 - 1)); vm_compute; split; discriminate || reflexivity. Defined.

Lemma mth_correct_witness : mth leaves7 = Ret (troot <$> build leaves7).
Proof. apply (Merkle.mth_correct leaves7). reflexivity. Defined.

Lemma append_preserves_witness :
  exists t', Merkle.MerkleTree.append Merkle.MerkleTree.new root3 = Ret (t', len (@nil hash32)) /\
    Merkle.represents t' ([] ++ [root3]).
Proof.
  apply (Merkle.append_preserves Merkle.MerkleTree.new [] root3);
    [apply Merkle.new_represents|reflexivity].
Defined.

Lemma incremental_root_is_mth_witness :
  exists t, Merkle.MerkleTree.append_all Merkle.MerkleTree.new leaves7 = Ret t /\
    Merkle.MerkleTree.size t = len leaves7 /\ Merkle.MerkleTree.root t = mth leaves7.
Proof. apply (Merkle.incremental_root_is_mth leaves7). reflexivity. Defined.
End Witnesses.
