(* ===== verification/Sth.v ===== *)
(** * Signed tree heads (crates/settled-core/src/sth.rs)

    The canonical 48-byte signing payload and its Ed25519 signature.  Ed25519
    comes from the [ed25519-dalek] crate: its operations are the fields of the
    class [Ed25519], and what the code relies on is in [Ed25519Laws]. *)

From S2P Require Import Prelude Bytes.

(** ** Ed25519 *)

Class Ed25519 := {
  SigningKey : Type;
  VerifyingKey : Type;
  (** [SigningKey::from_bytes] / [to_bytes]: the 32-byte seed. *)
  sk_from_bytes : array 32 -> SigningKey;
  sk_to_bytes : SigningKey -> array 32;
  verifying_key : SigningKey -> VerifyingKey;
  (** [VerifyingKey::from_bytes] fails on bytes that are no curve point. *)
  vk_from_bytes : array 32 -> option VerifyingKey;
  vk_to_bytes : VerifyingKey -> array 32;
  ed_sign : SigningKey -> bytes -> array 64;
  ed_verify : VerifyingKey -> bytes -> array 64 -> bool;
  ed_verify_strict : VerifyingKey -> bytes -> array 64 -> bool
}.

(** Documented behaviour: byte conversions are inverse, a signature verifies
    under the key of its signer, and strict verification accepts the
    signatures made with a key pair. *)
Class Ed25519Laws `{Ed25519} := {
  sk_roundtrip : forall sk, sk_from_bytes (sk_to_bytes sk) = sk;
  vk_roundtrip : forall vk, vk_from_bytes (vk_to_bytes vk) = Some vk;
  ed_sign_verify : forall sk m, ed_verify (verifying_key sk) m (ed_sign sk m) = true;
  ed_sign_verify_strict : forall sk m, ed_verify_strict (verifying_key sk) m (ed_sign sk m) = true
}.

(** ** Definitions *)

(** The buffer after the three [copy_from_slice] calls. *)
Definition signing_payload_buf (tree_size : Z) (root_hash : hash32) (timestamp_ns : Z) : bytes :=
  let buf := replicate 48 Init.Byte.x00 in
  let buf := copy_from_slice buf 0 (to_vec (u64_to_be_bytes tree_size)) in
  let buf := copy_from_slice buf 8 (to_vec root_hash) in
  copy_from_slice buf 40 (to_vec (i64_to_be_bytes timestamp_ns)).

Lemma signing_payload_ok tree_size root_hash timestamp_ns :
  Is_true (Nat.eqb (length (signing_payload_buf tree_size root_hash timestamp_ns)) 48).
Proof.
  apply Is_true_eq_left, Nat.eqb_eq. unfold signing_payload_buf, copy_from_slice.
  repeat rewrite ?length_app, ?length_take, ?length_drop, ?length_replicate, ?array_length.
  lia.
Qed.

Definition signing_payload (tree_size : Z) (root_hash : hash32) (timestamp_ns : Z) : array 48 :=
  Array _ (signing_payload_ok tree_size root_hash timestamp_ns).

Section Definitions.
Context `{Ed25519}.

Definition sign_tree_head (key : SigningKey) (tree_size : Z) (root_hash : hash32)
    (timestamp_ns : Z) : array 64 :=
  let payload := signing_payload tree_size root_hash timestamp_ns in
  ed_sign key (to_vec payload).

Definition verify_tree_head (key : VerifyingKey) (tree_size : Z) (root_hash : hash32)
    (timestamp_ns : Z) (signature : array 64) : bool :=
  let payload := signing_payload tree_size root_hash timestamp_ns in
  ed_verify key (to_vec payload) signature.
End Definitions.

(** ** The payload determines the head *)

Lemma signing_payload_layout n r t :
  to_vec (signing_payload n r t) =
  to_vec (u64_to_be_bytes n) ++ to_vec r ++ to_vec (i64_to_be_bytes t).
Proof.
  cbn [to_vec signing_payload]. unfold signing_payload_buf.
  set (a := to_vec (u64_to_be_bytes n)). set (b := to_vec r). set (c := to_vec (i64_to_be_bytes t)).
  assert (La : length a = 8%nat) by apply array_length.
  assert (Lb : length b = 32%nat) by apply array_length.
  assert (Lc : length c = 8%nat) by apply array_length.
  rewrite <- (app_nil_l (replicate 48 _)).
  rewrite (copy_from_slice_app [] _ a 0) by done. rewrite app_nil_l.
  rewrite (copy_from_slice_app a _ b 8), app_assoc by done.
  rewrite (copy_from_slice_app (a ++ b)) by (rewrite length_app; lia).
  rewrite La, Lb, Lc, !drop_drop, drop_ge by (rewrite length_replicate; lia).
  by rewrite app_nil_r, <- app_assoc.
Qed.

Lemma signing_payload_inj n r t n' r' t' :
  in_u64 n -> in_u64 n' -> in_i64 t -> in_i64 t' ->
  to_vec (signing_payload n r t) = to_vec (signing_payload n' r' t') ->
  n = n' /\ r = r' /\ t = t'.
Proof.
  intros Hn Hn' Ht Ht'. rewrite !signing_payload_layout. intros E.
  apply app_inj_len in E as [En E]; [|by rewrite !array_length].
  apply app_inj_len in E as [Er Et]; [|by rewrite !array_length].
  split; [by apply u64_to_be_bytes_inj|]. split; [by apply to_vec_inj|].
  by apply i64_to_be_bytes_inj.
Qed.

Section Theorems.
Context `{Ed25519Laws}.

(** The signing payload is the wire format of section 5.2 and is canonical:
    it is [tree_size] (8 bytes), [root_hash] (32) and [timestamp_ns] (8) in
    big-endian order, and two heads with the same payload are equal field by
    field, for every [u64] size and [i64] timestamp. *)
Theorem signing_payload_canonical (n n' : Z) (r r' : hash32) (t t' : Z)
    (Hn : in_u64 n) (Hn' : in_u64 n') (Ht : in_i64 t) (Ht' : in_i64 t') :
  to_vec (signing_payload n r t) =
    to_vec (u64_to_be_bytes n) ++ to_vec r ++ to_vec (i64_to_be_bytes t) /\
  (signing_payload n r t = signing_payload n' r' t' -> n = n' /\ r = r' /\ t = t').
Proof.
  split; [apply signing_payload_layout|]. intros E.
  apply signing_payload_inj; [done..|]. by rewrite E.
Qed.

(** Signing then verifying.  A head signed by [sign_tree_head] verifies
    under the signer's key, and if the same signature verifies for a head
    that differs in any field, it is a signature on a message other than
    the one signed: a forgery. *)
Theorem sign_verify_binding (sk : SigningKey) (n n' : Z) (r r' : hash32) (t t' : Z)
    (Hn : in_u64 n) (Hn' : in_u64 n') (Ht : in_i64 t) (Ht' : in_i64 t') :
  let sig := sign_tree_head sk n r t in
  verify_tree_head (verifying_key sk) n r t sig = true /\
  (verify_tree_head (verifying_key sk) n' r' t' sig = true ->
   (n', r', t') <> (n, r, t) ->
   exists m, m <> to_vec (signing_payload n r t) /\ ed_verify (verifying_key sk) m sig = true).
Proof.
  intros sig. split; [apply ed_sign_verify|]. intros Hv Hne.
  exists (to_vec (signing_payload n' r' t')). split; [|exact Hv].
  intros E. apply Hne. by apply signing_payload_inj in E as (-> & -> & ->).
Qed.
End Theorems.

(** ** An instance

    A signature scheme that satisfies the laws (and is trivially forgeable): the
    key pair is the seed and a signature is determined by the key and the message. *)
Module ToyEd25519.
Definition tag (k : array 32) (m : bytes) : array 64 :=
  default (array_fill 64 Init.Byte.x00)
    (array_try_from 64 (take 64 (to_vec k ++ m ++ replicate 64 Init.Byte.x00))).

#[export] Instance toy : Ed25519 := {|
  SigningKey := array 32;
  VerifyingKey := array 32;
  sk_from_bytes := fun k => k;
  sk_to_bytes := fun k => k;
  verifying_key := fun k => k;
  vk_from_bytes := Some;
  vk_to_bytes := fun k => k;
  ed_sign := tag;
  ed_verify := fun k m s => bool_decide (s = tag k m);
  ed_verify_strict := fun k m s => bool_decide (s = tag k m)
|}.

Definition z32 : hash32 := array_fill 32 Init.Byte.x00.
Definition o32 : hash32 := array_fill 32 Init.Byte.x01.
Definition key : @SigningKey toy := z32.

#[export] Instance toy_laws : Ed25519Laws.
Proof. split; intros; cbn; [done|done|by apply bool_decide_eq_true..]. Qed.
End ToyEd25519.

Section Witnesses.
Import ToyEd25519.

Lemma signing_payload_canonical_witness :
  to_vec (signing_payload 7 z32 (-5)) =
    to_vec (u64_to_be_bytes 7) ++ to_vec z32 ++ to_vec (i64_to_be_bytes (-5)) /\
  (signing_payload 7 z32 (-5) = signing_payload 8 o32 9 -> 7 = 8 /\ z32 = o32 /\ -5 = 9).
Proof.
  apply (signing_payload_canonical 7 8 z32 o32 (-5) 9); vm_compute; split; discriminate || reflexivity.
Defined.

Lemma sign_verify_binding_witness :
  let sig := sign_tree_head key 7 z32 (-5) in
  verify_tree_head (verifying_key key) 7 z32 (-5) sig = true /\
  (verify_tree_head (verifying_key key) 8 o32 9 sig = true ->
   (8, o32, 9) <> (7, z32, -5) ->
   exists m, m <> to_vec (signing_payload 7 z32 (-5)) /\ ed_verify (verifying_key key) m sig = true).
Proof.
  apply (sign_verify_binding key 7 8 z32 o32 (-5) 9); vm_compute; split; discriminate || reflexivity.
Defined.
End Witnesses.
