(* ===== verification/SdkVerifier.v ===== *)
(** * The Rust SDK's verifier (sdks/rust/src/verifier.rs)

    A second implementation of the checks, written for clients: the inclusion
    loop over arrays by value, a consistency recursion that reads the proof by
    index, a split point found by doubling, and the checks of signed tree heads. *)

From S2P Require Import Prelude Bytes Hash MerkleSpec Sth.
From S2P Require MerkleProof ProofTheorems.
From S2P Require Import Sha256Instance.

(** ** Definitions *)

Section Definitions.
Context `{Profile} `{Sha256}.

(** [Sha256::new().chain_update(..).finalize()] *)
Definition leaf_hash (data : bytes) : hash32 :=
  Hasher.finalize (Hasher.update (Hasher.update Hasher.new [Init.Byte.x00]) data).
Definition node_hash (left right : hash32) : hash32 :=
  Hasher.finalize
    (Hasher.update (Hasher.update (Hasher.update Hasher.new [Init.Byte.x01]) (to_vec left))
       (to_vec right)).

(** [while p * 2 < n { p <<= 1; }] *)
Fixpoint split_loop (fuel : nat) (p n : Z) : outcome Z :=
  match fuel with
  | O => OutOfFuel
  | S fuel =>
      let! d := u64_mul p 2 in
      if d <? n then
        let! p := u64_shl p 1 in
        split_loop fuel p n
      else Ret p
  end.
Definition split (n : Z) : outcome Z := split_loop tree_fuel 1 n.

Fixpoint inclusion_loop (proof : list hash32) (fn_ sn : Z) (r : hash32)
  : outcome (option (Z * Z * hash32)) :=
  match proof with
  | [] => Ret (Some (fn_, sn, r))
  | step :: proof =>
      if sn =? 0 then Ret None
      else
        let! (fn_, sn, r) :=
          if negb (Z.land fn_ 1 =? 0) || (fn_ =? sn) then
            let r := node_hash step r in
            let! (fn_, sn) := MerkleProof.shift_while tree_fuel fn_ sn in
            Ret (fn_, sn, r)
          else Ret (fn_, sn, node_hash r step) in
        inclusion_loop proof (Z.shiftr fn_ 1) (Z.shiftr sn 1) r
  end.

Definition verify_inclusion (leaf : hash32) (leaf_index tree_size : Z)
    (proof : list hash32) (root : hash32) : outcome bool :=
  if (tree_size =? 0) || (tree_size <=? leaf_index) then Ret false
  else
    let! sn := u64_sub tree_size 1 in
    let! res := inclusion_loop proof leaf_index sn leaf in
    match res with
    | None => Ret false
    | Some (_, sn, r) => Ret ((sn =? 0) && bool_decide (r = root))
    end.

(** The closure [next]: the element at [idx] and the incremented index. *)
Definition next (proof : list hash32) (idx : Z) : option (hash32 * Z) :=
  if len proof <=? idx then None
  else match proof !! Z.to_nat idx with
       | Some h => Some (h, idx + 1)
       | None => None
       end.

Fixpoint verify_subproof_fuel (fuel : nat) (proof : list hash32) (m n : Z)
    (old_root : hash32) (idx : Z) (b : bool) : outcome (option (hash32 * hash32 * Z)) :=
  match fuel with
  | O => OutOfFuel
  | S fuel =>
      if m =? n then
        if b then Ret (Some (old_root, old_root, idx))
        else match next proof idx with
             | None => Ret None
             | Some (h, idx) => Ret (Some (h, h, idx))
             end
      else
        let! sp := split n in
        if m <=? sp then
          let! res := verify_subproof_fuel fuel proof m sp old_root idx b in
          match res with
          | None => Ret None
          | Some (lo, ln, idx) =>
              match next proof idx with
              | None => Ret None
              | Some (rh, idx) => Ret (Some (lo, node_hash ln rh, idx))
              end
          end
        else
          let! m' := u64_sub m sp in
          let! n' := u64_sub n sp in
          let! res := verify_subproof_fuel fuel proof m' n' old_root idx false in
          match res with
          | None => Ret None
          | Some (ro, rn, idx) =>
              match next proof idx with
              | None => Ret None
              | Some (lh, idx) => Ret (Some (node_hash lh ro, node_hash lh rn, idx))
              end
          end
  end.

Definition verify_consistency (old_size new_size : Z) (proof : list hash32)
    (old_root new_root : hash32) : outcome bool :=
  if old_size =? new_size then
    Ret (bool_decide (proof = []) && bool_decide (old_root = new_root))
  else if (old_size =? 0) || (new_size <? old_size) then Ret false
  else
    let! res := verify_subproof_fuel tree_fuel proof old_size new_size old_root 0 true in
    match res with
    | Some (computed_old, computed_new, idx) =>
        Ret ((idx =? len proof) && bool_decide (computed_old = old_root)
             && bool_decide (computed_new = new_root))
    | None => Ret false
    end.
End Definitions.

(** [buf\[0..8\]], [buf\[8..40\]], [buf\[40..48\]] as in the core crate. *)
Definition signing_payload (tree_size : Z) (root_hash : hash32) (timestamp_ns : Z) : array 48 :=
  Array (signing_payload_buf tree_size root_hash timestamp_ns)
        (signing_payload_ok tree_size root_hash timestamp_ns).

Record KeyRecord := {
  version : Z;
  public_key : array 32;
  activated_at_tree_size : Z
}.

Section TreeHeads.
Context `{Ed25519}.

Definition verify_tree_head (tree_size : Z) (root_hash : hash32) (timestamp_ns : Z)
    (signature public_key : bytes) : bool :=
  match array_try_from 32 public_key with
  | None => false
  | Some key_arr =>
      match array_try_from 64 signature with
      | None => false
      | Some sig_arr =>
          match vk_from_bytes key_arr with
          | None => false
          | Some vk =>
              let payload := signing_payload tree_size root_hash timestamp_ns in
              ed_verify vk (to_vec payload) sig_arr
          end
      end
  end.

Definition verify_tree_head_with_chain (tree_size : Z) (root_hash : hash32)
    (timestamp_ns : Z) (signature : bytes) (key_version : Z) (chain : list KeyRecord) : bool :=
  match find (fun r => version r =? key_version) chain with
  | None => false
  | Some record =>
      verify_tree_head tree_size root_hash timestamp_ns signature (to_vec (public_key record))
  end.

Definition verify_tree_head_sequential (tree_size : Z) (root_hash : hash32)
    (timestamp_ns : Z) (signature public_key : bytes) (previous_timestamp_ns : Z) : bool :=
  if timestamp_ns <=? previous_timestamp_ns then false
  else verify_tree_head tree_size root_hash timestamp_ns signature public_key.
End TreeHeads.

(** ** The split loop *)

Section Split.
Context `{Profile}.

Lemma split_loop_spec (fuel : nat) j n :
  1 < n <= two63 -> 0 <= j <= Z.log2 (n - 1) -> Z.log2 (n - 1) - j < Z.of_nat fuel ->
  split_loop fuel (2 ^ j) n = Ret (split_point n).
Proof.
  intros Hn. destruct (split_point_spec n ltac:(lia)) as (h & Hh & E & Hb).
  assert (Z.log2 (n - 1) = h) as -> by (unfold split_point in E; apply pow2_inj in E; [done| |done]; apply Z.log2_nonneg).
  assert (h <= 62).
  { assert (h < 63); [|lia]. apply (Z.pow_lt_mono_r_iff 2); [lia|lia|].
    change (2 ^ 63) with two63. lia. }
  revert j. induction fuel as [|fuel IH]; intros j Hj Hf; [lia|]. cbn [split_loop].
  assert (Hp : 2 ^ j <= 2 ^ h) by (apply Z.pow_le_mono_r; lia).
  pose proof (pow2_pos j ltac:(lia)).
  rewrite u64_mul_in by ulia. cbn [obind].
  destruct (Z.eq_dec j h) as [->|Hne].
  - rewrite (proj2 (Z.ltb_ge _ _)) by lia. by rewrite E.
  - assert (Hp' : 2 ^ (j + 1) <= 2 ^ h) by (apply Z.pow_le_mono_r; lia).
    rewrite Z.pow_add_r in Hp' by lia. change (2 ^ 1) with 2 in Hp'.
    rewrite (proj2 (Z.ltb_lt _ _)) by lia. rewrite u64_shl_in by ulia. cbn [obind].
    rewrite <- Z.pow_add_r by lia. apply IH; lia.
Qed.

Lemma split_spec n : 1 < n <= two63 -> split n = Ret (split_point n).
Proof.
  intros Hn. unfold split. change 1 with (2 ^ 0). apply split_loop_spec; [done| |].
  - pose proof (Z.log2_nonneg (n - 1)). lia.
  - assert (Z.log2 (n - 1) < 64); [|unfold tree_fuel; lia].
    apply Z.log2_lt_pow2; [lia|]. change (2 ^ 64) with two64. ulia.
Qed.

(** Above [2 ^ 63] the doubling leaves the [u64] range. *)
Lemma split_loop_zero (fuel : nat) n :
  overflow_checks = false -> 0 < n -> split_loop fuel 0 n = OutOfFuel.
Proof.
  intros Hc Hn. induction fuel as [|fuel IH]; [done|]. cbn [split_loop].
  rewrite u64_mul_in by ulia. cbn [obind]. rewrite (proj2 (Z.ltb_lt _ _)) by lia.
  rewrite u64_shl_in by ulia. exact IH.
Qed.

Lemma split_loop_large (fuel : nat) j n :
  two63 < n < two64 -> 0 <= j <= 63 ->
  split_loop fuel (2 ^ j) n =
  if overflow_checks then if Z.of_nat fuel <=? 63 - j then OutOfFuel else Panic
  else OutOfFuel.
Proof.
  intros Hn. revert j. induction fuel as [|fuel IH]; intros j Hj.
  { destruct overflow_checks; [|done]. by rewrite (proj2 (Z.leb_le _ _)) by lia. }
  cbn [split_loop]. pose proof (pow2_pos j ltac:(lia)).
  destruct (Z.eq_dec j 63) as [->|Hne].
  - unfold u64_mul, checked. change (2 ^ 63 * 2) with two64. rewrite Z.ltb_irrefl, andb_false_r.
    destruct overflow_checks eqn:Hc; cbn [obind].
    + by rewrite (proj2 (Z.leb_gt _ _)) by lia.
    + rewrite Z.mod_same by done. rewrite (proj2 (Z.ltb_lt _ _)) by ulia.
      unfold u64_shl. cbn [Z.ltb Z.compare Pos.compare Pos.compare_cont]. cbn [obind].
      replace (Z.shiftl (2 ^ 63) 1 mod two64) with 0 by done.
      apply split_loop_zero; [done|ulia].
  - assert (Hp' : 2 ^ (j + 1) <= 2 ^ 63) by (apply Z.pow_le_mono_r; lia).
    rewrite Z.pow_add_r in Hp' by lia. change (2 ^ 1) with 2 in Hp'.
    change (2 ^ 63) with two63 in Hp'.
    rewrite u64_mul_in by ulia. cbn [obind]. rewrite (proj2 (Z.ltb_lt _ _)) by lia.
    rewrite u64_shl_in by ulia. cbn [obind]. rewrite <- Z.pow_add_r by lia.
    rewrite IH by lia. destruct overflow_checks; [|done].
    destruct (Z.leb_spec (Z.of_nat fuel) (63 - (j + 1))).
    + by rewrite (proj2 (Z.leb_le _ _)) by lia.
    + by rewrite (proj2 (Z.leb_gt _ _)) by lia.
Qed.
End Split.

(** ** Agreement with the core crate *)

Section Agreement.
Context `{Profile} `{Sha256}.

Lemma next_drop proof (idx : Z) :
  0 <= idx ->
  next proof idx =
  match drop (Z.to_nat idx) proof with
  | [] => None
  | h :: _ => Some (h, idx + 1)
  end.
Proof.
  intros Hi. unfold next. destruct (Z.leb_spec (len proof) idx) as [Hle|Hgt].
  - rewrite drop_ge by (unfold len in Hle; lia). done.
  - destruct (lookup_lt_is_Some_2 proof (Z.to_nat idx)) as [h Eh]; [unfold len in Hgt; lia|].
    rewrite Eh. by rewrite (drop_S _ _ _ Eh).
Qed.

Lemma inclusion_loop_core p f s r : inclusion_loop p f s r = MerkleProof.inclusion_loop p f s r.
Proof.
  revert f s r. induction p as [|x p IH]; intros f s r; [done|].
  cbn [inclusion_loop MerkleProof.inclusion_loop]. destruct (s =? 0); [done|].
  change node_hash with Hash.node_hash.
  match goal with |- obind ?m _ = obind ?m _ => destruct m as [[[f' s'] r']| |] end; [apply IH|done..].
Qed.

(** The recursion of the SDK against that of the core crate: same roots, and
    the index marks the rest of the proof. *)
Definition agree (proof : list hash32) (idx : Z)
    (sdk : outcome (option (hash32 * hash32 * Z)))
    (core : outcome (option (hash32 * hash32 * list hash32))) : Prop :=
  match core with
  | Ret (Some (o, n, rest)) =>
      exists idx', sdk = Ret (Some (o, n, idx')) /\ idx <= idx' <= len proof /\
                   rest = drop (Z.to_nat idx') proof
  | Ret None => sdk = Ret None
  | Panic => sdk = Panic
  | OutOfFuel => sdk = OutOfFuel
  end.

Lemma drop_cons_inv (proof : list hash32) idx x rest :
  0 <= idx -> drop (Z.to_nat idx) proof = x :: rest ->
  idx + 1 <= len proof /\ rest = drop (Z.to_nat (idx + 1)) proof.
Proof.
  intros Hi E. split.
  - apply (f_equal length) in E. rewrite length_drop in E. cbn in E. unfold len. lia.
  - replace (Z.to_nat (idx + 1)) with (Z.to_nat idx + 1)%nat by lia.
    rewrite <- drop_drop, E. done.
Qed.

Lemma verify_subproof_agree fuel proof m n o idx b :
  1 <= m <= n -> n <= two63 -> 0 <= idx <= len proof ->
  agree proof idx (verify_subproof_fuel fuel proof m n o idx b)
    (MerkleProof.verify_subproof_fuel fuel m n o (drop (Z.to_nat idx) proof) b).
Proof.
  revert m n idx b. induction fuel as [|fuel IH]; intros m n idx b Hm Hn Hi; [done|].
  cbn [verify_subproof_fuel MerkleProof.verify_subproof_fuel].
  destruct (Z.eqb_spec m n) as [->|Hne].
  - destruct b; [exists idx; split; [done|]; split; [lia|done]|].
    rewrite next_drop by lia. destruct (drop (Z.to_nat idx) proof) as [|h rest] eqn:D; [done|].
    apply drop_cons_inv in D as [? ->]; [|lia]. exists (idx + 1). split; [done|]. split; [lia|done].
  - destruct (split_point_spec n ltac:(lia)) as (h & Hh & E & Hb).
    rewrite split_spec, MerkleProof.proof_k_spec by ulia. rewrite E. cbn [obind].
    pose proof (pow2_pos h Hh). destruct (Z.leb_spec m (2 ^ h)).
    + specialize (IH m (2 ^ h) idx b ltac:(lia) ltac:(lia) Hi). unfold agree in IH.
      destruct (MerkleProof.verify_subproof_fuel fuel m _ o _ b) as [[[[lo ln] rest]|]| |];
        [destruct IH as (idx' & -> & Hi' & ->)|rewrite IH..]; try done.
      cbn [obind]. rewrite next_drop by lia.
      destruct (drop (Z.to_nat idx') proof) as [|x rest] eqn:D; [done|].
      apply drop_cons_inv in D as [? ->]; [|lia].
      exists (idx' + 1). split; [done|]. split; [lia|done].
    + rewrite !u64_sub_in by ulia. cbn [obind].
      specialize (IH (m - 2 ^ h) (n - 2 ^ h) idx false ltac:(lia) ltac:(lia) Hi). unfold agree in IH.
      destruct (MerkleProof.verify_subproof_fuel fuel _ _ o _ false) as [[[[ro rn] rest]|]| |];
        [destruct IH as (idx' & -> & Hi' & ->)|rewrite IH..]; try done.
      cbn [obind]. rewrite next_drop by lia.
      destruct (drop (Z.to_nat idx') proof) as [|x rest] eqn:D; [done|].
      apply drop_cons_inv in D as [? ->]; [|lia].
      exists (idx' + 1). split; [done|]. split; [lia|done].
Qed.

Lemma idx_end (proof : list hash32) idx :
  0 <= idx <= len proof -> (idx =? len proof) = bool_decide (drop (Z.to_nat idx) proof = []).
Proof.
  intros Hi. apply eq_bool_prop_intro. rewrite Is_true_true, Z.eqb_eq, bool_decide_spec.
  rewrite <- length_zero_iff_nil, length_drop. unfold len in *. lia.
Qed.

Lemma sdk_inclusion_core lh a b p r :
  verify_inclusion lh a b p r = MerkleProof.verify_inclusion lh a b p r.
Proof.
  unfold verify_inclusion, MerkleProof.verify_inclusion.
  destruct ((b =? 0) || (b <=? a)); [done|]. destruct (u64_sub b 1); [|done..].
  cbn [obind]. by rewrite inclusion_loop_core.
Qed.

Lemma sdk_consistency_core a b p r1 r2 :
  in_u64 a -> 0 <= b <= two63 ->
  verify_consistency a b p r1 r2 = MerkleProof.verify_consistency a b p r1 r2.
Proof.
  intros Ha Hb. unfold verify_consistency, MerkleProof.verify_consistency, MerkleProof.verify_subproof.
  generalize tree_fuel as fuel. intros fuel.
  destruct (Z.eqb_spec a b) as [|Hne]; [done|].
  destruct ((a =? 0) || (b <? a)) eqn:E; [done|]. breflect. unfold in_u64 in Ha.
  pose proof (verify_subproof_agree fuel p a b r1 0 true ltac:(lia) ltac:(lia)) as G.
  specialize (G (conj (Z.le_refl 0) (len_nonneg p))). unfold agree in G. rewrite drop_0 in G.
  destruct (MerkleProof.verify_subproof_fuel fuel a b r1 p true) as [[[[o n] rest]|]| |];
    [destruct G as (idx & -> & Hi & ->)|rewrite G..]; try done.
  cbn [obind]. by rewrite idx_end by lia.
Qed.

Lemma subproof_large fuel p a b r1 :
  0 < a < b -> two63 < b < two64 ->
  verify_subproof_fuel (S fuel) p a b r1 0 true =
  if overflow_checks then Panic else OutOfFuel.
Proof.
  intros Hab Hb. cbn [verify_subproof_fuel]. rewrite (proj2 (Z.eqb_neq a b)) by lia.
  unfold split. change 1 with (2 ^ 0). rewrite split_loop_large by (done || lia).
  by destruct overflow_checks.
Qed.

Lemma sdk_consistency_large a b r1 r2 p :
  0 < a < b -> two63 < b < two64 ->
  verify_consistency a b p r1 r2 = (if overflow_checks then Panic else OutOfFuel) /\
  (overflow_checks = false -> forall fuel, split_loop fuel 1 b = OutOfFuel).
Proof.
  intros Hab Hb. split.
  - unfold verify_consistency. rewrite (proj2 (Z.eqb_neq a b)) by lia.
    rewrite (proj2 (Z.eqb_neq a 0)), (proj2 (Z.ltb_ge b a)) by lia. cbn [orb].
    change tree_fuel with (S 64). rewrite subproof_large by done. by destruct overflow_checks.
  - intros Hc fuel. change 1 with (2 ^ 0). rewrite split_loop_large by (done || lia). by rewrite Hc.
Qed.

(** Equal sizes, an old size of zero or above the new one: no recursion. *)
Lemma sdk_consistency_edge a b p r1 r2 :
  ~ (0 < a < b) -> in_u64 a -> verify_consistency a b p r1 r2 = MerkleProof.verify_consistency a b p r1 r2.
Proof.
  intros Hab Ha. unfold in_u64 in Ha. unfold verify_consistency, MerkleProof.verify_consistency.
  destruct (Z.eqb_spec a b); [done|].
  destruct ((a =? 0) || (b <? a)) eqn:E; [done|]. breflect. lia.
Qed.

(** C19: where the SDK verifies what the server's crate verifies, and where not.  The two
    inclusion verifiers return the same outcome on all inputs.  The two consistency verifiers do so
    on all [u64] sizes, except for sizes [0 < old < new] with [new] above 2^63: there the core crate's
    returns an answer and the SDK's does not, whatever the proof.  In a build with overflow checks
    it panics, and without them the doubling loop of [split] wraps to zero and never ends (it exhausts
    every amount of fuel). *)
Theorem sdk_agrees_with_core (a b : Z) (lh r1 r2 : hash32) (p : list hash32)
    (Ha : in_u64 a) (Hb : in_u64 b) :
  verify_inclusion lh a b p r1 = MerkleProof.verify_inclusion lh a b p r1 /\
  (~ (0 < a < b /\ two63 < b) ->
     verify_consistency a b p r1 r2 = MerkleProof.verify_consistency a b p r1 r2) /\
  (0 < a < b /\ two63 < b ->
     (exists x, MerkleProof.verify_consistency a b p r1 r2 = Ret x) /\
     verify_consistency a b p r1 r2 = (if overflow_checks then Panic else OutOfFuel) /\
     (overflow_checks = false -> forall fuel, split_loop fuel 1 b = OutOfFuel)).
Proof.
  split; [apply sdk_inclusion_core|]. unfold in_u64 in Hb. split.
  - intros Hn. destruct (decide (0 < a < b)) as [Hab|Hab]; [|by apply sdk_consistency_edge].
    apply sdk_consistency_core; [done|lia].
  - intros [Hab Hl]. split; [by apply ProofTheorems.verifiers_return|apply sdk_consistency_large; lia].
Qed.
End Agreement.

(** ** Signed tree heads *)

Section Heads.
Context `{Ed25519Laws}.

(** What the SDK's head checks accept.  Signature and key of the right
    lengths and a decodable key reduce [verify_tree_head] to the check of
    the core crate; the chained check does so with the first record of the
    given version, and the sequential one moreover demands a later
    timestamp.  Anything else is rejected. *)
Theorem sdk_head_checks (n : Z) (r : hash32) (t : Z) (sig pk : bytes) (v : Z)
    (chain : list KeyRecord) (prev : Z) :
  (verify_tree_head n r t sig pk = true <->
   exists key s vk, pk = to_vec key /\ sig = to_vec s /\ vk_from_bytes key = Some vk /\
     Sth.verify_tree_head vk n r t s = true) /\
  (verify_tree_head_with_chain n r t sig v chain = true <->
   exists record, find (fun k => version k =? v) chain = Some record /\
     verify_tree_head n r t sig (to_vec (public_key record)) = true) /\
  (verify_tree_head_sequential n r t sig pk prev = true <->
   prev < t /\ verify_tree_head n r t sig pk = true).
Proof.
  split; [|split].
  - unfold verify_tree_head. split.
    + destruct (array_try_from 32 pk) as [key|] eqn:Ek; [|done].
      destruct (array_try_from 64 sig) as [s|] eqn:Es; [|done].
      destruct (vk_from_bytes key) as [vk|] eqn:Ev; [|done]. intros Hv.
      apply array_try_from_Some in Ek, Es. by exists key, s, vk.
    + intros (key & s & vk & -> & -> & Ev & Hv). rewrite !array_try_from_to_vec, Ev. done.
  - unfold verify_tree_head_with_chain.
    destruct (find _ chain) as [record|]; naive_solver.
  - unfold verify_tree_head_sequential. destruct (Z.leb_spec t prev); naive_solver lia.
Qed.
End Heads.

Section Witnesses.
#[local] Existing Instance fips_sha256.
#[local] Instance release : Profile := false.
Import ToyEd25519.

Lemma sdk_agrees_with_core_witness :
  verify_inclusion z32 1 3 [o32] z32 = MerkleProof.verify_inclusion z32 1 3 [o32] z32 /\
  (~ (0 < 1 < 3 /\ two63 < 3) ->
     verify_consistency 1 3 [o32] z32 o32 = MerkleProof.verify_consistency 1 3 [o32] z32 o32) /\
  (0 < 1 < 3 /\ two63 < 3 ->
     (exists x, MerkleProof.verify_consistency 1 3 [o32] z32 o32 = Ret x) /\
     verify_consistency 1 3 [o32] z32 o32 = (if overflow_checks then Panic else OutOfFuel) /\
     (overflow_checks = false -> forall fuel, split_loop fuel 1 3 = OutOfFuel)).
Proof. apply (sdk_agrees_with_core 1 3); vm_compute; split; discriminate || reflexivity. Defined.

(** A size just above 2^63, in a build without overflow checks. *)
Example sdk_consistency_large_size : verify_consistency 1 (two63 + 1) [] z32 o32 = OutOfFuel.
Proof. refine (proj1 (sdk_consistency_large 1 (two63 + 1) z32 o32 [] _ _)); vm_compute; split; reflexivity. Qed.
End Witnesses.
