(* ===== verification/Rocksdb.v ===== *)
(** * The interface to RocksDB

    RocksDB (the [rocksdb] crate) is a parameter: [Rocksdb] has the operations
    the storage crate calls, [RocksdbLaws] the documented behaviour it relies on.
    A database is a column family of ordered key-value pairs per name; a write
    batch takes effect entirely or not at all; an iterator yields the pairs in
    bytewise key order and may stop early with an error.  The storage theorems
    are proved against the laws; [MemDb] is an in-memory instance that satisfies
    them, with failing writes to exercise the error paths. *)

From S2P Require Import Prelude Bytes.

(** ** Ordered key-value lists *)

Notation kvs := (list (bytes * bytes)).

Fixpoint kv_get (m : kvs) (k : bytes) : option bytes :=
  match m with
  | [] => None
  | (k', v) :: m => if decide (k = k') then Some v else kv_get m k
  end.

Fixpoint kv_put (m : kvs) (k v : bytes) : kvs :=
  match m with
  | [] => [(k, v)]
  | (k', v') :: m =>
      if bytes_ltb k k' then (k, v) :: (k', v') :: m
      else if bytes_ltb k' k then (k', v') :: kv_put m k v
      else (k, v) :: m
  end.

Definition kv_del (m : kvs) (k : bytes) : kvs := filter (fun kv => kv.1 <> k) m.

(** The keys are strictly increasing. *)
Definition kv_sorted (m : kvs) : Prop := StronglySorted bytes_lt (fst <$> m).

Lemma kv_sorted_cons k v m :
  kv_sorted ((k, v) :: m) <-> Forall (fun kv => bytes_lt k kv.1) m /\ kv_sorted m.
Proof.
  unfold kv_sorted. cbn. split.
  - intros H. inversion H; subst. split; [|done].
    by change (Forall (bytes_lt k ∘ fst) m); apply Forall_fmap.
  - intros [? ?]. constructor; [done|].
    by apply Forall_fmap.
Qed.

Lemma kv_get_fresh m k : Forall (fun kv => bytes_lt k kv.1) m -> kv_get m k = None.
Proof.
  induction 1 as [|[k' v] m Hk Hm IH]; cbn; [done|].
  case_decide as E; [|done]. subst. by apply bytes_lt_irrefl in Hk.
Qed.

Lemma kv_get_elem m k v : kv_sorted m -> kv_get m k = Some v <-> (k, v) ∈ m.
Proof.
  induction m as [|[k' v'] m IH]; cbn.
  - intros _. rewrite elem_of_nil. done.
  - rewrite kv_sorted_cons, elem_of_cons. intros [Hk Hm]. specialize (IH Hm).
    case_decide as E; [|naive_solver]. subst k'. split; [naive_solver|].
    intros [?|Hin]; [naive_solver|]. rewrite Forall_forall in Hk.
    exfalso. exact (bytes_lt_irrefl k (Hk _ Hin)).
Qed.

Lemma kv_get_put m k v k' :
  kv_sorted m -> kv_get (kv_put m k v) k' = if decide (k' = k) then Some v else kv_get m k'.
Proof.
  induction m as [|[k0 v0] m IH]; cbn; [done|]. rewrite kv_sorted_cons. intros [Hk Hm].
  specialize (IH Hm). destruct (bytes_ltb k k0) eqn:E1; [|destruct (bytes_ltb k0 k) eqn:E2]; cbn.
  - done.
  - rewrite IH. repeat case_decide; subst; try done. by apply bytes_lt_irrefl in E2.
  - destruct (bytes_lt_total k k0) as [H|[H|H]]; unfold bytes_lt in H; [congruence| |congruence].
    subst k0. repeat case_decide; done.
Qed.

Lemma kv_put_lower m k v k0 :
  bytes_lt k0 k -> Forall (fun kv => bytes_lt k0 kv.1) m ->
  Forall (fun kv => bytes_lt k0 kv.1) (kv_put m k v).
Proof.
  intros Hk. induction 1 as [|[k' v'] m Hk' Hm IH]; cbn; [by constructor|].
  repeat case_match; repeat constructor; done.
Qed.

Lemma kv_put_sorted m k v : kv_sorted m -> kv_sorted (kv_put m k v).
Proof.
  induction m as [|[k0 v0] m IH]; cbn.
  - intros _. apply kv_sorted_cons. split; constructor.
  - rewrite kv_sorted_cons. intros [Hk Hm].
    destruct (bytes_ltb k k0) eqn:E1; [|destruct (bytes_ltb k0 k) eqn:E2].
    + apply kv_sorted_cons. split; [|by apply kv_sorted_cons]. constructor; [done|].
      eapply Forall_impl; [exact Hk|]. intros ? ?. by eapply bytes_lt_trans.
    + apply kv_sorted_cons. split; [by apply kv_put_lower|auto].
    + destruct (bytes_lt_total k k0) as [H|[H|H]]; unfold bytes_lt in H; [congruence| |congruence].
      subst k0. by apply kv_sorted_cons.
Qed.

(** A key above all others goes to the end. *)
Lemma kv_put_last m k v : Forall (fun kv => bytes_lt kv.1 k) m -> kv_put m k v = m ++ [(k, v)].
Proof.
  induction 1 as [|[k0 v0] m Hk Hm IH]; cbn; [done|]. cbn in Hk.
  destruct (bytes_ltb k k0) eqn:E1.
  - exfalso. eapply (bytes_lt_irrefl k), bytes_lt_trans; [exact E1|exact Hk].
  - unfold bytes_lt in Hk. rewrite Hk. by rewrite IH.
Qed.

Lemma kv_del_sorted m k : kv_sorted m -> kv_sorted (kv_del m k).
Proof.
  unfold kv_del. induction m as [|[k0 v0] m IH]; [done|]. rewrite kv_sorted_cons. intros [Hk Hm].
  rewrite filter_cons. case_decide; [|auto]. apply kv_sorted_cons. split; [|auto].
  by apply Forall_filter.
Qed.

(** ** Column families, batches and iterators *)

Inductive cf := CF_DEFAULT | CF_LOG | CF_TREE | CF_HEADS | CF_INDEX | CF_KEYS.
#[global] Instance cf_eq_dec : EqDecision cf.
Proof. solve_decision. Defined.

Inductive batch_op :=
| PutCf (c : cf) (k v : bytes)
| DeleteCf (c : cf) (k : bytes).

(** [IteratorMode]: [Start], [End] (backwards) and [From(key, Forward)]. *)
Inductive iter_mode := IterStart | IterEnd | IterFrom (k : bytes).

Definition apply_op (c : cf) (m : kvs) (op : batch_op) : kvs :=
  match op with
  | PutCf c' k v => if decide (c = c') then kv_put m k v else m
  | DeleteCf c' k => if decide (c = c') then kv_del m k else m
  end.
Definition apply_batch (batch : list batch_op) (c : cf) (m : kvs) : kvs :=
  foldl (apply_op c) m batch.

Definition scan (m : kvs) (mode : iter_mode) : kvs :=
  match mode with
  | IterStart => m
  | IterEnd => reverse m
  | IterFrom k => filter (fun kv => bytes_le k kv.1) m
  end.

Class Rocksdb := {
  rdb : Type;
  rdb_error : Type;
  rdb_get : rdb -> cf -> bytes -> result (option bytes) rdb_error;
  rdb_put : rdb -> cf -> bytes -> bytes -> rdb * result unit rdb_error;
  rdb_write : rdb -> list batch_op -> rdb * result unit rdb_error;
  (** What an iterator yields, and the error it ends with, if any. *)
  rdb_iter : rdb -> cf -> iter_mode -> kvs * option rdb_error
}.

Class RocksdbLaws `{Rocksdb} := {
  contents : rdb -> cf -> kvs;
  contents_sorted : forall d c, kv_sorted (contents d c);
  rdb_get_ok : forall d c k o, rdb_get d c k = Ok o -> o = kv_get (contents d c) k;
  rdb_put_ok : forall d c k v d' c',
    rdb_put d c k v = (d', Ok tt) -> contents d' c' = apply_batch [PutCf c k v] c' (contents d c');
  rdb_put_err : forall d c k v d' e c',
    rdb_put d c k v = (d', Err e) -> contents d' c' = contents d c';
  rdb_write_ok : forall d b d' c,
    rdb_write d b = (d', Ok tt) -> contents d' c = apply_batch b c (contents d c);
  rdb_write_err : forall d b d' e c,
    rdb_write d b = (d', Err e) -> contents d' c = contents d c;
  rdb_iter_ok : forall d c mode l,
    rdb_iter d c mode = (l, None) -> l = scan (contents d c) mode;
  rdb_iter_err : forall d c mode l e,
    rdb_iter d c mode = (l, Some e) -> l `prefix_of` scan (contents d c) mode
}.

Lemma apply_op_sorted c m op : kv_sorted m -> kv_sorted (apply_op c m op).
Proof.
  intros Hm. destruct op; cbn; case_decide; auto using kv_put_sorted, kv_del_sorted.
Qed.

Lemma apply_batch_sorted b c m : kv_sorted m -> kv_sorted (apply_batch b c m).
Proof.
  unfold apply_batch. revert m. induction b as [|op b IH]; intros m Hm; cbn; [done|].
  apply IH. by apply apply_op_sorted.
Qed.

(** An iterator over a column family whose scan represents [l] yields a prefix
    of [l], all of it unless it ends with an error. *)
Section Iterators.
Context `{RocksdbLaws} {A : Type} (Q : A -> bytes * bytes -> Prop).

Lemma iter_split l d c mode items o :
  Forall2 Q l (scan (contents d c) mode) -> rdb_iter d c mode = (items, o) ->
  exists l1 l2, l = l1 ++ l2 /\ Forall2 Q l1 items /\ (o = None -> l2 = []).
Proof.
  intros Hf E. destruct o as [e|].
  - apply rdb_iter_err in E as [rest E]. rewrite E in Hf.
    apply Forall2_app_inv_r in Hf as (l1 & l2 & H1 & _ & ->). by exists l1, l2.
  - apply rdb_iter_ok in E as ->. exists l, []. by rewrite app_nil_r.
Qed.

Lemma iter_last l d c items o :
  Forall2 Q l (contents d c) -> rdb_iter d c IterEnd = (items, o) ->
  match items with
  | [] => o = None -> l = []
  | kv :: _ => exists a, last l = Some a /\ Q a kv
  end.
Proof.
  intros Hf%Forall2_reverse E.
  destruct (iter_split (reverse l) d c IterEnd items o Hf E) as (l1 & l2 & El & Hf1 & Ho).
  rewrite <- (reverse_involutive l), last_reverse, El. destruct items as [|kv items].
  - intros Hn. apply Forall2_nil_inv_r in Hf1 as ->. by rewrite (Ho Hn).
  - destruct l1 as [|a l1]; [by inversion Hf1|]. apply Forall2_cons_1 in Hf1 as [Ha _]. by exists a.
Qed.
End Iterators.

(** ** An in-memory instance

    [fail_writes] is a schedule: the head decides whether the next write fails. *)
Module MemDb.
Record t := mk {
  families : cf -> kvs;
  families_ok : forall c, kv_sorted (families c);
  fail_writes : list bool
}.

Inductive error := WriteFailed.

Lemma empty_ok (c : cf) : kv_sorted [].
Proof. constructor. Qed.
Definition empty (schedule : list bool) : t := mk (fun _ => []) empty_ok schedule.

Lemma write_ok (d : t) (b : list batch_op) c : kv_sorted (apply_batch b c (families d c)).
Proof. apply apply_batch_sorted, families_ok. Qed.

Definition write (d : t) (b : list batch_op) : t * result unit error :=
  match fail_writes d with
  | true :: s => (mk (families d) (families_ok d) s, Err WriteFailed)
  | false :: s => (mk (fun c => apply_batch b c (families d c)) (write_ok d b) s, Ok tt)
  | [] => (mk (fun c => apply_batch b c (families d c)) (write_ok d b) [], Ok tt)
  end.

Definition memdb : Rocksdb := {|
  rdb := t;
  rdb_error := error;
  rdb_get := fun d c k => Ok (kv_get (families d c) k);
  rdb_put := fun d c k v => write d [PutCf c k v];
  rdb_write := write;
  rdb_iter := fun d c mode => (scan (families d c) mode, None)
|}.

Lemma write_contents d b d' r c :
  write d b = (d', r) ->
  families d' c = match r with Ok _ => apply_batch b c (families d c) | Err _ => families d c end.
Proof. unfold write. destruct (fail_writes d) as [|[] s]; by intros [= <- <-]. Qed.

Definition memdb_laws : @RocksdbLaws memdb.
Proof.
  refine {| contents := (fun d c => families d c) : @rdb memdb -> cf -> kvs |}; cbn; intros.
  - apply families_ok.
  - congruence.
  - by apply (write_contents _ _ _ _ c') in H.
  - by apply (write_contents _ _ _ _ c') in H.
  - by apply (write_contents _ _ _ _ c) in H.
  - by apply (write_contents _ _ _ _ c) in H.
  - congruence.
  - congruence.
Defined.
End MemDb.
