(* ===== verification/StorageTypes.v ===== *)
(** * Types of the storage crate

    crates/settled-storage/src/{error,proto,types,verify}.rs: the error type,
    the protobuf messages kept in RocksDB, the public types with their conversions,
    and the signature check of a stored head.  The [prost] codec is a parameter
    with a round-trip law. *)

From Stdlib Require String.
From S2P Require Import Prelude Bytes Sth Rocksdb.
Import String.StringSyntax.

Delimit Scope string_scope with str.

(** ** Messages (proto.rs) *)

Module LogEntryProto.
Record t := mk {
  seq : Z;
  timestamp_ns : Z;
  key : bytes;
  data : bytes;
  leaf_hash : bytes
}.
(** Values a Rust program can hold: integers in range, vectors of [u64] length. *)
Definition wf (p : t) : Prop :=
  in_u64 (seq p) /\ in_i64 (timestamp_ns p) /\
  len (key p) < two64 /\ len (data p) < two64 /\ len (leaf_hash p) < two64.
End LogEntryProto.

Module SignedTreeHeadProto.
Record t := mk {
  tree_size : Z;
  root_hash : bytes;
  timestamp_ns : Z;
  signature : bytes;
  public_key : bytes;
  key_version : Z
}.
Definition wf (p : t) : Prop :=
  in_u64 (tree_size p) /\ in_i64 (timestamp_ns p) /\ in_u32 (key_version p) /\
  len (root_hash p) < two64 /\ len (signature p) < two64 /\ len (public_key p) < two64.
End SignedTreeHeadProto.

Module KeyRecordProto.
Record t := mk {
  version : Z;
  public_key : bytes;
  activated_at_tree_size : Z
}.
Definition wf (p : t) : Prop :=
  in_u32 (version p) /\ in_u64 (activated_at_tree_size p) /\ len (public_key p) < two64.
End KeyRecordProto.

(** ** The [prost] codec *)

Class Prost := {
  EncodeError : Type;
  DecodeError : Type;
  encode_log_entry : LogEntryProto.t -> result bytes EncodeError;
  decode_log_entry : bytes -> result LogEntryProto.t DecodeError;
  encode_sth : SignedTreeHeadProto.t -> result bytes EncodeError;
  decode_sth : bytes -> result SignedTreeHeadProto.t DecodeError;
  encode_key_record : KeyRecordProto.t -> result bytes EncodeError;
  decode_key_record : bytes -> result KeyRecordProto.t DecodeError
}.

(** Decoding inverts encoding. *)
Class ProstLaws `{Prost} := {
  log_entry_roundtrip : forall p b, LogEntryProto.wf p ->
    encode_log_entry p = Ok b -> decode_log_entry b = Ok p;
  sth_roundtrip : forall p b, SignedTreeHeadProto.wf p ->
    encode_sth p = Ok b -> decode_sth b = Ok p;
  key_record_roundtrip : forall p b, KeyRecordProto.wf p ->
    encode_key_record p = Ok b -> decode_key_record b = Ok p
}.

(** ** Errors (error.rs) *)

Inductive Error `{Rocksdb} `{Prost} :=
| RocksDb (e : rdb_error)
| Encode (e : EncodeError)
| Decode (e : DecodeError)
| Corruption (msg : String.string)
| SchemaMismatch (found supported : Z).

(** ** Public types (types.rs) *)

Module LogEntry.
Record t := mk {
  seq : Z;
  timestamp_ns : Z;
  key : bytes;
  data : bytes;
  leaf_hash : hash32
}.
#[global] Instance eq_dec : EqDecision t.
Proof. solve_decision. Defined.
End LogEntry.

Module SignedTreeHead.
Record t := mk {
  tree_size : Z;
  root_hash : hash32;
  timestamp_ns : Z;
  signature : array 64;
  public_key : array 32;
  key_version : Z
}.
#[global] Instance eq_dec : EqDecision t.
Proof. solve_decision. Defined.
End SignedTreeHead.

Section Conversions.
Context `{Rocksdb} `{Prost}.

(** [TryFrom<LogEntryProto> for LogEntry] *)
Definition log_entry_try_from (p : LogEntryProto.t) : result LogEntry.t Error :=
  match array_try_from 32 (LogEntryProto.leaf_hash p) with
  | None => Err (Corruption "leaf_hash must be 32 bytes"%str)
  | Some leaf_hash =>
      Ok {| LogEntry.seq := LogEntryProto.seq p;
            LogEntry.timestamp_ns := LogEntryProto.timestamp_ns p;
            LogEntry.key := LogEntryProto.key p;
            LogEntry.data := LogEntryProto.data p;
            LogEntry.leaf_hash := leaf_hash |}
  end.

(** [From<&LogEntry> for LogEntryProto] *)
Definition log_entry_to_proto (e : LogEntry.t) : LogEntryProto.t :=
  {| LogEntryProto.seq := LogEntry.seq e;
     LogEntryProto.timestamp_ns := LogEntry.timestamp_ns e;
     LogEntryProto.key := LogEntry.key e;
     LogEntryProto.data := LogEntry.data e;
     LogEntryProto.leaf_hash := to_vec (LogEntry.leaf_hash e) |}.

(** [TryFrom<SignedTreeHeadProto> for SignedTreeHead] *)
Definition sth_try_from (p : SignedTreeHeadProto.t) : result SignedTreeHead.t Error :=
  match array_try_from 32 (SignedTreeHeadProto.root_hash p) with
  | None => Err (Corruption "root_hash must be 32 bytes"%str)
  | Some root_hash =>
      match array_try_from 64 (SignedTreeHeadProto.signature p) with
      | None => Err (Corruption "signature must be 32 bytes"%str)
      | Some signature =>
          match array_try_from 32 (SignedTreeHeadProto.public_key p) with
          | None => Err (Corruption "public_key must be 32 bytes"%str)
          | Some public_key =>
              Ok {| SignedTreeHead.tree_size := SignedTreeHeadProto.tree_size p;
                    SignedTreeHead.root_hash := root_hash;
                    SignedTreeHead.timestamp_ns := SignedTreeHeadProto.timestamp_ns p;
                    SignedTreeHead.signature := signature;
                    SignedTreeHead.public_key := public_key;
                    SignedTreeHead.key_version := SignedTreeHeadProto.key_version p |}
          end
      end
  end.

(** [From<&SignedTreeHead> for SignedTreeHeadProto] *)
Definition sth_to_proto (s : SignedTreeHead.t) : SignedTreeHeadProto.t :=
  {| SignedTreeHeadProto.tree_size := SignedTreeHead.tree_size s;
     SignedTreeHeadProto.root_hash := to_vec (SignedTreeHead.root_hash s);
     SignedTreeHeadProto.timestamp_ns := SignedTreeHead.timestamp_ns s;
     SignedTreeHeadProto.signature := to_vec (SignedTreeHead.signature s);
     SignedTreeHeadProto.public_key := to_vec (SignedTreeHead.public_key s);
     SignedTreeHeadProto.key_version := SignedTreeHead.key_version s |}.

Lemma log_entry_proto_roundtrip e : log_entry_try_from (log_entry_to_proto e) = Ok e.
Proof.
  unfold log_entry_try_from. cbn. rewrite array_try_from_to_vec. by destruct e.
Qed.

Lemma sth_proto_roundtrip s : sth_try_from (sth_to_proto s) = Ok s.
Proof.
  unfold sth_try_from. cbn. rewrite !array_try_from_to_vec. by destruct s.
Qed.
End Conversions.

(** Entries and heads a program can hold. *)
Definition entry_wf (e : LogEntry.t) : Prop :=
  in_u64 (LogEntry.seq e) /\ in_i64 (LogEntry.timestamp_ns e) /\
  len (LogEntry.key e) < two64 /\ len (LogEntry.data e) < two64.
Definition sth_wf (s : SignedTreeHead.t) : Prop :=
  in_u64 (SignedTreeHead.tree_size s) /\ in_i64 (SignedTreeHead.timestamp_ns s) /\
  in_u32 (SignedTreeHead.key_version s).

Lemma entry_proto_wf e : entry_wf e -> LogEntryProto.wf (log_entry_to_proto e).
Proof.
  intros (? & ? & ? & ?). unfold LogEntryProto.wf. cbn. unfold len at 3.
  rewrite array_length. repeat split; done || (unfold in_u64, in_i64 in *; lia).
Qed.

Lemma sth_proto_wf s : sth_wf s -> SignedTreeHeadProto.wf (sth_to_proto s).
Proof.
  intros (? & ? & ?). unfold SignedTreeHeadProto.wf. cbn. unfold len.
  by rewrite !array_length.
Qed.

(** ** Checking a stored head (verify.rs) *)

Section Verify.
Context `{Ed25519}.

Definition verify_sth (sth : SignedTreeHead.t) : bool :=
  match vk_from_bytes (SignedTreeHead.public_key sth) with
  | None => false
  | Some key =>
      match array_try_from 64 (to_vec (SignedTreeHead.signature sth)) with
      | None => false
      | Some sig =>
          let payload := signing_payload (SignedTreeHead.tree_size sth)
                           (SignedTreeHead.root_hash sth) (SignedTreeHead.timestamp_ns sth) in
          ed_verify_strict key (to_vec payload) sig
      end
  end.
End Verify.

(** ** An instance of the codec

    Fixed-width integers and length-prefixed byte strings; it satisfies the
    round-trip law. *)
Module DemoCodec.
Definition put_int (x : Z) : bytes := be_bytes 8 x.
Definition put_bytes (b : bytes) : bytes := be_bytes 8 (len b) ++ b.

Definition get_u64 (b : bytes) : option (Z * bytes) :=
  if decide (8 <= length b)%nat then Some (from_be (take 8 b), drop 8 b) else None.
Definition get_i64 (b : bytes) : option (Z * bytes) :=
  '(x, b) ← get_u64 b; Some (wrap_i64 x, b).
Definition get_bytes (b : bytes) : option (bytes * bytes) :=
  '(n, b) ← get_u64 b; Some (take (Z.to_nat n) b, drop (Z.to_nat n) b).

#[local] Arguments put_int : simpl never.
#[local] Arguments put_bytes : simpl never.
#[local] Arguments get_u64 : simpl never.
#[local] Arguments get_i64 : simpl never.
#[local] Arguments get_bytes : simpl never.

Lemma get_u64_put x b : in_u64 x -> get_u64 (put_int x ++ b) = Some (x, b).
Proof.
  intros Hx. unfold get_u64, put_int. rewrite decide_True by (rewrite length_app, length_be_bytes; lia).
  rewrite take_app_length' by (by rewrite length_be_bytes).
  rewrite drop_app_length' by (by rewrite length_be_bytes).
  rewrite from_be_be_bytes. do 2 f_equal. by apply Z.mod_small.
Qed.

Lemma get_i64_put x b : in_i64 x -> get_i64 (put_int x ++ b) = Some (x, b).
Proof.
  intros Hx. unfold get_i64, get_u64, put_int.
  rewrite decide_True by (rewrite length_app, length_be_bytes; lia). cbn [mbind option_bind].
  rewrite take_app_length' by (by rewrite length_be_bytes).
  rewrite drop_app_length' by (by rewrite length_be_bytes).
  rewrite from_be_be_bytes, <- two64_256. do 2 f_equal. unfold wrap_i64.
  rewrite Z.add_mod_idemp_l by done. rewrite Z.mod_small by ulia. lia.
Qed.

Lemma get_bytes_put s b : len s < two64 -> get_bytes (put_bytes s ++ b) = Some (s, b).
Proof.
  intros Hs. unfold get_bytes, put_bytes. rewrite <- app_assoc, get_u64_put.
  - cbn [mbind option_bind]. unfold len. rewrite Nat2Z.id.
    by rewrite take_app_length, drop_app_length.
  - pose proof (len_nonneg s). unfold in_u64. lia.
Qed.

Inductive decode_error := Malformed.
Definition or_malformed {A} (o : option A) : result A decode_error :=
  match o with Some a => Ok a | None => Err Malformed end.

Definition codec : Prost := {|
  EncodeError := Empty_set;
  DecodeError := decode_error;
  encode_log_entry := fun p => Ok
    (put_int (LogEntryProto.seq p) ++ put_int (LogEntryProto.timestamp_ns p) ++
     put_bytes (LogEntryProto.key p) ++ put_bytes (LogEntryProto.data p) ++
     put_bytes (LogEntryProto.leaf_hash p) ++ []);
  decode_log_entry := fun b => or_malformed
    ('(seq, b) ← get_u64 b; '(ts, b) ← get_i64 b; '(key, b) ← get_bytes b;
     '(data, b) ← get_bytes b; '(lh, _) ← get_bytes b; Some (LogEntryProto.mk seq ts key data lh));
  encode_sth := fun p => Ok
    (put_int (SignedTreeHeadProto.tree_size p) ++ put_bytes (SignedTreeHeadProto.root_hash p) ++
     put_int (SignedTreeHeadProto.timestamp_ns p) ++ put_bytes (SignedTreeHeadProto.signature p) ++
     put_bytes (SignedTreeHeadProto.public_key p) ++
     put_int (SignedTreeHeadProto.key_version p) ++ []);
  decode_sth := fun b => or_malformed
    ('(n, b) ← get_u64 b; '(r, b) ← get_bytes b; '(ts, b) ← get_i64 b; '(s, b) ← get_bytes b;
     '(pk, b) ← get_bytes b; '(v, _) ← get_u64 b; Some (SignedTreeHeadProto.mk n r ts s pk v));
  encode_key_record := fun p => Ok
    (put_int (KeyRecordProto.version p) ++ put_bytes (KeyRecordProto.public_key p) ++
     put_int (KeyRecordProto.activated_at_tree_size p) ++ []);
  decode_key_record := fun b => or_malformed
    ('(v, b) ← get_u64 b; '(pk, b) ← get_bytes b; '(n, _) ← get_u64 b;
     Some (KeyRecordProto.mk v pk n))
|}.

Lemma u32_u64 x : in_u32 x -> in_u64 x.
Proof. ulia. Qed.

Lemma Ok_inj {A E} (a b : A) : @Ok A E a = Ok b -> a = b.
Proof. by intros [= ->]. Qed.

Lemma codec_laws : @ProstLaws codec.
Proof.
  split; intros p b Hwf E; apply Ok_inj in E; subst b; destruct p; unfold LogEntryProto.wf, SignedTreeHeadProto.wf, KeyRecordProto.wf in Hwf; cbn in Hwf;
    repeat match goal with
    | H : _ /\ _ |- _ => destruct H
    | H : in_u32 _ |- _ => apply u32_u64 in H
    end; cbn;
    repeat first [ rewrite get_u64_put by done | rewrite get_i64_put by done
                 | rewrite get_bytes_put by done | progress cbn ]; done.
Qed.
End DemoCodec.
