(* ===== verification/Utf8.v ===== *)
(** * Text

    Rust strings as their UTF-8 bytes, and what the programs use of [std] on them: decoding that
    replaces what is malformed ([String::from_utf8_lossy]), padding to a width counted in
    characters, and decimal numbers. *)

From Stdlib Require String.
From stdpp Require Import pretty.
From S2P Require Import Prelude Bytes StorageTypes.
Import String.StringSyntax.

(** [as_bytes] of a string. *)
Definition as_bytes (s : String.string) : bytes := String.list_byte_of_string s.

Declare Scope text_scope.
Notation "'txt' s" := (as_bytes s%str) (at level 9, s at level 8, only parsing) : text_scope.
#[global] Open Scope text_scope.

(** ** UTF-8 ([core::str::lossy]) *)

(** [byte & 192 == TAG_CONT_U8]; the byte at [i], or 0 past the end. *)
Definition is_cont (z : Z) : bool := Z.land z 192 =? 128.
Definition safe_get (s : bytes) (i : nat) : Z := from_option Z_of_byte 0 (s !! i).
Definition between (lo hi z : Z) : bool := (lo <=? z) && (z <=? hi).

Definition utf8_char_width (z : Z) : Z :=
  if between 194 223 z then 2 else if between 224 239 z then 3 else if between 240 244 z then 4 else 0.

(** The first character of a non-empty string: whether it is well formed, and the
    number of bytes it takes, or those to be replaced together. *)
Definition utf8_next (s : bytes) : bool * nat :=
  let byte := safe_get s 0 in
  let b1 := safe_get s 1 in
  if byte <? 128 then (true, 1%nat)
  else
    let w := utf8_char_width byte in
    if w =? 2 then if is_cont b1 then (true, 2%nat) else (false, 1%nat)
    else if w =? 3 then
      if ((byte =? 224) && between 160 191 b1) || (between 225 236 byte && between 128 191 b1)
         || ((byte =? 237) && between 128 159 b1) || (between 238 239 byte && between 128 191 b1)
      then if is_cont (safe_get s 2) then (true, 3%nat) else (false, 2%nat)
      else (false, 1%nat)
    else if w =? 4 then
      if ((byte =? 240) && between 144 191 b1) || (between 241 243 byte && between 128 191 b1)
         || ((byte =? 244) && between 128 143 b1)
      then if is_cont (safe_get s 2)
           then if is_cont (safe_get s 3) then (true, 4%nat) else (false, 3%nat)
           else (false, 2%nat)
      else (false, 1%nat)
    else (false, 1%nat).

(** U+FFFD *)
Definition REPLACEMENT : bytes := [Init.Byte.xef; Init.Byte.xbf; Init.Byte.xbd].

(** [String::from_utf8_lossy]; every step takes a byte or more, so the length of the input is
    enough fuel. *)
Fixpoint lossy_fuel (fuel : nat) (s : bytes) : bytes :=
  match fuel, s with
  | S fuel, _ :: _ =>
      let '(ok, w) := utf8_next s in
      (if ok : bool then take w s else REPLACEMENT) ++ lossy_fuel fuel (drop w s)
  | _, _ => []
  end.
Definition from_utf8_lossy (s : bytes) : bytes := lossy_fuel (length s) s.

(** Whether a string is well formed. *)
Fixpoint utf8_fuel (fuel : nat) (s : bytes) : bool :=
  match fuel, s with
  | S fuel, _ :: _ => let '(ok, w) := utf8_next s in ok && utf8_fuel fuel (drop w s)
  | _, _ => true
  end.
Definition utf8 (s : bytes) : bool := utf8_fuel (length s) s.

(** ** Padding and numbers ([core::fmt]) *)

(** [chars().count()] of well-formed text: the bytes that start a character. *)
Definition chars_count (s : bytes) : nat :=
  length (filter (fun x => is_cont (Z_of_byte x) = false) s).
Definition spaces (n : nat) : bytes := replicate n Init.Byte.x20.
(** [{:<w}] and [{:>w}] *)
Definition pad_right (w : nat) (s : bytes) : bytes := s ++ spaces (w - chars_count s).
Definition pad_left (w : nat) (s : bytes) : bytes := spaces (w - chars_count s) ++ s.
(** [{}] and [{:0w}] of an unsigned integer *)
Definition dec (n : Z) : bytes := as_bytes (pretty n).
Definition pad_zero (w : nat) (n : Z) : bytes :=
  replicate (w - length (dec n)) Init.Byte.x30 ++ dec n.

(** ** Lemmas *)

Lemma utf8_next_width s ok w : utf8_next s = (ok, w) -> (1 <= w <= 4)%nat.
Proof. unfold utf8_next. repeat case_match; intros [= <- <-]; lia. Qed.

Lemma is_cont_range z : 0 <= z < 256 -> is_cont z = between 128 191 z.
Proof.
  intros Hz. assert (E : forallb (fun n => eqb (is_cont (Z.of_nat n)) (between 128 191 (Z.of_nat n)))
    (seq 0 256) = true) by (vm_compute; reflexivity).
  rewrite forallb_forall in E. specialize (E (Z.to_nat z)). rewrite Z2Nat.id in E by lia.
  apply eqb_prop, E, in_seq. lia.
Qed.

Lemma safe_get_app s t i : (i < length s)%nat -> safe_get (s ++ t) i = safe_get s i.
Proof. intros Hi. unfold safe_get. by rewrite lookup_app_l. Qed.
Lemma safe_get_past s i : (length s <= i)%nat -> safe_get s i = 0.
Proof. intros Hi. unfold safe_get. by rewrite lookup_ge_None_2. Qed.

(** A well-formed first character is determined by its own bytes. *)
Lemma utf8_next_prefix s s' w :
  utf8_next s = (true, w) -> (forall i, (i < w)%nat -> safe_get s' i = safe_get s i) ->
  utf8_next s' = (true, w).
Proof.
  intros E Hg. pose proof (utf8_next_width _ _ _ E) as Hw.
  pose proof (Hg 0%nat ltac:(lia)) as G0. unfold utf8_next in *. cbn zeta in *.
  repeat match type of E with context [if ?c then _ else _] => destruct c eqn:? end; simplify_eq;
    rewrite ?G0, ?(Hg 1%nat), ?(Hg 2%nat), ?(Hg 3%nat) by lia;
    repeat match goal with H : ?c = _ |- context [if ?c then _ else _] => rewrite H end; done.
Qed.

Lemma utf8_next_fits s w : s <> [] -> utf8_next s = (true, w) -> (w <= length s)%nat.
Proof.
  intros Hs E. destruct (decide (w <= length s)%nat) as [|Hgt]; [done|]. exfalso.
  pose proof (utf8_next_width _ _ _ E) as Hw. unfold utf8_next in E.
  assert (Hz : safe_get s (w - 1) = 0) by (apply safe_get_past; lia).
  cbn zeta in E. assert (Hl : (1 <= length s)%nat) by (destruct s; [done|cbn; lia]).
  repeat match type of E with context [if ?c then _ else _] => destruct c eqn:? end; simplify_eq;
    try lia; cbn [Nat.sub] in Hz; rewrite Hz in *; discriminate.
Qed.

Lemma lossy_fuel_enough n s : (length s <= n)%nat -> lossy_fuel n s = from_utf8_lossy s.
Proof.
  unfold from_utf8_lossy. remember (length s) as m eqn:Em. assert (Hm : (length s <= m)%nat) by lia.
  clear Em. revert n s Hm. induction m as [|m IH]; intros n s Hm Hn.
  { destruct s; [by destruct n|cbn in Hm; lia]. }
  destruct s as [|x s]; [by destruct n|]. destruct n as [|n]; [lia|]. cbn [lossy_fuel].
  destruct (utf8_next (x :: s)) as [ok w] eqn:E. apply utf8_next_width in E.
  f_equal. apply IH; rewrite ?length_drop; cbn [length] in *; lia.
Qed.

Lemma utf8_fuel_enough n s : (length s <= n)%nat -> utf8_fuel n s = utf8 s.
Proof.
  unfold utf8. remember (length s) as m eqn:Em. assert (Hm : (length s <= m)%nat) by lia.
  clear Em. revert n s Hm. induction m as [|m IH]; intros n s Hm Hn.
  { destruct s; [by destruct n|cbn in Hm; lia]. }
  destruct s as [|x s]; [by destruct n|]. destruct n as [|n]; [lia|]. cbn [utf8_fuel].
  destruct (utf8_next (x :: s)) as [ok w] eqn:E. apply utf8_next_width in E.
  f_equal. apply IH; rewrite ?length_drop; cbn [length] in *; lia.
Qed.

Lemma lossy_step s ok w : s <> [] -> utf8_next s = (ok, w) ->
  from_utf8_lossy s = (if ok then take w s else REPLACEMENT) ++ from_utf8_lossy (drop w s).
Proof.
  intros Hs E. unfold from_utf8_lossy at 1. destruct s as [|x s]; [done|]. cbn [length lossy_fuel].
  rewrite E. f_equal. apply utf8_next_width in E. apply lossy_fuel_enough.
  rewrite length_drop. cbn [length]. lia.
Qed.

Lemma utf8_step s ok w : s <> [] -> utf8_next s = (ok, w) -> utf8 s = ok && utf8 (drop w s).
Proof.
  intros Hs E. unfold utf8 at 1. destruct s as [|x s]; [done|]. cbn [length utf8_fuel].
  rewrite E. f_equal. apply utf8_next_width in E. apply utf8_fuel_enough.
  rewrite length_drop. cbn [length]. lia.
Qed.

(** Induction along the characters of a string. *)
Lemma utf8_ind (Q : bytes -> Prop) :
  Q [] -> (forall s ok w, s <> [] -> utf8_next s = (ok, w) -> Q (drop w s) -> Q s) -> forall s, Q s.
Proof.
  intros H0 Hs s. remember (length s) as m eqn:Em. assert (Hm : (length s <= m)%nat) by lia.
  clear Em. revert s Hm. induction m as [|m IH]; intros s Hm; [by destruct s; [|cbn in Hm; lia]|].
  destruct s as [|x s]; [done|]. destruct (utf8_next (x :: s)) as [ok w] eqn:E.
  eapply Hs; [done|exact E|]. apply utf8_next_width in E. apply IH. rewrite length_drop. cbn [length] in *. lia.
Qed.

Lemma utf8_app s t : utf8 s = true -> utf8 (s ++ t) = utf8 t.
Proof.
  induction s as [|s ok w Hs E IH] using utf8_ind; [done|].
  rewrite (utf8_step s ok w) by done. intros [-> Hd]%andb_prop.
  pose proof (utf8_next_fits s w Hs E) as Hl.
  assert (E' : utf8_next (s ++ t) = (true, w)).
  { eapply utf8_next_prefix; [exact E|]. intros i Hi. apply safe_get_app. lia. }
  rewrite (utf8_step (s ++ t) true w); [|by destruct s|done]. cbn [andb].
  rewrite drop_app_le by lia. by apply IH.
Qed.

Lemma lossy_valid s : utf8 (from_utf8_lossy s) = true.
Proof.
  induction s as [|s ok w Hs E IH] using utf8_ind; [done|]. rewrite (lossy_step s ok w) by done.
  rewrite utf8_app; [done|]. destruct ok; [|by vm_compute].
  pose proof (utf8_next_fits s w Hs E) as Hl. pose proof (utf8_next_width _ _ _ E) as Hw.
  assert (E' : utf8_next (take w s) = (true, w)).
  { eapply utf8_next_prefix; [exact E|]. intros i Hi. unfold safe_get. by rewrite lookup_take_lt. }
  rewrite (utf8_step (take w s) true w); [|intros Ht; apply (f_equal length) in Ht;
    rewrite length_take in Ht; cbn in Ht; lia|done].
  cbn [andb]. by rewrite drop_ge by (rewrite length_take; lia).
Qed.

Lemma lossy_id s : utf8 s = true -> from_utf8_lossy s = s.
Proof.
  induction s as [|s ok w Hs E IH] using utf8_ind; [done|].
  rewrite (utf8_step s ok w) by done. intros [-> Hd]%andb_prop. rewrite (lossy_step s true w) by done.
  rewrite IH by done. apply take_drop.
Qed.

Definition ascii (s : bytes) : bool := forallb (fun x => Z_of_byte x <? 128) s.

Lemma ascii_utf8 s : ascii s = true -> utf8 s = true.
Proof.
  unfold ascii. induction s as [|x s IH]; [done|]. cbn [forallb]. intros [Hx Hs]%andb_prop.
  assert (E : utf8_next (x :: s) = (true, 1%nat)).
  { unfold utf8_next, safe_get. cbn [lookup list_lookup from_option]. by rewrite Hx. }
  rewrite (utf8_step (x :: s) true 1) by done. by apply IH.
Qed.

Lemma ascii_app s t : ascii (s ++ t) = ascii s && ascii t.
Proof. apply forallb_app. Qed.
Lemma ascii_replicate n x : Z_of_byte x < 128 -> ascii (replicate n x) = true.
Proof. intros Hx. induction n as [|n IH]; [done|]. cbn. rewrite (proj2 (Z.ltb_lt _ _)) by done. exact IH. Qed.

(** Decimal numbers are ASCII. *)
Lemma pretty_N_go_ascii n acc :
  ascii (as_bytes acc) = true -> ascii (as_bytes (pretty_N_go n acc)) = true.
Proof.
  revert acc. induction (N.lt_wf_0 n) as [n _ IH]. intros acc Ha.
  destruct (decide (0 < n)%N) as [Hn|Hn].
  - rewrite pretty_N_go_step by done. apply IH; [by apply N.div_lt|].
    unfold as_bytes. cbn [String.list_byte_of_string]. cbn. rewrite andb_true_intro; [done|].
    split; [|exact Ha]. unfold pretty_N_char. repeat case_match; reflexivity.
  - assert (n = 0%N) as -> by lia. by rewrite pretty_N_go_0.
Qed.

Lemma dec_ascii n : ascii (dec n) = true.
Proof.
  unfold dec, pretty, pretty_Z, pretty, pretty_positive, pretty, pretty_N.
  destruct n as [|p|p]; [done| |]; rewrite decide_False by done.
  - by apply pretty_N_go_ascii.
  - change (as_bytes ("-" +:+ ?s)) with (Init.Byte.x2d :: as_bytes s). cbn [ascii forallb].
    by apply pretty_N_go_ascii.
Qed.

(** ** Automation: [text] proves that a text is well formed from its parts. *)

Lemma utf8_cat s t : utf8 s = true -> utf8 t = true -> utf8 (s ++ t) = true.
Proof. intros Hs Ht. by rewrite utf8_app. Qed.
Lemma dec_utf8 n : utf8 (dec n) = true.
Proof. apply ascii_utf8, dec_ascii. Qed.
Lemma spaces_utf8 n : utf8 (spaces n) = true.
Proof. by apply ascii_utf8, ascii_replicate. Qed.
Lemma pad_right_utf8 w s : utf8 s = true -> utf8 (pad_right w s) = true.
Proof. intros Hs. apply utf8_cat; [done|apply spaces_utf8]. Qed.
Lemma pad_left_utf8 w s : utf8 s = true -> utf8 (pad_left w s) = true.
Proof. intros Hs. apply utf8_cat; [apply spaces_utf8|done]. Qed.
Lemma pad_zero_utf8 w n : utf8 (pad_zero w n) = true.
Proof. apply utf8_cat; [by apply ascii_utf8, ascii_replicate|apply dec_utf8]. Qed.

Create HintDb text.
#[export] Hint Resolve utf8_cat dec_utf8 pad_right_utf8 pad_left_utf8 pad_zero_utf8 lossy_valid : text.
#[export] Hint Extern 1 (utf8 (as_bytes _) = true) => reflexivity : text.
