(* ===== verification/Db.v ===== *)
(** * The database handle (crates/settled-storage/src/db.rs)

    [DbInner] is the state every store shares: the RocksDB handle and the
    atomic sequence counter.  [open] checks the schema version and recovers the
    counter from the last key of the log.  [log_rep] relates the log column
    family to a list of entries; the stores' theorems are stated with it. *)

From Stdlib Require String.
From S2P Require Import Prelude Bytes Hash Sth Rocksdb StorageTypes.
Import String.StringSyntax.

Record DbInner `{Rocksdb} := mkDb {
  db : rdb;
  next_seq : Z
}.

(** ** Opening *)

Section Open.
Context `{Rocksdb} `{Prost} `{Profile}.

Definition SCHEMA_VERSION_KEY : bytes := String.list_byte_of_string "schema_version"%str.
Definition CURRENT_SCHEMA_VERSION : Z := 1.

(** A log key as a sequence number. *)
Definition seq_of_key (k : bytes) : result Z Error :=
  match array_try_from 8 k with
  | None => Err (Corruption "bad seq key length"%str)
  | Some bytes => Ok (u64_from_be_bytes bytes)
  end.

(** Check the schema version, writing it into a new database. *)
Definition check_schema (d : rdb) : rdb * result unit Error :=
  match rdb_get d CF_DEFAULT SCHEMA_VERSION_KEY with
  | Err e => (d, Err (RocksDb e))
  | Ok None =>
      let '(d, r) := rdb_put d CF_DEFAULT SCHEMA_VERSION_KEY
                       (to_vec (u32_to_be_bytes CURRENT_SCHEMA_VERSION)) in
      (d, map_err RocksDb r)
  | Ok (Some v) =>
      match array_try_from 4 v with
      | None => (d, Err (Corruption "bad schema_version length"%str))
      | Some a =>
          let version := u32_from_be_bytes a in
          if version >? CURRENT_SCHEMA_VERSION
          then (d, Err (SchemaMismatch version CURRENT_SCHEMA_VERSION))
          else (d, Ok tt)
      end
  end.

(** The counter starts after the last key of the log. *)
Definition initial_next_seq (d : rdb) : outcome (result Z Error) :=
  match rdb_iter d CF_LOG IterEnd with
  | ((k, _) :: _, _) =>
      match seq_of_key k with
      | Err e => Ret (Err e)
      | Ok seq => let! n := u64_add seq 1 in Ret (Ok n)
      end
  | ([], Some e) => Ret (Err (RocksDb e))
  | ([], None) => Ret (Ok 0)
  end.

(** [Db::open]; [opened] is what [DB::open_cf_descriptors] returned.  A
    failed open drops the handle. *)
Definition open (opened : result rdb rdb_error) : outcome (result DbInner Error) :=
  match opened with
  | Err e => Ret (Err (RocksDb e))
  | Ok d =>
      match check_schema d with
      | (_, Err e) => Ret (Err e)
      | (d, Ok _) => let? n := initial_next_seq d in Ret (Ok {| db := d; next_seq := n |})
      end
  end.
End Open.

(** ** Entries and the log column family *)

Section LogRep.
Context `{Sha256} {R : Rocksdb} {P : Prost} {RL : RocksdbLaws} {PL : ProstLaws}.
Abbreviation seq := LogEntry.seq.

(** A stored pair holds an entry: the key is its sequence number, the value its
    encoding, and its leaf hash is the hash of its data. *)
Definition entry_kv (e : LogEntry.t) (kv : bytes * bytes) : Prop :=
  kv.1 = to_vec (u64_to_be_bytes (seq e)) /\
  encode_log_entry (log_entry_to_proto e) = Ok kv.2 /\
  entry_wf e /\ LogEntry.leaf_hash e = leaf_hash (LogEntry.data e).

Definition log_rep (d : rdb) (es : list LogEntry.t) : Prop :=
  Forall2 entry_kv es (contents d CF_LOG).

(** Sequence numbers increase along a log. *)
Definition seq_sorted (es : list LogEntry.t) : Prop :=
  StronglySorted (fun a b => seq a < seq b) es.

(** What an iterator yields, in terms of entries. *)
Definition scan_entries (es : list LogEntry.t) (mode : iter_mode) (start : Z) : list LogEntry.t :=
  match mode with
  | IterStart => es
  | IterEnd => reverse es
  | IterFrom _ => filter (fun e => start <= seq e) es
  end.

Lemma entry_kv_seq e kv : entry_kv e kv -> seq_of_key kv.1 = Ok (seq e).
Proof.
  intros (Ek & _ & (Hs & _) & _). unfold seq_of_key. rewrite Ek, array_try_from_to_vec.
  by rewrite u64_be_roundtrip.
Qed.

Lemma entry_kv_decode e kv :
  entry_kv e kv -> decode_log_entry kv.2 = Ok (log_entry_to_proto e).
Proof.
  intros (_ & Ev & Hwf & _). eapply log_entry_roundtrip; [|done]. by apply entry_proto_wf.
Qed.

Lemma entry_kv_lt e1 kv1 e2 kv2 :
  entry_kv e1 kv1 -> entry_kv e2 kv2 -> bytes_lt kv1.1 kv2.1 <-> seq e1 < seq e2.
Proof.
  intros (E1 & _ & (H1 & _) & _) (E2 & _ & (H2 & _) & _). rewrite E1, E2. by apply u64_be_lt.
Qed.

Lemma Forall2_sorted es l : Forall2 entry_kv es l -> kv_sorted l -> seq_sorted es.
Proof.
  induction 1 as [|e kv es l He Hes IH]; [constructor|]. destruct kv as [k v].
  rewrite kv_sorted_cons. intros [Hk Hs]. constructor; [by apply IH|].
  clear IH. induction Hes as [|e' kv' es l He' Hes IH]; [constructor|].
  apply Forall_cons in Hk as [Hk1 Hk2]. destruct kv' as [k' v'].
  apply kv_sorted_cons in Hs as [_ Hs]. constructor; [|by apply IH].
  by apply (entry_kv_lt e (k, v) e' (k', v')).
Qed.

Lemma log_rep_sorted d es : log_rep d es -> seq_sorted es.
Proof. intros. eapply Forall2_sorted; [done|]. apply contents_sorted. Qed.

Lemma scan_rep d es mode start :
  log_rep d es -> in_u64 start ->
  (forall k, mode = IterFrom k -> k = to_vec (u64_to_be_bytes start)) ->
  Forall2 entry_kv (scan_entries es mode start) (scan (contents d CF_LOG) mode).
Proof.
  intros Hr Hs Hk. destruct mode as [| |k]; cbn [scan scan_entries]; [done| |].
  - by apply Forall2_reverse.
  - rewrite (Hk k eq_refl). apply Forall2_filter; [|done].
    intros e kv (Ek & _ & (He & _) & _). rewrite Ek. symmetry. by apply u64_be_le.
Qed.

(** An iterator over the log yields the scanned entries, or a prefix of them and
    an error. *)
Lemma log_iter d es mode start items o :
  log_rep d es -> in_u64 start ->
  (forall k, mode = IterFrom k -> k = to_vec (u64_to_be_bytes start)) ->
  rdb_iter d CF_LOG mode = (items, o) ->
  exists es1 es2, scan_entries es mode start = es1 ++ es2 /\
    Forall2 entry_kv es1 items /\ (o = None -> es2 = []).
Proof.
  intros Hr Hs Hk Hi. eapply iter_split; [by apply scan_rep|done].
Qed.

Lemma log_get d es n o :
  log_rep d es -> in_u64 n ->
  rdb_get d CF_LOG (to_vec (u64_to_be_bytes n)) = Ok o ->
  match o with
  | Some v => exists e, e ∈ es /\ seq e = n /\ entry_kv e (to_vec (u64_to_be_bytes n), v)
  | None => forall e, e ∈ es -> seq e <> n
  end.
Proof.
  intros Hr Hn Hg. apply rdb_get_ok in Hg. subst o.
  pose proof (contents_sorted d CF_LOG) as Hs. destruct (kv_get _ _) as [v|] eqn:E.
  - apply kv_get_elem in E; [|done]. apply list_elem_of_lookup in E as [i E].
    destruct (Forall2_lookup_r _ _ _ _ _ Hr E) as (e & He & Hkv).
    exists e. split; [by eapply list_elem_of_lookup_2|]. split; [|done].
    destruct Hkv as (Ek & _ & (Hw & _) & _). cbn in Ek. symmetry.
    by apply u64_to_be_bytes_inj.
  - intros e [i He]%list_elem_of_lookup <-.
    destruct (Forall2_lookup_l _ _ _ _ _ Hr He) as ([k v] & Hkv & (Ek & _)). cbn in Ek. subst k.
    apply list_elem_of_lookup_2, kv_get_elem in Hkv; [congruence|done].
Qed.
End LogRep.
