(* ===== verification/LogStore.v ===== *)
(** * The log store (crates/settled-storage/src/log_store.rs)

    Every operation of [LogStore], with the shared [DbInner] passed explicitly.
    [db_rep] relates the store to a list of entries; the theorems give the
    result of every operation on every branch, iterator and write errors
    included. *)

From Stdlib Require String.
From S2P Require Import Prelude Bytes Hash Sth Rocksdb StorageTypes Db.
Import String.StringSyntax.

(** [SystemTime::now().duration_since(UNIX_EPOCH).unwrap().as_nanos() as i64];
    [now] is the clock in nanoseconds relative to the epoch. *)
Definition unix_nanos (now : Z) : outcome Z :=
  if now <? 0 then Panic else Ret (wrap_i64 now).

Section Operations.
Context `{Sha256} `{Rocksdb} `{Prost} `{Profile}.

(** [next_seq.fetch_add(n)] wraps. *)
Definition fetch_add (s : DbInner) (n : Z) : DbInner * Z :=
  ({| db := db s; next_seq := wrap_u64 (next_seq s + n) |}, next_seq s).

Definition set_db (s : DbInner) (d : rdb) : DbInner := {| db := d; next_seq := next_seq s |}.

(** [self.0.db.write(batch)?], then [r]. *)
Definition write_then {A} (s : DbInner) (batch : list batch_op) (r : A)
  : DbInner * result A Error :=
  let '(d, w) := rdb_write (db s) batch in
  (set_db s d, match w with Ok _ => Ok r | Err e => Err (RocksDb e) end).

Definition append (s : DbInner) (now : Z) (key data : bytes)
  : outcome (DbInner * result (Z * Z) Error) :=
  let '(s, seq) := fetch_add s 1 in
  let! timestamp_ns := unix_nanos now in
  let leaf_hash := leaf_hash data in
  let proto := LogEntryProto.mk seq timestamp_ns key data (to_vec leaf_hash) in
  match encode_log_entry proto with
  | Err e => Ret (s, Err (Encode e))
  | Ok value_buf =>
      let seq_key := to_vec (u64_to_be_bytes seq) in
      let batch := [PutCf CF_LOG seq_key value_buf; PutCf CF_INDEX key seq_key] in
      Ret (write_then s batch (seq, timestamp_ns))
  end.

(** The loop of [append_batch]: the batch and the results, from index [i] on. *)
Fixpoint batch_loop (first_seq timestamp_ns : Z) (i : Z) (entries : list (bytes * bytes))
    (batch : list batch_op) (results : list (Z * Z * hash32))
  : outcome (result (list batch_op * list (Z * Z * hash32)) Error) :=
  match entries with
  | [] => Ret (Ok (batch, results))
  | (key, data) :: entries =>
      let! seq := u64_add first_seq i in
      let leaf_hash := leaf_hash data in
      let proto := LogEntryProto.mk seq timestamp_ns key data (to_vec leaf_hash) in
      match encode_log_entry proto with
      | Err e => Ret (Err (Encode e))
      | Ok value_buf =>
          let seq_key := to_vec (u64_to_be_bytes seq) in
          batch_loop first_seq timestamp_ns (i + 1) entries
            (batch ++ [PutCf CF_LOG seq_key value_buf; PutCf CF_INDEX key seq_key])
            (results ++ [(seq, timestamp_ns, leaf_hash)])
      end
  end.

Definition append_batch (s : DbInner) (now : Z) (entries : list (bytes * bytes))
  : outcome (DbInner * result (list (Z * Z * hash32)) Error) :=
  if len entries =? 0 then Ret (s, Ok [])
  else
    let n := len entries in
    let '(s, first_seq) := fetch_add s n in
    let! timestamp_ns := unix_nanos now in
    let! r := batch_loop first_seq timestamp_ns 0 entries [] [] in
    match r with
    | Err e => Ret (s, Err e)
    | Ok (batch, results) => Ret (write_then s batch results)
    end.

Definition count (s : DbInner) : Z := next_seq s.

(** Decode a stored value and convert it. *)
Definition decode_entry (v : bytes) : result LogEntry.t Error :=
  match decode_log_entry v with
  | Err e => Err (Decode e)
  | Ok proto => log_entry_try_from proto
  end.

Definition get_by_seq (s : DbInner) (seq : Z) : result (option LogEntry.t) Error :=
  match rdb_get (db s) CF_LOG (to_vec (u64_to_be_bytes seq)) with
  | Err e => Err (RocksDb e)
  | Ok None => Ok None
  | Ok (Some v) =>
      match decode_entry v with
      | Err e => Err e
      | Ok entry => Ok (Some entry)
      end
  end.

Definition get_seq_by_key (s : DbInner) (key : bytes) : result (option Z) Error :=
  match rdb_get (db s) CF_INDEX key with
  | Err e => Err (RocksDb e)
  | Ok None => Ok None
  | Ok (Some v) =>
      match array_try_from 8 v with
      | None => Err (Corruption "bad seq value in index CF"%str)
      | Some bytes => Ok (Some (u64_from_be_bytes bytes))
      end
  end.

(** The [for item in iter] loops: [items] is what the iterator still yields and
    [o] the error it ends with. *)

Fixpoint entries_by_key_loop (key : bytes) (limit : Z) (items : kvs) (o : option rdb_error)
    (entries : list LogEntry.t) : outcome (result (list LogEntry.t * Z) Error) :=
  match items with
  | [] => match o with Some e => Ret (Err (RocksDb e)) | None => Ret (Ok (entries, 0)) end
  | (k, v) :: items =>
      match seq_of_key k with
      | Err e => Ret (Err e)
      | Ok seq =>
          match decode_log_entry v with
          | Err e => Ret (Err (Decode e))
          | Ok proto =>
              if decide (LogEntryProto.key proto = key) then
                match log_entry_try_from proto with
                | Err e => Ret (Err e)
                | Ok entry =>
                    let entries := entries ++ [entry] in
                    if limit <=? len entries
                    then let! next_cursor := u64_add seq 1 in Ret (Ok (entries, next_cursor))
                    else entries_by_key_loop key limit items o entries
                end
              else entries_by_key_loop key limit items o entries
          end
      end
  end.

Definition entries_by_key (s : DbInner) (key : bytes) (from_seq limit : Z)
  : outcome (result (list LogEntry.t * Z) Error) :=
  if limit =? 0 then Ret (Ok ([], 0))
  else
    let '(items, o) := rdb_iter (db s) CF_LOG (IterFrom (to_vec (u64_to_be_bytes from_seq))) in
    entries_by_key_loop key limit items o [].

Fixpoint seq_range_paged_loop (end_ limit : Z) (items : kvs) (o : option rdb_error)
    (entries : list LogEntry.t) : outcome (result (list LogEntry.t * Z) Error) :=
  match items with
  | [] => match o with Some e => Ret (Err (RocksDb e)) | None => Ret (Ok (entries, 0)) end
  | (k, v) :: items =>
      match seq_of_key k with
      | Err e => Ret (Err e)
      | Ok seq =>
          if negb (end_ =? 0) && (end_ <=? seq) then Ret (Ok (entries, 0))
          else
            match decode_entry v with
            | Err e => Ret (Err e)
            | Ok entry =>
                let entries := entries ++ [entry] in
                if limit <=? len entries then
                  let! next := u64_add seq 1 in
                  Ret (Ok (entries, if (end_ =? 0) || (next <? end_) then next else 0))
                else seq_range_paged_loop end_ limit items o entries
            end
      end
  end.

Definition seq_range_paged (s : DbInner) (start end_ limit : Z)
  : outcome (result (list LogEntry.t * Z) Error) :=
  if limit =? 0 then Ret (Ok ([], 0))
  else
    let '(items, o) := rdb_iter (db s) CF_LOG (IterFrom (to_vec (u64_to_be_bytes start))) in
    seq_range_paged_loop end_ limit items o [].

Fixpoint seq_range_loop (end_ : Z) (items : kvs) (o : option rdb_error)
    (entries : list LogEntry.t) : result (list LogEntry.t) Error :=
  match items with
  | [] => match o with Some e => Err (RocksDb e) | None => Ok entries end
  | (k, v) :: items =>
      match seq_of_key k with
      | Err e => Err e
      | Ok seq =>
          if end_ <=? seq then Ok entries
          else
            match decode_entry v with
            | Err e => Err e
            | Ok entry => seq_range_loop end_ items o (entries ++ [entry])
            end
      end
  end.

Definition seq_range (s : DbInner) (start end_ : Z) : result (list LogEntry.t) Error :=
  let '(items, o) := rdb_iter (db s) CF_LOG (IterFrom (to_vec (u64_to_be_bytes start))) in
  seq_range_loop end_ items o [].

Fixpoint latest_loop (n : Z) (items : kvs) (o : option rdb_error)
    (entries : list LogEntry.t) : result (list LogEntry.t) Error :=
  match items with
  | [] => match o with Some e => Err (RocksDb e) | None => Ok entries end
  | (_, v) :: items =>
      match decode_entry v with
      | Err e => Err e
      | Ok entry =>
          let entries := entries ++ [entry] in
          if n <=? len entries then Ok entries else latest_loop n items o entries
      end
  end.

Definition latest (s : DbInner) (n : Z) : result (list LogEntry.t) Error :=
  if n =? 0 then Ok []
  else
    let '(items, o) := rdb_iter (db s) CF_LOG IterEnd in
    latest_loop n items o [].
End Operations.

(** ** Representation *)

Section Rep.
Context `{Sha256} {R : Rocksdb} {P : Prost} {RL : RocksdbLaws} {PL : ProstLaws}.
Abbreviation seq := LogEntry.seq.

(** The index maps a key to the sequence number of its last entry. *)
Definition idx_rep (d : rdb) (es : list LogEntry.t) : Prop :=
  forall k, kv_get (contents d CF_INDEX) k =
    (fun e => to_vec (u64_to_be_bytes (seq e))) <$> last (filter (fun e => LogEntry.key e = k) es).

Record db_rep (s : DbInner) (es : list LogEntry.t) : Prop := {
  rep_log : log_rep (db s) es;
  rep_idx : idx_rep (db s) es;
  rep_below : Forall (fun e => seq e < next_seq s) es;
  rep_next : in_u64 (next_seq s)
}.

(** No sequence number is missing: the log is what the documents describe. *)
Definition gap_free (s : DbInner) (es : list LogEntry.t) : Prop :=
  seq <$> es = seqZ 0 (len es) /\ next_seq s = len es.

(** The entry [append] stores. *)
Definition new_entry (seq timestamp_ns : Z) (key data : bytes) : LogEntry.t :=
  LogEntry.mk seq timestamp_ns key data (leaf_hash data).

Lemma new_entry_kv n ts key data v :
  in_u64 n -> in_i64 ts -> len key < two64 -> len data < two64 ->
  encode_log_entry (LogEntryProto.mk n ts key data (to_vec (leaf_hash data))) = Ok v ->
  entry_kv (new_entry n ts key data) (to_vec (u64_to_be_bytes n), v).
Proof. intros. split; [done|]. split; [done|]. split; [|done]. by split_and!. Qed.

Lemma wrap_i64_range x : in_i64 (wrap_i64 x).
Proof.
  unfold wrap_i64, in_i64. pose proof (Z.mod_pos_bound (x + two63) two64 ltac:(done)).
  unfold two64, two63 in *. lia.
Qed.

(** The effect of a write. *)
Lemma write_then_spec {A} s b (x : A) s' r :
  write_then s b x = (s', r) ->
  next_seq s' = next_seq s /\
  match r with
  | Ok y => y = x /\ forall c, contents (db s') c = apply_batch b c (contents (db s) c)
  | Err _ => forall c, contents (db s') c = contents (db s) c
  end.
Proof.
  unfold write_then. destruct (rdb_write _ _) as [d [[]|e]] eqn:E; intros [= <- <-]; cbn.
  - split; [done|]. split; [done|]. intros c. by apply rdb_write_ok.
  - split; [done|]. intros c. by eapply rdb_write_err.
Qed.

Lemma rep_frame s s' es :
  db_rep s es -> next_seq s' = next_seq s ->
  contents (db s') CF_LOG = contents (db s) CF_LOG ->
  contents (db s') CF_INDEX = contents (db s) CF_INDEX -> db_rep s' es.
Proof.
  intros [Hl Hi Hb Hn] En El Ei. split; [| |by rewrite En..].
  - unfold log_rep. by rewrite El.
  - unfold idx_rep. by rewrite Ei.
Qed.

(** A write that touches neither the log nor its index keeps the entries. *)
Lemma write_then_frame {A} s b (x : A) s' r es :
  write_then s b x = (s', r) -> db_rep s es ->
  (forall c m, c = CF_LOG \/ c = CF_INDEX -> apply_batch b c m = m) ->
  db_rep s' es.
Proof.
  intros [En Hc]%write_then_spec Hr Hb. eapply rep_frame; [done|done| |];
    destruct r as [y|e]; try (destruct Hc as [_ Hc]); rewrite Hc, ?Hb by auto; done.
Qed.

(** Writing an entry above all others appends it to the represented list. *)
Lemma put_entry_log (m : kvs) es e v :
  Forall2 entry_kv es m -> Forall (fun e' => seq e' < seq e) es ->
  entry_kv e (to_vec (u64_to_be_bytes (seq e)), v) ->
  Forall2 entry_kv (es ++ [e]) (kv_put m (to_vec (u64_to_be_bytes (seq e))) v).
Proof.
  intros Hr Hb He. rewrite kv_put_last.
  - apply Forall2_app; [done|]. by constructor.
  - rewrite Forall_forall. intros kv [i Hkv]%list_elem_of_lookup.
    destruct (Forall2_lookup_r _ _ _ _ _ Hr Hkv) as (e' & He' & Hkv').
    eapply (entry_kv_lt e' kv e (_, v)); [done|done|].
    eapply Forall_lookup_1 in Hb; [|done]. done.
Qed.

Lemma put_entry_idx (m : kvs) es e k :
  kv_sorted m ->
  (forall k, kv_get m k =
    (fun e => to_vec (u64_to_be_bytes (seq e))) <$> last (filter (fun e => LogEntry.key e = k) es)) ->
  kv_get (kv_put m (LogEntry.key e) (to_vec (u64_to_be_bytes (seq e)))) k =
    (fun e => to_vec (u64_to_be_bytes (seq e))) <$>
      last (filter (fun e => LogEntry.key e = k) (es ++ [e])).
Proof.
  intros Hs Hm. rewrite kv_get_put by done. rewrite filter_app, filter_cons, filter_nil.
  destruct (decide (k = LogEntry.key e)) as [E|E].
  - rewrite decide_True by done. by rewrite last_snoc.
  - rewrite decide_False by done. by rewrite app_nil_r.
Qed.

(** What the write batch of an entry holds. *)
Definition entry_ops (e : LogEntry.t) (v : bytes) : list batch_op :=
  [PutCf CF_LOG (to_vec (u64_to_be_bytes (seq e))) v;
   PutCf CF_INDEX (LogEntry.key e) (to_vec (u64_to_be_bytes (seq e)))].
Definition encodes (e : LogEntry.t) (v : bytes) : Prop :=
  entry_kv e (to_vec (u64_to_be_bytes (seq e)), v).

(** Why storing the entries [news] in the database [d] may fail with [err]: one of them does
    not encode, or RocksDB refuses the batch. *)
Definition write_fault (d : rdb) (news : list LogEntry.t) (err : Error) : Prop :=
  match err with
  | Encode x => exists e, e ∈ news /\ encode_log_entry (log_entry_to_proto e) = Err x
  | RocksDb x => exists vs d', Forall2 encodes news vs /\
      rdb_write d (concat (zip_with entry_ops news vs)) = (d', Err x)
  | _ => False
  end.

(** Errors that come from RocksDB or the encoder. *)
Definition external_error (e : Error) : Prop :=
  match e with RocksDb _ | Encode _ => True | _ => False end.

(** A read returns [a], or the error RocksDB failed with. *)
Definition read_as {A} (r : result A Error) (fails : rdb_error -> Prop) (a : A) : Prop :=
  r = Ok a \/ exists e, fails e /\ r = Err (RocksDb e).

Lemma write_then_error {A} s b (x : A) s' e : write_then s b x = (s', Err e) -> external_error e.
Proof. unfold write_then. destruct (rdb_write _ _) as [d [u|y]]; by intros [= _ <-]. Qed.

Lemma apply_entries (d : rdb) first es news vs :
  log_rep d es -> idx_rep d es -> Forall (fun e => seq e < first) es ->
  seq <$> news = seqZ first (len news) -> Forall2 encodes news vs ->
  let b := concat (zip_with entry_ops news vs) in
  Forall2 entry_kv (es ++ news) (apply_batch b CF_LOG (contents d CF_LOG)) /\
  (forall k, kv_get (apply_batch b CF_INDEX (contents d CF_INDEX)) k =
    (fun e => to_vec (u64_to_be_bytes (seq e))) <$>
      last (filter (fun e => LogEntry.key e = k) (es ++ news))).
Proof.
  intros Hl Hi Hb Hseq Hv. cbn. unfold log_rep, idx_rep in Hl, Hi.
  pose proof (contents_sorted d CF_INDEX) as Hs.
  revert Hl Hi Hs. generalize (contents d CF_LOG) as m, (contents d CF_INDEX) as m'.
  revert first es Hb Hseq. induction Hv as [|e v news vs He Hv IH]; intros first es Hb Hseq m m' Hl Hi Hs.
  - by rewrite app_nil_r.
  - rewrite len_cons in Hseq. rewrite Z.add_comm, seqZ_cons, fmap_cons in Hseq
      by (pose proof (len_nonneg news); lia).
    injection Hseq as E Hseq. cbn [zip_with concat entry_ops]. unfold apply_batch.
    cbn [foldl app apply_op]. rewrite (cons_middle e es news), app_assoc.
    apply (IH (Z.succ first)).
    + apply Forall_app. split; [|constructor; [lia|constructor]].
      eapply Forall_impl; [exact Hb|]. cbn. lia.
    + by replace (Z.pred (1 + len news)) with (len news) in Hseq by lia.
    + apply put_entry_log; [done| |done]. subst first. done.
    + intros k. by apply put_entry_idx.
    + by apply kv_put_sorted.
Qed.

Lemma apply_entries_frame c news vs m :
  c <> CF_LOG -> c <> CF_INDEX -> apply_batch (concat (zip_with entry_ops news vs)) c m = m.
Proof.
  intros H1 H2. unfold apply_batch. revert vs m.
  induction news as [|e news IH]; intros [|v vs] m; try done.
  cbn [zip_with concat entry_ops foldl app apply_op].
  rewrite !decide_False by done. apply IH.
Qed.

(** Writing the batch of new entries: all of them, or none. *)
Lemma write_entries {A} s first es news vs (x : A) :
  log_rep (db s) es -> idx_rep (db s) es -> Forall (fun e => seq e < first) es ->
  seq <$> news = seqZ first (len news) -> Forall2 encodes news vs ->
  next_seq s = first + len news -> in_u64 (next_seq s) ->
  exists s' r, write_then s (concat (zip_with entry_ops news vs)) x = (s', r) /\
    next_seq s' = next_seq s /\
    (forall c, c <> CF_LOG -> c <> CF_INDEX -> contents (db s') c = contents (db s) c) /\
    match r with
    | Ok y => y = x /\ db_rep s' (es ++ news)
    | Err e => db_rep s' es /\ write_fault (db s) news e
    end.
Proof.
  intros Hl Hi Hb Hseq Hv Hn Hin.
  assert (Hb' : Forall (fun e => seq e < next_seq s) es).
  { eapply Forall_impl; [exact Hb|]. cbn. pose proof (len_nonneg news). lia. }
  unfold write_then. destruct (rdb_write _ _) as [d w] eqn:E.
  eexists _, _. split; [done|]. split; [done|]. destruct w as [[]|e]; cbn.
  - pose proof (fun c => rdb_write_ok _ _ _ c E) as Hc. split.
    { intros c ? ?. rewrite Hc. by apply apply_entries_frame. }
    split; [done|]. destruct (apply_entries (db s) first es news vs) as [Ha Hx]; [done..|].
    split; cbn; [| |apply Forall_app; split; [done|]|done].
    + unfold log_rep. by rewrite Hc.
    + unfold idx_rep. by rewrite Hc.
    + rewrite <- Forall_fmap with (f := seq) (P := fun n => n < next_seq s).
      rewrite Hseq. apply Forall_forall. intros y Hy%elem_of_seqZ. lia.
  - pose proof (fun c => rdb_write_err _ _ _ _ c E) as Hc. split; [done|].
    split; [split; cbn; unfold log_rep, idx_rep; rewrite ?Hc; done|]. cbn. eauto.
Qed.
End Rep.

(** ** Appending *)

Section Append.
Context `{Sha256} {R : Rocksdb} {P : Prost} {RL : RocksdbLaws} {PL : ProstLaws} `{Profile}.
Abbreviation seq := LogEntry.seq.

(** The entries a batch stores, numbered from [first]. *)
Fixpoint batch_entries (first timestamp_ns : Z) (entries : list (bytes * bytes)) : list LogEntry.t :=
  match entries with
  | [] => []
  | (key, data) :: entries =>
      new_entry first timestamp_ns key data :: batch_entries (first + 1) timestamp_ns entries
  end.
Definition batch_result (e : LogEntry.t) : Z * Z * hash32 :=
  (seq e, LogEntry.timestamp_ns e, LogEntry.leaf_hash e).

(** Byte vectors of a program have a [u64] length. *)
Definition pair_ok (kd : bytes * bytes) : Prop := len kd.1 < two64 /\ len kd.2 < two64.

Lemma batch_entries_seq first ts entries :
  seq <$> batch_entries first ts entries = seqZ first (len (batch_entries first ts entries)).
Proof.
  revert first. induction entries as [|[k d] entries IH]; intros first; [done|].
  cbn [batch_entries]. rewrite fmap_cons, len_cons.
  pose proof (len_nonneg (batch_entries (first + 1) ts entries)).
  rewrite seqZ_cons by lia. rewrite IH. unfold Z.succ. by rewrite Z.add_simpl_r || f_equal; f_equal; lia.
Qed.

Lemma length_batch_entries first ts entries :
  length (batch_entries first ts entries) = length entries.
Proof. revert first. induction entries as [|[k d] entries IH]; intros; cbn; [done|]. by rewrite IH. Qed.

Lemma batch_loop_spec first ts entries : forall i batch results,
  in_i64 ts -> 0 <= first -> 0 <= i -> first + i + len entries < two64 -> Forall pair_ok entries ->
  let news := batch_entries (first + i) ts entries in
  (exists vs, Forall2 encodes news vs /\
     batch_loop first ts i entries batch results =
       Ret (Ok (batch ++ concat (zip_with entry_ops news vs), results ++ (batch_result <$> news)))) \/
  (exists y e, y ∈ news /\ encode_log_entry (log_entry_to_proto y) = Err e /\
     batch_loop first ts i entries batch results = Ret (Err (Encode e))).
Proof.
  induction entries as [|[key data] entries IH]; intros i batch results Hts Hf Hi Hn Hok; cbn [batch_entries].
  - left. exists []. split; [done|]. cbn. by rewrite !app_nil_r.
  - rewrite len_cons in Hn. apply Forall_cons in Hok as [[Hk Hd] Hok].
    pose proof (len_nonneg entries). cbn [batch_loop].
    rewrite u64_add_in by (unfold in_u64; lia). cbn [obind].
    destruct (encode_log_entry _) as [v|e] eqn:Ev.
    2:{ right. exists (new_entry (first + i) ts key data), e. split; [left|]. done. }
    destruct (IH (i + 1) (batch ++ entry_ops (new_entry (first + i) ts key data) v)
      (results ++ [(first + i, ts, leaf_hash data)])) as [(vs & Hvs & E)|(y & e & Hy & Ey & E)];
      [done|lia|lia|lia|done| |].
    + left. exists (v :: vs). rewrite Z.add_assoc in Hvs, E. split.
      { constructor; [|done]. apply (new_entry_kv (first + i)); [unfold in_u64; lia|done..]. }
      refine (eq_trans E _). cbn [zip_with concat]. by rewrite <- !app_assoc.
    + right. exists y, e. rewrite Z.add_assoc in Hy. split; [by right|]. done.
Qed.

Lemma append_spec s es now key data :
  db_rep s es -> next_seq s + 1 < two64 -> 0 <= now -> pair_ok (key, data) ->
  exists s' r, append s now key data = Ret (s', r) /\
    next_seq s' = next_seq s + 1 /\
    (forall c, c <> CF_LOG -> c <> CF_INDEX -> contents (db s') c = contents (db s) c) /\
    match r with
    | Ok (n, ts) => n = next_seq s /\ ts = wrap_i64 now /\
        db_rep s' (es ++ [new_entry n ts key data])
    | Err e => db_rep s' es /\
        write_fault (db s) [new_entry (next_seq s) (wrap_i64 now) key data] e
    end.
Proof.
  intros [Hl Hi Hb Hn] Hroom Hnow [Hk Hd]. cbn in Hk, Hd.
  unfold append, fetch_add, unix_nanos. decide_if. cbn [obind].
  assert (Hw : wrap_u64 (next_seq s + 1) = next_seq s + 1)
    by (apply Z.mod_small; unfold in_u64 in Hn; lia).
  set (s1 := {| db := db s; next_seq := _ |}). assert (Hs1 : next_seq s1 = next_seq s + 1) by done.
  destruct (encode_log_entry _) as [v|e] eqn:Ev.
  - set (e := new_entry (next_seq s) (wrap_i64 now) key data).
    destruct (write_entries s1 (next_seq s) es [e] [v] (next_seq s, wrap_i64 now))
      as (s' & r & E & En & Hc & Hr); [done|done|done|done| |done|rewrite Hs1; unfold in_u64 in *; lia|].
    { constructor; [|done]. apply new_entry_kv; [done|apply wrap_i64_range|done..]. }
    exists s', r. cbn [zip_with concat entry_ops app] in E. rewrite <- Hs1.
    split; [by f_equal|]. split; [done|]. split; [done|].
    destruct r as [[n ts]|]; [|done]. by destruct Hr as [[= -> ->] Hr].
  - exists s1, (Err (Encode e)). rewrite Hs1. split; [done|]. split; [done|]. split; [done|].
    split; [|eexists; by split; [left|]].
    split; [done|done| |rewrite Hs1; unfold in_u64 in *; lia].
    eapply Forall_impl; [exact Hb|]. cbn. rewrite Hw. lia.
Qed.

Lemma append_batch_spec s es now entries :
  db_rep s es -> next_seq s + len entries < two64 -> 0 <= now -> Forall pair_ok entries ->
  exists s' r, append_batch s now entries = Ret (s', r) /\
    next_seq s' = next_seq s + len entries /\
    (forall c, c <> CF_LOG -> c <> CF_INDEX -> contents (db s') c = contents (db s) c) /\
    let news := batch_entries (next_seq s) (wrap_i64 now) entries in
    match r with
    | Ok l => l = batch_result <$> news /\ db_rep s' (es ++ news)
    | Err e => db_rep s' es /\ write_fault (db s) news e
    end.
Proof.
  intros Hr Hroom Hnow Hok. unfold append_batch.
  destruct (Z.eqb_spec (len entries) 0) as [E0|E0].
  { destruct entries; [|rewrite len_cons in E0; pose proof (len_nonneg entries); lia].
    exists s, (Ok []). cbn. rewrite app_nil_r, Z.add_0_r. done. }
  destruct Hr as [Hl Hi Hb Hn]. pose proof (len_nonneg entries).
  unfold fetch_add, unix_nanos. decide_if. cbn [obind].
  assert (Hw : wrap_u64 (next_seq s + len entries) = next_seq s + len entries)
    by (apply Z.mod_small; unfold in_u64 in Hn; lia).
  set (s1 := {| db := db s; next_seq := _ |}).
  assert (Hs1 : next_seq s1 = next_seq s + len entries) by done.
  set (news := batch_entries _ _ _).
  assert (Hlen : len news = len entries) by (unfold len, news; by rewrite length_batch_entries).
  destruct (batch_loop_spec (next_seq s) (wrap_i64 now) entries 0 [] [])
    as [(vs & Hvs & E)|(y & e & Hy & Ey & E)]; [apply wrap_i64_range|apply Hn|lia|lia|done| |];
    rewrite E; cbn [obind].
  - rewrite Z.add_0_r in *. fold news in Hvs |- *. rewrite !app_nil_l.
    destruct (write_entries s1 (next_seq s) es news vs (batch_result <$> news))
      as (s' & r & Ew & En & Hc & Hr); [done|done|done|apply batch_entries_seq|done|lia| |].
    { rewrite Hs1. unfold in_u64 in *. lia. }
    exists s', r. rewrite <- Hs1. split; [by f_equal|]. split; [done|]. split; [done|]. done.
  - exists s1, (Err (Encode e)). rewrite Hs1. split; [done|]. split; [done|]. split; [done|].
    rewrite Z.add_0_r in Hy. split; [|by exists y].
    split; [done|done| |rewrite Hs1; unfold in_u64 in *; lia].
    eapply Forall_impl; [exact Hb|]. cbn. rewrite Hw. lia.
Qed.

(** C5: [LogStore::append] on every branch.  With the clock after the epoch and
    the counter below [2^64 - 1] it never panics; on success the log holds one more
    entry, with the counter's old value as its number, the given key and data
    and their leaf hash; on an error the stored entries are
    unchanged, and the entry did not encode or RocksDB refused the write.  On both branches the counter has advanced by one and no other
    column family has changed. *)
Theorem append_refines (s : DbInner) (es : list LogEntry.t) (now : Z) (key data : bytes)
    (Hr : db_rep s es) (Hroom : next_seq s + 1 < two64) (Hnow : 0 <= now)
    (Hok : pair_ok (key, data)) :
  exists s' r, append s now key data = Ret (s', r) /\
    next_seq s' = next_seq s + 1 /\
    (forall c, c <> CF_LOG -> c <> CF_INDEX -> contents (db s') c = contents (db s) c) /\
    match r with
    | Ok (n, ts) => n = next_seq s /\ ts = wrap_i64 now /\
        db_rep s' (es ++ [new_entry n ts key data])
    | Err e => db_rep s' es /\
        write_fault (db s) [new_entry (next_seq s) (wrap_i64 now) key data] e
    end.
Proof. by apply append_spec. Qed.

(** C39: [LogStore::append_batch] is all or nothing.  While the counter has room and the clock is after 1970 it
    never panics; on success the entries are stored in input order with
    consecutive numbers from the counter's old value, one timestamp, and the
    results are their numbers, timestamps and leaf hashes; on an error none of them is
    stored, and one did not encode or RocksDB refused the write.  On both branches the counter has advanced by the number of entries. *)
Theorem append_batch_refines (s : DbInner) (es : list LogEntry.t) (now : Z)
    (entries : list (bytes * bytes)) (Hr : db_rep s es)
    (Hroom : next_seq s + len entries < two64) (Hnow : 0 <= now)
    (Hok : Forall pair_ok entries) :
  exists s' r, append_batch s now entries = Ret (s', r) /\
    next_seq s' = next_seq s + len entries /\
    (forall c, c <> CF_LOG -> c <> CF_INDEX -> contents (db s') c = contents (db s) c) /\
    let news := batch_entries (next_seq s) (wrap_i64 now) entries in
    match r with
    | Ok l => l = batch_result <$> news /\ db_rep s' (es ++ news)
    | Err e => db_rep s' es /\ write_fault (db s) news e
    end.
Proof. by apply append_batch_spec. Qed.
End Append.

(** ** Reading *)

Section Reads.
Context `{Sha256} {R : Rocksdb} {P : Prost} {RL : RocksdbLaws} {PL : ProstLaws} `{Profile}.
Abbreviation seq := LogEntry.seq.

(** The iterator of a scan ends with the error [e]. *)
Definition iter_fails (d : rdb) (c : cf) (mode : iter_mode) (e : rdb_error) : Prop :=
  exists items, rdb_iter d c mode = (items, Some e).

Lemma decode_entry_kv e kv : entry_kv e kv -> decode_entry kv.2 = Ok e.
Proof.
  intros Hkv. unfold decode_entry. rewrite (entry_kv_decode e) by done.
  apply log_entry_proto_roundtrip.
Qed.

Lemma entry_kv_cons_inv e es kv items :
  Forall2 entry_kv (e :: es) (kv :: items) ->
  seq_of_key kv.1 = Ok (seq e) /\ decode_log_entry kv.2 = Ok (log_entry_to_proto e) /\
  decode_entry kv.2 = Ok e /\ Forall2 entry_kv es items.
Proof.
  intros [He Hes]%Forall2_cons_1. split; [by apply entry_kv_seq|].
  split; [by apply entry_kv_decode|]. split; [by apply decode_entry_kv|done].
Qed.

Lemma seq_sorted_cons e es : seq_sorted (e :: es) -> Forall (fun e' => seq e < seq e') es /\ seq_sorted es.
Proof. intros Hs. by inversion Hs. Qed.

(** Once a sorted scan reaches [end_], nothing below it follows. *)
Lemma filter_below_nil e es (end_ : Z) :
  seq_sorted (e :: es) -> end_ <= seq e -> filter (fun e => seq e < end_) (e :: es) = [].
Proof.
  intros [Hlt _]%seq_sorted_cons He. rewrite filter_cons_False by lia.
  induction Hlt as [|e' es He' Hes IH]; [done|]. by rewrite filter_cons_False by lia.
Qed.

Lemma iter_from_start start k :
  IterFrom (to_vec (u64_to_be_bytes start)) = IterFrom k -> k = to_vec (u64_to_be_bytes start).
Proof. congruence. Qed.

Lemma seq_unique es e e' :
  seq_sorted es -> e ∈ es -> e' ∈ es -> seq e = seq e' -> e = e'.
Proof.
  induction es as [|e0 es IH]; [by intros _ ?%elem_of_nil|].
  intros [Hlt Hs]%seq_sorted_cons. rewrite Forall_forall in Hlt.
  rewrite !elem_of_cons. intros [->|He] [->|He'] E; [done| | |by apply IH].
  - specialize (Hlt _ He'). cbn in Hlt. lia.
  - specialize (Hlt _ He). cbn in Hlt. lia.
Qed.

Lemma seq_range_loop_spec end_ es2 o items : forall es1 acc,
  seq_sorted (es1 ++ es2) -> Forall2 entry_kv es1 items -> (o = None -> es2 = []) ->
  seq_range_loop end_ items o acc = Ok (acc ++ filter (fun e => seq e < end_) (es1 ++ es2)) \/
  exists e, o = Some e /\ seq_range_loop end_ items o acc = Err (RocksDb e).
Proof.
  induction items as [|[k v] items IH]; intros es1 acc Hs Hf Ho.
  - apply Forall2_nil_inv_r in Hf as ->. cbn. destruct o as [e|]; [right; eauto|left].
    rewrite Ho by done. by rewrite app_nil_r.
  - destruct es1 as [|e es1]; [by inversion Hf|].
    apply entry_kv_cons_inv in Hf as (Ek & _ & Ev & Hf). cbn [seq_range_loop fst snd] in *.
    rewrite Ek, Ev. change ((e :: es1) ++ es2) with (e :: (es1 ++ es2)) in *.
    destruct (Z.leb_spec end_ (seq e)) as [Hle|Hlt].
    + left. rewrite filter_below_nil by done. by rewrite app_nil_r.
    + rewrite filter_cons_True by lia. apply seq_sorted_cons in Hs as [_ Hs].
      destruct (IH es1 (acc ++ [e]) Hs Hf Ho) as [E|E]; [left|by right].
      by rewrite E, <- app_assoc.
Qed.

Lemma log_from s es start :
  log_rep (db s) es -> in_u64 start ->
  exists items o es1 es2,
    rdb_iter (db s) CF_LOG (IterFrom (to_vec (u64_to_be_bytes start))) = (items, o) /\
    filter (fun e => start <= seq e) es = es1 ++ es2 /\ seq_sorted (es1 ++ es2) /\
    Forall2 entry_kv es1 items /\ (o = None -> es2 = []).
Proof.
  intros Hl Hst. destruct (rdb_iter _ _ _) as [items o] eqn:E.
  destruct (log_iter _ _ _ _ _ _ Hl Hst (iter_from_start _) E) as (es1 & es2 & Ees & Hf & Ho).
  cbn [scan_entries] in Ees. exists items, o, es1, es2. split_and!; try done.
  rewrite <- Ees. apply StronglySorted_filter. by eapply log_rep_sorted.
Qed.

Lemma seq_range_log s es start end_ :
  log_rep (db s) es -> in_u64 start ->
  seq_range s start end_ = Ok (filter (fun e => start <= seq e < end_) es) \/
  exists e, iter_fails (db s) CF_LOG (IterFrom (to_vec (u64_to_be_bytes start))) e /\
    seq_range s start end_ = Err (RocksDb e).
Proof.
  intros Hr Hst. destruct (log_from s es start Hr Hst) as (items & o & es1 & es2 & E & Ees & Hs & Hf & Ho).
  unfold seq_range, iter_fails. rewrite E.
  destruct (seq_range_loop_spec end_ es2 o items es1 [] Hs Hf Ho) as [Er|(e & -> & Er)].
  - left. rewrite Er, app_nil_l, <- Ees, list_filter_filter. f_equal.
    apply list_filter_iff. intros e. lia.
  - right. eauto.
Qed.

Lemma seq_range_ok s es start end_ :
  db_rep s es -> in_u64 start ->
  seq_range s start end_ = Ok (filter (fun e => start <= seq e < end_) es) \/
  exists e, iter_fails (db s) CF_LOG (IterFrom (to_vec (u64_to_be_bytes start))) e /\
    seq_range s start end_ = Err (RocksDb e).
Proof. intros Hr. apply seq_range_log, Hr. Qed.

(** *** Pages *)

(** The entries of a page request, and the cursor after the one numbered [n]. *)
Definition in_page (start end_ : Z) (e : LogEntry.t) : Prop :=
  start <= seq e /\ (end_ = 0 \/ seq e < end_).
#[global] Instance in_page_dec start end_ e : Decision (in_page start end_ e).
Proof. unfold in_page. apply _. Defined.
Definition cursor_after (end_ n : Z) : Z :=
  if (end_ =? 0) || (n + 1 <? end_) then n + 1 else 0.

Lemma filter_page_nil end_ e es :
  seq_sorted (e :: es) -> end_ <> 0 -> end_ <= seq e ->
  filter (fun e => end_ = 0 \/ seq e < end_) (e :: es) = [].
Proof.
  intros Hs Hne Hle. rewrite <- (filter_below_nil e es end_) by done.
  apply list_filter_iff. intros. lia.
Qed.

Lemma seq_range_paged_loop_spec end_ limit es2 o items : forall es1 acc m,
  seq_sorted (es1 ++ es2) -> Forall (fun e => in_u64 (seq e + 1)) es1 ->
  Forall2 entry_kv es1 items -> (o = None -> es2 = []) ->
  limit = len acc + Z.of_nat (S m) ->
  let F := filter (fun e => end_ = 0 \/ seq e < end_) (es1 ++ es2) in
  seq_range_paged_loop end_ limit items o acc =
    Ret (Ok (acc ++ take (S m) F, from_option (cursor_after end_ ∘ seq) 0 (F !! m))) \/
  exists e, o = Some e /\ seq_range_paged_loop end_ limit items o acc = Ret (Err (RocksDb e)).
Proof.
  induction items as [|[k v] items IH]; intros es1 acc m Hs Hb Hf Ho Hlim; cbn zeta.
  - apply Forall2_nil_inv_r in Hf as ->. cbn. destruct o as [e|]; [right; eauto|left].
    rewrite Ho by done. by rewrite app_nil_r.
  - destruct es1 as [|e es1]; [by inversion Hf|]. apply Forall_cons in Hb as [Hb1 Hb].
    apply entry_kv_cons_inv in Hf as (Ek & _ & Ev & Hf).
    cbn [seq_range_paged_loop fst snd] in *. rewrite Ek, Ev.
    change ((e :: es1) ++ es2) with (e :: (es1 ++ es2)) in *.
    destruct (negb (end_ =? 0) && (end_ <=? seq e)) eqn:Eend; breflect.
    + left. rewrite filter_page_nil by done. by rewrite app_nil_r.
    + rewrite filter_cons_True by (destruct Eend; breflect; lia).
      autorewrite with len. destruct m as [|m].
      * decide_if. left. rewrite u64_add_in by done. done.
      * rewrite (proj2 (Z.leb_gt _ _)) by lia. apply seq_sorted_cons in Hs as [_ Hs].
        destruct (IH es1 (acc ++ [e]) m Hs Hb Hf Ho) as [E|E]; [|left|by right].
        -- autorewrite with len. lia.
        -- rewrite E, <- app_assoc. done.
Qed.

Lemma rep_wf s es : db_rep s es -> Forall entry_wf es.
Proof.
  intros [Hl _ _ _]. apply Forall_lookup. intros i e He.
  destruct (Forall2_lookup_l _ _ _ _ _ Hl He) as (kv & _ & _ & _ & Hw & _). done.
Qed.

Lemma rep_succ s es : db_rep s es -> Forall (fun e => in_u64 (seq e + 1)) es.
Proof.
  intros Hr. pose proof (rep_wf s es Hr) as Hw. destruct Hr as [_ _ Hb Hn].
  eapply Forall_impl; [apply Forall_and; split; [exact Hw|exact Hb]|].
  intros e [[He _] Hlt]. unfold in_u64 in *. lia.
Qed.

Lemma from_succ s es start es1 es2 :
  db_rep s es -> filter (fun e => start <= seq e) es = es1 ++ es2 ->
  Forall (fun e => in_u64 (seq e + 1)) es1.
Proof.
  intros Hr%rep_succ E. apply (Forall_filter _ (fun e => start <= seq e)) in Hr.
  rewrite E in Hr. by apply Forall_app in Hr as [? _].
Qed.

Lemma seq_range_paged_ok s es start end_ limit :
  db_rep s es -> in_u64 start -> 0 < limit ->
  let F := filter (in_page start end_) es in
  seq_range_paged s start end_ limit =
    Ret (Ok (take (Z.to_nat limit) F,
             from_option (cursor_after end_ ∘ seq) 0 (F !! Z.to_nat (limit - 1)))) \/
  exists e, iter_fails (db s) CF_LOG (IterFrom (to_vec (u64_to_be_bytes start))) e /\
    seq_range_paged s start end_ limit = Ret (Err (RocksDb e)).
Proof.
  intros Hr Hst Hlim. cbn zeta. unfold seq_range_paged, iter_fails. decide_if.
  destruct (log_from s es start (rep_log _ _ Hr) Hst) as (items & o & es1 & es2 & E & Ees & Hs & Hf & Ho).
  rewrite E. destruct (seq_range_paged_loop_spec end_ limit es2 o items es1 [] (Z.to_nat (limit - 1))
    Hs (from_succ _ _ _ _ _ Hr Ees) Hf Ho) as [Er|(e & -> & Er)]; [rewrite len_nil; lia| |right; eauto].
  left. rewrite Er, app_nil_l, <- Ees, list_filter_filter.
  replace (S (Z.to_nat (limit - 1))) with (Z.to_nat limit) by lia.
  assert (EF : filter (fun e => (end_ = 0 \/ seq e < end_) /\ start <= seq e) es =
               filter (in_page start end_) es).
  { apply list_filter_iff. intros e. unfold in_page. lia. }
  by rewrite EF.
Qed.

(** *** Entries of a key *)

Lemma entries_by_key_loop_spec key limit es2 o items : forall es1 acc m,
  Forall (fun e => in_u64 (seq e + 1)) es1 ->
  Forall2 entry_kv es1 items -> (o = None -> es2 = []) ->
  limit = len acc + Z.of_nat (S m) ->
  let F := filter (fun e => LogEntry.key e = key) (es1 ++ es2) in
  entries_by_key_loop key limit items o acc =
    Ret (Ok (acc ++ take (S m) F, from_option (fun e => seq e + 1) 0 (F !! m))) \/
  exists e, o = Some e /\ entries_by_key_loop key limit items o acc = Ret (Err (RocksDb e)).
Proof.
  induction items as [|[k v] items IH]; intros es1 acc m Hb Hf Ho Hlim; cbn zeta.
  - apply Forall2_nil_inv_r in Hf as ->. cbn. destruct o as [e|]; [right; eauto|left].
    rewrite Ho by done. by rewrite app_nil_r.
  - destruct es1 as [|e es1]; [by inversion Hf|]. apply Forall_cons in Hb as [Hb1 Hb].
    apply entry_kv_cons_inv in Hf as (Ek & Ev & _ & Hf).
    cbn [entries_by_key_loop fst snd] in *. rewrite Ek, Ev, log_entry_proto_roundtrip.
    change ((e :: es1) ++ es2) with (e :: (es1 ++ es2)). rewrite filter_cons.
    change (LogEntryProto.key (log_entry_to_proto e)) with (LogEntry.key e).
    case_decide; [|by apply IH]. autorewrite with len. destruct m as [|m].
    + decide_if. left. rewrite u64_add_in by done. done.
    + rewrite (proj2 (Z.leb_gt _ _)) by lia.
      destruct (IH es1 (acc ++ [e]) m Hb Hf Ho) as [E|E]; [|left|by right].
      * autorewrite with len. lia.
      * rewrite E, <- app_assoc. done.
Qed.

Lemma entries_by_key_ok s es key from_seq limit :
  db_rep s es -> in_u64 from_seq -> 0 < limit ->
  let F := filter (fun e => LogEntry.key e = key /\ from_seq <= seq e) es in
  entries_by_key s key from_seq limit =
    Ret (Ok (take (Z.to_nat limit) F, from_option (fun e => seq e + 1) 0 (F !! Z.to_nat (limit - 1)))) \/
  exists e, iter_fails (db s) CF_LOG (IterFrom (to_vec (u64_to_be_bytes from_seq))) e /\
    entries_by_key s key from_seq limit = Ret (Err (RocksDb e)).
Proof.
  intros Hr Hst Hlim. cbn zeta. unfold entries_by_key, iter_fails. decide_if.
  destruct (log_from s es from_seq (rep_log _ _ Hr) Hst) as (items & o & es1 & es2 & E & Ees & Hs & Hf & Ho).
  rewrite E. destruct (entries_by_key_loop_spec key limit es2 o items es1 [] (Z.to_nat (limit - 1))
    (from_succ _ _ _ _ _ Hr Ees) Hf Ho) as [Er|(e & -> & Er)]; [rewrite len_nil; lia| |right; eauto].
  left. rewrite Er, app_nil_l, <- Ees, list_filter_filter.
  by replace (S (Z.to_nat (limit - 1))) with (Z.to_nat limit) by lia.
Qed.

(** *** The most recent entries *)

Lemma latest_loop_spec n es2 o items : forall es1 acc m,
  Forall2 entry_kv es1 items -> (o = None -> es2 = []) -> n = len acc + Z.of_nat (S m) ->
  latest_loop n items o acc = Ok (acc ++ take (S m) (es1 ++ es2)) \/
  exists e, o = Some e /\ latest_loop n items o acc = Err (RocksDb e).
Proof.
  induction items as [|[k v] items IH]; intros es1 acc m Hf Ho Hn.
  - apply Forall2_nil_inv_r in Hf as ->. cbn. destruct o as [e|]; [right; eauto|left].
    rewrite Ho by done. by rewrite app_nil_r.
  - destruct es1 as [|e es1]; [by inversion Hf|].
    apply entry_kv_cons_inv in Hf as (_ & _ & Ev & Hf). cbn [latest_loop fst snd] in *.
    rewrite Ev, len_app, len_cons, len_nil. destruct m as [|m].
    + decide_if. by left.
    + rewrite (proj2 (Z.leb_gt _ _)) by lia.
      destruct (IH es1 (acc ++ [e]) m Hf Ho) as [E|E]; [|left|by right].
      * autorewrite with len. lia.
      * rewrite E, <- app_assoc. done.
Qed.

Lemma latest_ok s es n :
  db_rep s es -> 0 <= n ->
  latest s n = Ok (take (Z.to_nat n) (reverse es)) \/
  exists e, iter_fails (db s) CF_LOG IterEnd e /\ latest s n = Err (RocksDb e).
Proof.
  intros [Hl _ _ _] Hn. unfold latest, iter_fails.
  destruct (Z.eqb_spec n 0) as [->|Hne]; [by left|].
  destruct (rdb_iter _ _ _) as [items o] eqn:E.
  destruct (log_iter _ _ IterEnd 0 _ _ Hl ltac:(done) ltac:(done) E) as (es1 & es2 & Ees & Hf & Ho).
  cbn [scan_entries] in Ees.
  destruct (latest_loop_spec n es2 o items es1 [] (Z.to_nat (n - 1)) Hf Ho) as [Er|(e & -> & Er)];
    [rewrite len_nil; lia|left|right; eauto].
  rewrite Er, app_nil_l, <- Ees. by replace (S (Z.to_nat (n - 1))) with (Z.to_nat n) by lia.
Qed.

(** *** Point lookups *)

Lemma get_by_seq_ok s es n :
  db_rep s es -> in_u64 n ->
  (exists o, get_by_seq s n = Ok o /\
     forall e, o = Some e <-> e ∈ es /\ seq e = n) \/
  exists e, rdb_get (db s) CF_LOG (to_vec (u64_to_be_bytes n)) = Err e /\
    get_by_seq s n = Err (RocksDb e).
Proof.
  intros [Hl _ _ _] Hn. unfold get_by_seq. destruct (rdb_get _ _ _) as [o|e] eqn:E; [|right; eauto].
  left. pose proof (log_get _ _ _ _ Hl Hn E) as Hg. destruct o as [v|].
  - destruct Hg as (e & He & Hseq & Hkv). apply decode_entry_kv in Hkv. cbn in Hkv. rewrite Hkv.
    exists (Some e). split; [done|]. intros e'. split; [intros [= ->]; done|].
    intros [He' Hseq']. f_equal. eapply (seq_unique es); [by eapply log_rep_sorted|done|done|lia].
  - exists None. split; [done|]. intros e. split; [done|]. intros [He Hseq]. by apply Hg in He.
Qed.
End Reads.

#[export] Hint Resolve rep_frame : frame.
