(* ===== verification/LogTheorems.v ===== *)
(** * What the log store promises

    The properties of [LogStore] the server relies on: reads return exactly the
    represented entries, cursors neither skip nor repeat an entry, reopening
    recovers the counter, and a failed append leaves a gap. *)

From S2P Require Import Prelude Bytes Hash Sth Rocksdb StorageTypes Db LogStore.

Section LogTheorems.
Context `{Sha256} {R : Rocksdb} {P : Prost} {RL : RocksdbLaws} {PL : ProstLaws} `{Profile}.
Abbreviation seq := LogEntry.seq.

(** ** Pages *)

Lemma filter_after F1 e F2 :
  seq_sorted (F1 ++ e :: F2) -> filter (fun x => seq e + 1 <= seq x) (F1 ++ e :: F2) = F2.
Proof.
  intros Hs. rewrite filter_app, filter_cons_False by lia.
  apply StronglySorted_app in Hs as (H1 & _ & [H2 _]%seq_sorted_cons).
  assert (E1 : filter (fun x => seq e + 1 <= seq x) F1 = []).
  { apply filter_none, Forall_forall. intros x Hx.
    specialize (H1 x e Hx ltac:(left)). cbn in H1. lia. }
  rewrite E1, app_nil_l. apply filter_all. eapply Forall_impl; [exact H2|]. cbn. lia.
Qed.

(** A page and its cursor split the requested range. *)
Lemma page_split es start end_ n c :
  seq_sorted es -> Forall entry_wf es -> 0 <= end_ ->
  let F := filter (in_page start end_) es in
  c = from_option (cursor_after end_ ∘ seq) 0 (F !! n) ->
  (c = 0 -> take (S n) F = F) /\
  (c <> 0 -> start < c /\ filter (in_page c end_) es = drop (S n) F).
Proof.
  intros Hs Hw Hend F Hc. assert (HsF : seq_sorted F) by by apply StronglySorted_filter.
  destruct (F !! n) as [e|] eqn:Ee; cbn in Hc.
  2:{ split; [|done]. intros _. apply lookup_ge_None in Ee. by rewrite take_ge by lia. }
  pose proof (take_drop_middle F n e Ee) as EF.
  assert (He : e ∈ es /\ in_page start end_ e).
  { apply list_elem_of_lookup_2, list_elem_of_filter in Ee. naive_solver. }
  destruct He as [He [Hst Hlt]]. rewrite Forall_forall in Hw. destruct (Hw e He) as [[Hpos _] _].
  assert (Hafter : filter (fun x => seq e + 1 <= seq x) F = drop (S n) F).
  { rewrite <- EF at 1. rewrite filter_after; [done|]. by rewrite EF. }
  unfold cursor_after in Hc.
  destruct ((end_ =? 0) || (seq e + 1 <? end_)) eqn:Eb; split; intros Hz; try lia.
  - split; [lia|]. rewrite <- Hafter. unfold F. rewrite list_filter_filter. subst c.
    apply list_filter_iff. intros x. unfold in_page. lia.
  - breflect. assert (drop (S n) F = []) as Hd.
    { rewrite <- Hafter. unfold F. rewrite list_filter_filter.
      apply filter_none, Forall_forall. intros x _. unfold in_page. lia. }
    rewrite <- (take_drop (S n) F) at 2. by rewrite Hd, app_nil_r.
Qed.

(** ** Gap-free logs *)

Lemma gap_free_snoc s s' es e :
  gap_free s es -> seq e = next_seq s -> next_seq s' = next_seq s + 1 -> gap_free s' (es ++ [e]).
Proof.
  intros [Hs Hn] He Hn'. unfold gap_free. rewrite fmap_app, len_app, len_cons.
  change (len (@nil LogEntry.t)) with 0. pose proof (len_nonneg es). split; [|lia]. rewrite seqZ_app by lia.
  rewrite Hs. f_equal. cbn. by rewrite He, Hn.
Qed.

Lemma gap_free_batch s s' es ts entries :
  gap_free s es -> next_seq s' = next_seq s + len entries ->
  gap_free s' (es ++ batch_entries (next_seq s) ts entries).
Proof.
  intros [Hs Hn] Hn'. unfold gap_free. rewrite fmap_app, len_app.
  assert (El : len (batch_entries (next_seq s) ts entries) = len entries)
    by (unfold len; by rewrite length_batch_entries).
  split; [|lia]. rewrite seqZ_app by apply len_nonneg. rewrite Hs, batch_entries_seq.
  by rewrite El, Hn.
Qed.

Lemma gap_free_take s es n :
  gap_free s es -> 0 <= n -> filter (fun e => 0 <= seq e < n) es = take (Z.to_nat n) es.
Proof.
  intros [Hs _] Hn. revert Hs. induction es as [|e es IH] using rev_ind; [by rewrite take_nil|].
  rewrite fmap_app, len_app, len_cons. change (len (@nil LogEntry.t)) with 0. pose proof (len_nonneg es).
  rewrite seqZ_app by lia. intros [Hs He]%app_inj_len; [|by rewrite length_seqZ, length_fmap; unfold len; lia].
  injection He as He. rewrite filter_app, IH by done. rewrite filter_cons, filter_nil.
  unfold len in *. destruct (decide (0 <= seq e < n)).
  - rewrite (take_ge es), take_ge; [done|rewrite length_app; cbn; lia|lia].
  - rewrite take_app_le by lia. by rewrite app_nil_r.
Qed.

Lemma gap_free_lookup s es i e : gap_free s es -> es !! i = Some e -> seq e = Z.of_nat i.
Proof.
  intros [Hs _] He. assert (Hi : (seq <$> es) !! i = Some (seq e)) by by rewrite list_lookup_fmap, He.
  rewrite Hs in Hi. apply lookup_seqZ in Hi. lia.
Qed.

Lemma get_seq_by_key_ok s es k :
  db_rep s es ->
  get_seq_by_key s k = Ok (seq <$> last (filter (fun e => LogEntry.key e = k) es)) \/
  exists e, rdb_get (db s) CF_INDEX k = Err e /\ get_seq_by_key s k = Err (RocksDb e).
Proof.
  intros Hr. pose proof (rep_wf s es Hr) as Hw. destruct Hr as [_ Hi _ _].
  unfold get_seq_by_key. destruct (rdb_get _ _ _) as [o|e] eqn:E; [left|right; eauto].
  apply rdb_get_ok in E. subst o. rewrite Hi. destruct (last _) as [e|] eqn:El; cbn; [|done].
  rewrite array_try_from_to_vec, u64_be_roundtrip; [done|].
  apply last_Some_elem_of, list_elem_of_filter in El as [_ El].
  rewrite Forall_forall in Hw. by destruct (Hw e El) as [? _].
Qed.

(** ** Reopening *)

Lemma initial_next_seq_ok s es :
  db_rep s es ->
  initial_next_seq (db s) = Ret (Ok (from_option (fun e => seq e + 1) 0 (last es))) \/
  exists e, iter_fails (db s) CF_LOG IterEnd e /\ initial_next_seq (db s) = Ret (Err (RocksDb e)).
Proof.
  intros Hr. pose proof (rep_succ s es Hr) as Hsucc. destruct Hr as [Hl _ _ _].
  unfold initial_next_seq, iter_fails. destruct (rdb_iter _ _ _) as [items o] eqn:E.
  pose proof (iter_last _ _ _ _ _ _ Hl E) as Hlast. destruct items as [|[k v] items].
  - destruct o as [e|]; [right; eauto|left]. by rewrite Hlast.
  - left. destruct Hlast as (e & Ee & Hkv). pose proof (entry_kv_seq _ _ Hkv) as Ek. cbn in Ek.
    rewrite Ek, Ee. cbn. apply last_Some_elem_of in Ee. rewrite Forall_forall in Hsucc.
    by rewrite u64_add_in by by apply Hsucc.
Qed.

(** [check_schema] fails only for one of these reasons. *)
Definition schema_error (d : rdb) (e : Error) : Prop :=
  match e with
  | RocksDb x => rdb_get d CF_DEFAULT SCHEMA_VERSION_KEY = Err x \/
      exists d', rdb_put d CF_DEFAULT SCHEMA_VERSION_KEY
                   (to_vec (u32_to_be_bytes CURRENT_SCHEMA_VERSION)) = (d', Err x)
  | Corruption _ => exists v, kv_get (contents d CF_DEFAULT) SCHEMA_VERSION_KEY = Some v /\
      length v <> 4%nat
  | SchemaMismatch found supported => exists a,
      kv_get (contents d CF_DEFAULT) SCHEMA_VERSION_KEY = Some (to_vec a) /\
      found = u32_from_be_bytes a /\ supported = CURRENT_SCHEMA_VERSION /\ supported < found
  | _ => False
  end.

Lemma check_schema_ok d d' r :
  check_schema d = (d', r) ->
  (forall c, c <> CF_DEFAULT -> contents d' c = contents d c) /\
  forall e, r = Err e -> schema_error d e.
Proof.
  unfold check_schema. destruct (rdb_get _ _ _) as [[v|]|e] eqn:E.
  - pose proof (rdb_get_ok _ _ _ _ E) as Hg.
    destruct (array_try_from 4 v) as [a|] eqn:Ea.
    + apply array_try_from_Some in Ea as ->. rewrite Z.gtb_ltb.
      destruct (Z.ltb_spec CURRENT_SCHEMA_VERSION (u32_from_be_bytes a)); intros [= <- <-];
        (split; [done|]); intros e [= <-]. by exists a.
    + apply array_try_from_None in Ea. intros [= <- <-]. split; [done|]. intros e [= <-]. by exists v.
  - destruct (rdb_put _ _ _ _) as [d1 [u|x]] eqn:Ep; intros [= <- <-].
    + destruct u. split; [|done]. intros c Hc. rewrite (rdb_put_ok _ _ _ _ _ _ Ep). cbn.
      by rewrite decide_False.
    + split; [|intros e [= <-]; right; eauto]. intros c Hc. by rewrite (rdb_put_err _ _ _ _ _ _ _ Ep).
  - intros [= <- <-]. split; [done|]. intros e' [= <-]. by left.
Qed.

Lemma rep_transport s d es n :
  db_rep s es -> (forall c, c <> CF_DEFAULT -> contents d c = contents (db s) c) ->
  Forall (fun e => seq e < n) es -> in_u64 n -> db_rep {| db := d; next_seq := n |} es.
Proof.
  intros [Hl Hi _ _] Hc Hb Hn. split; cbn; [| |done|done].
  - unfold log_rep. by rewrite Hc.
  - unfold idx_rep. by rewrite Hc.
Qed.

Lemma sorted_below_last es :
  seq_sorted es -> Forall (fun e => seq e < from_option (fun e => seq e + 1) 0 (last es)) es.
Proof.
  induction es as [|e es _] using rev_ind; [by constructor|]. rewrite last_snoc. cbn.
  intros (Hlt & _)%StronglySorted_app. apply Forall_app. split.
  - apply Forall_forall. intros x Hx. specialize (Hlt x e Hx ltac:(left)). cbn in Hlt. lia.
  - constructor; [lia|constructor].
Qed.


Lemma reopen_spec s es :
  db_rep s es ->
  exists r, open (Ok (db s)) = Ret r /\
    match r with
    | Ok s' => db_rep s' es /\ next_seq s' = from_option (fun e => seq e + 1) 0 (last es) /\
        (forall c, c <> CF_DEFAULT -> contents (db s') c = contents (db s) c) /\
        (seq <$> es = seqZ 0 (len es) -> gap_free s' es)
    | Err e => schema_error (db s) e \/
        exists x, iter_fails (check_schema (db s)).1 CF_LOG IterEnd x /\ e = RocksDb x
    end.
Proof.
  intros Hr. unfold open. destruct (check_schema (db s)) as [d r] eqn:Ec. cbn [fst].
  apply check_schema_ok in Ec as [Hc He]. destruct r as [u|e].
  2:{ exists (Err e). split; [done|]. left. by apply He. }
  set (s1 := {| db := d; next_seq := next_seq s |}).
  assert (Hr1 : db_rep s1 es) by (apply rep_transport with s; [done|done|apply Hr|apply Hr]).
  destruct (initial_next_seq_ok s1 es Hr1) as [En|(x & Hx & En)]; cbn [db s1] in En; rewrite En; cbn.
  - eexists. split; [done|]. cbn. set (n := from_option _ _ _).
    assert (Hn : in_u64 n).
    { pose proof (rep_succ s es Hr) as Hs. unfold n.
      destruct (last es) as [e|] eqn:El; [|done]. apply last_Some_elem_of in El.
      rewrite Forall_forall in Hs. by apply Hs in El. }
    split; [|split; [done|split; [done|]]].
    + apply rep_transport with s; [done|done| |done]. apply sorted_below_last. by eapply log_rep_sorted, Hr.
    + intros Hseq. split; [done|]. cbn. unfold n. clear - Hseq d.
      induction es as [|e es _] using rev_ind; [done|]. rewrite last_snoc. cbn.
      assert (Hg : gap_free {| db := d; next_seq := len (es ++ [e]) |} (es ++ [e])) by done.
      rewrite (gap_free_lookup _ _ (length es) e Hg); [|by rewrite list_lookup_middle].
      unfold len. rewrite length_app. cbn. lia.
  - eexists. split; [done|]. cbn. right. eauto.
Qed.

(** ** Properties *)

(** Reopening recovers the log.  [Db::open] on the database of a running
    store, whatever its in-memory counter was, never panics; when it succeeds the stored
    entries are the same and the counter is one past the last of them (so a
    number lost to a failed last append is used again, and a gap-free log reopens
    gap-free); when it fails, a RocksDB call failed or the stored schema version is
    malformed or newer than this binary supports. *)
Theorem reopen_recovers (s : DbInner) (es : list LogEntry.t) (Hr : db_rep s es) :
  exists r, open (Ok (db s)) = Ret r /\
    match r with
    | Ok s' => db_rep s' es /\ next_seq s' = from_option (fun e => seq e + 1) 0 (last es) /\
        (forall c, c <> CF_DEFAULT -> contents (db s') c = contents (db s) c) /\
        (seq <$> es = seqZ 0 (len es) -> gap_free s' es)
    | Err e => schema_error (db s) e \/
        exists x, iter_fails (check_schema (db s)).1 CF_LOG IterEnd x /\ e = RocksDb x
    end.
Proof. by apply reopen_spec. Qed.

(** C27: range reads are exact.  [seq_range(start, end)] returns the entries
    numbered in [\[start, end)], and [latest(n)] the last [n] entries, newest first.
    [seq_range_paged(start, end, n)] returns, without panicking, the first [n] entries numbered in
    [\[start, end)], where an [end] of 0 is no bound, and as cursor the number after the last entry of a full page,
    or 0 if the page is not full or that number is not below a bound; with a limit of 0 it returns the
    empty page and 0.  The only other result of each is the error the iterator ended with. *)
Theorem range_reads (s : DbInner) (es : list LogEntry.t) (start end_ n : Z)
    (Hr : db_rep s es) (Hst : in_u64 start) (Hn : 0 <= n) :
  (seq_range s start end_ = Ok (filter (fun e => start <= seq e < end_) es) \/
   exists e, iter_fails (db s) CF_LOG (IterFrom (to_vec (u64_to_be_bytes start))) e /\
     seq_range s start end_ = Err (RocksDb e)) /\
  (latest s n = Ok (take (Z.to_nat n) (reverse es)) \/
   exists e, iter_fails (db s) CF_LOG IterEnd e /\ latest s n = Err (RocksDb e)) /\
  (let F := filter (in_page start end_) es in
   seq_range_paged s start end_ n =
     Ret (Ok (take (Z.to_nat n) F, if n =? 0 then 0 else
       match F !! Z.to_nat (n - 1) with
       | Some e => if (end_ =? 0) || (seq e + 1 <? end_) then seq e + 1 else 0
       | None => 0
       end)) \/
   exists e, iter_fails (db s) CF_LOG (IterFrom (to_vec (u64_to_be_bytes start))) e /\
     seq_range_paged s start end_ n = Ret (Err (RocksDb e))).
Proof.
  split; [by apply seq_range_ok|]. split; [by apply latest_ok|]. cbn zeta.
  destruct (Z.eqb_spec n 0) as [->|Hz]; [by left|].
  destruct (seq_range_paged_ok s es start end_ n Hr Hst ltac:(lia)) as [E|(e & He & E)]; [left|eauto].
  rewrite E. by destruct (filter (in_page start end_) es !! _).
Qed.

(** A key page is exact.  [entries_by_key(key, from, limit)] returns the
    first [limit] entries with that key numbered [from] or above, in log order, and the
    cursor is one past the last of a full page, 0 otherwise; it never panics. *)
Theorem key_page (s : DbInner) (es : list LogEntry.t) (key : bytes) (from_seq limit : Z)
    (Hr : db_rep s es) (Hst : in_u64 from_seq) (Hlim : 0 < limit) :
  let F := filter (fun e => LogEntry.key e = key /\ from_seq <= seq e) es in
  entries_by_key s key from_seq limit =
    Ret (Ok (take (Z.to_nat limit) F, from_option (fun e => seq e + 1) 0 (F !! Z.to_nat (limit - 1)))) \/
  exists e, iter_fails (db s) CF_LOG (IterFrom (to_vec (u64_to_be_bytes from_seq))) e /\
    entries_by_key s key from_seq limit = Ret (Err (RocksDb e)).
Proof. by apply entries_by_key_ok. Qed.

(** C29: an appended entry is found.  After a successful [append], a point lookup by
    the returned number yields exactly the entry that was stored, the index
    maps the key to that number, and every other number is looked up as before
    (a RocksDB read error aside); a gap-free log stays gap-free. *)
Theorem append_lookup (s s' : DbInner) (es : list LogEntry.t) (now n ts : Z) (key data : bytes)
    (Hr : db_rep s es) (Hroom : next_seq s + 1 < two64) (Hnow : 0 <= now)
    (Hok : pair_ok (key, data)) (Happ : append s now key data = Ret (s', Ok (n, ts))) :
  read_as (get_by_seq s' n) (fun e => rdb_get (db s') CF_LOG (to_vec (u64_to_be_bytes n)) = Err e)
    (Some (new_entry n ts key data)) /\
  read_as (get_seq_by_key s' key) (fun e => rdb_get (db s') CF_INDEX key = Err e) (Some n) /\
  (forall m o o', in_u64 m -> m <> n -> get_by_seq s m = Ok o -> get_by_seq s' m = Ok o' -> o = o') /\
  (gap_free s es -> gap_free s' (es ++ [new_entry n ts key data])).
Proof.
  destruct (append_spec s es now key data Hr Hroom Hnow Hok) as (s1 & r & E & Hn & _ & Hr').
  rewrite E in Happ. injection Happ as -> ->. destruct Hr' as (-> & -> & Hr').
  set (e := new_entry _ _ _ _) in *. assert (Hin : in_u64 (next_seq s)) by apply Hr.
  split_and!.
  - destruct (get_by_seq_ok s' _ (next_seq s) Hr' Hin) as [(o & Eo & Hspec)|(x & Hx & Ex)];
      [left|right; eauto]. rewrite Eo. f_equal. apply Hspec. split; [|done].
    apply elem_of_app. right. left.
  - destruct (get_seq_by_key_ok s' _ key Hr') as [E'|(x & Hx & Ex)]; [left|right; eauto].
    rewrite E', filter_app, filter_cons_True, filter_nil, last_snoc by done. done.
  - intros m o o' Hm Hne Ho Ho'.
    destruct (get_by_seq_ok s es m Hr Hm) as [(x & Ex & Hx)|(x & _ & Ex)]; [|congruence].
    destruct (get_by_seq_ok s' _ m Hr' Hm) as [(y & Ey & Hy)|(y & _ & Ey)]; [|congruence].
    assert (o = x) as -> by congruence. assert (o' = y) as -> by congruence.
    apply option_eq. intros z. rewrite Hx, Hy, elem_of_app, list_elem_of_singleton.
    split; [naive_solver|]. intros [[?| ->] Hz]; [done|]. by destruct Hne.
  - intros Hg. by eapply gap_free_snoc.
Qed.

(** A failed append leaves a permanent gap.  When [append] returns an error
    on a gap-free log and the next append succeeds, the number in between is
    never stored, and [count], documented as the number of entries durably
    stored, exceeds it by one. *)
Theorem failed_append_gap (s s1 s2 : DbInner) (es : list LogEntry.t) (now1 now2 n ts : Z)
    (k1 d1 k2 d2 : bytes) (err : Error)
    (Hr : db_rep s es) (Hg : gap_free s es) (Hroom : next_seq s + 2 < two64)
    (Hnow1 : 0 <= now1) (Hnow2 : 0 <= now2) (Hok1 : pair_ok (k1, d1)) (Hok2 : pair_ok (k2, d2))
    (H1 : append s now1 k1 d1 = Ret (s1, Err err))
    (H2 : append s1 now2 k2 d2 = Ret (s2, Ok (n, ts))) :
  let es' := es ++ [new_entry n ts k2 d2] in
  db_rep s2 es' /\ n = len es + 1 /\ Forall (fun e => seq e <> len es) es' /\
  count s2 = len es' + 1.
Proof.
  destruct (append_spec s es now1 k1 d1) as (s1' & r1 & E1 & Hn1 & _ & Hr1); [done|lia|done|done|].
  rewrite H1 in E1. injection E1 as <- <-. apply proj1 in Hr1.
  destruct (append_spec s1 es now2 k2 d2) as (s2' & r2 & E2 & Hn2 & _ & Hr2); [done|lia|done|done|].
  rewrite H2 in E2. injection E2 as <- <-. destruct Hr2 as (-> & -> & Hr2).
  pose proof Hg as [Hseq Hnext]. cbn zeta. split; [done|]. split; [lia|]. split.
  - apply Forall_app. split; [|constructor; [cbn; lia|constructor]].
    apply Forall_lookup. intros i e He. pose proof (lookup_lt_Some _ _ _ He).
    rewrite (gap_free_lookup s es i e) by done. unfold len. lia.
  - unfold count. autorewrite with len. lia.
Qed.
End LogTheorems.
