(* ===== verification/TreeStore.v ===== *)
(** * The tree store (crates/settled-storage/src/tree_store.rs)

    The persisted Merkle nodes, one per complete subtree, and their recomputation
    from the log.  [compute_nodes_from_leaves] is shown to produce exactly the
    roots of the complete subtrees of the log. *)

From Stdlib Require String.
From stdpp Require Import gmap.
From S2P Require Import Prelude Bytes Hash MerkleSpec Merkle Sth Rocksdb StorageTypes Db LogStore LogTheorems.
Import String.StringSyntax.

Notation node := (Z * Z * hash32)%type.
Abbreviation node_cache := (gmap (Z * Z) hash32).

(** ** Operations *)

Definition tree_key_buf (level index : Z) : bytes :=
  let key := replicate 16 Init.Byte.x00 in
  let key := copy_from_slice key 0 (to_vec (u64_to_be_bytes level)) in
  copy_from_slice key 8 (to_vec (u64_to_be_bytes index)).

Lemma tree_key_ok level index : Is_true (Nat.eqb (length (tree_key_buf level index)) 16).
Proof.
  apply Is_true_eq_left, Nat.eqb_eq. unfold tree_key_buf, copy_from_slice.
  repeat rewrite ?length_app, ?length_take, ?length_drop, ?length_replicate, ?array_length. lia.
Qed.
Definition tree_key (level index : Z) : array 16 := Array _ (tree_key_ok level index).

Section Operations.
Context `{Sha256} `{Rocksdb} `{Prost} `{Profile}.

Definition node_op (n : node) : batch_op :=
  let '(level, index, hash) := n in PutCf CF_TREE (to_vec (tree_key level index)) (to_vec hash).

Definition write_batch (s : DbInner) (nodes : list node) : DbInner * result unit Error :=
  write_then s (node_op <$> nodes) tt.

Definition get_node (s : DbInner) (level index : Z) : result (option hash32) Error :=
  match rdb_get (db s) CF_TREE (to_vec (tree_key level index)) with
  | Err e => Err (RocksDb e)
  | Ok None => Ok None
  | Ok (Some v) =>
      match array_try_from 32 v with
      | None => Err (Corruption "tree node value must be 32 bytes"%str)
      | Some hash => Ok (Some hash)
      end
  end.

(** The [while] loop: the parents completed by leaf [j], from level [h] up.
    [cache[&k]] panics on a missing key. *)
Fixpoint parents_loop (fuel : nat) (j h : Z) (cache : node_cache) (nodes : list node)
  : outcome (node_cache * list node) :=
  match fuel with
  | O => OutOfFuel
  | S fuel =>
      let! complete :=
        if h <? 63 then
          let! j1 := u64_add j 1 in
          let! m := u64_shl 1 h in
          Ret (j1 mod m =? 0)
        else Ret false in
      if complete then
        let idx := Z.shiftr j h in
        let! h1 := u64_sub h 1 in
        let! i2 := u64_mul 2 idx in
        let! left_ := unwrap (cache !! (h1, i2)) in
        let! i2' := u64_add i2 1 in
        let! right_ := unwrap (cache !! (h1, i2')) in
        let parent := node_hash left_ right_ in
        parents_loop fuel j (h + 1) (<[(h, idx) := parent]> cache) (nodes ++ [(h, idx, parent)])
      else Ret (cache, nodes)
  end.

Fixpoint leaves_loop (leaves : list (Z * hash32)) (cache : node_cache) (nodes : list node)
  : outcome (list node) :=
  match leaves with
  | [] => Ret nodes
  | (j, hash) :: leaves =>
      let! r := parents_loop 64 j 1 (<[(0, j) := hash]> cache) (nodes ++ [(0, j, hash)]) in
      let '(cache, nodes) := r in
      leaves_loop leaves cache nodes
  end.

Definition compute_nodes_from_leaves (leaves : list (Z * hash32)) : outcome (list node) :=
  leaves_loop leaves ∅ [].

(** The tree and the log store share one [DbInner]. *)
Definition rebuild_from_log (s : DbInner) : outcome (DbInner * result unit Error) :=
  (* an iterator error only ends the list of keys *)
  let keys := (rdb_iter (db s) CF_TREE IterStart).1.*1 in
  let '(s, r) :=
    if len keys =? 0 then (s, Ok tt) else write_then s (DeleteCf CF_TREE <$> keys) tt in
  match r with
  | Err e => Ret (s, Err e)
  | Ok _ =>
      match seq_range s 0 (two64 - 1) with
      | Err e => Ret (s, Err e)
      | Ok entries =>
          let! nodes := compute_nodes_from_leaves
            ((fun e => (LogEntry.seq e, LogEntry.leaf_hash e)) <$> entries) in
          Ret (write_batch s nodes)
      end
  end.
End Operations.

(** ** Complete subtrees *)

Section Subtrees.
Context `{Sha256}.

(** The [n] leaves from position [a]. *)
Definition slice (L : list hash32) (a n : Z) : list hash32 :=
  take (Z.to_nat n) (drop (Z.to_nat a) L).

(** Root of the complete subtree at level [h], index [i]: leaves
    [\[i * 2^h, (i + 1) * 2^h)]. *)
Fixpoint subtree (L : list hash32) (h : nat) (i : Z) : option hash32 :=
  match h with
  | O => if 0 <=? i then L !! Z.to_nat i else None
  | S h =>
      match subtree L h (2 * i), subtree L h (2 * i + 1) with
      | Some l, Some r => Some (node_hash l r)
      | _, _ => None
      end
  end.

Lemma slice_app L a n m :
  0 <= a -> 0 <= n -> 0 <= m -> slice L a n ++ slice L (a + n) m = slice L a (n + m).
Proof.
  intros. unfold slice. rewrite !Z2Nat.inj_add, <- drop_drop by lia.
  by rewrite take_take_drop.
Qed.

Lemma pow2_S h : 2 ^ Z.of_nat (S h) = 2 * 2 ^ Z.of_nat h.
Proof. rewrite Nat2Z.inj_succ, Z.pow_succ_r by lia. done. Qed.

Lemma subtree_is_Some L h i :
  0 <= i -> is_Some (subtree L h i) <-> (i + 1) * 2 ^ Z.of_nat h <= len L.
Proof.
  revert i. induction h as [|h IH]; intros i Hi; cbn [subtree].
  - rewrite (proj2 (Z.leb_le _ _)) by lia. rewrite lookup_lt_is_Some. unfold len. cbn. lia.
  - rewrite pow2_S. pose proof (pow2_pos (Z.of_nat h) ltac:(lia)).
    transitivity (is_Some (subtree L h (2 * i)) /\ is_Some (subtree L h (2 * i + 1))).
    + destruct (subtree L h (2 * i)), (subtree L h (2 * i + 1)); rewrite <- ?not_eq_None_Some; naive_solver.
    + rewrite (IH (2 * i)), (IH (2 * i + 1)) by lia. nia.
Qed.

Lemma subtree_tree L h i x :
  0 <= i -> subtree L h i = Some x ->
  exists T, leaves T = slice L (i * 2 ^ Z.of_nat h) (2 ^ Z.of_nat h) /\ rfc_shape T /\
    tsize T = 2 ^ Z.of_nat h /\ troot T = x.
Proof.
  revert i x. induction h as [|h IH]; intros i x Hi; cbn [subtree].
  - rewrite (proj2 (Z.leb_le _ _)) by lia. intros E. exists (Leaf x). split_and!; try done.
    unfold slice. change (2 ^ Z.of_nat 0) with 1. rewrite Z.mul_1_r. cbn.
    by rewrite (drop_S L x).
  - destruct (subtree L h (2 * i)) as [l|] eqn:El; [|done].
    destruct (subtree L h (2 * i + 1)) as [r|] eqn:Er; [|done]. intros [= <-].
    destruct (IH (2 * i) l ltac:(lia) El) as (Tl & Ll & Sl & Nl & Rl).
    destruct (IH (2 * i + 1) r ltac:(lia) Er) as (Tr & Lr & Sr & Nr & Rr).
    pose proof (pow2_pos (Z.of_nat h) ltac:(lia)). rewrite pow2_S.
    exists (Node Tl Tr). cbn [leaves rfc_shape troot]. rewrite tsize_Node, Rl, Rr.
    split; [|split; [split; [exists (Z.of_nat h); lia|done]|split; [lia|done]]].
    rewrite Ll, Lr. replace ((2 * i + 1) * 2 ^ Z.of_nat h) with (2 * i * 2 ^ Z.of_nat h + 2 ^ Z.of_nat h) by lia.
    rewrite slice_app by nia. f_equal; lia.
Qed.
End Subtrees.

(** ** [compute_nodes_from_leaves] *)

Section Compute.
Context `{Sha256} `{Profile}.
Variable L : list hash32.

(** While leaf [j] is processed, levels below [h] hold the subtrees of the
    first [j + 1] leaves and the others those of the first [j]. *)
Definition cache_ok (h j : Z) (cache : node_cache) : Prop :=
  forall h' i, cache !! (h', i) =
    if decide (0 <= h' < 63 /\ 0 <= i /\ (i + 1) * 2 ^ h' <= (if h' <? h then j + 1 else j))
    then subtree L (Z.to_nat h') i else None.
Definition nodes_ok (nodes : list node) (cache : node_cache) : Prop :=
  forall h i x, (h, i, x) ∈ nodes <-> cache !! (h, i) = Some x.

Lemma nodes_ok_insert nodes cache h i x :
  nodes_ok nodes cache -> cache !! (h, i) = None ->
  nodes_ok (nodes ++ [(h, i, x)]) (<[(h, i) := x]> cache).
Proof.
  intros Hn Hc h' i' x'. rewrite elem_of_app, list_elem_of_singleton, lookup_insert_Some, (Hn h' i' x').
  split.
  - intros [E|[= -> -> ->]]; [right; split; [congruence|done]|by left].
  - intros [[[= -> ->] ->]|[_ E]]; [by right|by left].
Qed.

Lemma subtree_in h i j :
  0 <= h -> 0 <= i -> (i + 1) * 2 ^ h <= j -> j <= len L -> is_Some (subtree L (Z.to_nat h) i).
Proof. intros. apply subtree_is_Some; [done|]. rewrite Z2Nat.id by done. lia. Qed.

(** A level-[h] parent is completed exactly when [2^h] divides [j + 1]. *)
Lemma parent_index j h :
  0 <= j -> 0 <= h -> (j + 1) mod 2 ^ h = 0 -> (Z.shiftr j h + 1) * 2 ^ h = j + 1 /\ 0 <= Z.shiftr j h.
Proof.
  intros Hj Hh Hm. pose proof (pow2_pos h Hh). rewrite Z.shiftr_div_pow2 by done.
  apply Z.mod_divide in Hm as [q Hq]; [|lia].
  assert (E : j / 2 ^ h = q - 1) by (symmetry; apply (Z.div_unique j _ _ (2 ^ h - 1)); nia).
  rewrite E. split; [lia|]. nia.
Qed.

Lemma no_parent j h h' i :
  0 <= h <= h' -> (j + 1) mod 2 ^ h <> 0 -> (i + 1) * 2 ^ h' <> j + 1.
Proof.
  intros Hh Hm E. apply Hm. rewrite <- E. replace h' with ((h' - h) + h) by lia.
  rewrite Z.pow_add_r, Z.mul_assoc by lia. apply Z.mod_mul. pose proof (pow2_pos h ltac:(lia)). lia.
Qed.

Lemma cache_ok_done j h cache :
  cache_ok h j cache -> 0 <= h -> (h = 63 \/ (j + 1) mod 2 ^ h <> 0) -> cache_ok 0 (j + 1) cache.
Proof.
  intros Hc Hh Hd h' i. rewrite Hc. destruct (Z.ltb_spec h' h).
  - apply decide_ext. destruct (Z.ltb_spec h' 0); lia.
  - apply decide_ext. destruct (Z.ltb_spec h' 0); [lia|]. destruct Hd as [->|Hd]; [lia|].
    pose proof (no_parent j h h' i ltac:(lia) Hd). lia.
Qed.

Lemma cache_ok_insert j h i x cache :
  cache_ok h j cache -> 0 <= h < 63 -> 0 <= i -> (i + 1) * 2 ^ h = j + 1 ->
  subtree L (Z.to_nat h) i = Some x -> cache_ok (h + 1) j (<[(h, i) := x]> cache).
Proof.
  intros Hc Hh Hi E Hx h' i'. rewrite lookup_insert. case_decide as Ek.
  - injection Ek as <- <-. rewrite (proj2 (Z.ltb_lt h (h + 1))), decide_True by lia. done.
  - rewrite Hc. apply decide_ext. destruct (Z.ltb_spec h' h), (Z.ltb_spec h' (h + 1)); try lia.
    replace h' with h in * by lia. pose proof (pow2_pos h ltac:(lia)).
    assert (i <> i') by congruence. split; [lia|]. intros (? & ? & Hle). split; [lia|]. split; [lia|nia].
Qed.

Lemma parents_loop_spec j fuel : forall h cache nodes,
  0 <= j -> j + 1 <= len L -> j + 1 < two64 -> 1 <= h <= 63 -> 64 - h <= Z.of_nat fuel ->
  cache_ok h j cache -> nodes_ok nodes cache ->
  exists cache' nodes', parents_loop fuel j h cache nodes = Ret (cache', nodes') /\
    cache_ok 0 (j + 1) cache' /\ nodes_ok nodes' cache'.
Proof.
  induction fuel as [|fuel IH]; intros h cache nodes Hj HL Hw Hh Hf Hc Hn; [lia|]. cbn [parents_loop].
  destruct (Z.ltb_spec h 63) as [Hlt|Hge].
  2:{ exists cache, nodes. split; [done|]. split; [|done]. eapply cache_ok_done; [done|lia|lia]. }
  rewrite u64_add_in by (unfold in_u64; lia). rewrite shl_one by lia. cbn [obind].
  destruct (Z.eqb_spec ((j + 1) mod 2 ^ h) 0) as [Hm|Hm].
  2:{ exists cache, nodes. split; [done|]. split; [|done]. eapply cache_ok_done; [done|lia|by right]. }
  destruct (parent_index j h Hj ltac:(lia) Hm) as [Ei Hi].
  set (idx := Z.shiftr j h) in *. pose proof (pow2_pos (h - 1) ltac:(lia)) as Hp.
  assert (E2 : 2 ^ h = 2 * 2 ^ (h - 1)) by (rewrite <- Z.pow_succ_r by lia; f_equal; lia).
  rewrite u64_sub_in by ulia. rewrite u64_mul_in by (unfold in_u64; nia). cbn [obind].
  assert (Hcl : forall k, k = 2 * idx \/ k = 2 * idx + 1 ->
    cache !! (h - 1, k) = subtree L (Z.to_nat (h - 1)) k /\ is_Some (subtree L (Z.to_nat (h - 1)) k)).
  { intros k Hk. split; [|apply (subtree_in _ _ (j + 1)); nia].
    rewrite (Hc (h - 1) k), (proj2 (Z.ltb_lt (h - 1) h)), decide_True; [done|nia|lia]. }
  destruct (Hcl (2 * idx)) as [El [l Sl]]; [by left|].
  destruct (Hcl (2 * idx + 1)) as [Er [r Sr]]; [by right|].
  rewrite El, Sl. cbn [unwrap obind]. rewrite u64_add_in by (unfold in_u64; nia). cbn [obind].
  rewrite Er, Sr. cbn [unwrap obind].
  apply IH; [done|done|done|lia|lia| |].
  - apply cache_ok_insert; [done|lia|done|done|].
    replace (Z.to_nat h) with (S (Z.to_nat (h - 1))) by lia. cbn [subtree]. by rewrite Sl, Sr.
  - apply nodes_ok_insert; [done|]. rewrite (Hc h idx), Z.ltb_irrefl. apply decide_False. lia.
Qed.

Lemma leaves_loop_spec rest : forall j cache nodes,
  drop (Z.to_nat j) L = rest -> 0 <= j <= len L -> len L < two64 ->
  cache_ok 0 j cache -> nodes_ok nodes cache ->
  exists cache' nodes', leaves_loop (zip (seqZ j (len rest)) rest) cache nodes = Ret nodes' /\
    cache_ok 0 (len L) cache' /\ nodes_ok nodes' cache'.
Proof.
  induction rest as [|x rest IH]; intros j cache nodes Hd Hj HL Hc Hn.
  - exists cache, nodes. cbn. split; [done|]. split; [|done].
    apply (f_equal length) in Hd. rewrite length_drop in Hd. cbn in Hd.
    replace (len L) with j; [done|]. unfold len in *. lia.
  - assert (Hx : L !! Z.to_nat j = Some x).
    { rewrite <- (Nat.add_0_r (Z.to_nat j)), <- lookup_drop, Hd. done. }
    assert (Hj' : j + 1 <= len L) by (apply lookup_lt_Some in Hx; unfold len; lia).
    rewrite len_cons, seqZ_cons by (pose proof (len_nonneg rest); lia).
    replace (Z.pred (len rest + 1)) with (len rest) by lia. cbn [zip_with leaves_loop].
    destruct (parents_loop_spec j 64 1 (<[(0, j) := x]> cache) (nodes ++ [(0, j, x)]))
      as (cache' & nodes' & E & Hc' & Hn'); [lia|done|lia|lia|lia| | |].
    + apply (cache_ok_insert j 0 j x); [done|lia|lia|lia|].
      change (Z.to_nat 0) with 0%nat. cbn [subtree]. by rewrite (proj2 (Z.leb_le 0 j)) by lia.
    + apply nodes_ok_insert; [done|]. rewrite (Hc 0 j). apply decide_False. cbn. lia.
    + rewrite E. cbn [obind]. apply IH; [|lia|done|done|done].
      replace (Z.to_nat (Z.succ j)) with (Z.to_nat j + 1)%nat by lia.
      rewrite <- drop_drop, Hd. done.
Qed.

Lemma compute_nodes_ok :
  len L < two64 ->
  exists nodes, compute_nodes_from_leaves (zip (seqZ 0 (len L)) L) = Ret nodes /\
    forall h i x, (h, i, x) ∈ nodes <->
      0 <= h < 63 /\ 0 <= i /\ subtree L (Z.to_nat h) i = Some x.
Proof.
  intros HL. destruct (leaves_loop_spec L 0 ∅ []) as (cache & nodes & E & Hc & Hn); try done.
  - pose proof (len_nonneg L). lia.
  - intros h i. rewrite lookup_empty. symmetry. apply decide_False. cbn.
    intros (Hh & Hi & Hle). pose proof (pow2_pos h ltac:(lia)).
    destruct (Z.ltb_spec h 0); nia.
  - intros h i x. rewrite lookup_empty, elem_of_nil. done.
  - exists nodes. split; [done|]. intros h i x. rewrite (Hn h i x), (Hc h i).
    destruct (decide _) as [D|D].
    + split; [|naive_solver]. intros Ex. repeat split; try done; lia.
    + split; [done|]. intros (Hh & Hi & Ex). exfalso. apply D.
      assert (is_Some (subtree L (Z.to_nat h) i)) as Hs by eauto.
      apply subtree_is_Some in Hs; [|done]. rewrite Z2Nat.id in Hs by lia.
      destruct (Z.ltb_spec h 0); lia.
Qed.
End Compute.

(** ** The tree column family *)

Lemma tree_key_layout level index :
  to_vec (tree_key level index) =
  to_vec (u64_to_be_bytes level) ++ to_vec (u64_to_be_bytes index).
Proof.
  cbn [to_vec tree_key]. unfold tree_key_buf.
  set (a := to_vec (u64_to_be_bytes level)). set (b := to_vec (u64_to_be_bytes index)).
  assert (La : length a = 8%nat) by apply array_length.
  assert (Lb : length b = 8%nat) by apply array_length.
  rewrite <- (app_nil_l (replicate 16 _)).
  rewrite (copy_from_slice_app [] _ a 0) by done. rewrite app_nil_l.
  rewrite (copy_from_slice_app a _ b 8), La, Lb, !drop_drop by done.
  by rewrite drop_ge, app_nil_r by (rewrite length_replicate; lia).
Qed.

Lemma tree_key_inj l i l' i' :
  in_u64 l -> in_u64 i -> in_u64 l' -> in_u64 i' ->
  to_vec (tree_key l i) = to_vec (tree_key l' i') -> l = l' /\ i = i'.
Proof.
  intros. rewrite !tree_key_layout in *.
  match goal with E : _ ++ _ = _ ++ _ |- _ =>
    apply app_inj_len in E as [E1 E2]; [|by rewrite !array_length] end.
  split; by apply u64_to_be_bytes_inj.
Qed.

Section Tree.
Context `{Sha256} {R : Rocksdb} {P : Prost} {RL : RocksdbLaws} {PL : ProstLaws} `{Profile}.

Lemma apply_nodes_frame nodes c m : c <> CF_TREE -> apply_batch (node_op <$> nodes) c m = m.
Proof.
  intros Hc. unfold apply_batch. revert m. induction nodes as [|[[l i] x] nodes IH]; intros m; [done|].
  rewrite fmap_cons. cbn [foldl node_op apply_op]. by rewrite decide_False.
Qed.

Lemma apply_deletes_frame keys c m : c <> CF_TREE -> apply_batch (DeleteCf CF_TREE <$> keys) c m = m.
Proof.
  intros Hc. unfold apply_batch. revert m. induction keys as [|k keys IH]; intros m; [done|].
  rewrite fmap_cons. cbn [foldl apply_op]. by rewrite decide_False.
Qed.

Lemma apply_nodes_get nodes m k :
  kv_sorted m ->
  (exists l i x, (l, i, x) ∈ nodes /\ k = to_vec (tree_key l i) /\
     kv_get (apply_batch (node_op <$> nodes) CF_TREE m) k = Some (to_vec x)) \/
  ((forall l i x, (l, i, x) ∈ nodes -> k <> to_vec (tree_key l i)) /\
     kv_get (apply_batch (node_op <$> nodes) CF_TREE m) k = kv_get m k).
Proof.
  intros Hm. induction nodes as [|[[l i] x] nodes IH] using rev_ind.
  - right. split; [|done]. by intros ? ? ? ?%elem_of_nil.
  - rewrite fmap_app. unfold apply_batch in *. rewrite foldl_app. cbn [foldl fmap list_fmap node_op apply_op].
    rewrite decide_True by done. rewrite kv_get_put by (by apply apply_batch_sorted).
    destruct (decide (k = to_vec (tree_key l i))) as [->|Hk].
    + left. exists l, i, x. split; [|done]. apply elem_of_app. right. left.
    + destruct IH as [(l' & i' & x' & Hin & Ek & E)|[Hno E]]; [left|right].
      * exists l', i', x'. split; [|done]. apply elem_of_app. by left.
      * split; [|done]. intros l' i' x' [Hin|Hin]%elem_of_app; [by eapply Hno|].
        apply list_elem_of_singleton in Hin as [= -> -> ->]. done.
Qed.

Lemma apply_deletes_all m : apply_batch (DeleteCf CF_TREE <$> m.*1) CF_TREE m = [].
Proof.
  assert (Hdel : forall ks m, apply_batch (DeleteCf CF_TREE <$> ks) CF_TREE m =
                              filter (fun kv => kv.1 ∉ ks) m).
  { clear. induction ks as [|k ks IH]; intros m.
    - unfold apply_batch. cbn. rewrite filter_all; [done|].
      apply Forall_forall. intros kv _ ?%elem_of_nil. done.
    - unfold apply_batch in *. rewrite fmap_cons. cbn [foldl apply_op]. rewrite decide_True by done.
      rewrite IH. unfold kv_del. rewrite list_filter_filter. apply list_filter_iff.
      intros kv. rewrite not_elem_of_cons. tauto. }
  rewrite Hdel. apply filter_none. apply Forall_forall. intros kv Hkv Hn. apply Hn.
  by apply list_elem_of_fmap_2.
Qed.

(** [subtree] is the Merkle tree hash of the subtree's leaves. *)
Lemma subtree_mth L h i x :
  len L < two64 -> 0 <= h -> 0 <= i ->
  subtree L (Z.to_nat h) i = Some x <->
  (i + 1) * 2 ^ h <= len L /\ mth (slice L (i * 2 ^ h) (2 ^ h)) = Ret (Some x).
Proof.
  intros HL Hh Hi.
  assert (Hx : forall y, subtree L (Z.to_nat h) i = Some y ->
    (i + 1) * 2 ^ h <= len L /\ mth (slice L (i * 2 ^ h) (2 ^ h)) = Ret (Some y)).
  { intros y Ey. assert (is_Some (subtree L (Z.to_nat h) i)) as Hs by eauto.
    apply subtree_is_Some in Hs; [|done]. rewrite Z2Nat.id in Hs by done. split; [done|].
    destruct (subtree_tree L _ i y Hi Ey) as (T & ET & ST & NT & <-). rewrite Z2Nat.id in * by done.
    rewrite <- ET. apply mth_tree; [done|]. pose proof (pow2_pos h Hh). nia. }
  split; [by apply Hx|]. intros [Hle Em].
  destruct (subtree_in L h i (len L) Hh Hi Hle ltac:(lia)) as [y Ey].
  apply Hx in Ey as Em'. destruct Em' as [_ Em']. congruence.
Qed.

(** The stored nodes are those of the complete subtrees over [L], and only RocksDB fails a read. *)
Definition tree_ok (s : DbInner) (L : list hash32) : Prop :=
  forall level index, in_u64 level -> in_u64 index ->
  match get_node s level index with
  | Ok o => forall x, o = Some x <-> level < 63 /\ (index + 1) * 2 ^ level <= len L /\
      mth (slice L (index * 2 ^ level) (2 ^ level)) = Ret (Some x)
  | Err e => exists x, rdb_get (db s) CF_TREE (to_vec (tree_key level index)) = Err x /\ e = RocksDb x
  end.

Lemma write_nodes_ok s s' nodes L :
  len L < two64 -> contents (db s) CF_TREE = [] ->
  (forall h i x, (h, i, x) ∈ nodes <-> 0 <= h < 63 /\ 0 <= i /\ subtree L (Z.to_nat h) i = Some x) ->
  write_batch s nodes = (s', Ok tt) -> tree_ok s' L.
Proof.
  intros HL Hempty Hn [_ [_ Hc]]%write_then_spec level index Hlv Hix.
  unfold get_node. destruct (rdb_get _ _ _) as [v|e] eqn:Er; [|by exists e].
  apply rdb_get_ok in Er. rewrite Hc, Hempty in Er.
  destruct (apply_nodes_get nodes [] (to_vec (tree_key level index))) as
    [(l & i & y & Hin & Ek & E)|[Hno E]]; [constructor|rewrite E in Er; subst v..].
  - apply Hn in Hin as Hsub. destruct Hsub as (Hl & Hi & Ey).
    assert (Hi64 : in_u64 i).
    { assert (is_Some (subtree L (Z.to_nat l) i)) as Hs by eauto.
      apply subtree_is_Some in Hs; [|done]. pose proof (pow2_pos (Z.of_nat (Z.to_nat l)) ltac:(lia)).
      unfold in_u64. nia. }
    apply tree_key_inj in Ek as [-> ->]; [|done|done|ulia|done].
    rewrite array_try_from_to_vec. intros x.
    rewrite <- (subtree_mth L l i x) by (done || apply Hlv || apply Hix). rewrite Ey.
    split; [intros [= ->]; split; [lia|done]|]. by intros [_ ->].
  - intros x. rewrite <- (subtree_mth L level index x) by (done || apply Hlv || apply Hix).
    split; [done|]. intros [Hlt Ex]. exfalso.
    eapply Hno; [|reflexivity]. apply Hn. split; [|split; [apply Hix|exact Ex]].
    unfold in_u64 in *. lia.
Qed.

(** The persisted Merkle nodes are right.  For a full scan of a log,
    [compute_nodes_from_leaves] returns, without panicking, exactly the nodes
    [(level, index, hash)] with [level < 63] whose subtree is complete, each with the
    Merkle tree hash of its leaves. *)
Theorem compute_nodes_correct (L : list hash32) (HL : len L < two64) :
  exists nodes, compute_nodes_from_leaves (zip (seqZ 0 (len L)) L) = Ret nodes /\
    forall h i x, (h, i, x) ∈ nodes <->
      0 <= h < 63 /\ 0 <= i /\ (i + 1) * 2 ^ h <= len L /\
      mth (slice L (i * 2 ^ h) (2 ^ h)) = Ret (Some x).
Proof.
  destruct (compute_nodes_ok L HL) as (nodes & E & Hn). exists nodes. split; [done|].
  intros h i x. rewrite (Hn h i x). split.
  - intros (Hh & Hi & Ex). apply subtree_mth in Ex; [done|done|lia|done].
  - intros (Hh & Hi & Ex). do 2 (split; [done|]). apply subtree_mth; [done|lia|done|done].
Qed.

Lemma clear_tree_ok s es :
  db_rep s es -> (forall e, ~ iter_fails (db s) CF_TREE IterStart e) ->
  let keys := (rdb_iter (db s) CF_TREE IterStart).1.*1 in
  exists s' r, (if len keys =? 0 then (s, Ok tt) else write_then s (DeleteCf CF_TREE <$> keys) tt) = (s', r) /\
    db_rep s' es /\ next_seq s' = next_seq s /\ (r = Ok tt -> contents (db s') CF_TREE = []) /\
    (forall e, r = Err e -> external_error e).
Proof.
  intros Hr Hit. destruct (rdb_iter _ _ _) as [items [e|]] eqn:E; [destruct (Hit e); by eexists|].
  apply rdb_iter_ok in E. cbn [scan] in E. subst items. cbn [fst]. cbn zeta.
  destruct (Z.eqb_spec (len (contents (db s) CF_TREE).*1) 0) as [E0|E0].
  - exists s, (Ok tt). split; [done|]. split; [done|]. split; [done|]. split; [|done]. intros _.
    destruct (contents (db s) CF_TREE); [done|]. rewrite fmap_cons, len_cons in E0.
    pose proof (len_nonneg l.*1). lia.
  - destruct (write_then _ _ _) as [s' r] eqn:Ew. exists s', r. split; [done|]. split.
    + eapply write_then_frame; [done|done|]. intros c m [->| ->]; by apply apply_deletes_frame.
    + assert (He : forall e, r = Err e -> external_error e) by (intros e ->; by eapply write_then_error).
      apply write_then_spec in Ew as [En Hc]. split; [done|]. split; [|done]. intros ->. destruct Hc as [_ Hc].
      rewrite Hc. apply apply_deletes_all.
Qed.

Lemma rebuild_spec s es :
  db_rep s es -> gap_free s es -> (forall e, ~ iter_fails (db s) CF_TREE IterStart e) ->
  exists s' r, rebuild_from_log s = Ret (s', r) /\ db_rep s' es /\
    (r = Ok tt -> tree_ok s' (LogEntry.leaf_hash <$> es)) /\ (forall e, r = Err e -> external_error e).
Proof.
  intros Hr Hg Hit. unfold rebuild_from_log. destruct (clear_tree_ok s es Hr Hit) as (s1 & r1 & E1 & Hr1 & Hn1 & Hc1 & He1).
  cbn zeta in E1. rewrite E1. destruct r1 as [u|e].
  2:{ exists s1, (Err e). split; [done|]. split; [done|]. split; [done|]. intros x [= <-]. by apply He1. }
  assert (Hlen : len es < two64) by (destruct Hg as [_ <-]; apply Hr).
  destruct (seq_range_ok s1 es 0 (two64 - 1) Hr1 ltac:(done)) as [E|(e & _ & E)]; rewrite E;
    [|exists s1, (Err (RocksDb e)); split; [done|]; split; [done|]; split; [done|]; by intros x [= <-]].
  assert (EF : filter (fun e => 0 <= LogEntry.seq e < two64 - 1) es = es).
  { rewrite (gap_free_take s) by done. apply take_ge. destruct Hg as [_ En]. destruct Hr as [_ _ _ Hn].
    unfold len, in_u64 in *. lia. }
  rewrite EF. assert (Ez : (fun e => (LogEntry.seq e, LogEntry.leaf_hash e)) <$> es =
    zip (seqZ 0 (len (LogEntry.leaf_hash <$> es))) (LogEntry.leaf_hash <$> es)).
  { unfold len. rewrite length_fmap. fold (len es). destruct Hg as [<- _]. clear.
    induction es as [|e es IH]; [done|]. by rewrite !fmap_cons, IH. }
  rewrite Ez. destruct (compute_nodes_ok (LogEntry.leaf_hash <$> es)) as (nodes & En & Hnodes).
  { unfold len. by rewrite length_fmap. }
  rewrite En. cbn [obind]. destruct (write_batch s1 nodes) as [s' r] eqn:Ew. exists s', r.
  split; [done|]. split; [|split].
  - eapply write_then_frame; [exact Ew|done|]. intros c m [->| ->]; by apply apply_nodes_frame.
  - intros ->. eapply write_nodes_ok; [|by apply Hc1; destruct u|done|done].
    unfold len. by rewrite length_fmap.
  - intros e ->. by eapply write_then_error.
Qed.

(** C30: rebuilding restores the tree.  On a gap-free log, [rebuild_from_log]
    returns without panicking and keeps every log entry; when it succeeds (and the
    scan of the old nodes was not cut short by an error, which it ignores), the
    tree column family answers for every level and index exactly with the Merkle
    tree hash of the complete subtree there, whatever it held before, unless RocksDB fails the
    read.  It fails only with an error of RocksDB.  (On a log with a gap it can panic with the old nodes deleted,
    [StorageDemo.rebuild_gap_panics].) *)
Theorem rebuild_restores (s : DbInner) (es : list LogEntry.t) (Hr : db_rep s es)
    (Hg : gap_free s es) (Hit : forall e, ~ iter_fails (db s) CF_TREE IterStart e) :
  exists s' r, rebuild_from_log s = Ret (s', r) /\ db_rep s' es /\
    (r = Ok tt -> tree_ok s' (LogEntry.leaf_hash <$> es)) /\ (forall e, r = Err e -> external_error e).
Proof. by apply rebuild_spec. Qed.
End Tree.
