(* ===== verification/Table.v ===== *)
(** * Records stored under an integer key

    Signed tree heads and key records are kept the same way: one record per
    identifier, the identifier big-endian as the key.  [upsert] is a write seen
    at the level of records; the lemmas relate a column family to a list of
    records ordered by identifier. *)

From S2P Require Import Prelude Bytes Rocksdb.

Section Records.
Context {A : Type} (ident : A -> Z).

Definition ident_sorted (l : list A) : Prop := StronglySorted (fun a b => ident a < ident b) l.

Fixpoint upsert (a : A) (l : list A) : list A :=
  match l with
  | [] => [a]
  | b :: l =>
      if ident a <? ident b then a :: b :: l
      else if ident b <? ident a then b :: upsert a l
      else a :: l
  end.

(** The record with identifier [n]. *)
Fixpoint find_id (n : Z) (l : list A) : option A :=
  match l with
  | [] => None
  | a :: l => if ident a =? n then Some a else find_id n l
  end.

Lemma find_upsert_eq a l : find_id (ident a) (upsert a l) = Some a.
Proof.
  induction l as [|b l IH]; cbn; [by rewrite Z.eqb_refl|].
  destruct (Z.ltb_spec (ident a) (ident b)); [cbn; by rewrite Z.eqb_refl|].
  destruct (Z.ltb_spec (ident b) (ident a)); cbn; [|by rewrite Z.eqb_refl].
  by rewrite (proj2 (Z.eqb_neq _ _)) by lia.
Qed.

Lemma find_upsert_ne a l n : n <> ident a -> find_id n (upsert a l) = find_id n l.
Proof.
  intros Hn. induction l as [|b l IH]; cbn; [by rewrite (proj2 (Z.eqb_neq _ _)) by lia|].
  destruct (Z.ltb_spec (ident a) (ident b)); [cbn; by rewrite (proj2 (Z.eqb_neq (ident a) n)) by lia|].
  destruct (Z.ltb_spec (ident b) (ident a)); cbn; [by rewrite IH|].
  by rewrite !(proj2 (Z.eqb_neq _ _)) by lia.
Qed.

Lemma upsert_elem a l b : b ∈ upsert a l -> b = a \/ b ∈ l.
Proof.
  induction l as [|c l IH]; cbn; [rewrite list_elem_of_singleton; auto|].
  repeat case_match; rewrite !elem_of_cons; naive_solver.
Qed.

Lemma upsert_keeps a l b : b ∈ l -> exists c, c ∈ upsert a l /\ ident c = ident b.
Proof.
  induction l as [|d l IH]; [by intros ?%elem_of_nil|]. rewrite elem_of_cons. cbn.
  destruct (Z.ltb_spec (ident a) (ident d)); [|destruct (Z.ltb_spec (ident d) (ident a))].
  - intros Hb. exists b. rewrite !elem_of_cons. tauto.
  - intros [->|Hb]; [exists d; split; [left|done]|]. destruct (IH Hb) as (c & Hc & E).
    exists c. split; [by right|done].
  - intros [->|Hb]; [exists a; split; [left|lia]|]. exists b. split; [by right|done].
Qed.

Lemma upsert_sorted a l : ident_sorted l -> ident_sorted (upsert a l).
Proof.
  unfold ident_sorted. induction l as [|b l IH]; cbn; intros Hs; [by repeat constructor|].
  inversion Hs as [|? ? Hs' Hf]; subst.
  destruct (Z.ltb_spec (ident a) (ident b)) as [Hlt|Hge].
  - constructor; [done|]. constructor; [done|]. eapply Forall_impl; [exact Hf|]. cbn. lia.
  - destruct (Z.ltb_spec (ident b) (ident a)) as [Hlt|Hge'].
    + constructor; [by apply IH|]. apply Forall_forall. intros c [->|Hc]%upsert_elem; [done|].
      rewrite Forall_forall in Hf. by apply Hf.
    + constructor; [done|]. eapply Forall_impl; [exact Hf|]. cbn. lia.
Qed.

(** A record above all others becomes the last one. *)
Lemma upsert_last a l :
  Forall (fun b => ident b <= ident a) l -> ident_sorted l -> last (upsert a l) = Some a.
Proof.
  unfold ident_sorted. induction 1 as [|b l Hb Hl IH]; cbn; [done|]. intros Hs.
  inversion Hs as [|? ? Hs' Hf]; subst. rewrite (proj2 (Z.ltb_ge _ _)) by lia.
  destruct (Z.ltb_spec (ident b) (ident a)).
  - rewrite last_cons. by rewrite IH.
  - destruct l as [|c l]; [done|]. apply Forall_cons in Hf as [? _], Hl as [? _]. lia.
Qed.

Lemma sorted_last_max l a :
  ident_sorted l -> last l = Some a -> Forall (fun b => ident b <= ident a) l.
Proof.
  unfold ident_sorted. induction l as [|b l _] using rev_ind; [done|]. rewrite last_snoc.
  intros (Hlt & _)%StronglySorted_app [= ->]. apply Forall_app. split.
  - apply Forall_forall. intros c Hc. specialize (Hlt c a Hc ltac:(left)). cbn in Hlt. lia.
  - by repeat constructor.
Qed.

Lemma find_id_elem n l a : find_id n l = Some a -> a ∈ l /\ ident a = n.
Proof.
  induction l as [|b l IH]; cbn; [done|]. destruct (Z.eqb_spec (ident b) n) as [E|E].
  - intros [= ->]. split; [left|done].
  - intros [? ?]%IH. split; [by right|done].
Qed.

Lemma find_id_sorted l a : ident_sorted l -> a ∈ l -> find_id (ident a) l = Some a.
Proof.
  unfold ident_sorted. induction l as [|b l IH]; [by intros _ ?%elem_of_nil|]. intros Hs.
  inversion Hs as [|? ? Hs' Hf]; subst. cbn. rewrite elem_of_cons. intros [->|Ha].
  - by rewrite Z.eqb_refl.
  - rewrite Forall_forall in Hf. specialize (Hf a Ha). cbn in Hf.
    rewrite (proj2 (Z.eqb_neq _ _)) by lia. by apply IH.
Qed.
End Records.

Section Table.
Context {A : Type} (ident : A -> Z) (key : Z -> bytes) (valid : Z -> Prop)
        (encodes : A -> bytes -> Prop).
Hypothesis key_lt : forall x y, valid x -> valid y -> bytes_lt (key x) (key y) <-> x < y.

Definition stored (a : A) (kv : bytes * bytes) : Prop :=
  kv.1 = key (ident a) /\ encodes a kv.2 /\ valid (ident a).

Lemma key_ltb x y : valid x -> valid y -> bytes_ltb (key x) (key y) = (x <? y).
Proof.
  intros Hx Hy. apply eq_bool_prop_intro. rewrite !Is_true_true, Z.ltb_lt. by apply key_lt.
Qed.

Lemma key_inj x y : valid x -> valid y -> key x = key y -> x = y.
Proof.
  intros Hx Hy E. destruct (Z.lt_trichotomy x y) as [Hlt|[?|Hlt]]; [exfalso|done|exfalso];
    rewrite <- key_lt, E in Hlt by done; by apply bytes_lt_irrefl in Hlt.
Qed.

Lemma stored_put l m a v :
  Forall2 stored l m -> stored a (key (ident a), v) ->
  Forall2 stored (upsert ident a l) (kv_put m (key (ident a)) v).
Proof.
  intros Hf Ha. induction Hf as [|b kv l m Hb Hf IH]; cbn; [by constructor|].
  destruct kv as [k w]. pose proof Hb as (Ek & _ & Hvb). cbn in Ek. subst k.
  pose proof Ha as (_ & _ & Hva). rewrite !key_ltb by done.
  destruct (ident a <? ident b); [constructor; [done|by constructor]|].
  destruct (ident b <? ident a); by constructor.
Qed.

Lemma stored_sorted l m : Forall2 stored l m -> kv_sorted m -> ident_sorted ident l.
Proof.
  induction 1 as [|a [k v] l m (Ek & _ & Ha) Hf IH]; [constructor|]. cbn in Ek. subst k.
  rewrite kv_sorted_cons. intros [Hk Hs]. constructor; [by apply IH|]. clear IH Hs.
  induction Hf as [|b [k w] l m (Ek & _ & Hb) Hf IH]; [constructor|]. cbn in Ek. subst k.
  apply Forall_cons in Hk as [Hk1 Hk]. constructor; [|by apply IH]. by apply key_lt.
Qed.

Lemma stored_find l m n :
  Forall2 stored l m -> valid n ->
  match find_id ident n l with
  | Some a => exists v, kv_get m (key n) = Some v /\ encodes a v /\ ident a = n
  | None => kv_get m (key n) = None
  end.
Proof.
  intros Hf Hn. induction Hf as [|a [k v] l m (Ek & Ea & Ha) Hf IH]; [done|]. cbn in Ek. subst k.
  cbn. destruct (Z.eqb_spec (ident a) n) as [->|Hne].
  - rewrite decide_True by done. by exists v.
  - rewrite decide_False; [done|]. intros E. by apply key_inj in E.
Qed.
End Table.
