(* ===== verification/LogConcurrent.v ===== *)
(** * Concurrent appends (crates/settled-storage/src/log_store.rs)

    A [LogStore] is cloned into threads.  [append] and [append_batch] are not atomic: they take
    numbers from the shared counter, read the clock and encode, and only then write.
    Here the two halves are separate steps ([append_halves] and [append_batch_halves]: one after
    the other they are the operations), and the appends of any number of
    threads interleave.  A write or an encoding may fail, and a thread may panic on the clock
    after it took its numbers; what was taken is then lost.  The server does not rely on this
    (it appends under a lock), the store's own tests do. *)

From stdpp Require Import relations.
From S2P Require Import Prelude Bytes Hash Sth Rocksdb StorageTypes Db LogStore LogTheorems Table.

Section Halves.
Context `{Sha256} `{Rocksdb} `{Prost} `{Profile}.

(** Up to the write: the numbers are taken, the clock is read. *)
Definition begin_append (s : DbInner) (now : Z) (pairs : list (bytes * bytes))
  : outcome (DbInner * list LogEntry.t) :=
  let '(s, first_seq) := fetch_add s (len pairs) in
  let! timestamp_ns := unix_nanos now in
  Ret (s, batch_entries first_seq timestamp_ns pairs).

(** The values of the entries, or the first error of the encoder. *)
Fixpoint encode_all (news : list LogEntry.t) : result (list bytes) Error :=
  match news with
  | [] => Ok []
  | e :: news =>
      match encode_log_entry (log_entry_to_proto e) with
      | Err x => Err (Encode x)
      | Ok v => match encode_all news with Err x => Err x | Ok vs => Ok (v :: vs) end
      end
  end.

(** The write of an append that has its numbers. *)
Definition finish_append (s : DbInner) (news : list LogEntry.t) : DbInner * result unit Error :=
  match encode_all news with
  | Err e => (s, Err e)
  | Ok vs => write_then s (concat (zip_with entry_ops news vs)) tt
  end.

Definition result_of {A} (a : A) (r : result unit Error) : result A Error :=
  match r with Ok _ => Ok a | Err e => Err e end.

(** One half after the other is [append]. *)
Lemma append_halves s now key data :
  append s now key data =
  obind (begin_append s now [(key, data)]) (fun '(s1, news) =>
    let '(s2, r) := finish_append s1 news in
    Ret (s2, result_of (next_seq s, wrap_i64 now) r)).
Proof.
  unfold append, begin_append, unix_nanos, fetch_add. change (len [(key, data)]) with 1.
  destruct (now <? 0); [done|]. cbn [obind batch_entries]. unfold finish_append. cbn [encode_all].
  change (log_entry_to_proto (new_entry (next_seq s) (wrap_i64 now) key data)) with
    (LogEntryProto.mk (next_seq s) (wrap_i64 now) key data (to_vec (leaf_hash data))).
  destruct (encode_log_entry _) as [v|e]; [|done]. unfold write_then. cbn [zip_with concat app entry_ops].
  destruct (rdb_write _ _) as [d [[]|e]]; done.
Qed.

Lemma batch_loop_halves first ts pairs : forall i batch results,
  0 <= first -> 0 <= i -> first + i + len pairs <= two64 ->
  batch_loop first ts i pairs batch results =
  Ret (match encode_all (batch_entries (first + i) ts pairs) with
    | Err e => Err e
    | Ok vs => Ok (batch ++ concat (zip_with entry_ops (batch_entries (first + i) ts pairs) vs),
        results ++ (batch_result <$> batch_entries (first + i) ts pairs))
    end).
Proof.
  induction pairs as [|[k d] pairs IH]; intros i batch results Hf Hi Hn; cbn [batch_loop batch_entries].
  - cbn. by rewrite !app_nil_r.
  - rewrite len_cons in Hn. pose proof (len_nonneg pairs).
    rewrite u64_add_in by (unfold in_u64; lia). cbn [obind encode_all].
    change (log_entry_to_proto (new_entry (first + i) ts k d)) with
      (LogEntryProto.mk (first + i) ts k d (to_vec (leaf_hash d))).
    destruct (encode_log_entry _) as [v|e]; [|done].
    rewrite IH by lia. replace (first + (i + 1)) with (first + i + 1) by lia.
    destruct (encode_all (batch_entries (first + i + 1) ts pairs)) as [vs|e]; [|done].
    cbn [zip_with concat entry_ops]. rewrite fmap_cons, <- !app_assoc. done.
Qed.

(** One half after the other is [append_batch], while the counter does not wrap. *)
Lemma append_batch_halves s now pairs :
  pairs <> [] -> 0 <= next_seq s -> next_seq s + len pairs <= two64 ->
  append_batch s now pairs =
  obind (begin_append s now pairs) (fun '(s1, news) =>
    let '(s2, r) := finish_append s1 news in
    Ret (s2, result_of (batch_result <$> news) r)).
Proof.
  intros Hne Hz Hn. unfold append_batch, begin_append.
  rewrite (proj2 (Z.eqb_neq (len pairs) 0)).
  2:{ destruct pairs; [done|]. rewrite len_cons. pose proof (len_nonneg pairs). lia. }
  unfold fetch_add, unix_nanos. destruct (now <? 0); [done|]. cbn [obind].
  rewrite batch_loop_halves by lia. rewrite Z.add_0_r. cbn [obind]. unfold finish_append.
  destruct (encode_all _) as [vs|e]; [|done]. unfold write_then. cbn [app].
  destruct (rdb_write _ _) as [d [[]|e]]; done.
Qed.
End Halves.

(** ** Interleavings *)

Section Concurrent.
Context `{Sha256} {R : Rocksdb} {P : Prost} {RL : RocksdbLaws} {PL : ProstLaws} `{Profile}.
Abbreviation seq := LogEntry.seq.

(** The store, the appends that have their numbers but have not written yet, and all entries
    that were given a number, in the order of the numbers: those of a thread that panicked on
    the clock too. *)
Record threads := mkThreads {
  store : DbInner;
  inflight : list (list LogEntry.t);
  begun : list LogEntry.t
}.

Inductive tstep (faults : bool) : threads -> threads -> Prop :=
| tstep_begin t now pairs s news :
    pairs <> [] -> next_seq (store t) + len pairs < two64 -> Forall pair_ok pairs ->
    begin_append (store t) now pairs = Ret (s, news) ->
    tstep faults t (mkThreads s (inflight t ++ [news]) (begun t ++ news))
| tstep_panic t now pairs :
    pairs <> [] -> next_seq (store t) + len pairs < two64 -> Forall pair_ok pairs ->
    begin_append (store t) now pairs = Panic -> faults = true ->
    tstep faults t (mkThreads (fetch_add (store t) (len pairs)).1 (inflight t)
      (begun t ++ batch_entries (next_seq (store t)) (wrap_i64 now) pairs))
| tstep_finish t i news s r :
    inflight t !! i = Some news -> finish_append (store t) news = (s, r) ->
    (forall e, r = Err e -> faults = true) ->
    tstep faults t (mkThreads s (delete i (inflight t)) (begun t)).

(** The index leads to an entry with the key, if there is one. *)
Definition index_some (d : rdb) (es : list LogEntry.t) : Prop :=
  forall k, match kv_get (contents d CF_INDEX) k with
  | Some v => exists e, e ∈ es /\ LogEntry.key e = k /\ v = to_vec (u64_to_be_bytes (seq e))
  | None => forall e, e ∈ es -> LogEntry.key e <> k
  end.

Definition storable (e : LogEntry.t) : Prop :=
  entry_wf e /\ LogEntry.leaf_hash e = leaf_hash (LogEntry.data e).

(** [es] is stored and [lost] failed. *)
Record threads_ok (faults : bool) (t : threads) (es lost : list LogEntry.t) : Prop := {
  thr_log : log_rep (db (store t)) es;
  thr_index : index_some (db (store t)) es;
  thr_begun : seq <$> begun t = seqZ 0 (len (begun t));
  thr_next : next_seq (store t) = len (begun t);
  thr_range : len (begun t) < two64;
  thr_wf : Forall storable (begun t);
  thr_all : es ++ lost ++ concat (inflight t) ≡ₚ begun t;
  thr_lost : faults = false -> lost = []
}.

Lemma begun_nodup t : seq <$> begun t = seqZ 0 (len (begun t)) -> NoDup (seq <$> begun t).
Proof. intros ->. apply NoDup_seqZ. Qed.

(** ** The write of an append *)

Lemma stored_entry e kv :
  entry_kv e kv <-> stored seq (fun n => to_vec (u64_to_be_bytes n)) in_u64 encodes e kv.
Proof.
  unfold stored, encodes, entry_kv. destruct kv as [k v]; cbn. unfold entry_wf. naive_solver.
Qed.

Lemma put_entry_anywhere es m e v :
  Forall2 entry_kv es m -> encodes e v ->
  Forall2 entry_kv (upsert seq e es) (kv_put m (to_vec (u64_to_be_bytes (seq e))) v).
Proof.
  intros Hf He. eapply Forall2_impl; [|intros; by apply stored_entry].
  apply (stored_put seq (fun n => to_vec (u64_to_be_bytes n)) in_u64 encodes).
  - intros x y Hx Hy. by apply u64_be_lt.
  - eapply Forall2_impl; [exact Hf|]. intros. by apply stored_entry.
  - apply stored_entry. exact He.
Qed.

Lemma upsert_new e es : seq e ∉ (seq <$> es) -> upsert seq e es ≡ₚ e :: es.
Proof.
  induction es as [|b es IH]; [done|]. rewrite fmap_cons, not_elem_of_cons. intros [Hne Hni]. cbn.
  destruct (Z.ltb_spec (seq e) (seq b)); [done|]. destruct (Z.ltb_spec (seq b) (seq e)); [|lia].
  rewrite IH by done. constructor.
Qed.

Lemma encode_all_ok news vs :
  encode_all news = Ok vs -> Forall storable news -> Forall2 encodes news vs.
Proof.
  revert vs. induction news as [|e news IH]; intros vs; cbn; [intros [= <-]; constructor|].
  destruct (encode_log_entry _) as [v|x] eqn:Ev; [|done].
  destruct (encode_all news) as [vs'|x]; [|done]. intros [= <-] [[Hw Hl] Hf]%Forall_cons.
  constructor; [done|by apply IH].
Qed.

(** Writing entries with unused numbers adds them, wherever they belong. *)
Lemma apply_anywhere news vs : Forall2 encodes news vs -> forall es m mi,
  Forall2 entry_kv es m -> kv_sorted mi ->
  (forall k, match kv_get mi k with
    | Some v => exists e, e ∈ es /\ LogEntry.key e = k /\ v = to_vec (u64_to_be_bytes (seq e))
    | None => forall e, e ∈ es -> LogEntry.key e <> k end) ->
  NoDup (seq <$> (news ++ es)) ->
  let b := concat (zip_with entry_ops news vs) in
  exists es', es' ≡ₚ news ++ es /\ Forall2 entry_kv es' (apply_batch b CF_LOG m) /\
    forall k, match kv_get (apply_batch b CF_INDEX mi) k with
    | Some v => exists e, e ∈ es' /\ LogEntry.key e = k /\ v = to_vec (u64_to_be_bytes (seq e))
    | None => forall e, e ∈ es' -> LogEntry.key e <> k end.
Proof.
  induction 1 as [|e v news vs He Hv IH]; intros es m mi Hm Hs Hi Hn; [by exists es|].
  cbn [zip_with concat entry_ops app] in *. rewrite fmap_cons in Hn. apply NoDup_cons in Hn as [Hni Hn].
  assert (Hfresh : seq e ∉ (seq <$> es)) by (rewrite fmap_app in Hni; set_solver).
  pose proof (upsert_new e es Hfresh) as Ep.
  destruct (IH (upsert seq e es) (kv_put m (to_vec (u64_to_be_bytes (seq e))) v)
    (kv_put mi (LogEntry.key e) (to_vec (u64_to_be_bytes (seq e))))) as (es' & Ep' & Hl & Hx).
  - by apply put_entry_anywhere.
  - by apply kv_put_sorted.
  - intros k. rewrite kv_get_put by done. destruct (decide (k = LogEntry.key e)) as [->|Hne].
    + exists e. rewrite Ep. split; [left|done].
    + specialize (Hi k). destruct (kv_get mi k) as [w|].
      * destruct Hi as (e' & Hin & Ek & Ew). exists e'. rewrite Ep. split; [by right|done].
      * intros e'. rewrite Ep. intros [->|Hin]%elem_of_cons; [congruence|by apply Hi].
  - rewrite fmap_app, Ep, fmap_cons, <- Permutation_middle, <- fmap_app. by apply NoDup_cons.
  - exists es'. split; [by rewrite Ep', Ep, <- Permutation_middle|]. split; [exact Hl|exact Hx].
Qed.

Lemma concat_delete {A} (l : list (list A)) i x :
  l !! i = Some x -> concat l ≡ₚ x ++ concat (delete i l).
Proof.
  revert i. induction l as [|y l IH]; intros [|i] Hi; cbn in *; [done|done|by injection Hi as ->|].
  rewrite (IH i Hi), !app_assoc. by rewrite (Permutation_app_comm y x).
Qed.

Lemma finish_ok faults t es lost i news s r :
  threads_ok faults t es lost -> inflight t !! i = Some news ->
  finish_append (store t) news = (s, r) -> (forall e, r = Err e -> faults = true) ->
  exists es' lost', threads_ok faults (mkThreads s (delete i (inflight t)) (begun t)) es' lost'.
Proof.
  intros [Hl Hi Hb Hn Hr Hw Ha Hz] Hin Hf Hfault.
  pose proof (concat_delete _ _ _ Hin) as Ec.
  assert (Hall : news ++ es ++ lost ++ concat (delete i (inflight t)) ≡ₚ begun t).
  { rewrite <- Ha, Ec. rewrite (app_assoc lost), (app_assoc es).
    rewrite (Permutation_app_comm lost news), <- !app_assoc. by rewrite Permutation_app_swap_app. }
  assert (Hfail : forall e, next_seq s = next_seq (store t) ->
    (forall c, contents (db s) c = contents (db (store t)) c) -> r = Err e ->
    threads_ok faults (mkThreads s (delete i (inflight t)) (begun t)) es (news ++ lost)).
  { intros e En Hc Er. split; cbn; try done.
    - unfold log_rep. by rewrite Hc.
    - unfold index_some. by rewrite Hc.
    - by rewrite En.
    - rewrite <- Hall, <- app_assoc. by rewrite Permutation_app_swap_app.
    - intros Ef. rewrite (Hfault e Er) in Ef. done. }
  unfold finish_append in Hf. destruct (encode_all news) as [vs|e] eqn:Ee.
  2:{ injection Hf as <- <-. exists es, (news ++ lost). by eapply Hfail. }
  apply write_then_spec in Hf as [En Hc]. destruct r as [[]|e]; [|exists es, (news ++ lost); by eapply Hfail].
  destruct Hc as [_ Hc].
  assert (Hnd : NoDup (seq <$> begun t)) by by apply begun_nodup.
  rewrite <- Hall in Hnd. rewrite app_assoc, fmap_app in Hnd. apply NoDup_app in Hnd as [Hnd _].
  assert (Hws : Forall storable news). { rewrite <- Hall in Hw. by apply Forall_app in Hw as [Hw _]. }
  destruct (apply_anywhere news vs (encode_all_ok _ _ Ee Hws) es _ _ Hl (contents_sorted _ _) Hi Hnd)
    as (es' & Ep & Hl' & Hi').
  exists es', lost. split; cbn; try done.
  - unfold log_rep. rewrite Hc. exact Hl'.
  - unfold index_some. rewrite Hc. exact Hi'.
  - by rewrite En.
  - by rewrite Ep, <- app_assoc.
Qed.

Lemma batch_storable first ts pairs :
  0 <= first -> first + len pairs < two64 -> in_i64 ts -> Forall pair_ok pairs ->
  Forall storable (batch_entries first ts pairs).
Proof.
  revert first. induction pairs as [|[k d] pairs IH]; intros first Hf Hn Hts Hp; [constructor|].
  apply Forall_cons in Hp as [[Hk Hd] Hp]. rewrite len_cons in Hn. pose proof (len_nonneg pairs).
  cbn [batch_entries]. constructor; [|apply IH; (done || lia)].
  split; [|done]. split; [unfold in_u64; cbn; lia|]. by split.
Qed.

(** Taking numbers, whatever becomes of the append that took them. *)
Lemma taken_ok faults t es lost ts pairs taken failed :
  threads_ok faults t es lost -> next_seq (store t) + len pairs < two64 -> Forall pair_ok pairs ->
  in_i64 ts -> concat taken ++ failed = batch_entries (next_seq (store t)) ts pairs ->
  (faults = false -> failed = []) ->
  threads_ok faults (mkThreads (fetch_add (store t) (len pairs)).1 (inflight t ++ taken)
    (begun t ++ batch_entries (next_seq (store t)) ts pairs)) es (failed ++ lost).
Proof.
  intros [Hl Hi Hb Hn Hr Hw Ha Hz] Hroom Hp Hts Et Hf.
  pose proof (length_batch_entries (next_seq (store t)) ts pairs) as El.
  set (news := batch_entries _ _ _) in *. assert (Elen : len news = len pairs) by (unfold len; by rewrite El).
  pose proof (len_nonneg pairs). pose proof (len_nonneg (begun t)).
  split; cbn; try done.
  - rewrite fmap_app, len_app, seqZ_app by apply len_nonneg. rewrite Hb at 1. f_equal.
    unfold news. rewrite batch_entries_seq, Hn. done.
  - rewrite len_app, Elen, <- Hn. apply Z.mod_small. lia.
  - rewrite len_app. lia.
  - apply Forall_app. split; [done|]. apply batch_storable; [lia|done|done|done].
  - rewrite concat_app, <- Ha, <- Et. solve_Permutation.
  - intros E. by rewrite (Hf E), (Hz E).
Qed.

Lemma begin_ok faults t es lost now pairs s news :
  threads_ok faults t es lost -> next_seq (store t) + len pairs < two64 -> Forall pair_ok pairs ->
  begin_append (store t) now pairs = Ret (s, news) ->
  threads_ok faults (mkThreads s (inflight t ++ [news]) (begun t ++ news)) es lost.
Proof.
  intros Hok Hroom Hp Hbeg. unfold begin_append, fetch_add, unix_nanos in Hbeg.
  destruct (now <? 0); [done|]. cbn [obind] in Hbeg. injection Hbeg as <- <-.
  apply (taken_ok faults t es lost _ pairs [_] []); [done|done|done|apply wrap_i64_range| |done].
  cbn. by rewrite !app_nil_r.
Qed.

Lemma panic_ok t es lost now pairs :
  threads_ok true t es lost -> next_seq (store t) + len pairs < two64 -> Forall pair_ok pairs ->
  threads_ok true (mkThreads (fetch_add (store t) (len pairs)).1 (inflight t)
    (begun t ++ batch_entries (next_seq (store t)) (wrap_i64 now) pairs))
    es (batch_entries (next_seq (store t)) (wrap_i64 now) pairs ++ lost).
Proof.
  intros Hok Hroom Hp. rewrite <- (app_nil_r (inflight t)).
  by apply (taken_ok true t es lost _ pairs []); [| | |apply wrap_i64_range| |].
Qed.

Lemma threads_reach faults t0 t es0 lost0 :
  threads_ok faults t0 es0 lost0 -> rtc (tstep faults) t0 t ->
  (exists es lost, threads_ok faults t es lost) /\ begun t0 `prefix_of` begun t.
Proof.
  intros Hok Hr. revert es0 lost0 Hok. induction Hr as [t|t t1 t2 Hstep Hr IH]; intros es0 lost0 Hok; [eauto|].
  destruct Hstep as [t now pairs s news _ Hroom Hp Hb|t now pairs _ Hroom Hp _ ->|t i news s r Hi Hf Hfault].
  - destruct (IH _ _ (begin_ok _ _ _ _ _ _ _ _ Hok Hroom Hp Hb)) as [? Hpre]. split; [done|].
    etrans; [|exact Hpre]. by eexists.
  - destruct (IH _ _ (panic_ok _ _ _ now _ Hok Hroom Hp)) as [? Hpre]. split; [done|].
    etrans; [|exact Hpre]. by eexists.
  - destruct (finish_ok _ _ _ _ _ _ _ _ Hok Hi Hf Hfault) as (es1 & lost1 & Hok1). by destruct (IH _ _ Hok1).
Qed.

Lemma numbered_sorted first l : seq <$> l = seqZ first (len l) -> seq_sorted l.
Proof.
  revert first. induction l as [|e l IH]; intros first Hs; [constructor|].
  rewrite fmap_cons, len_cons, Z.add_comm, seqZ_cons in Hs by (pose proof (len_nonneg l); lia).
  injection Hs as E Hs. replace (Z.pred (1 + len l)) with (len l) in Hs by lia. constructor; [by eapply IH|].
  rewrite <- (Forall_fmap seq (fun n => seq e < n)), Hs. apply Forall_forall. intros n Hn%elem_of_seqZ. lia.
Qed.

(** With no append under way and none failed, the log is the entries by their numbers. *)
Lemma quiet_log faults t es : threads_ok faults t es [] -> inflight t = [] -> es = begun t.
Proof.
  intros [Hl _ Hb _ _ _ Ha _] Hq. rewrite Hq in Ha. cbn in Ha. rewrite app_nil_r in Ha.
  apply (StronglySorted_unique_strong (fun a b => seq a < seq b)); [intros x y _ _; lia| | |done].
  - by eapply log_rep_sorted.
  - by eapply numbered_sorted.
Qed.

Lemma threads_start faults s es :
  db_rep s es -> gap_free s es -> threads_ok faults (mkThreads s [] es) es [].
Proof.
  intros [Hl Hi Hbe Hn] [Hg1 Hg2]. split; cbn; try done.
  - intros k. rewrite Hi. destruct (last (filter _ es)) as [e|] eqn:El; cbn.
    + apply last_Some_elem_of, list_elem_of_filter in El as [Ek Hin]. eauto.
    + apply last_None in El. intros e Hin Ek.
      assert (Hf : e ∈ filter (fun e => LogEntry.key e = k) es) by (apply list_elem_of_filter; done).
      rewrite El in Hf. by apply elem_of_nil in Hf.
  - unfold in_u64 in Hn. lia.
  - unfold log_rep in Hl. clear -Hl. induction Hl as [|e kv es m (_ & _ & Hw & Hlh) Hl IH]; by constructor.
  - by rewrite app_nil_r.
Qed.

(** What is known of any interleaving: the numbers, and which entries are stored. *)
Definition numbers_once (faults : bool) (es0 : list LogEntry.t) (t : threads) : Prop :=
  es0 `prefix_of` begun t /\
  seq <$> begun t = seqZ 0 (len (begun t)) /\ next_seq (store t) = len (begun t) /\
  exists es lost, log_rep (db (store t)) es /\ index_some (db (store t)) es /\
    es ++ lost ++ concat (inflight t) ≡ₚ begun t /\ (faults = false -> lost = []) /\
    (lost <> [] -> ~ gap_free (store t) es).

(** The log is all entries by their numbers, and a range read returns them. *)
Definition all_stored (t : threads) : Prop :=
  log_rep (db (store t)) (begun t) /\ gap_free (store t) (begun t) /\
  read_as (seq_range (store t) 0 (len (begun t)))
    (iter_fails (db (store t)) CF_LOG (IterFrom (to_vec (u64_to_be_bytes 0)))) (begun t).

Lemma lost_gap faults t es lost : threads_ok faults t es lost -> lost <> [] -> ~ gap_free (store t) es.
Proof.
  intros Hok Hne [_ Hg]. pose proof (Permutation_length (thr_all _ _ _ _ Hok)) as El.
  rewrite !length_app in El. rewrite (thr_next _ _ _ _ Hok) in Hg. unfold len in Hg.
  destruct lost; [done|]. cbn in El. lia.
Qed.

Lemma concurrent_spec faults s es0 t :
  db_rep s es0 -> gap_free s es0 -> rtc (tstep faults) (mkThreads s [] es0) t ->
  numbers_once faults es0 t /\ (faults = false -> inflight t = [] -> all_stored t).
Proof.
  intros Hdb Hg Hr.
  destruct (threads_reach faults _ t _ _ (threads_start faults _ _ Hdb Hg) Hr) as [(es & lost & Hok) Hp].
  split.
  { split; [exact Hp|]. split; [apply Hok|]. split; [apply Hok|]. exists es, lost.
    split; [apply Hok|]. split; [apply Hok|]. split; [apply Hok|]. split; [apply Hok|by eapply lost_gap]. }
  intros Hf Hq. rewrite (thr_lost _ _ _ _ Hok Hf) in Hok.
  pose proof (quiet_log _ _ _ Hok Hq) as ->. destruct Hok as [Hl _ Hb Hn _ _ _ _].
  split; [done|]. split; [by split|].
  destruct (seq_range_log (store t) (begun t) 0 (len (begun t)) Hl ltac:(done)) as [E|(e & He & E)];
    [left|right; eauto]. rewrite E. f_equal. apply filter_all.
  rewrite <- (Forall_fmap seq (fun n => 0 <= n < len (begun t))), Hb.
  apply Forall_forall. intros n Hin%elem_of_seqZ. lia.
Qed.

End Concurrent.
