(* ===== verification/HeadStore.v ===== *)
(** * The head store (crates/settled-storage/src/head_store.rs)

    Signed tree heads, at most one per tree size. *)

From Stdlib Require String.
From S2P Require Import Prelude Bytes Hash Sth Rocksdb StorageTypes Db LogStore Table.
Import String.StringSyntax.

Section Operations.
Context `{Rocksdb} `{Prost}.

Definition head_write (s : DbInner) (sth : SignedTreeHead.t) : DbInner * result unit Error :=
  let proto := sth_to_proto sth in
  match encode_sth proto with
  | Err e => (s, Err (Encode e))
  | Ok buf =>
      write_then s [PutCf CF_HEADS (to_vec (u64_to_be_bytes (SignedTreeHead.tree_size sth))) buf] tt
  end.

(** Decode a stored value and convert it. *)
Definition decode_head (v : bytes) : result SignedTreeHead.t Error :=
  match decode_sth v with
  | Err e => Err (Decode e)
  | Ok proto => sth_try_from proto
  end.

Definition head_latest (s : DbInner) : result (option SignedTreeHead.t) Error :=
  match rdb_iter (db s) CF_HEADS IterEnd with
  | ((_, v) :: _, _) =>
      match decode_head v with
      | Err e => Err e
      | Ok sth => Ok (Some sth)
      end
  | ([], Some e) => Err (RocksDb e)
  | ([], None) => Ok None
  end.

Definition at_size (s : DbInner) (tree_size : Z) : result (option SignedTreeHead.t) Error :=
  match rdb_get (db s) CF_HEADS (to_vec (u64_to_be_bytes tree_size)) with
  | Err e => Err (RocksDb e)
  | Ok None => Ok None
  | Ok (Some v) =>
      match decode_head v with
      | Err e => Err e
      | Ok sth => Ok (Some sth)
      end
  end.

Fixpoint head_range_loop (to_size : Z) (items : kvs) (o : option rdb_error)
    (result_ : list SignedTreeHead.t) : result (list SignedTreeHead.t) Error :=
  match items with
  | [] => match o with Some e => Err (RocksDb e) | None => Ok result_ end
  | (k, v) :: items =>
      match array_try_from 8 k with
      | None => Err (Corruption "bad tree_size key length"%str)
      | Some a =>
          let size := u64_from_be_bytes a in
          if to_size <? size then Ok result_
          else
            match decode_head v with
            | Err e => Err e
            | Ok sth => head_range_loop to_size items o (result_ ++ [sth])
            end
      end
  end.

Definition head_range (s : DbInner) (from_size to_size : Z) : result (list SignedTreeHead.t) Error :=
  let '(items, o) := rdb_iter (db s) CF_HEADS (IterFrom (to_vec (u64_to_be_bytes from_size))) in
  head_range_loop to_size items o [].
End Operations.

Section Heads.
Context {R : Rocksdb} {P : Prost} {RL : RocksdbLaws} {PL : ProstLaws}.
Abbreviation size := SignedTreeHead.tree_size.

Definition head_encodes (h : SignedTreeHead.t) (v : bytes) : Prop :=
  encode_sth (sth_to_proto h) = Ok v /\ sth_wf h.
Abbreviation head_stored := (stored size (fun n => to_vec (u64_to_be_bytes n)) in_u64 head_encodes).

(** The heads column family holds [hs], ordered by size. *)
Definition heads_rep (s : DbInner) (hs : list SignedTreeHead.t) : Prop :=
  Forall2 head_stored hs (contents (db s) CF_HEADS).

Lemma heads_rep_frame s s' hs :
  heads_rep s hs -> contents (db s') CF_HEADS = contents (db s) CF_HEADS -> heads_rep s' hs.
Proof. unfold heads_rep. by intros ? ->. Qed.

Lemma heads_sorted s hs : heads_rep s hs -> ident_sorted size hs.
Proof. intros Hr. eapply stored_sorted; [|exact Hr|apply contents_sorted]. apply u64_be_lt. Qed.

Lemma head_decode h v : head_encodes h v -> decode_head v = Ok h.
Proof.
  intros [Ev Hw]. unfold decode_head. rewrite (sth_roundtrip (sth_to_proto h)); [|by apply sth_proto_wf|done].
  apply sth_proto_roundtrip.
Qed.

Lemma head_write_ok s hs sth :
  heads_rep s hs -> sth_wf sth ->
  exists s' r, head_write s sth = (s', r) /\ next_seq s' = next_seq s /\
    (forall c, c <> CF_HEADS -> contents (db s') c = contents (db s) c) /\
    heads_rep s' (match r with Ok _ => upsert size sth hs | Err _ => hs end).
Proof.
  intros Hr Hw. unfold head_write. destruct (encode_sth _) as [buf|e] eqn:Ee.
  2:{ by exists s, (Err (Encode e)). }
  destruct (write_then _ _ _) as [s' r] eqn:Ew. apply write_then_spec in Ew as [En Hc].
  exists s', r. split; [done|]. split; [done|]. destruct r as [u|e].
  - destruct Hc as [_ Hc]. split.
    + intros c Hne. rewrite Hc. unfold apply_batch. cbn. by rewrite decide_False.
    + unfold heads_rep. rewrite Hc. unfold apply_batch. cbn [foldl apply_op]. rewrite decide_True by done.
      apply stored_put; [apply u64_be_lt|done|]. split; [done|]. split; [done|]. apply Hw.
  - split; [done|]. by eapply heads_rep_frame.
Qed.

Lemma head_write_frame s h s' r :
  head_write s h = (s', r) -> next_seq s' = next_seq s /\
  (forall c, c <> CF_HEADS -> contents (db s') c = contents (db s) c).
Proof.
  unfold head_write. destruct (encode_sth _) as [buf|e]; [|by intros [= <- <-]].
  intros [En Hc]%write_then_spec. split; [done|]. destruct r as [u|e]; [|done].
  intros c Hne. destruct Hc as [_ Hc]. rewrite Hc. unfold apply_batch. cbn. by rewrite decide_False.
Qed.

Lemma head_write_error s h s' e : head_write s h = (s', Err e) -> external_error e.
Proof.
  unfold head_write. destruct (encode_sth _); [apply write_then_error|by intros [= _ <-]].
Qed.

Lemma head_latest_ok s hs :
  heads_rep s hs ->
  head_latest s = Ok (last hs) \/
  exists e, iter_fails (db s) CF_HEADS IterEnd e /\ head_latest s = Err (RocksDb e).
Proof.
  intros Hr. unfold head_latest, iter_fails. destruct (rdb_iter _ _ _) as [items o] eqn:E.
  pose proof (iter_last _ _ _ _ _ _ Hr E) as Hl. destruct items as [|[k v] items].
  - destruct o as [e|]; [right; eauto|left]. by rewrite Hl.
  - left. destruct Hl as (h & -> & _ & He & _). by rewrite (head_decode h).
Qed.

Lemma at_size_ok s hs n :
  heads_rep s hs -> in_u64 n ->
  at_size s n = Ok (find_id size n hs) \/
  exists e, rdb_get (db s) CF_HEADS (to_vec (u64_to_be_bytes n)) = Err e /\ at_size s n = Err (RocksDb e).
Proof.
  intros Hr Hn. unfold at_size. destruct (rdb_get _ _ _) as [o|e] eqn:E; [left|right; eauto].
  apply rdb_get_ok in E. subst o.
  pose proof (stored_find size _ _ _ u64_be_lt hs _ n Hr Hn) as Hf.
  destruct (find_id size n hs) as [h|].
  - destruct Hf as (v & -> & He & _). by rewrite (head_decode h).
  - by rewrite Hf.
Qed.

Lemma head_range_loop_ok to_size items o l2 : forall l1 acc,
  ident_sorted size (l1 ++ l2) -> Forall2 head_stored l1 items -> (o = None -> l2 = []) ->
  head_range_loop to_size items o acc = Ok (acc ++ filter (fun h => size h <= to_size) (l1 ++ l2)) \/
  exists e, o = Some e /\ head_range_loop to_size items o acc = Err (RocksDb e).
Proof.
  induction items as [|[k v] items IH]; intros l1 acc Hs Hf Ho.
  - apply Forall2_nil_inv_r in Hf as ->. cbn. destruct o as [e|]; [right; eauto|left].
    rewrite Ho by done. by rewrite app_nil_r.
  - destruct l1 as [|h l1]; [by inversion Hf|].
    apply Forall2_cons_1 in Hf as [(Ek & Ev & Hv) Hf]. cbn [fst snd] in *. subst k.
    cbn [head_range_loop]. rewrite array_try_from_to_vec, u64_be_roundtrip, (head_decode h) by done.
    change ((h :: l1) ++ l2) with (h :: (l1 ++ l2)) in *. inversion Hs as [|? ? Hs' Hlt]; subst.
    destruct (Z.ltb_spec to_size (size h)).
    + left. rewrite filter_none; [by rewrite app_nil_r|]. constructor; [lia|].
      eapply Forall_impl; [exact Hlt|]. cbn. lia.
    + rewrite filter_cons_True by lia.
      destruct (IH l1 (acc ++ [h]) Hs' Hf Ho) as [E|E]; [left|by right]. by rewrite E, <- app_assoc.
Qed.

Lemma head_range_ok s hs from_size to_size :
  heads_rep s hs -> in_u64 from_size ->
  head_range s from_size to_size = Ok (filter (fun h => from_size <= size h <= to_size) hs) \/
  exists e, iter_fails (db s) CF_HEADS (IterFrom (to_vec (u64_to_be_bytes from_size))) e /\
    head_range s from_size to_size = Err (RocksDb e).
Proof.
  intros Hr Hn. unfold head_range, iter_fails. destruct (rdb_iter _ _ _) as [items o] eqn:E.
  assert (Hf : Forall2 head_stored (filter (fun h => from_size <= size h) hs)
                 (scan (contents (db s) CF_HEADS) (IterFrom (to_vec (u64_to_be_bytes from_size))))).
  { apply Forall2_filter; [|exact Hr]. intros h kv (Ek & _ & Hh). rewrite Ek. symmetry.
    by apply u64_be_le. }
  destruct (iter_split _ _ _ _ _ _ _ Hf E) as (l1 & l2 & El & Hf1 & Ho).
  destruct (head_range_loop_ok to_size items o l2 l1 []) as [Er|(e & -> & Er)];
    [|done|done|left|right; eauto].
  - rewrite <- El. apply StronglySorted_filter. by eapply heads_sorted.
  - rewrite Er, app_nil_l, <- El, list_filter_filter. f_equal. apply list_filter_iff. intros h. lia.
Qed.

(** C31: the head store keeps one head per tree size.  After a successful
    [write], [at_size] at its size yields that head, every other size is answered
    as before, [latest] is the head of the largest size and [range] the heads of the
    sizes in the closed interval, ascending; a failed [write] changes nothing.  A write
    fails only with an error of RocksDB or the encoder, a read only with the one RocksDB reports. *)
Theorem head_store_spec (s : DbInner) (hs : list SignedTreeHead.t) (sth : SignedTreeHead.t)
    (Hr : heads_rep s hs) (Hw : sth_wf sth) :
  exists s' r, head_write s sth = (s', r) /\ (forall e, r = Err e -> external_error e) /\
    let hs' := match r with Ok _ => upsert size sth hs | Err _ => hs end in
    heads_rep s' hs' /\ ident_sorted size hs' /\
    (forall n, in_u64 n ->
       read_as (at_size s' n) (fun e => rdb_get (db s') CF_HEADS (to_vec (u64_to_be_bytes n)) = Err e)
         (match r with
          | Ok _ => if n =? size sth then Some sth else find_id size n hs
          | Err _ => find_id size n hs
          end)) /\
    read_as (head_latest s') (iter_fails (db s') CF_HEADS IterEnd) (last hs') /\
    (forall h, last hs' = Some h -> Forall (fun h' => size h' <= size h) hs') /\
    (forall a b, in_u64 a ->
       read_as (head_range s' a b) (iter_fails (db s') CF_HEADS (IterFrom (to_vec (u64_to_be_bytes a))))
         (filter (fun h => a <= size h <= b) hs')).
Proof.
  destruct (head_write_ok s hs sth Hr Hw) as (s' & r & E & _ & _ & Hr'). exists s', r.
  split; [done|]. split; [intros e ->; by eapply head_write_error|].
  cbn zeta. set (hs' := match r with Ok _ => _ | Err _ => _ end) in *.
  pose proof (heads_sorted s' hs' Hr') as Hs. split; [done|]. split; [done|]. split; [|split; [|split]].
  - intros n Hn. destruct (at_size_ok s' hs' n Hr' Hn) as [E'|E']; [left|by right].
    rewrite E'. f_equal. unfold hs'. destruct r as [u|e]; [|done].
    destruct (Z.eqb_spec n (size sth)) as [->|Hne]; [apply find_upsert_eq|by apply find_upsert_ne].
  - apply (head_latest_ok s' hs' Hr').
  - intros h Eh. by apply sorted_last_max.
  - intros a b Ha. apply (head_range_ok s' hs' a b Hr' Ha).
Qed.
End Heads.

#[export] Hint Resolve heads_rep_frame : frame.
