(* ===== verification/KeyStore.v ===== *)
(** * The key store (crates/settled-storage/src/key_store.rs)

    The history of signing keys, one record per version. *)

From Stdlib Require String.
From S2P Require Import Prelude Bytes Hash Sth Rocksdb StorageTypes Db LogStore Table.
Import String.StringSyntax.

Module KeyRecord.
Record t := mk {
  version : Z;
  public_key : array 32;
  activated_at_tree_size : Z
}.
End KeyRecord.

Section Operations.
Context `{Rocksdb} `{Prost}.

Definition key_put (s : DbInner) (record : KeyRecord.t) : DbInner * result unit Error :=
  let proto := KeyRecordProto.mk (KeyRecord.version record)
                 (to_vec (KeyRecord.public_key record)) (KeyRecord.activated_at_tree_size record) in
  match encode_key_record proto with
  | Err e => (s, Err (Encode e))
  | Ok buf =>
      let '(d, r) := rdb_put (db s) CF_KEYS (to_vec (u32_to_be_bytes (KeyRecord.version record))) buf in
      (set_db s d, map_err RocksDb r)
  end.

Definition key_decode (bytes : bytes) : result KeyRecord.t Error :=
  match decode_key_record bytes with
  | Err e => Err (Decode e)
  | Ok proto =>
      match array_try_from 32 (KeyRecordProto.public_key proto) with
      | None => Err (Corruption "KeyRecord public_key must be 32 bytes"%str)
      | Some public_key =>
          Ok (KeyRecord.mk (KeyRecordProto.version proto) public_key
                (KeyRecordProto.activated_at_tree_size proto))
      end
  end.

Definition key_get (s : DbInner) (version : Z) : result (option KeyRecord.t) Error :=
  match rdb_get (db s) CF_KEYS (to_vec (u32_to_be_bytes version)) with
  | Err e => Err (RocksDb e)
  | Ok None => Ok None
  | Ok (Some v) => match key_decode v with Err e => Err e | Ok r => Ok (Some r) end
  end.

Definition key_latest (s : DbInner) : result (option KeyRecord.t) Error :=
  match rdb_iter (db s) CF_KEYS IterEnd with
  | ((_, v) :: _, _) => match key_decode v with Err e => Err e | Ok r => Ok (Some r) end
  | ([], Some e) => Err (RocksDb e)
  | ([], None) => Ok None
  end.

Fixpoint key_all_loop (items : kvs) (o : option rdb_error) (records : list KeyRecord.t)
  : result (list KeyRecord.t) Error :=
  match items with
  | [] => match o with Some e => Err (RocksDb e) | None => Ok records end
  | (_, v) :: items =>
      match key_decode v with
      | Err e => Err e
      | Ok r => key_all_loop items o (records ++ [r])
      end
  end.

Definition key_all (s : DbInner) : result (list KeyRecord.t) Error :=
  let '(items, o) := rdb_iter (db s) CF_KEYS IterStart in
  key_all_loop items o [].
End Operations.

Section Keys.
Context {R : Rocksdb} {P : Prost} {RL : RocksdbLaws} {PL : ProstLaws}.
Abbreviation version := KeyRecord.version.

Definition key_wf (k : KeyRecord.t) : Prop :=
  in_u32 (version k) /\ in_u64 (KeyRecord.activated_at_tree_size k).
Definition key_encodes (k : KeyRecord.t) (v : bytes) : Prop :=
  encode_key_record (KeyRecordProto.mk (version k) (to_vec (KeyRecord.public_key k))
    (KeyRecord.activated_at_tree_size k)) = Ok v /\ key_wf k.
Abbreviation key_stored := (stored version (fun n => to_vec (u32_to_be_bytes n)) in_u32 key_encodes).

Definition keys_rep (s : DbInner) (ks : list KeyRecord.t) : Prop :=
  Forall2 key_stored ks (contents (db s) CF_KEYS).

Lemma keys_rep_frame s s' ks :
  keys_rep s ks -> contents (db s') CF_KEYS = contents (db s) CF_KEYS -> keys_rep s' ks.
Proof. unfold keys_rep. by intros ? ->. Qed.

Lemma keys_sorted s ks : keys_rep s ks -> ident_sorted version ks.
Proof. intros Hr. eapply stored_sorted; [|exact Hr|apply contents_sorted]. apply u32_be_lt. Qed.

Lemma key_decode_ok k v : key_encodes k v -> key_decode v = Ok k.
Proof.
  intros [Ev [Hv Ha]]. unfold key_decode. erewrite key_record_roundtrip; [|..|exact Ev].
  - cbn. rewrite array_try_from_to_vec. by destruct k.
  - split; [done|]. split; [done|]. cbn. unfold len. by rewrite array_length.
Qed.

Lemma key_put_frame s k s' r :
  key_put s k = (s', r) -> next_seq s' = next_seq s /\
  (forall c, c <> CF_KEYS -> contents (db s') c = contents (db s) c).
Proof.
  unfold key_put. destruct (encode_key_record _) as [buf|e]; [|by intros [= <- <-]].
  destruct (rdb_put _ _ _ _) as [d [[]|e]] eqn:Ep; intros [= <- <-]; (split; [done|]); intros c Hne; cbn.
  - rewrite (rdb_put_ok _ _ _ _ _ c Ep). unfold apply_batch. cbn. by rewrite decide_False.
  - by rewrite (rdb_put_err _ _ _ _ _ _ c Ep).
Qed.

Lemma key_put_ok s ks k :
  keys_rep s ks -> key_wf k ->
  exists s' r, key_put s k = (s', r) /\
    keys_rep s' (match r with Ok _ => upsert version k ks | Err _ => ks end).
Proof.
  intros Hr Hw. unfold key_put. destruct (encode_key_record _) as [buf|e] eqn:Ee.
  2:{ by exists s, (Err (Encode e)). }
  destruct (rdb_put _ _ _ _) as [d [[]|e]] eqn:Ep; eexists _, _; (split; [done|]).
  - unfold keys_rep. cbn [db set_db map_err]. rewrite (rdb_put_ok _ _ _ _ _ _ Ep).
    unfold apply_batch. cbn [foldl apply_op]. rewrite decide_True by done.
    apply stored_put; [apply u32_be_lt|done|]. split; [done|]. split; [done|]. apply Hw.
  - eapply keys_rep_frame; [done|by eapply rdb_put_err].
Qed.

Lemma key_put_error s k s' e : key_put s k = (s', Err e) -> external_error e.
Proof.
  unfold key_put. destruct (encode_key_record _); [|by intros [= _ <-]].
  destruct (rdb_put _ _ _ _) as [d [[]|x]]; [done|by intros [= _ <-]].
Qed.

Lemma key_get_ok s ks n :
  keys_rep s ks -> in_u32 n ->
  key_get s n = Ok (find_id version n ks) \/
  exists e, rdb_get (db s) CF_KEYS (to_vec (u32_to_be_bytes n)) = Err e /\ key_get s n = Err (RocksDb e).
Proof.
  intros Hr Hn. unfold key_get. destruct (rdb_get _ _ _) as [o|e] eqn:E; [left|right; eauto].
  apply rdb_get_ok in E. subst o.
  pose proof (stored_find version _ _ _ u32_be_lt ks _ n Hr Hn) as Hf.
  destruct (find_id version n ks) as [k|].
  - destruct Hf as (v & -> & He & _). by rewrite (key_decode_ok k).
  - by rewrite Hf.
Qed.

Lemma key_latest_ok s ks :
  keys_rep s ks ->
  key_latest s = Ok (last ks) \/
  exists e, iter_fails (db s) CF_KEYS IterEnd e /\ key_latest s = Err (RocksDb e).
Proof.
  intros Hr. unfold key_latest, iter_fails. destruct (rdb_iter _ _ _) as [items o] eqn:E.
  pose proof (iter_last _ _ _ _ _ _ Hr E) as Hl. destruct items as [|[k v] items].
  - destruct o as [e|]; [right; eauto|left]. by rewrite Hl.
  - left. destruct Hl as (r & -> & _ & He & _). by rewrite (key_decode_ok r).
Qed.

Lemma key_all_loop_ok l2 o items : forall l1 acc,
  Forall2 key_stored l1 items -> (o = None -> l2 = []) ->
  key_all_loop items o acc = match o with Some e => Err (RocksDb e) | None => Ok (acc ++ l1 ++ l2) end.
Proof.
  induction items as [|[k v] items IH]; intros l1 acc Hf Ho.
  - apply Forall2_nil_inv_r in Hf as ->. cbn. destruct o; [done|]. rewrite Ho by done.
    by rewrite app_nil_r.
  - destruct l1 as [|r l1]; [by inversion Hf|]. apply Forall2_cons_1 in Hf as [(_ & He & _) Hf].
    cbn [key_all_loop fst snd] in *. rewrite (key_decode_ok r), (IH l1) by done.
    by rewrite <- app_assoc.
Qed.

Lemma key_all_ok s ks :
  keys_rep s ks ->
  key_all s = Ok ks \/
  exists e, iter_fails (db s) CF_KEYS IterStart e /\ key_all s = Err (RocksDb e).
Proof.
  intros Hr. unfold key_all, iter_fails. destruct (rdb_iter _ _ _) as [items o] eqn:E.
  destruct (iter_split key_stored ks _ _ IterStart _ _ Hr E) as (l1 & l2 & -> & Hf & Ho).
  rewrite (key_all_loop_ok l2 o items l1) by done. destruct o as [e|]; [right; eauto|by left].
Qed.

(** The key store keeps one record per version.  After a successful [put],
    [get] of its version yields that record and every other version is answered as
    before; [latest] is the record of the highest version and [all] every record,
    ascending by version; a failed [put] changes nothing.  A write fails only with an
    error of RocksDB or the encoder, a read only with the one RocksDB reports. *)
Theorem key_store_spec (s : DbInner) (ks : list KeyRecord.t) (k : KeyRecord.t)
    (Hr : keys_rep s ks) (Hw : key_wf k) :
  exists s' r, key_put s k = (s', r) /\ (forall e, r = Err e -> external_error e) /\
    let ks' := match r with Ok _ => upsert version k ks | Err _ => ks end in
    keys_rep s' ks' /\ ident_sorted version ks' /\
    (forall n, in_u32 n ->
       read_as (key_get s' n) (fun e => rdb_get (db s') CF_KEYS (to_vec (u32_to_be_bytes n)) = Err e)
         (match r with
          | Ok _ => if n =? version k then Some k else find_id version n ks
          | Err _ => find_id version n ks
          end)) /\
    read_as (key_latest s') (iter_fails (db s') CF_KEYS IterEnd) (last ks') /\
    (forall k', last ks' = Some k' -> Forall (fun k'' => version k'' <= version k') ks') /\
    read_as (key_all s') (iter_fails (db s') CF_KEYS IterStart) ks'.
Proof.
  destruct (key_put_ok s ks k Hr Hw) as (s' & r & E & Hr'). exists s', r.
  split; [done|]. split; [intros e ->; by eapply key_put_error|].
  cbn zeta. set (ks' := match r with Ok _ => _ | Err _ => _ end) in *.
  pose proof (keys_sorted s' ks' Hr') as Hs. split; [done|]. split; [done|]. split; [|split; [|split]].
  - intros n Hn. destruct (key_get_ok s' ks' n Hr' Hn) as [E'|E']; [left|by right].
    rewrite E'. f_equal. unfold ks'. destruct r as [u|e]; [|done].
    destruct (Z.eqb_spec n (version k)) as [->|Hne]; [apply find_upsert_eq|by apply find_upsert_ne].
  - apply (key_latest_ok s' ks' Hr').
  - intros k' Ek. by apply sorted_last_max.
  - apply (key_all_ok s' ks' Hr').
Qed.
End Keys.

#[export] Hint Resolve keys_rep_frame : frame.
