(* ===== verification/StorageDemo.v ===== *)
(** * The storage theorems on concrete databases

    The in-memory database, the demonstration codec and the real SHA-256: every
    storage theorem is applied to a store built by running the operations. *)

From S2P Require Import Prelude Bytes Hash MerkleSpec Merkle Sha256Instance Sth Rocksdb.
From S2P Require Import StorageTypes Db LogStore LogTheorems TreeStore Table HeadStore KeyStore.

Module StorageDemo.
#[local] Existing Instance fips_sha256.
#[local] Existing Instance MemDb.memdb.
#[local] Existing Instance MemDb.memdb_laws.
#[local] Existing Instance DemoCodec.codec.
#[local] Existing Instance DemoCodec.codec_laws.
#[local] Instance checked_build : Profile := true.

(** A new database whose writes follow a schedule of failures. *)
Definition fresh (failures : list bool) : DbInner := {| db := MemDb.empty failures; next_seq := 0 |}.
Definition now : Z := 1700000000000000000.
Definition k1 : bytes := [Init.Byte.x61].
Definition d1 : bytes := [Init.Byte.x01; Init.Byte.x02].

Lemma fresh_rep failures : db_rep (fresh failures) [].
Proof. by split; [constructor| |constructor|]. Qed.
Lemma fresh_heads failures : heads_rep (fresh failures) [].
Proof. constructor. Qed.
Lemma fresh_keys failures : keys_rep (fresh failures) [].
Proof. constructor. Qed.
Lemma fresh_gap_free failures : gap_free (fresh failures) [].
Proof. done. Qed.
Lemma pair_small : pair_ok (k1, d1).
Proof. done. Qed.

(** The store an operation leaves. *)
Definition after {A} (o : outcome (DbInner * A)) : DbInner :=
  match o with Ret (s, _) => s | _ => fresh [] end.
Definition ok_value {A} (o : outcome (DbInner * result A Error)) : option A :=
  match o with Ret (_, Ok a) => Some a | _ => None end.
Definition write_failed {A} (o : outcome (DbInner * result A Error)) : bool :=
  match o with Ret (_, Err (RocksDb _)) => true | _ => false end.
Definition panics {A} (o : outcome A) : bool := match o with Panic => true | _ => false end.

Lemma after_ok {A} (o : outcome (DbInner * result A Error)) a :
  ok_value o = Some a -> o = Ret (after o, Ok a).
Proof. destruct o as [[s [b|e]]| |]; cbn; congruence. Qed.
Lemma after_failed {A} (o : outcome (DbInner * result A Error)) :
  write_failed o = true -> o = Ret (after o, Err (RocksDb MemDb.WriteFailed)).
Proof. by destruct o as [[s [b|[[]| | | |]]]| |]. Qed.
Lemma panics_ok {A} (o : outcome A) : panics o = true -> o = Panic.
Proof. by destruct o. Qed.

(** One entry appended to a new database. *)
Definition s1 : DbInner := after (append (fresh []) now k1 d1).
Definition e1 : LogEntry.t := new_entry 0 now k1 d1.

Lemma s1_ok : append (fresh []) now k1 d1 = Ret (s1, Ok (0, now)).
Proof. apply after_ok. vm_compute. reflexivity. Qed.

Lemma s1_rep : db_rep s1 [e1] /\ next_seq s1 = 1.
Proof.
  destruct (append_spec (fresh []) [] now k1 d1 (fresh_rep []) ltac:(done) ltac:(done) pair_small)
    as (s' & r & E & En & _ & Hr). rewrite s1_ok in E. injection E as <- <-.
  destruct Hr as (_ & _ & Hr). done.
Qed.

Lemma s1_gap_free : gap_free s1 [e1].
Proof. split; [done|apply s1_rep]. Qed.

(** And a second one. *)
Definition s2 : DbInner := after (append s1 now k1 d1).
Definition e2 : LogEntry.t := new_entry 1 now k1 d1.
Lemma s2_ok : append s1 now k1 d1 = Ret (s2, Ok (1, now)).
Proof. apply after_ok. vm_compute. reflexivity. Qed.
Lemma s2_rep : db_rep s2 [e1; e2].
Proof.
  destruct s1_rep as [Hr1 Hn1].
  destruct (append_spec s1 [e1] now k1 d1 Hr1 ltac:(by rewrite Hn1) ltac:(done) pair_small)
    as (s' & r & E & _ & _ & Hr). rewrite s2_ok in E. injection E as <- <-.
  by destruct Hr as (_ & _ & Hr).
Qed.

Lemma append_refines_witness :
  exists s' r, append s1 now k1 d1 = Ret (s', r) /\
    next_seq s' = next_seq s1 + 1 /\
    (forall c, c <> CF_LOG -> c <> CF_INDEX -> contents (db s') c = contents (db s1) c) /\
    match r with
    | Ok (n, ts) => n = next_seq s1 /\ ts = wrap_i64 now /\ db_rep s' ([e1] ++ [new_entry n ts k1 d1])
    | Err e => db_rep s' [e1] /\ write_fault (db s1) [new_entry (next_seq s1) (wrap_i64 now) k1 d1] e
    end.
Proof.
  apply (append_refines s1 [e1] now k1 d1);
    [apply s1_rep|rewrite (proj2 s1_rep); reflexivity|discriminate|exact pair_small].
Defined.

Lemma append_batch_refines_witness :
  exists s' r, append_batch s1 now [(k1, d1); (k1, k1)] = Ret (s', r) /\
    next_seq s' = next_seq s1 + len [(k1, d1); (k1, k1)] /\
    (forall c, c <> CF_LOG -> c <> CF_INDEX -> contents (db s') c = contents (db s1) c) /\
    let news := batch_entries (next_seq s1) (wrap_i64 now) [(k1, d1); (k1, k1)] in
    match r with
    | Ok l => l = batch_result <$> news /\ db_rep s' ([e1] ++ news)
    | Err e => db_rep s' [e1] /\ write_fault (db s1) news e
    end.
Proof.
  apply (append_batch_refines s1 [e1] now [(k1, d1); (k1, k1)]);
    [apply s1_rep|rewrite (proj2 s1_rep); reflexivity|discriminate|].
  repeat constructor; exact pair_small || done.
Defined.

Lemma range_reads_witness :
  (seq_range s1 0 5 = Ok (filter (fun e => 0 <= LogEntry.seq e < 5) [e1]) \/
   exists e, iter_fails (db s1) CF_LOG (IterFrom (to_vec (u64_to_be_bytes 0))) e /\
     seq_range s1 0 5 = Err (RocksDb e)) /\
  (latest s1 3 = Ok (take (Z.to_nat 3) (reverse [e1])) \/
   exists e, iter_fails (db s1) CF_LOG IterEnd e /\ latest s1 3 = Err (RocksDb e)) /\
  (let F := filter (in_page 0 5) [e1] in
   seq_range_paged s1 0 5 3 =
     Ret (Ok (take (Z.to_nat 3) F, if 3 =? 0 then 0 else
       match F !! Z.to_nat (3 - 1) with
       | Some e => if (5 =? 0) || (LogEntry.seq e + 1 <? 5) then LogEntry.seq e + 1 else 0
       | None => 0
       end)) \/
   exists e, iter_fails (db s1) CF_LOG (IterFrom (to_vec (u64_to_be_bytes 0))) e /\
     seq_range_paged s1 0 5 3 = Ret (Err (RocksDb e))).
Proof. apply (range_reads s1 [e1] 0 5 3); [apply s1_rep|split; [discriminate|reflexivity]|discriminate]. Defined.

Lemma append_lookup_witness :
  read_as (get_by_seq s1 0) (fun e => rdb_get (db s1) CF_LOG (to_vec (u64_to_be_bytes 0)) = Err e)
    (Some (new_entry 0 now k1 d1)) /\
  read_as (get_seq_by_key s1 k1) (fun e => rdb_get (db s1) CF_INDEX k1 = Err e) (Some 0) /\
  (forall m o o', in_u64 m -> m <> 0 -> get_by_seq (fresh []) m = Ok o -> get_by_seq s1 m = Ok o' -> o = o') /\
  (gap_free (fresh []) [] -> gap_free s1 ([] ++ [new_entry 0 now k1 d1])).
Proof.
  apply (append_lookup (fresh []) s1 [] now 0 now k1 d1);
    [apply fresh_rep|reflexivity|discriminate|exact pair_small|exact s1_ok].
Defined.

(** The first write fails, the second succeeds. *)
Definition f1 : DbInner := after (append (fresh [true]) now k1 d1).
Definition f2 : DbInner := after (append f1 now k1 d1).

Lemma f1_fails : append (fresh [true]) now k1 d1 = Ret (f1, Err (RocksDb MemDb.WriteFailed)).
Proof. apply after_failed. vm_compute. reflexivity. Qed.
Lemma f2_ok : append f1 now k1 d1 = Ret (f2, Ok (1, now)).
Proof. apply after_ok. vm_compute. reflexivity. Qed.

Lemma failed_append_gap_witness :
  let es' := [] ++ [new_entry 1 now k1 d1] in
  db_rep f2 es' /\ 1 = len (@nil LogEntry.t) + 1 /\
  Forall (fun e => LogEntry.seq e <> len (@nil LogEntry.t)) es' /\ count f2 = len es' + 1.
Proof.
  apply (failed_append_gap (fresh [true]) f1 f2 [] now now 1 now k1 d1 k1 d1
    (RocksDb (H := MemDb.memdb) MemDb.WriteFailed));
    [apply fresh_rep|apply fresh_gap_free|reflexivity|discriminate|discriminate|exact pair_small
    |exact pair_small|exact f1_fails|exact f2_ok].
Defined.

Lemma reopen_recovers_witness :
  exists r, open (Ok (db s1)) = Ret r /\
    match r with
    | Ok s' => db_rep s' [e1] /\
        next_seq s' = from_option (fun e => LogEntry.seq e + 1) 0 (last [e1]) /\
        (forall c, c <> CF_DEFAULT -> contents (db s') c = contents (db s1) c) /\
        (LogEntry.seq <$> [e1] = seqZ 0 (len [e1]) -> gap_free s' [e1])
    | Err e => schema_error (db s1) e \/
        exists x, iter_fails (check_schema (db s1)).1 CF_LOG IterEnd x /\ e = RocksDb x
    end.
Proof. apply (reopen_recovers s1 [e1]). apply s1_rep. Defined.

Lemma compute_nodes_correct_witness :
  exists nodes, compute_nodes_from_leaves (zip (seqZ 0 (len [leaf_hash k1; leaf_hash d1]))
                                             [leaf_hash k1; leaf_hash d1]) = Ret nodes /\
    forall h i x, (h, i, x) ∈ nodes <->
      0 <= h < 63 /\ 0 <= i /\ (i + 1) * 2 ^ h <= len [leaf_hash k1; leaf_hash d1] /\
      mth (slice [leaf_hash k1; leaf_hash d1] (i * 2 ^ h) (2 ^ h)) = Ret (Some x).
Proof. apply (compute_nodes_correct [leaf_hash k1; leaf_hash d1]). reflexivity. Defined.

Lemma rebuild_restores_witness :
  exists s' r, rebuild_from_log s1 = Ret (s', r) /\ db_rep s' [e1] /\
    (r = Ok tt -> tree_ok s' (LogEntry.leaf_hash <$> [e1])) /\ (forall e, r = Err e -> external_error e).
Proof.
  apply (rebuild_restores s1 [e1]); [apply s1_rep|exact s1_gap_free|].
  intros e [items E]. discriminate E.
Defined.

(** A gap makes the rebuild panic: entries 0, 2 and 3 have no left sibling for
    the parent at level 2. *)
Definition g0 : DbInner := after (append (fresh [false; true]) now k1 d1).
Definition g3 : DbInner :=
  after (append (after (append (after (append g0 now k1 d1)) now k1 d1)) now k1 d1).
Example rebuild_gap_panics : rebuild_from_log g3 = Panic.
Proof. apply panics_ok. vm_compute. reflexivity. Qed.

Definition head1 : SignedTreeHead.t :=
  SignedTreeHead.mk 1 (leaf_hash d1) now (array_fill 64 Init.Byte.x00) ToyEd25519.z32 1.

Lemma head_store_spec_witness :
  let size := SignedTreeHead.tree_size in
  exists s' r, head_write s1 head1 = (s', r) /\ (forall e, r = Err e -> external_error e) /\
    let hs' := match r with Ok _ => upsert size head1 [] | Err _ => [] end in
    heads_rep s' hs' /\ ident_sorted size hs' /\
    (forall n, in_u64 n ->
       read_as (at_size s' n) (fun e => rdb_get (db s') CF_HEADS (to_vec (u64_to_be_bytes n)) = Err e)
         (match r with
          | Ok _ => if n =? size head1 then Some head1 else find_id size n []
          | Err _ => find_id size n []
          end)) /\
    read_as (head_latest s') (iter_fails (db s') CF_HEADS IterEnd) (last hs') /\
    (forall h, last hs' = Some h -> Forall (fun h' => size h' <= size h) hs') /\
    (forall a b, in_u64 a ->
       read_as (head_range s' a b) (iter_fails (db s') CF_HEADS (IterFrom (to_vec (u64_to_be_bytes a))))
         (filter (fun h => a <= size h <= b) hs')).
Proof.
  apply (head_store_spec s1 [] head1); [constructor|].
  split; [split; [discriminate|reflexivity]|]. split; split; discriminate || reflexivity.
Defined.

Definition key1 : KeyRecord.t := KeyRecord.mk 1 ToyEd25519.z32 0.
Lemma key_store_spec_witness :
  let version := KeyRecord.version in
  exists s' r, key_put s1 key1 = (s', r) /\ (forall e, r = Err e -> external_error e) /\
    let ks' := match r with Ok _ => upsert version key1 [] | Err _ => [] end in
    keys_rep s' ks' /\ ident_sorted version ks' /\
    (forall n, in_u32 n ->
       read_as (key_get s' n) (fun e => rdb_get (db s') CF_KEYS (to_vec (u32_to_be_bytes n)) = Err e)
         (match r with
          | Ok _ => if n =? version key1 then Some key1 else find_id version n []
          | Err _ => find_id version n []
          end)) /\
    read_as (key_latest s') (iter_fails (db s') CF_KEYS IterEnd) (last ks') /\
    (forall k', last ks' = Some k' -> Forall (fun k'' => version k'' <= version k') ks') /\
    read_as (key_all s') (iter_fails (db s') CF_KEYS IterStart) ks'.
Proof.
  apply (key_store_spec s1 [] key1); [constructor|].
  split; split; discriminate || reflexivity.
Defined.
End StorageDemo.
