(* ===== verification/ServerState.v ===== *)
(** * State of the server (crates/settled-server/src/{error,config,signer,state,sth_task}.rs)

    [AppState] with its start-up from disk, the hot-swappable signer, and the
    signing of tree heads.  The clock, the random generator and the result of
    writing the key file are arguments; the rate limiter is an interface. *)

From Stdlib Require String.
From stdpp Require Import pretty.
From S2P Require Import Prelude Bytes Hash Merkle MerkleProof Sth Rocksdb StorageTypes Db LogStore.
From S2P Require Import HeadStore KeyStore.
Import String.StringSyntax.

(** ** Errors and gRPC statuses (error.rs) *)

Inductive Code := NotFound | InvalidArgument | Internal | ResourceExhausted | Unauthenticated.
#[global] Instance Code_eq_dec : EqDecision Code.
Proof. solve_decision. Defined.

Record Status := mkStatus { code : Code; message : String.string }.

(** [Display] of the error types of RocksDB and prost. *)
Class ErrorDisplay `{Rocksdb} `{Prost} := {
  rdb_error_display : rdb_error -> String.string;
  encode_error_display : EncodeError -> String.string;
  decode_error_display : DecodeError -> String.string
}.

Section Errors.
Context `{ErrorDisplay}.
#[local] Open Scope string_scope.

(** [Display] of the storage error ([#\[error(..)\]] attributes of storage/src/error.rs). *)
Definition storage_error_display (e : StorageTypes.Error) : String.string :=
  match e with
  | RocksDb e => "RocksDB error: " ++ rdb_error_display e
  | Encode e => "Protobuf encode error: " ++ encode_error_display e
  | Decode e => "Protobuf decode error: " ++ decode_error_display e
  | Corruption msg => "Data corruption: " ++ msg
  | SchemaMismatch found supported =>
      "Schema version mismatch: found " ++ pretty found ++
      ", this binary supports up to " ++ pretty supported
  end.

Definition proof_error_display (e : ProofError) : String.string :=
  match e with
  | LeafIndexOutOfRange i n => "leaf index " ++ pretty i ++ " out of range for tree size " ++ pretty n
  | InvalidSizes o n => "invalid tree sizes: old=" ++ pretty o ++ " new=" ++ pretty n
  | TooShort => "proof too short"
  | TooLong => "proof too long"
  end.

Inductive ServerError :=
| EStorage (e : StorageTypes.Error)
| EProof (e : ProofError)
| ENotFound (msg : String.string)
| EInvalidArgument (msg : String.string).

(** [impl From<Error> for Status] *)
Definition to_status (e : ServerError) : Status :=
  match e with
  | ENotFound msg => mkStatus NotFound msg
  | EInvalidArgument msg => mkStatus InvalidArgument msg
  | EStorage e => mkStatus Internal (storage_error_display e)
  | EProof e => mkStatus Internal (proof_error_display e)
  end.
End Errors.

(** ** The signer (signer.rs) *)

Inductive fs_write :=
| FsOk
| FsFailed (left_ : option bytes).  (** what a failed write leaves in the file *)

Section Signer.
Context `{Ed25519}.

Record LocalSigner := mkSigner { sig_key : SigningKey; sig_version : Z }.

Definition sign (s : LocalSigner) (payload : array 48) : array 64 := ed_sign (sig_key s) (to_vec payload).
Definition public_key (s : LocalSigner) : array 32 := vk_to_bytes (verifying_key (sig_key s)).
Definition key_version (s : LocalSigner) : Z := sig_version s.

(** [load_or_generate]: [file] is the key file ([None] if absent), [read_ok]
    whether reading it succeeds, [fresh] the generated key and [w] the result of writing it.
    Returns the file afterwards and the signer, if any. *)
Definition load_or_generate (file : option bytes) (read_ok : bool) (fresh : SigningKey) (w : fs_write)
    (version : Z) : option bytes * option LocalSigner :=
  match file with
  | Some content =>
      if read_ok then
        match array_try_from 32 content with
        | None => (file, None)
        | Some arr => (file, Some (mkSigner (sk_from_bytes arr) version))
        end
      else (file, None)
  | None =>
      match w with
      | FsFailed l => (l, None)
      | FsOk => (Some (to_vec (sk_to_bytes fresh)), Some (mkSigner fresh version))
      end
  end.

(** [rotate]: the key file is written before the in-memory key is swapped. *)
Definition rotate (s : LocalSigner) (new_version : Z) (fresh : SigningKey) (w : fs_write)
  : LocalSigner * option bytes * option (array 32) :=
  let new_pubkey := vk_to_bytes (verifying_key fresh) in
  match w with
  | FsFailed l => (s, l, None)
  | FsOk => (mkSigner fresh new_version, Some (to_vec (sk_to_bytes fresh)), Some new_pubkey)
  end.
End Signer.

(** ** Messages of the API (proto/settled.v1.proto) *)

Module Entry.
Record t := mk { seq : Z; timestamp_ns : Z; key : bytes; data : bytes; leaf_hash : bytes }.
End Entry.

(** ** The rate limiter interface (rate_limit.rs)

    [try_consume now l] asks for one token at the instant [now], [try_consume_n]
    for [n] of them. *)
Class RateLimit := {
  limiter : Type;
  limiter_new : Z -> Z -> limiter;
  try_consume : limiter -> Z -> limiter * bool;
  try_consume_n : limiter -> Z -> Z -> limiter * bool
}.

(** ** Application state (state.rs) *)

Record Config := mkConfig {
  api_key : option String.string;
  max_appends_per_sec : option Z;
  max_get_latest : Z
}.

Record AppState `{Rocksdb} `{Ed25519} `{RateLimit} := mkApp {
  inner : DbInner;             (* log, tree, heads and keys share it *)
  merkle : MerkleTree.t;       (* guarded by [append_mu] *)
  signer : LocalSigner;
  key_file : option bytes;
  config : Config;
  watch_tx : list Entry.t;     (* everything sent on the broadcast channel *)
  rate_limiter : option limiter
}.

Section State.
Context `{Sha256} `{Rocksdb} `{Prost} `{Ed25519} `{RateLimit} `{Profile}.

Definition set_inner (st : AppState) (s : DbInner) : AppState :=
  mkApp _ _ _ s (merkle st) (signer st) (key_file st) (config st) (watch_tx st) (rate_limiter st).
Definition set_merkle (st : AppState) (m : MerkleTree.t) : AppState :=
  mkApp _ _ _ (inner st) m (signer st) (key_file st) (config st) (watch_tx st) (rate_limiter st).
Definition set_signer (st : AppState) (s : LocalSigner) (file : option bytes) : AppState :=
  mkApp _ _ _ (inner st) (merkle st) s file (config st) (watch_tx st) (rate_limiter st).
Definition set_limiter (st : AppState) (l : option limiter) : AppState :=
  mkApp _ _ _ (inner st) (merkle st) (signer st) (key_file st) (config st) (watch_tx st) l.
Definition send (st : AppState) (e : Entry.t) : AppState :=
  mkApp _ _ _ (inner st) (merkle st) (signer st) (key_file st) (config st)
    (watch_tx st ++ [e]) (rate_limiter st).

(** Errors that [anyhow] carries out of start-up and signing. *)
Inductive StartError :=
| StartDataDir
| StartStorage (e : StorageTypes.Error)
| StartKeyFile.

(** [AppState::build]; [dir_ok] says whether [create_dir_all] succeeded, [opened] is what RocksDB returned for the data directory,
    [start] the instant of start-up. *)
Definition build (config : Config) (dir_ok : bool) (opened : result rdb rdb_error) (file : option bytes)
    (read_ok : bool) (fresh : SigningKey) (w : fs_write) (start : Z)
  : outcome (result AppState StartError) :=
  if negb dir_ok then Ret (Err StartDataDir) else
  let! r := open opened in
  match r with
  | Err e => Ret (Err (StartStorage e))
  | Ok db =>
      (* Reconstruct in-memory Merkle tree from the full log on startup. *)
      match seq_range db 0 (two64 - 1) with
      | Err e => Ret (Err (StartStorage e))
      | Ok entries =>
          let! merkle := MerkleTree.append_all MerkleTree.new (LogEntry.leaf_hash <$> entries) in
          (* Determine key version from CF_KEYS; seed if empty. *)
          match key_latest db with
          | Err e => Ret (Err (StartStorage e))
          | Ok latest =>
              let version := match latest with Some r => KeyRecord.version r | None => 1 end in
              let needs_seed := match latest with Some _ => false | None => true end in
              let '(file, signer) := load_or_generate file read_ok fresh w version in
              match signer with
              | None => Ret (Err StartKeyFile)
              | Some signer =>
                  let '(db, seeded) :=
                    if needs_seed : bool
                    then key_put db (KeyRecord.mk 1 (public_key signer) 0)
                    else (db, Ok tt) in
                  match seeded with
                  | Err e => Ret (Err (StartStorage e))
                  | Ok _ =>
                      Ret (Ok (mkApp _ _ _ db merkle signer file config []
                                 ((fun rate => limiter_new rate start) <$> max_appends_per_sec config)))
                  end
              end
          end
      end
  end.

(** ** Signing (sth_task.rs)

    [sign_and_store] in the steps other threads can interleave with: the snapshot
    under the append lock, the check of the latest head, and the three reads of
    the signer. *)

Definition snapshot (st : AppState) : outcome (Z * option hash32) :=
  let! root := MerkleTree.root (merkle st) in
  Ret (MerkleTree.size (merkle st), root).

(** Whether a head of this size is the latest already. *)
Definition up_to_date (st : AppState) (tree_size : Z) : result bool StorageTypes.Error :=
  match head_latest (inner st) with
  | Err e => Err e
  | Ok None => Ok false
  | Ok (Some latest) => Ok (SignedTreeHead.tree_size latest =? tree_size)
  end.

Definition sign_and_store (st : AppState) (now : Z) : outcome (AppState * result unit StorageTypes.Error) :=
  let! snap := snapshot st in
  let '(tree_size, root_hash) := snap in
  if tree_size =? 0 then Ret (st, Ok tt)
  else
    match up_to_date st tree_size with
    | Err e => Ret (st, Err e)
    | Ok true => Ret (st, Ok tt)
    | Ok false =>
        let! root_hash := unwrap root_hash in
        let! timestamp_ns := unix_nanos now in
        let payload := signing_payload tree_size root_hash timestamp_ns in
        let signature := sign (signer st) payload in
        let sth := SignedTreeHead.mk tree_size root_hash timestamp_ns signature
                     (public_key (signer st)) (key_version (signer st)) in
        let '(s, r) := head_write (inner st) sth in
        Ret (set_inner st s, r)
    end.
End State.
