(* ===== verification/Service.v ===== *)
(** * The gRPC service (crates/settled-server/src/service.rs)

    One definition per RPC, with every guard and early return.  A request is
    given by its fields; the metrics and traces are left out.  [rpc_append] and
    [rpc_batch_append] are split at the release of the append lock, since other
    requests run between the commit and the notification of the watchers. *)

From Stdlib Require String.
From stdpp Require Import pretty.
From S2P Require Import Prelude Bytes Hash Merkle MerkleProof Sth Rocksdb StorageTypes Db LogStore.
From S2P Require Import HeadStore KeyStore ServerState.
Import String.StringSyntax.

Definition MAX_BATCH : Z := 1000.
Definition MAX_BY_KEY : Z := 1000.
Definition DEFAULT_BY_KEY : Z := 50.
Definition MAX_LIST : Z := 1000.
Definition DEFAULT_LIST : Z := 50.

Module AppendResponse.
Record t := mk { seq : Z; timestamp_ns : Z; leaf_hash : bytes; key : bytes }.
End AppendResponse.

Module ProtoSth.
Record t := mk {
  tree_size : Z; root_hash : bytes; timestamp_ns : Z; signature : bytes; public_key : bytes;
  key_version : Z
}.
End ProtoSth.

Module InclusionProofResponse.
Record t := mk { leaf_index : Z; tree_size : Z; proof : list bytes; sth : ProtoSth.t }.
End InclusionProofResponse.

Module ConsistencyProofResponse.
Record t := mk {
  old_size : Z; new_size : Z; proof : list bytes; old_sth : ProtoSth.t; new_sth : ProtoSth.t
}.
End ConsistencyProofResponse.

Definition sth_to_pb (s : SignedTreeHead.t) : ProtoSth.t :=
  ProtoSth.mk (SignedTreeHead.tree_size s) (to_vec (SignedTreeHead.root_hash s))
    (SignedTreeHead.timestamp_ns s) (to_vec (SignedTreeHead.signature s))
    (to_vec (SignedTreeHead.public_key s)) (SignedTreeHead.key_version s).

Definition entry_to_pb (e : LogEntry.t) : Entry.t :=
  Entry.mk (LogEntry.seq e) (LogEntry.timestamp_ns e) (LogEntry.key e) (LogEntry.data e)
    (to_vec (LogEntry.leaf_hash e)).

Section Service.
Context `{Sha256} `{Rocksdb} `{Prost} `{!ErrorDisplay} `{Ed25519} `{RateLimit} `{Profile}.

Definition storage_status {A} (e : StorageTypes.Error) : result A Status := Err (to_status (EStorage e)).
Definition not_found {A} (msg : String.string) : result A Status := Err (to_status (ENotFound msg)).
Definition invalid {A} (msg : String.string) : result A Status := Err (to_status (EInvalidArgument msg)).

(** ** Append *)

(** The critical section: log first, then the in-memory tree. *)
Definition append_commit (st : AppState) (now : Z) (key data : bytes)
  : outcome (AppState * result (Z * Z) Status) :=
  let lh := leaf_hash data in
  let! r := append (inner st) now key data in
  match r with
  | (s, Err e) => Ret (set_inner st s, storage_status e)
  | (s, Ok (seq, ts)) =>
      let! m := MerkleTree.append (merkle st) lh in
      Ret (set_merkle (set_inner st s) m.1, Ok (seq, ts))
  end.

(** One token, when a limit is configured. *)
Definition admit_one (st : AppState) (at_ : Z) : AppState * bool :=
  match rate_limiter st with
  | None => (st, true)
  | Some l => let '(l, ok) := try_consume l at_ in (set_limiter st (Some l), ok)
  end.
Definition admit_n (st : AppState) (at_ n : Z) : AppState * bool :=
  match rate_limiter st with
  | None => (st, true)
  | Some l => let '(l, ok) := try_consume_n l at_ n in (set_limiter st (Some l), ok)
  end.

Definition rpc_append (st : AppState) (at_ now : Z) (key data : bytes)
  : outcome (AppState * result AppendResponse.t Status) :=
  let '(st, ok) := admit_one st at_ in
  if ok then
    let lh := leaf_hash data in
    let! r := append_commit st now key data in
    match r with
    | (st, Err e) => Ret (st, Err e)
    | (st, Ok (seq, timestamp_ns)) =>
        let st := send st (Entry.mk seq timestamp_ns key data (to_vec lh)) in
        Ret (st, Ok (AppendResponse.mk seq timestamp_ns (to_vec lh) key))
    end
  else Ret (st, Err (mkStatus ResourceExhausted "append rate limit exceeded; slow down"%str)).

(** ** BatchAppend *)

Definition batch_commit (st : AppState) (now : Z) (pairs : list (bytes * bytes))
  : outcome (AppState * result (list (Z * Z * hash32)) Status) :=
  let! r := append_batch (inner st) now pairs in
  match r with
  | (s, Err e) => Ret (set_inner st s, storage_status e)
  | (s, Ok results) =>
      let! m := MerkleTree.append_all (merkle st) (snd <$> results) in
      Ret (set_merkle (set_inner st s) m, Ok results)
  end.

(** The entries sent to the watchers, and the responses. *)
Definition batch_entry (orig : bytes * bytes) (r : Z * Z * hash32) : Entry.t :=
  let '(seq, timestamp_ns, lh) := r in Entry.mk seq timestamp_ns orig.1 orig.2 (to_vec lh).
Definition batch_response (orig : bytes * bytes) (r : Z * Z * hash32) : AppendResponse.t :=
  let '(seq, timestamp_ns, lh) := r in AppendResponse.mk seq timestamp_ns (to_vec lh) orig.1.

Definition rpc_batch_append (st : AppState) (at_ now : Z) (entries : list (bytes * bytes))
  : outcome (AppState * result (list AppendResponse.t) Status) :=
  let n := len entries in
  if n =? 0 then Ret (st, Ok [])
  else if MAX_BATCH <? n then
    Ret (st, invalid ("batch size " ++ pretty n ++ " exceeds maximum " ++ pretty MAX_BATCH)%str)
  else
    let '(st, ok) := admit_n st at_ (wrap_u32 n) in
    if ok then
      let! r := batch_commit st now entries in
      match r with
      | (st, Err e) => Ret (st, Err e)
      | (st, Ok results) =>
          (* [results[0]] is traced *)
          let! _ := index results 0 in
          Ret (foldl send st (zip_with batch_entry entries results),
               Ok (zip_with batch_response entries results))
      end
    else Ret (st, Err (mkStatus ResourceExhausted "append rate limit exceeded; slow down"%str)).

(** ** Reads *)

Definition rpc_get (st : AppState) (seq : Z) : result Entry.t Status :=
  match get_by_seq (inner st) seq with
  | Err e => storage_status e
  | Ok None => not_found ("seq " ++ pretty seq ++ " not found")%str
  | Ok (Some entry) => Ok (entry_to_pb entry)
  end.

Definition rpc_get_latest (st : AppState) (n : Z) : result (list Entry.t * Z) Status :=
  let cap := max_get_latest (config st) in
  let n := if n =? 0 then 1 else Z.min n cap in
  let total_available := count (inner st) in
  match latest (inner st) n with
  | Err e => storage_status e
  | Ok entries => Ok (entry_to_pb <$> entries, total_available)
  end.

Definition rpc_list_entries (st : AppState) (from_seq to_seq cursor limit : Z)
  : outcome (result (list Entry.t * Z) Status) :=
  let limit := if limit =? 0 then DEFAULT_LIST else Z.min limit MAX_LIST in
  let start := if 0 <? cursor then cursor else from_seq in
  let! r := seq_range_paged (inner st) start to_seq limit in
  match r with
  | Err e => Ret (storage_status e)
  | Ok (entries, next_cursor) => Ret (Ok (entry_to_pb <$> entries, next_cursor))
  end.

Definition rpc_get_by_key (st : AppState) (key : bytes) (cursor limit : Z)
  : outcome (result (list Entry.t * Z) Status) :=
  if decide (key = []) then Ret (invalid "key must not be empty"%str)
  else
    let limit := if limit =? 0 then DEFAULT_BY_KEY else Z.min limit MAX_BY_KEY in
    let from_seq := cursor in
    let! r := entries_by_key (inner st) key from_seq limit in
    match r with
    | Err e => Ret (storage_status e)
    | Ok (entries, next_cursor) => Ret (Ok (entry_to_pb <$> entries, next_cursor))
    end.

(** ** Tree heads and proofs *)

Definition rpc_get_sth (st : AppState) (tree_size : Z) : result ProtoSth.t Status :=
  if tree_size =? 0 then
    match head_latest (inner st) with
    | Err e => storage_status e
    | Ok None => not_found "no STH available yet"%str
    | Ok (Some sth) => Ok (sth_to_pb sth)
    end
  else
    match at_size (inner st) tree_size with
    | Err e => storage_status e
    | Ok None => not_found ("no STH at tree_size " ++ pretty tree_size)%str
    | Ok (Some sth) => Ok (sth_to_pb sth)
    end.

(** The size a proof request means: 0 stands for the latest head. *)
Definition resolve_size (st : AppState) (size : Z) : result Z Status :=
  if size =? 0 then
    match head_latest (inner st) with
    | Err e => storage_status e
    | Ok None => not_found "no STH available yet"%str
    | Ok (Some sth) => Ok (SignedTreeHead.tree_size sth)
    end
  else Ok size.

Definition head_at (st : AppState) (size : Z) (what : String.string) : result SignedTreeHead.t Status :=
  match at_size (inner st) size with
  | Err e => storage_status e
  | Ok None => not_found ("no STH at " ++ what ++ " " ++ pretty size)%str
  | Ok (Some sth) => Ok sth
  end.

Definition rpc_inclusion_proof (st : AppState) (seq tree_size : Z)
  : outcome (result InclusionProofResponse.t Status) :=
  match resolve_size st tree_size with
  | Err e => Ret (Err e)
  | Ok tree_size =>
      if tree_size <=? seq then
        Ret (invalid ("seq " ++ pretty seq ++ " is out of range for tree_size " ++ pretty tree_size)%str)
      else
        match seq_range (inner st) 0 tree_size with
        | Err e => Ret (storage_status e)
        | Ok entries =>
            let leaf_hashes := LogEntry.leaf_hash <$> entries in
            let! p := inclusion_proof leaf_hashes seq in
            match p with
            | Err e => Ret (Err (to_status (EProof e)))
            | Ok path =>
                match head_at st tree_size "tree_size"%str with
                | Err e => Ret (Err e)
                | Ok sth =>
                    Ret (Ok (InclusionProofResponse.mk seq tree_size (to_vec <$> path) (sth_to_pb sth)))
                end
            end
        end
  end.

Definition rpc_consistency_proof (st : AppState) (old_size new_size : Z)
  : outcome (result ConsistencyProofResponse.t Status) :=
  if old_size =? 0 then Ret (invalid "old_size must be > 0"%str)
  else
    match resolve_size st new_size with
    | Err e => Ret (Err e)
    | Ok new_size =>
        if new_size <? old_size then
          Ret (invalid ("old_size " ++ pretty old_size ++ " > new_size " ++ pretty new_size)%str)
        else
          match seq_range (inner st) 0 new_size with
          | Err e => Ret (storage_status e)
          | Ok entries =>
              let leaf_hashes := LogEntry.leaf_hash <$> entries in
              let! p := consistency_proof leaf_hashes old_size in
              match p with
              | Err e => Ret (Err (to_status (EProof e)))
              | Ok path =>
                  match head_at st old_size "old_size"%str with
                  | Err e => Ret (Err e)
                  | Ok old_sth =>
                      match head_at st new_size "new_size"%str with
                      | Err e => Ret (Err e)
                      | Ok new_sth =>
                          Ret (Ok (ConsistencyProofResponse.mk old_size new_size (to_vec <$> path)
                                     (sth_to_pb old_sth) (sth_to_pb new_sth)))
                      end
                  end
              end
          end
    end.
End Service.
