(* ===== verification/ServerInv.v ===== *)
(** * The server invariant

    [server_ok]: the database holds a log and heads, the in-memory Merkle tree is
    the tree over the log's leaf hashes, and every stored head commits to a
    prefix of the log.  Preserved by the commit of an append or batch, by the
    signing of a head and by a start from disk. *)

From S2P Require Import Prelude Bytes Hash MerkleSpec Merkle MerkleProof Sth Rocksdb StorageTypes.
From S2P Require Import Db LogStore LogTheorems Table HeadStore KeyStore ServerState Service.

Section Inv.
Context `{Sha256} {R : Rocksdb} {P : Prost} {RL : RocksdbLaws} {PL : ProstLaws}.
Context {D : ErrorDisplay} `{Ed25519} `{RateLimit} `{Profile}.
Abbreviation seq := LogEntry.seq.
Abbreviation size := SignedTreeHead.tree_size.

(** The leaf hashes a log commits to. *)
Definition log_leaves (es : list LogEntry.t) : list hash32 := LogEntry.leaf_hash <$> es.

(** The head commits to the first [tree_size] entries. *)
Definition head_ok (es : list LogEntry.t) (h : SignedTreeHead.t) : Prop :=
  0 < size h <= len es /\
  mth (take (Z.to_nat (size h)) (log_leaves es)) = Ret (Some (SignedTreeHead.root_hash h)).

Record server_ok (st : AppState) (es : list LogEntry.t) (hs : list SignedTreeHead.t) : Prop := {
  ok_db : db_rep (inner st) es;
  ok_heads : heads_rep (inner st) hs;
  ok_merkle : represents (merkle st) (log_leaves es);
  ok_roots : Forall (head_ok es) hs
}.

Lemma len_leaves es : len (log_leaves es) = len es.
Proof. unfold len, log_leaves. by rewrite length_fmap. Qed.

Lemma sorted_len es a b :
  seq_sorted es -> Forall (fun e => a <= seq e < b) es -> a <= b -> len es <= b - a.
Proof.
  revert a. induction es as [|e es IH]; intros a Hs Hb Hab; [rewrite len_nil; lia|].
  apply seq_sorted_cons in Hs as [Hlt Hs]. apply Forall_cons in Hb as [He Hb].
  rewrite len_cons. enough (len es <= b - (seq e + 1)) by lia. apply IH; [done| |lia].
  eapply Forall_impl; [apply Forall_and; split; [exact Hlt|exact Hb]|]. cbn. lia.
Qed.

Lemma len_le_next s es : db_rep s es -> len es <= next_seq s.
Proof.
  intros Hr. pose proof (rep_wf s es Hr) as Hw. destruct Hr as [Hl _ Hb Hn].
  rewrite <- (Z.sub_0_r (next_seq s)). apply sorted_len; [by eapply log_rep_sorted| |apply Hn].
  eapply Forall_impl; [apply Forall_and; split; [exact Hw|exact Hb]|].
  intros e [[He _] Hlt]. unfold in_u64 in He. lia.
Qed.

Lemma head_ok_mono es es' h : head_ok es h -> head_ok (es ++ es') h.
Proof.
  intros [Hn Hm]. split; [rewrite len_app; pose proof (len_nonneg es'); lia|].
  unfold log_leaves in *. rewrite fmap_app, take_app_le; [done|].
  rewrite length_fmap. unfold len in Hn. lia.
Qed.

Lemma server_ok_frame st st' es hs :
  server_ok st es hs -> merkle st' = merkle st -> inner st' = inner st -> server_ok st' es hs.
Proof. intros [? ? ? ?] Em Ei. split; by rewrite ?Em, ?Ei. Qed.

(** ** Appends *)

(** What a commit leaves alone. *)
Definition same_but_log (st st' : AppState) : Prop :=
  signer st' = signer st /\ key_file st' = key_file st /\ config st' = config st /\
  watch_tx st' = watch_tx st /\ rate_limiter st' = rate_limiter st.

Lemma append_commit_frame st now key data st' r :
  append_commit st now key data = Ret (st', r) -> same_but_log st st'.
Proof.
  unfold append_commit. intros E. unret E. destruct a as [d [[n ts]|e]].
  - unret E. by injection E as <- <-.
  - by injection E as <- <-.
Qed.

Lemma batch_commit_frame st now pairs st' r :
  batch_commit st now pairs = Ret (st', r) -> same_but_log st st'.
Proof.
  unfold batch_commit. intros E. unret E. destruct a as [d [l|e]].
  - unret E. by injection E as <- <-.
  - by injection E as <- <-.
Qed.

Lemma append_commit_ok st es hs now key data :
  server_ok st es hs -> next_seq (inner st) + 1 < two64 -> 0 <= now -> pair_ok (key, data) ->
  exists st' r, append_commit st now key data = Ret (st', r) /\
    next_seq (inner st') = next_seq (inner st) + 1 /\
    (forall c, c <> CF_LOG -> c <> CF_INDEX -> contents (db (inner st')) c = contents (db (inner st)) c) /\
    match r with
    | Ok (n, ts) => n = next_seq (inner st) /\ ts = wrap_i64 now /\
        server_ok st' (es ++ [new_entry n ts key data]) hs
    | Err s => server_ok st' es hs /\ exists x, s = to_status (EStorage x) /\
        write_fault (db (inner st)) [new_entry (next_seq (inner st)) (wrap_i64 now) key data] x
    end.
Proof.
  intros [Hdb Hh Hm Hro] Hroom Hnow Hok. unfold append_commit.
  destruct (append_spec (inner st) es now key data Hdb Hroom Hnow Hok) as (s & r & E & En & Hc & Hr).
  rewrite E. cbn [obind].
  assert (Hh' : heads_rep s hs) by frame.
  destruct r as [[n ts]|e].
  - destruct Hr as (-> & -> & Hr).
    assert (Hsz : MerkleTree.size_ (merkle st) + 1 < two64).
    { change (MerkleTree.size (merkle st) + 1 < two64).
      rewrite (represents_size _ _ Hm), len_leaves. pose proof (len_le_next _ _ Hdb). lia. }
    destruct (append_represents _ _ (leaf_hash data) Hm Hsz) as (m & Em & Hm'). rewrite Em. cbn [obind fst].
    eexists _, _. split; [done|]. do 2 (split; [done|]). split; [done|]. split; [done|].
    split; cbn; [done|done| |].
    + unfold log_leaves in *. by rewrite fmap_app.
    + eapply Forall_impl; [exact Hro|]. intros h Hh1. by apply head_ok_mono.
  - destruct Hr as [Hr Hf]. eexists _, _. split; [done|]. do 2 (split; [done|]). split; [by split|]. eauto.
Qed.

Lemma batch_results_leaves first ts pairs :
  snd <$> (batch_result <$> batch_entries first ts pairs) = log_leaves (batch_entries first ts pairs).
Proof. unfold log_leaves. by rewrite <- list_fmap_compose. Qed.

(** The entries a batch sends to the watchers are the stored ones. *)
Lemma batch_sent first ts pairs :
  zip_with batch_entry pairs (batch_result <$> batch_entries first ts pairs) =
  entry_to_pb <$> batch_entries first ts pairs.
Proof.
  revert first. induction pairs as [|[k d] pairs IH]; intros first; [done|].
  cbn [batch_entries]. rewrite !fmap_cons. cbn [zip_with]. by rewrite IH.
Qed.

Lemma batch_commit_ok st es hs now pairs :
  server_ok st es hs -> next_seq (inner st) + len pairs < two64 -> 0 <= now -> Forall pair_ok pairs ->
  exists st' r, batch_commit st now pairs = Ret (st', r) /\
    next_seq (inner st') = next_seq (inner st) + len pairs /\
    (forall c, c <> CF_LOG -> c <> CF_INDEX -> contents (db (inner st')) c = contents (db (inner st)) c) /\
    let news := batch_entries (next_seq (inner st)) (wrap_i64 now) pairs in
    match r with
    | Ok l => l = batch_result <$> news /\ server_ok st' (es ++ news) hs
    | Err s => server_ok st' es hs /\ exists x, s = to_status (EStorage x) /\
        write_fault (db (inner st)) news x
    end.
Proof.
  intros [Hdb Hh Hm Hro] Hroom Hnow Hok. unfold batch_commit.
  destruct (append_batch_spec (inner st) es now pairs Hdb Hroom Hnow Hok) as (s & r & E & En & Hc & Hr).
  rewrite E. cbn [obind].
  assert (Hh' : heads_rep s hs) by frame.
  cbn zeta in *. set (news := batch_entries _ _ _) in *.
  assert (Hnews : len news = len pairs) by (unfold len, news; by rewrite length_batch_entries).
  destruct r as [l|e].
  - destruct Hr as [-> Hr]. unfold news at 1. rewrite batch_results_leaves. fold news.
    destruct (append_all_represents (merkle st) (log_leaves es) (log_leaves news) Hm) as (m & Em & Hm').
    { rewrite !len_leaves. pose proof (len_le_next _ _ Hdb). lia. }
    rewrite Em. cbn [obind]. eexists _, _. split; [done|]. do 2 (split; [done|]). split; [done|].
    split; cbn; [done|done| |].
    + unfold log_leaves in *. by rewrite fmap_app.
    + eapply Forall_impl; [exact Hro|]. intros h Hh1. by apply head_ok_mono.
  - destruct Hr as [Hr Hf]. eexists _, _. split; [done|]. do 2 (split; [done|]). split; [by split|]. eauto.
Qed.

(** ** Heads *)

Lemma snapshot_ok st es hs :
  server_ok st es hs -> exists root, snapshot st = Ret (len es, root) /\
    mth (log_leaves es) = Ret root /\ (0 < len es -> is_Some root).
Proof.
  intros [Hdb _ Hm _]. unfold snapshot. rewrite (root_represents _ _ Hm). cbn [obind].
  rewrite (represents_size _ _ Hm), len_leaves. eexists. split; [done|].
  assert (Hlen : len (log_leaves es) < two64).
  { rewrite len_leaves. pose proof (len_le_next _ _ Hdb). destruct Hdb as [_ _ _ Hn].
    unfold in_u64 in Hn. lia. }
  split; [by apply mth_build|]. intros Hpos.
  destruct (build_spec (log_leaves es)) as (T & -> & _); [|done].
  intros E. pose proof (len_leaves es) as El. rewrite E in El. change (0 = len es) in El. lia.
Qed.

(** A head over a past state of the log commits to a prefix of the present one. *)
Lemma snapshot_head_ok es n root ts sig pk v :
  0 < n <= len es -> mth (take (Z.to_nat n) (log_leaves es)) = Ret (Some root) ->
  head_ok es (SignedTreeHead.mk n root ts sig pk v).
Proof. done. Qed.

Lemma write_head_ok st es hs sth :
  server_ok st es hs -> sth_wf sth -> head_ok es sth ->
  exists s r, head_write (inner st) sth = (s, r) /\ next_seq s = next_seq (inner st) /\
    (forall c, c <> CF_HEADS -> contents (db s) c = contents (db (inner st)) c) /\
    server_ok (set_inner st s) es (match r with Ok _ => upsert size sth hs | Err _ => hs end).
Proof.
  intros [Hdb Hh Hm Hro] Hw Hok.
  destruct (head_write_ok (inner st) hs sth Hh Hw) as (s & r & E & En & Hc & Hh').
  exists s, r. split; [done|]. split; [done|]. split; [done|]. split; cbn; [|done|done|].
  - frame.
  - destruct r as [u|e]; [|done]. apply Forall_forall. intros h [->|Hin]%upsert_elem; [done|].
    rewrite Forall_forall in Hro. by apply Hro.
Qed.
End Inv.

#[export] Hint Resolve server_ok_frame : frame.
