(* ===== verification/Concurrent.v ===== *)
(** * Interleavings of the server's threads

    The gRPC handlers, the signing task and the admin API run concurrently on
    one [AppState].  [step] has one rule per action that is atomic in the code: a
    commit under the append lock, one [send] on the broadcast channel, and each
    read or write that [sign_and_store] and [rotate_key] do between locks.
    [faults] says whether an append may fail, [race] whether a key rotation
    may hit a head between its signature and its public key. *)

From stdpp Require Import relations.
From S2P Require Import Prelude Bytes Hash MerkleSpec Merkle MerkleProof Sth Rocksdb StorageTypes.
From S2P Require Import Db LogStore LogTheorems Table HeadStore KeyStore ServerState Service.
From S2P Require Import ServerInv.

Section Concurrent.
Context `{Sha256} {R : Rocksdb} {P : Prost} {RL : RocksdbLaws} {PL : ProstLaws}.
Context {D : ErrorDisplay} `{Ed25519} `{RateLimit} `{Profile}.
Abbreviation seq := LogEntry.seq.
Abbreviation size := SignedTreeHead.tree_size.

(** Where a run of [sign_and_store] is. *)
Inductive sign_task :=
| TSnapshot (n : Z) (root : option hash32)
| TChecked (n : Z) (root : option hash32)
| TSigned (n : Z) (root : hash32) (ts : Z) (sig : array 64)
| TKeyed (n : Z) (root : hash32) (ts : Z) (sig : array 64) (pk : array 32)
| TReady (sth : SignedTreeHead.t).

(** Where a run of [rotate_key] is. *)
Inductive rotate_task :=
| RSize (activated_at : Z)
| RVersion (activated_at new_version : Z)
| RSwapped (record : KeyRecord.t).

Record sys := mkSys {
  app : AppState;
  signing : list sign_task;
  rotating : list rotate_task;
  outbox : list (list Entry.t)   (* per committed request, what it has yet to send *)
}.

Definition with_app (s : sys) (a : AppState) : sys := mkSys a (signing s) (rotating s) (outbox s).
Definition with_signing (s : sys) (l : list sign_task) : sys := mkSys (app s) l (rotating s) (outbox s).
Definition with_rotating (s : sys) (l : list rotate_task) : sys := mkSys (app s) (signing s) l (outbox s).
Definition with_outbox (s : sys) (l : list (list Entry.t)) : sys :=
  mkSys (app s) (signing s) (rotating s) l.

Definition is_signed (t : sign_task) : Prop :=
  match t with TSigned _ _ _ _ => True | _ => False end.

Inductive step (race faults : bool) : sys -> sys -> Prop :=
| step_append s now key data a r :
    next_seq (inner (app s)) + 1 < two64 -> pair_ok (key, data) -> 0 <= now ->
    append_commit (app s) now key data = Ret (a, r) ->
    (forall e, r = Err e -> faults = true) ->
    step race faults s
      (mkSys a (signing s) (rotating s)
         (outbox s ++ match r with
                      | Ok (n, ts) => [[Entry.mk n ts key data (to_vec (leaf_hash data))]]
                      | Err _ => []
                      end))
| step_batch s now pairs a r :
    next_seq (inner (app s)) + len pairs < two64 -> Forall pair_ok pairs -> 0 <= now ->
    batch_commit (app s) now pairs = Ret (a, r) ->
    (forall e, r = Err e -> faults = true) ->
    step race faults s
      (mkSys a (signing s) (rotating s)
         (outbox s ++ match r with
                      | Ok results => [zip_with batch_entry pairs results]
                      | Err _ => []
                      end))
| step_send s i e rest :
    outbox s !! i = Some (e :: rest) ->
    step race faults s (with_outbox (with_app s (send (app s) e)) (<[i := rest]> (outbox s)))
| step_snapshot s n root :
    snapshot (app s) = Ret (n, root) -> n <> 0 ->
    step race faults s (with_signing s (signing s ++ [TSnapshot n root]))
| step_check s i n root :
    signing s !! i = Some (TSnapshot n root) -> up_to_date (app s) n = Ok false ->
    step race faults s (with_signing s (<[i := TChecked n root]> (signing s)))
| step_sign s i n root now ts :
    signing s !! i = Some (TChecked n (Some root)) -> unix_nanos now = Ret ts ->
    step race faults s (with_signing s
      (<[i := TSigned n root ts (sign (signer (app s)) (signing_payload n root ts))]> (signing s)))
| step_pubkey s i n root ts sig :
    signing s !! i = Some (TSigned n root ts sig) ->
    step race faults s (with_signing s
      (<[i := TKeyed n root ts sig (public_key (signer (app s)))]> (signing s)))
| step_version s i n root ts sig pk :
    signing s !! i = Some (TKeyed n root ts sig pk) ->
    step race faults s (with_signing s
      (<[i := TReady (SignedTreeHead.mk n root ts sig pk (key_version (signer (app s))))]> (signing s)))
| step_write s i sth d r :
    signing s !! i = Some (TReady sth) -> head_write (inner (app s)) sth = (d, r) ->
    step race faults s
      (with_signing (with_app s (set_inner (app s) d)) (delete i (signing s)))
| step_sign_stop s i :    (* the task found its head up to date, failed or ended *)
    step race faults s (with_signing s (delete i (signing s)))
| step_rotate_size s :
    step race faults s (with_rotating s (rotating s ++ [RSize (MerkleTree.size (merkle (app s)))]))
| step_rotate_version s i a v :
    rotating s !! i = Some (RSize a) -> u32_add (key_version (signer (app s))) 1 = Ret v ->
    step race faults s (with_rotating s (<[i := RVersion a v]> (rotating s)))
| step_rotate_swap s i a v fresh w sg file pk :
    rotating s !! i = Some (RVersion a v) ->
    rotate (signer (app s)) v fresh w = (sg, file, pk) ->
    (race = false -> Forall (fun t => ~ is_signed t) (signing s)) ->
    step race faults s
      (with_rotating (with_app s (set_signer (app s) sg file))
         (match pk with
          | Some pk => <[i := RSwapped (KeyRecord.mk v pk a)]> (rotating s)
          | None => delete i (rotating s)
          end))
| step_rotate_put s i rec d r :
    rotating s !! i = Some (RSwapped rec) -> key_put (inner (app s)) rec = (d, r) ->
    step race faults s
      (with_rotating (with_app s (set_inner (app s) d)) (delete i (rotating s))).

(** ** The invariant *)

Definition task_ok (es : list LogEntry.t) (t : sign_task) : Prop :=
  match t with
  | TSnapshot n root | TChecked n root =>
      0 < n <= len es /\ forall r, root = Some r -> mth (take (Z.to_nat n) (log_leaves es)) = Ret (Some r)
  | TSigned n r ts _ | TKeyed n r ts _ _ =>
      0 < n <= len es /\ mth (take (Z.to_nat n) (log_leaves es)) = Ret (Some r) /\ in_i64 ts
  | TReady sth => head_ok es sth /\ in_i64 (SignedTreeHead.timestamp_ns sth) /\
      in_u32 (SignedTreeHead.key_version sth)
  end.
Definition rotate_ok (t : rotate_task) : Prop :=
  match t with
  | RSize _ => True
  | RVersion _ v => in_u32 v
  | RSwapped rec => in_u32 (KeyRecord.version rec)
  end.

Record sys_ok (faults : bool) (s : sys) (es : list LogEntry.t) (hs : list SignedTreeHead.t) : Prop := {
  sys_server : server_ok (app s) es hs;
  sys_tasks : Forall (task_ok es) (signing s);
  sys_rotations : Forall rotate_ok (rotating s);
  sys_version : in_u32 (sig_version (signer (app s)));
  sys_gaps : faults = false -> gap_free (inner (app s)) es
}.

(** Updates of the task lists. *)
Lemma Forall_update {A} (Q : A -> Prop) l i x : Forall Q l -> Q x -> Forall Q (<[i := x]> l).
Proof. intros. by apply Forall_insert. Qed.

Lemma task_ok_mono es es' t : task_ok es t -> task_ok (es ++ es') t.
Proof.
  assert (Hp : forall n r, 0 < n <= len es -> mth (take (Z.to_nat n) (log_leaves es)) = Ret (Some r) ->
    0 < n <= len (es ++ es') /\ mth (take (Z.to_nat n) (log_leaves (es ++ es'))) = Ret (Some r)).
  { intros n r Hn Hm. apply (head_ok_mono es es' (SignedTreeHead.mk n r 0
      (array_fill 64 Init.Byte.x00) (array_fill 32 Init.Byte.x00) 0)). by split. }
  assert (Hl : forall n, 0 < n <= len es -> 0 < n <= len (es ++ es')).
  { intros n Hn. rewrite len_app. pose proof (len_nonneg es'). lia. }
  destruct t as [n root|n root|n r ts sig|n r ts sig pk|sth]; cbn [task_ok].
  1-2: intros [Hn Hm]; split; [auto|]; intros r Er; by apply Hp, Hm.
  1-2: intros (Hn & Hm & Hts); destruct (Hp n r Hn Hm); done.
  intros [Hh Hw]. split; [by apply head_ok_mono|done].
Qed.

(** The log has grown by [es'] and the state is otherwise as the invariant wants. *)
Lemma sys_ok_grow faults s a sg rt ob es es' hs :
  sys_ok faults s es hs -> server_ok a (es ++ es') hs -> signer a = signer (app s) ->
  sg = signing s -> rt = rotating s -> (faults = false -> gap_free (inner a) (es ++ es')) ->
  sys_ok faults (mkSys a sg rt ob) (es ++ es') hs.
Proof.
  intros [Hsv Ht Hrt Hv Hg] Ha Es -> -> Hg'. split; cbn; [done| |done|by rewrite Es|done].
  eapply Forall_impl; [exact Ht|]. intros t. apply task_ok_mono.
Qed.

Lemma append_step_ok faults s es hs now key data a r ob :
  sys_ok faults s es hs -> next_seq (inner (app s)) + 1 < two64 -> pair_ok (key, data) -> 0 <= now ->
  append_commit (app s) now key data = Ret (a, r) -> (forall e, r = Err e -> faults = true) ->
  exists es', sys_ok faults (mkSys a (signing s) (rotating s) ob) (es ++ es') hs /\
    match r with
    | Ok (n, ts) => [Entry.mk n ts key data (to_vec (leaf_hash data))] = entry_to_pb <$> es'
    | Err _ => es' = []
    end.
Proof.
  intros Hok Hroom Hp Hnow Hc Hf. destruct (append_commit_frame _ _ _ _ _ _ Hc) as [Es _].
  destruct (append_commit_ok (app s) es hs now key data (sys_server _ _ _ _ Hok) Hroom Hnow Hp)
    as (a' & r' & E & En & _ & Hr). rewrite Hc in E. injection E as <- <-.
  destruct r as [[n ts]|e].
  - destruct Hr as (-> & -> & Hr). exists [new_entry (next_seq (inner (app s))) (wrap_i64 now) key data]. split; [|done]. eapply sys_ok_grow; [done|exact Hr|done|done|done|].
    intros Ef. eapply gap_free_snoc; [by apply Hok|done|done].
  - destruct Hr as [Hr _]. exists []. split; [|done]. eapply sys_ok_grow; [done|by rewrite app_nil_r|done|done|done|].
    intros Ef. by rewrite (Hf e eq_refl) in Ef.
Qed.

Lemma batch_step_ok faults s es hs now pairs a r ob :
  sys_ok faults s es hs -> next_seq (inner (app s)) + len pairs < two64 -> Forall pair_ok pairs -> 0 <= now ->
  batch_commit (app s) now pairs = Ret (a, r) -> (forall e, r = Err e -> faults = true) ->
  exists es', sys_ok faults (mkSys a (signing s) (rotating s) ob) (es ++ es') hs /\
    match r with
    | Ok results => zip_with batch_entry pairs results = entry_to_pb <$> es'
    | Err _ => es' = []
    end.
Proof.
  intros Hok Hroom Hp Hnow Hc Hf. destruct (batch_commit_frame _ _ _ _ _ Hc) as [Es _].
  destruct (batch_commit_ok (app s) es hs now pairs (sys_server _ _ _ _ Hok) Hroom Hnow Hp)
    as (a' & r' & E & En & _ & Hr). rewrite Hc in E. injection E as <- <-. cbn zeta in Hr.
  destruct r as [l|e].
  - destruct Hr as (-> & Hr). exists (batch_entries (next_seq (inner (app s))) (wrap_i64 now) pairs). split; [|apply batch_sent]. eapply sys_ok_grow; [done|exact Hr|done|done|done|].
    intros Ef. eapply gap_free_batch; [by apply Hok|done].
  - destruct Hr as [Hr _]. exists []. split; [|done]. eapply sys_ok_grow; [done|by rewrite app_nil_r|done|done|done|].
    intros Ef. by rewrite (Hf e eq_refl) in Ef.
Qed.

(** Steps that change one signing task, or none. *)
Lemma task_step_ok faults s es hs l :
  sys_ok faults s es hs -> Forall (task_ok es) l -> sys_ok faults (with_signing s l) es hs.
Proof. intros [? ? ? ? ?] Hl. by split. Qed.

Lemma task_at faults s es hs i t :
  sys_ok faults s es hs -> signing s !! i = Some t -> task_ok es t.
Proof. intros Hok Ht. eapply Forall_lookup_1; [apply Hok|done]. Qed.

Lemma snapshot_step_ok faults s es hs n root :
  sys_ok faults s es hs -> snapshot (app s) = Ret (n, root) -> n <> 0 ->
  sys_ok faults (with_signing s (signing s ++ [TSnapshot n root])) es hs.
Proof.
  intros Hok Hs Hn. apply task_step_ok; [done|]. apply Forall_app. split; [apply Hok|].
  constructor; [|constructor].
  destruct (snapshot_ok (app s) es hs (sys_server _ _ _ _ Hok)) as (root' & E & Hm & _).
  rewrite Hs in E. injection E as -> ->. pose proof (len_nonneg es). split; [lia|]. intros r ->.
  rewrite take_ge; [done|]. pose proof (len_leaves es). unfold len in *. lia.
Qed.

Lemma write_step_ok faults s es hs i sth d r :
  sys_ok faults s es hs -> signing s !! i = Some (TReady sth) ->
  head_write (inner (app s)) sth = (d, r) ->
  sys_ok faults (with_signing (with_app s (set_inner (app s) d)) (delete i (signing s))) es
    (match r with Ok _ => upsert size sth hs | Err _ => hs end).
Proof.
  intros Hok Hi Hw. destruct (task_at _ _ _ _ _ _ Hok Hi) as (Hh & Hts & Hkv).
  assert (Hwf : sth_wf sth).
  { split; [|done]. destruct Hh as [Hsz _]. destruct Hok as [[Hdb _ _ _] _ _ _ _].
    pose proof (len_le_next _ _ Hdb). destruct Hdb as [_ _ _ Hn]. unfold in_u64 in *. lia. }
  destruct (write_head_ok (app s) es hs sth (sys_server _ _ _ _ Hok) Hwf Hh) as (d' & r' & E & En & _ & Hsv).
  rewrite Hw in E. injection E as <- <-. destruct Hok as [_ Ht Hrt Hv Hg]. split; cbn; [done| |done|done|].
  - by apply Forall_delete.
  - intros Ef. destruct (Hg Ef) as [Hq1 Hq2]. split; [done|]. by rewrite En.
Qed.

Lemma swap_step_ok faults s es hs i a v fresh w sg file pk :
  sys_ok faults s es hs -> rotating s !! i = Some (RVersion a v) ->
  rotate (signer (app s)) v fresh w = (sg, file, pk) ->
  sys_ok faults (with_rotating (with_app s (set_signer (app s) sg file))
    (match pk with
     | Some pk => <[i := RSwapped (KeyRecord.mk v pk a)]> (rotating s)
     | None => delete i (rotating s)
     end)) es hs.
Proof.
  intros [Hsv Ht Hrt Hv Hg] Hi Hr. assert (Hv' : in_u32 v) by (apply (Forall_lookup_1 _ _ _ _ Hrt Hi)).
  unfold rotate in Hr. destruct w as [|l]; injection Hr as <- <- <-; split; cbn; try done.
  - frame.
  - by apply Forall_update.
  - frame.
  - by apply Forall_delete.
Qed.

Lemma key_put_step_ok faults s es hs i rec d r :
  sys_ok faults s es hs -> key_put (inner (app s)) rec = (d, r) ->
  sys_ok faults (with_rotating (with_app s (set_inner (app s) d)) (delete i (rotating s))) es hs.
Proof.
  intros [[Hdb Hh Hm Hro] Ht Hrt Hv Hg] [En Hc]%key_put_frame. split; cbn; [|done|by apply Forall_delete|done|].
  - split; cbn; [frame| |done|done].
    frame.
  - intros Ef. destruct (Hg Ef) as [Hq1 Hq2]. split; [done|]. by rewrite En.
Qed.

(** ** Every step preserves the invariant *)

Lemma u32_add_range a b v : u32_add a b = Ret v -> in_u32 v.
Proof.
  unfold u32_add, checked. destruct ((0 <=? a + b) && (a + b <? two32)) eqn:E; breflect.
  - intros [= <-]. unfold in_u32. lia.
  - destruct overflow_checks; [done|]. intros [= <-]. by apply Z.mod_pos_bound.
Qed.

(** How the stored heads may change: not at all, or by the head of a task that
    was ready. *)
Definition heads_grow (s : sys) (hs hs' : list SignedTreeHead.t) : Prop :=
  hs' = hs \/ exists sth, TReady sth ∈ signing s /\ hs' = upsert size sth hs.

(** How the notifications change when the log grows by [es']: those of the new entries are queued in order,
    or one of the queued ones is sent. *)
Definition notifies (s s' : sys) (es' : list LogEntry.t) : Prop :=
  watch_tx (app s') = watch_tx (app s) /\ concat (outbox s') = concat (outbox s) ++ (entry_to_pb <$> es') \/
  es' = [] /\ exists i e rest, outbox s !! i = Some (e :: rest) /\
    watch_tx (app s') = watch_tx (app s) ++ [e] /\ outbox s' = <[i := rest]> (outbox s).

Lemma sys_ok_step_sent race faults s s' es hs :
  sys_ok faults s es hs -> step race faults s s' ->
  exists es' hs', sys_ok faults s' (es ++ es') hs' /\ heads_grow s hs hs' /\ notifies s s' es'.
Proof.
  intros Hok Hstep.
  assert (Hquiet : forall t, watch_tx (app t) = watch_tx (app s) -> outbox t = outbox s -> notifies s t []).
  { intros t E1 E2. left. rewrite E1, E2. cbn. by rewrite app_nil_r. }
  assert (Hsame : forall t, sys_ok faults t es hs -> notifies s t [] ->
    exists es' hs', sys_ok faults t (es ++ es') hs' /\ heads_grow s hs hs' /\ notifies s t es').
  { intros t Ht Hn. exists [], hs. rewrite app_nil_r. split; [done|]. split; [by left|done]. }
  inversion Hstep; subst; clear Hstep.
  - edestruct append_step_ok as (es' & Hs' & Hn); [done..|]. exists es', hs. split; [exact Hs'|]. split; [by left|].
    left. match goal with E : append_commit _ _ _ _ = _ |- _ => destruct (append_commit_frame _ _ _ _ _ _ E) as (_ & _ & _ & Ew & _) end.
    split; [exact Ew|]. cbn [outbox]. rewrite concat_app. f_equal. destruct r as [[n ts]|]; [by rewrite <- Hn|by rewrite Hn].
  - edestruct batch_step_ok as (es' & Hs' & Hn); [done..|]. exists es', hs. split; [exact Hs'|]. split; [by left|].
    left. match goal with E : batch_commit _ _ _ = _ |- _ => destruct (batch_commit_frame _ _ _ _ _ E) as (_ & _ & _ & Ew & _) end.
    split; [exact Ew|]. cbn [outbox]. rewrite concat_app. f_equal. destruct r as [l|]; [cbn; by rewrite app_nil_r|by rewrite Hn].
  - apply Hsame; [|right; split; [done|]; by eexists _, _, _].
    destruct Hok as [Hsv ? ? ? ?]. split; cbn; try done. frame.
  - apply Hsame; [by apply snapshot_step_ok|by apply Hquiet].
  - apply Hsame; [|by apply Hquiet]. apply task_step_ok; [done|]. apply Forall_update; [apply Hok|].
    match goal with Hi : signing s !! _ = _ |- _ => exact (task_at _ _ _ _ _ _ Hok Hi) end.
  - apply Hsame; [|by apply Hquiet]. apply task_step_ok; [done|]. apply Forall_update; [apply Hok|].
    destruct (task_at _ _ _ _ _ _ Hok ltac:(eassumption)) as [Hn Hm]. split; [done|]. split; [by apply Hm|].
    unfold unix_nanos in *. destruct (now <? 0); [done|]. simplify_eq. apply wrap_i64_range.
  - apply Hsame; [|by apply Hquiet]. apply task_step_ok; [done|]. apply Forall_update; [apply Hok|].
    by apply (task_at _ _ _ _ _ _ Hok ltac:(eassumption)).
  - apply Hsame; [|by apply Hquiet]. apply task_step_ok; [done|]. apply Forall_update; [apply Hok|].
    destruct (task_at _ _ _ _ _ _ Hok ltac:(eassumption)) as (Hn & Hm & Hts).
    split; [by split|]. split; [done|apply Hok].
  - exists [], (match r with Ok _ => upsert size sth hs | Err _ => hs end). rewrite app_nil_r.
    split; [by eapply write_step_ok|]. split; [|by apply Hquiet]. destruct r as [u|e]; [right|by left]. exists sth.
    split; [|done]. by eapply list_elem_of_lookup_2.
  - apply Hsame; [|by apply Hquiet]. apply task_step_ok; [done|]. apply Forall_delete, Hok.
  - apply Hsame; [|by apply Hquiet]. destruct Hok. split; cbn; try done. apply Forall_app. split; [done|by repeat constructor].
  - apply Hsame; [|by apply Hquiet]. destruct Hok. split; cbn; try done. apply Forall_update; [done|]. cbn.
    by eapply u32_add_range.
  - apply Hsame; [by eapply swap_step_ok|by apply Hquiet].
  - apply Hsame; [by eapply key_put_step_ok|by apply Hquiet].
Qed.

Lemma sys_ok_step race faults s s' es hs :
  sys_ok faults s es hs -> step race faults s s' ->
  exists es' hs', sys_ok faults s' (es ++ es') hs' /\ heads_grow s hs hs'.
Proof.
  intros Hok Hstep. destruct (sys_ok_step_sent _ _ _ _ _ _ Hok Hstep) as (es' & hs' & ? & ? & _). eauto.
Qed.

(** ** Reachable states *)

Lemma reach_ok race faults s0 s es0 hs0 :
  sys_ok faults s0 es0 hs0 -> rtc (step race faults) s0 s ->
  exists es' hs, sys_ok faults s (es0 ++ es') hs /\
    (forall h, h ∈ hs0 -> exists h', h' ∈ hs /\ size h' = size h).
Proof.
  intros Hok Hr. revert es0 hs0 Hok. induction Hr as [s|s s1 s2 Hstep Hr IH]; intros es0 hs0 Hok.
  - exists [], hs0. rewrite app_nil_r. eauto.
  - destruct (sys_ok_step _ _ _ _ _ _ Hok Hstep) as (es1 & hs1 & Hok1 & Hg).
    destruct (IH _ _ Hok1) as (es2 & hs2 & Hok2 & Hh2). exists (es1 ++ es2), hs2.
    rewrite app_assoc. split; [done|]. intros h Hh. destruct Hg as [->|(sth & _ & ->)]; [by apply Hh2|].
    destruct (upsert_keeps size sth hs0 h Hh) as (h1 & Hh1 & E1).
    destruct (Hh2 h1 Hh1) as (h2 & Hin & E2). exists h2. split; [done|]. congruence.
Qed.

(** C3: the server's heads always tell one history.  In every state reachable by
    any interleaving of appends, batches, signing runs and key rotations (failed
    writes and the rotation race included): the log has only grown, the in-memory
    tree is the tree of the log, every stored head commits to a prefix of the log,
    and a size that had a head still has one, with the same root. *)
Theorem server_invariant (race faults : bool) (s0 s : sys) (es0 : list LogEntry.t)
    (hs0 : list SignedTreeHead.t) (Hok : sys_ok faults s0 es0 hs0)
    (Hr : rtc (step race faults) s0 s) :
  exists es hs, es0 `prefix_of` es /\
    db_rep (inner (app s)) es /\ heads_rep (inner (app s)) hs /\
    represents (merkle (app s)) (log_leaves es) /\ Forall (head_ok es) hs /\
    (faults = false -> gap_free (inner (app s)) es) /\
    (forall h, h ∈ hs0 -> exists h', h' ∈ hs /\ size h' = size h /\
       SignedTreeHead.root_hash h' = SignedTreeHead.root_hash h).
Proof.
  destruct (reach_ok _ _ _ _ _ _ Hok Hr) as (es' & hs & [[Hdb Hh Hm Hro] _ _ _ Hg] & Hkeep).
  exists (es0 ++ es'), hs. split; [by exists es'|]. do 5 (split; [done|]).
  intros h Hin. destruct (Hkeep h Hin) as (h' & Hin' & E). exists h'. split; [done|]. split; [done|].
  rewrite Forall_forall in Hro. destruct (Hro h' Hin') as [_ E'].
  destruct Hok as [[_ _ _ Hro0] _ _ _ _]. rewrite Forall_forall in Hro0.
  destruct (head_ok_mono es0 es' h (Hro0 h Hin)) as [_ E0]. rewrite E in E'. congruence.
Qed.

(** ** Signatures *)

(** The signature is over the head's own fields, by the key the head names. *)
Definition head_signed (h : SignedTreeHead.t) : Prop :=
  exists sk, SignedTreeHead.signature h =
      ed_sign sk (to_vec (signing_payload (size h) (SignedTreeHead.root_hash h)
                            (SignedTreeHead.timestamp_ns h))) /\
    SignedTreeHead.public_key h = vk_to_bytes (verifying_key sk).

(** What has been signed so far is signed with the key that will be named. *)
Definition sig_ok (sk : SigningKey) (t : sign_task) : Prop :=
  match t with
  | TSnapshot _ _ | TChecked _ _ => True
  | TSigned n r ts sig => sig = ed_sign sk (to_vec (signing_payload n r ts))
  | TKeyed n r ts sig pk => exists sk', sig = ed_sign sk' (to_vec (signing_payload n r ts)) /\
      pk = vk_to_bytes (verifying_key sk')
  | TReady sth => head_signed sth
  end.

Lemma sig_swap sk sk' l :
  Forall (fun t => ~ is_signed t) l -> Forall (sig_ok sk) l -> Forall (sig_ok sk') l.
Proof.
  intros Hn Hs. eapply Forall_impl; [apply Forall_and; split; [exact Hn|exact Hs]|].
  intros [| | | |] [Ht Hok]; (done || by destruct Ht).
Qed.

Lemma sig_step faults s s' :
  step false faults s s' -> Forall (sig_ok (sig_key (signer (app s)))) (signing s) ->
  Forall (sig_ok (sig_key (signer (app s')))) (signing s').
Proof.
  intros Hstep Hs.
  assert (Hat : forall i t, signing s !! i = Some t -> sig_ok (sig_key (signer (app s))) t).
  { intros i t. by apply Forall_lookup_1. }
  inversion Hstep; subst; clear Hstep; cbn [app signing with_app with_signing with_rotating with_outbox
    send set_signer set_inner signer] in *; try done.
  - match goal with E : append_commit _ _ _ _ = _ |- _ => destruct (append_commit_frame _ _ _ _ _ _ E) as [-> _] end; done.
  - match goal with E : batch_commit _ _ _ = _ |- _ => destruct (batch_commit_frame _ _ _ _ _ E) as [-> _] end; done.
  - apply Forall_app. split; [done|by repeat constructor].
  - by apply Forall_update.
  - by apply Forall_update.
  - apply Forall_update; [done|].
    match goal with E : signing s !! _ = _ |- _ => apply Hat in E; cbn in E; subst end. cbn. eauto.
  - apply Forall_update; [done|].
    match goal with E : signing s !! _ = _ |- _ => apply Hat in E as (sk' & -> & ->) end.
    by exists sk'.
  - by apply Forall_delete.
  - by apply Forall_delete.
  - match goal with Hn : false = false -> _ |- _ => specialize (Hn eq_refl) end. by eapply sig_swap.
Qed.

Context {EL : Ed25519Laws}.

Lemma signed_verify h : head_signed h -> verify_sth h = true.
Proof.
  intros (sk & Es & Ep). unfold verify_sth. rewrite Es, Ep, vk_roundtrip, array_try_from_to_vec.
  apply ed_sign_verify_strict.
Qed.

Lemma reach_signed faults s0 s es0 hs0 :
  sys_ok faults s0 es0 hs0 -> Forall (sig_ok (sig_key (signer (app s0)))) (signing s0) ->
  Forall head_signed hs0 -> rtc (step false faults) s0 s ->
  exists es' hs, sys_ok faults s (es0 ++ es') hs /\ Forall head_signed hs.
Proof.
  intros Hok Hs0 Hv0 Hr. revert es0 hs0 Hok Hv0 Hs0.
  induction Hr as [s|s s1 s2 Hstep Hr IH]; intros es0 hs0 Hok Hv0 Hs0.
  - exists [], hs0. by rewrite app_nil_r.
  - destruct (sys_ok_step _ _ _ _ _ _ Hok Hstep) as (es1 & hs1 & Hok1 & Hg).
    destruct (IH (es0 ++ es1) hs1) as (es2 & hs2 & Hok2 & Hv2); [done| |by eapply sig_step|].
    + destruct Hg as [->|(sth & Hin & ->)]; [done|]. apply Forall_forall.
      intros h [->|Hh]%upsert_elem.
      * rewrite Forall_forall in Hs0. exact (Hs0 _ Hin).
      * rewrite Forall_forall in Hv0. by apply Hv0.
    + exists (es1 ++ es2), hs2. by rewrite app_assoc.
Qed.

(** C7: stored heads verify.  When no key rotation falls between the signature
    and the public key of a head being made, then in every reachable state each stored
    head passes [verify_sth]: its signature verifies strictly under the public
    key it names, over its own size, root and timestamp. *)
Theorem heads_verify (faults : bool) (s0 s : sys) (es0 : list LogEntry.t)
    (hs0 : list SignedTreeHead.t) (Hok : sys_ok faults s0 es0 hs0) (Hidle : signing s0 = [])
    (Hv0 : Forall head_signed hs0) (Hr : rtc (step false faults) s0 s) :
  exists hs, heads_rep (inner (app s)) hs /\ Forall (fun h => verify_sth h = true) hs.
Proof.
  destruct (reach_signed faults s0 s es0 hs0) as (es' & hs & Hok' & Hs);
    [done|by rewrite Hidle|done|done|].
  exists hs. split; [apply Hok'|]. eapply Forall_impl; [exact Hs|]. apply signed_verify.
Qed.
End Concurrent.
