(* ===== verification/ServiceTheorems.v ===== *)
(** * What the RPCs promise

    The proofs and heads the server returns verify in the client SDK; appends and
    batches are answered as documented; a server started from disk satisfies the
    invariant. *)

From Stdlib Require String.
From stdpp Require Import relations.
From S2P Require Import SdkVerifier.
From S2P Require Import Prelude Bytes Hash MerkleSpec Merkle MerkleProof ProofTheorems Sth Rocksdb.
From S2P Require Import StorageTypes Db LogStore LogTheorems Table HeadStore KeyStore ServerState.
From S2P Require Import Service ServerInv Concurrent.

Import String.StringSyntax.

Section ServiceTheorems.
Context `{Sha256} {R : Rocksdb} {P : Prost} {RL : RocksdbLaws} {PL : ProstLaws}.
Context {D : ErrorDisplay} `{Ed25519} `{RateLimit} `{Profile}.
Abbreviation seq := LogEntry.seq.
Abbreviation size := SignedTreeHead.tree_size.
Abbreviation root_hash := SignedTreeHead.root_hash.

(** The head a request with this size refers to: 0 is the latest. *)
Definition requested_head (hs : list SignedTreeHead.t) (n : Z) : option SignedTreeHead.t :=
  if n =? 0 then last hs else find_id size n hs.

(** A read of the proof handlers failed in RocksDB. *)
Definition read_error (st : AppState) : Prop :=
  exists e, iter_fails (db (inner st)) CF_HEADS IterEnd e \/
    iter_fails (db (inner st)) CF_LOG (IterFrom (to_vec (u64_to_be_bytes 0))) e \/
    exists n, rdb_get (db (inner st)) CF_HEADS (to_vec (u64_to_be_bytes n)) = Err e.

Lemma resolve_size_ok st es hs n :
  server_ok st es hs ->
  match resolve_size st n with
  | Ok m => m = n /\ n <> 0 \/ n = 0 /\ exists h, last hs = Some h /\ m = size h
  | Err _ => read_error st \/ n = 0 /\ hs = []
  end.
Proof.
  intros [_ Hh _ _]. unfold resolve_size. destruct (Z.eqb_spec n 0) as [->|Hn]; [|by left].
  destruct (head_latest_ok _ _ Hh) as [E|(e & He & E)]; rewrite E; [|left; exists e; auto].
  destruct (last hs) as [h|] eqn:El; [right; eauto|right].
  split; [done|]. by apply last_None in El.
Qed.

Lemma head_at_ok st es hs n what :
  server_ok st es hs -> in_u64 n ->
  match head_at st n what with
  | Ok h => find_id size n hs = Some h
  | Err _ => read_error st \/ find_id size n hs = None
  end.
Proof.
  intros [_ Hh _ _] Hn. unfold head_at.
  destruct (at_size_ok _ _ n Hh Hn) as [E|(e & He & E)]; rewrite E; [|left; exists e; eauto].
  by destruct (find_id size n hs); [|right].
Qed.

(** The leaf hashes a proof handler computes on. *)
Lemma leaves_read st es hs n :
  server_ok st es hs -> gap_free (inner st) es -> 0 <= n ->
  match seq_range (inner st) 0 n with
  | Ok entries => LogEntry.leaf_hash <$> entries = take (Z.to_nat n) (log_leaves es)
  | Err _ => read_error st
  end.
Proof.
  intros [Hdb _ _ _] Hg Hn. destruct (seq_range_ok _ _ 0 n Hdb ltac:(done)) as [E|(e & He & E)]; rewrite E.
  - rewrite (gap_free_take _ _ _ Hg Hn). unfold log_leaves. by rewrite fmap_take.
  - exists e. auto.
Qed.

Lemma head_ok_elem st es hs h : server_ok st es hs -> h ∈ hs -> head_ok es h.
Proof. intros [_ _ _ Hro] Hh. rewrite Forall_forall in Hro. by apply Hro. Qed.

Lemma rep_leaf s es i e :
  db_rep s es -> es !! i = Some e -> LogEntry.leaf_hash e = leaf_hash (LogEntry.data e).
Proof.
  intros [Hl _ _ _] He. destruct (Forall2_lookup_l _ _ _ _ _ Hl He) as (kv & _ & _ & _ & _ & E). done.
Qed.

Lemma len_es_bound st es hs : server_ok st es hs -> len es < two64.
Proof.
  intros [Hdb _ _ _]. pose proof (len_le_next _ _ Hdb). destruct Hdb as [_ _ _ Hn]. unfold in_u64 in Hn. lia.
Qed.

Lemma len_take_leaves es n : 0 <= n <= len es -> len (take (Z.to_nat n) (log_leaves es)) = n.
Proof. intros Hn. pose proof (len_leaves es). unfold len in *. rewrite length_take. lia. Qed.

Lemma requested_elem hs n h : requested_head hs n = Some h -> h ∈ hs /\ (n <> 0 -> size h = n).
Proof.
  unfold requested_head. destruct (Z.eqb_spec n 0).
  - intros ?%last_Some_elem_of. split; [done|lia].
  - by intros [? ?]%find_id_elem.
Qed.

(** Resolving and fetching agree on the head. *)
Lemma requested_found st es hs n m h :
  server_ok st es hs ->
  (m = n /\ n <> 0 \/ n = 0 /\ exists h, last hs = Some h /\ m = size h) ->
  find_id size m hs = Some h -> requested_head hs n = Some h /\ m = size h.
Proof.
  intros Hok Hm Hf. unfold requested_head. destruct Hm as [[-> Hn]|[-> (h' & El & ->)]].
  - rewrite (proj2 (Z.eqb_neq _ _)) by done. apply find_id_elem in Hf as ?. naive_solver.
  - cbn. split; [|by apply find_id_elem in Hf as [_ ?]].
    rewrite find_id_sorted in Hf; [congruence| |by apply last_Some_elem_of].
    by eapply heads_sorted, Hok.
Qed.

Lemma requested_resolves st es hs n m h :
  server_ok st es hs ->
  (m = n /\ n <> 0 \/ n = 0 /\ exists h, last hs = Some h /\ m = size h) ->
  requested_head hs n = Some h -> m = size h /\ find_id size m hs = Some h.
Proof.
  intros Hok Hm Hq. apply requested_elem in Hq as Hin. destruct Hin as [Hin Hs].
  assert (m = size h) as ->.
  { unfold requested_head in Hq. destruct Hm as [[-> Hn]|[-> (h' & El & ->)]]; [symmetry; auto|].
    cbn in Hq. congruence. }
  split; [done|]. apply find_id_sorted; [by eapply heads_sorted, Hok|done].
Qed.

Lemma resolved_range st es hs n m :
  server_ok st es hs -> in_u64 n ->
  (m = n /\ n <> 0 \/ n = 0 /\ exists h, last hs = Some h /\ m = size h) -> in_u64 m.
Proof.
  intros Hok Hn [[-> _]|[_ (h & El & ->)]]; [done|].
  apply last_Some_elem_of, (head_ok_elem _ _ _ _ Hok) in El as [Hs _].
  pose proof (len_es_bound _ _ _ Hok). unfold in_u64. lia.
Qed.

(** The path computed for a head's size verifies against the head's root. *)
Lemma head_inclusion st es hs h n :
  server_ok st es hs -> h ∈ hs -> 0 <= n < size h ->
  exists e path, es !! Z.to_nat n = Some e /\
    inclusion_proof (take (Z.to_nat (size h)) (log_leaves es)) n = Ret (Ok path) /\
    verify_inclusion (leaf_hash (LogEntry.data e)) n (size h) path (root_hash h) = Ret true.
Proof.
  intros Hok Hin Hn. destruct (head_ok_elem _ _ _ _ Hok Hin) as [Hs Hm].
  pose proof (len_es_bound _ _ _ Hok) as Hb. set (L := take _ _) in *.
  assert (HL : len L = size h) by (apply len_take_leaves; lia).
  destruct (lookup_lt_is_Some_2 es (Z.to_nat n)) as [e He]; [unfold len in Hs; lia|].
  assert (Hlh : L !! Z.to_nat n = Some (LogEntry.leaf_hash e)).
  { unfold L, log_leaves. rewrite lookup_take_lt by lia. by rewrite list_lookup_fmap, He. }
  destruct (inclusion_complete_tree L n (LogEntry.leaf_hash e)) as (path & root & Ep & Er & Ev);
    [lia|lia|done|].
  exists e, path. split; [done|]. split; [done|].
  rewrite Hm in Er. injection Er as <-. rewrite <- (rep_leaf _ _ _ _ (ok_db _ _ _ Hok) He).
  by rewrite HL in Ev.
Qed.

Lemma inclusion_rpc_spec st es hs n tree_size :
  server_ok st es hs -> gap_free (inner st) es -> in_u64 n -> in_u64 tree_size ->
  exists r, rpc_inclusion_proof st n tree_size = Ret r /\
    match r with
    | Ok resp => exists e h path, es !! Z.to_nat n = Some e /\
        requested_head hs tree_size = Some h /\
        resp = InclusionProofResponse.mk n (size h) (to_vec <$> path) (sth_to_pb h) /\
        verify_inclusion (leaf_hash (LogEntry.data e)) n (size h) path (root_hash h) = Ret true
    | Err _ => read_error st \/ forall h, requested_head hs tree_size = Some h -> size h <= n
    end.
Proof.
  intros Hok Hg Hn Hts. unfold rpc_inclusion_proof.
  pose proof (resolve_size_ok st es hs tree_size Hok) as Hres.
  destruct (resolve_size st tree_size) as [m|e]; [|eexists; split; [done|]].
  2:{ destruct Hres as [?|[-> ->]]; [by left|right]. by intros h. }
  pose proof (resolved_range _ _ _ _ _ Hok Hts Hres) as Hm.
  destruct (Z.leb_spec m n) as [Hle|Hlt].
  { eexists. split; [done|]. right. intros h Hq.
    destruct (requested_resolves _ _ _ _ _ _ Hok Hres Hq) as [-> _]. done. }
  pose proof (leaves_read st es hs m Hok Hg (proj1 Hm)) as Hl.
  destruct (seq_range (inner st) 0 m) as [entries|e]; [|eexists; split; [done|by left]].
  rewrite Hl. destruct (find_id size m hs) as [h|] eqn:Ef.
  - destruct (requested_found _ _ _ _ _ _ Hok Hres Ef) as [Hq ->].
    apply requested_elem in Hq as Hin. destruct Hin as [Hin _].
    destruct (head_inclusion st es hs h n Hok Hin) as (e & path & He & Ep & Ev); [unfold in_u64 in *; lia|].
    rewrite Ep. cbn [obind].
    pose proof (head_at_ok st es hs (size h) "tree_size"%str Hok Hm) as Ha.
    destruct (head_at st (size h) _) as [h'|e']; eexists; (split; [done|]).
    + rewrite Ef in Ha. injection Ha as <-. by exists e, h, path.
    + destruct Ha as [?|?]; [by left|congruence].
  - assert (Hno : forall h, requested_head hs tree_size = Some h -> size h <= n).
    { intros h Hq. destruct (requested_resolves _ _ _ _ _ _ Hok Hres Hq). congruence. }
    destruct (inclusion_total (take (Z.to_nat m) (log_leaves es)) n) as [r Er]; [|apply Hn|].
    { unfold len. rewrite length_take. pose proof (len_es_bound _ _ _ Hok).
      pose proof (len_leaves es). unfold len in *. lia. }
    rewrite Er. cbn [obind]. destruct r as [path|e]; [|eexists; split; [done|by right]].
    pose proof (head_at_ok st es hs m "tree_size"%str Hok Hm) as Ha. rewrite Ef in Ha.
    destruct (head_at st m _) as [h'|e']; [done|]. eexists. split; [done|by right].
Qed.

Lemma head_consistency st es hs h1 h2 :
  server_ok st es hs -> h1 ∈ hs -> h2 ∈ hs -> size h1 <= size h2 ->
  exists path,
    consistency_proof (take (Z.to_nat (size h2)) (log_leaves es)) (size h1) = Ret (Ok path) /\
    verify_consistency (size h1) (size h2) path (root_hash h1) (root_hash h2) = Ret true.
Proof.
  intros Hok Hin1 Hin2 Hle. destruct (head_ok_elem _ _ _ _ Hok Hin1) as [Hs1 Hm1].
  destruct (head_ok_elem _ _ _ _ Hok Hin2) as [Hs2 Hm2].
  pose proof (len_es_bound _ _ _ Hok) as Hb. set (L := take (Z.to_nat (size h2)) _) in *.
  assert (HL : len L = size h2) by (apply len_take_leaves; lia).
  destruct (consistency_complete_tree L (size h1)) as (path & r1 & r2 & Ep & E1 & E2 & Ev); [lia|lia|].
  exists path. split; [done|]. rewrite Hm2 in E2. injection E2 as <-.
  unfold L in E1. rewrite take_take, Nat.min_l, Hm1 in E1 by lia. injection E1 as <-.
  by rewrite HL in Ev.
Qed.

Lemma consistency_rpc_spec st es hs old_size new_size :
  server_ok st es hs -> gap_free (inner st) es -> in_u64 old_size -> in_u64 new_size ->
  exists r, rpc_consistency_proof st old_size new_size = Ret r /\
    match r with
    | Ok resp => exists h1 h2 path, find_id size old_size hs = Some h1 /\
        requested_head hs new_size = Some h2 /\
        resp = ConsistencyProofResponse.mk old_size (size h2) (to_vec <$> path)
                 (sth_to_pb h1) (sth_to_pb h2) /\
        verify_consistency old_size (size h2) path (root_hash h1) (root_hash h2) = Ret true
    | Err _ => read_error st \/
        forall h1 h2, find_id size old_size hs = Some h1 -> requested_head hs new_size = Some h2 ->
          size h2 < old_size
    end.
Proof.
  intros Hok Hg Ho Hn. unfold rpc_consistency_proof.
  destruct (Z.eqb_spec old_size 0) as [->|Hz].
  { eexists. split; [done|]. right. intros h1 h2 [Hin E]%find_id_elem.
    apply (head_ok_elem _ _ _ _ Hok) in Hin as [? _]. lia. }
  pose proof (resolve_size_ok st es hs new_size Hok) as Hres.
  destruct (resolve_size st new_size) as [m|e]; [|eexists; split; [done|]].
  2:{ destruct Hres as [?|[-> ->]]; [by left|right]. by intros h1 h2. }
  pose proof (resolved_range _ _ _ _ _ Hok Hn Hres) as Hm.
  destruct (Z.ltb_spec m old_size) as [Hlt|Hle].
  { eexists. split; [done|]. right. intros h1 h2 _ Hq.
    destruct (requested_resolves _ _ _ _ _ _ Hok Hres Hq) as [-> _]. done. }
  pose proof (leaves_read st es hs m Hok Hg (proj1 Hm)) as Hl.
  destruct (seq_range (inner st) 0 m) as [entries|e]; [|eexists; split; [done|by left]]. rewrite Hl.
  destruct (consistency_total (take (Z.to_nat m) (log_leaves es)) old_size) as [r Er]; [|apply Ho|].
  { pose proof (len_es_bound _ _ _ Hok). pose proof (len_leaves es). unfold len in *.
    rewrite length_take. lia. }
  pose proof (head_at_ok st es hs old_size "old_size"%str Hok Ho) as Ha1.
  pose proof (head_at_ok st es hs m "new_size"%str Hok Hm) as Ha2.
  assert (Hno : forall h1 h2, find_id size old_size hs = Some h1 -> requested_head hs new_size = Some h2 ->
    find_id size m hs = Some h2 /\ exists path, r = Ok path /\
      verify_consistency old_size (size h2) path (root_hash h1) (root_hash h2) = Ret true).
  { intros h1 h2 Hf1 Hq. destruct (requested_resolves _ _ _ _ _ _ Hok Hres Hq) as [-> Hf2].
    split; [done|]. apply find_id_elem in Hf1 as [Hin1 <-]. apply find_id_elem in Hf2 as [Hin2 _].
    destruct (head_consistency st es hs h1 h2 Hok Hin1 Hin2 Hle) as (path & Ep & Ev).
    rewrite Er in Ep. injection Ep as ->. eauto. }
  rewrite Er. cbn [obind].
  destruct r as [path|e]; [destruct (head_at st old_size _) as [h1|e1];
    [destruct (head_at st m _) as [h2|e2]|]|]; eexists; (split; [done|]).
  - destruct (requested_found _ _ _ _ _ _ Hok Hres Ha2) as [Hq ->].
    destruct (Hno h1 h2 Ha1 Hq) as (_ & p & [= ->] & Ev). by exists h1, h2, p.
  - destruct Ha2 as [?|Hn2]; [by left|right]. intros h1' h2 Hf1 Hq.
    destruct (Hno h1' h2 Hf1 Hq) as [? _]. congruence.
  - destruct Ha1 as [?|Hn1]; [by left|right]. intros h1 h2 Hf1. congruence.
  - right. intros h1 h2 Hf1 Hq. by destruct (Hno h1 h2 Hf1 Hq) as (_ & p & ? & _).
Qed.

(** ** Appends *)

Lemma admit_one_frame st at_ es hs :
  server_ok st es hs -> server_ok (admit_one st at_).1 es hs /\
    inner (admit_one st at_).1 = inner st /\ watch_tx (admit_one st at_).1 = watch_tx st.
Proof.
  intros Hok. unfold admit_one. destruct (rate_limiter st) as [l|]; [|done].
  destruct (try_consume l at_) as [l' b]. cbn. split; [|done]. frame.
Qed.

Lemma admit_n_frame st at_ n es hs :
  server_ok st es hs -> server_ok (admit_n st at_ n).1 es hs /\
    inner (admit_n st at_ n).1 = inner st /\ watch_tx (admit_n st at_ n).1 = watch_tx st.
Proof.
  intros Hok. unfold admit_n. destruct (rate_limiter st) as [l|]; [|done].
  destruct (try_consume_n l at_ n) as [l' b]. cbn. split; [|done]. frame.
Qed.

Lemma len_zero {A} (l : list A) : len l = 0 -> l = [].
Proof. destruct l; [done|]. rewrite len_cons. pose proof (len_nonneg l). lia. Qed.

Lemma batch_index first ts pairs :
  pairs <> [] -> exists x, index (batch_result <$> batch_entries first ts pairs) 0 = Ret x.
Proof. destruct pairs as [|[k d] pairs]; [done|]. cbn. eauto. Qed.

Lemma send_all_frame st l :
  merkle (foldl send st l) = merkle st /\ inner (foldl send st l) = inner st.
Proof. revert st. induction l as [|e l IH]; intros st; [done|]. apply (IH (send st e)). Qed.

Lemma send_all_watch st l : watch_tx (foldl send st l) = watch_tx st ++ l.
Proof.
  revert st. induction l as [|e l IH]; intros st; cbn [foldl]; [by rewrite app_nil_r|].
  rewrite IH. cbn. by rewrite <- app_assoc.
Qed.

(** The zips of the handler, entry by entry. *)
Lemma batch_responses first ts pairs :
  zip_with batch_response pairs (batch_result <$> batch_entries first ts pairs) =
  (fun e => AppendResponse.mk (seq e) (LogEntry.timestamp_ns e)
              (to_vec (LogEntry.leaf_hash e)) (LogEntry.key e)) <$> batch_entries first ts pairs.
Proof.
  revert first. induction pairs as [|[k d] pairs IH]; intros first; [done|].
  cbn [batch_entries]. rewrite !fmap_cons. cbn [zip_with]. by rewrite IH.
Qed.

Lemma append_rpc_spec (st : AppState) (es : list LogEntry.t) (hs : list SignedTreeHead.t)
    (at_ now : Z) (key data : bytes) (Hok : server_ok st es hs)
    (Hroom : next_seq (inner st) + 1 < two64) (Hnow : 0 <= now) (Hp : pair_ok (key, data)) :
  exists st' r, rpc_append st at_ now key data = Ret (st', r) /\
    let e := new_entry (next_seq (inner st)) (wrap_i64 now) key data in
    match r with
    | Ok resp => (admit_one st at_).2 = true /\
        resp = AppendResponse.mk (seq e) (LogEntry.timestamp_ns e) (to_vec (leaf_hash data)) key /\
        server_ok st' (es ++ [e]) hs /\ watch_tx st' = watch_tx st ++ [entry_to_pb e]
    | Err s => server_ok st' es hs /\ watch_tx st' = watch_tx st /\
        if (admit_one st at_).2
        then exists x, s = to_status (EStorage x) /\ write_fault (db (inner st)) [e] x
        else code s = ResourceExhausted /\ inner st' = inner st
    end.
Proof.
  unfold rpc_append. destruct (admit_one_frame st at_ es hs Hok) as (Hok1 & Ei & Ew).
  destruct (admit_one st at_) as [st1 ok]. cbn [fst snd] in *. destruct ok.
  2:{ eexists _, _. split; [done|]. cbn. done. }
  destruct (append_commit_ok st1 es hs now key data Hok1) as (st2 & r & E & _ & _ & Hr);
    [by rewrite Ei|done|done|].
  destruct (append_commit_frame _ _ _ _ _ _ E) as (_ & _ & _ & Ew2 & _).
  rewrite E. cbn [obind]. rewrite Ei in Hr. destruct r as [[n ts]|s].
  - destruct Hr as (-> & -> & Hr). eexists _, _. split; [done|]. cbn zeta.
    split; [done|]. split; [done|]. split; [frame|]. cbn. by rewrite Ew2, Ew.
  - destruct Hr as [Hr Hf]. eexists _, _. split; [done|]. cbn zeta. split; [done|]. split; [by rewrite Ew2|done].
Qed.

(** C14: the Append RPC.  It always returns if the clock is after 1970 and the number counter has room,
    for any key, an empty one too: docs/settled.md (line 159) says that the server validates that the
    key is not empty, which the code does not do.  On success the response carries the
    next number, the timestamp, the leaf hash of the data and the key, the log has
    that entry at its end, the in-memory tree covers it, and the watchers were
    sent the entry; on an error nothing was stored and nobody notified, and either the
    limiter refused (RESOURCE_EXHAUSTED, no number used up) or the entry could not be
    encoded or written (INTERNAL). *)
Theorem append_rpc (st : AppState) (es : list LogEntry.t) (hs : list SignedTreeHead.t)
    (at_ now : Z) (key data : bytes) (Hok : server_ok st es hs)
    (Hroom : next_seq (inner st) + 1 < two64) (Hnow : 0 <= now) (Hp : pair_ok (key, data)) :
  exists st' r, rpc_append st at_ now key data = Ret (st', r) /\
    let e := new_entry (next_seq (inner st)) (wrap_i64 now) key data in
    match r with
    | Ok resp => (admit_one st at_).2 = true /\
        resp = AppendResponse.mk (seq e) (LogEntry.timestamp_ns e) (to_vec (leaf_hash data)) key /\
        server_ok st' (es ++ [e]) hs /\ watch_tx st' = watch_tx st ++ [entry_to_pb e]
    | Err s => server_ok st' es hs /\ watch_tx st' = watch_tx st /\
        if (admit_one st at_).2
        then exists x, s = to_status (EStorage x) /\ write_fault (db (inner st)) [e] x
        else code s = ResourceExhausted /\ inner st' = inner st
    end.
Proof. by apply append_rpc_spec. Qed.

Lemma batch_rpc_spec (st : AppState) (es : list LogEntry.t) (hs : list SignedTreeHead.t)
    (at_ now : Z) (pairs : list (bytes * bytes)) (Hok : server_ok st es hs)
    (Hroom : next_seq (inner st) + len pairs < two64) (Hnow : 0 <= now) (Hp : Forall pair_ok pairs) :
  exists st' r, rpc_batch_append st at_ now pairs = Ret (st', r) /\
    let news := batch_entries (next_seq (inner st)) (wrap_i64 now) pairs in
    match r with
    | Ok l => len pairs <= MAX_BATCH /\ server_ok st' (es ++ news) hs /\
        l = (fun e => AppendResponse.mk (seq e) (LogEntry.timestamp_ns e)
                        (to_vec (LogEntry.leaf_hash e)) (LogEntry.key e)) <$> news /\
        watch_tx st' = watch_tx st ++ (entry_to_pb <$> news)
    | Err s => server_ok st' es hs /\ watch_tx st' = watch_tx st /\
        pairs <> [] /\
        if MAX_BATCH <? len pairs then code s = InvalidArgument /\ st' = st
        else if (admit_n st at_ (len pairs)).2
        then exists x, s = to_status (EStorage x) /\ write_fault (db (inner st)) news x
        else code s = ResourceExhausted /\ inner st' = inner st
    end.
Proof.
  unfold rpc_batch_append. destruct (Z.eqb_spec (len pairs) 0) as [E0|E0].
  { apply len_zero in E0 as ->. eexists _, _. split; [done|]. cbn. by rewrite !app_nil_r. }
  assert (Hne : pairs <> []) by (intros ->; done).
  destruct (Z.ltb_spec MAX_BATCH (len pairs)) as [Hbig|Hsmall].
  { eexists _, _. split; [done|]. cbn. done. }
  assert (Hw : wrap_u32 (len pairs) = len pairs).
  { apply Z.mod_small. pose proof (len_nonneg pairs). unfold MAX_BATCH in Hsmall. ulia. }
  rewrite Hw. destruct (admit_n_frame st at_ (len pairs) es hs Hok) as (Hok1 & Ei & Ew).
  destruct (admit_n st at_ _) as [st1 ok]. cbn [fst snd] in *. destruct ok.
  2:{ eexists _, _. split; [done|]. cbn. done. }
  destruct (batch_commit_ok st1 es hs now pairs Hok1) as (st2 & r & E & _ & _ & Hr);
    [by rewrite Ei|done|done|].
  destruct (batch_commit_frame _ _ _ _ _ E) as (_ & _ & _ & Ew2 & _).
  rewrite E. cbn [obind]. rewrite Ei in Hr. cbn zeta in *.
  set (news := batch_entries _ _ _) in *. destruct r as [l|s].
  - destruct Hr as [-> Hr]. destruct (batch_index (next_seq (inner st)) (wrap_i64 now) pairs Hne) as [x Ex]. fold news in Ex.
    rewrite Ex. cbn [obind].
    eexists _, _. split; [done|]. split; [done|]. split; [|split].
    + eapply server_ok_frame; [exact Hr|apply send_all_frame..].
    + apply batch_responses.
    + rewrite send_all_watch, Ew2, Ew. f_equal. apply batch_sent.
  - destruct Hr as [Hr Hf]. eexists _, _. split; [done|]. split; [done|]. split; [by rewrite Ew2|done].
Qed.

(** C15: the BatchAppend RPC.  An empty batch is answered without effect and one
    of more than 1000 entries refused as INVALID_ARGUMENT; otherwise, with the
    limiter's consent, either every entry is stored, in input order under
    consecutive numbers, answered in order and sent to the watchers in order, or
    none is, one of them having failed to encode or RocksDB to write. *)
Theorem batch_rpc (st : AppState) (es : list LogEntry.t) (hs : list SignedTreeHead.t)
    (at_ now : Z) (pairs : list (bytes * bytes)) (Hok : server_ok st es hs)
    (Hroom : next_seq (inner st) + len pairs < two64) (Hnow : 0 <= now) (Hp : Forall pair_ok pairs) :
  exists st' r, rpc_batch_append st at_ now pairs = Ret (st', r) /\
    let news := batch_entries (next_seq (inner st)) (wrap_i64 now) pairs in
    match r with
    | Ok l => len pairs <= MAX_BATCH /\ server_ok st' (es ++ news) hs /\
        l = (fun e => AppendResponse.mk (seq e) (LogEntry.timestamp_ns e)
                        (to_vec (LogEntry.leaf_hash e)) (LogEntry.key e)) <$> news /\
        watch_tx st' = watch_tx st ++ (entry_to_pb <$> news)
    | Err s => server_ok st' es hs /\ watch_tx st' = watch_tx st /\
        pairs <> [] /\
        if MAX_BATCH <? len pairs then code s = InvalidArgument /\ st' = st
        else if (admit_n st at_ (len pairs)).2
        then exists x, s = to_status (EStorage x) /\ write_fault (db (inner st)) news x
        else code s = ResourceExhausted /\ inner st' = inner st
    end.
Proof. by apply batch_rpc_spec. Qed.

(** ** Heads and proofs *)

(** C17: the InclusionProof RPC, on a log without gaps and with all its reads from one state (what other
    tasks may change between the reads is in [Reads]).  It always returns.  A success
    answers for the entry with the requested number under the requested head
    (the latest for size 0), with a path that [verify_inclusion] accepts for the hash
    of that entry's data against that head's root.  It fails only when there is no such
    head, when the head does not cover the entry, or when RocksDB fails.  On a log in which a failed
    append has left a gap the same request can succeed with a path that does not verify
    ([ServerDemo.gap_proof_rejected]). *)
Theorem inclusion_rpc (st : AppState) (es : list LogEntry.t) (hs : list SignedTreeHead.t)
    (n tree_size : Z) (Hok : server_ok st es hs) (Hg : gap_free (inner st) es)
    (Hn : in_u64 n) (Hts : in_u64 tree_size) :
  exists r, rpc_inclusion_proof st n tree_size = Ret r /\
    match r with
    | Ok resp => exists e h path, es !! Z.to_nat n = Some e /\
        requested_head hs tree_size = Some h /\
        resp = InclusionProofResponse.mk n (size h) (to_vec <$> path) (sth_to_pb h) /\
        verify_inclusion (leaf_hash (LogEntry.data e)) n (size h) path (root_hash h) = Ret true
    | Err _ => read_error st \/ forall h, requested_head hs tree_size = Some h -> size h <= n
    end.
Proof. by apply inclusion_rpc_spec. Qed.

(** C18: the ConsistencyProof RPC, on a log without gaps and with all its reads from one state (what other
    tasks may change between the reads is in [Reads]).  It always returns.  A
    success carries the two stored heads and a path that [verify_consistency] accepts
    between their roots.  It fails only when one of the heads does not exist, the sizes
    are out of order, or RocksDB fails. *)
Theorem consistency_rpc (st : AppState) (es : list LogEntry.t) (hs : list SignedTreeHead.t)
    (old_size new_size : Z) (Hok : server_ok st es hs) (Hg : gap_free (inner st) es)
    (Ho : in_u64 old_size) (Hn : in_u64 new_size) :
  exists r, rpc_consistency_proof st old_size new_size = Ret r /\
    match r with
    | Ok resp => exists h1 h2 path, find_id size old_size hs = Some h1 /\
        requested_head hs new_size = Some h2 /\
        resp = ConsistencyProofResponse.mk old_size (size h2) (to_vec <$> path)
                 (sth_to_pb h1) (sth_to_pb h2) /\
        verify_consistency old_size (size h2) path (root_hash h1) (root_hash h2) = Ret true
    | Err _ => read_error st \/
        forall h1 h2, find_id size old_size hs = Some h1 -> requested_head hs new_size = Some h2 ->
          size h2 < old_size
    end.
Proof. by apply consistency_rpc_spec with es. Qed.

Lemma sign_and_store_spec st es hs now :
  server_ok st es hs -> in_u32 (sig_version (signer st)) -> 0 <= now ->
  exists st' r hs', sign_and_store st now = Ret (st', r) /\ server_ok st' es hs' /\
    (hs' = hs \/ exists h, head_ok es h /\ head_signed h /\ hs' = upsert size h hs) /\
    match r with
    | Ok _ => es = [] /\ st' = st \/ exists h, find_id size (len es) hs' = Some h
    | Err e => hs' = hs /\ external_error e
    end.
Proof.
  intros Hok Hv Hnow. destruct (snapshot_ok st es hs Hok) as (root & Es & Hm & Hroot).
  unfold sign_and_store. rewrite Es. cbn [obind].
  destruct (Z.eqb_spec (len es) 0) as [E0|E0].
  { apply len_zero in E0 as ->. exists st, (Ok tt), hs. split; [done|]. split; [done|]. split; by left. }
  pose proof (len_nonneg es). destruct Hroot as [r ->]; [lia|].
  unfold up_to_date. destruct (head_latest_ok _ _ (ok_heads _ _ _ Hok)) as [E|(e & He & E)]; rewrite E.
  2:{ exists st, (Err (RocksDb e)), hs. split; [done|]. split; [done|]. split; [by left|done]. }
  assert (Hskip : forall h, last hs = Some h -> size h = len es -> find_id size (len es) hs = Some h).
  { intros h El Eh. rewrite <- Eh. apply find_id_sorted; [by eapply heads_sorted, Hok|].
    by apply last_Some_elem_of. }
  set (b := match last hs with Some h => size h =? len es | None => false end).
  assert (Eb : match last hs with
               | Some latest => Ok (size latest =? len es)
               | None => @Ok bool StorageTypes.Error false
               end = Ok b) by (unfold b; by destruct (last hs)).
  rewrite Eb. destruct b eqn:Ebb.
  { exists st, (Ok tt), hs. split; [done|]. split; [done|]. split; [by left|]. right.
    unfold b in Ebb. destruct (last hs) as [h|]; [|done]. breflect. eauto. }
  cbn [unwrap obind]. unfold unix_nanos. rewrite (proj2 (Z.ltb_ge _ _)) by lia. cbn [obind].
  set (h := SignedTreeHead.mk _ _ _ _ _ _).
  assert (Hh : head_ok es h).
  { apply snapshot_head_ok; [lia|]. rewrite take_ge; [done|]. pose proof (len_leaves es). unfold len in *. lia. }
  assert (Hw : sth_wf h).
  { split; [|split; [apply wrap_i64_range|done]]. pose proof (len_es_bound _ _ _ Hok).
    change (in_u64 (len es)). unfold in_u64. lia. }
  destruct (write_head_ok st es hs h Hok Hw Hh) as (d & w & Ew & _ & _ & Hok').
  rewrite Ew. eexists _, _, _. split; [done|]. split; [exact Hok'|]. destruct w as [u|e].
  - split; [right; exists h; split; [done|]; split; [by eexists|done]|]. right. exists h.
    apply (find_upsert_eq size h).
  - split; [by left|]. split; [done|]. by eapply head_write_error.
Qed.

(** [sign_and_store] covers the log.  It always returns; on success, unless the
    log is empty, there is a stored head for the whole log, and at most one head was
    added, committing to the log and signed with the key it names; on an error, which
    RocksDB or the encoder reported, the stored heads are unchanged. *)
Theorem sign_covers_log (st : AppState) (es : list LogEntry.t) (hs : list SignedTreeHead.t) (now : Z)
    (Hok : server_ok st es hs) (Hv : in_u32 (sig_version (signer st))) (Hnow : 0 <= now) :
  exists st' r hs', sign_and_store st now = Ret (st', r) /\ server_ok st' es hs' /\
    (hs' = hs \/ exists h, head_ok es h /\ head_signed h /\ hs' = upsert size h hs) /\
    match r with
    | Ok _ => es = [] /\ st' = st \/ exists h, find_id size (len es) hs' = Some h
    | Err e => hs' = hs /\ external_error e
    end.
Proof. by apply sign_and_store_spec. Qed.

(** ** Start-up *)

Lemma full_scan s es : db_rep s es -> filter (fun e => 0 <= seq e < two64 - 1) es = es.
Proof.
  intros Hr. apply filter_all. pose proof (rep_wf s es Hr) as Hw. pose proof (rep_succ s es Hr) as Hs.
  eapply Forall_impl; [apply Forall_and; split; [exact Hw|exact Hs]|].
  intros e [[He _] Hlt]. unfold in_u64 in *. lia.
Qed.

(** The key history after start-up: seeded with version 1 when empty. *)
Definition seeded (ks : list KeyRecord.t) (pk : array 32) : list KeyRecord.t :=
  match ks with [] => [KeyRecord.mk 1 pk 0] | _ => ks end.
Definition start_version (ks : list KeyRecord.t) : Z :=
  match last ks with Some r => KeyRecord.version r | None => 1 end.

Lemma seed_ok s ks es hs pk :
  db_rep s es -> heads_rep s hs -> keys_rep s ks ->
  exists s' r, (match last ks with
                | Some _ => (s, Ok tt)
                | None => key_put s (KeyRecord.mk 1 pk 0)
                end) = (s', r) /\
    db_rep s' es /\ heads_rep s' hs /\ next_seq s' = next_seq s /\ (r = Ok tt -> keys_rep s' (seeded ks pk)) /\
    (forall e, r = Err e -> external_error e).
Proof.
  intros Hdb Hh Hk. destruct (last ks) as [k|] eqn:El.
  { exists s, (Ok tt). split; [done|]. do 3 (split; [done|]). split; [|done]. intros _. by destruct ks. }
  apply last_None in El as ->.
  destruct (key_put_ok s [] (KeyRecord.mk 1 pk 0) Hk) as (s' & r & E & Hk'); [by repeat split|].
  exists s', r. split; [done|]. assert (He : forall e, r = Err e -> external_error e).
  { intros e ->. by eapply key_put_error. }
  apply key_put_frame in E as [En Hc].
  split; [frame|].
  split; [frame|]. split; [done|]. split; [by intros ->|done].
Qed.

(** The number a start gives to the next entry. *)
Definition next_number (es : list LogEntry.t) : Z := from_option (fun e => seq e + 1) 0 (last es).

Lemma startup_spec (cfg : Config) (s : DbInner) (es : list LogEntry.t) (hs : list SignedTreeHead.t)
    (ks : list KeyRecord.t) (dir_ok : bool) (file : option bytes) (read_ok : bool) (fresh : SigningKey)
    (w : fs_write) (start : Z) (Hdb : db_rep s es) (Hh : heads_rep s hs)
    (Hro : Forall (head_ok es) hs) (Hk : keys_rep s ks) :
  exists r, build cfg dir_ok (Ok (db s)) file read_ok fresh w start = Ret r /\
    match r with
    | Ok st => server_ok st es hs /\ keys_rep (inner st) (seeded ks (public_key (signer st))) /\
        sig_version (signer st) = start_version ks /\
        (seq <$> es = seqZ 0 (len es) -> gap_free (inner st) es) /\
        next_seq (inner st) = next_number es /\
        match file with
        | Some c => key_file st = Some c /\ exists a, c = to_vec a /\ sig_key (signer st) = sk_from_bytes a
        | None => sig_key (signer st) = fresh /\ key_file st = Some (to_vec (sk_to_bytes fresh))
        end
    | Err StartKeyFile =>
        match file with
        | Some c => read_ok = false \/ length c <> 32%nat
        | None => w <> FsOk
        end
    | Err (StartStorage e) => schema_error (db s) e \/ external_error e
    | Err StartDataDir => dir_ok = false
    end.
Proof.
  unfold build. destruct dir_ok; [|by eexists]. cbn [negb]. destruct (reopen_spec s es Hdb) as (r & Eo & Hr). rewrite Eo. cbn [obind].
  destruct r as [s1|e].
  2:{ eexists. split; [done|]. destruct Hr as [?|(x & _ & ->)]; [by left|by right]. }
  destruct Hr as (Hdb1 & En1 & Hc & Hgap).
  assert (Hh1 : heads_rep s1 hs) by frame.
  assert (Hk1 : keys_rep s1 ks) by frame.
  destruct (seq_range_ok s1 es 0 (two64 - 1) Hdb1 ltac:(done)) as [E|(e & _ & E)]; rewrite E;
    [|eexists; split; [done|by right]].
  rewrite (full_scan s1 es Hdb1).
  destruct (append_all_represents MerkleTree.new [] (log_leaves es) new_represents) as (m & Em & Hm).
  { rewrite len_leaves. change (len (@nil hash32)) with 0. pose proof (len_le_next _ _ Hdb1).
    destruct Hdb1 as [_ _ _ Hn]. unfold in_u64 in Hn. lia. }
  fold (log_leaves es). rewrite Em. cbn [obind].
  destruct (key_latest_ok s1 ks Hk1) as [El|(e & _ & El)]; rewrite El; [|eexists; split; [done|by right]].
  fold (start_version ks).
  destruct (load_or_generate file read_ok fresh w (start_version ks)) as [file' sg] eqn:Eg.
  destruct sg as [sg|].
  2:{ eexists. split; [done|]. unfold load_or_generate in Eg. destruct file as [c|]; [|by destruct w].
      destruct read_ok; [|by left]. destruct (array_try_from 32 c) eqn:Ea; [done|].
      right. by apply array_try_from_None. }
  destruct (seed_ok s1 ks es hs (public_key sg) Hdb1 Hh1 Hk1) as (s2 & r2 & Es & Hdb2 & Hh2 & En & Hk2 & He2).
  assert (Es' : (if match last ks with Some _ => false | None => true end
                 then key_put s1 (KeyRecord.mk 1 (public_key sg) 0) else (s1, Ok tt)) = (s2, r2))
    by (rewrite <- Es; by destruct (last ks)).
  rewrite Es'. destruct r2 as [[]|e]; [|eexists; split; [done|right; by apply He2]].
  eexists. split; [done|]. cbn.
  split; [by split|]. split; [by apply Hk2|]. unfold load_or_generate in Eg.
  assert (Hgap2 : seq <$> es = seqZ 0 (len es) -> gap_free s2 es).
  { intros Hseq. destruct (Hgap Hseq) as [? ?]. split; [done|]. by rewrite En. }
  destruct file as [c|].
  - destruct read_ok; [|done]. destruct (array_try_from 32 c) as [a|] eqn:Ea; [|done].
    injection Eg as <- <-. apply array_try_from_Some in Ea. split; [done|]. split; [done|].
    split; [by rewrite En|]. eauto.
  - destruct w as [|l]; [|done]. injection Eg as <- <-. split; [done|]. split; [done|].
    split; [by rewrite En|done].
Qed.

(** C21: a start from disk restores the invariant.  On the database of any earlier run
    (whose log, heads and key history are given), [AppState::build] never
    panics; when it succeeds the in-memory tree is the tree of the stored log and the heads
    are those stored, the counter stands after the last stored number, and the signing key is the one
    in the key file, or a generated one, written to it, if there was none.  In both cases it is used under the
    latest recorded version, and the key history is seeded with it only if it was empty.  So if the key
    file is lost and the history is not empty, the new key signs under the version of the old one and is not
    recorded, although docs/deployment.md (line 395) says that every signing key ever used is.
    An error about the key file means the
    file is unreadable, not 32 bytes long, or cannot be written, and a storage error
    that the stored schema version is bad or RocksDB or the encoder reported one. *)
Theorem startup_ok (cfg : Config) (s : DbInner) (es : list LogEntry.t) (hs : list SignedTreeHead.t)
    (ks : list KeyRecord.t) (dir_ok : bool) (file : option bytes) (read_ok : bool) (fresh : SigningKey)
    (w : fs_write) (start : Z) (Hdb : db_rep s es) (Hh : heads_rep s hs)
    (Hro : Forall (head_ok es) hs) (Hk : keys_rep s ks) :
  exists r, build cfg dir_ok (Ok (db s)) file read_ok fresh w start = Ret r /\
    match r with
    | Ok st => server_ok st es hs /\ keys_rep (inner st) (seeded ks (public_key (signer st))) /\
        sig_version (signer st) = start_version ks /\
        (seq <$> es = seqZ 0 (len es) -> gap_free (inner st) es) /\
        next_seq (inner st) = next_number es /\
        match file with
        | Some c => key_file st = Some c /\ exists a, c = to_vec a /\ sig_key (signer st) = sk_from_bytes a
        | None => sig_key (signer st) = fresh /\ key_file st = Some (to_vec (sk_to_bytes fresh))
        end
    | Err StartKeyFile =>
        match file with
        | Some c => read_ok = false \/ length c <> 32%nat
        | None => w <> FsOk
        end
    | Err (StartStorage e) => schema_error (db s) e \/ external_error e
    | Err StartDataDir => dir_ok = false
    end.
Proof. by apply startup_spec. Qed.

(** ** End to end *)

Context {EL : Ed25519Laws}.

Lemma signed_sdk h :
  head_signed h ->
  SdkVerifier.verify_tree_head (size h) (root_hash h) (SignedTreeHead.timestamp_ns h)
    (to_vec (SignedTreeHead.signature h)) (to_vec (SignedTreeHead.public_key h)) = true.
Proof.
  intros (sk & Es & Ep). unfold SdkVerifier.verify_tree_head. rewrite !array_try_from_to_vec, Es, Ep, vk_roundtrip.
  apply ed_sign_verify.
Qed.

(** The SDK accepts a head of the API with root [root]. *)
Definition sdk_accepts_head (p : ProtoSth.t) (root : hash32) : Prop :=
  ProtoSth.root_hash p = to_vec root /\
  SdkVerifier.verify_tree_head (ProtoSth.tree_size p) root (ProtoSth.timestamp_ns p)
    (ProtoSth.signature p) (ProtoSth.public_key p) = true.

Lemma signed_accepts h : head_signed h -> sdk_accepts_head (sth_to_pb h) (root_hash h).
Proof. intros Hs. split; [done|]. by apply signed_sdk. Qed.

(** What the server proves, the client verifies.  From a state satisfying the
    invariant with signed heads, along any interleaving in which no append fails and
    no rotation hits a head being signed: every successful InclusionProof and
    ConsistencyProof response carries heads whose signatures the SDK accepts and a
    path that the SDK's verifier accepts against their roots, for the data of the
    entry with the requested number, and for the two requested sizes (up to [2^63]). *)
Theorem served_proofs_verify (s0 s : sys) (es0 : list LogEntry.t) (hs0 : list SignedTreeHead.t)
    (Hok : sys_ok false s0 es0 hs0) (Hidle : signing s0 = []) (Hs0 : Forall head_signed hs0)
    (Hr : rtc (step false false) s0 s) :
  exists es, db_rep (inner (app s)) es /\
  (forall n ts resp, in_u64 n -> in_u64 ts -> rpc_inclusion_proof (app s) n ts = Ret (Ok resp) ->
     exists e path root, es !! Z.to_nat n = Some e /\ seq e = n /\
       InclusionProofResponse.proof resp = to_vec <$> path /\
       sdk_accepts_head (InclusionProofResponse.sth resp) root /\
       SdkVerifier.verify_inclusion (SdkVerifier.leaf_hash (LogEntry.data e)) n
         (ProtoSth.tree_size (InclusionProofResponse.sth resp)) path root = Ret true) /\
  (forall o n resp, in_u64 o -> in_u64 n -> rpc_consistency_proof (app s) o n = Ret (Ok resp) ->
     exists path r1 r2, ConsistencyProofResponse.proof resp = to_vec <$> path /\
       sdk_accepts_head (ConsistencyProofResponse.old_sth resp) r1 /\
       sdk_accepts_head (ConsistencyProofResponse.new_sth resp) r2 /\
       ProtoSth.tree_size (ConsistencyProofResponse.old_sth resp) = o /\
       (ProtoSth.tree_size (ConsistencyProofResponse.new_sth resp) <= two63 ->
        SdkVerifier.verify_consistency o (ProtoSth.tree_size (ConsistencyProofResponse.new_sth resp))
          path r1 r2 = Ret true)).
Proof.
  destruct (reach_signed false s0 s es0 hs0 Hok) as (es' & hs & Hok' & Hs); [by rewrite Hidle|done|done|].
  exists (es0 ++ es'). pose proof (sys_server _ _ _ _ Hok') as Hsv. pose proof (sys_gaps _ _ _ _ Hok' eq_refl) as Hg.
  rewrite Forall_forall in Hs. split; [apply Hsv|]. split.
  - intros n ts resp Hn Hts E. destruct (inclusion_rpc_spec (app s) _ hs n ts Hsv Hg Hn Hts) as (r & Er & Hres).
    rewrite E in Er. injection Er as <-. destruct Hres as (e & h & path & He & Hq & -> & Hv).
    exists e, path, (root_hash h). apply requested_elem in Hq as [Hin _]. split; [done|].
    split; [rewrite (gap_free_lookup _ _ _ _ Hg He); unfold in_u64 in Hn; lia|]. split; [done|].
    split; [by apply signed_accepts, Hs|]. by rewrite sdk_inclusion_core.
  - intros o n resp Ho Hn E.
    destruct (consistency_rpc_spec (app s) _ hs o n Hsv Hg Ho Hn) as (r & Er & Hres).
    rewrite E in Er. injection Er as <-. destruct Hres as (h1 & h2 & path & Hf & Hq & -> & Hv).
    exists path, (root_hash h1), (root_hash h2). apply requested_elem in Hq as [Hin2 _].
    apply find_id_elem in Hf as [Hin1 E1]. split; [done|]. split; [by apply signed_accepts, Hs|].
    split; [by apply signed_accepts, Hs|]. split; [done|]. intros Hle.
    rewrite sdk_consistency_core; [done|done|].
    destruct (head_ok_elem _ _ _ _ Hsv Hin2) as [? _]. split; [cbn; lia|exact Hle].
Qed.
End ServiceTheorems.
