(* ===== verification/Reads.v ===== *)
(** * Handlers whose reads are interleaved (crates/settled-server/src/service.rs)

    The handlers that read more than once take no lock over their reads: [inclusion_proof],
    [consistency_proof] and [get_latest] await a blocking task between them, and appends, heads and
    rotations of other tasks come in between.  Here such a handler is a tree of the queries it makes.
    [at_once] answers them all from one state and gives back the definitions of
    [Service]; [answers] lets the server of [Concurrent] run before every query. *)

From Stdlib Require String.
From stdpp Require Import relations pretty.
From S2P Require Import SdkVerifier.
From S2P Require Import Prelude Bytes Hash MerkleSpec Merkle MerkleProof ProofTheorems Sth Rocksdb.
From S2P Require Import StorageTypes Db LogStore LogTheorems Table HeadStore KeyStore ServerState.
From S2P Require Import Service ServerInv Concurrent ServiceTheorems.

Import String.StringSyntax.

Section Queries.
Context `{Sha256} `{Rocksdb} `{Prost} `{!ErrorDisplay} `{Ed25519} `{RateLimit} `{Profile}.

(** The reads of the handlers; each is one access to the database or the counter. *)
Inductive query : Type -> Type :=
| HeadLatest : query (result (option SignedTreeHead.t) StorageTypes.Error)
| HeadAtSize (size : Z) : query (result (option SignedTreeHead.t) StorageTypes.Error)
| SeqRange (start end_ : Z) : query (result (list LogEntry.t) StorageTypes.Error)
| LogLatest (n : Z) : query (result (list LogEntry.t) StorageTypes.Error)
| LogCount : query Z.

Definition ask {B} (st : AppState) (q : query B) : B :=
  match q in query B return B with
  | HeadLatest => head_latest (inner st)
  | HeadAtSize size => at_size (inner st) size
  | SeqRange start end_ => seq_range (inner st) start end_
  | LogLatest n => latest (inner st) n
  | LogCount => count (inner st)
  end.

(** A handler: an answer, or a query and what follows it. *)
Inductive handler (A : Type) : Type :=
| Answer (a : outcome A)
| Query {B : Type} (q : query B) (k : B -> handler A).
Arguments Answer {A} a.
Arguments Query {A B} q k.

Fixpoint at_once {A} (st : AppState) (t : handler A) : outcome A :=
  match t with
  | Answer a => a
  | Query q k => at_once st (k (ask st q))
  end.

(** ** The handlers *)

(** [tree_size] or [new_size] of a request; 0 is the latest head. *)
Definition resolve_reads {A} (size : Z) (k : Z -> handler (result A Status)) : handler (result A Status) :=
  if size =? 0 then
    Query HeadLatest (fun r => match r with
      | Err e => Answer (Ret (storage_status e))
      | Ok None => Answer (Ret (not_found "no STH available yet"%str))
      | Ok (Some sth) => k (SignedTreeHead.tree_size sth)
      end)
  else k size.

Definition head_reads {A} (size : Z) (what : String.string)
    (k : SignedTreeHead.t -> handler (result A Status)) : handler (result A Status) :=
  Query (HeadAtSize size) (fun r => match r with
    | Err e => Answer (Ret (storage_status e))
    | Ok None => Answer (Ret (not_found ("no STH at " ++ what ++ " " ++ pretty size)%str))
    | Ok (Some sth) => k sth
    end).

(** The leaf hashes of the first [size] entries. *)
Definition leaf_reads {A} (size : Z) (k : list hash32 -> handler (result A Status))
  : handler (result A Status) :=
  Query (SeqRange 0 size) (fun r => match r with
    | Err e => Answer (Ret (storage_status e))
    | Ok entries => k (LogEntry.leaf_hash <$> entries)
    end).

(** A proof that was computed, or the error or panic of its generation. *)
Definition with_path {A} (p : outcome (result (list hash32) ProofError))
    (k : list hash32 -> handler (result A Status)) : handler (result A Status) :=
  match p with
  | Ret (Ok path) => k path
  | Ret (Err e) => Answer (Ret (Err (to_status (EProof e))))
  | Panic => Answer Panic
  | OutOfFuel => Answer OutOfFuel
  end.

Definition inclusion_handler (seq tree_size : Z) : handler (result InclusionProofResponse.t Status) :=
  resolve_reads tree_size (fun tree_size =>
  if tree_size <=? seq then
    Answer (Ret (invalid
      ("seq " ++ pretty seq ++ " is out of range for tree_size " ++ pretty tree_size)%str))
  else
    leaf_reads tree_size (fun leaf_hashes =>
    with_path (inclusion_proof leaf_hashes seq) (fun path =>
    head_reads tree_size "tree_size"%str (fun sth =>
    Answer (Ret (Ok (InclusionProofResponse.mk seq tree_size (to_vec <$> path) (sth_to_pb sth)))))))).

Definition consistency_handler (old_size new_size : Z)
  : handler (result ConsistencyProofResponse.t Status) :=
  if old_size =? 0 then Answer (Ret (invalid "old_size must be > 0"%str))
  else
    resolve_reads new_size (fun new_size =>
    if new_size <? old_size then
      Answer (Ret (invalid ("old_size " ++ pretty old_size ++ " > new_size " ++ pretty new_size)%str))
    else
      leaf_reads new_size (fun leaf_hashes =>
      with_path (consistency_proof leaf_hashes old_size) (fun path =>
      head_reads old_size "old_size"%str (fun old_sth =>
      head_reads new_size "new_size"%str (fun new_sth =>
      Answer (Ret (Ok (ConsistencyProofResponse.mk old_size new_size (to_vec <$> path)
                         (sth_to_pb old_sth) (sth_to_pb new_sth))))))))).

(** [cap] is the configured [max_get_latest]. *)
Definition get_latest_handler (cap n : Z) : handler (result (list Entry.t * Z) Status) :=
  let n := if n =? 0 then 1 else Z.min n cap in
  Query LogCount (fun total_available =>
  Query (LogLatest n) (fun r => match r with
    | Err e => Answer (Ret (storage_status e))
    | Ok entries => Answer (Ret (Ok (entry_to_pb <$> entries, total_available)))
    end)).

(** Answered from one state these are the handlers of [Service]. *)
Lemma inclusion_at_once st seq tree_size :
  at_once st (inclusion_handler seq tree_size) = rpc_inclusion_proof st seq tree_size.
Proof.
  unfold inclusion_handler, rpc_inclusion_proof, resolve_reads, resolve_size.
  destruct (tree_size =? 0); cbn [at_once ask]; [destruct (head_latest (inner st)) as [[h|]|]; [|done..]|];
    destruct (_ <=? seq); try done; cbn [leaf_reads at_once ask];
    destruct (seq_range (inner st) 0 _); try done;
    destruct (inclusion_proof _ seq) as [[path|]| |]; try done; cbn;
    unfold head_at; by destruct (at_size (inner st) _) as [[?|]|].
Qed.

Lemma consistency_at_once st old_size new_size :
  at_once st (consistency_handler old_size new_size) = rpc_consistency_proof st old_size new_size.
Proof.
  unfold consistency_handler, rpc_consistency_proof, resolve_reads, resolve_size.
  destruct (old_size =? 0); [done|].
  destruct (new_size =? 0); cbn [at_once ask]; [destruct (head_latest (inner st)) as [[h|]|]; [|done..]|];
    destruct (_ <? old_size); try done; cbn [leaf_reads at_once ask];
    destruct (seq_range (inner st) 0 _); try done;
    destruct (consistency_proof _ old_size) as [[path|]| |]; try done; cbn;
    unfold head_at; destruct (at_size (inner st) old_size) as [[?|]|]; try done; cbn;
    by destruct (at_size (inner st) _) as [[?|]|].
Qed.

Lemma get_latest_at_once st n :
  at_once st (get_latest_handler (max_get_latest (config st)) n) = Ret (rpc_get_latest st n).
Proof. unfold rpc_get_latest. cbn. by destruct (latest (inner st) _). Qed.
End Queries.
Arguments Answer {_ _ _} a.
Arguments Query {_ _ _ _} q k.

Section Interleaved.
Context `{Sha256} {R : Rocksdb} {P : Prost} {RL : RocksdbLaws} {PL : ProstLaws}.
Context {D : ErrorDisplay} `{Ed25519} `{RateLimit} `{Profile}.
Abbreviation size := SignedTreeHead.tree_size.
Abbreviation root_hash := SignedTreeHead.root_hash.

(** The server moves by [next] before every query, ending in the state of the last one. *)
Fixpoint answers {A} (next : sys -> sys -> Prop) (s : sys) (t : handler A) (s' : sys) (a : outcome A) : Prop :=
  match t with
  | Answer b => s' = s /\ a = b
  | Query q k => exists s1, rtc next s s1 /\ answers next s1 (k (ask (app s1) q)) s' a
  end.

(** With no other task between the queries the answer is the one of [at_once]. *)
Lemma answers_at_once {A} next s (t : handler A) : answers next s t s (at_once (app s) t).
Proof. induction t as [a|B q k IH]; [done|]. exists s. split; [reflexivity|apply IH]. Qed.

(** ** The state between the queries *)

(** The invariant of the server, with every head signed by the key it names. *)
Definition serving (s : sys) (es : list LogEntry.t) (hs : list SignedTreeHead.t) : Prop :=
  sys_ok false s es hs /\ Forall (sig_ok (sig_key (signer (app s)))) (signing s) /\ Forall head_signed hs.

(** A later state: the log has grown and every size that had a head still has one. *)
Definition later (s : sys) (es : list LogEntry.t) (hs : list SignedTreeHead.t)
    (s' : sys) (es' : list LogEntry.t) (hs' : list SignedTreeHead.t) : Prop :=
  rtc (step false false) s s' /\ serving s' es' hs' /\ es `prefix_of` es' /\
  forall h, h ∈ hs -> exists h', h' ∈ hs' /\ size h' = size h.

Lemma later_refl s es hs : serving s es hs -> later s es hs s es hs.
Proof. intros Hs. split; [reflexivity|]. split; [done|]. split; [done|eauto]. Qed.

Lemma later_trans s es hs s1 es1 hs1 s2 es2 hs2 :
  later s es hs s1 es1 hs1 -> later s1 es1 hs1 s2 es2 hs2 -> later s es hs s2 es2 hs2.
Proof.
  intros (Hr1 & _ & Hp1 & Hh1) (Hr2 & Hs2 & Hp2 & Hh2). split; [by transitivity s1|]. split; [done|].
  split; [by transitivity es1|]. intros h Hh. destruct (Hh1 h Hh) as (h1 & Hin1 & E1).
  destruct (Hh2 h1 Hin1) as (h2 & Hin2 & E2). exists h2. split; [done|congruence].
Qed.

Lemma later_step s es hs s' :
  serving s es hs -> step false false s s' -> exists es' hs', later s es hs s' es' hs'.
Proof.
  intros (Hok & Hsig & Hh) Hstep.
  destruct (sys_ok_step _ _ _ _ _ _ Hok Hstep) as (es1 & hs1 & Hok1 & Hg).
  exists (es ++ es1), hs1. split; [by apply rtc_once|]. split; [|split; [by exists es1|]].
  - split; [done|]. split; [by eapply sig_step|]. destruct Hg as [->|(sth & Hin & ->)]; [done|].
    rewrite Forall_forall in Hsig. rewrite Forall_forall in Hh. apply Forall_forall.
    intros h [->|Hin']%upsert_elem; [exact (Hsig _ Hin)|by apply Hh].
  - intros h Hin. destruct Hg as [->|(sth & _ & ->)]; [eauto|]. by apply upsert_keeps.
Qed.

Lemma later_reach s es hs s' :
  serving s es hs -> rtc (step false false) s s' -> exists es' hs', later s es hs s' es' hs'.
Proof.
  intros Hs Hr. revert es hs Hs. induction Hr as [s|s s1 s2 Hstep Hr IH]; intros es hs Hs.
  { exists es, hs. by apply later_refl. }
  destruct (later_step _ _ _ _ Hs Hstep) as (es1 & hs1 & Hl1).
  destruct (IH es1 hs1) as (es2 & hs2 & Hl2); [apply Hl1|]. exists es2, hs2. by eapply later_trans.
Qed.

Lemma later_len s es hs s' es' hs' : later s es hs s' es' hs' -> len es <= len es'.
Proof. intros (_ & _ & [l ->] & _). rewrite len_app. pose proof (len_nonneg l). lia. Qed.

(** RocksDB failed in a read of the handler. *)
Definition read_fault (s : sys) : Prop := exists s1, rtc (step false false) s s1 /\ read_error (app s1).

Lemma read_fault_later s es hs s' es' hs' : later s es hs s' es' hs' -> read_fault s' -> read_fault s.
Proof. intros (Hr & _) (s1 & Hr1 & He). exists s1. split; [by transitivity s'|done]. Qed.

Definition failed {A} (a : outcome (result A Status)) : Prop := exists e, a = Ret (Err e).

(** The answer is an error for which [why] gives the reason. *)
Abbreviation failed_by a why := (failed a /\ why).

Section Handlers.
Context {A : Type} (s : sys) (es : list LogEntry.t) (hs : list SignedTreeHead.t) (Hs : serving s es hs).
Implicit Types (a : outcome (result A Status)).
Abbreviation answers' := (answers (step false false)).

(** One query, asked in a later state. *)
Lemma query_serving {B} (q : query B) (k : B -> handler (result A Status)) s' a :
  answers' s (Query q k) s' a ->
  exists s1 es1 hs1, later s es hs s1 es1 hs1 /\ answers' s1 (k (ask (app s1) q)) s' a.
Proof. intros (s1 & Hr & Ha). destruct (later_reach _ _ _ _ Hs Hr) as (es1 & hs1 & Hl). eauto. Qed.

Lemma later_fault s1 es1 hs1 : later s es hs s1 es1 hs1 -> read_error (app s1) -> read_fault s.
Proof. intros (Hr & _) He. by exists s1. Qed.

(** The size of a proof request: what was asked for, or that of the latest head by then. *)
Lemma resolve_serving n (k : Z -> handler (result A Status)) s' a :
  in_u64 n -> answers' s (resolve_reads n k) s' a ->
  failed_by a (read_fault s \/ n = 0 /\ hs = []) \/
  exists s1 es1 hs1 m, later s es hs s1 es1 hs1 /\ in_u64 m /\ answers' s1 (k m) s' a /\
    (n <> 0 /\ m = n \/ n = 0 /\ m <= len es1 /\ exists h, last hs1 = Some h /\ m = size h).
Proof.
  intros Hn. unfold resolve_reads. destruct (Z.eqb_spec n 0) as [->|Hne].
  2:{ intros Ha. right. exists s, es, hs, n. split; [by apply later_refl|]. do 2 (split; [done|]). by left. }
  intros (s1 & es1 & hs1 & Hl & Ha)%query_serving. cbn [ask] in Ha.
  pose proof (sys_server _ _ _ _ (proj1 (proj1 (proj2 Hl)))) as Hsv.
  destruct (head_latest_ok _ _ (ok_heads _ _ _ Hsv)) as [E|(e & He & E)]; rewrite E in Ha.
  2:{ left. destruct Ha as [_ ->]. split; [by eexists|]. left. eapply later_fault; [done|]. exists e. auto. }
  destruct (last hs1) as [h|] eqn:El.
  - right. pose proof El as Hin. apply last_Some_elem_of, (head_ok_elem _ _ _ _ Hsv) in Hin as [Hsz _].
    pose proof (len_es_bound _ _ _ Hsv). exists s1, es1, hs1, (size h). split; [done|].
    split; [unfold in_u64; lia|]. split; [done|]. right. split; [done|]. split; [lia|eauto].
  - left. destruct Ha as [_ ->]. split; [by eexists|]. right. split; [done|].
    apply last_None in El as ->. destruct hs as [|h hs']; [done|].
    destruct Hl as (_ & _ & _ & Hh). destruct (Hh h ltac:(left)) as (h' & Hin & _).
    by apply elem_of_nil in Hin.
Qed.

Lemma leaf_serving m (k : list hash32 -> handler (result A Status)) s' a :
  0 <= m -> answers' s (leaf_reads m k) s' a ->
  failed_by a (read_fault s) \/
  exists s1 es1 hs1, later s es hs s1 es1 hs1 /\
    answers' s1 (k (take (Z.to_nat m) (log_leaves es1))) s' a.
Proof.
  intros Hm (s1 & es1 & hs1 & Hl & Ha)%query_serving. cbn [ask] in Ha.
  pose proof (proj1 (proj1 (proj2 Hl))) as Hok1.
  pose proof (leaves_read _ _ _ m (sys_server _ _ _ _ Hok1) (sys_gaps _ _ _ _ Hok1 eq_refl) Hm) as Hr.
  destruct (seq_range _ 0 m) as [entries|e].
  - right. exists s1, es1, hs1. by rewrite <- Hr.
  - left. destruct Ha as [_ ->]. split; [by eexists|]. by eapply later_fault.
Qed.

Lemma head_serving n what (k : SignedTreeHead.t -> handler (result A Status)) s' a :
  in_u64 n -> answers' s (head_reads n what k) s' a ->
  failed_by a (read_fault s \/ forall h, h ∈ hs -> size h <> n) \/
  exists s1 es1 hs1 h, later s es hs s1 es1 hs1 /\ h ∈ hs1 /\ size h = n /\ answers' s1 (k h) s' a.
Proof.
  intros Hn (s1 & es1 & hs1 & Hl & Ha)%query_serving. cbn [ask] in Ha.
  pose proof (sys_server _ _ _ _ (proj1 (proj1 (proj2 Hl)))) as Hsv.
  destruct (at_size_ok _ _ n (ok_heads _ _ _ Hsv) Hn) as [E|(e & He & E)]; rewrite E in Ha.
  2:{ left. destruct Ha as [_ ->]. split; [by eexists|]. left. eapply later_fault; [done|]. exists e. eauto. }
  destruct (find_id size n hs1) as [h|] eqn:Ef.
  - apply find_id_elem in Ef as [Hin Eh]. right. by exists s1, es1, hs1, h.
  - left. destruct Ha as [_ ->]. split; [by eexists|]. right. intros h Hin Eh.
    destruct Hl as (_ & _ & _ & Hh). destruct (Hh h Hin) as (h' & Hin' & Eh').
    pose proof (find_id_sorted size hs1 h' (heads_sorted _ _ (ok_heads _ _ _ Hsv)) Hin'). congruence.
Qed.
End Handlers.

Lemma take_leaves_app es es' m : 0 <= m <= len es ->
  take (Z.to_nat m) (log_leaves (es ++ es')) = take (Z.to_nat m) (log_leaves es).
Proof.
  intros Hm. pose proof (len_leaves es) as E. unfold len in *. unfold log_leaves in *.
  rewrite fmap_app, take_app_le by lia. done.
Qed.

(** A head found again: the size a request resolved to, at a later state. *)
Lemma resolved_covers s es hs s1 es1 hs1 n m h :
  later s es hs s1 es1 hs1 -> requested_head hs n = Some h ->
  (n <> 0 /\ m = n \/ n = 0 /\ m <= len es1 /\ exists h, last hs1 = Some h /\ m = size h) ->
  size h <= m /\ exists h1, h1 ∈ hs1 /\ size h1 = m.
Proof.
  intros (_ & (Hok & _) & _ & Hh) Hq Hm. apply requested_elem in Hq as [Hin Hsz].
  destruct (Hh h Hin) as (h1 & Hin1 & E1). destruct Hm as [[Hn ->]|(_ & _ & h2 & El & ->)].
  - rewrite (Hsz Hn) in E1. specialize (Hsz Hn). split; [lia|eauto].
  - split; [|exists h2; split; [by apply last_Some_elem_of|done]]. rewrite <- E1.
    pose proof (sorted_last_max size hs1 h2 (heads_sorted _ _ (ok_heads _ _ _ (sys_server _ _ _ _ Hok))) El) as Hmax.
    rewrite Forall_forall in Hmax. by apply Hmax.
Qed.

(** A head stored later still commits to the entries that were there. *)
Lemma later_root s es hs s' es' hs' h :
  later s es hs s' es' hs' -> h ∈ hs' -> size h <= len es ->
  0 < size h /\ mth (take (Z.to_nat (size h)) (log_leaves es)) = Ret (Some (root_hash h)).
Proof.
  intros (_ & (Hok & _) & [l ->] & _) Hin Hle.
  destruct (head_ok_elem _ _ _ _ (sys_server _ _ _ _ Hok) Hin) as [Hsz Hm].
  split; [lia|]. by rewrite take_leaves_app in Hm by lia.
Qed.

Lemma serving_leaf s es hs i e :
  serving s es hs -> es !! i = Some e -> LogEntry.leaf_hash e = leaf_hash (LogEntry.data e).
Proof. intros (Hok & _). apply (rep_leaf _ _ _ _ (ok_db _ _ _ (sys_server _ _ _ _ Hok))). Qed.

Lemma serving_len s es hs : serving s es hs -> len es < two64.
Proof. intros (Hok & _). by eapply len_es_bound, sys_server. Qed.

(** The common beginning of the proof handlers: the size [m] of the request is settled, found to make sense,
    and the leaves of the log up to it read. *)
Lemma sized_serving {A} s es hs n (bad : Z -> bool) msg (k : Z -> list hash32 -> handler (result A Status)) s' a :
  serving s es hs -> in_u64 n -> n <= len es ->
  answers (step false false) s
    (resolve_reads n (fun m => if bad m then Answer (Ret (invalid (msg m))) else leaf_reads m (k m))) s' a ->
  failed_by a (read_fault s \/
    forall h, requested_head hs n = Some h -> exists m, size h <= m /\ bad m = true) \/
  exists s2 es2 hs2 m, later s es hs s2 es2 hs2 /\ in_u64 m /\ bad m = false /\ m <= len es2 /\
    (n <> 0 -> m = n) /\ (forall h, requested_head hs n = Some h -> exists h', h' ∈ hs2 /\ size h' = m) /\
    answers (step false false) s2 (k m (take (Z.to_nat m) (log_leaves es2))) s' a.
Proof.
  intros Hs Hn Hcov Ha.
  destruct (resolve_serving s es hs Hs _ _ _ _ Hn Ha) as [[Hf [Hr|[-> ->]]]|(s1 & es1 & hs1 & m & Hl1 & Hm & Ha1 & Hres)];
    [left; auto|left; split; [done|right; by intros h]|]. clear Ha.
  assert (Hm1 : m <= len es1) by (pose proof (later_len _ _ _ _ _ _ Hl1); destruct Hres as [[_ ->]|(_ & ? & _)]; lia).
  destruct (bad m) eqn:Eb.
  { left. destruct Ha1 as [_ ->]. split; [by eexists|]. right. intros h Hq. exists m.
    by destruct (resolved_covers _ _ _ _ _ _ _ _ _ Hl1 Hq Hres). }
  destruct (leaf_serving s1 es1 hs1 (proj1 (proj2 Hl1)) m _ _ _ (proj1 Hm) Ha1) as [[Hf Hr]|(s2 & es2 & hs2 & Hl2 & Ha2)].
  { left. split; [done|]. left. by eapply read_fault_later. }
  right. exists s2, es2, hs2, m. pose proof (later_len _ _ _ _ _ _ Hl2). split; [by eapply later_trans|].
  do 2 (split; [done|]). split; [lia|]. split; [destruct Hres as [[_ ->]|[? _]]; done|]. split; [|done].
  intros h Hq. destruct (resolved_covers _ _ _ _ _ _ _ _ _ Hl1 Hq Hres) as (_ & h1 & Hin1 & <-).
  destruct Hl2 as (_ & _ & _ & Hh). by apply Hh.
Qed.

(** Fetching a head of size [m] when the leaves up to [m] have been read. *)
Lemma final_head {A} s es hs m what (k : SignedTreeHead.t -> handler (result A Status)) s' a :
  serving s es hs -> in_u64 m -> m <= len es -> answers (step false false) s (head_reads m what k) s' a ->
  failed_by a (read_fault s \/ forall h, h ∈ hs -> size h <> m) \/
  exists s1 es1 hs1 h, later s es hs s1 es1 hs1 /\ h ∈ hs1 /\ size h = m /\
    mth (take (Z.to_nat m) (log_leaves es)) = Ret (Some (root_hash h)) /\
    answers (step false false) s1 (k h) s' a.
Proof.
  intros Hs Hm Hle Ha. destruct (head_serving s es hs Hs m _ _ _ _ Hm Ha) as [?|(s1 & es1 & hs1 & h & Hl & Hin & Eh & Ha1)];
    [by left|right]. exists s1, es1, hs1, h. do 3 (split; [done|]). split; [|done].
  rewrite <- Eh. apply (later_root _ _ _ _ _ _ _ Hl Hin). lia.
Qed.

Lemma inclusion_interleaved s es hs n ts s' a :
  serving s es hs -> in_u64 n -> in_u64 ts -> ts <= len es ->
  answers (step false false) s (inclusion_handler n ts) s' a ->
  failed_by a (read_fault s \/ forall h, requested_head hs ts = Some h -> size h <= n) \/
  exists es' hs' h e path, later s es hs s' es' hs' /\ h ∈ hs' /\ (ts <> 0 -> size h = ts) /\
    es' !! Z.to_nat n = Some e /\
    a = Ret (Ok (InclusionProofResponse.mk n (size h) (to_vec <$> path) (sth_to_pb h))) /\
    verify_inclusion (leaf_hash (LogEntry.data e)) n (size h) path (root_hash h) = Ret true.
Proof.
  intros Hs Hn Hts Hcov Ha.
  destruct (sized_serving _ _ _ _ _ _ (fun m L => with_path (inclusion_proof L n) (fun path => head_reads m _ (fun sth => Answer (Ret (Ok
    (InclusionProofResponse.mk n m (to_vec <$> path) (sth_to_pb sth))))))) _ _ Hs Hts Hcov Ha)
    as [[Hf [Hr|Hno]]|(s2 & es2 & hs2 & m & Hl2 & Hm & Hb & Hle & Ets & Hq & Ha2)]; [left; auto| |]; clear Ha.
  { left. split; [done|]. right. intros h Hq. destruct (Hno h Hq) as (m & ? & ?). breflect. lia. }
  breflect. pose proof (proj1 (proj2 Hl2)) as Hs2. pose proof (serving_len _ _ _ Hs2) as Hb2.
  pose proof (len_take_leaves es2 m ltac:(unfold in_u64 in Hm; lia)) as HL.
  destruct (lookup_lt_is_Some_2 es2 (Z.to_nat n)) as [e He]; [unfold in_u64, len in *; lia|].
  destruct (inclusion_complete_tree (take (Z.to_nat m) (log_leaves es2)) n (LogEntry.leaf_hash e))
    as (path & root & Ep & Er & Ev); [lia|apply Hn| |].
  { unfold log_leaves. rewrite lookup_take_lt by (unfold in_u64 in *; lia). by rewrite list_lookup_fmap, He. }
  rewrite Ep in Ha2. cbn [with_path] in Ha2.
  destruct (final_head _ _ _ _ _ _ _ _ Hs2 Hm Hle Ha2) as [[Hf Hr]|(s3 & es3 & hs3 & h & Hl3 & Hin & Eh & Er' & -> & ->)].
  - left. split; [done|]. destruct Hr as [Hr|Hno]; [left; by eapply read_fault_later|right].
    intros h (h2 & Hin2 & E2)%Hq. by destruct (Hno h2 Hin2).
  - right. exists es3, hs3, h, e, path. rewrite Eh. rewrite Er in Er'. injection Er' as ->.
    rewrite HL, (serving_leaf _ _ _ _ _ Hs2 He) in Ev. split; [by eapply later_trans|]. do 2 (split; [done|]).
    split; [|done]. destruct Hl3 as (_ & _ & [l ->] & _). by apply lookup_app_l_Some.
Qed.

Lemma consistency_interleaved s es hs old new s' a :
  serving s es hs -> in_u64 old -> in_u64 new -> new <= len es ->
  answers (step false false) s (consistency_handler old new) s' a ->
  failed_by a (read_fault s \/ forall h1 h2, find_id size old hs = Some h1 ->
    requested_head hs new = Some h2 -> size h2 < old) \/
  exists es' hs' h1 h2 path, later s es hs s' es' hs' /\ h2 ∈ hs' /\ (new <> 0 -> size h2 = new) /\
    size h1 = old /\ head_signed h1 /\
    a = Ret (Ok (ConsistencyProofResponse.mk old (size h2) (to_vec <$> path) (sth_to_pb h1) (sth_to_pb h2))) /\
    verify_consistency old (size h2) path (root_hash h1) (root_hash h2) = Ret true.
Proof.
  intros Hs Ho Hn Hcov Ha. unfold consistency_handler in Ha. destruct (Z.eqb_spec old 0) as [->|Hz].
  { left. destruct Ha as [_ ->]. split; [by eexists|]. right. intros h1 h2 [Hin E]%find_id_elem.
    apply (head_ok_elem _ _ _ _ (sys_server _ _ _ _ (proj1 Hs))) in Hin as [? _]. lia. }
  destruct (sized_serving _ _ _ _ _ _ (fun m L => with_path (consistency_proof L old) (fun path => head_reads old _ (fun old_sth =>
    head_reads m _ (fun new_sth => Answer (Ret (Ok (ConsistencyProofResponse.mk old m (to_vec <$> path)
      (sth_to_pb old_sth) (sth_to_pb new_sth)))))))) _ _ Hs Hn Hcov Ha)
    as [[Hf [Hr|Hno]]|(s2 & es2 & hs2 & m & Hl2 & Hm & Hb & Hle & Ets & Hq & Ha2)]; [left; auto| |]; clear Ha.
  { left. split; [done|]. right. intros h1 h _ Hq. destruct (Hno h Hq) as (m & ? & ?). breflect. lia. }
  breflect. pose proof (proj1 (proj2 Hl2)) as Hs2. pose proof (serving_len _ _ _ Hs2) as Hb2.
  pose proof (len_take_leaves es2 m ltac:(unfold in_u64 in Hm; lia)) as HL.
  destruct (consistency_complete_tree (take (Z.to_nat m) (log_leaves es2)) old)
    as (path & r1 & r2 & Ep & E1 & E2 & Ev); [lia|unfold in_u64 in *; lia|].
  rewrite take_take, Nat.min_l in E1 by (unfold in_u64 in *; lia).
  rewrite Ep in Ha2. cbn [with_path] in Ha2.
  destruct (final_head _ _ _ old _ _ _ _ Hs2 Ho ltac:(lia) Ha2) as [[Hf Hr]|(s3 & es3 & hs3 & h1 & Hl3 & Hin1 & Eh1 & Er1 & Ha3)].
  { left. split; [done|]. destruct Hr as [Hr|Hno]; [left; by eapply read_fault_later|right].
    intros h1 h2 [Hin <-]%find_id_elem _. destruct Hl2 as (_ & _ & _ & Hh).
    destruct (Hh h1 Hin) as (h3 & Hin3 & E3). by destruct (Hno h3 Hin3). }
  pose proof (later_trans _ _ _ _ _ _ _ _ _ Hl2 Hl3) as Hl23.
  destruct (final_head _ _ _ m _ _ _ _ (proj1 (proj2 Hl3)) Hm ltac:(pose proof (later_len _ _ _ _ _ _ Hl3); lia) Ha3)
    as [[Hf Hr]|(s4 & es4 & hs4 & h2 & Hl4 & Hin2 & Eh2 & Er2 & -> & ->)].
  - left. split; [done|]. destruct Hr as [Hr|Hno]; [left; by eapply read_fault_later|right].
    intros h0 h _ (h3 & Hin3 & <-)%Hq. destruct Hl3 as (_ & _ & _ & Hh).
    destruct (Hh h3 Hin3) as (h4 & Hin4 & E4). by destruct (Hno h4 Hin4).
  - right. exists es4, hs4, h1, h2, path. rewrite Eh2.
    assert (root_hash h1 = r1) as -> by congruence.
    assert (root_hash h2 = r2) as ->.
    { destruct Hl3 as (_ & _ & [l ->] & _). rewrite take_leaves_app in Er2 by (unfold in_u64 in *; lia). congruence. }
    rewrite HL in Ev. split; [by eapply later_trans|]. do 3 (split; [done|]). split; [|done].
    destruct Hl3 as (_ & (_ & _ & Hsig) & _). rewrite Forall_forall in Hsig. by apply Hsig.
Qed.

(** GetLatest returns the newest entries of the log at its second read, newest first, and a total that is at
    least the number of entries there were when the request arrived; it may be less than the number of entries returned. *)
Lemma get_latest_interleaved s es hs cap n s' a :
  serving s es hs -> 0 <= n -> 0 <= cap ->
  answers (step false false) s (get_latest_handler cap n) s' a ->
  exists s1 es1 hs1, later s es hs s1 es1 hs1 /\
    match a with
    | Ret (Ok (entries, total)) => len es <= total /\
        entries = entry_to_pb <$> take (Z.to_nat (if n =? 0 then 1 else Z.min n cap)) (reverse es1)
    | Ret (Err _) => exists e, iter_fails (db (inner (app s1))) CF_LOG IterEnd e
    | _ => False
    end.
Proof.
  intros Hs Hn Hcap (s1 & es1 & hs1 & Hl1 & Ha)%(query_serving _ _ _ Hs).
  apply (query_serving _ _ _ (proj1 (proj2 Hl1))) in Ha as (s2 & es2 & hs2 & Hl2 & Ha). cbn [ask] in Ha.
  exists s2, es2, hs2. split; [by eapply later_trans|].
  pose proof (ok_db _ _ _ (sys_server _ _ _ _ (proj1 (proj1 (proj2 Hl2))))) as Hdb.
  destruct (latest_ok _ _ (if n =? 0 then 1 else Z.min n cap) Hdb) as [E|(e & He & E)];
    [destruct (n =? 0); lia| |]; rewrite E in Ha; destruct Ha as [_ ->]; [|by exists e].
  split; [|done]. destruct (sys_gaps _ _ _ _ (proj1 (proj1 (proj2 Hl1))) eq_refl) as [_ En].
  unfold count. rewrite En. by eapply later_len.
Qed.

Context {EL : Ed25519Laws}.

Lemma serving_start s0 s es0 hs0 :
  sys_ok false s0 es0 hs0 -> signing s0 = [] -> Forall head_signed hs0 -> rtc (step false false) s0 s ->
  exists es hs, serving s es hs.
Proof.
  intros Hok Hidle Hs0 Hr. destruct (later_reach s0 es0 hs0 s) as (es & hs & _ & Hs & _);
    [split; [done|]; by rewrite Hidle|done|eauto].
Qed.

Lemma serving_signed s es hs h : serving s es hs -> h ∈ hs -> head_signed h.
Proof. intros (_ & _ & Hh) Hin. rewrite Forall_forall in Hh. by apply Hh. Qed.

(** C2: what the server proves, the client verifies, if no append fails, no key rotation falls inside a signing run, a size
    asked for explicitly is reached by the log when the request arrives, and the sizes of a consistency proof are at
    most [2^63].  From a state satisfying the invariant with signed
    heads, along any interleaving in which no append fails and no rotation hits a head being
    signed: a request arrives in some reachable state, and appends, heads and rotations of other
    tasks go on between the reads of its handler.  Every successful InclusionProof and
    ConsistencyProof response carries heads whose signatures the SDK accepts and a path that the SDK's verifier accepts
    against their roots, for the data of the entry with the requested number, and for the two requested sizes (up to [2^63]),
    provided that a size asked for explicitly was reached by the log when the request arrived.  Without these conditions it is
    not so: [RaceDemo.late_size_race] is a successful answer for a size reached only between the reads whose path the SDK
    rejects, [ServerDemo.gap_proof_rejected] one after a failed append, and [ServerDemo.rotation_race] a head whose signature
    is not by the key it names. *)
Theorem interleaved_proofs_verify (s0 s : sys) (es0 : list LogEntry.t) (hs0 : list SignedTreeHead.t)
    (Hok : sys_ok false s0 es0 hs0) (Hidle : signing s0 = []) (Hs0 : Forall head_signed hs0)
    (Hr : rtc (step false false) s0 s) :
  exists es, db_rep (inner (app s)) es /\
  (forall n ts s' resp, in_u64 n -> in_u64 ts -> ts <= len es ->
     answers (step false false) s (inclusion_handler n ts) s' (Ret (Ok resp)) ->
     exists es' e path root, db_rep (inner (app s')) es' /\ es `prefix_of` es' /\
       es' !! Z.to_nat n = Some e /\ LogEntry.seq e = n /\
       InclusionProofResponse.proof resp = to_vec <$> path /\
       sdk_accepts_head (InclusionProofResponse.sth resp) root /\
       SdkVerifier.verify_inclusion (SdkVerifier.leaf_hash (LogEntry.data e)) n
         (ProtoSth.tree_size (InclusionProofResponse.sth resp)) path root = Ret true) /\
  (forall o n s' resp, in_u64 o -> in_u64 n -> n <= len es ->
     answers (step false false) s (consistency_handler o n) s' (Ret (Ok resp)) ->
     exists path r1 r2, ConsistencyProofResponse.proof resp = to_vec <$> path /\
       sdk_accepts_head (ConsistencyProofResponse.old_sth resp) r1 /\
       sdk_accepts_head (ConsistencyProofResponse.new_sth resp) r2 /\
       ProtoSth.tree_size (ConsistencyProofResponse.old_sth resp) = o /\
       (ProtoSth.tree_size (ConsistencyProofResponse.new_sth resp) <= two63 ->
        SdkVerifier.verify_consistency o (ProtoSth.tree_size (ConsistencyProofResponse.new_sth resp))
          path r1 r2 = Ret true)).
Proof.
  destruct (serving_start _ _ _ _ Hok Hidle Hs0 Hr) as (es & hs & Hs). exists es.
  split; [exact (ok_db _ _ _ (sys_server _ _ _ _ (proj1 Hs)))|]. split.
  - intros n ts s' resp Hn Hts Hle Ha.
    destruct (inclusion_interleaved _ _ _ _ _ _ _ Hs Hn Hts Hle Ha)
      as [[[? ?] _]|(es' & hs' & h & e & path & Hl & Hin & _ & He & [= ->] & Hv)]; [done|].
    destruct Hl as (_ & Hs' & Hp & _). exists es', e, path, (root_hash h).
    pose proof (sys_gaps _ _ _ _ (proj1 Hs') eq_refl) as Hg.
    split; [exact (ok_db _ _ _ (sys_server _ _ _ _ (proj1 Hs')))|]. do 2 (split; [done|]).
    split; [rewrite (gap_free_lookup _ _ _ _ Hg He); unfold in_u64 in Hn; lia|]. split; [done|].
    split; [by eapply signed_accepts, serving_signed|]. by rewrite sdk_inclusion_core.
  - intros o n s' resp Ho Hn Hle Ha.
    destruct (consistency_interleaved _ _ _ _ _ _ _ Hs Ho Hn Hle Ha)
      as [[[? ?] _]|(es' & hs' & h1 & h2 & path & Hl & Hin & _ & E1 & Hh1 & [= ->] & Hv)]; [done|].
    destruct Hl as (_ & Hs' & _). exists path, (root_hash h1), (root_hash h2).
    split; [done|]. split; [by apply signed_accepts|]. split; [by eapply signed_accepts, serving_signed|].
    split; [done|]. intros Hsz. rewrite sdk_consistency_core; [done|done|].
    destruct (head_ok_elem _ _ _ _ (sys_server _ _ _ _ (proj1 Hs')) Hin) as [? _]. split; [cbn; lia|exact Hsz].
Qed.
End Interleaved.
