(* ===== verification/Watch.v ===== *)
(** * The Watch RPC (crates/settled-server/src/service.rs, [watch])

    The task behind a watch stream: replay of the history in pages of 200, then the
    live entries of the broadcast channel, without those already sent.  The log
    may grow between pages, so page [i] reads the database [dbs i]; the live phase is
    given by what [recv] returns, in order. *)

From Stdlib Require String.
From stdpp Require Import pretty.
From S2P Require Import Prelude Bytes Hash Sth Rocksdb StorageTypes Db LogStore LogTheorems Table ServerState Service.
Import String.StringSyntax.

(** Results of [watch_rx.recv()]. *)
Inductive recv_result :=
| Received (e : Entry.t)
| Lagged (n : Z)
| ChannelClosed.

Section Watch.
Context `{Sha256} `{Rocksdb} `{Prost} `{!ErrorDisplay} `{Profile}.

(** [last_sent] after sending [entries]. *)
Definition last_seq (entries : list LogEntry.t) (last_sent : option Z) : option Z :=
  match last entries with Some e => Some (LogEntry.seq e) | None => last_sent end.

(** Phase 1.  Returns the entries sent and [last_sent], or the status that ended
    the stream. *)
Fixpoint replay (fuel : nat) (dbs : nat -> DbInner) (i : nat) (cursor : Z)
    (last_sent : option Z) (sent : list Entry.t)
  : outcome (list Entry.t * result (option Z) Status) :=
  match fuel with
  | O => OutOfFuel
  | S fuel =>
      let! r := seq_range_paged (dbs i) cursor 0 200 in
      match r with
      | Err e => Ret (sent, Err (mkStatus Internal (storage_error_display e)))
      | Ok (entries, next) =>
          let sent := sent ++ (entry_to_pb <$> entries) in
          let last_sent := last_seq entries last_sent in
          if next =? 0 then Ret (sent, Ok last_sent)
          else replay fuel dbs (S i) next last_sent sent
      end
  end.

(** Phase 2.  Returns the entries sent and the status that ended the stream, if
    it has ended with one. *)
Fixpoint live (events : list recv_result) (last_sent : option Z) (sent : list Entry.t)
  : list Entry.t * option Status :=
  match events with
  | [] => (sent, None)
  | Received e :: events =>
      if match last_sent with Some last => Entry.seq e <=? last | None => false end
      then live events last_sent sent
      else live events (Some (Entry.seq e)) (sent ++ [e])
  | Lagged n :: _ =>
      (sent, Some (mkStatus ResourceExhausted
        ("stream lagged by " ++ pretty n ++ " entries; reconnect with last seen seq")%str))
  | ChannelClosed :: _ => (sent, None)
  end.

Definition watch (fuel : nat) (dbs : nat -> DbInner) (from_seq : Z) (events : list recv_result)
  : outcome (list Entry.t * option Status) :=
  if 0 <? from_seq then
    let! r := replay fuel dbs 0 from_seq None [] in
    match r with
    | (sent, Err e) => Ret (sent, Some e)
    | (sent, Ok last_sent) => Ret (live events last_sent sent)
    end
  else Ret (live events None []).
End Watch.

Section WatchTheorems.
Context `{Sha256} {R : Rocksdb} {P : Prost} {RL : RocksdbLaws} {PL : ProstLaws}.
Context {D : ErrorDisplay} `{Profile}.
Abbreviation seq := LogEntry.seq.

(** The entries from number [n] on. *)
Definition from (n : Z) (es : list LogEntry.t) : list LogEntry.t := filter (in_page n 0) es.

(** A database that only grows towards the log [E]: page [i] sees [es i]. *)
Definition grows (dbs : nat -> DbInner) (es : nat -> list LogEntry.t) (E : list LogEntry.t) : Prop :=
  (forall i, db_rep (dbs i) (es i)) /\ (forall i, es i `prefix_of` es (S i)) /\
  (forall i, es i `prefix_of` E).

(** The entries numbered in [\[a, b)]. *)
Abbreviation between a b es := (filter (fun e => a <= seq e < b) es).

Lemma between_from a c es : seq_sorted es -> a <= c -> between a c es ++ from c es = from a es.
Proof.
  intros Hs Hac. induction es as [|e es IH]; [done|]. apply seq_sorted_cons in Hs as [Hlt Hs].
  unfold from in *. rewrite !filter_cons. destruct (decide (a <= seq e < c)) as [Hb|Hb].
  - rewrite decide_False, decide_True by (unfold in_page; lia). cbn. by rewrite IH.
  - destruct (decide (in_page c 0 e)) as [Hc|Hc].
    + rewrite decide_True by (unfold in_page in *; lia). rewrite <- IH by done.
      rewrite (filter_none (fun e => a <= seq e < c) es); [done|].
      eapply Forall_impl; [exact Hlt|]. cbn. unfold in_page in Hc. lia.
    + rewrite decide_False by (unfold in_page in *; lia). by apply IH.
Qed.

Lemma between_split a b c es :
  seq_sorted es -> a <= b <= c -> between a b es ++ between b c es = between a c es.
Proof.
  intros Hs Hab. induction es as [|e es IH]; [done|]. apply seq_sorted_cons in Hs as [Hlt Hs].
  rewrite !filter_cons. destruct (decide (a <= seq e < b)) as [Ha|Ha].
  - rewrite decide_False, decide_True by lia. cbn. by rewrite IH.
  - destruct (decide (b <= seq e < c)) as [Hc|Hc].
    + rewrite decide_True by lia. rewrite <- IH by done.
      rewrite (filter_none (fun e => a <= seq e < b) es); [done|].
      eapply Forall_impl; [exact Hlt|]. cbn. lia.
    + rewrite decide_False by lia. by apply IH.
Qed.

(** The entries up to a listed one are already there when the log grows. *)
Lemma between_grow a e es es' :
  seq_sorted (es ++ es') -> e ∈ es -> between a (seq e + 1) (es ++ es') = between a (seq e + 1) es.
Proof.
  intros Hs He. rewrite filter_app, (filter_none _ es'); [by rewrite app_nil_r|].
  apply StronglySorted_app in Hs as (Hlt & _). apply Forall_forall. intros x Hx.
  specialize (Hlt e x He Hx). cbn in Hlt. lia.
Qed.

(** A full page is the entries up to its last one. *)
Lemma full_page c es m e :
  seq_sorted es -> from c es !! m = Some e ->
  take (S m) (from c es) = between c (seq e + 1) es /\ e ∈ es /\ c <= seq e.
Proof.
  intros Hs He. pose proof (take_drop_middle _ _ _ He) as EF.
  assert (Hs' : seq_sorted (from c es)) by by apply StronglySorted_filter.
  assert (Hin : e ∈ es /\ in_page c 0 e).
  { apply list_elem_of_lookup_2, list_elem_of_filter in He. naive_solver. }
  destruct Hin as [Hin [Hle _]]. split; [|done].
  assert (Hb : between c (seq e + 1) es = filter (fun x => seq x < seq e + 1) (from c es)).
  { unfold from. rewrite list_filter_filter. apply list_filter_iff. intros x. unfold in_page. lia. }
  rewrite Hb, (take_S_r _ _ _ He). rewrite <- EF in Hs'.
  apply StronglySorted_app in Hs' as (H1 & _ & H2). apply seq_sorted_cons in H2 as [H2 _].
  transitivity (filter (fun x => seq x < seq e + 1) (take m (from c es) ++ e :: drop (S m) (from c es)));
    [|by rewrite EF].
  assert (E1 : filter (fun x => seq x < seq e + 1) (take m (from c es)) = take m (from c es)).
  { apply filter_all, Forall_forall. intros x Hx. specialize (H1 x e Hx ltac:(left)). cbn in H1. lia. }
  assert (E2 : filter (fun x => seq x < seq e + 1) (drop (S m) (from c es)) = []).
  { apply filter_none. eapply Forall_impl; [exact H2|]. cbn. lia. }
  by rewrite filter_app, filter_cons_True, E1, E2 by lia.
Qed.

Lemma from_shrinks c e E : e ∈ E -> c <= seq e -> (length (from (seq e + 1) E) < length (from c E))%nat.
Proof.
  intros He Hc. induction E as [|x E IH]; [by apply elem_of_nil in He|].
  assert (Hle : (length (from (seq e + 1) E) <= length (from c E))%nat).
  { clear -Hc. unfold from. induction E as [|x E IH]; [done|]. rewrite !filter_cons.
    repeat case_decide; cbn [length]; try lia. unfold in_page in *. lia. }
  unfold from in *. rewrite !filter_cons. apply elem_of_cons in He as [->|He].
  - rewrite decide_False, decide_True by (unfold in_page; lia). cbn [length]. lia.
  - specialize (IH He). repeat case_decide; cbn [length]; try lia. unfold in_page in *. lia.
Qed.

Lemma last_seq_app a b : last_seq b (seq <$> last a) = seq <$> last (a ++ b).
Proof. unfold last_seq. rewrite last_app. by destruct (last b). Qed.

Lemma replay_spec dbs es E f fuel : grows dbs es E -> forall i c sent lst,
  in_u64 c -> f <= c -> (c = f \/ exists e, e ∈ es i /\ seq e + 1 = c) ->
  sent = entry_to_pb <$> between f c (es i) -> lst = seq <$> last (between f c (es i)) ->
  (length (from c E) < fuel)%nat ->
  exists sent' r, replay fuel dbs i c lst sent = Ret (sent', r) /\
    match r with
    | Ok l => exists k, sent' = entry_to_pb <$> from f (es k) /\ l = seq <$> last (from f (es k))
    | Err _ => exists k n e, iter_fails (db (dbs k)) CF_LOG (IterFrom (to_vec (u64_to_be_bytes n))) e
    end.
Proof.
  intros (Hrep & Hmono & HE). induction fuel as [|fuel IH]; intros i c sent lst Hc Hfc Hce -> -> Hf; [lia|].
  cbn [replay]. pose proof (log_rep_sorted _ _ (rep_log _ _ (Hrep i))) as Hs.
  destruct (seq_range_paged_ok (dbs i) (es i) c 0 200 (Hrep i) Hc ltac:(lia)) as [Ep|(e & He & Ep)];
    rewrite Ep; cbn [obind]; [|eexists _, _; split; [done|]; by exists i, c, e].
  fold (from c (es i)). change (Z.to_nat 200) with 200%nat. change (Z.to_nat (200 - 1)) with 199%nat.
  destruct (from c (es i) !! 199%nat) as [e|] eqn:E199; cbn [from_option].
  - destruct (full_page c (es i) 199 e Hs E199) as (Etake & Hin & Hle).
    pose proof (rep_succ _ _ (Hrep i)) as Hsucc. rewrite Forall_forall in Hsucc.
    pose proof (Hsucc e Hin) as Hu. pose proof (rep_wf _ _ (Hrep i)) as Hw. rewrite Forall_forall in Hw.
    destruct (Hw e Hin) as [Hu0 _]. unfold compose, cursor_after. cbn [Z.eqb orb].
    rewrite (proj2 (Z.eqb_neq (seq e + 1) 0)) by (unfold in_u64 in *; lia).
    destruct (Hmono i) as [ext Hext].
    assert (Hs' : seq_sorted (es i ++ ext)).
    { rewrite <- Hext. exact (log_rep_sorted _ _ (rep_log _ _ (Hrep (S i)))). }
    assert (Ebt : between f c (es i) ++ take 200 (from c (es i)) = between f (seq e + 1) (es (S i))).
    { rewrite Etake, between_split by (done || lia). by rewrite Hext, between_grow. }
    apply IH; [done|lia| | | |].
    + right. exists e. split; [|done]. rewrite Hext. apply elem_of_app. by left.
    + by rewrite <- fmap_app, Ebt.
    + by rewrite last_seq_app, Ebt.
    + enough (length (from (seq e + 1) E) < length (from c E))%nat by lia. apply from_shrinks; [|lia].
      destruct (HE i) as [r ->]. apply elem_of_app. by left.
  - cbn. apply lookup_ge_None in E199. rewrite (take_ge (from c (es i))) by lia.
    eexists _, _. split; [done|]. exists i.
    rewrite <- fmap_app, last_seq_app, between_from by done. done.
Qed.

(** Numbered above the last entry sent. *)
Definition above (lst : option Z) (e : LogEntry.t) : Prop :=
  match lst with Some n => n < seq e | None => True end.
#[global] Instance above_dec lst e : Decision (above lst e).
Proof. unfold above. destruct lst; apply _. Defined.

Lemma live_sorted B : forall lst sent,
  seq_sorted B ->
  live (Received <$> (entry_to_pb <$> B)) lst sent =
  (sent ++ (entry_to_pb <$> filter (above lst) B), None).
Proof.
  induction B as [|e B IH]; intros lst sent Hs; [cbn; by rewrite app_nil_r|].
  apply seq_sorted_cons in Hs as [Hlt Hs]. rewrite !fmap_cons. cbn [live].
  change (Entry.seq (entry_to_pb e)) with (seq e). rewrite filter_cons.
  assert (Hall : filter (above (Some (seq e))) B = B) by by apply filter_all.
  destruct lst as [n|].
  - destruct (Z.leb_spec (seq e) n).
    + rewrite decide_False by (cbn; lia). by apply IH.
    + rewrite decide_True by (cbn; lia). rewrite IH, Hall by done. rewrite fmap_cons, <- app_assoc.
      rewrite filter_all; [done|]. eapply Forall_impl; [exact Hlt|]. cbn. lia.
  - rewrite decide_True by done. rewrite IH, Hall by done. rewrite fmap_cons, <- app_assoc.
    rewrite filter_all; [done|]. by apply Forall_forall.
Qed.

(** What the live phase adds to a replay of [S0 ++ B1] when [B1 ++ B2] arrives. *)
Lemma live_rest f S0 B1 B2 :
  seq_sorted (S0 ++ B1 ++ B2) -> Forall (fun e => f <= seq e) (B1 ++ B2) ->
  filter (above (seq <$> last (from f (S0 ++ B1)))) (B1 ++ B2) = B2.
Proof.
  intros Hs Hf. apply Forall_app in Hf as [Hf1 Hf2]. rewrite app_assoc in Hs.
  apply StronglySorted_app in Hs as (Hlt & Hs1 & _). rewrite filter_app.
  rewrite (filter_none _ B1), (filter_all _ B2); [done| |]; apply Forall_forall; intros e He.
  - destruct (last (from f (S0 ++ B1))) as [x|] eqn:El; cbn; [|done].
    apply last_Some_elem_of, list_elem_of_filter in El as [_ Hx]. exact (Hlt x e Hx He).
  - rewrite Forall_forall in Hf1.
    assert (Hin : e ∈ from f (S0 ++ B1)).
    { apply list_elem_of_filter. split; [split; [by apply Hf1|by left]|]. apply elem_of_app. by right. }
    destruct (last (from f (S0 ++ B1))) as [x|] eqn:El; cbn.
    + intros Hx. apply list_elem_of_lookup in Hin as [i Hi].
      assert (Hss : seq_sorted (from f (S0 ++ B1))) by by apply StronglySorted_filter.
      pose proof (sorted_last_max seq _ x Hss El) as Hmax.
      eapply Forall_lookup_1 in Hmax; [|exact Hi]. cbn in Hmax. lia.
    + apply last_None in El. rewrite El in Hin. by apply elem_of_nil in Hin.
Qed.

(** A watch misses nothing and repeats nothing.  Suppose the watcher subscribed
    when the log was [S0], the log grows to [S0 ++ B] while the replay reads it, and
    the entries [B] arrive on the channel in log order without lag.  With
    [from_seq > 0], not beyond the entries that follow, the stream is exactly the entries numbered
    [from_seq] and above, in order, each once, wherever the replay stopped;
    with [from_seq = 0] it is exactly [B].  The replay ends whatever the page
    boundaries are; the stream fails only if the iterator of a page fails. *)
Theorem watch_exact (dbs : nat -> DbInner) (es : nat -> list LogEntry.t) (S0 B : list LogEntry.t)
    (f : Z) (fuel : nat) (Hf : in_u64 f) (Hg : grows dbs es (S0 ++ B))
    (Hsub : forall i, S0 `prefix_of` es i) (Hs : seq_sorted (S0 ++ B))
    (Hfrom : Forall (fun e => f <= seq e) B) (Hfuel : (length (from f (S0 ++ B)) < fuel)%nat) :
  exists sent st, watch fuel dbs f (Received <$> (entry_to_pb <$> B)) = Ret (sent, st) /\
    match st with
    | None => sent = entry_to_pb <$> (if 0 <? f then from f (S0 ++ B) else B)
    | Some _ => exists k n e, iter_fails (db (dbs k)) CF_LOG (IterFrom (to_vec (u64_to_be_bytes n))) e
    end.
Proof.
  assert (HB : seq_sorted B) by by apply StronglySorted_app in Hs as (_ & _ & HB).
  unfold watch. destruct (Z.ltb_spec 0 f) as [Hpos|Hz].
  2:{ rewrite live_sorted by done. eexists _, _. split; [done|]. cbn.
      rewrite filter_all; [done|]. by apply Forall_forall. }
  assert (E0 : between f f (es 0%nat) = []) by (apply filter_none, Forall_forall; intros; lia).
  destruct (replay_spec dbs es (S0 ++ B) f fuel Hg 0 f [] None) as (sent & r & Er & Hr);
    [done|lia|by left|by rewrite E0|by rewrite E0|done|].
  rewrite Er. cbn [obind]. destruct r as [l|e]; [|by eexists _, _].
  destruct Hr as (k & -> & ->). rewrite live_sorted by done. eexists _, _. split; [done|]. cbn.
  destruct Hg as (_ & _ & HE). destruct (Hsub k) as [B1 E1]. destruct (HE k) as [B2 E2].
  rewrite E1, <- app_assoc in E2. apply app_inv_head in E2. subst B. rewrite E1.
  rewrite live_rest by done. rewrite <- fmap_app. f_equal. rewrite app_assoc.
  unfold from. rewrite (filter_app _ (S0 ++ B1) B2). f_equal.
  apply Forall_app in Hfrom as [_ Hf2]. rewrite filter_all; [done|].
  eapply Forall_impl; [exact Hf2|]. intros e He. split; [exact He|by left].
Qed.

(** An entry that arrives late is dropped.  The live phase skips every entry
    not above the last one sent, so when two commits are notified in the opposite
    order (the notification is sent after the append lock is released), the lower
    entry never reaches the watcher. *)
Theorem watch_drops_late (e1 e2 : Entry.t) (later : list recv_result) (lst : option Z)
    (sent : list Entry.t) (Hlt : Entry.seq e1 < Entry.seq e2)
    (Hnew : forall n, lst = Some n -> n < Entry.seq e1) :
  live (Received e2 :: Received e1 :: later) lst sent = live later (Some (Entry.seq e2)) (sent ++ [e2]) /\
  live (Received e1 :: Received e2 :: later) lst sent = live later (Some (Entry.seq e2)) (sent ++ [e1; e2]).
Proof.
  cbn [live]. split.
  - destruct lst as [n|]; [specialize (Hnew n eq_refl); rewrite (proj2 (Z.leb_gt (Entry.seq e2) n)) by lia|];
      by rewrite (proj2 (Z.leb_le (Entry.seq e1) _)) by lia.
  - assert (Hskip : match lst with Some n => Entry.seq e1 <=? n | None => false end = false).
    { destruct lst as [n|]; [|done]. specialize (Hnew n eq_refl). apply Z.leb_gt. lia. }
    rewrite Hskip, (proj2 (Z.leb_gt (Entry.seq e2) _)) by lia. by rewrite <- app_assoc.
Qed.
End WatchTheorems.
