(* ===== verification/WatchLive.v ===== *)
(** * Watch streams on a running server (crates/settled-server/src/{service,state}.rs)

    The task of a Watch stream runs beside the server: it reads a page of the log, or takes a value from
    the broadcast channel, while appends are committed and notified.  The channel is
    tokio's; what it documents about receivers is the class [BroadcastLaws].  One turn of the
    task's loops is [watch_task]; it is the [replay] or [live] of [Watch], one page or value at a time. *)

From Stdlib Require String.
From stdpp Require Import relations pretty.
From S2P Require Import Prelude Bytes Hash Merkle Sth Rocksdb StorageTypes Db LogStore LogTheorems Table.
From S2P Require Import HeadStore ServerState Service ServerInv Concurrent Watch.
Import String.StringSyntax.

Definition WATCH_CHANNEL_CAP : nat := 1024.

(** A receiver of the broadcast channel; the channel is given by all values sent on it.  [rx_recv] is [None]
    while [recv] waits; a sender exists as long as the server runs. *)
Class Broadcast := {
  receiver : Type;
  rx_subscribe : list Entry.t -> receiver;
  rx_recv : list Entry.t -> receiver -> option recv_result * receiver
}.

(** What tokio documents: a receiver gets the values sent after it subscribed, in order; it
    is told that it lags only when more values than the capacity wait for it, and goes on after those it
    missed; the channel is not closed while it has a sender. *)
Class BroadcastLaws `{Broadcast} := {
  rx_next : receiver -> nat;     (* how many of the sent values it is past *)
  subscribe_next : forall sent, rx_next (rx_subscribe sent) = length sent;
  recv_next : forall sent rx o rx', rx_recv sent rx = (o, rx') -> (rx_next rx <= length sent)%nat ->
    match o with
    | None => rx_next rx = length sent /\ rx_next rx' = rx_next rx
    | Some (Received e) => sent !! rx_next rx = Some e /\ rx_next rx' = S (rx_next rx)
    | Some (Lagged n) => (rx_next rx + WATCH_CHANNEL_CAP < length sent)%nat /\
        Z.of_nat (rx_next rx') = Z.of_nat (rx_next rx) + n /\ (rx_next rx' <= length sent)%nat
    | Some ChannelClosed => False
    end
}.

(** Where the task is: paging through the history, taking live values, or at its [return]. *)
Inductive phase :=
| Replaying (cursor : Z)
| Streaming
| Ended (status : option Status).

Record watcher `{Broadcast} := mkWatcher {
  rx : receiver;
  at_ : phase;
  last_sent : option Z;
  out : list Entry.t           (* what was put into the stream *)
}.

Section Task.
Context `{Sha256} `{Rocksdb} `{Prost} `{!ErrorDisplay} `{Ed25519} `{RateLimit} `{Profile} `{Broadcast}.

(** The receiver is made before the history is read. *)
Definition watch_start (st : AppState) (from_seq : Z) : watcher :=
  mkWatcher _ (rx_subscribe (watch_tx st)) (if 0 <? from_seq then Replaying from_seq else Streaming) None [].

Definition watch_task (st : AppState) (w : watcher) : outcome watcher :=
  match at_ w with
  | Replaying cursor =>
      let! r := seq_range_paged (inner st) cursor 0 200 in
      match r with
      | Err e => Ret (mkWatcher _ (rx w) (Ended (Some (mkStatus Internal (storage_error_display e))))
                        (last_sent w) (out w))
      | Ok (entries, next) =>
          Ret (mkWatcher _ (rx w) (if next =? 0 then Streaming else Replaying next)
                 (last_seq entries (last_sent w)) (out w ++ (entry_to_pb <$> entries)))
      end
  | Streaming =>
      match rx_recv (watch_tx st) (rx w) with
      | (None, rx) => Ret (mkWatcher _ rx Streaming (last_sent w) (out w))
      | (Some (Received e), rx) =>
          if match last_sent w with Some last => Entry.seq e <=? last | None => false end
          then Ret (mkWatcher _ rx Streaming (last_sent w) (out w))
          else Ret (mkWatcher _ rx Streaming (Some (Entry.seq e)) (out w ++ [e]))
      | (Some (Lagged n), rx) =>
          Ret (mkWatcher _ rx (Ended (Some (mkStatus ResourceExhausted
            ("stream lagged by " ++ pretty n ++ " entries; reconnect with last seen seq")%str)))
            (last_sent w) (out w))
      | (Some ChannelClosed, rx) => Ret (mkWatcher _ rx (Ended None) (last_sent w) (out w))
      end
  | Ended _ => Ret w
  end.

(** A turn of the first loop is a turn of [replay]. *)
Lemma task_replay st w cursor fuel dbs i :
  at_ w = Replaying cursor -> inner st = dbs i ->
  replay (S fuel) dbs i cursor (last_sent w) (out w) =
  obind (watch_task st w) (fun w' =>
    match at_ w' with
    | Replaying next => replay fuel dbs (S i) next (last_sent w') (out w')
    | Streaming => Ret (out w', Ok (last_sent w'))
    | Ended (Some e) => Ret (out w', Err e)
    | Ended None => OutOfFuel
    end).
Proof.
  intros Ea Ei. unfold watch_task. rewrite Ea, Ei. cbn [replay].
  destruct (seq_range_paged _ _ _ _) as [[[entries next]|e]| |]; try done. cbn. by destruct (next =? 0).
Qed.

(** A turn of the second loop is a turn of [live]. *)
Lemma task_live st w ev rx' events :
  at_ w = Streaming -> rx_recv (watch_tx st) (rx w) = (Some ev, rx') ->
  Ret (live (ev :: events) (last_sent w) (out w)) =
  obind (watch_task st w) (fun w' =>
    match at_ w' with
    | Ended status => Ret (out w', status)
    | _ => Ret (live events (last_sent w') (out w'))
    end).
Proof.
  intros Ea Er. unfold watch_task. rewrite Ea, Er. destruct ev as [e|n|]; [|done..].
  cbn [live]. by destruct (match last_sent w with Some last => _ | None => _ end).
Qed.
End Task.

(** ** The server and a stream *)

Section System.
Context `{Sha256} {R : Rocksdb} {P : Prost} {RL : RocksdbLaws} {PL : ProstLaws}.
Context {D : ErrorDisplay} `{Ed25519} `{RateLimit} `{Profile} `{B : Broadcast} {BL : BroadcastLaws}.
Abbreviation seq := LogEntry.seq.

(** A notification is sent only when all earlier commits have sent theirs. *)
Definition in_order (s s' : sys) : Prop := forall i e rest,
  outbox s !! i = Some (e :: rest) -> outbox s' = <[i := rest]> (outbox s) ->
  Forall (fun l => l = []) (take i (outbox s)).
Definition server_step (race : bool) (s s' : sys) : Prop := step race false s s' /\ in_order s s'.

Inductive wstep (race : bool) : sys * watcher -> sys * watcher -> Prop :=
| wstep_server s s' w : server_step race s s' -> wstep race (s, w) (s', w)
| wstep_task s w w' : watch_task (app s) w = Ret w' -> wstep race (s, w) (s, w').

(** What was sent and what is queued are the entries since the first [p], in order. *)
Definition notified (p : nat) (s : sys) (es : list LogEntry.t) : Prop :=
  (p <= length es)%nat /\ watch_tx (app s) ++ concat (outbox s) = entry_to_pb <$> drop p es.

Lemma concat_insert_first {A} (l : list (list A)) i (x : A) rest :
  l !! i = Some (x :: rest) -> Forall (fun y => y = []) (take i l) ->
  concat l = x :: concat (<[i := rest]> l).
Proof.
  revert i. induction l as [|y l IH]; intros [|i] Hi Hf; cbn in *; [done|done|by injection Hi as ->|].
  apply Forall_cons in Hf as [-> Hf]. cbn. by apply IH.
Qed.

Lemma notified_step race p s s' es hs :
  sys_ok false s es hs -> notified p s es -> server_step race s s' ->
  exists es' hs', sys_ok false s' (es ++ es') hs' /\ notified p s' (es ++ es') /\
    watch_tx (app s) `prefix_of` watch_tx (app s').
Proof.
  intros Hok [Hp Hn] [Hstep Hord].
  destruct (sys_ok_step_sent _ _ _ _ _ _ Hok Hstep) as (es' & hs' & Hok' & _ & Hnot).
  exists es', hs'. split; [done|]. split; [|destruct Hnot as [[-> _]|(_ & i & e & rest & _ & -> & _)]; [done|by eexists]].
  split; [rewrite length_app; lia|].
  rewrite drop_app_le, fmap_app, <- Hn by lia. destruct Hnot as [[-> ->]|(-> & i & e & rest & Hi & -> & Eo)].
  - by rewrite app_assoc.
  - rewrite Eo, (concat_insert_first _ _ _ _ Hi (Hord _ _ _ Hi Eo)). cbn. by rewrite app_nil_r, <- app_assoc.
Qed.

(** ** Pages of a log without gaps *)

Lemma gap_free_from s es c :
  gap_free s es -> 0 <= c -> filter (in_page c 0) es = drop (Z.to_nat c) es.
Proof.
  intros Hg Hc. rewrite <- (take_drop (Z.to_nat c) es) at 1. rewrite filter_app, filter_none, filter_all; [done| |];
    apply Forall_forall; intros e [i Hi]%list_elem_of_lookup.
  - rewrite lookup_drop in Hi. pose proof (gap_free_lookup _ _ _ _ Hg Hi). unfold in_page. lia.
  - apply lookup_take_Some in Hi as [Hi Hlt]. pose proof (gap_free_lookup _ _ _ _ Hg Hi). unfold in_page. lia.
Qed.

(** A page is the next 200 entries, with the following number as cursor, or all that is left and 0. *)
Lemma page_read s es c :
  db_rep s es -> gap_free s es -> in_u64 c ->
  (exists entries next, seq_range_paged s c 0 200 = Ret (Ok (entries, next)) /\
     if next =? 0 then entries = drop (Z.to_nat c) es
     else next = c + 200 /\ next <= len es /\ in_u64 next /\
          entries = drop (Z.to_nat c) (take (Z.to_nat next) es)) \/
  exists e, seq_range_paged s c 0 200 = Ret (Err (RocksDb e)) /\
    iter_fails (db s) CF_LOG (IterFrom (to_vec (u64_to_be_bytes c))) e.
Proof.
  intros Hr Hg Hc. destruct (seq_range_paged_ok s es c 0 200 Hr Hc ltac:(lia)) as [E|(e & He & E)]; [left|eauto].
  rewrite (gap_free_from _ _ _ Hg (proj1 Hc)) in E. change (Z.to_nat 200) with 200%nat in E.
  change (Z.to_nat (200 - 1)) with 199%nat in E. rewrite lookup_drop in E.
  destruct (es !! (Z.to_nat c + 199)%nat) as [e|] eqn:El; cbn [from_option] in E; eexists _, _; split; [exact E| |exact E|].
  - pose proof (gap_free_lookup _ _ _ _ Hg El) as Es. apply lookup_lt_Some in El.
    pose proof (len_le_next _ _ Hr) as Hln. pose proof (rep_next _ _ Hr) as Hnx. unfold in_u64, len in *.
    unfold compose, cursor_after. cbn [Z.eqb orb]. rewrite (proj2 (Z.eqb_neq _ 0)) by lia.
    replace (seq e + 1) with (c + 200) by lia. do 2 (split; [lia|]). split; [lia|].
    rewrite take_drop_commute. f_equal. f_equal. lia.
  - cbn. apply lookup_ge_None in El. rewrite take_ge; [done|]. rewrite length_drop. lia.
Qed.

(** ** The invariant of a stream *)

(** Every entry has its position as number. *)
Definition gap_free_list (es : list LogEntry.t) : Prop := forall i e, es !! i = Some e -> seq e = Z.of_nat i.

(** The entries with the numbers from [a] up to, but not including, [n]. *)
Definition segment (es : list LogEntry.t) (a n : nat) : list Entry.t := entry_to_pb <$> drop a (take n es).
(** The number of the last of them, if there is one. *)
Definition last_of (a n : nat) : option Z := if (a <? n)%nat then Some (Z.of_nat n - 1) else None.

Lemma last_of_nil a n : (n <= a)%nat -> last_of a n = None.
Proof. intros Hle. unfold last_of. by rewrite (proj2 (Nat.ltb_ge a n)). Qed.

Lemma segment_nil es a n : (n <= a)%nat -> segment es a n = [].
Proof. intros Hle. unfold segment. by rewrite drop_ge by (rewrite length_take; lia). Qed.

Lemma segment_app es a b c : (a <= b <= c)%nat -> segment es a b ++ segment es b c = segment es a c.
Proof.
  intros Hab. unfold segment. rewrite <- fmap_app. f_equal. destruct (decide (a <= length es)%nat).
  - rewrite <- (take_drop b (take c es)) at 2. rewrite take_take, Nat.min_l by lia.
    by rewrite drop_app_le by (rewrite length_take; lia).
  - by rewrite !drop_ge by (rewrite length_take; lia).
Qed.

Lemma segment_rest es a n : (length es <= n)%nat -> segment es a n = entry_to_pb <$> drop a es.
Proof. intros Hn. unfold segment. by rewrite take_ge. Qed.

Lemma segment_grow es es' a n : (n <= a)%nat \/ (n <= length es)%nat -> segment (es ++ es') a n = segment es a n.
Proof.
  intros [Hle|Hle]; [by rewrite !segment_nil|]. unfold segment. by rewrite take_app_le.
Qed.

Lemma segment_snoc es n e : es !! n = Some e -> segment es n (S n) = [entry_to_pb e].
Proof.
  intros He. unfold segment. rewrite (take_S_r _ _ _ He), drop_app_ge; rewrite length_take.
  - apply lookup_lt_Some in He. by replace (n - n `min` length es)%nat with 0%nat by lia.
  - lia.
Qed.

(** Where the stream of a request from [f] starts when its receiver starts at number [b].  The live phase compares
    numbers with the last one sent and not with [f]: if the replay found nothing from [f] on, entries below [f] are sent. *)
Definition starts_at (f : Z) (b a : nat) : Prop :=
  if 0 <? f then a = Z.to_nat f \/ a = b /\ Z.of_nat b < f else a = b.

(** Why a stream has ended: it fell behind the channel, or a page could not be read. *)
Definition end_reason (es : list LogEntry.t) (n : nat) (status : option Status) : Prop :=
  match status with
  | None => False
  | Some e => code e = ResourceExhausted /\ (exists q, (q <= n)%nat /\ (q + WATCH_CHANNEL_CAP < length es)%nat) \/
      exists d c x, iter_fails d CF_LOG (IterFrom c) x /\ e = mkStatus Internal (storage_error_display (RocksDb x))
  end.

(** [p] entries were never notified; the receiver started at number [b]. *)
Definition stream_ok (f : Z) (p b : nat) (s : sys) (w : watcher) (es : list LogEntry.t) : Prop :=
  (rx_next (rx w) <= length (watch_tx (app s)))%nat /\
  match at_ w with
  | Replaying c => 0 < f <= c /\ in_u64 c /\ (p + rx_next (rx w) = b)%nat /\ (b <= length es)%nat /\
      (c = f \/ c <= len es) /\
      out w = segment es (Z.to_nat f) (Z.to_nat c) /\ last_sent w = last_of (Z.to_nat f) (Z.to_nat c)
  | Streaming => exists a n, (a <= n <= length es)%nat /\ starts_at f b a /\
      out w = segment es a n /\ last_sent w = last_of a n /\
      (p + rx_next (rx w) <= n)%nat /\ (a = n -> (p + rx_next (rx w))%nat = n)
  | Ended status => exists a n, (a <= n)%nat /\ (a = n \/ (n <= length es)%nat) /\ starts_at f b a /\
      out w = segment es a n /\ end_reason es n status
  end.

Lemma stream_grow f p b s s' w es es' :
  stream_ok f p b s w es -> watch_tx (app s) `prefix_of` watch_tx (app s') -> stream_ok f p b s' w (es ++ es').
Proof.
  intros [Hpos Hst] [l Hl]. split; [rewrite Hl, length_app; lia|]. destruct (at_ w) as [c| |status].
  - destruct Hst as (Hf & Hc & Hb & Hbl & Hcl & Ho & Hls). rewrite length_app, len_app.
    pose proof (len_nonneg es'). do 3 (split; [done|]). split; [lia|]. split; [lia|]. split; [|done].
    rewrite segment_grow; [done|]. destruct Hcl as [->|Hcl]; [by left|right; unfold len in *; lia].
  - destruct Hst as (a & n & Hn & Hs & Ho & Hst). exists a, n. rewrite length_app, segment_grow by lia. split; [lia|done].
  - destruct Hst as (a & n & Hn & Hl' & Hs & Ho & Hr). exists a, n. rewrite length_app, segment_grow by lia.
    do 2 (split; [lia|]). do 2 (split; [done|]). destruct status as [e|]; [|done].
    destruct Hr as [[? (q & ? & ?)]|Hr]; [left|by right]. split; [done|]. exists q. rewrite length_app. lia.
Qed.

Lemma last_of_app es a b c :
  gap_free_list es -> (a <= b <= c)%nat -> (c <= length es)%nat ->
  last_seq (drop b (take c es)) (last_of a b) = last_of a c.
Proof.
  intros Hg Hab Hc. unfold last_seq, last_of. destruct (decide (b = c)) as [->|Hne].
  - rewrite drop_ge by (rewrite length_take; lia). done.
  - destruct c as [|c]; [lia|]. destruct (lookup_lt_is_Some_2 es c) as [e He]; [lia|].
    rewrite (take_S_r _ _ _ He), drop_app_le, last_snoc by (rewrite length_take; lia).
    rewrite (Hg _ _ He), (proj2 (Nat.ltb_lt a (S c))) by lia. f_equal. lia.
Qed.

(** A page keeps the invariant. *)
Lemma page_stream f p b s w w' es hs c :
  sys_ok false s es hs -> stream_ok f p b s w es -> at_ w = Replaying c ->
  watch_task (app s) w = Ret w' -> stream_ok f p b s w' es.
Proof.
  intros Hok [Hpos Hst] Ea. unfold watch_task. rewrite Ea in Hst |- *.
  destruct Hst as (Hf & Hc & Hb & Hbl & Hcl & Ho & Hls).
  pose proof (ok_db _ _ _ (sys_server _ _ _ _ Hok)) as Hdb. pose proof (sys_gaps _ _ _ _ Hok eq_refl) as Hg.
  assert (Hgl : gap_free_list es) by (intros i e; by eapply gap_free_lookup).
  assert (Hfs : forall a, a = Z.to_nat f -> starts_at f b a).
  { intros a ->. unfold starts_at. rewrite (proj2 (Z.ltb_lt 0 f)) by lia. by left. }
  destruct (page_read _ _ _ Hdb Hg Hc) as [(entries & next & E & Hn)|(x & E & Hx)]; rewrite E; cbn [obind]; intros [= <-].
  2:{ split; [done|]. cbn. exists (Z.to_nat f), (Z.to_nat c). split; [lia|]. split; [unfold len in *; lia|].
      split; [by apply Hfs|]. split; [done|]. right. by eexists _, _, x. }
  split; [done|]. cbn [at_ out last_sent rx]. destruct (next =? 0) eqn:En.
  - subst entries. rewrite Ho, Hls. destruct (decide (Z.to_nat f < length es)%nat) as [Hlt|Hge].
    + exists (Z.to_nat f), (length es). split; [lia|]. split; [by apply Hfs|].
      assert (Hcb : (Z.to_nat f <= Z.to_nat c <= length es)%nat) by (unfold len in *; lia).
      rewrite <- (segment_rest es (Z.to_nat c) (length es)), segment_app by lia. split; [done|].
      split; [|lia]. rewrite <- (last_of_app es _ (Z.to_nat c) (length es)) by (done || lia). by rewrite take_ge.
    + assert (c = f) as -> by (unfold len in *; lia). exists b, b. split; [lia|]. split.
      { unfold starts_at. rewrite (proj2 (Z.ltb_lt 0 f)) by lia. lia. }
      rewrite drop_ge by lia. rewrite !segment_nil, !last_of_nil by lia. split; [done|]. split; [done|]. lia.
  - destruct Hn as (-> & Hle & Hu & ->). split; [lia|]. do 3 (split; [done|]). split; [by right|].
    rewrite Ho, Hls. unfold len in Hle. split; [by apply segment_app; lia|by apply last_of_app; (done || lia)].
Qed.

(** What a receiver gets is the entry with the number it is at. *)
Lemma received_entry p s es i e :
  notified p s es -> watch_tx (app s) !! i = Some e ->
  exists x, es !! (p + i)%nat = Some x /\ e = entry_to_pb x.
Proof.
  intros [_ Hn] He. assert (Hi : (watch_tx (app s) ++ concat (outbox s)) !! i = Some e) by by apply lookup_app_l_Some.
  rewrite Hn, list_lookup_fmap, lookup_drop in Hi. destruct (es !! (p + i)%nat) as [x|]; [|done].
  injection Hi as <-. eauto.
Qed.

Lemma notified_length p s es : notified p s es -> (p + length (watch_tx (app s)) <= length es)%nat.
Proof.
  intros [Hp Hn]. apply (f_equal length) in Hn. rewrite length_app, length_fmap, length_drop in Hn. lia.
Qed.

(** Taking a value keeps the invariant. *)
Lemma value_stream f p b s w w' es hs :
  sys_ok false s es hs -> notified p s es -> stream_ok f p b s w es -> at_ w = Streaming ->
  watch_task (app s) w = Ret w' -> stream_ok f p b s w' es.
Proof.
  intros Hok Hnot [Hpos Hst] Ea. unfold watch_task. rewrite Ea in Hst |- *.
  destruct Hst as (a & n & Hn & Hs & Ho & Hls & Hq & Han). pose proof (sys_gaps _ _ _ _ Hok eq_refl) as Hg.
  destruct (rx_recv _ _) as [o rx'] eqn:Er. pose proof (recv_next _ _ _ _ Er Hpos) as Hr.
  destruct o as [[e|k|]|]; [|intros [= <-]..].
  - destruct Hr as [He Hnx]. destruct (received_entry _ _ _ _ _ Hnot He) as (x & Hx & ->).
    pose proof (gap_free_lookup _ _ _ _ Hg Hx) as Eseq. apply lookup_lt_Some in He. pose proof (lookup_lt_Some _ _ _ Hx).
    change (Entry.seq (entry_to_pb x)) with (seq x). rewrite Hls. unfold last_of in *.
    destruct (Nat.ltb_spec a n) as [Hlt|Hge].
    + destruct (Z.leb_spec (seq x) (Z.of_nat n - 1)); intros [= <-]; (split; [cbn; lia|]); cbn [at_ out last_sent rx].
      * exists a, n. rewrite Hnx. unfold last_of. rewrite (proj2 (Nat.ltb_lt a n)) by lia.
        do 4 (split; [done|]). lia.
      * exists a, (S n). rewrite Hnx. unfold last_of. rewrite (proj2 (Nat.ltb_lt a (S n))) by lia.
        assert (En : (p + rx_next (rx w))%nat = n) by lia. rewrite En in Hx, Eseq.
        split; [lia|]. split; [done|]. split; [|split; [rewrite Eseq; f_equal; lia|lia]].
        rewrite Ho, <- (segment_app es a n (S n)) by lia. by rewrite (segment_snoc _ _ _ Hx).
    + intros [= <-]. split; [cbn; lia|]. cbn [at_ out last_sent rx]. assert (a = n) as -> by lia. specialize (Han eq_refl).
      exists n, (S n). rewrite Hnx. unfold last_of. rewrite (proj2 (Nat.ltb_lt n (S n))) by lia. rewrite Han in Hx, Eseq.
      split; [lia|]. split; [done|]. split; [|split; [rewrite Eseq; f_equal; lia|lia]].
      by rewrite Ho, segment_nil, (segment_snoc _ _ _ Hx) by lia.
  - destruct Hr as (Hlag & _ & Hle). split; [done|]. cbn. exists a, n. split; [lia|]. split; [lia|]. do 2 (split; [done|]).
    left. split; [done|]. exists (p + rx_next (rx w))%nat. pose proof (notified_length _ _ _ Hnot). split; [done|lia].
  - done.
  - destruct Hr as [_ Hnx]. split; [cbn; lia|]. cbn [at_ out last_sent rx]. exists a, n. by rewrite Hnx.
Qed.

Lemma task_stream f p b s w w' es hs :
  sys_ok false s es hs -> notified p s es -> stream_ok f p b s w es ->
  watch_task (app s) w = Ret w' -> stream_ok f p b s w' es.
Proof.
  intros Hok Hnot Hst Ht. destruct (at_ w) as [c| |status] eqn:Ea.
  - by eapply page_stream.
  - by eapply value_stream.
  - unfold watch_task in Ht. rewrite Ea in Ht. by injection Ht as <-.
Qed.

Lemma stream_reach race f p b x y es0 hs0 :
  rtc (wstep race) x y -> sys_ok false x.1 es0 hs0 -> notified p x.1 es0 -> stream_ok f p b x.1 x.2 es0 ->
  exists es' hs, sys_ok false y.1 (es0 ++ es') hs /\ notified p y.1 (es0 ++ es') /\
    stream_ok f p b y.1 y.2 (es0 ++ es').
Proof.
  intros Hr. revert es0 hs0. induction Hr as [x|x x1 y Hstep Hr IH]; intros es0 hs0 Hok Hnot Hst.
  { exists [], hs0. by rewrite app_nil_r. }
  destruct Hstep as [s s' w Hs|s w w' Ht]; cbn [fst snd] in *.
  - destruct (notified_step _ _ _ _ _ _ Hok Hnot Hs) as (es1 & hs1 & Hok1 & Hnot1 & Hp).
    destruct (IH _ _ Hok1 Hnot1 (stream_grow _ _ _ _ _ _ _ _ Hst Hp)) as (es2 & hs2 & ?).
    exists (es1 ++ es2), hs2. by rewrite app_assoc.
  - apply (IH _ _ Hok Hnot). by eapply task_stream.
Qed.

Lemma notified_reach race p s s' es hs :
  rtc (server_step race) s s' -> sys_ok false s es hs -> notified p s es ->
  exists es' hs', sys_ok false s' (es ++ es') hs' /\ notified p s' (es ++ es').
Proof.
  intros Hr. revert es hs. induction Hr as [s|s s1 s2 Hstep Hr IH]; intros es hs Hok Hnot.
  { exists [], hs. by rewrite app_nil_r. }
  destruct (notified_step _ _ _ _ _ _ Hok Hnot Hstep) as (es1 & hs1 & Hok1 & Hnot1 & _).
  destruct (IH _ _ Hok1 Hnot1) as (es2 & hs2 & ?). exists (es1 ++ es2), hs2. by rewrite app_assoc.
Qed.

Lemma start_stream f p s es :
  in_u64 f -> notified p s es ->
  stream_ok f p (p + length (watch_tx (app s))) s (watch_start (app s) f) es.
Proof.
  intros Hf Hnot. pose proof (notified_length _ _ _ Hnot) as Hl. unfold stream_ok, watch_start. cbn [rx at_ out last_sent].
  rewrite subscribe_next. split; [done|]. destruct (Z.ltb_spec 0 f) as [Hpos|Hz].
  - split; [lia|]. split; [done|]. split; [done|]. split; [done|]. split; [by left|].
    by rewrite segment_nil, last_of_nil by lia.
  - set (b := (p + _)%nat) in *. exists b, b. split; [lia|]. rewrite segment_nil, last_of_nil by lia.
    split; [unfold starts_at; by rewrite (proj2 (Z.ltb_ge 0 f)) by lia|]. repeat split; lia.
Qed.

End System.
