(* ===== verification/Admin.v ===== *)
(** * Admin API and authentication (crates/settled-server/src/{admin,main}.rs)

    The HTTP handlers of the admin router and the interceptor in front of every
    gRPC call.  [hex::encode] is a parameter. *)

From Stdlib Require String.
From S2P Require Import Prelude Bytes Hash MerkleSpec Merkle MerkleProof Sth Rocksdb StorageTypes.
From S2P Require Import Db LogStore LogTheorems Table HeadStore KeyStore ServerState Service.
From S2P Require Import ServerInv Concurrent Utf8.
Import String.StringSyntax.

(** ** Authentication (main.rs) *)

(** The interceptor; [authorization] is the metadata value of that name, if any.
    The request itself is passed on unchanged. *)
Definition interceptor (api_key : option String.string) (authorization : option bytes)
  : result unit Status :=
  match api_key with
  | Some expected =>
      let ok := match authorization with
                | Some v => bool_decide (v = as_bytes (String.append "Bearer " expected)%str)
                | None => false
                end in
      if ok then Ok tt else Err (mkStatus Unauthenticated "missing or invalid api key"%str)
  | None => Ok tt
  end.

(** ** Admin handlers (admin.rs) *)

Inductive StatusCode := OK | NO_CONTENT | INTERNAL_SERVER_ERROR.

Class Hex := hex_encode : bytes -> String.string.

Module KeyRecordJson.
Record t := mk { version : Z; public_key : String.string; activated_at_tree_size : Z }.
End KeyRecordJson.

Module SthJson.
Record t := mk {
  tree_size : Z; root_hash : String.string; timestamp_ns : Z; signature : String.string;
  public_key : String.string; key_version : Z
}.
End SthJson.

Module StatsJson.
Record t := mk { entry_count : Z; tree_size : Z; last_sth_timestamp_ns : option Z }.
End StatsJson.

Section Admin.
Context `{Sha256} `{Rocksdb} `{Prost} `{Ed25519} `{RateLimit} `{Profile} `{Hex}.

Definition key_record_json (r : KeyRecord.t) : KeyRecordJson.t :=
  KeyRecordJson.mk (KeyRecord.version r) (hex_encode (to_vec (KeyRecord.public_key r)))
    (KeyRecord.activated_at_tree_size r).

Definition sth_json (sth : SignedTreeHead.t) : SthJson.t :=
  SthJson.mk (SignedTreeHead.tree_size sth) (hex_encode (to_vec (SignedTreeHead.root_hash sth)))
    (SignedTreeHead.timestamp_ns sth) (hex_encode (to_vec (SignedTreeHead.signature sth)))
    (hex_encode (to_vec (SignedTreeHead.public_key sth))) (SignedTreeHead.key_version sth).

Definition health : StatusCode := OK.

Definition list_keys (st : AppState) : result (list KeyRecordJson.t) StatusCode :=
  match key_all (inner st) with
  | Err _ => Err INTERNAL_SERVER_ERROR
  | Ok records => Ok (key_record_json <$> records)
  end.

Definition rotate_key (st : AppState) (fresh : SigningKey) (w : fs_write)
  : outcome (AppState * result KeyRecordJson.t StatusCode) :=
  let activated_at := MerkleTree.size (merkle st) in
  let! new_version := u32_add (key_version (signer st)) 1 in
  let '(sg, file, new_pubkey) := rotate (signer st) new_version fresh w in
  let st := set_signer st sg file in
  match new_pubkey with
  | None => Ret (st, Err INTERNAL_SERVER_ERROR)
  | Some new_pubkey =>
      let record := KeyRecord.mk new_version new_pubkey activated_at in
      let '(s, r) := key_put (inner st) record in
      let st := set_inner st s in
      match r with
      | Err _ => Ret (st, Err INTERNAL_SERVER_ERROR)
      | Ok _ => Ret (st, Ok (key_record_json record))
      end
  end.

(** The latest head as JSON, [NO_CONTENT] when there is none. *)
Definition admin_get_sth (st : AppState) : result SthJson.t StatusCode :=
  match head_latest (inner st) with
  | Err _ => Err INTERNAL_SERVER_ERROR
  | Ok None => Err NO_CONTENT
  | Ok (Some sth) => Ok (sth_json sth)
  end.

Definition stats (st : AppState) : result StatsJson.t StatusCode :=
  let entry_count := count (inner st) in
  let tree_size := MerkleTree.size (merkle st) in
  match head_latest (inner st) with
  | Err _ => Err INTERNAL_SERVER_ERROR
  | Ok s => Ok (StatsJson.mk entry_count tree_size (SignedTreeHead.timestamp_ns <$> s))
  end.

Definition force_sth (st : AppState) (now : Z) : outcome (AppState * result SthJson.t StatusCode) :=
  let! r := sign_and_store st now in
  match r with
  | (st, Err _) => Ret (st, Err INTERNAL_SERVER_ERROR)
  | (st, Ok _) => Ret (st, admin_get_sth st)
  end.
End Admin.

Section AdminTheorems.
Context `{Sha256} {R : Rocksdb} {P : Prost} {RL : RocksdbLaws} {PL : ProstLaws}.
Context {D : ErrorDisplay} `{Ed25519} `{RateLimit} `{Profile} `{Hex}.

(** Authentication.  With an API key configured, a call passes exactly when it carries
    the header [Bearer <key>], byte for byte, and is refused as UNAUTHENTICATED
    otherwise; without one every call passes. *)
Theorem interceptor_spec (api_key : option String.string) (authorization : option bytes) :
  match api_key with
  | Some k =>
      (interceptor api_key authorization = Ok tt <->
       authorization = Some (as_bytes "Bearer "%str ++ as_bytes k)) /\
      (forall s, interceptor api_key authorization = Err s -> code s = Unauthenticated)
  | None => interceptor api_key authorization = Ok tt
  end.
Proof.
  destruct api_key as [k|]; [|done]. cbn [interceptor].
  assert (E : as_bytes (String.append "Bearer " k)%str = as_bytes "Bearer "%str ++ as_bytes k) by done.
  rewrite E. destruct authorization as [v|].
  - case_bool_decide as Ev; split; [by rewrite Ev|done| |].
    + split; [done|]. by intros [= ?].
    + by intros s [= <-].
  - split; [done|]. by intros s [= <-].
Qed.

Lemma rotate_key_ok (st : AppState) (es : list LogEntry.t) (hs : list SignedTreeHead.t)
    (ks : list KeyRecord.t) (fresh : SigningKey) (w : fs_write) (Hok : server_ok st es hs)
    (Hk : keys_rep (inner st) ks) (Hv : in_u32 (sig_version (signer st) + 1))
    (Hv0 : 0 <= sig_version (signer st)) :
  exists st' r, rotate_key st fresh w = Ret (st', r) /\ server_ok st' es hs /\
    let v := sig_version (signer st) + 1 in
    let record := KeyRecord.mk v (vk_to_bytes (verifying_key fresh)) (len es) in
    match r with
    | Ok json => json = key_record_json record /\ signer st' = mkSigner fresh v /\
        key_file st' = Some (to_vec (sk_to_bytes fresh)) /\
        keys_rep (inner st') (upsert KeyRecord.version record ks)
    | Err _ => keys_rep (inner st') ks /\
        match w with
        | FsFailed left_ => signer st' = signer st /\ key_file st' = left_
        | FsOk => signer st' = mkSigner fresh v /\ exists s e, key_put (inner st) record = (s, Err e)
        end
    end.
Proof.
  unfold rotate_key, key_version. rewrite u32_add_in by done. cbn [obind]. unfold rotate.
  rewrite (represents_size _ _ (ok_merkle _ _ _ Hok)), len_leaves. destruct w as [|l].
  2:{ eexists _, _. split; [done|]. split; [frame|]. done. }
  set (record := KeyRecord.mk _ _ _).
  assert (Hw : key_wf record).
  { split; [done|]. pose proof (len_le_next _ _ (ok_db _ _ _ Hok)) as Hl.
    destruct Hok as [[_ _ _ Hn] _ _ _]. pose proof (len_nonneg es). unfold in_u64 in *. cbn. lia. }
  cbn [inner set_signer].
  destruct (key_put_ok (inner st) ks record Hk Hw) as (s & r & E & Hk'). rewrite E.
  pose proof E as [En Hc]%key_put_frame.
  assert (Hok' : forall a, inner a = s -> merkle a = merkle st -> server_ok a es hs).
  { intros a Ea Em. destruct Hok as [Hdb Hh Hm Hro]. split; rewrite ?Ea, ?Em; try done.
    - frame.
    - frame. }
  destruct r as [u|e]; eexists _, _; (split; [done|]); (split; [by apply Hok'|]).
  - done.
  - cbn zeta. fold record. split; [done|]. split; [done|]. eauto.
Qed.

(** C32: key rotation.  It returns unless the version counter overflows.  On success the
    signer signs with the new key under the next version, the key file holds the new key, and the key
    history records the new public key from the present tree size on; when the key
    file cannot be written nothing has changed but the file; when the history cannot be
    written the error is reported although the new key is already in use, with a
    version the history lacks.  The log and the heads are untouched in every case. *)
Theorem rotate_key_spec (st : AppState) (es : list LogEntry.t) (hs : list SignedTreeHead.t)
    (ks : list KeyRecord.t) (fresh : SigningKey) (w : fs_write) (Hok : server_ok st es hs)
    (Hk : keys_rep (inner st) ks) (Hv : in_u32 (sig_version (signer st) + 1))
    (Hv0 : 0 <= sig_version (signer st)) :
  exists st' r, rotate_key st fresh w = Ret (st', r) /\ server_ok st' es hs /\
    let v := sig_version (signer st) + 1 in
    let record := KeyRecord.mk v (vk_to_bytes (verifying_key fresh)) (len es) in
    match r with
    | Ok json => json = key_record_json record /\ signer st' = mkSigner fresh v /\
        key_file st' = Some (to_vec (sk_to_bytes fresh)) /\
        keys_rep (inner st') (upsert KeyRecord.version record ks)
    | Err _ => keys_rep (inner st') ks /\
        match w with
        | FsFailed left_ => signer st' = signer st /\ key_file st' = left_
        | FsOk => signer st' = mkSigner fresh v /\ exists s e, key_put (inner st) record = (s, Err e)
        end
    end.
Proof. by apply rotate_key_ok. Qed.
End AdminTheorems.
