(* ===== verification/Poison.v ===== *)
(** * Panics under the append lock (crates/settled-server/src/{service,sth_task,admin}.rs)

    [append_mu] is a [std::sync::Mutex], and every user takes it with [lock().unwrap()]: a panic
    while it is held poisons it, and from then on each of them panics.  A panic ends the
    task it happens in: a request, or the signing task, which is not restarted.  Here the
    state carries the poison flag and whether the signing task is alive, and a request is
    [None] when its task panicked. *)

From Stdlib Require String.
From stdpp Require Import relations pretty.
From S2P Require Import Prelude Bytes Hash MerkleSpec Merkle Sth Rocksdb StorageTypes.
From S2P Require Import Db LogStore LogTheorems Table HeadStore KeyStore ServerState Service.
From S2P Require Import ServerInv Concurrent ProofTheorems ServiceTheorems Admin.
Import String.StringSyntax.

Record guarded `{Rocksdb} `{Ed25519} `{RateLimit} := mkGuarded {
  shared : AppState;
  poisoned : bool;
  sth_alive : bool
}.

Section Guarded.
Context `{Sha256} `{Rocksdb} `{Prost} `{!ErrorDisplay} `{Ed25519} `{RateLimit} `{Profile} `{Hex}.

Definition with_shared (g : guarded) (st : AppState) : guarded := mkGuarded _ _ _ st (poisoned g) (sth_alive g).
(** A panic with the lock held; [st] is what had been done by then. *)
Definition poison (g : guarded) (st : AppState) : guarded := mkGuarded _ _ _ st true (sth_alive g).

(** The critical section of [append].  A panic of [log.append] comes after the number was taken
    (the clock is read then), one of [merkle.append] after the entry was written. *)
Definition append_locked (g : guarded) (now : Z) (key data : bytes)
  : guarded * option (result (Z * Z) Status) :=
  if poisoned g then (g, None)
  else
    match append (inner (shared g)) now key data with
    | Ret (s, Err e) => (with_shared g (set_inner (shared g) s), Some (storage_status e))
    | Ret (s, Ok (seq, ts)) =>
        let st := set_inner (shared g) s in
        match MerkleTree.append (merkle (shared g)) (leaf_hash data) with
        | Ret m => (with_shared g (set_merkle st m.1), Some (Ok (seq, ts)))
        | _ => (poison g st, None)
        end
    | _ => (poison g (set_inner (shared g) (fetch_add (inner (shared g)) 1).1), None)
    end.

Definition batch_locked (g : guarded) (now : Z) (pairs : list (bytes * bytes))
  : guarded * option (result (list (Z * Z * hash32)) Status) :=
  if poisoned g then (g, None)
  else
    match append_batch (inner (shared g)) now pairs with
    | Ret (s, Err e) => (with_shared g (set_inner (shared g) s), Some (storage_status e))
    | Ret (s, Ok results) =>
        let st := set_inner (shared g) s in
        match MerkleTree.append_all (merkle (shared g)) (snd <$> results) with
        | Ret m => (with_shared g (set_merkle st m), Some (Ok results))
        | _ => (poison g st, None)
        end
    | _ => (poison g (set_inner (shared g) (fetch_add (inner (shared g)) (len pairs)).1), None)
    end.

(** The handlers around them. *)
Definition guarded_append (g : guarded) (at_ now : Z) (key data : bytes)
  : guarded * option (result AppendResponse.t Status) :=
  let '(st, ok) := admit_one (shared g) at_ in
  let g := with_shared g st in
  if ok then
    let lh := leaf_hash data in
    match append_locked g now key data with
    | (g, None) => (g, None)
    | (g, Some (Err e)) => (g, Some (Err e))
    | (g, Some (Ok (seq, timestamp_ns))) =>
        (with_shared g (send (shared g) (Entry.mk seq timestamp_ns key data (to_vec lh))),
         Some (Ok (AppendResponse.mk seq timestamp_ns (to_vec lh) key)))
    end
  else (g, Some (Err (mkStatus ResourceExhausted "append rate limit exceeded; slow down"%str))).

Definition guarded_batch (g : guarded) (at_ now : Z) (entries : list (bytes * bytes))
  : guarded * option (result (list AppendResponse.t) Status) :=
  let n := len entries in
  if n =? 0 then (g, Some (Ok []))
  else if MAX_BATCH <? n then
    (g, Some (invalid ("batch size " ++ pretty n ++ " exceeds maximum " ++ pretty MAX_BATCH)%str))
  else
    let '(st, ok) := admit_n (shared g) at_ (wrap_u32 n) in
    let g := with_shared g st in
    if ok then
      match batch_locked g now entries with
      | (g, None) => (g, None)
      | (g, Some (Err e)) => (g, Some (Err e))
      | (g, Some (Ok results)) =>
          match index results 0 with
          | Ret _ => (with_shared g (foldl send (shared g) (zip_with batch_entry entries results)),
                      Some (Ok (zip_with batch_response entries results)))
          | _ => (g, None)
          end
      end
    else (g, Some (Err (mkStatus ResourceExhausted "append rate limit exceeded; slow down"%str))).

(** [sign_and_store]: the lock is held for the snapshot only, so a later panic does not poison it. *)
Definition guarded_sign (g : guarded) (now : Z) : guarded * option (result unit StorageTypes.Error) :=
  if poisoned g then (g, None)
  else
    match snapshot (shared g) with
    | Ret _ =>
        match sign_and_store (shared g) now with
        | Ret (st, r) => (with_shared g st, Some r)
        | _ => (g, None)
        end
    | _ => (poison g (shared g), None)
    end.

(** A wake-up of the signing task. *)
Definition guarded_tick (g : guarded) (now : Z) : guarded * option (result unit StorageTypes.Error) :=
  if sth_alive g then
    match guarded_sign g now with
    | (g, None) => (mkGuarded _ _ _ (shared g) (poisoned g) false, None)
    | r => r
    end
  else (g, None).

Definition guarded_rotate (g : guarded) (fresh : SigningKey) (w : fs_write)
  : guarded * option (result KeyRecordJson.t StatusCode) :=
  if poisoned g then (g, None)
  else
    match rotate_key (shared g) fresh w with
    | Ret (st, r) => (with_shared g st, Some r)
    | _ => (g, None)
    end.

Definition guarded_stats (g : guarded) : option (result StatsJson.t StatusCode) :=
  if poisoned g then None else Some (stats (shared g)).

(** ** Requests *)

Inductive request :=
| RqAppend (at_ now : Z) (key data : bytes)
| RqBatch (at_ now : Z) (entries : list (bytes * bytes))
| RqTick (now : Z)                                    (* the signing task wakes up *)
| RqForce (now : Z)                                   (* POST /api/sth/force *)
| RqRotate (fresh : SigningKey) (w : fs_write)
| RqStats.

Inductive reply := Succeeded | Refused | Panicked.
Definition reply_of {A E} (r : option (result A E)) : reply :=
  match r with Some (Ok _) => Succeeded | Some (Err _) => Refused | None => Panicked end.

Definition exec (g : guarded) (rq : request) : guarded * reply :=
  match rq with
  | RqAppend at_ now key data => let '(g, r) := guarded_append g at_ now key data in (g, reply_of r)
  | RqBatch at_ now entries => let '(g, r) := guarded_batch g at_ now entries in (g, reply_of r)
  | RqTick now => let '(g, r) := guarded_tick g now in (g, reply_of r)
  | RqForce now => let '(g, r) := guarded_sign g now in (g, reply_of r)
  | RqRotate fresh w => let '(g, r) := guarded_rotate g fresh w in (g, reply_of r)
  | RqStats => (g, reply_of (guarded_stats g))
  end.

Fixpoint exec_all (g : guarded) (rqs : list request) : guarded * list reply :=
  match rqs with
  | [] => (g, [])
  | rq :: rqs => let '(g, r) := exec g rq in let '(g, rs) := exec_all g rqs in (g, r :: rs)
  end.

(** Unless something panics, these are the handlers of [Service]. *)
Lemma guarded_append_plain g at_ now key data :
  poisoned g = false ->
  match rpc_append (shared g) at_ now key data with
  | Ret (st, r) => guarded_append g at_ now key data = (with_shared g st, Some r)
  | _ => (guarded_append g at_ now key data).2 = None
  end.
Proof.
  intros Hp. unfold rpc_append, guarded_append, append_commit, append_locked. cbn [shared with_shared poisoned].
  rewrite Hp. destruct (admit_one (shared g) at_) as [st ok]. destruct ok; [|done]. cbn [shared with_shared].
  destruct (append (inner st) now key data) as [[s [[n ts]|e]]| |]; cbn [obind]; try done.
  by destruct (MerkleTree.append _ _) as [m| |].
Qed.
End Guarded.

Section PoisonTheorems.
Context `{Sha256} {R : Rocksdb} {P : Prost} {RL : RocksdbLaws} {PL : ProstLaws}.
Context {D : ErrorDisplay} `{Ed25519} `{RateLimit} `{Profile} `{Hex}.
Abbreviation seq := LogEntry.seq.

(** What the server stores and the tree over it. *)
Definition same_store (g g' : guarded) : Prop :=
  inner (shared g') = inner (shared g) /\ merkle (shared g') = merkle (shared g).

Lemma admit_one_store st at_ : inner (admit_one st at_).1 = inner st /\ merkle (admit_one st at_).1 = merkle st.
Proof. unfold admit_one. destruct (rate_limiter st) as [l|]; [|done]. by destruct (try_consume l at_). Qed.
Lemma admit_n_store st at_ n : inner (admit_n st at_ n).1 = inner st /\ merkle (admit_n st at_ n).1 = merkle st.
Proof. unfold admit_n. destruct (rate_limiter st) as [l|]; [|done]. by destruct (try_consume_n l at_ n). Qed.

(** With the lock poisoned nothing gets through: what does not panic was refused before the lock, or is an empty batch. *)
Lemma exec_poisoned g rq :
  poisoned g = true ->
  let '(g', r) := exec g rq in
  poisoned g' = true /\ same_store g g' /\ (sth_alive g' = true -> sth_alive g = true) /\
  (r = Succeeded -> exists at_ now, rq = RqBatch at_ now []) /\
  (forall now, rq = RqTick now -> sth_alive g' = false).
Proof.
  intros Hp. destruct rq as [at_ now key data|at_ now entries|now|now|fresh w|]; cbn [exec].
  - unfold guarded_append. destruct (admit_one_store (shared g) at_) as [Ei Em].
    destruct (admit_one (shared g) at_) as [st ok]. destruct ok; [unfold append_locked; cbn [poisoned with_shared]; rewrite Hp|]; done.
  - unfold guarded_batch. destruct (Z.eqb_spec (len entries) 0) as [E0|E0].
    { apply len_zero in E0 as ->. do 3 (split; [done|]). split; [eauto|done]. }
    destruct (MAX_BATCH <? len entries); [done|].
    destruct (admit_n_store (shared g) at_ (wrap_u32 (len entries))) as [Ei Em].
    destruct (admit_n (shared g) at_ _) as [st ok]. destruct ok; [unfold batch_locked; cbn [poisoned with_shared]; rewrite Hp|]; done.
  - unfold guarded_tick, guarded_sign. rewrite Hp. destruct (sth_alive g) eqn:Ea; [done|].
    cbn. rewrite Ea, Hp. done.
  - unfold guarded_sign. rewrite Hp. done.
  - unfold guarded_rotate. rewrite Hp. done.
  - unfold guarded_stats. rewrite Hp. done.
Qed.

Lemma exec_all_poisoned g rqs :
  poisoned g = true -> Forall (fun rq => forall at_ now, rq <> RqBatch at_ now []) rqs ->
  let '(g', rs) := exec_all g rqs in
  poisoned g' = true /\ same_store g g' /\ Succeeded ∉ rs /\
  ((exists now, RqTick now ∈ rqs) \/ sth_alive g = false -> sth_alive g' = false).
Proof.
  revert g. induction rqs as [|rq rqs IH]; intros g Hp Hf; cbn [exec_all].
  { split; [done|]. split; [done|]. split; [by intros ?%elem_of_nil|]. intros [[now Hin]|?]; [by apply elem_of_nil in Hin|done]. }
  apply Forall_cons in Hf as [Hrq Hf]. pose proof (exec_poisoned g rq Hp) as He.
  destruct (exec g rq) as [g1 r]. destruct He as (Hp1 & [Ei Em] & Ha & Hs & Ht).
  specialize (IH g1 Hp1 Hf). destruct (exec_all g1 rqs) as [g2 rs]. destruct IH as (Hp2 & [Ei2 Em2] & Hs2 & Ht2).
  split; [done|]. split; [split; congruence|]. split.
  - rewrite not_elem_of_cons. split; [|done]. intros <-. destruct (Hs eq_refl) as (a & n & ->). by eapply Hrq.
  - intros [[now [<-|Hin]%elem_of_cons]|Ea]; apply Ht2; [right; by eapply Ht|left; eauto|right].
    destruct (sth_alive g1) eqn:E1; [|done]. rewrite Ha in Ea; done.
Qed.

Lemma clock_panics s now key data : now < 0 -> append s now key data = Panic.
Proof. intros Hn. unfold append, unix_nanos. cbn. by rewrite (proj2 (Z.ltb_lt now 0)). Qed.

(** How many entries a request appends and how many key versions it takes. *)
Definition entries_in (rq : request) : Z :=
  match rq with RqAppend _ _ _ _ => 1 | RqBatch _ _ entries => len entries | _ => 0 end.
Definition rotations_in (rq : request) : Z := match rq with RqRotate _ _ => 1 | _ => 0 end.
(** How many entries it has appended, by its reply. *)
Definition accepted (rq : request) (r : reply) : Z :=
  match r with Succeeded => entries_in rq | _ => 0 end.

(** The clock is after 1970 and the byte vectors have a [u64] length. *)
Definition timely (rq : request) : Prop :=
  match rq with
  | RqAppend _ now key data => 0 <= now /\ pair_ok (key, data)
  | RqBatch _ now entries => 0 <= now /\ Forall pair_ok entries
  | RqTick now | RqForce now => 0 <= now
  | RqRotate _ _ | RqStats => True
  end.

(** The counters have room for [n] entries and [v] rotations. *)
Definition room (g : guarded) (n v : Z) : Prop :=
  next_seq (inner (shared g)) + n < two64 /\
  0 <= sig_version (signer (shared g)) /\ sig_version (signer (shared g)) + v < two32.

(** A server in order: the lock is not poisoned, the signing task lives and the invariant holds. *)
Record in_order (g : guarded) (es : list LogEntry.t) (hs : list SignedTreeHead.t) (ks : list KeyRecord.t) : Prop := {
  ord_lock : poisoned g = false;
  ord_task : sth_alive g = true;
  ord_server : server_ok (shared g) es hs;
  ord_keys : keys_rep (inner (shared g)) ks
}.

Lemma guarded_batch_plain g at_ now entries :
  poisoned g = false ->
  match rpc_batch_append (shared g) at_ now entries with
  | Ret (st, r) => guarded_batch g at_ now entries = (with_shared g st, Some r)
  | _ => (guarded_batch g at_ now entries).2 = None
  end.
Proof.
  intros Hp. unfold rpc_batch_append, guarded_batch, batch_commit, batch_locked. cbn [shared with_shared poisoned].
  rewrite Hp. destruct (len entries =? 0); [by destruct g|]. destruct (MAX_BATCH <? len entries); [by destruct g|].
  destruct (admit_n (shared g) at_ _) as [st ok]. destruct ok; [|done]. cbn [shared with_shared].
  destruct (append_batch (inner st) now entries) as [[s [results|e]]| |]; cbn [obind]; try done.
  destruct (MerkleTree.append_all _ _) as [m| |]; cbn [obind]; try done. by destruct (index results 0).
Qed.

(** What the requests leave alone: the key history and the signer, unless the key is rotated, and the counter but for
    the numbers they take. *)
Definition kept (st st' : AppState) (n : Z) : Prop :=
  signer st' = signer st /\ contents (db (inner st')) CF_KEYS = contents (db (inner st)) CF_KEYS /\
  next_seq (inner st') <= next_seq (inner st) + n.

Lemma kept_same st st' n : inner st' = inner st -> signer st' = signer st -> 0 <= n -> kept st st' n.
Proof. intros Ei Es Hn. split; [done|]. rewrite Ei. split; [done|]. lia. Qed.

Lemma admit_one_signer st at_ : signer (admit_one st at_).1 = signer st.
Proof. unfold admit_one. destruct (rate_limiter st) as [l|]; [|done]. by destruct (try_consume l at_). Qed.
Lemma admit_n_signer st at_ n : signer (admit_n st at_ n).1 = signer st.
Proof. unfold admit_n. destruct (rate_limiter st) as [l|]; [|done]. by destruct (try_consume_n l at_ n). Qed.
Lemma send_all_signer st l : signer (foldl send st l) = signer st.
Proof. revert st. induction l as [|e l IH]; intros st; [done|]. apply (IH (send st e)). Qed.

Lemma rpc_append_kept st es hs at_ now key data st' r :
  server_ok st es hs -> next_seq (inner st) + 1 < two64 -> 0 <= now -> pair_ok (key, data) ->
  rpc_append st at_ now key data = Ret (st', r) -> kept st st' 1.
Proof.
  intros Hok Hroom Hnow Hp. unfold rpc_append. destruct (admit_one_frame st at_ es hs Hok) as (Hok1 & Ei & _).
  pose proof (admit_one_signer st at_) as Es.
  destruct (admit_one st at_) as [st1 ok]. cbn [fst] in *. destruct ok; [|intros [= <- _]; by apply kept_same].
  destruct (append_commit_ok st1 es hs now key data Hok1) as (st2 & r2 & E & En & Hc & _); [by rewrite Ei|done|done|].
  destruct (append_commit_frame _ _ _ _ _ _ E) as [Es2 _]. rewrite Ei in En, Hc.
  rewrite E. cbn [obind]. destruct r2 as [[n ts]|s]; intros [= <- _];
    (split; [cbn; by rewrite Es2|]); (split; [by apply Hc|]); cbn; lia.
Qed.

Lemma rpc_batch_kept st es hs at_ now pairs st' r :
  server_ok st es hs -> next_seq (inner st) + len pairs < two64 -> 0 <= now -> Forall pair_ok pairs ->
  rpc_batch_append st at_ now pairs = Ret (st', r) -> kept st st' (len pairs).
Proof.
  intros Hok Hroom Hnow Hp. pose proof (len_nonneg pairs). unfold rpc_batch_append.
  destruct (len pairs =? 0); [intros [= <- _]; by apply kept_same|].
  destruct (MAX_BATCH <? len pairs); [intros [= <- _]; by apply kept_same|].
  destruct (admit_n_frame st at_ (wrap_u32 (len pairs)) es hs Hok) as (Hok1 & Ei & _).
  pose proof (admit_n_signer st at_ (wrap_u32 (len pairs))) as Es.
  destruct (admit_n st at_ _) as [st1 ok]. cbn [fst] in *. destruct ok; [|intros [= <- _]; by apply kept_same].
  destruct (batch_commit_ok st1 es hs now pairs Hok1) as (st2 & r2 & E & En & Hc & _); [by rewrite Ei|done|done|].
  destruct (batch_commit_frame _ _ _ _ _ E) as [Es2 _]. rewrite Ei in En, Hc.
  rewrite E. cbn [obind]. destruct r2 as [l|s].
  - destruct (index l 0); [|done..]. cbn [obind]. intros [= <- _].
    set (st3 := foldl send st2 _). destruct (send_all_frame st2 (zip_with batch_entry pairs l)) as [_ Ei3].
    pose proof (send_all_signer st2 (zip_with batch_entry pairs l)) as Es3. fold st3 in Ei3, Es3.
    split; [congruence|]. rewrite Ei3. split; [by apply Hc|lia].
  - intros [= <- _]. split; [congruence|]. split; [by apply Hc|lia].
Qed.

Lemma sign_kept st now st' r : sign_and_store st now = Ret (st', r) -> kept st st' 0.
Proof.
  unfold sign_and_store. intros E. unret E. destruct a as [n root]. destruct (n =? 0); [injection E as <- _; by apply kept_same|].
  destruct (up_to_date st n) as [[]|e]; [injection E as <- _; by apply kept_same| |injection E as <- _; by apply kept_same].
  unret E. unret E. destruct (head_write _ _) as [s w] eqn:Ew. injection E as <- _.
  apply head_write_frame in Ew as [En Hc]. split; [done|]. split; [by apply Hc|cbn; lia].
Qed.

Lemma in_order_next g st es hs ks n :
  in_order g es hs ks -> kept (shared g) st n -> forall es' hs', server_ok st es' hs' ->
  in_order (with_shared g st) es' hs' ks.
Proof.
  intros [Hp Ha _ Hk] (_ & Hc & _) es' hs' Hok. split; [done|done|done|]. by eapply keys_rep_frame.
Qed.

Lemma kept_room g st n v a b :
  kept (shared g) st n -> room g (n + a) (v + b) -> 0 <= v -> room (with_shared g st) a b.
Proof. intros (Es & _ & En) (Hn & Hv & Hw) Hv0. split; [cbn; lia|]. cbn. rewrite Es. lia. Qed.

Lemma rotate_next st fresh w st' r : rotate_key st fresh w = Ret (st', r) -> next_seq (inner st') = next_seq (inner st).
Proof.
  unfold rotate_key. intros E. unret E. destruct (rotate _ _ _ _) as [[sg file] o].
  destruct o as [pk|]; [|by injection E as <- _].
  destruct (key_put _ _) as [s x] eqn:Ek. apply key_put_frame in Ek as [En _]. cbn [inner set_signer] in En.
  destruct x; injection E as <- _; exact En.
Qed.

(** Signing covers the log, if it succeeds. *)
Lemma guarded_sign_ok g es hs ks now n v :
  in_order g es hs ks -> room g n v -> 0 <= now -> 0 <= v ->
  exists st r hs', guarded_sign g now = (with_shared g st, Some r) /\ guarded_tick g now = (with_shared g st, Some r) /\
    in_order (with_shared g st) es hs' ks /\ room (with_shared g st) n v /\
    match r with
    | Ok _ => es = [] \/ exists h, find_id SignedTreeHead.tree_size (len es) hs' = Some h
    | Err e => external_error e
    end.
Proof.
  intros Hord Hroom Hnow Hv. pose proof Hord as [Hp Ha Hok Hk].
  destruct (sign_and_store_spec _ es hs now Hok) as (st & r & hs' & E & Hok' & _ & Hr); [unfold in_u32; destruct Hroom; lia|done|].
  destruct (snapshot_ok _ es hs Hok) as (root & Es & _).
  assert (Eg : guarded_sign g now = (with_shared g st, Some r)) by (unfold guarded_sign; by rewrite Hp, Es, E).
  pose proof (sign_kept _ _ _ _ E) as Hkept. exists st, r, hs'. split; [done|].
  split; [unfold guarded_tick; by rewrite Ha, Eg|]. split; [by eapply in_order_next|].
  split; [eapply (kept_room g st 0 0); [done|by rewrite !Z.add_0_l|lia]|]. destruct r; naive_solver.
Qed.

Lemma len_batch first ts pairs : len (batch_entries first ts pairs) = len pairs.
Proof. unfold len. by rewrite length_batch_entries. Qed.

Lemma rotate_harmless g es hs ks fresh w n v :
  in_order g es hs ks -> room g n (1 + v) -> 0 <= v ->
  exists st r ks', guarded_rotate g fresh w = (with_shared g st, Some r) /\
    in_order (with_shared g st) es hs ks' /\ room (with_shared g st) n v.
Proof.
  intros [Hp Ha Hok Hk] (Hrn & Hr0 & Hr1) Hv.
  destruct (rotate_key_ok (shared g) es hs ks fresh w Hok Hk) as (st & r & E & Hok' & Hr); [unfold in_u32; lia|lia|].
  pose proof (rotate_next _ _ _ _ _ E) as En. unfold guarded_rotate. rewrite Hp, E. cbn zeta in Hr. exists st, r.
  assert (Hs : signer st = signer (shared g) \/ signer st = mkSigner fresh (sig_version (signer (shared g)) + 1))
    by (destruct r, w; naive_solver).
  assert (Hks : exists ks', keys_rep (inner st) ks') by (destruct r; naive_solver).
  destruct Hks as [ks' Hk']. exists ks'. split; [done|]. split; [by split|].
  split; [cbn; lia|]. cbn. destruct Hs as [-> | ->]; cbn; lia.
Qed.

(** A timely request with room in the counters does not panic: it is answered, the server stays in order, and the log has
    grown by the entries the reply accepts. *)
Lemma exec_harmless g es hs ks rq n v :
  in_order g es hs ks -> timely rq -> room g (entries_in rq + n) (rotations_in rq + v) -> 0 <= n -> 0 <= v ->
  exists g' r es' hs' ks', exec g rq = (g', r) /\ r <> Panicked /\ in_order g' (es ++ es') hs' ks' /\
    room g' n v /\ len es' = accepted rq r.
Proof.
  intros Hord Ht Hroom Hn Hv. pose proof Hord as [Hp Ha Hok Hk].
  destruct rq as [at_ now key data|at_ now entries|now|now|fresh w|]; cbn [exec timely entries_in rotations_in accepted] in *.
  - destruct Ht as [Hnow Hpo]. assert (Hr1 : next_seq (inner (shared g)) + 1 < two64) by (destruct Hroom; lia).
    destruct (append_rpc_spec _ es hs at_ now key data Hok Hr1 Hnow Hpo) as (st & r & E & Hr).
    pose proof (guarded_append_plain g at_ now key data Hp) as Hg. rewrite E in Hg. rewrite Hg.
    pose proof (rpc_append_kept _ _ _ _ _ _ _ _ _ Hok Hr1 Hnow Hpo E) as Hkept. cbn zeta in Hr.
    exists (with_shared g st), (reply_of (Some r)). destruct r as [resp|s].
    + exists [new_entry (next_seq (inner (shared g))) (wrap_i64 now) key data], hs, ks. split; [done|]. split; [done|].
      split; [eapply in_order_next; [done|done|apply Hr]|]. split; [by eapply (kept_room g st 1 0)|done].
    + exists [], hs, ks. rewrite app_nil_r. split; [done|]. split; [done|].
      split; [eapply in_order_next; [done|done|apply Hr]|]. split; [by eapply (kept_room g st 1 0)|done].
  - destruct Ht as [Hnow Hpo]. assert (Hr1 : next_seq (inner (shared g)) + len entries < two64) by (destruct Hroom; lia).
    destruct (batch_rpc_spec _ es hs at_ now entries Hok Hr1 Hnow Hpo) as (st & r & E & Hr).
    pose proof (guarded_batch_plain g at_ now entries Hp) as Hg. rewrite E in Hg. rewrite Hg.
    pose proof (rpc_batch_kept _ _ _ _ _ _ _ _ Hok Hr1 Hnow Hpo E) as Hkept. cbn zeta in Hr.
    exists (with_shared g st), (reply_of (Some r)). destruct r as [resp|s].
    + exists (batch_entries (next_seq (inner (shared g))) (wrap_i64 now) entries), hs, ks. split; [done|]. split; [done|].
      split; [eapply in_order_next; [done|done|apply Hr]|]. split; [by eapply (kept_room g st (len entries) 0)|apply len_batch].
    + exists [], hs, ks. rewrite app_nil_r. split; [done|]. split; [done|].
      split; [eapply in_order_next; [done|done|apply Hr]|]. split; [by eapply (kept_room g st (len entries) 0)|done].
  - rewrite Z.add_0_l in Hroom.
    destruct (guarded_sign_ok g es hs ks now n v Hord Hroom Ht Hv) as (st & r & hs' & _ & E & Hord' & Hroom' & _). rewrite E.
    exists (with_shared g st), (reply_of (Some r)), [], hs', ks. rewrite app_nil_r.
    split; [done|]. split; [by destruct r|]. split; [done|]. split; [done|by destruct r].
  - rewrite Z.add_0_l in Hroom.
    destruct (guarded_sign_ok g es hs ks now n v Hord Hroom Ht Hv) as (st & r & hs' & E & _ & Hord' & Hroom' & _). rewrite E.
    exists (with_shared g st), (reply_of (Some r)), [], hs', ks. rewrite app_nil_r.
    split; [done|]. split; [by destruct r|]. split; [done|]. split; [done|by destruct r].
  - destruct (rotate_harmless g es hs ks fresh w n v Hord) as (st & r & ks' & E & Hord' & Hroom'); [by rewrite Z.add_0_l in Hroom|done|].
    rewrite E. exists (with_shared g st), (reply_of (Some r)), [], hs, ks'. rewrite app_nil_r.
    split; [done|]. split; [by destruct r|]. split; [done|]. split; [done|by destruct r].
  - unfold guarded_stats. rewrite Hp. exists g, (reply_of (Some (stats (shared g)))), [], hs, ks. rewrite app_nil_r.
    split; [done|]. split; [by destruct (stats (shared g))|]. split; [done|]. split; [by rewrite !Z.add_0_l in Hroom|].
    by destruct (stats (shared g)).
Qed.

Definition entries_all (rqs : list request) : Z := foldr (fun rq n => entries_in rq + n) 0 rqs.
Definition rotations_all (rqs : list request) : Z := foldr (fun rq n => rotations_in rq + n) 0 rqs.
Definition accepted_all (rqs : list request) (rs : list reply) : Z := foldr Z.add 0 (zip_with accepted rqs rs).

Lemma entries_all_nonneg rqs : 0 <= entries_all rqs.
Proof.
  unfold entries_all. induction rqs as [|[] rqs IH]; cbn; try lia.
  match goal with |- context [len ?l] => pose proof (len_nonneg l) end. lia.
Qed.
Lemma rotations_all_nonneg rqs : 0 <= rotations_all rqs.
Proof. unfold rotations_all. induction rqs as [|[] rqs IH]; cbn; lia. Qed.

Lemma exec_all_harmless rqs : forall g es hs ks n v,
  in_order g es hs ks -> Forall timely rqs -> room g (entries_all rqs + n) (rotations_all rqs + v) -> 0 <= n -> 0 <= v ->
  exists g' rs es' hs' ks', exec_all g rqs = (g', rs) /\ Panicked ∉ rs /\ in_order g' (es ++ es') hs' ks' /\
    room g' n v /\ length rs = length rqs /\ len es' = accepted_all rqs rs.
Proof.
  induction rqs as [|rq rqs IH]; intros g es hs ks n v Hord Ht Hroom Hn Hv; cbn [exec_all].
  { exists g, [], [], hs, ks. rewrite app_nil_r. split; [done|]. split; [by intros ?%elem_of_nil|].
    split; [done|]. split; [by rewrite !Z.add_0_l in Hroom|]. done. }
  apply Forall_cons in Ht as [Ht1 Ht]. cbn [entries_all rotations_all foldr] in Hroom.
  fold (entries_all rqs) in Hroom. fold (rotations_all rqs) in Hroom. rewrite <- !Z.add_assoc in Hroom.
  pose proof (entries_all_nonneg rqs). pose proof (rotations_all_nonneg rqs).
  destruct (exec_harmless g es hs ks rq _ _ Hord Ht1 Hroom) as (g1 & r & es1 & hs1 & ks1 & E & Hr & Hord1 & Hroom1 & El1); [lia..|].
  destruct (IH g1 _ hs1 ks1 n v Hord1 Ht Hroom1 Hn Hv) as (g2 & rs & es2 & hs2 & ks2 & E2 & Hrs & Hord2 & Hroom2 & Elr & El2).
  rewrite E, E2. exists g2, (r :: rs), (es1 ++ es2), hs2, ks2. rewrite app_assoc. split; [done|].
  split; [by apply not_elem_of_cons|]. split; [done|]. split; [done|]. split; [cbn; by rewrite Elr|].
  rewrite len_app, El1, El2. done.
Qed.

(** C23: one append while the clock is before 1970 stops the server until it is restarted.  The request
    panics with the lock held, after taking a number and before writing; the log, the heads and the tree are untouched.  From then
    on no append, batch, signing run, forced head, rotation or statistics request succeeds, whatever the clock shows,
    nothing stored changes, and the signing task is gone after its next
    wake-up.  A restart from the database gives back a server with the same log, and no number is lost. *)
Theorem clock_panic_stops_server (g : guarded) (es : list LogEntry.t) (hs : list SignedTreeHead.t)
    (at_ now : Z) (key data : bytes) (Hok : server_ok (shared g) es hs) (Hg : gap_free (inner (shared g)) es)
    (Hroom : next_seq (inner (shared g)) + 1 < two64)
    (Hp : poisoned g = false) (Hadm : (admit_one (shared g) at_).2 = true) (Hnow : now < 0) :
  exists g', guarded_append g at_ now key data = (g', None) /\
    server_ok (shared g') es hs /\ next_seq (inner (shared g')) = len es + 1 /\
    (forall rqs, Forall (fun rq => forall at_ now, rq <> RqBatch at_ now []) rqs ->
       let '(g'', rs) := exec_all g' rqs in
       server_ok (shared g'') es hs /\ inner (shared g'') = inner (shared g') /\ Succeeded ∉ rs /\
       ((exists now, RqTick now ∈ rqs) -> sth_alive g'' = false)) /\
    (forall cfg ks dir_ok file read_ok fresh w start st, keys_rep (inner (shared g')) ks ->
       build cfg dir_ok (Ok (db (inner (shared g')))) file read_ok fresh w start = Ret (Ok st) ->
       server_ok st es hs /\ gap_free (inner st) es).
Proof.
  destruct (admit_one_frame (shared g) at_ es hs Hok) as (Hok1 & Ei & _).
  unfold guarded_append. destruct (admit_one (shared g) at_) as [st ok]. cbn [fst snd] in *. subst ok.
  unfold append_locked. cbn [poisoned with_shared]. rewrite Hp, clock_panics by done. eexists. split; [done|].
  cbn [shared poison with_shared]. set (st1 := set_inner st _).
  destruct Hg as [Hg1 Hg2]. pose proof (len_nonneg es) as Hnn.
  assert (En : next_seq (inner st1) = len es + 1).
  { cbn. rewrite Ei, Hg2. apply Z.mod_small. lia. }
  assert (Hst1 : server_ok st1 es hs).
  { destruct Hok1 as [[Hl Hi Hb Hn] Hh Hm Hro]. split; [|done..]. split; [done|done| |].
    - eapply Forall_impl; [exact Hb|]. intros e. rewrite En, Ei, Hg2. lia.
    - rewrite En. unfold in_u64. lia. }
  split; [done|]. split; [done|]. split.
  - intros rqs Hf. pose proof (exec_all_poisoned (poison (with_shared g st) st1) rqs eq_refl Hf) as He.
    destruct (exec_all _ rqs) as [g2 rs]. destruct He as (_ & [Ei2 Em2] & Hs & Ht).
    split; [by eapply server_ok_frame|]. split; [done|]. split; [done|]. intros Hin. apply Ht. by left.
  - intros cfg ks dir_ok file read_ok fresh w start st' Hk Hb.
    destruct (startup_spec cfg (inner st1) es hs ks dir_ok file read_ok fresh w start
      (ok_db _ _ _ Hst1) (ok_heads _ _ _ Hst1) (ok_roots _ _ _ Hst1) Hk) as (r & E & Hr).
    rewrite Hb in E. injection E as <-. destruct Hr as (Hsv & _ & _ & Hgap & _). by split; [|apply Hgap].
Qed.
End PoisonTheorems.
