(* ===== verification/KeyHistory.v ===== *)
(** * The key history as a chain of trust

    A client that trusts the key history checks a head with
    [verify_tree_head_with_chain]: the record of the head's key version names the
    key.  This file follows the signer and the history along the
    interleavings of [Concurrent]: which runs keep every stored head
    checkable by the history, and what a crash inside a rotation does to it. *)

From stdpp Require Import relations.
From S2P Require Import SdkVerifier.
From S2P Require Import Prelude Bytes Hash MerkleSpec Merkle MerkleProof Sth Rocksdb StorageTypes.
From S2P Require Import Db LogStore LogTheorems Table HeadStore KeyStore ServerState Service.
From S2P Require Import ServerInv Concurrent ServiceTheorems Admin.

(** A record above all others goes to the end. *)
Lemma upsert_above {A} (ident : A -> Z) a l :
  Forall (fun b => ident b < ident a) l -> upsert ident a l = l ++ [a].
Proof.
  induction 1 as [|b l Hb Hl IH]; [done|]. cbn.
  rewrite (proj2 (Z.ltb_ge _ _)), (proj2 (Z.ltb_lt _ _)) by lia. by rewrite IH.
Qed.

Lemma sole_lookup {A} (l : list A) i x :
  (length l <= 1)%nat -> l !! i = Some x -> l = [x] /\ i = 0%nat.
Proof.
  intros Hl Hi. destruct l as [|y [|z l]]; [done| |cbn in Hl; lia].
  destruct i as [|i]; [|done]. by injection Hi as ->.
Qed.

Section History.
Context `{Sha256} {R : Rocksdb} {P : Prost} {RL : RocksdbLaws} {PL : ProstLaws}.
Context {D : ErrorDisplay} `{Ed25519} `{RateLimit} `{Profile}.
Abbreviation size := SignedTreeHead.tree_size.
Abbreviation version := KeyRecord.version.

(** ** Orderly runs

    One rotation at a time; none of them swaps the key while a head has its
    signature but not yet its version; the record of the new key is written; and the
    version counter does not wrap. *)

Definition mid_head (t : sign_task) : Prop :=
  match t with TSigned _ _ _ _ | TKeyed _ _ _ _ _ => True | _ => False end.

Record orderly (s s' : sys) : Prop := {
  one_rotation : (length (rotating s') <= 1)%nat;
  swap_between_heads :
    signer (app s') = signer (app s) \/ Forall (fun t => ~ mid_head t) (signing s);
  put_succeeds : forall record, rotating s = [RSwapped record] -> rotating s' = [] ->
    exists d, key_put (inner (app s)) record = (d, Ok tt);
  no_wrap : sig_version (signer (app s)) + 1 < two32
}.
Definition orderly_step (faults : bool) (s s' : sys) : Prop := step false faults s s' /\ orderly s s'.

(** ** The invariant *)

(** The records say that [pk] is the key of version [v]. *)
Definition known (records : list KeyRecord.t) (v : Z) (pk : array 32) : Prop :=
  exists r, r ∈ records /\ version r = v /\ KeyRecord.public_key r = pk.

(** The record of a key that is in use but not yet in the history. *)
Definition pending (s : sys) : list KeyRecord.t :=
  omap (fun t => match t with RSwapped r => Some r | _ => None end) (rotating s).

Definition head_known (records : list KeyRecord.t) (h : SignedTreeHead.t) : Prop :=
  known records (SignedTreeHead.key_version h) (SignedTreeHead.public_key h).

Definition task_known (records : list KeyRecord.t) (pk : array 32) (t : sign_task) : Prop :=
  match t with
  | TKeyed _ _ _ _ pk' => pk' = pk
  | TReady h => head_known records h
  | _ => True
  end.

(** Where the rotation under way, if any, has brought the signer. *)
Definition rotation_at (sg : LocalSigner) (ks : list KeyRecord.t) (l : list rotate_task) : Prop :=
  match l with
  | [] => known ks (sig_version sg) (public_key sg)
  | [RSize a] => in_u64 a /\ known ks (sig_version sg) (public_key sg)
  | [RVersion a v] => in_u64 a /\ v = sig_version sg + 1 /\ known ks (sig_version sg) (public_key sg)
  | [RSwapped r] => key_wf r /\ version r = sig_version sg /\ KeyRecord.public_key r = public_key sg /\
      Forall (fun r' => version r' < version r) ks
  | _ => False
  end.

Record history_ok (s : sys) (ks : list KeyRecord.t) : Prop := {
  hist_rep : keys_rep (inner (app s)) ks;
  hist_below : Forall (fun r => version r <= sig_version (signer (app s))) ks;
  hist_rotation : rotation_at (signer (app s)) ks (rotating s);
  hist_tasks : Forall (task_known (ks ++ pending s) (public_key (signer (app s)))) (signing s)
}.

Lemma known_mono rs rs' v pk : rs ⊆ rs' -> known rs v pk -> known rs' v pk.
Proof. intros Hs (r & Hr & E). exists r. split; [by apply Hs|done]. Qed.

Lemma rotation_sole sg ks l : rotation_at sg ks l -> (length l <= 1)%nat.
Proof. destruct l as [|[] [|]]; cbn; (lia || done). Qed.

(** The signer's key is always known. *)
Lemma signer_known s ks : history_ok s ks ->
  known (ks ++ pending s) (sig_version (signer (app s))) (public_key (signer (app s))).
Proof.
  intros [_ _ Hro _]. unfold pending.
  destruct (rotating s) as [|[a|a v|r] [|]]; cbn in Hro |- *; try done.
  - by rewrite app_nil_r.
  - rewrite app_nil_r. apply Hro.
  - rewrite app_nil_r. apply Hro.
  - destruct Hro as (_ & Ev & Ep & _). exists r. split; [set_solver|done].
Qed.

(** A step that changes neither signer, history nor rotations. *)
Lemma history_frame s s' ks :
  history_ok s ks -> signer (app s') = signer (app s) ->
  contents (db (inner (app s'))) CF_KEYS = contents (db (inner (app s))) CF_KEYS ->
  rotating s' = rotating s ->
  Forall (task_known (ks ++ pending s) (public_key (signer (app s)))) (signing s') ->
  history_ok s' ks.
Proof.
  intros [Hr Hb Hro Ht] Es Ec Er Ht'. split; rewrite ?Es, ?Er; try done.
  - by eapply keys_rep_frame.
  - unfold pending in *. by rewrite Er.
Qed.

(** ** Orderly steps preserve it *)

(** Only the last action of a rotation writes to the history. *)
Lemma step_keys race faults s s' es hs :
  sys_ok faults s es hs -> step race faults s s' ->
  contents (db (inner (app s'))) CF_KEYS = contents (db (inner (app s))) CF_KEYS \/
  exists i record d r, rotating s !! i = Some (RSwapped record) /\
    key_put (inner (app s)) record = (d, r) /\
    s' = with_rotating (with_app s (set_inner (app s) d)) (delete i (rotating s)).
Proof.
  intros Hok Hstep. inversion Hstep; subst; clear Hstep; cbn; try (by left); try (by right; eauto 10); left.
  - destruct (append_commit_ok (app s) es hs now key data) as (a' & r' & E & _ & Hc & _);
      [apply Hok|done..|]. assert (a' = a) as -> by congruence. by apply Hc.
  - destruct (batch_commit_ok (app s) es hs now pairs) as (a' & r' & E & _ & Hc & _);
      [apply Hok|done..|]. assert (a' = a) as -> by congruence. by apply Hc.
  - match goal with E : head_write _ _ = _ |- _ => apply head_write_frame in E as [_ Hc] end. by apply Hc.
Qed.

(** The four actions of a rotation. *)
Lemma size_history faults s es hs ks :
  sys_ok faults s es hs -> history_ok s ks ->
  orderly s (with_rotating s (rotating s ++ [RSize (MerkleTree.size (merkle (app s)))])) ->
  history_ok (with_rotating s (rotating s ++ [RSize (MerkleTree.size (merkle (app s)))])) ks.
Proof.
  intros Hok [Hr Hb Hro Ht] [Hone _ _ _]. cbn in Hone. rewrite length_app in Hone. cbn in Hone.
  destruct (rotating s) as [|t l] eqn:El; [|cbn in Hone; lia].
  split; cbn; try done.
  - split; [|done]. destruct Hok as [[Hdb _ Hm _] _ _ _ _].
    rewrite (represents_size _ _ Hm), len_leaves. pose proof (len_le_next _ _ Hdb).
    pose proof (len_nonneg es). destruct Hdb as [_ _ _ Hn]. unfold in_u64 in *. lia.
  - unfold pending in Ht. by rewrite El in Ht.
Qed.

Lemma version_history s ks i a v :
  history_ok s ks -> rotating s !! i = Some (RSize a) ->
  u32_add (key_version (signer (app s))) 1 = Ret v ->
  0 <= sig_version (signer (app s)) -> sig_version (signer (app s)) + 1 < two32 ->
  history_ok (with_rotating s (<[i := RVersion a v]> (rotating s))) ks.
Proof.
  intros [Hr Hb Hro Ht] Hi Hv Hge Hw.
  destruct (sole_lookup _ _ _ (rotation_sole _ _ _ Hro) Hi) as [El ->].
  unfold key_version in Hv. rewrite u32_add_in in Hv by (unfold in_u32; lia). injection Hv as <-.
  split; cbn; rewrite ?El in *; try done.
  - destruct Hro as [Ha Hro]. cbn. auto.
  - unfold pending in *. by rewrite El in Ht.
Qed.

Lemma swap_history s ks i a v fresh w sg file pk s' :
  history_ok s ks -> rotating s !! i = Some (RVersion a v) -> in_u32 v ->
  rotate (signer (app s)) v fresh w = (sg, file, pk) ->
  s' = with_rotating (with_app s (set_signer (app s) sg file))
         (match pk with
          | Some pk => <[i := RSwapped (KeyRecord.mk v pk a)]> (rotating s)
          | None => delete i (rotating s)
          end) ->
  orderly s s' ->
  history_ok s' ks /\ pending s ⊆ pending s'.
Proof.
  intros [Hr Hb Hro Ht] Hi Hv Hrot -> [_ Hswap _ _].
  destruct (sole_lookup _ _ _ (rotation_sole _ _ _ Hro) Hi) as [El ->].
  unfold pending in *. rewrite El in *. cbn in Hro, Ht. destruct Hro as (Ha & -> & Hk).
  unfold rotate in Hrot. destruct w as [|l]; injection Hrot as <- <- <-.
  2:{ split; [|done]. by split. }
  cbn in Hswap. destruct Hswap as [E|Hnone].
  { exfalso. apply (f_equal sig_version) in E. cbn in E. lia. }
  split; [|by intros ? ?%elem_of_nil]. split; cbn.
  - done.
  - eapply Forall_impl; [exact Hb|]. cbn. lia.
  - split; [by split|]. split; [done|]. split; [done|]. eapply Forall_impl; [exact Hb|]. cbn. lia.
  - eapply Forall_impl; [apply Forall_and; split; [exact Hnone|exact Ht]|].
    intros [| | | |h] [Hm Hh]; try done. cbn in *.
    eapply known_mono; [|exact Hh]. set_solver.
Qed.

Lemma put_history s ks i record d r :
  history_ok s ks -> rotating s !! i = Some (RSwapped record) ->
  key_put (inner (app s)) record = (d, r) ->
  orderly s (with_rotating (with_app s (set_inner (app s) d)) (delete i (rotating s))) ->
  history_ok (with_rotating (with_app s (set_inner (app s) d)) (delete i (rotating s))) (ks ++ [record]) /\
  pending s = [record].
Proof.
  intros [Hr Hb Hro Ht] Hi Hput [_ _ Hsucc _].
  destruct (sole_lookup _ _ _ (rotation_sole _ _ _ Hro) Hi) as [El ->].
  unfold pending in *. rewrite El in *. cbn in Hro, Ht |- *. destruct Hro as (Hw & Ev & Ep & Hlt).
  destruct (Hsucc record eq_refl eq_refl) as [d' E]. rewrite Hput in E. injection E as <- ->.
  destruct (key_put_ok (inner (app s)) ks record Hr Hw) as (d' & r & E & Hr'). rewrite Hput in E.
  injection E as <- <-. rewrite upsert_above in Hr' by done.
  split; [|done]. split; cbn.
  - done.
  - apply Forall_app. split; [done|]. constructor; [lia|constructor].
  - exists record. split; [set_solver|done].
  - by rewrite app_nil_r.
Qed.

(** A step of a signing run: what it knows is still known. *)
Lemma signing_history s ks l :
  history_ok s ks -> Forall (task_known (ks ++ pending s) (public_key (signer (app s)))) l ->
  history_ok (with_signing s l) ks.
Proof. intros Hh Hl. by apply (history_frame s). Qed.

Lemma history_step faults s s' es hs ks :
  sys_ok faults s es hs -> history_ok s ks -> orderly_step faults s s' ->
  exists ks', history_ok s' ks' /\ ks `prefix_of` ks' /\ ks ++ pending s ⊆ ks' ++ pending s'.
Proof.
  intros Hok Hh [Hstep Hord]. pose proof (step_keys _ _ _ _ _ _ Hok Hstep) as Hkeys.
  pose proof (signer_known s ks Hh) as Hsk. pose proof (hist_tasks s ks Hh) as Ht.
  assert (Hsame : pending s' = pending s -> history_ok s' ks ->
    exists ks', history_ok s' ks' /\ ks `prefix_of` ks' /\ ks ++ pending s ⊆ ks' ++ pending s').
  { intros Ep Hh'. exists ks. by rewrite Ep. }
  inversion Hstep; subst; clear Hstep.
  1,2: destruct Hkeys as [Ek|(i & rec & d & r' & Hi & _ & Ed)].
  2,4: apply (f_equal (fun x => length (rotating x))) in Ed; cbn in Ed;
    apply lookup_lt_Some in Hi as Hl; rewrite length_delete in Ed by done; lia.
  - apply Hsame; [done|]. apply (history_frame s); try done.
    match goal with E : append_commit _ _ _ _ = _ |- _ => by apply append_commit_frame in E as [? _] end.
  - apply Hsame; [done|]. apply (history_frame s); try done.
    match goal with E : batch_commit _ _ _ = _ |- _ => by apply batch_commit_frame in E as [? _] end.
  - apply Hsame; [done|]. by apply (history_frame s).
  - apply Hsame; [done|]. apply signing_history; [done|]. apply Forall_app. split; [done|by repeat constructor].
  - apply Hsame; [done|]. apply signing_history; [done|]. by apply Forall_update.
  - apply Hsame; [done|]. apply signing_history; [done|]. by apply Forall_update.
  - apply Hsame; [done|]. apply signing_history; [done|]. by apply Forall_update.
  - apply Hsame; [done|]. apply signing_history; [done|]. apply Forall_update; [done|].
    pose proof (Forall_lookup_1 _ _ _ _ Ht ltac:(eassumption)) as Hpk. cbn in Hpk. by rewrite Hpk.
  - apply Hsame; [done|]. apply (history_frame s); [done|done| |done|by apply Forall_delete].
    match goal with E : head_write _ _ = _ |- _ => apply head_write_frame in E as [_ Hc] end. by apply Hc.
  - apply Hsame; [done|]. apply signing_history; [done|]. by apply Forall_delete.
  - apply Hsame; [|by eapply size_history]. unfold pending. cbn. rewrite omap_app. apply app_nil_r.
  - destruct (sys_version _ _ _ _ Hok) as [Hge _]. pose proof (no_wrap _ _ Hord) as Hw.
    apply Hsame; [|by eapply version_history].
    destruct (sole_lookup (rotating s) i (RSize a)) as [El ->]; [|done|].
    { by eapply rotation_sole, Hh. }
    unfold pending. cbn. by rewrite El.
  - pose proof (Forall_lookup_1 _ _ _ _ (sys_rotations _ _ _ _ Hok) ltac:(eassumption)) as Hv. cbn in Hv.
    edestruct swap_history as [Hh' Hp]; [done|done|done|done|reflexivity|done|].
    exists ks. split; [done|]. split; [done|]. set_solver.
  - edestruct put_history as [Hh' Hp]; [done|done|done|done|].
    exists (ks ++ [rec]). split; [done|]. split; [by eexists|]. rewrite Hp. set_solver.
Qed.

Lemma reach_history faults s0 s es0 hs0 ks0 :
  sys_ok faults s0 es0 hs0 -> history_ok s0 ks0 -> Forall (head_known (ks0 ++ pending s0)) hs0 ->
  Forall (sig_ok (sig_key (signer (app s0)))) (signing s0) -> Forall head_signed hs0 ->
  rtc (orderly_step faults) s0 s ->
  exists es' hs ks, sys_ok faults s (es0 ++ es') hs /\ history_ok s ks /\
    Forall (head_known (ks ++ pending s)) hs /\ Forall head_signed hs /\
    ks0 `prefix_of` ks.
Proof.
  intros Hok Hh Hk Hs Hv Hr. revert es0 hs0 ks0 Hok Hh Hk Hs Hv.
  induction Hr as [s|s s1 s2 Hstep Hr IH]; intros es0 hs0 ks0 Hok Hh Hk Hs Hv.
  { exists [], hs0, ks0. by rewrite app_nil_r. }
  destruct (sys_ok_step _ _ _ _ _ _ Hok (proj1 Hstep)) as (es1 & hs1 & Hok1 & Hg).
  destruct (history_step _ _ _ _ _ _ Hok Hh Hstep) as (ks1 & Hh1 & Hpre & Hsub).
  assert (Hnew : forall Q : SignedTreeHead.t -> Prop, Forall Q hs0 ->
    (forall h, TReady h ∈ signing s -> Q h) -> Forall Q hs1).
  { intros Q HQ Hready. destruct Hg as [->|(h & Hin & ->)]; [done|]. rewrite Forall_forall in HQ |- *.
    intros h' [->|Hh']%upsert_elem; auto. }
  destruct (IH (es0 ++ es1) hs1 ks1) as (es2 & hs2 & ks2 & Hok2 & Hh2 & Hk2 & Hv2 & Hpre2); [done|done| | | |].
  - apply Hnew.
    + eapply Forall_impl; [exact Hk|]. intros h. by apply known_mono.
    + intros h Hin. eapply known_mono; [exact Hsub|]. pose proof (hist_tasks _ _ Hh) as Ht.
      rewrite Forall_forall in Ht. exact (Ht _ Hin).
  - eapply sig_step; [exact (proj1 Hstep)|done].
  - apply Hnew; [done|]. intros h Hin. rewrite Forall_forall in Hs. exact (Hs _ Hin).
  - exists (es1 ++ es2), hs2, ks2. rewrite app_assoc. do 4 (split; [done|]). by etransitivity.
Qed.

(** ** The chain *)

(** The key history as the SDK takes it. *)
Definition sdk_record (r : KeyRecord.t) : SdkVerifier.KeyRecord :=
  SdkVerifier.Build_KeyRecord (version r) (KeyRecord.public_key r) (KeyRecord.activated_at_tree_size r).
Definition chain_accepts (ks : list KeyRecord.t) (h : SignedTreeHead.t) : bool :=
  verify_tree_head_with_chain (size h) (SignedTreeHead.root_hash h) (SignedTreeHead.timestamp_ns h)
    (to_vec (SignedTreeHead.signature h)) (SignedTreeHead.key_version h) (sdk_record <$> ks).

Lemma chain_find ks v :
  find (fun r => SdkVerifier.version r =? v) (sdk_record <$> ks) = sdk_record <$> find_id version v ks.
Proof. induction ks as [|r ks IH]; [done|]. cbn. by destruct (version r =? v). Qed.

Context {EL : Ed25519Laws}.

Lemma chain_accepts_known ks h :
  ident_sorted version ks -> head_signed h -> head_known ks h -> chain_accepts ks h = true.
Proof.
  intros Hs Hv (r & Hr & Ev & Ep). unfold chain_accepts, verify_tree_head_with_chain.
  rewrite chain_find, <- Ev, (find_id_sorted _ _ _ Hs Hr). cbn. rewrite Ep. by apply signed_sdk.
Qed.

(** C9: the key history authenticates every stored head.  Along every interleaving in which rotations
    do not overlap, none swaps the key in the middle of a head, and their records are written, the
    history holds at all times the key of every stored head under the head's version,
    so [verify_tree_head_with_chain] accepts the head with the history as chain; the
    one exception is the window between the swap of a key and its record, for heads signed in it with
    the new key.  No record is ever lost or changed. *)
Theorem chain_verifies (faults : bool) (s0 s : sys) (es0 : list LogEntry.t)
    (hs0 : list SignedTreeHead.t) (ks0 : list KeyRecord.t) (Hok : sys_ok faults s0 es0 hs0)
    (Hidle : signing s0 = [] /\ rotating s0 = []) (Hh : history_ok s0 ks0)
    (Hk : Forall (head_known ks0) hs0) (Hv : Forall head_signed hs0)
    (Hr : rtc (orderly_step faults) s0 s) :
  exists hs ks, heads_rep (inner (app s)) hs /\ keys_rep (inner (app s)) ks /\ ks0 `prefix_of` ks /\
    forall h, h ∈ hs ->
      chain_accepts ks h = true \/
      exists r, rotating s = [RSwapped r] /\ SignedTreeHead.key_version h = version r /\
        SignedTreeHead.public_key h = KeyRecord.public_key r.
Proof.
  destruct Hidle as [Hsig Hrot]. assert (Hp0 : pending s0 = []) by (unfold pending; by rewrite Hrot).
  destruct (reach_history faults s0 s es0 hs0 ks0) as (es' & hs & ks & Hok' & Hh' & Hk' & Hv' & Hpre);
    rewrite ?Hp0, ?app_nil_r, ?Hsig in *; try done.
  exists hs, ks. split; [apply Hok'|]. split; [apply Hh'|]. split; [done|]. intros h Hin.
  rewrite Forall_forall in Hk', Hv'. specialize (Hk' h Hin). specialize (Hv' h Hin).
  pose proof (keys_sorted _ _ (hist_rep _ _ Hh')) as Hs.
  pose proof (hist_rotation _ _ Hh') as Hro. unfold pending in Hk'.
  destruct (rotating s) as [|[a|a v|r] [|]]; cbn in Hro, Hk'; rewrite ?app_nil_r in Hk'; try done;
    try (left; by apply chain_accepts_known).
  destruct Hk' as (r' & [Hr'|Hr'%list_elem_of_singleton]%elem_of_app & Ev & Ep).
  - left. apply chain_accepts_known; [done..|]. by exists r'.
  - right. subst r'. by exists r.
Qed.

(** A write to the key history leaves the rest of the server as it was. *)
Lemma server_ok_put st es hs d :
  server_ok st es hs -> next_seq d = next_seq (inner st) ->
  (forall c, c <> CF_KEYS -> contents (db d) c = contents (db (inner st)) c) ->
  server_ok (set_inner st d) es hs.
Proof. intros [Hdb Hh Hm Hro] En Hc. split; cbn; [frame|frame|done|done]. Qed.

Lemma server_ok_signer st es hs sg file :
  server_ok st es hs -> server_ok (set_signer st sg file) es hs.
Proof. intros [? ? ? ?]. by split. Qed.

(** ** Restarts *)

(** The key file holds the signer's key. *)
Definition file_current (st : AppState) : Prop :=
  key_file st = Some (to_vec (sk_to_bytes (sig_key (signer st)))).

(** The signer after a start on the database and the key file of an earlier run. *)
Lemma restart_signer cfg st es hs ks dir_ok read_ok fresh w start st' :
  server_ok st es hs -> keys_rep (inner st) ks -> ks <> [] -> file_current st ->
  build cfg dir_ok (Ok (db (inner st))) (key_file st) read_ok fresh w start = Ret (Ok st') ->
  signer st' = mkSigner (sig_key (signer st)) (start_version ks) /\ keys_rep (inner st') ks /\
  file_current st'.
Proof.
  intros [Hdb Hh _ Hro] Hk Hne Hf Hb. unfold file_current in *.
  destruct (startup_spec cfg (inner st) es hs ks dir_ok (key_file st) read_ok fresh w start Hdb Hh Hro Hk)
    as (r & E & Hr). rewrite Hb in E. injection E as <-.
  destruct Hr as (_ & Hk' & Ev & _ & _ & Hkf). rewrite Hf in Hkf. destruct Hkf as (Ef & a & Ea & Es).
  apply to_vec_inj in Ea as <-. rewrite sk_roundtrip in Es.
  split; [|split].
  - destruct (signer st') as [k v]. cbn in *. by subst.
  - by destruct ks.
  - by rewrite Es.
Qed.

(** C22: a crash inside a key rotation.  [rotate_key] replaces the key file before it
    records the new key.  A server restarted from a state in that window
    (the key file written, the record not) signs with the new key under the version of the
    last recorded key: under that version the history names the public key that was replaced,
    not the one the signer now has.  Restarted with no rotation under way, it has the same signer as
    before and the history stays consistent. *)
Theorem restart_history (cfg : Config) (s : sys) (es : list LogEntry.t) (hs : list SignedTreeHead.t)
    (ks : list KeyRecord.t) (dir_ok read_ok : bool) (fresh : SigningKey) (w : fs_write) (start : Z)
    (st' : AppState) (Hok : server_ok (app s) es hs) (Hh : history_ok s ks) (Hne : ks <> [])
    (Hf : file_current (app s))
    (Hb : build cfg dir_ok (Ok (db (inner (app s)))) (key_file (app s)) read_ok fresh w start =
          Ret (Ok st')) :
  match rotating s with
  | [] => signer st' = signer (app s) /\ history_ok (mkSys st' [] [] []) ks
  | [RSwapped r] => exists old, last ks = Some old /\
      find_id version (sig_version (signer st')) ks = Some old /\
      public_key (signer st') = KeyRecord.public_key r /\
      sig_version (signer st') < version r
  | _ => True
  end.
Proof.
  destruct (restart_signer _ _ _ _ ks _ _ _ _ _ _ Hok (hist_rep _ _ Hh) Hne Hf Hb) as (Es & Hk' & _).
  pose proof (keys_sorted _ _ Hk') as Hs. pose proof (hist_rotation _ _ Hh) as Hro.
  destruct (last ks) as [old|] eqn:El; [|by apply last_None in El].
  assert (Hold : old ∈ ks) by by apply last_Some_elem_of.
  destruct (rotating s) as [|[a|a v|r] [|]]; cbn in Hro; try done.
  - assert (Ev : version old = sig_version (signer (app s))).
    { destruct Hro as (r & Hr & Ev & _). pose proof (sorted_last_max _ _ _ Hs El) as Hmax.
      pose proof (hist_below _ _ Hh) as Hb'. rewrite Forall_forall in Hmax, Hb'.
      specialize (Hmax r Hr). specialize (Hb' old Hold). cbn in *. lia. }
    assert (E : signer st' = signer (app s)).
    { rewrite Es. unfold start_version. rewrite El, Ev. by destruct (signer (app s)). }
    split; [done|]. split; cbn; rewrite ?E; try done. apply Hh.
  - destruct Hro as (_ & Ev & Ep & Hlt). exists old. rewrite Es. unfold start_version. rewrite El.
    cbn.
    split; [done|]. split; [by apply (find_id_sorted version)|]. split; [by rewrite Ep|].
    rewrite Forall_forall in Hlt. by apply Hlt.
Qed.

(** A start without the key file of an earlier run: a key is generated and used under the
    version of the last recorded key, and the history is left as it is, so the new key is in
    no record and the version names another one. *)
Theorem lost_key_unrecorded (cfg : Config) (st : AppState) (es : list LogEntry.t)
    (hs : list SignedTreeHead.t) (ks : list KeyRecord.t) (old : KeyRecord.t) (dir_ok read_ok : bool)
    (fresh : SigningKey) (w : fs_write) (start : Z) (st' : AppState)
    (Hok : server_ok st es hs) (Hk : keys_rep (inner st) ks) (Hl : last ks = Some old)
    (Hb : build cfg dir_ok (Ok (db (inner st))) None read_ok fresh w start = Ret (Ok st')) :
  signer st' = mkSigner fresh (version old) /\ keys_rep (inner st') ks.
Proof.
  destruct Hok as [Hdb Hh _ Hro].
  destruct (startup_spec cfg (inner st) es hs ks dir_ok None read_ok fresh w start Hdb Hh Hro Hk)
    as (r & E & Hr). rewrite Hb in E. injection E as <-. destruct Hr as (_ & Hk' & Ev & _ & _ & Ek & _).
  unfold start_version in Ev. rewrite Hl in Ev. split.
  - destruct (signer st') as [k v]. cbn in *. by subst.
  - by destruct ks.
Qed.
End History.
