(* ===== verification/RateLimit.v ===== *)
(** * The rate limiter (crates/settled-server/src/rate_limit.rs)

    The token bucket in IEEE 754 binary64 arithmetic, with the rounding of every
    operation ([SpecFloat]).  Instants are nanoseconds. *)

From Stdlib Require Import SpecFloat.
From S2P Require Import Prelude ServerState.

(** ** [f64] *)

Abbreviation f64 := spec_float.
Definition f64_add (x y : f64) : f64 := SFadd 53 1024 x y.
Definition f64_sub (x y : f64) : f64 := SFsub 53 1024 x y.
Definition f64_mul (x y : f64) : f64 := SFmul 53 1024 x y.
Definition f64_div (x y : f64) : f64 := SFdiv 53 1024 x y.
Definition f64_ge (x y : f64) : bool := SFleb y x.
(** [n as f64] *)
Definition f64_of_int (n : Z) : f64 := binary_normalize 53 1024 n 0 false.
(** [f64::min]: the other operand if one is NaN. *)
Definition f64_min (x y : f64) : f64 :=
  match x, y with
  | S754_nan, _ => y
  | _, S754_nan => x
  | _, _ => if SFltb y x then y else x
  end.

(** [Duration::as_secs_f64] of a number of nanoseconds: [secs + nanos / 1e9]. *)
Definition as_secs_f64 (d : Z) : f64 :=
  f64_add (f64_of_int (d / 1000000000))
          (f64_div (f64_of_int (d mod 1000000000)) (f64_of_int 1000000000)).
(** [Instant::duration_since] is zero when the argument is later. *)
Definition duration_since (now last : Z) : Z := Z.max 0 (now - last).

(** ** The bucket *)

Module Bucket.
Record t := mk { tokens : f64; capacity : f64; rate : f64; last : Z }.

Definition new (rate_per_sec now : Z) : t :=
  let cap := f64_of_int rate_per_sec in mk cap cap cap now.

(** The first lines of both consume functions. *)
Definition refill (b : t) (now : Z) : t :=
  let elapsed := as_secs_f64 (duration_since now (last b)) in
  mk (f64_min (f64_add (tokens b) (f64_mul elapsed (rate b))) (capacity b)) (capacity b) (rate b) now.

Definition try_consume (b : t) (now : Z) : t * bool :=
  let b := refill b now in
  if f64_ge (tokens b) (f64_of_int 1)
  then (mk (f64_sub (tokens b) (f64_of_int 1)) (capacity b) (rate b) (last b), true)
  else (b, false).

Definition try_consume_n (b : t) (now n : Z) : t * bool :=
  let n := f64_of_int n in
  let b := refill b now in
  if f64_ge (tokens b) n
  then (mk (f64_sub (tokens b) n) (capacity b) (rate b) (last b), true)
  else (b, false).
End Bucket.

(** The server's limiter is this bucket. *)
Definition bucket_limiter : RateLimit := {|
  limiter := Bucket.t;
  limiter_new := Bucket.new;
  try_consume := Bucket.try_consume;
  try_consume_n := Bucket.try_consume_n
|}.

(** ** The order of [f64] *)

(** Floats that are not NaN, as triples ordered lexicographically. *)
Definition rank (x : f64) : Z * Z * Z :=
  match x with
  | S754_infinity true => (-2, 0, 0)
  | S754_finite true m e => (-1, - e, - Z.pos m)
  | S754_zero _ | S754_nan => (0, 0, 0)
  | S754_finite false m e => (1, e, Z.pos m)
  | S754_infinity false => (2, 0, 0)
  end.
Definition lex_lt (a b : Z * Z * Z) : Prop :=
  a.1.1 < b.1.1 \/ a.1.1 = b.1.1 /\ (a.1.2 < b.1.2 \/ a.1.2 = b.1.2 /\ a.2 < b.2).
Definition is_nan (x : f64) : Prop := match x with S754_nan => True | _ => False end.

Lemma compare_rank x y :
  ~ is_nan x -> ~ is_nan y ->
  match SFcompare x y with
  | Some Lt => lex_lt (rank x) (rank y)
  | Some Eq => rank x = rank y
  | Some Gt => lex_lt (rank y) (rank x)
  | None => False
  end.
Proof.
  intros Hx Hy. unfold lex_lt.
  destruct x as [sx|[]| |[] mx ex], y as [sy|[]| |[] my ey]; try (by destruct Hx); try (by destruct Hy);
    cbn; try lia; try done.
  all: destruct (Z.compare_spec ex ey); subst; try lia.
  all: change (Pos.compare_cont Eq mx my) with (Pos.compare mx my).
  all: destruct (Pos.compare_spec mx my); subst; cbn; try lia; done.
Qed.

Lemma ltb_rank x y : ~ is_nan x -> ~ is_nan y -> SFltb x y = true <-> lex_lt (rank x) (rank y).
Proof.
  intros Hx Hy. pose proof (compare_rank x y Hx Hy) as Hc. unfold SFltb, lex_lt in *.
  destruct (SFcompare x y) as [[]|]; [rewrite Hc| | |done]; split; try done; lia.
Qed.

Lemma leb_rank x y : ~ is_nan x -> ~ is_nan y -> SFleb x y = true <-> ~ lex_lt (rank y) (rank x).
Proof.
  intros Hx Hy. pose proof (compare_rank x y Hx Hy) as Hc. unfold SFleb, lex_lt in *.
  destruct (SFcompare x y) as [[]|]; [rewrite Hc| | |done]; split; try done; lia.
Qed.

Lemma leb_nan x y : is_nan x \/ is_nan y -> SFleb x y = false.
Proof. destruct x, y; naive_solver. Qed.

Lemma min_le x y : ~ is_nan y -> SFleb (f64_min x y) y = true.
Proof.
  intros Hy. assert (Hyy : SFleb y y = true) by (apply leb_rank; [done|done|unfold lex_lt; lia]).
  assert (Hd : x = S754_nan \/ ~ is_nan x) by (destruct x; auto). destruct Hd as [->|Hx]; [by destruct y|].
  assert (E : f64_min x y = if SFltb y x then y else x) by (destruct x, y; done).
  rewrite E. destruct (SFltb y x) eqn:El; [done|]. apply leb_rank; [done|done|].
  rewrite <- ltb_rank by done. by rewrite El.
Qed.

(** ** Runs *)

(** A request at an instant: one token ([None]) or [n] of them. *)
Definition serve_request (b : Bucket.t) (req : Z * option Z) : Bucket.t :=
  match req.2 with
  | None => (Bucket.try_consume b req.1).1
  | Some n => (Bucket.try_consume_n b req.1 n).1
  end.
Definition serve_requests (b : Bucket.t) (reqs : list (Z * option Z)) : Bucket.t :=
  foldl serve_request b reqs.

Lemma serve_requests_capacity b reqs : Bucket.capacity (serve_requests b reqs) = Bucket.capacity b.
Proof.
  revert b. induction reqs as [|[at_ [n|]] reqs IH]; intros b; [done| |]; cbn; rewrite IH;
    unfold serve_request; cbn [fst snd]; unfold Bucket.try_consume, Bucket.try_consume_n;
    by destruct (f64_ge _ _).
Qed.

Lemma refill_le b now :
  ~ is_nan (Bucket.capacity b) -> SFleb (Bucket.tokens (Bucket.refill b now)) (Bucket.capacity b) = true.
Proof. apply min_le. Qed.

Lemma leb_trans x y z : SFleb x y = true -> SFleb y z = true -> SFleb x z = true.
Proof.
  intros Hxy Hyz.
  assert (Hx : ~ is_nan x) by (intros Hn; by rewrite leb_nan in Hxy by auto).
  assert (Hy : ~ is_nan y) by (intros Hn; by rewrite leb_nan in Hxy by auto).
  assert (Hz : ~ is_nan z) by (intros Hn; by rewrite leb_nan in Hyz by auto).
  apply leb_rank in Hxy, Hyz; [|done..]. apply leb_rank; [done..|]. unfold lex_lt in *. lia.
Qed.

Lemma leb_not_ltb x y : SFleb x y = true -> SFltb y x = false.
Proof.
  intros Hle.
  assert (Hx : ~ is_nan x) by (intros Hn; by rewrite leb_nan in Hle by auto).
  assert (Hy : ~ is_nan y) by (intros Hn; by rewrite leb_nan in Hle by auto).
  apply leb_rank in Hle; [|done..]. destruct (SFltb y x) eqn:E; [|done]. by apply ltb_rank in E.
Qed.

(** ** Properties *)

(** C37: the token bucket, after any sequence of requests at any instants.  A refill never exceeds the
    configured rate, whatever the time elapsed and the rounding; a granted request is
    for no more than that and charges what it was granted; a refused one consumes
    nothing; so a batch larger than the rate is refused at every instant, however
    long it waits.  A single append is the case [n = 1]. *)
Theorem bucket_spec (rate start : Z) (reqs : list (Z * option Z)) (now n : Z)
    (Hrate : is_nan (f64_of_int rate) -> False) :
  let b := serve_requests (Bucket.new rate start) reqs in
  let r := Bucket.refill b now in
  SFleb (Bucket.tokens r) (f64_of_int rate) = true /\
  (forall b', Bucket.try_consume_n b now n = (b', true) ->
     SFleb (f64_of_int n) (f64_of_int rate) = true /\
     Bucket.tokens b' = f64_sub (Bucket.tokens r) (f64_of_int n)) /\
  (forall b', Bucket.try_consume_n b now n = (b', false) -> b' = r) /\
  (SFltb (f64_of_int rate) (f64_of_int n) = true -> (Bucket.try_consume_n b now n).2 = false) /\
  Bucket.try_consume b now = Bucket.try_consume_n b now 1.
Proof.
  cbn zeta. set (b := serve_requests _ _).
  assert (Hc : Bucket.capacity b = f64_of_int rate) by apply serve_requests_capacity.
  assert (Hle : SFleb (Bucket.tokens (Bucket.refill b now)) (f64_of_int rate) = true).
  { rewrite <- Hc. apply refill_le. by rewrite Hc. }
  split; [done|]. unfold Bucket.try_consume_n at 1 2 3, f64_ge.
  destruct (SFleb (f64_of_int n) (Bucket.tokens (Bucket.refill b now))) eqn:E.
  - pose proof (leb_trans _ _ _ E Hle) as Hn. repeat split; try done.
    + by injection H as <-.
    + intros Hbig. by rewrite leb_not_ltb in Hbig.
  - repeat split; try done. congruence.
Qed.

(** Ten tokens per second: after a batch of ten, eleven are refused for ever. *)
Lemma bucket_spec_witness :
  let b := serve_requests (Bucket.new 10 0) [(1, Some 10); (2, None)] in
  let r := Bucket.refill b 5000000000 in
  SFleb (Bucket.tokens r) (f64_of_int 10) = true /\
  (forall b', Bucket.try_consume_n b 5000000000 11 = (b', true) ->
     SFleb (f64_of_int 11) (f64_of_int 10) = true /\
     Bucket.tokens b' = f64_sub (Bucket.tokens r) (f64_of_int 11)) /\
  (forall b', Bucket.try_consume_n b 5000000000 11 = (b', false) -> b' = r) /\
  (SFltb (f64_of_int 10) (f64_of_int 11) = true -> (Bucket.try_consume_n b 5000000000 11).2 = false) /\
  Bucket.try_consume b 5000000000 = Bucket.try_consume_n b 5000000000 1.
Proof. apply (bucket_spec 10 0 [(1, Some 10); (2, None)] 5000000000 11). vm_compute. done. Defined.
