(* ===== verification/Client.v ===== *)
(** * The Rust client and the checker (sdks/rust/src/client.rs, crates/settled-check/src/main.rs)

    The methods of [SettledClient] over the generated gRPC stub, which is a
    parameter, and the [verify] command of settled-check.  [serve] is the stub of a
    server in a given state, so that the checker can be run against the model of
    the server. *)

From Stdlib Require String.
From stdpp Require Import pretty.
From S2P Require Import SdkVerifier.
From S2P Require Import Prelude Bytes Hash MerkleSpec Merkle MerkleProof Sth Rocksdb StorageTypes.
From S2P Require Import Db LogStore LogTheorems Table HeadStore KeyStore ServerState Service.
From S2P Require Import ServerInv Concurrent ProofTheorems ServiceTheorems Watch Utf8 Admin.
Import String.StringSyntax.

(** ** The client's types *)

Module Client.
Record SignedTreeHead := mkSth {
  tree_size : Z; root_hash : bytes; timestamp_ns : Z; signature : bytes; public_key : bytes;
  key_version : Z
}.
Record AppendResult := mkAppend { ar_seq : Z; ar_timestamp_ns : Z; ar_leaf_hash : bytes; ar_key : bytes }.
Record Entry := mkEntry { seq : Z; e_timestamp_ns : Z; key : bytes; data : bytes; leaf_hash : bytes }.
Record InclusionProofResult := mkInclusion {
  leaf_index : Z; ip_tree_size : Z; proof : list bytes; sth : SignedTreeHead
}.
Record ConsistencyProofResult := mkConsistency {
  old_size : Z; new_size : Z; cp_proof : list bytes; old_sth : SignedTreeHead; new_sth : SignedTreeHead
}.
Record GetLatestResult := mkLatest { gl_entries : list Entry; total_available : Z }.
Record ListEntriesResult := mkList { le_entries : list Entry; le_next_cursor : Z }.
Record GetByKeyResult := mkByKey { bk_entries : list Entry; bk_next_cursor : Z }.

Inductive ClientError :=
| InvalidAddress (addr : String.string)
| Transport
| Rpc (s : Status).
End Client.

(** Message fields are optional on the wire. *)
Module InclusionReply.
Record t := mk { leaf_index : Z; tree_size : Z; proof : list bytes; sth : option ProtoSth.t }.
End InclusionReply.
Module ConsistencyReply.
Record t := mk {
  old_size : Z; new_size : Z; proof : list bytes; old_sth : option ProtoSth.t; new_sth : option ProtoSth.t
}.
End ConsistencyReply.

(** ** The transport and the generated stub.  [channel_from_shared] and
    [channel_connect] say whether the endpoint parses and accepts a connection, [metadata_value_ok]
    whether a string is a valid metadata value.  Every call carries the value of
    [authorization], if any. *)
Class Stub := {
  channel_from_shared : String.string -> bool;
  channel_connect : String.string -> bool;
  metadata_value_ok : String.string -> bool;
  EntryStreaming : Type;
  stream_message : EntryStreaming -> result (option Entry.t) Status * EntryStreaming;
  stub_watch : option bytes -> Z -> result EntryStreaming Status;
  stub_append : option bytes -> bytes -> bytes -> result AppendResponse.t Status;
  stub_batch_append : option bytes -> list (bytes * bytes) -> result (list AppendResponse.t) Status;
  stub_get : option bytes -> Z -> result (option Entry.t) Status;
  stub_get_latest : option bytes -> Z -> result (list Entry.t * Z) Status;
  stub_get_sth : option bytes -> Z -> result (option ProtoSth.t) Status;
  stub_inclusion_proof : option bytes -> Z -> Z -> result InclusionReply.t Status;
  stub_list_entries : option bytes -> Z -> Z -> Z -> Z -> result (list Entry.t * Z) Status;
  stub_get_by_key : option bytes -> bytes -> Z -> Z -> result (list Entry.t * Z) Status;
  stub_consistency_proof : option bytes -> Z -> Z -> result ConsistencyReply.t Status
}.

(** ** Conversions *)

(** [Default] of the messages. *)
Definition default_pb_sth : ProtoSth.t := ProtoSth.mk 0 [] 0 [] [] 0.
Definition default_pb_entry : Entry.t := Entry.mk 0 0 [] [] [].

Definition from_pb_sth (s : ProtoSth.t) : Client.SignedTreeHead :=
  Client.mkSth (ProtoSth.tree_size s) (ProtoSth.root_hash s) (ProtoSth.timestamp_ns s)
    (ProtoSth.signature s) (ProtoSth.public_key s) (ProtoSth.key_version s).
Definition from_pb_entry (e : Entry.t) : Client.Entry :=
  Client.mkEntry (Entry.seq e) (Entry.timestamp_ns e) (Entry.key e) (Entry.data e) (Entry.leaf_hash e).

(** The closure that maps an [AppendResponse] in [append] and [batch_append]. *)
Definition from_pb_append (r : AppendResponse.t) : Client.AppendResult :=
  Client.mkAppend (AppendResponse.seq r) (AppendResponse.timestamp_ns r)
    (AppendResponse.leaf_hash r) (AppendResponse.key r).

Section Methods.
Context `{Stub}.

(** [build]: a client is the header made from the API key; [connect] and
    [connect_with_api_key] call it without and with one. *)
Definition client_build (addr : String.string) (api_key : option String.string)
  : outcome (result (option bytes) Client.ClientError) :=
  if negb (channel_from_shared addr) then Ret (Err (Client.InvalidAddress addr))
  else if negb (channel_connect addr) then Ret (Err Client.Transport)
  else
    match api_key with
    | None => Ret (Ok None)
    | Some k =>
        let header := String.append "Bearer " k in
        if metadata_value_ok header then Ret (Ok (Some (as_bytes header)))
        else Panic
    end.
Definition client_connect (addr : String.string) := client_build addr None.
Definition connect_with_api_key (addr api_key : String.string) := client_build addr (Some api_key).

(** [EntryStream::next] and [watch_entries] *)
Definition entry_stream_next (s : EntryStreaming)
  : option (result Client.Entry Client.ClientError) * EntryStreaming :=
  match stream_message s with
  | (Ok (Some e), s) => (Some (Ok (from_pb_entry e)), s)
  | (Ok None, s) => (None, s)
  | (Err e, s) => (Some (Err (Client.Rpc e)), s)
  end.
Definition client_watch_entries (auth : option bytes) (from_seq : Z)
  : result EntryStreaming Client.ClientError :=
  match stub_watch auth from_seq with
  | Err s => Err (Client.Rpc s)
  | Ok stream => Ok stream
  end.

Definition client_append (auth : option bytes) (key data : bytes)
  : result Client.AppendResult Client.ClientError :=
  match stub_append auth key data with
  | Err s => Err (Client.Rpc s)
  | Ok r => Ok (from_pb_append r)
  end.

Definition client_batch_append (auth : option bytes) (entries : list (bytes * bytes))
  : result (list Client.AppendResult) Client.ClientError :=
  match stub_batch_append auth entries with
  | Err s => Err (Client.Rpc s)
  | Ok r => Ok (from_pb_append <$> r)
  end.

Definition client_get (auth : option bytes) (seq : Z) : result Client.Entry Client.ClientError :=
  match stub_get auth seq with
  | Err s => Err (Client.Rpc s)
  | Ok entry => Ok (from_pb_entry (default default_pb_entry entry))
  end.

Definition client_get_latest (auth : option bytes) (n : Z)
  : result Client.GetLatestResult Client.ClientError :=
  match stub_get_latest auth n with
  | Err s => Err (Client.Rpc s)
  | Ok (entries, total) => Ok (Client.mkLatest (from_pb_entry <$> entries) total)
  end.

Definition client_get_sth (auth : option bytes) (tree_size : Z)
  : result Client.SignedTreeHead Client.ClientError :=
  match stub_get_sth auth tree_size with
  | Err s => Err (Client.Rpc s)
  | Ok sth => Ok (from_pb_sth (default default_pb_sth sth))
  end.

Definition client_inclusion_proof (auth : option bytes) (seq tree_size : Z)
  : result Client.InclusionProofResult Client.ClientError :=
  match stub_inclusion_proof auth seq tree_size with
  | Err s => Err (Client.Rpc s)
  | Ok r => Ok (Client.mkInclusion (InclusionReply.leaf_index r) (InclusionReply.tree_size r)
                  (InclusionReply.proof r) (from_pb_sth (default default_pb_sth (InclusionReply.sth r))))
  end.

Definition client_list_entries (auth : option bytes) (from_seq to_seq cursor limit : Z)
  : result Client.ListEntriesResult Client.ClientError :=
  match stub_list_entries auth from_seq to_seq cursor limit with
  | Err s => Err (Client.Rpc s)
  | Ok (entries, next) => Ok (Client.mkList (from_pb_entry <$> entries) next)
  end.

Definition client_get_by_key (auth : option bytes) (key : bytes) (cursor limit : Z)
  : result Client.GetByKeyResult Client.ClientError :=
  match stub_get_by_key auth key cursor limit with
  | Err s => Err (Client.Rpc s)
  | Ok (entries, next) => Ok (Client.mkByKey (from_pb_entry <$> entries) next)
  end.

Definition client_consistency_proof (auth : option bytes) (old_size new_size : Z)
  : result Client.ConsistencyProofResult Client.ClientError :=
  match stub_consistency_proof auth old_size new_size with
  | Err s => Err (Client.Rpc s)
  | Ok r => Ok (Client.mkConsistency (ConsistencyReply.old_size r) (ConsistencyReply.new_size r)
                  (ConsistencyReply.proof r)
                  (from_pb_sth (default default_pb_sth (ConsistencyReply.old_sth r)))
                  (from_pb_sth (default default_pb_sth (ConsistencyReply.new_sth r))))
  end.
End Methods.

(** ** settled-check *)

Section Check.
Context `{Sha256} `{Ed25519} `{Stub} `{Profile}.

Inductive CheckError :=
| CkClient (context : String.string) (e : Client.ClientError)
| CkFailed (msg : String.string).

(** Collecting 32-byte nodes into a [Vec], failing on the first of another length. *)
Fixpoint collect_path (proof : list bytes) : option (list hash32) :=
  match proof with
  | [] => Some []
  | h :: proof =>
      match array_try_from 32 h with
      | None => None
      | Some a => match collect_path proof with None => None | Some l => Some (a :: l) end
      end
  end.

(** The [verify] command; the client connects without an API key. *)
Definition cmd_verify (server : String.string) (seq : option Z) : outcome (result unit CheckError) :=
  let! client := client_connect server in
  match client with
  | Err e => Ret (Err (CkClient "Failed to connect to Settled server"%str e))
  | Ok auth =>
      match client_get_sth auth 0 with
      | Err e => Ret (Err (CkClient "Failed to fetch latest STH"%str e))
      | Ok sth =>
          match array_try_from 32 (Client.root_hash sth) with
          | None => Ret (Err (CkFailed "root_hash must be 32 bytes"%str))
          | Some root =>
              if SdkVerifier.verify_tree_head (Client.tree_size sth) root (Client.timestamp_ns sth)
                   (Client.signature sth) (Client.public_key sth)
              then
                match seq with
                | None => Ret (Ok tt)
                | Some seq_num =>
                    match client_inclusion_proof auth seq_num (Client.tree_size sth) with
                    | Err e => Ret (Err (CkClient "Failed to fetch inclusion proof"%str e))
                    | Ok proof_res =>
                        match collect_path (Client.proof proof_res) with
                        | None => Ret (Err (CkFailed "proof node must be 32 bytes"%str))
                        | Some path =>
                            match client_get auth seq_num with
                            | Err e => Ret (Err (CkClient "Failed to fetch entry"%str e))
                            | Ok entry =>
                                match array_try_from 32 (Client.leaf_hash entry) with
                                | None => Ret (Err (CkFailed "leaf_hash must be 32 bytes"%str))
                                | Some leaf =>
                                    let! ok := SdkVerifier.verify_inclusion leaf (Client.leaf_index proof_res)
                                                 (Client.tree_size sth) path root in
                                    if ok : bool then Ret (Ok tt)
                                    else Ret (Err (CkFailed
                                      ("Inclusion proof verification FAILED for seq=" ++ pretty seq_num)%str))
                                end
                            end
                        end
                    end
                end
              else Ret (Err (CkFailed "STH signature verification FAILED"%str))
          end
      end
  end.

End Check.

(** ** What a successful check establishes *)

Section CheckSound.
Context `{Sha256} `{Ed25519} `{Stub} `{Profile}.

Lemma collect_path_vec proof path : collect_path proof = Some path -> proof = to_vec <$> path.
Proof.
  revert path. induction proof as [|h proof IH]; intros path E; [by injection E as <-|]. cbn in E.
  destruct (array_try_from 32 h) as [a|] eqn:Ea; [|done].
  destruct (collect_path proof) as [l|]; [|done]. injection E as <-.
  rewrite fmap_cons, <- (IH l) by done. f_equal. by apply array_try_from_Some.
Qed.

(** C35: what a successful check establishes, whatever the server does.  The head it
    fetched has a 32-byte root and a signature valid under the public key sent with it; and if that root and size are
    those of a list of leaves, the leaf hash of the entry it fetched is the
    leaf of the list at the index the server sent, or [inclusion_collision] returns a SHA-256
    collision.  The index is the server's: it is not tied to the number asked for. *)
Theorem check_sound (server : String.string) (n : Z) (l : list hash32) (root : hash32)
    (sth : Client.SignedTreeHead) (Hl : len l < two64) (Hroot : mth l = Ret (Some root))
    (Hsth : client_get_sth None 0 = Ok sth) (Hsize : Client.tree_size sth = len l)
    (Hr : Client.root_hash sth = to_vec root)
    (Hindex : forall r, client_inclusion_proof None n (len l) = Ok r -> in_u64 (Client.leaf_index r))
    (Hv : cmd_verify server (Some n) = Ret (Ok tt)) :
  SdkVerifier.verify_tree_head (len l) root (Client.timestamp_ns sth) (Client.signature sth)
    (Client.public_key sth) = true /\
  exists res path entry leaf,
    client_inclusion_proof None n (len l) = Ok res /\ Client.proof res = to_vec <$> path /\
    client_get None n = Ok entry /\ Client.leaf_hash entry = to_vec leaf /\
    clash_or (inclusion_collision l (Client.leaf_index res) leaf path)
      (l !! Z.to_nat (Client.leaf_index res) = Some leaf).
Proof.
  unfold cmd_verify in Hv. destruct (client_connect server) as [[auth|e]| |] eqn:Ec; try done. cbn [obind] in Hv.
  assert (auth = None) as ->.
  { unfold client_connect, client_build in Ec. repeat case_match; congruence. }
  rewrite Hsth, Hsize, Hr, array_try_from_to_vec in Hv.
  destruct (SdkVerifier.verify_tree_head _ _ _ _ _); [split; [done|]|done].
  destruct (client_inclusion_proof None n (len l)) as [res|e] eqn:Ei; [|done].
  destruct (collect_path (Client.proof res)) as [path|] eqn:Ep; [|done].
  destruct (client_get None n) as [entry|e]; [|done].
  destruct (array_try_from 32 (Client.leaf_hash entry)) as [leaf|] eqn:El; [|done].
  exists res, path, entry, leaf. split; [done|]. split; [by apply collect_path_vec|]. split; [done|].
  split; [by apply array_try_from_Some in El|]. rewrite sdk_inclusion_core in Hv.
  destruct (verify_inclusion _ _ _ _ _) as [[]| |] eqn:Hi; try done.
  apply (inclusion_sound_tree l root); [done|done|by apply (Hindex res)|done].
Qed.
End CheckSound.

(** ** A server as a stub *)

Section Serve.
Context `{Sha256} {R : Rocksdb} {P : Prost} {RL : RocksdbLaws} {PL : ProstLaws}.
Context {D : ErrorDisplay} `{Ed25519} `{RateLimit} `{Profile}.
Abbreviation size := SignedTreeHead.tree_size.

(** A handler behind the interceptor; a panic ends the call with an error. *)
Definition guarded {A} (st : AppState) (auth : option bytes) (r : outcome (result A Status)) : result A Status :=
  match interceptor (api_key (config st)) auth with
  | Err s => Err s
  | Ok _ => match r with
            | Ret r => r
            | _ => Err (mkStatus Internal "handler panicked"%str)
            end
  end.
Definition map_ok {A B} (f : A -> B) (r : result A Status) : result B Status :=
  match r with Ok a => Ok (f a) | Err s => Err s end.
Definition omap_ok {A B} (f : A -> B) (r : outcome (result A Status)) : outcome (result B Status) :=
  let! r := r in Ret (map_ok f r).

(** The calls of a server in the state [st], with nothing appended meanwhile; [at_] and [now]
    are the clocks for the appends, whose effect on the state is not observed
    through the stub. *)
Definition serve (st : AppState) (at_ now : Z) : Stub := {|
  channel_from_shared := fun _ => true;
  channel_connect := fun _ => true;
  metadata_value_ok := fun _ => true;
  EntryStreaming := list Entry.t * option Status;
  stream_message := fun s => match s with
                             | (e :: l, st) => (Ok (Some e), (l, st))
                             | ([], Some st) => (Err st, ([], None))
                             | ([], None) => (Ok None, ([], None))
                             end;
  stub_watch := fun auth from_seq => guarded st auth
    (let! r := watch (S (Z.to_nat (next_seq (inner st)))) (fun _ => inner st) from_seq [] in Ret (Ok r));
  stub_append := fun auth key data =>
    guarded st auth (let! r := rpc_append st at_ now key data in Ret r.2);
  stub_batch_append := fun auth entries =>
    guarded st auth (let! r := rpc_batch_append st at_ now entries in Ret r.2);
  stub_get := fun auth seq => guarded st auth (Ret (map_ok Some (rpc_get st seq)));
  stub_get_latest := fun auth n => guarded st auth (Ret (rpc_get_latest st n));
  stub_get_sth := fun auth n => guarded st auth (Ret (map_ok Some (rpc_get_sth st n)));
  stub_inclusion_proof := fun auth seq n => guarded st auth (omap_ok (fun r =>
    InclusionReply.mk (InclusionProofResponse.leaf_index r) (InclusionProofResponse.tree_size r)
      (InclusionProofResponse.proof r) (Some (InclusionProofResponse.sth r))) (rpc_inclusion_proof st seq n));
  stub_list_entries := fun auth a b c l => guarded st auth (rpc_list_entries st a b c l);
  stub_get_by_key := fun auth k c l => guarded st auth (rpc_get_by_key st k c l);
  stub_consistency_proof := fun auth a b => guarded st auth (omap_ok (fun r =>
    ConsistencyReply.mk (ConsistencyProofResponse.old_size r) (ConsistencyProofResponse.new_size r)
      (ConsistencyProofResponse.proof r) (Some (ConsistencyProofResponse.old_sth r))
      (Some (ConsistencyProofResponse.new_sth r))) (rpc_consistency_proof st a b))
|}.

Lemma collect_path_to_vec path : collect_path (to_vec <$> path) = Some path.
Proof.
  induction path as [|h path IH]; [done|]. rewrite fmap_cons. cbn [collect_path].
  by rewrite array_try_from_to_vec, IH.
Qed.

Lemma guarded_ok {A} st (r : result A Status) :
  api_key (config st) = None -> guarded st None (Ret r) = r.
Proof. intros E. unfold guarded. by rewrite E. Qed.

(** The three calls of the checker against an honest server. *)
Lemma served_sth st at_ now es hs h :
  server_ok st es hs -> ~ read_error st -> last hs = Some h -> api_key (config st) = None ->
  @client_get_sth (serve st at_ now) None 0 = Ok (from_pb_sth (sth_to_pb h)).
Proof.
  intros Hok Hread Hlast Ek. unfold client_get_sth. cbn [stub_get_sth serve]. rewrite guarded_ok by done.
  unfold rpc_get_sth. cbn [Z.eqb].
  destruct (head_latest_ok _ _ (ok_heads _ _ _ Hok)) as [E|(e & He & _)];
    [|destruct Hread; exists e; auto].
  by rewrite E, Hlast.
Qed.

Lemma served_inclusion st at_ now es hs h n :
  server_ok st es hs -> gap_free (inner st) es -> ~ read_error st -> h ∈ hs -> 0 <= n < size h ->
  api_key (config st) = None ->
  exists r e path, @client_inclusion_proof (serve st at_ now) None n (size h) = Ok r /\
    Client.proof r = to_vec <$> path /\ Client.leaf_index r = n /\ Client.ip_tree_size r = size h /\
    es !! Z.to_nat n = Some e /\
    verify_inclusion (leaf_hash (LogEntry.data e)) n (size h) path (SignedTreeHead.root_hash h) = Ret true.
Proof.
  intros Hok Hg Hread Hin Hn Ek.
  destruct (head_ok_elem _ _ _ _ Hok Hin) as [Hs _]. pose proof (len_es_bound _ _ _ Hok) as Hb.
  destruct (inclusion_rpc_spec st es hs n (size h) Hok Hg) as (r & Er & Hr); [unfold in_u64; lia..|].
  assert (Hreq : requested_head hs (size h) = Some h).
  { unfold requested_head. rewrite (proj2 (Z.eqb_neq _ _)) by lia.
    apply find_id_sorted; [by eapply heads_sorted, Hok|done]. }
  destruct r as [resp|s]; [|destruct Hr as [Hr|Hr]; [done|specialize (Hr h Hreq); lia]].
  destruct Hr as (e & h' & path & He & Hq & -> & Hv). rewrite Hreq in Hq. injection Hq as <-.
  eexists _, e, path.
  assert (Ec : @client_inclusion_proof (serve st at_ now) None n (size h) =
    Ok (Client.mkInclusion n (size h) (to_vec <$> path) (from_pb_sth (sth_to_pb h)))).
  { unfold client_inclusion_proof. cbn [stub_inclusion_proof serve]. rewrite Er. unfold omap_ok. cbn [obind].
    rewrite guarded_ok by done. reflexivity. }
  split; [exact Ec|]. done.
Qed.

Lemma served_entry st at_ now es hs n e :
  server_ok st es hs -> gap_free (inner st) es -> in_u64 n -> es !! Z.to_nat n = Some e ->
  ~ (exists x, rdb_get (db (inner st)) CF_LOG (to_vec (u64_to_be_bytes n)) = Err x) ->
  api_key (config st) = None ->
  @client_get (serve st at_ now) None n = Ok (from_pb_entry (entry_to_pb e)).
Proof.
  intros Hok Hg Hn He Hget Ek. unfold client_get. cbn [stub_get serve]. rewrite guarded_ok by done. unfold rpc_get.
  destruct (get_by_seq_ok (inner st) es n (ok_db _ _ _ Hok) Hn) as [(o & Eo & Ho)|(x & Hx & _)];
    [|destruct Hget; by exists x].
  assert (o = Some e) as ->; [|by rewrite Eo].
  apply Ho. split; [by eapply list_elem_of_lookup_2|]. rewrite (gap_free_lookup _ _ _ _ Hg He).
  unfold in_u64 in Hn. lia.
Qed.

Context {EL : Ed25519Laws}.

(** C36: the checker against an honest server.  The [verify] command succeeds for every entry that
    the latest head covers when the server satisfies the invariant, has a gap-free log and
    signed heads, its reads succeed and it has no API key configured.  With an API
    key the command always fails as unauthenticated: the checker sends none. *)
Theorem check_honest_server (st : AppState) (at_ now : Z) (es : list LogEntry.t)
    (hs : list SignedTreeHead.t) (h : SignedTreeHead.t) (server : String.string) (n : Z)
    (Hok : server_ok st es hs) (Hg : gap_free (inner st) es) (Hsig : Forall head_signed hs)
    (Hlast : last hs = Some h) (Hn : 0 <= n < size h) (Hread : read_error st -> False)
    (Hget : forall e, rdb_get (db (inner st)) CF_LOG (to_vec (u64_to_be_bytes n)) = Err e -> False) :
  @cmd_verify _ _ (serve st at_ now) _ server (Some n) =
  Ret (match api_key (config st) with
       | None => Ok tt
       | Some _ => Err (CkClient "Failed to fetch latest STH"%str
                     (Client.Rpc (mkStatus Unauthenticated "missing or invalid api key"%str)))
       end).
Proof.
  pose proof (last_Some_elem_of _ _ Hlast) as Hin.
  destruct (head_ok_elem _ _ _ _ Hok Hin) as [Hs _]. pose proof (len_es_bound _ _ _ Hok) as Hb.
  unfold cmd_verify, client_connect, client_build. cbn [channel_from_shared channel_connect serve negb obind].
  destruct (api_key (config st)) as [k|] eqn:Ek.
  { unfold client_get_sth. cbn [stub_get_sth serve]. unfold guarded. by rewrite Ek. }
  fold (serve st at_ now). rewrite (served_sth st at_ now es hs h) by done.
  unfold from_pb_sth, sth_to_pb. cbn [Client.root_hash Client.tree_size Client.timestamp_ns Client.signature
    Client.public_key ProtoSth.root_hash ProtoSth.tree_size ProtoSth.timestamp_ns ProtoSth.signature
    ProtoSth.public_key].
  rewrite array_try_from_to_vec. rewrite Forall_forall in Hsig. rewrite (signed_sdk h (Hsig h Hin)).
  destruct (served_inclusion st at_ now es hs h n) as (r & e & path & -> & Ep & Ei & _ & He & Hv); [done..|].
  rewrite Ep, Ei, collect_path_to_vec.
  rewrite (served_entry st at_ now es hs n e); [|done|done|unfold in_u64; lia|done|naive_solver|done].
  unfold from_pb_entry, entry_to_pb. cbn [Client.leaf_hash Entry.leaf_hash].
  by rewrite array_try_from_to_vec, (rep_leaf _ _ _ _ (ok_db _ _ _ Hok) He), sdk_inclusion_core, Hv.
Qed.
End Serve.
