(* ===== verification/Check.v ===== *)
(** * What settled-check prints (crates/settled-check/src/main.rs)

    [cmd_verify] of [Client] with the lines it prints to standard output, and [main].  An error is reported by
    the runtime on standard error; it is the result here. *)

From Stdlib Require String.
From stdpp Require Import pretty.
From S2P Require Import SdkVerifier.
From S2P Require Import Prelude Bytes Hash Sth StorageTypes Utf8 ServerState Service Admin Client.
Import String.StringSyntax.

(** The subcommands. *)
Inductive Command := Verify (server : String.string) (seq : option Z).

Section Output.
Context `{Sha256} `{Ed25519} `{Stub} `{Profile} `{Hex}.

(** [println!] of some lines, then the rest. *)
Definition println {A} (lines : list bytes) (rest : list bytes * A) : list bytes * A :=
  (lines ++ rest.1, rest.2).

Definition sth_lines (sth : Client.SignedTreeHead) : list bytes :=
  [txt "Latest STH:";
   txt "  tree_size  : " ++ dec (Client.tree_size sth);
   txt "  root_hash  : " ++ as_bytes (hex_encode (Client.root_hash sth));
   txt "  timestamp  : " ++ dec (Client.timestamp_ns sth) ++ txt " ns";
   txt "  key_version: " ++ dec (Client.key_version sth)].
Definition inclusion_ok_line (seq leaf_index : Z) : bytes :=
  txt "  inclusion  : OK (seq=" ++ dec seq ++ txt ", leaf_index=" ++ dec leaf_index ++ txt ")".
Definition complete_line : bytes := txt "Verification complete.".

Definition verify_output (server : String.string) (seq : option Z)
  : list bytes * outcome (result unit CheckError) :=
  match client_connect server with
  | Panic => ([], Panic)
  | OutOfFuel => ([], OutOfFuel)
  | Ret (Err e) => ([], Ret (Err (CkClient "Failed to connect to Settled server"%str e)))
  | Ret (Ok auth) =>
      match client_get_sth auth 0 with
      | Err e => ([], Ret (Err (CkClient "Failed to fetch latest STH"%str e)))
      | Ok sth =>
          println (sth_lines sth)
          match array_try_from 32 (Client.root_hash sth) with
          | None => ([], Ret (Err (CkFailed "root_hash must be 32 bytes"%str)))
          | Some root =>
              if SdkVerifier.verify_tree_head (Client.tree_size sth) root (Client.timestamp_ns sth)
                   (Client.signature sth) (Client.public_key sth)
              then
                println [txt "  signature  : OK"]
                match seq with
                | None => ([complete_line], Ret (Ok tt))
                | Some seq_num =>
                    match client_inclusion_proof auth seq_num (Client.tree_size sth) with
                    | Err e => ([], Ret (Err (CkClient "Failed to fetch inclusion proof"%str e)))
                    | Ok proof_res =>
                        match collect_path (Client.proof proof_res) with
                        | None => ([], Ret (Err (CkFailed "proof node must be 32 bytes"%str)))
                        | Some path =>
                            match client_get auth seq_num with
                            | Err e => ([], Ret (Err (CkClient "Failed to fetch entry"%str e)))
                            | Ok entry =>
                                match array_try_from 32 (Client.leaf_hash entry) with
                                | None => ([], Ret (Err (CkFailed "leaf_hash must be 32 bytes"%str)))
                                | Some leaf =>
                                    match SdkVerifier.verify_inclusion leaf (Client.leaf_index proof_res)
                                            (Client.tree_size sth) path root with
                                    | Panic => ([], Panic)
                                    | OutOfFuel => ([], OutOfFuel)
                                    | Ret true =>
                                        ([inclusion_ok_line seq_num (Client.leaf_index proof_res); complete_line],
                                         Ret (Ok tt))
                                    | Ret false =>
                                        ([], Ret (Err (CkFailed
                                          ("Inclusion proof verification FAILED for seq=" ++ pretty seq_num)%str)))
                                    end
                                end
                            end
                        end
                    end
                end
              else ([], Ret (Err (CkFailed "STH signature verification FAILED"%str)))
          end
      end
  end.

Definition main (command : Command) : list bytes * outcome (result unit CheckError) :=
  match command with
  | Verify server seq =>
      let '(lines, r) := verify_output server seq in
      (lines, let? _ := r in Ret (Ok tt))
  end.

(** ** The lines and the result *)

(** The printing command computes what [cmd_verify] does. *)
Lemma verify_output_result server seq : (verify_output server seq).2 = cmd_verify server seq.
Proof.
  unfold verify_output, cmd_verify. destruct (client_connect server) as [[auth|e]| |]; [|done..].
  cbn [obind]. destruct (client_get_sth auth 0) as [sth|e]; [|done]. cbn [println snd].
  destruct (array_try_from 32 (Client.root_hash sth)) as [root|]; [|done].
  destruct (SdkVerifier.verify_tree_head _ _ _ _ _); [|done]. cbn [println snd].
  destruct seq as [n|]; [|done]. destruct (client_inclusion_proof _ _ _) as [p|e]; [|done].
  destruct (collect_path _) as [path|]; [|done]. destruct (client_get auth n) as [entry|e]; [|done].
  destruct (array_try_from 32 (Client.leaf_hash entry)) as [leaf|]; [|done].
  by destruct (SdkVerifier.verify_inclusion _ _ _ _ _) as [[]| |].
Qed.

(** No line of a head is mistaken for the last one. *)
Lemma sth_lines_last sth : last (sth_lines sth) <> Some complete_line.
Proof. intros [= E]. Qed.

Lemma print_then {A} lines (rest : list bytes * A) :
  last lines <> Some complete_line ->
  last (println lines rest).1 = Some complete_line <-> last rest.1 = Some complete_line.
Proof.
  intros Hl. cbn [println fst]. rewrite last_app. destruct (last rest.1) as [y|] eqn:E; [done|]. naive_solver.
Qed.

(** The program reports honestly.  It ends with "Verification complete." exactly when the command succeeded, and its
    result is that of [cmd_verify]. *)
Theorem check_reports (server : String.string) (seq : option Z) :
  (main (Verify server seq)).2 = cmd_verify server seq /\
  (last (main (Verify server seq)).1 = Some complete_line <-> cmd_verify server seq = Ret (Ok tt)).
Proof.
  pose proof (verify_output_result server seq) as Er.
  assert (Em : main (Verify server seq) = verify_output server seq).
  { cbn [main]. destruct (verify_output server seq) as [lines r]. f_equal.
    by destruct r as [[[]|e]| |]. }
  rewrite Em. split; [done|]. rewrite <- Er. clear Er Em. unfold verify_output.
  destruct (client_connect server) as [[auth|e]| |]; [|done..].
  destruct (client_get_sth auth 0) as [sth|e]; [|done]. rewrite (print_then _ _ (sth_lines_last sth)).
  cbn [println snd]. destruct (array_try_from 32 (Client.root_hash sth)) as [root|]; [|done].
  destruct (SdkVerifier.verify_tree_head _ _ _ _ _); [|done]. rewrite print_then by done. cbn [println snd].
  destruct seq as [n|]; [|done]. destruct (client_inclusion_proof _ _ _) as [p|e]; [|done].
  destruct (collect_path _) as [path|]; [|done]. destruct (client_get auth n) as [entry|e]; [|done].
  destruct (array_try_from 32 (Client.leaf_hash entry)) as [leaf|]; [|done].
  by destruct (SdkVerifier.verify_inclusion _ _ _ _ _) as [[]| |].
Qed.
End Output.
