(* ===== verification/Paging.v ===== *)
(** * Walking the pages of ListEntries and GetByKey

    A client starts with cursor 0 and passes [next_cursor] on until it is 0, as
    the comments of the API ask for.  The walk below is that protocol; the pages are
    those of [rpc_list_entries] and [rpc_get_by_key]. *)

From S2P Require Import Prelude Bytes Hash MerkleSpec Merkle MerkleProof Sth Rocksdb StorageTypes.
From S2P Require Import Db LogStore LogTheorems Table HeadStore KeyStore ServerState Service.

Section Paging.
Context `{Sha256} {R : Rocksdb} {P : Prost} {RL : RocksdbLaws} {PL : ProstLaws}.
Context {D : ErrorDisplay} `{Ed25519} `{RateLimit} `{Profile}.
Abbreviation seq := LogEntry.seq.

(** Follow the cursors of [page] from [cursor] on. *)
Fixpoint walk (fuel : nat) (page : Z -> outcome (result (list Entry.t * Z) Status)) (cursor : Z)
  : outcome (result (list Entry.t) Status) :=
  match fuel with
  | O => OutOfFuel
  | S fuel =>
      let! r := page cursor in
      match r with
      | Err s => Ret (Err s)
      | Ok (entries, next_cursor) =>
          if next_cursor =? 0 then Ret (Ok entries)
          else let? rest := walk fuel page next_cursor in Ret (Ok (entries ++ rest))
      end
  end.

(** A list of entries cut into pages: the page at a cursor is a non-empty prefix of
    what is left there, and its cursor says where the rest starts. *)
Definition pages (page : Z -> outcome (result (list Entry.t * Z) Status))
    (left_at : Z -> list LogEntry.t) (ok : Z -> Prop) (failed : Status -> Prop) : Prop :=
  forall c, ok c -> exists r, page c = Ret r /\
    match r with
    | Err s => failed s
    | Ok (entries, next) => exists now later, left_at c = now ++ later /\
        entries = entry_to_pb <$> now /\
        if next =? 0 then later = []
        else ok next /\ left_at next = later /\ now <> []
    end.

Lemma walk_pages page left_at ok failed fuel : pages page left_at ok failed ->
  forall c, ok c -> (length (left_at c) < fuel)%nat ->
  exists r, walk fuel page c = Ret r /\
    match r with
    | Err s => failed s
    | Ok entries => entries = entry_to_pb <$> left_at c
    end.
Proof.
  intros Hp. induction fuel as [|fuel IH]; intros c Hc Hf; [lia|]. cbn [walk].
  destruct (Hp c Hc) as (r & Er & Hr). rewrite Er. cbn [obind].
  destruct r as [[entries next]|s]; [|by eexists]. destruct Hr as (now & later & El & -> & Hn).
  rewrite El in Hf |- *. rewrite length_app in Hf. destruct (next =? 0).
  { subst later. rewrite app_nil_r. by eexists. }
  destruct Hn as (Hok & Eln & Hne). destruct (IH next Hok) as (r & Ew & Hw).
  { rewrite Eln. destruct now; [done|]. cbn [length] in Hf. lia. }
  rewrite Ew. cbn [obind]. destruct r as [rest|s]; [|by eexists].
  eexists. split; [done|]. rewrite Hw, Eln. by rewrite fmap_app.
Qed.

(** A failed page: RocksDB failed. *)
Definition page_fault (st : AppState) (s : Status) : Prop :=
  exists n e, iter_fails (db (inner st)) CF_LOG (IterFrom (to_vec (u64_to_be_bytes n))) e /\
    s = to_status (EStorage (RocksDb e)).

(** The start of a page of ListEntries. *)
Definition list_start (from_seq cursor : Z) : Z := if 0 <? cursor then cursor else from_seq.

Lemma page_limit limit max dflt :
  0 <= limit -> 0 < max -> 0 < dflt -> 0 < (if limit =? 0 then dflt else Z.min limit max).
Proof. intros. destruct (Z.eqb_spec limit 0); lia. Qed.

Lemma take_app_nonempty {A} n (l : list A) x : l !! n = Some x -> take (S n) l <> [].
Proof. destruct l; [done|]. by destruct n. Qed.

Lemma list_pages st es from_seq to_seq limit :
  db_rep (inner st) es -> in_u64 from_seq -> 0 <= to_seq -> 0 <= limit ->
  pages (fun c => rpc_list_entries st from_seq to_seq c limit)
    (fun c => filter (in_page (list_start from_seq c) to_seq) es)
    in_u64 (page_fault st).
Proof.
  intros Hr Hf Ht Hl c Hc. unfold rpc_list_entries. fold (list_start from_seq c).
  pose proof (page_limit limit MAX_LIST DEFAULT_LIST Hl ltac:(done) ltac:(done)) as Hlim.
  set (l := if limit =? 0 then _ else _) in *.
  assert (Hst : in_u64 (list_start from_seq c)) by (unfold list_start; by destruct (0 <? c)).
  destruct (seq_range_paged_ok _ _ _ to_seq l Hr Hst Hlim) as [E|(e & He & E)]; rewrite E; cbn [obind].
  2:{ eexists. split; [done|]. by exists (list_start from_seq c), e. }
  eexists. split; [done|]. set (F := filter _ es).
  pose proof (log_rep_sorted _ _ (rep_log _ _ Hr)) as Hs.
  destruct (page_split es (list_start from_seq c) to_seq (Z.to_nat (l - 1)) _ Hs (rep_wf _ _ Hr) Ht eq_refl)
    as [Hz Hnz]. fold F in Hz, Hnz. remember (from_option (cursor_after to_seq ∘ seq) 0 (F !! Z.to_nat (l - 1))) as next eqn:En.
  replace (S (Z.to_nat (l - 1))) with (Z.to_nat l) in * by lia.
  exists (take (Z.to_nat l) F), (drop (Z.to_nat l) F). split; [by rewrite take_drop|]. split; [done|].
  destruct (Z.eqb_spec next 0) as [E0|E0].
  { specialize (Hz E0). rewrite <- (take_drop (Z.to_nat l) F) in Hz at 2.
    rewrite <- (app_nil_r (take _ _)) in Hz at 1. by apply app_inv_head in Hz. }
  destruct (Hnz E0) as [Hlt Ef]. destruct (F !! Z.to_nat (l - 1)) as [e|] eqn:Ee; cbn in En; [|lia].
  assert (Hu : in_u64 (seq e + 1)).
  { apply list_elem_of_lookup_2, list_elem_of_filter in Ee as [_ Ee].
    pose proof (rep_succ _ _ Hr) as Hsu. rewrite Forall_forall in Hsu. by apply Hsu. }
  assert (En' : next = seq e + 1).
  { unfold cursor_after in En. by destruct (_ || _). }
  split; [by rewrite En'|]. split.
  - assert (list_start from_seq next = next) as ->; [|done].
    unfold list_start. rewrite (proj2 (Z.ltb_lt 0 next)); [done|]. unfold in_u64 in Hst. lia.
  - apply take_app_nonempty in Ee. by replace (S (Z.to_nat (l - 1))) with (Z.to_nat l) in Ee by lia.
Qed.

(** Entries with a key, from a number on. *)
Definition with_key (key : bytes) (es : list LogEntry.t) (c : Z) : list LogEntry.t :=
  filter (fun e => LogEntry.key e = key /\ c <= seq e) es.

Lemma with_key_after key es c n e :
  seq_sorted es -> with_key key es c !! n = Some e ->
  with_key key es (seq e + 1) = drop (S n) (with_key key es c) /\ e ∈ es /\ c <= seq e.
Proof.
  intros Hs Ee. pose proof (take_drop_middle _ n e Ee) as EF.
  assert (HsF : seq_sorted (with_key key es c)) by by apply StronglySorted_filter.
  assert (He : e ∈ es /\ c <= seq e).
  { apply list_elem_of_lookup_2, list_elem_of_filter in Ee. naive_solver. }
  split; [|done]. transitivity (filter (fun x => seq e + 1 <= seq x) (with_key key es c)).
  - unfold with_key. rewrite list_filter_filter. apply list_filter_iff. intros x. split; [|naive_solver].
    intros [Hk Hx]. split; [done|]. split; [done|]. lia.
  - rewrite <- EF at 1. rewrite filter_after; [done|]. by rewrite EF.
Qed.

Lemma key_pages st es key limit :
  db_rep (inner st) es -> key <> [] -> 0 <= limit ->
  pages (fun c => rpc_get_by_key st key c limit) (with_key key es) in_u64 (page_fault st).
Proof.
  intros Hr Hk Hl c Hc. unfold rpc_get_by_key. rewrite decide_False by done.
  pose proof (page_limit limit MAX_BY_KEY DEFAULT_BY_KEY Hl ltac:(done) ltac:(done)) as Hlim.
  set (l := if limit =? 0 then _ else _) in *.
  destruct (entries_by_key_ok _ _ key c l Hr Hc Hlim) as [E|(e & He & E)]; rewrite E; cbn [obind].
  2:{ eexists. split; [done|]. by exists c, e. }
  eexists. split; [done|]. fold (with_key key es c). set (F := with_key key es c) in *.
  exists (take (Z.to_nat l) F), (drop (Z.to_nat l) F). split; [by rewrite take_drop|]. split; [done|].
  pose proof (log_rep_sorted _ _ (rep_log _ _ Hr)) as Hs.
  destruct (F !! Z.to_nat (l - 1)) as [e|] eqn:Ee; cbn [from_option].
  2:{ apply lookup_ge_None in Ee. apply drop_ge. lia. }
  destruct (with_key_after key es c _ e Hs Ee) as (Ef & Hin & Hle).
  replace (S (Z.to_nat (l - 1))) with (Z.to_nat l) in Ef by lia.
  pose proof (rep_succ _ _ Hr) as Hsu. rewrite Forall_forall in Hsu.
  rewrite (proj2 (Z.eqb_neq (seq e + 1) 0)) by (unfold in_u64 in *; lia).
  split; [by apply Hsu|]. split; [done|].
  apply take_app_nonempty in Ee. by replace (S (Z.to_nat (l - 1))) with (Z.to_nat l) in Ee by lia.
Qed.

(** C28: paging is complete on a log that does not change meanwhile: all pages are read from one state.  Following the cursors of ListEntries from 0 ends, and the
    pages together are exactly the entries numbered in [\[from_seq, to_seq)] (no upper bound for
    [to_seq = 0]), in order, none missing or repeated, whatever page size is asked
    for; the same for GetByKey and the entries with the key, which come oldest first, contrary to
    proto/settled.v1.proto (line 206), where GetByKey is documented as newest-to-oldest.  The walk fails only if an
    iterator of RocksDB fails. *)
Theorem paging_complete (st : AppState) (es : list LogEntry.t) (from_seq to_seq limit : Z) (key : bytes)
    (fuel : nat) (Hr : db_rep (inner st) es) (Hf : in_u64 from_seq) (Ht : in_u64 to_seq)
    (Hl : in_u32 limit) (Hk : key <> []) (Hfuel : (length es < fuel)%nat) :
  (exists r, walk fuel (fun c => rpc_list_entries st from_seq to_seq c limit) 0 = Ret r /\
     match r with
     | Ok l => l = entry_to_pb <$> filter (in_page from_seq to_seq) es
     | Err s => page_fault st s
     end) /\
  (exists r, walk fuel (fun c => rpc_get_by_key st key c limit) 0 = Ret r /\
     match r with
     | Ok l => l = entry_to_pb <$> filter (fun e => LogEntry.key e = key) es
     | Err s => page_fault st s
     end).
Proof.
  pose proof (rep_wf _ _ Hr) as Hw. split.
  - apply (walk_pages _ _ _ _ _ (list_pages st es from_seq to_seq limit Hr Hf (proj1 Ht) (proj1 Hl)));
      [done|]. eapply Nat.le_lt_trans; [apply length_filter|done].
  - assert (Ek : with_key key es 0 = filter (fun e => LogEntry.key e = key) es).
    { unfold with_key. clear -Hw. induction Hw as [|e es [[He _] _] _ IH]; [done|].
      rewrite !filter_cons, IH. by repeat case_decide; naive_solver. }
    destruct (walk_pages _ _ _ _ fuel (key_pages st es key limit Hr Hk (proj1 Hl)) 0) as (r & E & Hp);
      [done|eapply Nat.le_lt_trans; [apply length_filter|done]|].
    exists r. split; [done|]. destruct r as [l|s]; [|done]. by rewrite Hp, Ek.
Qed.
End Paging.
