(* ===== verification/SthTask.v ===== *)
(** * The signing task (crates/settled-server/src/sth_task.rs, [run])

    The loop that signs a head at every interval and once more at shutdown.  The server handles requests while it
    sleeps: each wake-up comes with the requests of [Poison] handled since the one before, real handlers
    with their panics and the poisoned lock. *)

From S2P Require Import Prelude Bytes Hash MerkleSpec Merkle MerkleProof Sth Rocksdb StorageTypes.
From S2P Require Import Db LogStore LogTheorems Table HeadStore KeyStore ServerState Service ServerInv.
From S2P Require Import Concurrent ProofTheorems ServiceTheorems Admin Poison.

(** The branch of [select!] that wakes the task, with the time of the clock. *)
Inductive wake :=
| Elapsed (now : Z)
| ShutdownChanged (now : Z).

Section Run.
Context `{Sha256} {R : Rocksdb} {P : Prost} {RL : RocksdbLaws} {PL : ProstLaws}.
Context {D : ErrorDisplay} `{Ed25519} `{RateLimit} `{Profile} `{Hex}.
Abbreviation size := SignedTreeHead.tree_size.

(** Returns the state, the replies to the requests, the results of the signing runs (errors are logged; [None] is a panic,
    which ends the task, or a task that has ended that way) and whether the shutdown has come. *)
Fixpoint run (g : guarded) (wakes : list (list request * wake))
  : guarded * list reply * list (option (result unit StorageTypes.Error)) * bool :=
  match wakes with
  | [] => (g, [], [], false)
  | (rqs, Elapsed now) :: wakes =>
      let '(g, rs) := exec_all g rqs in
      let '(g, r) := guarded_tick g now in
      let '(g, rs', ss, done) := run g wakes in
      (g, rs ++ rs', r :: ss, done)
  | (rqs, ShutdownChanged now) :: _ =>
      let '(g, rs) := exec_all g rqs in
      let '(g, r) := guarded_tick g now in
      (g, rs, [r], true)
  end.

(** Requests between interval wake-ups. *)
Definition elapsed (traffic : list (list request * Z)) : list (list request * wake) :=
  (fun '(rqs, now) => (rqs, Elapsed now)) <$> traffic.
Definition requests_of (traffic : list (list request * Z)) : list request := concat traffic.*1.

Lemma entries_all_app a b : entries_all (a ++ b) = entries_all a + entries_all b.
Proof. unfold entries_all. induction a as [|x a IH]; [done|]. rewrite <- app_comm_cons. cbn. lia. Qed.
Lemma rotations_all_app a b : rotations_all (a ++ b) = rotations_all a + rotations_all b.
Proof. unfold rotations_all. induction a as [|x a IH]; [done|]. rewrite <- app_comm_cons. cbn. lia. Qed.
Lemma accepted_all_app a b rs rs' :
  length rs = length a -> accepted_all (a ++ b) (rs ++ rs') = accepted_all a rs + accepted_all b rs'.
Proof.
  revert rs. unfold accepted_all. induction a as [|x a IH]; intros [|r rs] El; try done.
  rewrite <- !app_comm_cons. cbn. rewrite IH by (cbn in El; lia). lia.
Qed.

Lemma run_app g traffic rest :
  run g (elapsed traffic ++ rest) =
  let '(g, rs, ss, _) := run g (elapsed traffic) in
  let '(g, rs', ss', b) := run g rest in (g, rs ++ rs', ss ++ ss', b).
Proof.
  revert g. induction traffic as [|[rqs now] traffic IH]; intros g.
  { unfold elapsed. rewrite fmap_nil, app_nil_l. cbn [run]. destruct (run g rest) as [[[g1 rs1] ss1] b1]. reflexivity. }
  unfold elapsed. rewrite fmap_cons, <- app_comm_cons. fold (elapsed traffic). cbn [run].
  destruct (exec_all g rqs) as [g1 rs1]. destruct (guarded_tick g1 now) as [g2 r]. rewrite IH.
  destruct (run g2 (elapsed traffic)) as [[[g3 rs3] ss3] b3]. destruct (run g3 rest) as [[[g4 rs4] ss4] b4].
  by rewrite app_assoc.
Qed.

(** Requests, then a signing run. *)
Lemma wake_harmless g es hs ks rqs now n v :
  in_order g es hs ks -> Forall timely rqs -> 0 <= now ->
  room g (entries_all rqs + n) (rotations_all rqs + v) -> 0 <= n -> 0 <= v ->
  exists g1 rs g' r es' hs' ks', exec_all g rqs = (g1, rs) /\ guarded_tick g1 now = (g', Some r) /\
    Panicked ∉ rs /\ length rs = length rqs /\ len es' = accepted_all rqs rs /\
    in_order g' (es ++ es') hs' ks' /\ room g' n v /\
    match r with
    | Ok _ => es ++ es' = [] \/ exists h, find_id size (len (es ++ es')) hs' = Some h
    | Err e => external_error e
    end.
Proof.
  intros Hord Ht Hnow Hroom Hn Hv.
  destruct (exec_all_harmless rqs g es hs ks n v Hord Ht Hroom Hn Hv)
    as (g1 & rs & es' & hs1 & ks' & E & Hp & Hord1 & Hroom1 & El & Ea).
  destruct (guarded_sign_ok g1 _ hs1 ks' now n v Hord1 Hroom1 Hnow Hv) as (st & r & hs' & _ & Et & Hord' & Hroom' & Hr).
  exists g1, rs, (with_shared g1 st), r, es', hs', ks'. auto 8.
Qed.

(** No request and no signing run panics, and the server stays in order. *)
Lemma run_harmless traffic : forall g es hs ks n v,
  in_order g es hs ks -> Forall timely (requests_of traffic) -> Forall (fun now => 0 <= now) traffic.*2 ->
  room g (entries_all (requests_of traffic) + n) (rotations_all (requests_of traffic) + v) -> 0 <= n -> 0 <= v ->
  exists g' rs ss es' hs' ks', run g (elapsed traffic) = (g', rs, ss, false) /\
    Panicked ∉ rs /\ None ∉ ss /\ (forall e, Some (Err e) ∈ ss -> external_error e) /\
    length rs = length (requests_of traffic) /\ len es' = accepted_all (requests_of traffic) rs /\
    in_order g' (es ++ es') hs' ks' /\ room g' n v.
Proof.
  induction traffic as [|[rqs now] traffic IH]; intros g es hs ks n v Hord Ht Hc Hroom Hn Hv.
  { exists g, [], [], [], hs, ks. rewrite app_nil_r. split; [done|]. do 2 (split; [by intros ?%elem_of_nil|]).
    split; [by intros e ?%elem_of_nil|]. do 3 (split; [done|]). by rewrite !Z.add_0_l in Hroom. }
  unfold requests_of in Ht, Hroom. rewrite fmap_cons in Ht, Hroom. cbn [concat fst] in Ht, Hroom.
  fold (requests_of traffic) in Ht, Hroom.
  apply Forall_app in Ht as [Ht1 Ht]. apply Forall_cons in Hc as [Hc1 Hc].
  rewrite entries_all_app, rotations_all_app, <- !Z.add_assoc in Hroom.
  pose proof (entries_all_nonneg (requests_of traffic)). pose proof (rotations_all_nonneg (requests_of traffic)).
  destruct (wake_harmless g es hs ks rqs now _ _ Hord Ht1 Hc1 Hroom) as
    (g1 & rs1 & g2 & r & es1 & hs1 & ks1 & E1 & E2 & Hp1 & Hl1 & Ha1 & Hord1 & Hroom1 & Hr); [lia..|].
  destruct (IH g2 _ hs1 ks1 n v Hord1 Ht Hc Hroom1 Hn Hv) as
    (g3 & rs3 & ss3 & es3 & hs3 & ks3 & E3 & Hp3 & Hs3 & He3 & Hl3 & Ha3 & Hord3 & Hroom3).
  exists g3, (rs1 ++ rs3), (Some r :: ss3), (es1 ++ es3), hs3, ks3. rewrite app_assoc.
  unfold elapsed. rewrite fmap_cons. fold (elapsed traffic). cbn [run]. rewrite E1, E2, E3. split; [done|].
  split; [by rewrite not_elem_of_app|]. split; [by rewrite not_elem_of_cons|].
  split; [intros e [Ee|Hin]%elem_of_cons; [by injection Ee as <-|by apply He3]|].
  unfold requests_of. rewrite fmap_cons. cbn [concat fst]. fold (requests_of traffic).
  split; [rewrite !length_app; lia|]. split; [|done].
  rewrite len_app, accepted_all_app by done. by rewrite Ha1, Ha3.
Qed.

(** The task leaves a complete log behind.  Whatever requests the server handles between its wake-ups, the task signs at every
    interval, survives every failed signing (only RocksDB or the encoder fail), and returns at shutdown; the server stays in
    order, the log has grown by exactly the entries that were accepted, and if the last run succeeded, there is a
    stored head for the whole log at that moment. *)
Lemma run_spec g es hs ks traffic last_requests now later :
  in_order g es hs ks -> Forall timely (requests_of traffic ++ last_requests) ->
  Forall (fun now => 0 <= now) traffic.*2 -> 0 <= now ->
  room g (entries_all (requests_of traffic ++ last_requests)) (rotations_all (requests_of traffic ++ last_requests)) ->
  exists g' rs ss r es' hs' ks',
    run g (elapsed traffic ++ (last_requests, ShutdownChanged now) :: later) = (g', rs, ss ++ [Some r], true) /\
    Panicked ∉ rs /\ None ∉ ss /\ (forall e, Some (Err e) ∈ ss -> external_error e) /\
    len es' = accepted_all (requests_of traffic ++ last_requests) rs /\ in_order g' (es ++ es') hs' ks' /\
    match r with
    | Ok _ => es ++ es' = [] \/ exists h, find_id size (len (es ++ es')) hs' = Some h
    | Err e => external_error e
    end.
Proof.
  intros Hord [Ht1 Ht2]%Forall_app Hc Hnow Hroom. rewrite entries_all_app, rotations_all_app in Hroom.
  pose proof (entries_all_nonneg last_requests). pose proof (rotations_all_nonneg last_requests).
  destruct (run_harmless traffic g es hs ks _ _ Hord Ht1 Hc Hroom) as
    (g1 & rs1 & ss1 & es1 & hs1 & ks1 & E1 & Hp1 & Hs1 & He1 & Hl1 & Ha1 & Hord1 & Hroom1); [lia..|].
  rewrite <- (Z.add_0_r (entries_all _)), <- (Z.add_0_r (rotations_all _)) in Hroom1.
  destruct (wake_harmless g1 _ hs1 ks1 last_requests now 0 0 Hord1 Ht2 Hnow Hroom1) as
    (g2 & rs2 & g3 & r & es2 & hs2 & ks2 & E2 & E3 & Hp2 & Hl2 & Ha2 & Hord2 & _ & Hr); [lia..|].
  rewrite <- app_assoc in Hord2, Hr.
  exists g3, (rs1 ++ rs2), ss1, r, (es1 ++ es2), hs2, ks2. rewrite run_app, E1. cbn [run]. rewrite E2, E3.
  split; [done|]. split; [by rewrite not_elem_of_app|]. do 2 (split; [done|]). split; [|done].
  rewrite len_app, accepted_all_app by done. by rewrite Ha1, Ha2.
Qed.
End Run.
