(* ===== verification/ServerMain.v ===== *)
(** * The server process (crates/settled-server/src/{main,admin}.rs)

    The command line and the configuration made from it, the admin router, and the life of
    the process: start-up, serving, and the shutdown sequence that leaves a head for the whole
    log.  Sockets, signals and timers are arguments. *)

From Stdlib Require String.
From S2P Require Import Prelude Bytes Hash MerkleSpec Merkle MerkleProof Sth Rocksdb StorageTypes Utf8.
From S2P Require Import Db LogStore LogTheorems Table HeadStore KeyStore ServerState Service.
From S2P Require Import ServerInv Concurrent ProofTheorems ServiceTheorems Admin Poison SthTask.
Import String.StringSyntax.

(** ** Arguments and configuration *)

(** Paths and addresses are their text. *)
Module Args.
Record t := mk {
  data_dir : bytes;
  key_path : option bytes;
  listen : bytes;
  admin_listen : bytes;
  sth_interval_secs : Z;
  api_key : option String.string;
  max_appends_per_sec : option Z;
  max_get_latest : Z;
  max_message_bytes : Z
}.
(** Without options and environment. *)
Definition default : t :=
  mk (txt "/var/lib/settled") None (txt "0.0.0.0:50051") (txt "0.0.0.0:8080") 60 None None 1000
    (4 * 1024 * 1024).
End Args.

(** [PathBuf::join] with a relative name. *)
Definition path_join (p name : bytes) : bytes :=
  match last p with
  | None => name
  | Some c => if bool_decide (c = Init.Byte.x2f) then p ++ name else p ++ txt "/" ++ name
  end.

(** The configuration in full; [Config] has the fields the handlers read. *)
Module ServerConfig.
Record t := mk {
  data_dir : bytes;
  key_path : bytes;
  listen : bytes;
  admin_listen : bytes;
  sth_interval_secs : Z;
  api_key : option String.string;
  max_appends_per_sec : option Z;
  max_get_latest : Z;
  max_message_bytes : Z
}.
End ServerConfig.

Definition config_of_args (args : Args.t) : ServerConfig.t :=
  let key_path := match Args.key_path args with
                  | Some p => p
                  | None => path_join (Args.data_dir args) (txt "signing.key")
                  end in
  ServerConfig.mk (Args.data_dir args) key_path (Args.listen args) (Args.admin_listen args)
    (Args.sth_interval_secs args) (Args.api_key args) (Args.max_appends_per_sec args)
    (Args.max_get_latest args) (Args.max_message_bytes args).

Definition app_config (c : ServerConfig.t) : Config :=
  mkConfig (ServerConfig.api_key c) (ServerConfig.max_appends_per_sec c) (ServerConfig.max_get_latest c).

Example default_key_path :
  ServerConfig.key_path (config_of_args Args.default) = txt "/var/lib/settled/signing.key".
Proof. reflexivity. Qed.

(** ** The admin router (admin.rs) *)

(** HEAD is answered as GET. *)
Inductive Method := GET | POST | OtherMethod.
Inductive Route := Health | Metrics | Keys | RotateKey | Sth | Stats | ForceSth.

(** The routes, with the method each accepts. *)
Definition routes : list (bytes * (Method * Route)) := [
  (txt "/health", (GET, Health));
  (txt "/metrics", (GET, Metrics));
  (txt "/api/keys", (GET, Keys));
  (txt "/api/rotate-key", (POST, RotateKey));
  (txt "/api/sth", (GET, Sth));
  (txt "/api/stats", (GET, Stats));
  (txt "/api/sth/force", (POST, ForceSth))
].
Definition find_route (path : bytes) : option (Method * Route) :=
  snd <$> find (fun r => bool_decide (r.1 = path)) routes.

Inductive Reply :=
| ReplyStatus (code : Z)
| ReplyText (text : bytes)
| ReplyKeys (l : list KeyRecordJson.t)
| ReplyKey (k : KeyRecordJson.t)
| ReplySth (s : SthJson.t)
| ReplyStats (s : StatsJson.t).

Definition status_code (s : StatusCode) : Z :=
  match s with OK => 200 | NO_CONTENT => 204 | INTERNAL_SERVER_ERROR => 500 end.
Definition reply {A} (f : A -> Reply) (r : result A StatusCode) : Reply :=
  match r with Ok a => f a | Err s => ReplyStatus (status_code s) end.

#[global] Instance Method_eq_dec : EqDecision Method.
Proof. solve_decision. Defined.

Section Router.
Context `{Sha256} `{Rocksdb} `{Prost} `{Ed25519} `{RateLimit} `{Profile} `{Hex}.

(** The handler [metrics]; [gathered] is what the Prometheus encoder returns. *)
Definition metrics (gathered : result bytes unit) : result bytes StatusCode :=
  match gathered with Ok s => Ok s | Err _ => Err INTERNAL_SERVER_ERROR end.

(** A request, with what the clock, the key generator and the key file would yield, while the append lock is not
    poisoned; once it is, the three routes that take it panic ([Poison.exec_poisoned]). *)
Definition admin_request (m : Method) (path : bytes) (st : AppState) (gathered : result bytes unit)
    (fresh : SigningKey) (w : fs_write) (now : Z) : outcome (AppState * Reply) :=
  match find_route path with
  | None => Ret (st, ReplyStatus 404)
  | Some (m', route) =>
      if bool_decide (m <> m') then Ret (st, ReplyStatus 405)
      else
        match route with
        | Health => Ret (st, ReplyStatus (status_code health))
        | Metrics => Ret (st, reply ReplyText (metrics gathered))
        | Keys => Ret (st, reply ReplyKeys (list_keys st))
        | RotateKey => let! (st, r) := rotate_key st fresh w in Ret (st, reply ReplyKey r)
        | Sth => Ret (st, reply ReplySth (admin_get_sth st))
        | Stats => Ret (st, reply ReplyStats (stats st))
        | ForceSth => let! (st, r) := force_sth st now in Ret (st, reply ReplySth r)
        end
  end.
End Router.

(** ** The process (main.rs) *)

Inductive MainError `{Rocksdb} `{Prost} :=
| MBuild (e : StartError)
| MAdminBind
| MServe.

Section Process.
Context `{Sha256} {R : Rocksdb} {P : Prost} {RL : RocksdbLaws} {PL : ProstLaws}.
Context {D : ErrorDisplay} `{Ed25519} `{RateLimit} `{Profile} `{Hex}.
Abbreviation size := SignedTreeHead.tree_size.

(** What happens around the process while it runs: whether the admin socket can be bound and the gRPC server
    ends without an error, the requests handled before each wake-up of the signing task and the
    time of it, the requests handled after the last of these, the time of the shutdown, and whether the task then
    ends within ten seconds. *)
Record surroundings := mkSurroundings {
  admin_bound : bool;
  served : bool;
  traffic : list (list request * Z);
  last_requests : list request;
  shutdown_at : Z;
  joined : bool
}.

(** If the admin socket cannot be bound, no request is served before [main] returns. *)
Definition handled (o : surroundings) : list (list request * Z) :=
  if admin_bound o then traffic o else (fun '(_, now) => ([], now)) <$> traffic o.
Definition handled_last (o : surroundings) : list request := if admin_bound o then last_requests o else [].

(** [main] after [AppState::build]: the state in the end, the replies to the requests and the results of the signing runs. *)
Definition serve_until_shutdown (o : surroundings) (st : AppState)
  : guarded * list Poison.reply * list (option (result unit StorageTypes.Error)) * result unit MainError :=
  let g := mkGuarded _ _ _ st false true in
  if admin_bound o && served o && joined o then
    let '(g, rs, ss, _) := run g (elapsed (handled o) ++ [(handled_last o, ShutdownChanged (shutdown_at o))]) in
    (g, rs, ss, Ok tt)
  else
    (* the signing task is dropped, or given up on, before its last run *)
    let '(g, rs, ss, _) := run g (elapsed (handled o)) in
    let '(g, rs') := exec_all g (handled_last o) in
    (g, rs ++ rs', ss, if admin_bound o then if served o then Ok tt else Err MServe else Err MAdminBind).

Definition main (args : Args.t) (dir_ok : bool) (opened : result rdb rdb_error) (file : option bytes)
    (read_ok : bool) (fresh : SigningKey) (w : fs_write) (start : Z) (o : surroundings)
  : outcome (option (guarded * list Poison.reply * list (option (result unit StorageTypes.Error))) * result unit MainError) :=
  let! r := build (app_config (config_of_args args)) dir_ok opened file read_ok fresh w start in
  match r with
  | Err e => Ret (None, Err (MBuild e))
  | Ok st => let '(g, rs, ss, r) := serve_until_shutdown o st in Ret (Some (g, rs, ss), r)
  end.

(** ** Properties *)

(** C33: the admin API cannot touch the log.  Every request returns, whatever its path and method: an unknown path is
    answered 404 and a wrong method 405; GET requests change nothing; the two POST routes keep the server's
    invariant with the same log, and the heads stay as they were but for the one a forced
    signing adds. *)
Theorem admin_requests_safe (m : Method) (path : bytes) (st : AppState) (gathered : result bytes unit)
    (fresh : SigningKey) (w : fs_write) (now : Z) (es : list LogEntry.t) (hs : list SignedTreeHead.t)
    (ks : list KeyRecord.t) (Hok : server_ok st es hs) (Hk : keys_rep (inner st) ks)
    (Hv : 0 <= sig_version (signer st) < two32 - 1) (Hnow : 0 <= now) :
  exists st' rep, admin_request m path st gathered fresh w now = Ret (st', rep) /\
    (exists hs', server_ok st' es hs' /\
       (hs' = hs \/ exists h, head_ok es h /\ head_signed h /\ hs' = upsert size h hs)) /\
    (m <> POST -> st' = st) /\
    match find_route path with
    | None => rep = ReplyStatus 404 /\ st' = st
    | Some (m', _) => m <> m' -> rep = ReplyStatus 405 /\ st' = st
    end.
Proof.
  assert (Hkeep : exists hs', server_ok st es hs' /\
    (hs' = hs \/ exists h, head_ok es h /\ head_signed h /\ hs' = upsert size h hs)) by (exists hs; auto).
  unfold admin_request. destruct (find_route path) as [[m' route]|] eqn:Er; [|by exists st, (ReplyStatus 404)].
  case_bool_decide as Hm; [by exists st, (ReplyStatus 405)|].
  assert (m = m') as -> by (destruct (decide (m = m')); [done|by destruct Hm]).
  assert (Hpost : route = RotateKey \/ route = ForceSth -> m' = POST).
  { unfold find_route in Er. destruct (find _ routes) as [[p r]|] eqn:Ef; [|done]. injection Er as ->.
    apply find_some in Ef as [Hin _]. cbn in Hin. intuition congruence. }
  destruct route; try (eexists _, _; split; [reflexivity|]; done).
  - rewrite Hpost by auto.
    destruct (rotate_key_ok st es hs ks fresh w Hok Hk) as (st' & r & E & Hok' & _); [unfold in_u32, two32 in *; lia..|].
    rewrite E. cbn [obind]. exists st', (reply ReplyKey r). split; [done|]. split; [exists hs; auto|]. done.
  - rewrite Hpost by auto. unfold force_sth.
    destruct (sign_and_store_spec st es hs now Hok) as (st' & r & hs' & E & Hok' & Hh & _);
      [unfold in_u32; lia|done|]. rewrite E.
    destruct r as [u|e]; cbn [obind]; eexists _, _; (split; [reflexivity|]); (split; [by exists hs'|]); done.
Qed.

(** The key version of a server that has started. *)
Lemma start_version_range s ks : keys_rep s ks -> in_u32 (start_version ks).
Proof.
  intros Hk. unfold start_version. destruct (last ks) as [r|] eqn:El; [|by split].
  apply last_Some_elem_of in El. apply list_elem_of_lookup in El as [i Hi].
  destruct (Forall2_lookup_l _ _ _ _ _ Hk Hi) as (kv & _ & _ & [_ Hw] & _). apply Hw.
Qed.

(** All requests of a run. *)
Definition requests (o : surroundings) : list request := requests_of (handled o) ++ handled_last o.

Lemma start_in_order cfg s es hs ks dir_ok file read_ok fresh w start st n v :
  db_rep s es -> heads_rep s hs -> Forall (head_ok es) hs -> keys_rep s ks ->
  build cfg dir_ok (Ok (db s)) file read_ok fresh w start = Ret (Ok st) ->
  next_number es + n < two64 -> start_version ks + v < two32 ->
  exists ks', in_order (mkGuarded _ _ _ st false true) es hs ks' /\ room (mkGuarded _ _ _ st false true) n v.
Proof.
  intros Hdb Hh Hro Hk Hb Hn Hv.
  destruct (startup_spec cfg s es hs ks dir_ok file read_ok fresh w start Hdb Hh Hro Hk) as (r & E & Hr).
  rewrite Hb in E. injection E as <-. destruct Hr as (Hok & Hk' & Ev & _ & En & _).
  exists (seeded ks (public_key (signer st))). split; [by split|].
  split; [cbn; by rewrite En|]. cbn. rewrite Ev. pose proof (start_version_range s ks Hk) as [Hz _]. lia.
Qed.

(** The state in the end: in order, the log grown by the accepted entries, and, after a clean
    shutdown, covered by a head unless RocksDB or the encoder failed in the last signing. *)
Definition run_ended (o : surroundings) (es : list LogEntry.t) (g : guarded) (rs : list Poison.reply)
    (ss : list (option (result unit StorageTypes.Error))) : Prop :=
  Panicked ∉ rs /\ None ∉ ss /\ (forall e, Some (Err e) ∈ ss -> external_error e) /\
  exists es' hs' ks', in_order g (es ++ es') hs' ks' /\ len es' = accepted_all (requests o) rs /\
    (admin_bound o && served o && joined o = true ->
     exists r, last ss = Some (Some r) /\
       (r = Ok tt -> es ++ es' = [] \/ exists h, find_id size (len (es ++ es')) hs' = Some h)).

Lemma serve_ended o st es hs ks :
  in_order (mkGuarded _ _ _ st false true) es hs ks ->
  room (mkGuarded _ _ _ st false true) (entries_all (requests o)) (rotations_all (requests o)) ->
  Forall timely (requests o) -> Forall (fun now => 0 <= now) (handled o).*2 -> 0 <= shutdown_at o ->
  exists g rs ss r, serve_until_shutdown o st = (g, rs, ss, r) /\ run_ended o es g rs ss /\
    (admin_bound o && served o && joined o = true -> r = Ok tt).
Proof.
  intros Hord Hroom Ht Hc Hnow. unfold serve_until_shutdown, run_ended.
  destruct (admin_bound o && served o && joined o) eqn:Eb.
  - destruct (run_spec _ es hs ks (handled o) (handled_last o) (shutdown_at o) [] Hord Ht Hc Hnow Hroom)
      as (g & rs & ss & r & es' & hs' & ks' & E & Hp & Hs & He & Ha & Hord' & Hr).
    rewrite E. exists g, rs, (ss ++ [Some r]), (Ok tt). split; [done|]. split; [|done]. split; [done|].
    split; [rewrite not_elem_of_app; split; [done|]; by intros ?%list_elem_of_singleton|]. split.
    { intros e [Hin|Ee%list_elem_of_singleton]%elem_of_app; [by apply He|]. injection Ee as <-. exact Hr. }
    exists es', hs', ks'. split; [done|]. split; [done|]. intros _. exists r. rewrite last_snoc.
    split; [done|]. intros ->. exact Hr.
  - apply Forall_app in Ht as [Ht1 Ht2]. unfold requests in Hroom. rewrite entries_all_app, rotations_all_app in Hroom.
    pose proof (entries_all_nonneg (handled_last o)). pose proof (rotations_all_nonneg (handled_last o)).
    destruct (run_harmless (handled o) _ es hs ks _ _ Hord Ht1 Hc Hroom) as
      (g1 & rs1 & ss1 & es1 & hs1 & ks1 & E1 & Hp1 & Hs1 & He1 & Hl1 & Ha1 & Hord1 & Hroom1); [lia..|].
    rewrite <- (Z.add_0_r (entries_all _)), <- (Z.add_0_r (rotations_all _)) in Hroom1.
    destruct (exec_all_harmless (handled_last o) g1 _ hs1 ks1 0 0 Hord1 Ht2 Hroom1) as
      (g2 & rs2 & es2 & hs2 & ks2 & E2 & Hp2 & Hord2 & _ & Hl2 & Ha2); [lia..|].
    rewrite E1, E2. eexists g2, (rs1 ++ rs2), ss1, _. split; [done|]. split; [|done].
    split; [by rewrite not_elem_of_app|]. do 2 (split; [done|]). exists (es1 ++ es2), hs2, ks2. rewrite app_assoc.
    split; [done|]. split; [|done]. unfold requests. rewrite len_app, accepted_all_app by done. by rewrite Ha1, Ha2.
Qed.

(** C16: from start-up to shutdown.  On the database of any earlier run, whatever appends, batches, forced heads,
    rotations and statistics requests are handled, one after the other, between the wake-ups of the signing
    task: if the clock is never before 1970 and the number and version counters have room for the requests,
    then no request and no signing run panics and the lock is not poisoned.  The process ends with an error from
    start-up, or in a state that keeps the invariant and whose log is the stored one and as many entries as were
    accepted.  If nothing failed and the signing task was joined in time, the result is success and that state has a
    head for the whole log, unless RocksDB or the encoder failed in the last signing: nothing accepted before the
    shutdown is left unsigned.  (With a clock before 1970 see [Poison.clock_panic_stops_server], and with an
    open Watch stream [Drain.open_watch_blocks_shutdown].) *)
Theorem shutdown_covers_log (args : Args.t) (s : DbInner) (es : list LogEntry.t)
    (hs : list SignedTreeHead.t) (ks : list KeyRecord.t) (dir_ok : bool) (file : option bytes)
    (read_ok : bool) (fresh : SigningKey) (w : fs_write) (start : Z) (o : surroundings)
    (Hdb : db_rep s es) (Hh : heads_rep s hs) (Hro : Forall (head_ok es) hs) (Hk : keys_rep s ks)
    (Ht : Forall timely (requests o)) (Hc : Forall (fun now => 0 <= now) (handled o).*2) (Hnow : 0 <= shutdown_at o)
    (Hn : next_number es + entries_all (requests o) < two64)
    (Hv : start_version ks + rotations_all (requests o) < two32) :
  exists res r, main args dir_ok (Ok (db s)) file read_ok fresh w start o = Ret (res, r) /\
    match res with
    | None => exists e, r = Err (MBuild e)
    | Some (g, rs, ss) => run_ended o es g rs ss /\
        (admin_bound o && served o && joined o = true -> r = Ok tt)
    end.
Proof.
  unfold main.
  destruct (startup_spec (app_config (config_of_args args)) s es hs ks dir_ok file read_ok fresh w start
    Hdb Hh Hro Hk) as (r & E & _). rewrite E. cbn [obind]. destruct r as [st|e].
  2:{ eexists None, _. split; [done|]. eauto. }
  destruct (start_in_order _ s es hs ks _ _ _ _ _ _ _ _ _ Hdb Hh Hro Hk E Hn Hv) as (ks' & Hord & Hroom).
  destruct (serve_ended o st es hs ks' Hord Hroom Ht Hc Hnow) as (g & rs & ss & r & Er & Hend & Hr).
  rewrite Er. exists (Some (g, rs, ss)), r. split; [done|]. by split.
Qed.
End Process.
