(* ===== verification/Metrics.v ===== *)
(** * Metrics (crates/settled-server/src/metrics.rs)

    The counters, gauges and histograms of the process and where the handlers and the signing
    runs update them.  No decision reads them; what they report is related here to the log and its heads.
    The updates are not atomic with what they report: a request counts its entries after it has released the append
    lock, and a signing run ([sth_task.rs], by the timer or forced) takes its snapshot, checks, signs, writes and sets the
    gauges in separate steps, so that requests and signing runs interleave.
    Of a histogram the number of samples is kept: durations are not modelled.  A timer records
    a sample when it is dropped, so an append that fails is measured as well. *)

From Stdlib Require String.
From stdpp Require Import relations pretty.
From S2P Require Import Prelude Bytes Hash MerkleSpec Merkle MerkleProof Sth Rocksdb StorageTypes.
From S2P Require Import Db LogStore LogTheorems Table HeadStore KeyStore ServerState Service.
From S2P Require Import ServerInv Concurrent ProofTheorems ServiceTheorems.
Import String.StringSyntax.

(** [rpc_errors] lists the increments of the counters of [RPC_ERRORS], by their labels; the samples are
    those of [APPEND_DURATION] and [STH_SIGN_DURATION]. *)
Module Metrics.
Record t := mk {
  entries_appended : Z;          (* IntCounter: u64 *)
  sth_signed : Z;
  tree_size : Z;                 (* IntGauge: i64 *)
  sth_last_timestamp_ns : Z;
  append_samples : Z;            (* sample counts: u64 *)
  sign_samples : Z;
  rpc_errors : list (String.string * Code)
}.
(** As registered. *)
Definition zero : t := mk 0 0 0 0 0 0 [].
Definition inc_entries (m : t) (n : Z) : t :=
  mk ((entries_appended m + n) mod two64) (sth_signed m) (tree_size m) (sth_last_timestamp_ns m)
    (append_samples m) (sign_samples m) (rpc_errors m).
Definition inc_signed (m : t) : t :=
  mk (entries_appended m) ((sth_signed m + 1) mod two64) (tree_size m) (sth_last_timestamp_ns m)
    (append_samples m) (sign_samples m) (rpc_errors m).
Definition set_size (m : t) (size : Z) : t :=
  mk (entries_appended m) (sth_signed m) (wrap_i64 size) (sth_last_timestamp_ns m)
    (append_samples m) (sign_samples m) (rpc_errors m).
Definition set_time (m : t) (timestamp_ns : Z) : t :=
  mk (entries_appended m) (sth_signed m) (tree_size m) timestamp_ns
    (append_samples m) (sign_samples m) (rpc_errors m).
Definition append_timed (m : t) : t :=
  mk (entries_appended m) (sth_signed m) (tree_size m) (sth_last_timestamp_ns m)
    ((append_samples m + 1) mod two64) (sign_samples m) (rpc_errors m).
Definition sign_timed (m : t) : t :=
  mk (entries_appended m) (sth_signed m) (tree_size m) (sth_last_timestamp_ns m)
    (append_samples m) ((sign_samples m + 1) mod two64) (rpc_errors m).
Definition track_err (m : t) (rpc : String.string) (status : Status) : t :=
  mk (entries_appended m) (sth_signed m) (tree_size m) (sth_last_timestamp_ns m)
    (append_samples m) (sign_samples m) (rpc_errors m ++ [(rpc, code status)]).
End Metrics.

Section Metered.
Context `{Sha256} {R : Rocksdb} {P : Prost} {RL : RocksdbLaws} {PL : ProstLaws}.
Context {D : ErrorDisplay} `{Ed25519} `{RateLimit} `{Profile}.
Abbreviation size := SignedTreeHead.tree_size.

(** ** The requests, up to the release of the lock *)

Definition limited : Status := mkStatus ResourceExhausted "append rate limit exceeded; slow down"%str.

(** Every error path goes through [track_err], and the timer starts once the request is admitted. *)
Definition metered_append (m : Metrics.t) (st : AppState) (at_ now : Z) (key data : bytes)
  : outcome (AppState * Metrics.t * result (Z * Z) Status) :=
  let '(st, ok) := admit_one st at_ in
  if ok then
    let! (st, r) := append_commit st now key data in
    match r with
    | Ok x => Ret (st, m, Ok x)
    | Err s => Ret (st, Metrics.append_timed (Metrics.track_err m "Append"%str s), Err s)
    end
  else Ret (st, Metrics.track_err m "Append"%str limited, Err limited).

Definition metered_batch (m : Metrics.t) (st : AppState) (at_ now : Z) (pairs : list (bytes * bytes))
  : outcome (AppState * Metrics.t * result (list (Z * Z * hash32)) Status) :=
  let n := len pairs in
  if n =? 0 then Ret (st, m, Ok [])
  else if MAX_BATCH <? n then
    let s := to_status (EInvalidArgument ("batch size " ++ pretty n ++ " exceeds maximum " ++ pretty MAX_BATCH)%str) in
    Ret (st, Metrics.track_err m "BatchAppend"%str s, Err s)
  else
    let '(st, ok) := admit_n st at_ (wrap_u32 n) in
    if ok then
      let! (st, r) := batch_commit st now pairs in
      match r with
      | Ok l => Ret (st, m, Ok l)
      | Err s => Ret (st, Metrics.append_timed (Metrics.track_err m "BatchAppend"%str s), Err s)
      end
    else Ret (st, Metrics.track_err m "BatchAppend"%str limited, Err limited).

(** After that: [timer.observe_duration(); ENTRIES_APPENDED.inc_by(n)]. *)
Definition count_entries (m : Metrics.t) (n : Z) : Metrics.t := Metrics.inc_entries (Metrics.append_timed m) n.

(** A read: its result is passed on. *)
Definition metered_read {A} (rpc : String.string) (m : Metrics.t) (r : result A Status)
  : Metrics.t * result A Status :=
  (match r with Ok _ => m | Err s => Metrics.track_err m rpc s end, r).

(** With the notifications sent afterwards they are the handlers of [Service]. *)
Lemma metered_append_plain m st at_ now key data :
  obind (metered_append m st at_ now key data) (fun '(st, _, r) =>
    Ret (match r with
         | Ok (n, ts) => (send st (Entry.mk n ts key data (to_vec (leaf_hash data))),
             Ok (AppendResponse.mk n ts (to_vec (leaf_hash data)) key))
         | Err s => (st, Err s)
         end)) = rpc_append st at_ now key data.
Proof.
  unfold metered_append, rpc_append. destruct (admit_one st at_) as [st1 ok]. destruct ok; [|done].
  destruct (append_commit st1 now key data) as [[st2 [[n ts]|s]]| |]; done.
Qed.

Lemma metered_batch_plain m st at_ now pairs :
  obind (metered_batch m st at_ now pairs) (fun '(st, _, r) =>
    match r with
    | Ok l => if len pairs =? 0 then Ret (st, Ok [])
        else let! _ := index l 0 in
             Ret (foldl send st (zip_with batch_entry pairs l), Ok (zip_with batch_response pairs l))
    | Err s => Ret (st, Err s)
    end) = rpc_batch_append st at_ now pairs.
Proof.
  unfold metered_batch, rpc_batch_append. destruct (len pairs =? 0); [done|]. destruct (MAX_BATCH <? len pairs); [done|].
  destruct (admit_n st at_ _) as [st1 ok]. destruct ok; [|done].
  destruct (batch_commit st1 now pairs) as [[st2 [l|s]]| |]; done.
Qed.

(** ** Signing runs *)

(** Where a run of [sign_and_store] is; the last three are after the write of the head. *)
Inductive sign_run :=
| Snapshotted (n : Z) (root : option hash32)
| Checked (n : Z) (root : option hash32)
| Signed (sth : SignedTreeHead.t)
| Stored (sth : SignedTreeHead.t)
| Counted (sth : SignedTreeHead.t)
| Sized (sth : SignedTreeHead.t).

(** The head that a run signs. *)
Definition make_head (st : AppState) (n : Z) (root : hash32) (ts : Z) : SignedTreeHead.t :=
  SignedTreeHead.mk n root ts (sign (signer st) (signing_payload n root ts))
    (public_key (signer st)) (key_version (signer st)).

(** One step after the other they are [sign_and_store]. *)
Lemma sign_run_plain st now :
  sign_and_store st now =
  let! (n, root) := snapshot st in
  if n =? 0 then Ret (st, Ok tt)
  else
    match up_to_date st n with
    | Err e => Ret (st, Err e)
    | Ok true => Ret (st, Ok tt)
    | Ok false =>
        let! root := unwrap root in
        let! ts := unix_nanos now in
        let '(s, r) := head_write (inner st) (make_head st n root ts) in
        Ret (set_inner st s, r)
    end.
Proof. unfold sign_and_store, make_head. destruct (snapshot st) as [[n root]| |]; done. Qed.

(** The process: its state and metrics, the entries appended but not yet counted, request by request, and the signing runs
    under way.  [stored] and [unstored] record the heads written since the start and how many writes of a head have failed. *)
Record meters := mkMeters {
  state : AppState;
  counts : Metrics.t;
  uncounted : list Z;
  runs : list sign_run;
  stored : list SignedTreeHead.t;
  unstored : Z
}.
Definition started (st : AppState) : meters := mkMeters st Metrics.zero [] [] [] 0.

Definition with_counts (t : meters) (m : Metrics.t) : meters :=
  mkMeters (state t) m (uncounted t) (runs t) (stored t) (unstored t).
Definition with_runs (t : meters) (l : list sign_run) : meters :=
  mkMeters (state t) (counts t) (uncounted t) l (stored t) (unstored t).

(** [overlap] allows a signing run to start while another is under way. *)
Inductive mstep (overlap : bool) : meters -> meters -> Prop :=
| m_append t at_ now key data st m r :
    next_seq (inner (state t)) + 1 < two64 -> 0 <= now -> pair_ok (key, data) ->
    metered_append (counts t) (state t) at_ now key data = Ret (st, m, r) ->
    mstep overlap t (mkMeters st m (uncounted t ++ match r with Ok _ => [1] | Err _ => [] end)
      (runs t) (stored t) (unstored t))
| m_batch t at_ now pairs st m r :
    pairs <> [] -> next_seq (inner (state t)) + len pairs < two64 -> 0 <= now -> Forall pair_ok pairs ->
    metered_batch (counts t) (state t) at_ now pairs = Ret (st, m, r) ->
    mstep overlap t (mkMeters st m (uncounted t ++ match r with Ok _ => [len pairs] | Err _ => [] end)
      (runs t) (stored t) (unstored t))
| m_count t i n :
    uncounted t !! i = Some n ->
    mstep overlap t (mkMeters (state t) (count_entries (counts t) n) (delete i (uncounted t))
      (runs t) (stored t) (unstored t))
| m_read {A} rpc t (r : result A Status) : mstep overlap t (with_counts t (metered_read rpc (counts t) r).1)
| m_snapshot t n root :
    (overlap = false -> runs t = []) -> snapshot (state t) = Ret (n, root) -> n <> 0 ->
    mstep overlap t (with_runs t (runs t ++ [Snapshotted n root]))
| m_check t i n root :
    runs t !! i = Some (Snapshotted n root) -> up_to_date (state t) n = Ok false ->
    mstep overlap t (with_runs t (<[i := Checked n root]> (runs t)))
| m_stop t i n root :    (* the latest head has this size, or could not be read *)
    runs t !! i = Some (Snapshotted n root) -> up_to_date (state t) n <> Ok false ->
    mstep overlap t (with_runs t (delete i (runs t)))
| m_sign t i n root now ts :
    runs t !! i = Some (Checked n (Some root)) -> unix_nanos now = Ret ts -> in_u32 (sig_version (signer (state t))) ->
    mstep overlap t (with_counts (with_runs t (<[i := Signed (make_head (state t) n root ts)]> (runs t)))
      (Metrics.sign_timed (counts t)))
| m_write t i sth s r :
    runs t !! i = Some (Signed sth) -> head_write (inner (state t)) sth = (s, r) ->
    mstep overlap t (mkMeters (set_inner (state t) s) (counts t) (uncounted t)
      (match r with Ok _ => <[i := Stored sth]> (runs t) | Err _ => delete i (runs t) end)
      (match r with Ok _ => stored t ++ [sth] | Err _ => stored t end)
      (match r with Ok _ => unstored t | Err _ => unstored t + 1 end))
| m_inc t i sth :
    runs t !! i = Some (Stored sth) ->
    mstep overlap t (with_counts (with_runs t (<[i := Counted sth]> (runs t))) (Metrics.inc_signed (counts t)))
| m_size t i sth :
    runs t !! i = Some (Counted sth) ->
    mstep overlap t (with_counts (with_runs t (<[i := Sized sth]> (runs t)))
      (Metrics.set_size (counts t) (SignedTreeHead.tree_size sth)))
| m_time t i sth :
    runs t !! i = Some (Sized sth) ->
    mstep overlap t (with_counts (with_runs t (delete i (runs t)))
      (Metrics.set_time (counts t) (SignedTreeHead.timestamp_ns sth))).

(** ** What the metrics report *)

(** Heads written but not yet counted, and heads signed but not yet written. *)
Definition uncounted_head (r : sign_run) : Z := match r with Stored _ => 1 | _ => 0 end.
Definition unwritten_head (r : sign_run) : Z := match r with Signed _ => 1 | _ => 0 end.

Definition sum_by {A} (f : A -> Z) (l : list A) : Z := foldr (fun x n => f x + n) 0 l.

Lemma sum_by_app {A} (f : A -> Z) l k : sum_by f (l ++ k) = sum_by f l + sum_by f k.
Proof. unfold sum_by. induction l as [|x l IH]; [done|]. rewrite <- app_comm_cons. cbn. lia. Qed.
Lemma sum_by_insert {A} (f : A -> Z) l i x y :
  l !! i = Some x -> sum_by f (<[i := y]> l) = sum_by f l - f x + f y.
Proof.
  unfold sum_by. revert i. induction l as [|z l IH]; intros [|i] E; [done|done|cbn in *; simplify_eq; lia|].
  change (<[S i := y]> (z :: l)) with (z :: <[i := y]> l). cbn [foldr]. rewrite (IH i E). lia.
Qed.
Lemma sum_by_delete {A} (f : A -> Z) l i x : l !! i = Some x -> sum_by f (delete i l) = sum_by f l - f x.
Proof.
  unfold sum_by. revert i. induction l as [|z l IH]; intros [|i] E; [done|done|cbn in *; simplify_eq; lia|].
  change (delete (S i) (z :: l)) with (z :: delete i l). cbn [foldr]. rewrite (IH i E). lia.
Qed.
Lemma sum_by_nonneg {A} (f : A -> Z) l : Forall (fun x => 0 <= f x) l -> 0 <= sum_by f l.
Proof. unfold sum_by. induction 1; cbn; lia. Qed.

Definition gauges (m : Metrics.t) : Z * Z := (Metrics.tree_size m, Metrics.sth_last_timestamp_ns m).
Definition reported (h : SignedTreeHead.t) : Z * Z := (wrap_i64 (size h), SignedTreeHead.timestamp_ns h).

(** The gauges describe the last head stored since the start, which is the latest, or are as at the start. *)
Definition gauges_latest (m : Metrics.t) (new hs : list SignedTreeHead.t) : Prop :=
  match last new with
  | None => gauges m = (0, 0)
  | Some h => last hs = Some h /\ gauges m = reported h
  end.
(** Each gauge describes some head stored since the start, or is as at the start. *)
Definition gauges_some (m : Metrics.t) (new : list SignedTreeHead.t) : Prop :=
  (Metrics.tree_size m = 0 \/ exists h, h ∈ new /\ Metrics.tree_size m = wrap_i64 (size h)) /\
  (Metrics.sth_last_timestamp_ns m = 0 \/
   exists h, h ∈ new /\ Metrics.sth_last_timestamp_ns m = SignedTreeHead.timestamp_ns h).

Definition run_ok (es : list LogEntry.t) (new : list SignedTreeHead.t) (r : sign_run) : Prop :=
  match r with
  | Snapshotted n root => task_ok es (TSnapshot n root)
  | Checked n root => task_ok es (TChecked n root)
  | Signed sth => task_ok es (TReady sth)
  | Stored sth | Counted sth | Sized sth => sth ∈ new
  end.

#[local] Ltac meters := cbn [state counts uncounted runs stored unstored with_runs with_counts].

Record meters_ok (es0 : list LogEntry.t) (t : meters) (es' : list LogEntry.t) (hs : list SignedTreeHead.t) : Prop := {
  mo_server : server_ok (state t) (es0 ++ es') hs;
  mo_runs : Forall (run_ok (es0 ++ es') (stored t)) (runs t);
  mo_pending : Forall (fun n => 0 <= n) (uncounted t);
  mo_positive : 0 <= Metrics.entries_appended (counts t);
  mo_entries : Metrics.entries_appended (counts t) + sum_by id (uncounted t) = len es';
  mo_signed : Metrics.sth_signed (counts t) = (len (stored t) - sum_by uncounted_head (runs t)) mod two64;
  mo_samples : Metrics.sign_samples (counts t) =
    (len (stored t) + unstored t + sum_by unwritten_head (runs t)) mod two64;
  mo_gauges : gauges_some (counts t) (stored t)
}.

(** ** Requests *)

(** Updates that leave the entry counter, the head counter and the gauges alone. *)
Definition same_reports (m m' : Metrics.t) : Prop :=
  Metrics.entries_appended m' = Metrics.entries_appended m /\ Metrics.sth_signed m' = Metrics.sth_signed m /\
  gauges m' = gauges m /\ Metrics.sign_samples m' = Metrics.sign_samples m.

Lemma metered_append_ok m st es hs at_ now key data st' m' r :
  server_ok st es hs -> next_seq (inner st) + 1 < two64 -> 0 <= now -> pair_ok (key, data) ->
  metered_append m st at_ now key data = Ret (st', m', r) ->
  same_reports m m' /\ exists es', server_ok st' (es ++ es') hs /\ len es' = match r with Ok _ => 1 | Err _ => 0 end.
Proof.
  intros Hok Hroom Hnow Hp. unfold metered_append. destruct (admit_one_frame st at_ es hs Hok) as (Hok1 & Ei & _).
  destruct (admit_one st at_) as [st1 ok]. cbn [fst] in *. destruct ok.
  2:{ intros [= <- <- <-]. split; [done|]. exists []. by rewrite app_nil_r. }
  destruct (append_commit_ok st1 es hs now key data Hok1) as (st2 & r2 & E & _ & _ & Hr); [by rewrite Ei|done|done|].
  rewrite E. cbn [obind]. destruct r2 as [[n ts]|s]; intros [= <- <- <-]; (split; [done|]).
  - destruct Hr as (_ & _ & Hr). eexists. by split; [exact Hr|].
  - exists []. rewrite app_nil_r. split; [apply Hr|done].
Qed.

Lemma metered_batch_ok m st es hs at_ now pairs st' m' r :
  server_ok st es hs -> next_seq (inner st) + len pairs < two64 -> 0 <= now -> Forall pair_ok pairs -> pairs <> [] ->
  metered_batch m st at_ now pairs = Ret (st', m', r) ->
  same_reports m m' /\ exists es', server_ok st' (es ++ es') hs /\
    len es' = match r with Ok _ => len pairs | Err _ => 0 end.
Proof.
  intros Hok Hroom Hnow Hp Hne. unfold metered_batch.
  destruct (Z.eqb_spec (len pairs) 0) as [E0|_]; [by apply len_zero in E0|].
  destruct (MAX_BATCH <? len pairs); [intros [= <- <- <-]; split; [done|]; exists []; by rewrite app_nil_r|].
  destruct (admit_n_frame st at_ (wrap_u32 (len pairs)) es hs Hok) as (Hok1 & Ei & _).
  destruct (admit_n st at_ _) as [st1 ok]. cbn [fst] in *. destruct ok.
  2:{ intros [= <- <- <-]. split; [done|]. exists []. by rewrite app_nil_r. }
  destruct (batch_commit_ok st1 es hs now pairs Hok1) as (st2 & r2 & E & _ & _ & Hr); [by rewrite Ei|done|done|].
  cbn zeta in Hr. rewrite E. cbn [obind]. destruct r2 as [l|s]; intros [= <- <- <-]; (split; [done|]).
  - destruct Hr as [_ Hr]. eexists. split; [exact Hr|]. unfold len. by rewrite length_batch_entries.
  - exists []. rewrite app_nil_r. split; [apply Hr|done].
Qed.

Lemma run_ok_mono es es' new new' r : run_ok es new r -> run_ok (es ++ es') (new ++ new') r.
Proof.
  destruct r; cbn [run_ok]; try apply task_ok_mono; intros Hin; apply elem_of_app; by left.
Qed.

(** A request has released the lock. *)
Lemma commit_ok es0 t es' hs st m news ns :
  meters_ok es0 t es' hs -> same_reports (counts t) m -> server_ok st ((es0 ++ es') ++ news) hs ->
  Forall (fun n => 0 <= n) ns -> sum_by id ns = len news ->
  meters_ok es0 (mkMeters st m (uncounted t ++ ns) (runs t) (stored t) (unstored t)) (es' ++ news) hs.
Proof.
  intros [Hsv Hru Hpe Hpo Hen Hsi Hsa [Hg1 Hg2]] (E1 & E2 & [= E3 E4] & E5) Hok Hns Hsum.
  rewrite <- app_assoc in Hok. split; meters.
  - exact Hok.
  - rewrite app_assoc. eapply Forall_impl; [exact Hru|]. intros r Hr.
    pose proof (run_ok_mono _ news _ [] r Hr) as G. by rewrite app_nil_r in G.
  - by apply Forall_app.
  - by rewrite E1.
  - rewrite E1, sum_by_app, len_app. lia.
  - by rewrite E2.
  - by rewrite E5.
  - unfold gauges_some. by rewrite E3, E4.
Qed.

Lemma count_ok es0 t es' hs i n :
  meters_ok es0 t es' hs -> uncounted t !! i = Some n ->
  meters_ok es0 (mkMeters (state t) (count_entries (counts t) n) (delete i (uncounted t)) (runs t) (stored t)
    (unstored t)) es' hs.
Proof.
  intros [Hsv Hru Hpe Hpo Hen Hsi Hsa Hg] Hi.
  assert (Hn : 0 <= n) by exact (Forall_lookup_1 _ _ _ _ Hpe Hi).
  assert (Hd : Forall (fun n => 0 <= n) (delete i (uncounted t))) by by apply Forall_delete.
  pose proof (sum_by_delete id _ _ _ Hi) as Es. unfold id in Es at 3. pose proof (sum_by_nonneg id _ Hd).
  pose proof (len_es_bound _ _ _ Hsv) as Hb. rewrite len_app in Hb. pose proof (len_nonneg es0).
  assert (Em : (Metrics.entries_appended (counts t) + n) mod two64 = Metrics.entries_appended (counts t) + n)
    by (apply Z.mod_small; lia).
  split; meters; [exact Hsv|exact Hru|exact Hd| | |exact Hsi|exact Hsa|exact Hg]; cbn; rewrite Em; lia.
Qed.

(** ** Signing runs *)

Lemma runs_ok es0 t es' hs l m :
  meters_ok es0 t es' hs -> Forall (run_ok (es0 ++ es') (stored t)) l ->
  Metrics.entries_appended m = Metrics.entries_appended (counts t) ->
  Metrics.sth_signed m = (len (stored t) - sum_by uncounted_head l) mod two64 ->
  Metrics.sign_samples m = (len (stored t) + unstored t + sum_by unwritten_head l) mod two64 ->
  gauges_some m (stored t) -> meters_ok es0 (with_counts (with_runs t l) m) es' hs.
Proof.
  intros [Hsv Hru Hpe Hpo Hen Hsi Hsa Hg] Hl E1 E2 E3 Hg'.
  split; meters; rewrite ?E1; [exact Hsv|exact Hl|exact Hpe|exact Hpo|exact Hen|exact E2|exact E3|exact Hg'].
Qed.

(** A run goes from [x] to [y] without a change of the counters. *)
Lemma run_moves es0 t es' hs i x y :
  meters_ok es0 t es' hs -> runs t !! i = Some x -> run_ok (es0 ++ es') (stored t) y ->
  uncounted_head x = uncounted_head y -> unwritten_head x = unwritten_head y ->
  meters_ok es0 (with_runs t (<[i := y]> (runs t))) es' hs.
Proof.
  intros Hm Hi Hy E1 E2. apply (runs_ok es0 t es' hs (<[i := y]> (runs t)) (counts t)); [exact Hm| |reflexivity| | |apply Hm].
  - apply Forall_insert; [apply Hm|done].
  - rewrite (mo_signed _ _ _ _ Hm), (sum_by_insert _ _ _ _ _ Hi). f_equal. lia.
  - rewrite (mo_samples _ _ _ _ Hm), (sum_by_insert _ _ _ _ _ Hi). f_equal. lia.
Qed.

Lemma run_starts es0 t es' hs n root :
  meters_ok es0 t es' hs -> snapshot (state t) = Ret (n, root) -> n <> 0 ->
  meters_ok es0 (with_runs t (runs t ++ [Snapshotted n root])) es' hs /\ Forall (fun h => size h <= n) hs.
Proof.
  intros Hm Hs Hn. pose proof (mo_server _ _ _ _ Hm) as Hsv.
  destruct (snapshot_ok (state t) _ hs Hsv) as (root' & E & Hr & _). rewrite Hs in E. injection E as En <-. split.
  - apply (runs_ok es0 t es' hs (runs t ++ [Snapshotted n root]) (counts t)); [exact Hm| |reflexivity| | |apply Hm].
    + apply Forall_app. split; [apply Hm|]. constructor; [|constructor]. cbn [run_ok task_ok]. pose proof (len_nonneg (es0 ++ es')).
      split; [lia|]. intros r ->. rewrite take_ge; [done|]. pose proof (len_leaves (es0 ++ es')). unfold len in *. lia.
    + rewrite (mo_signed _ _ _ _ Hm), sum_by_app. f_equal. cbn [uncounted_head unwritten_head sum_by foldr]. lia.
    + rewrite (mo_samples _ _ _ _ Hm), sum_by_app. f_equal. cbn [uncounted_head unwritten_head sum_by foldr]. lia.
  - eapply Forall_impl; [apply (ok_roots _ _ _ Hsv)|]. intros h [Hh _]. lia.
Qed.

Lemma stop_ok es0 t es' hs i n root :
  meters_ok es0 t es' hs -> runs t !! i = Some (Snapshotted n root) ->
  meters_ok es0 (with_runs t (delete i (runs t))) es' hs.
Proof.
  intros Hm Hi. apply (runs_ok es0 t es' hs (delete i (runs t)) (counts t)); [exact Hm|apply Forall_delete, Hm|reflexivity| | |apply Hm].
  - rewrite (mo_signed _ _ _ _ Hm), (sum_by_delete _ _ _ _ Hi). f_equal. cbn [uncounted_head unwritten_head sum_by foldr]. lia.
  - rewrite (mo_samples _ _ _ _ Hm), (sum_by_delete _ _ _ _ Hi). f_equal. cbn [uncounted_head unwritten_head sum_by foldr]. lia.
Qed.

Lemma sign_ok es0 t es' hs i n root now ts :
  meters_ok es0 t es' hs -> runs t !! i = Some (Checked n (Some root)) -> unix_nanos now = Ret ts ->
  in_u32 (sig_version (signer (state t))) ->
  meters_ok es0 (with_counts (with_runs t (<[i := Signed (make_head (state t) n root ts)]> (runs t)))
    (Metrics.sign_timed (counts t))) es' hs.
Proof.
  intros Hm Hi Hts Hv. pose proof (Forall_lookup_1 _ _ _ _ (mo_runs _ _ _ _ Hm) Hi) as [Hn Hr].
  apply runs_ok; [exact Hm| |reflexivity| | |].
  - apply Forall_insert; [apply Hm|]. split; [split; [exact Hn|by apply Hr]|]. split; [|exact Hv].
    unfold unix_nanos in Hts. destruct (now <? 0); [done|]. injection Hts as <-. apply wrap_i64_range.
  - cbn. rewrite (mo_signed _ _ _ _ Hm), (sum_by_insert _ _ _ _ _ Hi). f_equal. cbn [uncounted_head unwritten_head sum_by foldr]. lia.
  - cbn. rewrite (mo_samples _ _ _ _ Hm), (sum_by_insert _ _ _ _ _ Hi), Zplus_mod_idemp_l. f_equal. cbn [uncounted_head unwritten_head sum_by foldr]. lia.
  - apply (mo_gauges _ _ _ _ Hm).
Qed.

Lemma gauges_more m new new' : gauges_some m new -> gauges_some m (new ++ new').
Proof. unfold gauges_some. setoid_rewrite elem_of_app. naive_solver. Qed.

Lemma store_ok es0 t es' hs i sth s r :
  meters_ok es0 t es' hs -> runs t !! i = Some (Signed sth) -> head_write (inner (state t)) sth = (s, r) ->
  meters_ok es0 (mkMeters (set_inner (state t) s) (counts t) (uncounted t)
      (match r with Ok _ => <[i := Stored sth]> (runs t) | Err _ => delete i (runs t) end)
      (match r with Ok _ => stored t ++ [sth] | Err _ => stored t end)
      (match r with Ok _ => unstored t | Err _ => unstored t + 1 end))
    es' (match r with Ok _ => upsert size sth hs | Err _ => hs end).
Proof.
  intros [Hsv Hru Hpe Hpo Hen Hsi Hsa Hg] Hi Hw. destruct (Forall_lookup_1 _ _ _ _ Hru Hi) as (Hh & Hts & Hkv).
  assert (Hwf : sth_wf sth).
  { split; [|done]. destruct Hh as [Hsz _]. pose proof (len_es_bound _ _ _ Hsv). unfold in_u64. lia. }
  destruct (write_head_ok (state t) _ hs sth Hsv Hwf Hh) as (d' & r' & E & _ & _ & Hsv').
  rewrite Hw in E. injection E as <- <-. destruct r as [u|e]; split; meters; try assumption.
  - apply Forall_insert; [|apply elem_of_app; right; left].
    eapply Forall_impl; [exact Hru|]. intros x Hx. pose proof (run_ok_mono _ [] _ [sth] x Hx) as G. by rewrite app_nil_r in G.
  - rewrite Hsi, len_app, (sum_by_insert _ _ _ _ _ Hi). f_equal. change (len [sth]) with 1. cbn [uncounted_head unwritten_head sum_by foldr]. lia.
  - rewrite Hsa, len_app, (sum_by_insert _ _ _ _ _ Hi). f_equal. change (len [sth]) with 1. cbn [uncounted_head unwritten_head sum_by foldr]. lia.
  - by apply gauges_more.
  - by apply Forall_delete.
  - rewrite Hsi, (sum_by_delete _ _ _ _ Hi). f_equal. cbn [uncounted_head unwritten_head sum_by foldr]. lia.
  - rewrite Hsa, (sum_by_delete _ _ _ _ Hi). f_equal. cbn [uncounted_head unwritten_head sum_by foldr]. lia.
Qed.

(** The three updates after the write. *)
Lemma report_ok es0 t es' hs i sth :
  meters_ok es0 t es' hs ->
  (runs t !! i = Some (Stored sth) ->
   meters_ok es0 (with_counts (with_runs t (<[i := Counted sth]> (runs t))) (Metrics.inc_signed (counts t))) es' hs) /\
  (runs t !! i = Some (Counted sth) ->
   meters_ok es0 (with_counts (with_runs t (<[i := Sized sth]> (runs t))) (Metrics.set_size (counts t) (size sth))) es' hs) /\
  (runs t !! i = Some (Sized sth) ->
   meters_ok es0 (with_counts (with_runs t (delete i (runs t)))
     (Metrics.set_time (counts t) (SignedTreeHead.timestamp_ns sth))) es' hs).
Proof.
  intros Hm. pose proof (mo_signed _ _ _ _ Hm) as Es. pose proof (mo_samples _ _ _ _ Hm) as Ea.
  pose proof (mo_gauges _ _ _ _ Hm) as [Hg1 Hg2].
  split; [|split]; intros Hi; pose proof (Forall_lookup_1 _ _ _ _ (mo_runs _ _ _ _ Hm) Hi) as Hin.
  - apply runs_ok; [exact Hm|by apply Forall_insert; [apply Hm|]|reflexivity| | |done]; cbn.
    + rewrite Es, (sum_by_insert _ _ _ _ _ Hi), Zplus_mod_idemp_l. f_equal. cbn [uncounted_head unwritten_head sum_by foldr]. lia.
    + rewrite Ea, (sum_by_insert _ _ _ _ _ Hi). f_equal. cbn [uncounted_head unwritten_head sum_by foldr]. lia.
  - apply runs_ok; [exact Hm|by apply Forall_insert; [apply Hm|]|reflexivity| | |]; cbn.
    + rewrite Es, (sum_by_insert _ _ _ _ _ Hi). f_equal. cbn [uncounted_head unwritten_head sum_by foldr]. lia.
    + rewrite Ea, (sum_by_insert _ _ _ _ _ Hi). f_equal. cbn [uncounted_head unwritten_head sum_by foldr]. lia.
    + split; [right; by exists sth|done].
  - apply runs_ok; [exact Hm|apply Forall_delete, Hm|reflexivity| | |]; cbn.
    + rewrite Es, (sum_by_delete _ _ _ _ Hi). f_equal. cbn [uncounted_head unwritten_head sum_by foldr]. lia.
    + rewrite Ea, (sum_by_delete _ _ _ _ Hi). f_equal. cbn [uncounted_head unwritten_head sum_by foldr]. lia.
    + split; [done|right; by exists sth].
Qed.

(** ** Signing runs that do not overlap *)

(** With one run at a time, the heads on disk are none above its snapshot, and the head it writes is the latest. *)
Definition alone (t : meters) (hs : list SignedTreeHead.t) : Prop :=
  match runs t with
  | [] => gauges_latest (counts t) (stored t) hs
  | [Snapshotted n _] | [Checked n _] => gauges_latest (counts t) (stored t) hs /\ Forall (fun h => size h <= n) hs
  | [Signed sth] => gauges_latest (counts t) (stored t) hs /\ Forall (fun h => size h <= size sth) hs
  | [Stored sth] | [Counted sth] => last (stored t) = Some sth /\ last hs = Some sth
  | [Sized sth] => last (stored t) = Some sth /\ last hs = Some sth /\ Metrics.tree_size (counts t) = wrap_i64 (size sth)
  | _ => False
  end.

Lemma alone_same t t' hs :
  runs t' = runs t -> stored t' = stored t -> gauges (counts t') = gauges (counts t) -> alone t hs -> alone t' hs.
Proof.
  intros Er Es Eg. unfold alone, gauges_latest. rewrite Er, Es, Eg. injection Eg as E1 _. by rewrite E1.
Qed.

(** The only run is the first. *)
Lemma alone_run t hs i x : alone t hs -> runs t !! i = Some x -> i = 0%nat /\ runs t = [x].
Proof.
  unfold alone. destruct (runs t) as [|y [|z l]]; [done| |by destruct y].
  intros _. destruct i as [|i]; [|done]. by intros [= ->].
Qed.

Lemma written_last hs h :
  ident_sorted size hs -> Forall (fun h' => size h' <= size h) hs -> last (upsert size h hs) = Some h.
Proof. intros Hs Hl. by apply upsert_last. Qed.

Lemma mstep_ok overlap es0 t t' es' hs :
  meters_ok es0 t es' hs -> (overlap = false -> alone t hs) -> mstep overlap t t' ->
  exists news hs', meters_ok es0 t' (es' ++ news) hs' /\ (overlap = false -> alone t' hs').
Proof.
  intros Hm Ha Hstep.
  assert (Hsame : forall t', meters_ok es0 t' es' hs -> (overlap = false -> alone t' hs) ->
    exists news hs', meters_ok es0 t' (es' ++ news) hs' /\ (overlap = false -> alone t' hs')).
  { intros t1 Hm1 Ha1. exists [], hs. by rewrite app_nil_r. }
  destruct Hstep as [t at_ now key data st m r Hroom Hnow Hp E|t at_ now pairs st m r Hne Hroom Hnow Hp E|t i n Hi|
    A rpc t r|t n root Hal Hs Hn|t i n root Hi Hu|t i n root Hi _|t i n root now ts Hi Hts Hv|t i sth s r Hi Hw|
    t i sth Hi|t i sth Hi|t i sth Hi].
  - destruct (metered_append_ok _ _ _ _ _ _ _ _ _ _ _ (mo_server _ _ _ _ Hm) Hroom Hnow Hp E) as (Hr & news & Hok & El).
    exists news, hs. split; [eapply commit_ok; [done|done|done|by destruct r; repeat constructor|rewrite El; by destruct r]|].
    intros Ho. eapply (alone_same t); [done|done|apply Hr|by apply Ha].
  - destruct (metered_batch_ok _ _ _ _ _ _ _ _ _ _ (mo_server _ _ _ _ Hm) Hroom Hnow Hp Hne E) as (Hr & news & Hok & El).
    pose proof (len_nonneg pairs). exists news, hs. split.
    + eapply commit_ok; [done|done|done|by destruct r; repeat constructor|]. rewrite El. destruct r; [|done]. cbn. unfold id. lia.
    + intros Ho. eapply (alone_same t); [done|done|apply Hr|by apply Ha].
  - apply Hsame; [by apply count_ok|]. intros Ho. eapply (alone_same t); [done..|by apply Ha].
  - apply Hsame; [|intros Ho; eapply (alone_same t); [done|done|by destruct r|by apply Ha]].
    destruct Hm as [Hsv Hru Hpe Hpo Hen Hsi Hsa Hg]. destruct r; by split.
  - destruct (run_starts es0 t es' hs n root Hm Hs Hn) as [Hm' Hle]. apply Hsame; [done|].
    intros Ho. specialize (Ha Ho). unfold alone in *. cbn [runs with_runs]. rewrite (Hal Ho) in *. by split.
  - apply Hsame; [eapply run_moves; [done|done|exact (Forall_lookup_1 _ _ _ _ (mo_runs _ _ _ _ Hm) Hi)|done|done]|].
    intros Ho. specialize (Ha Ho). destruct (alone_run _ _ _ _ Ha Hi) as [-> Er].
    unfold alone in *. cbn [runs with_runs]. rewrite Er in *. exact Ha.
  - apply Hsame; [by eapply stop_ok|]. intros Ho. specialize (Ha Ho). destruct (alone_run _ _ _ _ Ha Hi) as [-> Er].
    unfold alone in *. cbn [runs with_runs]. rewrite Er in *. apply Ha.
  - apply Hsame; [by eapply sign_ok|]. intros Ho. specialize (Ha Ho). destruct (alone_run _ _ _ _ Ha Hi) as [-> Er].
    unfold alone in *. cbn [runs with_runs with_counts]. rewrite Er in *. exact Ha.
  - exists [], (match r with Ok _ => upsert size sth hs | Err _ => hs end). rewrite app_nil_r.
    split; [by apply store_ok|]. intros Ho. specialize (Ha Ho). destruct (alone_run _ _ _ _ Ha Hi) as [-> Er].
    unfold alone in *. cbn [runs]. rewrite Er in *. destruct Ha as [Hg Hle]. destruct r as [u|e]; cbn; [|exact Hg].
    split; [apply last_snoc|]. apply written_last; [|done]. eapply heads_sorted, (mo_server _ _ _ _ Hm).
  - apply Hsame; [by apply report_ok|]. intros Ho. specialize (Ha Ho). destruct (alone_run _ _ _ _ Ha Hi) as [-> Er].
    unfold alone in *. cbn [runs with_runs with_counts]. rewrite Er in *. exact Ha.
  - apply Hsame; [by apply report_ok|]. intros Ho. specialize (Ha Ho). destruct (alone_run _ _ _ _ Ha Hi) as [-> Er].
    unfold alone in *. cbn [runs with_runs with_counts]. rewrite Er in *. cbn. destruct Ha. by split.
  - apply Hsame; [by apply report_ok|]. intros Ho. specialize (Ha Ho). destruct (alone_run _ _ _ _ Ha Hi) as [-> Er].
    unfold alone in *. cbn [runs with_runs with_counts]. rewrite Er in *. cbn. destruct Ha as (El & Elh & Es).
    unfold gauges_latest. cbn [stored with_runs with_counts]. rewrite El. split; [done|]. unfold gauges, reported. cbn.
    by rewrite Es.
Qed.

(** C34: what the metrics report.  Requests and signing runs interleave in any order since the process started, and write
    failures are allowed.  [settled_entries_appended_total] is the number of entries the log has grown by, less those of
    requests that have released the lock and not counted yet.  [settled_sth_signed_total] is the number of heads
    stored, less those of runs that have not counted theirs, and [settled_sth_sign_duration_seconds] has a sample
    for every head stored, every head that could not be stored and every head signed but not written yet (both counters modulo
    2^64).  Each of the gauges [settled_tree_size] and [settled_sth_last_timestamp_ns] describes some head stored since
    the start, or is zero, also when an earlier process left heads behind.  If no signing run starts while another is under
    way, then whenever none is they are the size and the time of the latest stored head, once a head has been stored.
    Otherwise they need not be: a forced run that overlaps the timer's can set them back
    ([ProcessDemo.gauges_go_back]). *)
Theorem metrics_match (overlap : bool) (st0 : AppState) (t : meters) (es0 : list LogEntry.t)
    (hs0 : list SignedTreeHead.t) (Hok : server_ok st0 es0 hs0) (Hr : rtc (mstep overlap) (started st0) t) :
  exists es' hs, server_ok (state t) (es0 ++ es') hs /\
    Metrics.entries_appended (counts t) = len es' - sum_by id (uncounted t) /\
    Metrics.sth_signed (counts t) = (len (stored t) - sum_by uncounted_head (runs t)) mod two64 /\
    Metrics.sign_samples (counts t) = (len (stored t) + unstored t + sum_by unwritten_head (runs t)) mod two64 /\
    gauges_some (counts t) (stored t) /\
    (overlap = false -> runs t = [] -> gauges_latest (counts t) (stored t) hs).
Proof.
  enough (G : exists es' hs, meters_ok es0 t es' hs /\ (overlap = false -> alone t hs)).
  { destruct G as (es' & hs & [Hsv _ _ _ Hen Hsi Hsa Hg] & Ha). exists es', hs. split; [done|]. split; [lia|].
    do 3 (split; [done|]). intros Ho Er. specialize (Ha Ho). unfold alone in Ha. by rewrite Er in Ha. }
  assert (G0 : exists es' hs, meters_ok es0 (started st0) es' hs /\ (overlap = false -> alone (started st0) hs)).
  { exists [], hs0. split; [|done]. split; cbn; rewrite ?app_nil_r; try done. by split; left. }
  revert G0. induction Hr as [t|t t1 t2 Hstep _ IH]; [done|]. intros (es' & hs & Hm & Ha). apply IH.
  destruct (mstep_ok overlap es0 t t1 es' hs Hm Ha Hstep) as (news & hs' & Hm' & Ha'). eauto.
Qed.
End Metered.
