(* ===== verification/Tools.v ===== *)
(** * Fuzz targets and the vector generator (fuzz/fuzz_targets, tools/gen-sth-vectors)

    The three fuzz targets decode an arbitrary input into the arguments of a verifier and call it; here they are
    shown never to panic on any input, which is what they test for.  The
    generator of test-vectors/signed-tree-heads.json is run on the real SHA-256. *)

From Stdlib Require String.
From stdpp Require Import pretty.
From S2P Require Import Prelude Bytes Hash MerkleSpec Merkle MerkleProof Sha256Instance ProofTheorems Sth.
From S2P Require Import StorageTypes Utf8 Admin.
Import String.StringSyntax.

(** [data\[a..b\]], and the same as an array: [.try_into().unwrap()]. *)
Definition slice (data : bytes) (a b : nat) : outcome bytes :=
  if Nat.leb a b && Nat.leb b (length data) then Ret (take (b - a) (drop a data)) else Panic.
Definition slice_array (n : nat) (data : bytes) (a b : nat) : outcome (array n) :=
  let! s := slice data a b in unwrap (array_try_from n s).

Definition u64_from_le_bytes (a : array 8) : Z := from_be (rev (to_vec a)).
Definition i64_from_le_bytes (a : array 8) : Z := wrap_i64 (from_be (rev (to_vec a))).

(** [(0..n).map(|i| proof_bytes\[i * 32..(i + 1) * 32\].try_into().unwrap()).collect()] *)
Fixpoint proof_elements (idxs : list nat) (proof_bytes : bytes) : outcome (list hash32) :=
  match idxs with
  | [] => Ret []
  | i :: idxs =>
      let! h := slice_array 32 proof_bytes (i * 32) ((i + 1) * 32) in
      let! l := proof_elements idxs proof_bytes in
      Ret (h :: l)
  end.

(** [&data\[a..\]] cut into elements; trailing bytes are ignored. *)
Definition read_proof (data : bytes) (a : nat) : outcome (list hash32) :=
  let! proof_bytes := slice data a (length data) in
  let n_elements := (length proof_bytes / 32)%nat in
  proof_elements (seq 0 n_elements) proof_bytes.

Section Targets.
Context `{Sha256} `{Ed25519} `{Profile}.

Definition fuzz_verify_inclusion (data : bytes) : outcome unit :=
  if Nat.ltb (length data) 48 then Ret tt
  else
    let! leaf_hash := slice_array 32 data 0 32 in
    let! leaf_index := slice_array 8 data 32 40 in
    let! tree_size := slice_array 8 data 40 48 in
    let! proof := read_proof data 48 in
    let! _ := verify_inclusion leaf_hash (u64_from_le_bytes leaf_index) (u64_from_le_bytes tree_size) proof
                (array_fill 32 Init.Byte.x00) in
    Ret tt.

Definition fuzz_verify_consistency (data : bytes) : outcome unit :=
  if Nat.ltb (length data) 80 then Ret tt
  else
    let! old_size := slice_array 8 data 0 8 in
    let! new_size := slice_array 8 data 8 16 in
    let! old_root := slice_array 32 data 16 48 in
    let! new_root := slice_array 32 data 48 80 in
    let! proof := read_proof data 80 in
    let! _ := verify_consistency (u64_from_le_bytes old_size) (u64_from_le_bytes new_size) proof
                old_root new_root in
    Ret tt.

Definition fuzz_verify_tree_head (data : bytes) : outcome unit :=
  if Nat.ltb (length data) 144 then Ret tt
  else
    let! pk_bytes := slice_array 32 data 0 32 in
    let! tree_size := slice_array 8 data 32 40 in
    let! root_hash := slice_array 32 data 40 72 in
    let! timestamp_ns := slice_array 8 data 72 80 in
    let! sig_bytes := slice_array 64 data 80 144 in
    match vk_from_bytes pk_bytes with
    | None => Ret tt
    | Some key =>
        let _ := verify_tree_head key (u64_from_le_bytes tree_size) root_hash
                   (i64_from_le_bytes timestamp_ns) sig_bytes in
        Ret tt
    end.

(** ** The targets never panic *)

Lemma slice_array_ok n data a :
  (a + n <= length data)%nat -> exists x, slice_array n data a (a + n) = Ret x /\ to_vec x = take n (drop a data).
Proof.
  intros Hl. unfold slice_array, slice.
  rewrite (proj2 (Nat.leb_le _ _)), (proj2 (Nat.leb_le _ _)) by lia. cbn [andb obind].
  replace (a + n - a)%nat with n by lia.
  destruct (array_try_from n (take n (drop a data))) as [x|] eqn:E.
  - apply array_try_from_Some in E. by exists x.
  - apply array_try_from_None in E. rewrite length_take, length_drop in E. lia.
Qed.

Lemma from_le_range a : in_u64 (u64_from_le_bytes a).
Proof.
  unfold in_u64, u64_from_le_bytes. pose proof (from_be_range (rev (to_vec a))) as Hr.
  unfold len in Hr. rewrite length_rev, array_length in Hr. exact Hr.
Qed.

Lemma proof_elements_ok data idxs :
  Forall (fun i => ((i + 1) * 32 <= length data)%nat) idxs -> exists p, proof_elements idxs data = Ret p.
Proof.
  induction 1 as [|i idxs Hi _ [p Hp]]; [by eexists|]. cbn [proof_elements].
  destruct (slice_array_ok 32 data (i * 32)) as (x & Hx & _); [lia|].
  replace ((i + 1) * 32)%nat with (i * 32 + 32)%nat by lia. rewrite Hx. cbn [obind]. rewrite Hp. by eexists.
Qed.

Lemma read_proof_ok data a : (a <= length data)%nat -> exists p, read_proof data a = Ret p.
Proof.
  intros Ha. unfold read_proof, slice. rewrite (proj2 (Nat.leb_le _ _)), (proj2 (Nat.leb_le _ _)) by lia.
  cbn [andb obind]. set (pb := take _ _). apply proof_elements_ok, Forall_forall.
  intros i [_ Hi]%elem_of_seq. pose proof (Nat.div_mod_eq (length pb) 32). lia.
Qed.

(** Reads the next array of an input that is long enough. *)
Ltac read :=
  match goal with
  | |- context [slice_array ?n ?d ?a ?b] =>
      let x := fresh "x" in let E := fresh "E" in
      destruct (slice_array_ok n d a) as (x & E & _); [lia|]; cbn [Nat.add] in E; rewrite E; cbn [obind]
  end.

(** C38: the verifiers accept arbitrary input.  Whatever bytes the fuzzer feeds them, of any length, each of the
    three targets returns: decoding the input never goes out of bounds and the
    verifiers neither panic nor loop, with and without overflow checks. *)
Theorem fuzz_targets_never_panic (data : bytes) :
  fuzz_verify_inclusion data = Ret tt /\ fuzz_verify_consistency data = Ret tt /\
  fuzz_verify_tree_head data = Ret tt.
Proof.
  split; [|split].
  - unfold fuzz_verify_inclusion. destruct (Nat.ltb_spec (length data) 48) as [|Hl]; [done|].
    do 3 read. destruct (read_proof_ok data 48) as [p ->]; [lia|]. cbn [obind].
    destruct (verifiers_return _ _ (from_le_range x0) (from_le_range x1) x (array_fill 32 Init.Byte.x00)
      x p) as [[v ->] _]. done.
  - unfold fuzz_verify_consistency. destruct (Nat.ltb_spec (length data) 80) as [|Hl]; [done|].
    do 4 read. destruct (read_proof_ok data 80) as [p ->]; [lia|]. cbn [obind].
    destruct (verifiers_return _ _ (from_le_range x) (from_le_range x0) x1 x1 x2 p) as [_ [v ->]]. done.
  - unfold fuzz_verify_tree_head. destruct (Nat.ltb_spec (length data) 144) as [|Hl]; [done|].
    do 5 read. by case_match.
Qed.
End Targets.

(** ** The vector generator *)

(** A test vector; the fixed texts of the JSON are left out. *)
Record vector := mkVector {
  v_private_key_seed : bytes;
  v_public_key : bytes;
  v_tree_size : Z;
  v_root_hash : bytes;
  v_timestamp_ns : Z;
  v_signing_payload : bytes;
  v_signature : bytes
}.

Section Generator.
Context `{Sha256} `{Ed25519} `{Profile}.

Definition seed : array 32 := array_fill 32 Init.Byte.x00.
(** [format!("entry-{i}")] for [i] in [0..8] *)
Definition entry_data : list bytes := (fun i => txt "entry-" ++ dec (Z.of_nat i)) <$> seq 0 8.
Definition cases : list (Z * Z) := [(1, 1000000000); (4, 2000000000); (8, 1713362400000000000)].

(** The closure over the cases. *)
Definition make_vector (leaf_hashes : list hash32) (c : Z * Z) : outcome vector :=
  let '(tree_size, timestamp_ns) := c in
  let signing_key := sk_from_bytes seed in
  let! lh := slice_to leaf_hashes tree_size in
  let! root := mth lh in
  let! root := unwrap root in
  let sig := sign_tree_head signing_key tree_size root timestamp_ns in
  let payload := signing_payload tree_size root timestamp_ns in
  Ret (mkVector (to_vec seed) (to_vec (vk_to_bytes (verifying_key signing_key))) tree_size (to_vec root)
         timestamp_ns (to_vec payload) (to_vec sig)).

Fixpoint make_vectors (leaf_hashes : list hash32) (cs : list (Z * Z)) : outcome (list vector) :=
  match cs with
  | [] => Ret []
  | c :: cs =>
      let! v := make_vector leaf_hashes c in
      let! l := make_vectors leaf_hashes cs in
      Ret (v :: l)
  end.
Definition gen_sth_vectors : outcome (list vector) := make_vectors (leaf_hash <$> entry_data) cases.

(** What the consumers of the vectors rely on: the root is that of the first entries, the payload is the
    encoding of the head, and the signature verifies under the key. *)
Definition vector_ok (v : vector) : Prop :=
  exists root sig key vk,
    mth (take (Z.to_nat (v_tree_size v)) (leaf_hash <$> entry_data)) = Ret (Some root) /\
    v_root_hash v = to_vec root /\ v_signature v = to_vec sig /\ v_public_key v = to_vec key /\
    v_signing_payload v =
      to_vec (u64_to_be_bytes (v_tree_size v)) ++ to_vec root ++ to_vec (i64_to_be_bytes (v_timestamp_ns v)) /\
    vk_from_bytes key = Some vk /\
    verify_tree_head vk (v_tree_size v) root (v_timestamp_ns v) sig = true.

Context {EL : Ed25519Laws}.

Lemma make_vector_ok c : 0 < c.1 <= 8 ->
  exists v, make_vector (leaf_hash <$> entry_data) c = Ret v /\ vector_ok v /\
    v_tree_size v = c.1 /\ v_timestamp_ns v = c.2.
Proof.
  destruct c as [n ts]. cbn [fst snd]. intros Hn. unfold make_vector.
  set (leaves := leaf_hash <$> entry_data). assert (Hl : len leaves = 8) by done.
  assert (Hs : slice_to leaves n = Ret (take (Z.to_nat n) leaves)).
  { pose proof (slice_to_app (take (Z.to_nat n) leaves) (drop (Z.to_nat n) leaves)) as E.
    rewrite take_drop in E. rewrite <- E. f_equal. unfold len in *. rewrite length_take. lia. }
  rewrite Hs. cbn [obind].
  assert (Hlen : len (take (Z.to_nat n) leaves) < two64).
  { unfold len in *. rewrite length_take. unfold two64. lia. }
  rewrite (mth_build _ Hlen). cbn [obind].
  destruct (build_spec (take (Z.to_nat n) leaves)) as (T & ET & _).
  { intros E. apply (f_equal length) in E. rewrite length_take in E. unfold len in Hl. cbn [length] in E. lia. }
  rewrite ET. cbn [option_map unwrap obind fmap option_fmap].
  eexists. split; [done|]. split; [|done].
  eexists _, _, _, _. cbn [v_tree_size v_root_hash v_signature v_public_key v_signing_payload v_timestamp_ns].
  fold leaves. rewrite (mth_build _ Hlen), ET. split; [done|]. do 3 (split; [done|]).
  split; [apply signing_payload_layout|]. split; [apply vk_roundtrip|]. apply ed_sign_verify.
Qed.

(** The generated vectors are right.  The generator of signed-tree-heads.json returns one
    vector per case, each with the root of the entries it covers, the payload of its
    own fields and a signature that verifies under the key it names. *)
Theorem gen_sth_vectors_ok :
  exists l, gen_sth_vectors = Ret l /\ Forall vector_ok l /\
    (fun v => (v_tree_size v, v_timestamp_ns v)) <$> l = cases.
Proof.
  unfold gen_sth_vectors, cases.
  destruct (make_vector_ok (1, 1000000000)) as (v1 & E1 & V1 & N1 & T1); [done|].
  destruct (make_vector_ok (4, 2000000000)) as (v2 & E2 & V2 & N2 & T2); [done|].
  destruct (make_vector_ok (8, 1713362400000000000)) as (v3 & E3 & V3 & N3 & T3); [done|].
  exists [v1; v2; v3]. cbn [make_vectors]. rewrite E1, E2, E3. split; [done|].
  split; [exact (Forall_cons_2 _ _ _ V1 (Forall_cons_2 _ _ _ V2 (Forall_cons_2 _ _ _ V3 (Forall_nil_2 _))))|].
  cbn [fmap list_fmap]. rewrite N1, N2, N3, T1, T2, T3. reflexivity.
Qed.
End Generator.

(** The roots and payloads of test-vectors/signed-tree-heads.json. *)
Section Vectors.
#[local] Existing Instance fips_sha256.
#[local] Existing Instance ToyEd25519.toy.
#[local] Instance release : Profile := false.

Definition heads_of (o : outcome (list vector)) : list (bytes * bytes) :=
  match o with Ret l => (fun v => (v_root_hash v, v_signing_payload v)) <$> l | _ => [] end.

Example signed_tree_heads_json :
  heads_of gen_sth_vectors =
  [(hex "40766b2033429026f53d54502679a839706b4741f8dcaf3a8bba5f41b5ffe075"%str,
    hex "000000000000000140766b2033429026f53d54502679a839706b4741f8dcaf3a8bba5f41b5ffe075000000003b9aca00"%str);
   (hex "256b9e8825e5d370a4ae005d0901ea291977e2927f5cf8e3e72660dd09519edb"%str,
    hex "0000000000000004256b9e8825e5d370a4ae005d0901ea291977e2927f5cf8e3e72660dd09519edb0000000077359400"%str);
   (hex "dfcc13b9b0ca932c68de3d59eaaa8fe266a9c8091c0300e8405ebfeb0d0e5832"%str,
    hex "0000000000000008dfcc13b9b0ca932c68de3d59eaaa8fe266a9c8091c0300e8405ebfeb0d0e583217c716066782c000"%str)].
Proof. vm_compute. reflexivity. Qed.
End Vectors.
