(* ===== verification/TestVectors.v ===== *)
(** * The shared test vectors (test-vectors/)

    The JSON files that the tests of every SDK and of settled-core read, as records with the fields the
    Rust tests use.  Hashes and signatures are hexadecimal strings, as in the files. *)

From Stdlib Require Import ZArith List String.
Import ListNotations.
#[local] Open Scope Z_scope.
#[local] Open Scope string_scope.

Record leaf_vector := mkLeaf { input_hex : string; leaf_hash_hex : string }.
Record node_vector := mkNode {
  left_hex : string; right_hex : string; node_hash_hex : option string; swapped_hash_hex : option string
}.
Record root_vector := mkRoot { root_size : Z; leaf_hashes_hex : list string; root_hex : string }.
Record inclusion_vector := mkInclusion {
  i_leaf_hash_hex : string; i_leaf_index : Z; i_tree_size : Z; i_proof_hex : list string; i_root_hex : string
}.
Record consistency_vector := mkConsistency {
  c_old_size : Z; c_new_size : Z; c_proof_hex : list string; c_old_root_hex : string; c_new_root_hex : string
}.
Record sth_vector := mkSth {
  t_seed_hex : string; t_root_hash_hex : string; t_tree_size : Z; t_timestamp_ns : Z; t_signature_hex : string
}.

Definition leaf_hashes_json : list leaf_vector := [
  mkLeaf "" "6e340b9cffb37a989ca544e6bb780a2c78901d3fb33738768511a30617afa01d";
  mkLeaf "00" "96a296d224f285c67bee93c30f8a309157f0daa35dc5b87e410b78630a09cfc7";
  mkLeaf "ff" "06eb7d6a69ee19e5fbdf749018d3d2abfa04bcbd1365db312eb86dc7169389b8";
  mkLeaf "68656c6c6f" "8a2a5c9b768827de5a9552c38a044c66959c68f6d2f21b5260af54d2f87db827";
  mkLeaf "0000000000000000000000000000000000000000000000000000000000000000" "7f9c9e31ac8256ca2f258583df262dbc7d6f68f2a03043d5c99a4ae5a7396ce9";
  mkLeaf "656e7472792d30" "40766b2033429026f53d54502679a839706b4741f8dcaf3a8bba5f41b5ffe075";
  mkLeaf "656e7472792d31" "e868811a482c27d50b6d45dde79c465d6adb9b06645100477a90cf3d8518898b";
  mkLeaf "656e7472792d32" "049d7dcdb56bcfebd313304c9839f196a3d4b6ef3bdc0b08298f93ac8191f0a8";
  mkLeaf "656e7472792d33" "27479b6ab321d2ee477452f68ba527748e863cafe8fbd1df2bf89d1570d1b697";
  mkLeaf "656e7472792d34" "194bb5a2d5bd10e5d1aa6fd5d42980b356caf1da623cd9987c4bfa2f81771ed7";
  mkLeaf "656e7472792d35" "514158527515064c7bbd35b44c9f11addcfc38b439554fc9bb0d8b7c661c3e8f";
  mkLeaf "656e7472792d36" "0cfda576ff4b29ea33c3afdaeed1bd637eb654b28a04302fcab5fd7db07801cc";
  mkLeaf "656e7472792d37" "c8d81ba4fdd46c6c3c73c87b209eeaf944cf511327211f1f9a81586cf7d4d5a4"].

Definition node_hashes_json : list node_vector := [
  mkNode "40766b2033429026f53d54502679a839706b4741f8dcaf3a8bba5f41b5ffe075"
    "e868811a482c27d50b6d45dde79c465d6adb9b06645100477a90cf3d8518898b"
    (Some "2f27a5082c1d42afa488ac350a9fc4390c084f54f71ecdff859e98db8429b479") None;
  mkNode "e868811a482c27d50b6d45dde79c465d6adb9b06645100477a90cf3d8518898b"
    "049d7dcdb56bcfebd313304c9839f196a3d4b6ef3bdc0b08298f93ac8191f0a8"
    (Some "f0ba1dc15b0cb02f6a46c55ef5b879cddcb37bf5a3f053dc9fec19dbe8b3209f") None;
  mkNode "049d7dcdb56bcfebd313304c9839f196a3d4b6ef3bdc0b08298f93ac8191f0a8"
    "27479b6ab321d2ee477452f68ba527748e863cafe8fbd1df2bf89d1570d1b697"
    (Some "b17003e0b3bbc81fe116edb140c39727254849cc4652b0f7c4f26f8b9d9f987d") None;
  mkNode "27479b6ab321d2ee477452f68ba527748e863cafe8fbd1df2bf89d1570d1b697"
    "194bb5a2d5bd10e5d1aa6fd5d42980b356caf1da623cd9987c4bfa2f81771ed7"
    (Some "1c9f04bd07d75f869e0f9ac128ebaa133a9426622cbe4b73a749d6bd83d41d03") None;
  mkNode "40766b2033429026f53d54502679a839706b4741f8dcaf3a8bba5f41b5ffe075"
    "e868811a482c27d50b6d45dde79c465d6adb9b06645100477a90cf3d8518898b"
    (Some "2f27a5082c1d42afa488ac350a9fc4390c084f54f71ecdff859e98db8429b479") (Some "6bdca1e3c4af20bd50c5e5e0f5f4cdc4d774f31067064fa82a9b56f98cb1c77f")].

Definition tree_roots_json : list root_vector := [
  mkRoot 1
    ["40766b2033429026f53d54502679a839706b4741f8dcaf3a8bba5f41b5ffe075"]
    "40766b2033429026f53d54502679a839706b4741f8dcaf3a8bba5f41b5ffe075";
  mkRoot 2
    ["40766b2033429026f53d54502679a839706b4741f8dcaf3a8bba5f41b5ffe075";
     "e868811a482c27d50b6d45dde79c465d6adb9b06645100477a90cf3d8518898b"]
    "2f27a5082c1d42afa488ac350a9fc4390c084f54f71ecdff859e98db8429b479";
  mkRoot 3
    ["40766b2033429026f53d54502679a839706b4741f8dcaf3a8bba5f41b5ffe075";
     "e868811a482c27d50b6d45dde79c465d6adb9b06645100477a90cf3d8518898b";
     "049d7dcdb56bcfebd313304c9839f196a3d4b6ef3bdc0b08298f93ac8191f0a8"]
    "a64bf26e09128f6fe2fe6f8b2d8c801e166b57c047a7cd9b2b809e7a96a2f1cb";
  mkRoot 4
    ["40766b2033429026f53d54502679a839706b4741f8dcaf3a8bba5f41b5ffe075";
     "e868811a482c27d50b6d45dde79c465d6adb9b06645100477a90cf3d8518898b";
     "049d7dcdb56bcfebd313304c9839f196a3d4b6ef3bdc0b08298f93ac8191f0a8";
     "27479b6ab321d2ee477452f68ba527748e863cafe8fbd1df2bf89d1570d1b697"]
    "256b9e8825e5d370a4ae005d0901ea291977e2927f5cf8e3e72660dd09519edb";
  mkRoot 5
    ["40766b2033429026f53d54502679a839706b4741f8dcaf3a8bba5f41b5ffe075";
     "e868811a482c27d50b6d45dde79c465d6adb9b06645100477a90cf3d8518898b";
     "049d7dcdb56bcfebd313304c9839f196a3d4b6ef3bdc0b08298f93ac8191f0a8";
     "27479b6ab321d2ee477452f68ba527748e863cafe8fbd1df2bf89d1570d1b697";
     "194bb5a2d5bd10e5d1aa6fd5d42980b356caf1da623cd9987c4bfa2f81771ed7"]
    "1aa68d3074905a581f84cbbd0f753794904fd80451bc4c13e69d9a53bc59502c";
  mkRoot 6
    ["40766b2033429026f53d54502679a839706b4741f8dcaf3a8bba5f41b5ffe075";
     "e868811a482c27d50b6d45dde79c465d6adb9b06645100477a90cf3d8518898b";
     "049d7dcdb56bcfebd313304c9839f196a3d4b6ef3bdc0b08298f93ac8191f0a8";
     "27479b6ab321d2ee477452f68ba527748e863cafe8fbd1df2bf89d1570d1b697";
     "194bb5a2d5bd10e5d1aa6fd5d42980b356caf1da623cd9987c4bfa2f81771ed7";
     "514158527515064c7bbd35b44c9f11addcfc38b439554fc9bb0d8b7c661c3e8f"]
    "08783a523d260480de2ccf0976d7411ed8adaf06f75d5a5de2254c58f968eca9";
  mkRoot 7
    ["40766b2033429026f53d54502679a839706b4741f8dcaf3a8bba5f41b5ffe075";
     "e868811a482c27d50b6d45dde79c465d6adb9b06645100477a90cf3d8518898b";
     "049d7dcdb56bcfebd313304c9839f196a3d4b6ef3bdc0b08298f93ac8191f0a8";
     "27479b6ab321d2ee477452f68ba527748e863cafe8fbd1df2bf89d1570d1b697";
     "194bb5a2d5bd10e5d1aa6fd5d42980b356caf1da623cd9987c4bfa2f81771ed7";
     "514158527515064c7bbd35b44c9f11addcfc38b439554fc9bb0d8b7c661c3e8f";
     "0cfda576ff4b29ea33c3afdaeed1bd637eb654b28a04302fcab5fd7db07801cc"]
    "9139601cc1ca8ab2a7a0c2c134c04845f2b1ba549a83d6c845cfcda439cc585d";
  mkRoot 8
    ["40766b2033429026f53d54502679a839706b4741f8dcaf3a8bba5f41b5ffe075";
     "e868811a482c27d50b6d45dde79c465d6adb9b06645100477a90cf3d8518898b";
     "049d7dcdb56bcfebd313304c9839f196a3d4b6ef3bdc0b08298f93ac8191f0a8";
     "27479b6ab321d2ee477452f68ba527748e863cafe8fbd1df2bf89d1570d1b697";
     "194bb5a2d5bd10e5d1aa6fd5d42980b356caf1da623cd9987c4bfa2f81771ed7";
     "514158527515064c7bbd35b44c9f11addcfc38b439554fc9bb0d8b7c661c3e8f";
     "0cfda576ff4b29ea33c3afdaeed1bd637eb654b28a04302fcab5fd7db07801cc";
     "c8d81ba4fdd46c6c3c73c87b209eeaf944cf511327211f1f9a81586cf7d4d5a4"]
    "dfcc13b9b0ca932c68de3d59eaaa8fe266a9c8091c0300e8405ebfeb0d0e5832"].

Definition inclusion_proofs_json : list inclusion_vector := [
  mkInclusion "40766b2033429026f53d54502679a839706b4741f8dcaf3a8bba5f41b5ffe075" 0 1
    []
    "40766b2033429026f53d54502679a839706b4741f8dcaf3a8bba5f41b5ffe075";
  mkInclusion "40766b2033429026f53d54502679a839706b4741f8dcaf3a8bba5f41b5ffe075" 0 2
    ["e868811a482c27d50b6d45dde79c465d6adb9b06645100477a90cf3d8518898b"]
    "2f27a5082c1d42afa488ac350a9fc4390c084f54f71ecdff859e98db8429b479";
  mkInclusion "e868811a482c27d50b6d45dde79c465d6adb9b06645100477a90cf3d8518898b" 1 2
    ["40766b2033429026f53d54502679a839706b4741f8dcaf3a8bba5f41b5ffe075"]
    "2f27a5082c1d42afa488ac350a9fc4390c084f54f71ecdff859e98db8429b479";
  mkInclusion "40766b2033429026f53d54502679a839706b4741f8dcaf3a8bba5f41b5ffe075" 0 3
    ["e868811a482c27d50b6d45dde79c465d6adb9b06645100477a90cf3d8518898b";
     "049d7dcdb56bcfebd313304c9839f196a3d4b6ef3bdc0b08298f93ac8191f0a8"]
    "a64bf26e09128f6fe2fe6f8b2d8c801e166b57c047a7cd9b2b809e7a96a2f1cb";
  mkInclusion "e868811a482c27d50b6d45dde79c465d6adb9b06645100477a90cf3d8518898b" 1 3
    ["40766b2033429026f53d54502679a839706b4741f8dcaf3a8bba5f41b5ffe075";
     "049d7dcdb56bcfebd313304c9839f196a3d4b6ef3bdc0b08298f93ac8191f0a8"]
    "a64bf26e09128f6fe2fe6f8b2d8c801e166b57c047a7cd9b2b809e7a96a2f1cb";
  mkInclusion "049d7dcdb56bcfebd313304c9839f196a3d4b6ef3bdc0b08298f93ac8191f0a8" 2 3
    ["2f27a5082c1d42afa488ac350a9fc4390c084f54f71ecdff859e98db8429b479"]
    "a64bf26e09128f6fe2fe6f8b2d8c801e166b57c047a7cd9b2b809e7a96a2f1cb";
  mkInclusion "40766b2033429026f53d54502679a839706b4741f8dcaf3a8bba5f41b5ffe075" 0 4
    ["e868811a482c27d50b6d45dde79c465d6adb9b06645100477a90cf3d8518898b";
     "b17003e0b3bbc81fe116edb140c39727254849cc4652b0f7c4f26f8b9d9f987d"]
    "256b9e8825e5d370a4ae005d0901ea291977e2927f5cf8e3e72660dd09519edb";
  mkInclusion "e868811a482c27d50b6d45dde79c465d6adb9b06645100477a90cf3d8518898b" 1 4
    ["40766b2033429026f53d54502679a839706b4741f8dcaf3a8bba5f41b5ffe075";
     "b17003e0b3bbc81fe116edb140c39727254849cc4652b0f7c4f26f8b9d9f987d"]
    "256b9e8825e5d370a4ae005d0901ea291977e2927f5cf8e3e72660dd09519edb";
  mkInclusion "049d7dcdb56bcfebd313304c9839f196a3d4b6ef3bdc0b08298f93ac8191f0a8" 2 4
    ["27479b6ab321d2ee477452f68ba527748e863cafe8fbd1df2bf89d1570d1b697";
     "2f27a5082c1d42afa488ac350a9fc4390c084f54f71ecdff859e98db8429b479"]
    "256b9e8825e5d370a4ae005d0901ea291977e2927f5cf8e3e72660dd09519edb";
  mkInclusion "27479b6ab321d2ee477452f68ba527748e863cafe8fbd1df2bf89d1570d1b697" 3 4
    ["049d7dcdb56bcfebd313304c9839f196a3d4b6ef3bdc0b08298f93ac8191f0a8";
     "2f27a5082c1d42afa488ac350a9fc4390c084f54f71ecdff859e98db8429b479"]
    "256b9e8825e5d370a4ae005d0901ea291977e2927f5cf8e3e72660dd09519edb";
  mkInclusion "40766b2033429026f53d54502679a839706b4741f8dcaf3a8bba5f41b5ffe075" 0 5
    ["e868811a482c27d50b6d45dde79c465d6adb9b06645100477a90cf3d8518898b";
     "b17003e0b3bbc81fe116edb140c39727254849cc4652b0f7c4f26f8b9d9f987d";
     "194bb5a2d5bd10e5d1aa6fd5d42980b356caf1da623cd9987c4bfa2f81771ed7"]
    "1aa68d3074905a581f84cbbd0f753794904fd80451bc4c13e69d9a53bc59502c";
  mkInclusion "e868811a482c27d50b6d45dde79c465d6adb9b06645100477a90cf3d8518898b" 1 5
    ["40766b2033429026f53d54502679a839706b4741f8dcaf3a8bba5f41b5ffe075";
     "b17003e0b3bbc81fe116edb140c39727254849cc4652b0f7c4f26f8b9d9f987d";
     "194bb5a2d5bd10e5d1aa6fd5d42980b356caf1da623cd9987c4bfa2f81771ed7"]
    "1aa68d3074905a581f84cbbd0f753794904fd80451bc4c13e69d9a53bc59502c";
  mkInclusion "049d7dcdb56bcfebd313304c9839f196a3d4b6ef3bdc0b08298f93ac8191f0a8" 2 5
    ["27479b6ab321d2ee477452f68ba527748e863cafe8fbd1df2bf89d1570d1b697";
     "2f27a5082c1d42afa488ac350a9fc4390c084f54f71ecdff859e98db8429b479";
     "194bb5a2d5bd10e5d1aa6fd5d42980b356caf1da623cd9987c4bfa2f81771ed7"]
    "1aa68d3074905a581f84cbbd0f753794904fd80451bc4c13e69d9a53bc59502c";
  mkInclusion "27479b6ab321d2ee477452f68ba527748e863cafe8fbd1df2bf89d1570d1b697" 3 5
    ["049d7dcdb56bcfebd313304c9839f196a3d4b6ef3bdc0b08298f93ac8191f0a8";
     "2f27a5082c1d42afa488ac350a9fc4390c084f54f71ecdff859e98db8429b479";
     "194bb5a2d5bd10e5d1aa6fd5d42980b356caf1da623cd9987c4bfa2f81771ed7"]
    "1aa68d3074905a581f84cbbd0f753794904fd80451bc4c13e69d9a53bc59502c";
  mkInclusion "194bb5a2d5bd10e5d1aa6fd5d42980b356caf1da623cd9987c4bfa2f81771ed7" 4 5
    ["256b9e8825e5d370a4ae005d0901ea291977e2927f5cf8e3e72660dd09519edb"]
    "1aa68d3074905a581f84cbbd0f753794904fd80451bc4c13e69d9a53bc59502c";
  mkInclusion "40766b2033429026f53d54502679a839706b4741f8dcaf3a8bba5f41b5ffe075" 0 6
    ["e868811a482c27d50b6d45dde79c465d6adb9b06645100477a90cf3d8518898b";
     "b17003e0b3bbc81fe116edb140c39727254849cc4652b0f7c4f26f8b9d9f987d";
     "4a136a70087b637e34c3d3daa6cea768b1db13ec475902d2e240b60e3d999c7a"]
    "08783a523d260480de2ccf0976d7411ed8adaf06f75d5a5de2254c58f968eca9";
  mkInclusion "e868811a482c27d50b6d45dde79c465d6adb9b06645100477a90cf3d8518898b" 1 6
    ["40766b2033429026f53d54502679a839706b4741f8dcaf3a8bba5f41b5ffe075";
     "b17003e0b3bbc81fe116edb140c39727254849cc4652b0f7c4f26f8b9d9f987d";
     "4a136a70087b637e34c3d3daa6cea768b1db13ec475902d2e240b60e3d999c7a"]
    "08783a523d260480de2ccf0976d7411ed8adaf06f75d5a5de2254c58f968eca9";
  mkInclusion "049d7dcdb56bcfebd313304c9839f196a3d4b6ef3bdc0b08298f93ac8191f0a8" 2 6
    ["27479b6ab321d2ee477452f68ba527748e863cafe8fbd1df2bf89d1570d1b697";
     "2f27a5082c1d42afa488ac350a9fc4390c084f54f71ecdff859e98db8429b479";
     "4a136a70087b637e34c3d3daa6cea768b1db13ec475902d2e240b60e3d999c7a"]
    "08783a523d260480de2ccf0976d7411ed8adaf06f75d5a5de2254c58f968eca9";
  mkInclusion "27479b6ab321d2ee477452f68ba527748e863cafe8fbd1df2bf89d1570d1b697" 3 6
    ["049d7dcdb56bcfebd313304c9839f196a3d4b6ef3bdc0b08298f93ac8191f0a8";
     "2f27a5082c1d42afa488ac350a9fc4390c084f54f71ecdff859e98db8429b479";
     "4a136a70087b637e34c3d3daa6cea768b1db13ec475902d2e240b60e3d999c7a"]
    "08783a523d260480de2ccf0976d7411ed8adaf06f75d5a5de2254c58f968eca9";
  mkInclusion "194bb5a2d5bd10e5d1aa6fd5d42980b356caf1da623cd9987c4bfa2f81771ed7" 4 6
    ["514158527515064c7bbd35b44c9f11addcfc38b439554fc9bb0d8b7c661c3e8f";
     "256b9e8825e5d370a4ae005d0901ea291977e2927f5cf8e3e72660dd09519edb"]
    "08783a523d260480de2ccf0976d7411ed8adaf06f75d5a5de2254c58f968eca9";
  mkInclusion "514158527515064c7bbd35b44c9f11addcfc38b439554fc9bb0d8b7c661c3e8f" 5 6
    ["194bb5a2d5bd10e5d1aa6fd5d42980b356caf1da623cd9987c4bfa2f81771ed7";
     "256b9e8825e5d370a4ae005d0901ea291977e2927f5cf8e3e72660dd09519edb"]
    "08783a523d260480de2ccf0976d7411ed8adaf06f75d5a5de2254c58f968eca9";
  mkInclusion "40766b2033429026f53d54502679a839706b4741f8dcaf3a8bba5f41b5ffe075" 0 7
    ["e868811a482c27d50b6d45dde79c465d6adb9b06645100477a90cf3d8518898b";
     "b17003e0b3bbc81fe116edb140c39727254849cc4652b0f7c4f26f8b9d9f987d";
     "e429c5b5ccaa9523c37297f1846766f903137e82195c5199e6be57130d1006c8"]
    "9139601cc1ca8ab2a7a0c2c134c04845f2b1ba549a83d6c845cfcda439cc585d";
  mkInclusion "e868811a482c27d50b6d45dde79c465d6adb9b06645100477a90cf3d8518898b" 1 7
    ["40766b2033429026f53d54502679a839706b4741f8dcaf3a8bba5f41b5ffe075";
     "b17003e0b3bbc81fe116edb140c39727254849cc4652b0f7c4f26f8b9d9f987d";
     "e429c5b5ccaa9523c37297f1846766f903137e82195c5199e6be57130d1006c8"]
    "9139601cc1ca8ab2a7a0c2c134c04845f2b1ba549a83d6c845cfcda439cc585d";
  mkInclusion "049d7dcdb56bcfebd313304c9839f196a3d4b6ef3bdc0b08298f93ac8191f0a8" 2 7
    ["27479b6ab321d2ee477452f68ba527748e863cafe8fbd1df2bf89d1570d1b697";
     "2f27a5082c1d42afa488ac350a9fc4390c084f54f71ecdff859e98db8429b479";
     "e429c5b5ccaa9523c37297f1846766f903137e82195c5199e6be57130d1006c8"]
    "9139601cc1ca8ab2a7a0c2c134c04845f2b1ba549a83d6c845cfcda439cc585d";
  mkInclusion "27479b6ab321d2ee477452f68ba527748e863cafe8fbd1df2bf89d1570d1b697" 3 7
    ["049d7dcdb56bcfebd313304c9839f196a3d4b6ef3bdc0b08298f93ac8191f0a8";
     "2f27a5082c1d42afa488ac350a9fc4390c084f54f71ecdff859e98db8429b479";
     "e429c5b5ccaa9523c37297f1846766f903137e82195c5199e6be57130d1006c8"]
    "9139601cc1ca8ab2a7a0c2c134c04845f2b1ba549a83d6c845cfcda439cc585d";
  mkInclusion "194bb5a2d5bd10e5d1aa6fd5d42980b356caf1da623cd9987c4bfa2f81771ed7" 4 7
    ["514158527515064c7bbd35b44c9f11addcfc38b439554fc9bb0d8b7c661c3e8f";
     "0cfda576ff4b29ea33c3afdaeed1bd637eb654b28a04302fcab5fd7db07801cc";
     "256b9e8825e5d370a4ae005d0901ea291977e2927f5cf8e3e72660dd09519edb"]
    "9139601cc1ca8ab2a7a0c2c134c04845f2b1ba549a83d6c845cfcda439cc585d";
  mkInclusion "514158527515064c7bbd35b44c9f11addcfc38b439554fc9bb0d8b7c661c3e8f" 5 7
    ["194bb5a2d5bd10e5d1aa6fd5d42980b356caf1da623cd9987c4bfa2f81771ed7";
     "0cfda576ff4b29ea33c3afdaeed1bd637eb654b28a04302fcab5fd7db07801cc";
     "256b9e8825e5d370a4ae005d0901ea291977e2927f5cf8e3e72660dd09519edb"]
    "9139601cc1ca8ab2a7a0c2c134c04845f2b1ba549a83d6c845cfcda439cc585d";
  mkInclusion "0cfda576ff4b29ea33c3afdaeed1bd637eb654b28a04302fcab5fd7db07801cc" 6 7
    ["4a136a70087b637e34c3d3daa6cea768b1db13ec475902d2e240b60e3d999c7a";
     "256b9e8825e5d370a4ae005d0901ea291977e2927f5cf8e3e72660dd09519edb"]
    "9139601cc1ca8ab2a7a0c2c134c04845f2b1ba549a83d6c845cfcda439cc585d";
  mkInclusion "40766b2033429026f53d54502679a839706b4741f8dcaf3a8bba5f41b5ffe075" 0 8
    ["e868811a482c27d50b6d45dde79c465d6adb9b06645100477a90cf3d8518898b";
     "b17003e0b3bbc81fe116edb140c39727254849cc4652b0f7c4f26f8b9d9f987d";
     "5b6680e3035dba9b8a221ee819e805e1c17b333cd66664e76402ea43d7b64a83"]
    "dfcc13b9b0ca932c68de3d59eaaa8fe266a9c8091c0300e8405ebfeb0d0e5832";
  mkInclusion "e868811a482c27d50b6d45dde79c465d6adb9b06645100477a90cf3d8518898b" 1 8
    ["40766b2033429026f53d54502679a839706b4741f8dcaf3a8bba5f41b5ffe075";
     "b17003e0b3bbc81fe116edb140c39727254849cc4652b0f7c4f26f8b9d9f987d";
     "5b6680e3035dba9b8a221ee819e805e1c17b333cd66664e76402ea43d7b64a83"]
    "dfcc13b9b0ca932c68de3d59eaaa8fe266a9c8091c0300e8405ebfeb0d0e5832";
  mkInclusion "049d7dcdb56bcfebd313304c9839f196a3d4b6ef3bdc0b08298f93ac8191f0a8" 2 8
    ["27479b6ab321d2ee477452f68ba527748e863cafe8fbd1df2bf89d1570d1b697";
     "2f27a5082c1d42afa488ac350a9fc4390c084f54f71ecdff859e98db8429b479";
     "5b6680e3035dba9b8a221ee819e805e1c17b333cd66664e76402ea43d7b64a83"]
    "dfcc13b9b0ca932c68de3d59eaaa8fe266a9c8091c0300e8405ebfeb0d0e5832";
  mkInclusion "27479b6ab321d2ee477452f68ba527748e863cafe8fbd1df2bf89d1570d1b697" 3 8
    ["049d7dcdb56bcfebd313304c9839f196a3d4b6ef3bdc0b08298f93ac8191f0a8";
     "2f27a5082c1d42afa488ac350a9fc4390c084f54f71ecdff859e98db8429b479";
     "5b6680e3035dba9b8a221ee819e805e1c17b333cd66664e76402ea43d7b64a83"]
    "dfcc13b9b0ca932c68de3d59eaaa8fe266a9c8091c0300e8405ebfeb0d0e5832";
  mkInclusion "194bb5a2d5bd10e5d1aa6fd5d42980b356caf1da623cd9987c4bfa2f81771ed7" 4 8
    ["514158527515064c7bbd35b44c9f11addcfc38b439554fc9bb0d8b7c661c3e8f";
     "d448059354605305bf936aa6a0e4c709321c960e2ba6c921b98b9a165319cbe2";
     "256b9e8825e5d370a4ae005d0901ea291977e2927f5cf8e3e72660dd09519edb"]
    "dfcc13b9b0ca932c68de3d59eaaa8fe266a9c8091c0300e8405ebfeb0d0e5832";
  mkInclusion "514158527515064c7bbd35b44c9f11addcfc38b439554fc9bb0d8b7c661c3e8f" 5 8
    ["194bb5a2d5bd10e5d1aa6fd5d42980b356caf1da623cd9987c4bfa2f81771ed7";
     "d448059354605305bf936aa6a0e4c709321c960e2ba6c921b98b9a165319cbe2";
     "256b9e8825e5d370a4ae005d0901ea291977e2927f5cf8e3e72660dd09519edb"]
    "dfcc13b9b0ca932c68de3d59eaaa8fe266a9c8091c0300e8405ebfeb0d0e5832";
  mkInclusion "0cfda576ff4b29ea33c3afdaeed1bd637eb654b28a04302fcab5fd7db07801cc" 6 8
    ["c8d81ba4fdd46c6c3c73c87b209eeaf944cf511327211f1f9a81586cf7d4d5a4";
     "4a136a70087b637e34c3d3daa6cea768b1db13ec475902d2e240b60e3d999c7a";
     "256b9e8825e5d370a4ae005d0901ea291977e2927f5cf8e3e72660dd09519edb"]
    "dfcc13b9b0ca932c68de3d59eaaa8fe266a9c8091c0300e8405ebfeb0d0e5832";
  mkInclusion "c8d81ba4fdd46c6c3c73c87b209eeaf944cf511327211f1f9a81586cf7d4d5a4" 7 8
    ["0cfda576ff4b29ea33c3afdaeed1bd637eb654b28a04302fcab5fd7db07801cc";
     "4a136a70087b637e34c3d3daa6cea768b1db13ec475902d2e240b60e3d999c7a";
     "256b9e8825e5d370a4ae005d0901ea291977e2927f5cf8e3e72660dd09519edb"]
    "dfcc13b9b0ca932c68de3d59eaaa8fe266a9c8091c0300e8405ebfeb0d0e5832"].

Definition consistency_proofs_json : list consistency_vector := [
  mkConsistency 1 1
    []
    "40766b2033429026f53d54502679a839706b4741f8dcaf3a8bba5f41b5ffe075"
    "40766b2033429026f53d54502679a839706b4741f8dcaf3a8bba5f41b5ffe075";
  mkConsistency 1 2
    ["e868811a482c27d50b6d45dde79c465d6adb9b06645100477a90cf3d8518898b"]
    "40766b2033429026f53d54502679a839706b4741f8dcaf3a8bba5f41b5ffe075"
    "2f27a5082c1d42afa488ac350a9fc4390c084f54f71ecdff859e98db8429b479";
  mkConsistency 1 3
    ["e868811a482c27d50b6d45dde79c465d6adb9b06645100477a90cf3d8518898b";
     "049d7dcdb56bcfebd313304c9839f196a3d4b6ef3bdc0b08298f93ac8191f0a8"]
    "40766b2033429026f53d54502679a839706b4741f8dcaf3a8bba5f41b5ffe075"
    "a64bf26e09128f6fe2fe6f8b2d8c801e166b57c047a7cd9b2b809e7a96a2f1cb";
  mkConsistency 1 4
    ["e868811a482c27d50b6d45dde79c465d6adb9b06645100477a90cf3d8518898b";
     "b17003e0b3bbc81fe116edb140c39727254849cc4652b0f7c4f26f8b9d9f987d"]
    "40766b2033429026f53d54502679a839706b4741f8dcaf3a8bba5f41b5ffe075"
    "256b9e8825e5d370a4ae005d0901ea291977e2927f5cf8e3e72660dd09519edb";
  mkConsistency 1 8
    ["e868811a482c27d50b6d45dde79c465d6adb9b06645100477a90cf3d8518898b";
     "b17003e0b3bbc81fe116edb140c39727254849cc4652b0f7c4f26f8b9d9f987d";
     "5b6680e3035dba9b8a221ee819e805e1c17b333cd66664e76402ea43d7b64a83"]
    "40766b2033429026f53d54502679a839706b4741f8dcaf3a8bba5f41b5ffe075"
    "dfcc13b9b0ca932c68de3d59eaaa8fe266a9c8091c0300e8405ebfeb0d0e5832";
  mkConsistency 2 3
    ["049d7dcdb56bcfebd313304c9839f196a3d4b6ef3bdc0b08298f93ac8191f0a8"]
    "2f27a5082c1d42afa488ac350a9fc4390c084f54f71ecdff859e98db8429b479"
    "a64bf26e09128f6fe2fe6f8b2d8c801e166b57c047a7cd9b2b809e7a96a2f1cb";
  mkConsistency 2 4
    ["b17003e0b3bbc81fe116edb140c39727254849cc4652b0f7c4f26f8b9d9f987d"]
    "2f27a5082c1d42afa488ac350a9fc4390c084f54f71ecdff859e98db8429b479"
    "256b9e8825e5d370a4ae005d0901ea291977e2927f5cf8e3e72660dd09519edb";
  mkConsistency 2 8
    ["b17003e0b3bbc81fe116edb140c39727254849cc4652b0f7c4f26f8b9d9f987d";
     "5b6680e3035dba9b8a221ee819e805e1c17b333cd66664e76402ea43d7b64a83"]
    "2f27a5082c1d42afa488ac350a9fc4390c084f54f71ecdff859e98db8429b479"
    "dfcc13b9b0ca932c68de3d59eaaa8fe266a9c8091c0300e8405ebfeb0d0e5832";
  mkConsistency 3 4
    ["049d7dcdb56bcfebd313304c9839f196a3d4b6ef3bdc0b08298f93ac8191f0a8";
     "27479b6ab321d2ee477452f68ba527748e863cafe8fbd1df2bf89d1570d1b697";
     "2f27a5082c1d42afa488ac350a9fc4390c084f54f71ecdff859e98db8429b479"]
    "a64bf26e09128f6fe2fe6f8b2d8c801e166b57c047a7cd9b2b809e7a96a2f1cb"
    "256b9e8825e5d370a4ae005d0901ea291977e2927f5cf8e3e72660dd09519edb";
  mkConsistency 3 7
    ["049d7dcdb56bcfebd313304c9839f196a3d4b6ef3bdc0b08298f93ac8191f0a8";
     "27479b6ab321d2ee477452f68ba527748e863cafe8fbd1df2bf89d1570d1b697";
     "2f27a5082c1d42afa488ac350a9fc4390c084f54f71ecdff859e98db8429b479";
     "e429c5b5ccaa9523c37297f1846766f903137e82195c5199e6be57130d1006c8"]
    "a64bf26e09128f6fe2fe6f8b2d8c801e166b57c047a7cd9b2b809e7a96a2f1cb"
    "9139601cc1ca8ab2a7a0c2c134c04845f2b1ba549a83d6c845cfcda439cc585d";
  mkConsistency 3 8
    ["049d7dcdb56bcfebd313304c9839f196a3d4b6ef3bdc0b08298f93ac8191f0a8";
     "27479b6ab321d2ee477452f68ba527748e863cafe8fbd1df2bf89d1570d1b697";
     "2f27a5082c1d42afa488ac350a9fc4390c084f54f71ecdff859e98db8429b479";
     "5b6680e3035dba9b8a221ee819e805e1c17b333cd66664e76402ea43d7b64a83"]
    "a64bf26e09128f6fe2fe6f8b2d8c801e166b57c047a7cd9b2b809e7a96a2f1cb"
    "dfcc13b9b0ca932c68de3d59eaaa8fe266a9c8091c0300e8405ebfeb0d0e5832";
  mkConsistency 4 5
    ["194bb5a2d5bd10e5d1aa6fd5d42980b356caf1da623cd9987c4bfa2f81771ed7"]
    "256b9e8825e5d370a4ae005d0901ea291977e2927f5cf8e3e72660dd09519edb"
    "1aa68d3074905a581f84cbbd0f753794904fd80451bc4c13e69d9a53bc59502c";
  mkConsistency 4 7
    ["e429c5b5ccaa9523c37297f1846766f903137e82195c5199e6be57130d1006c8"]
    "256b9e8825e5d370a4ae005d0901ea291977e2927f5cf8e3e72660dd09519edb"
    "9139601cc1ca8ab2a7a0c2c134c04845f2b1ba549a83d6c845cfcda439cc585d";
  mkConsistency 4 8
    ["5b6680e3035dba9b8a221ee819e805e1c17b333cd66664e76402ea43d7b64a83"]
    "256b9e8825e5d370a4ae005d0901ea291977e2927f5cf8e3e72660dd09519edb"
    "dfcc13b9b0ca932c68de3d59eaaa8fe266a9c8091c0300e8405ebfeb0d0e5832";
  mkConsistency 6 7
    ["4a136a70087b637e34c3d3daa6cea768b1db13ec475902d2e240b60e3d999c7a";
     "0cfda576ff4b29ea33c3afdaeed1bd637eb654b28a04302fcab5fd7db07801cc";
     "256b9e8825e5d370a4ae005d0901ea291977e2927f5cf8e3e72660dd09519edb"]
    "08783a523d260480de2ccf0976d7411ed8adaf06f75d5a5de2254c58f968eca9"
    "9139601cc1ca8ab2a7a0c2c134c04845f2b1ba549a83d6c845cfcda439cc585d";
  mkConsistency 6 8
    ["4a136a70087b637e34c3d3daa6cea768b1db13ec475902d2e240b60e3d999c7a";
     "d448059354605305bf936aa6a0e4c709321c960e2ba6c921b98b9a165319cbe2";
     "256b9e8825e5d370a4ae005d0901ea291977e2927f5cf8e3e72660dd09519edb"]
    "08783a523d260480de2ccf0976d7411ed8adaf06f75d5a5de2254c58f968eca9"
    "dfcc13b9b0ca932c68de3d59eaaa8fe266a9c8091c0300e8405ebfeb0d0e5832";
  mkConsistency 7 8
    ["0cfda576ff4b29ea33c3afdaeed1bd637eb654b28a04302fcab5fd7db07801cc";
     "c8d81ba4fdd46c6c3c73c87b209eeaf944cf511327211f1f9a81586cf7d4d5a4";
     "4a136a70087b637e34c3d3daa6cea768b1db13ec475902d2e240b60e3d999c7a";
     "256b9e8825e5d370a4ae005d0901ea291977e2927f5cf8e3e72660dd09519edb"]
    "9139601cc1ca8ab2a7a0c2c134c04845f2b1ba549a83d6c845cfcda439cc585d"
    "dfcc13b9b0ca932c68de3d59eaaa8fe266a9c8091c0300e8405ebfeb0d0e5832";
  mkConsistency 8 8
    []
    "dfcc13b9b0ca932c68de3d59eaaa8fe266a9c8091c0300e8405ebfeb0d0e5832"
    "dfcc13b9b0ca932c68de3d59eaaa8fe266a9c8091c0300e8405ebfeb0d0e5832"].

(** The cases of negative-cases.json whose names start with inclusion_ and consistency_. *)
Definition negative_inclusion_json : list inclusion_vector := [
  mkInclusion "fb9d7dcdb56bcfebd313304c9839f196a3d4b6ef3bdc0b08298f93ac8191f0a8" 2 4
    ["27479b6ab321d2ee477452f68ba527748e863cafe8fbd1df2bf89d1570d1b697";
     "2f27a5082c1d42afa488ac350a9fc4390c084f54f71ecdff859e98db8429b479"]
    "256b9e8825e5d370a4ae005d0901ea291977e2927f5cf8e3e72660dd09519edb";
  mkInclusion "049d7dcdb56bcfebd313304c9839f196a3d4b6ef3bdc0b08298f93ac8191f0a8" 2 4
    ["d8479b6ab321d2ee477452f68ba527748e863cafe8fbd1df2bf89d1570d1b697";
     "2f27a5082c1d42afa488ac350a9fc4390c084f54f71ecdff859e98db8429b479"]
    "256b9e8825e5d370a4ae005d0901ea291977e2927f5cf8e3e72660dd09519edb";
  mkInclusion "049d7dcdb56bcfebd313304c9839f196a3d4b6ef3bdc0b08298f93ac8191f0a8" 2 4
    ["27479b6ab321d2ee477452f68ba527748e863cafe8fbd1df2bf89d1570d1b697";
     "2f27a5082c1d42afa488ac350a9fc4390c084f54f71ecdff859e98db8429b479"]
    "da6b9e8825e5d370a4ae005d0901ea291977e2927f5cf8e3e72660dd09519edb";
  mkInclusion "049d7dcdb56bcfebd313304c9839f196a3d4b6ef3bdc0b08298f93ac8191f0a8" 3 4
    ["27479b6ab321d2ee477452f68ba527748e863cafe8fbd1df2bf89d1570d1b697";
     "2f27a5082c1d42afa488ac350a9fc4390c084f54f71ecdff859e98db8429b479"]
    "256b9e8825e5d370a4ae005d0901ea291977e2927f5cf8e3e72660dd09519edb"].

Definition negative_consistency_json : list consistency_vector := [
  mkConsistency 2 4
    ["4e7003e0b3bbc81fe116edb140c39727254849cc4652b0f7c4f26f8b9d9f987d"]
    "2f27a5082c1d42afa488ac350a9fc4390c084f54f71ecdff859e98db8429b479"
    "256b9e8825e5d370a4ae005d0901ea291977e2927f5cf8e3e72660dd09519edb";
  mkConsistency 2 4
    ["b17003e0b3bbc81fe116edb140c39727254849cc4652b0f7c4f26f8b9d9f987d"]
    "d027a5082c1d42afa488ac350a9fc4390c084f54f71ecdff859e98db8429b479"
    "256b9e8825e5d370a4ae005d0901ea291977e2927f5cf8e3e72660dd09519edb"].

Definition signed_tree_heads_json_file : list sth_vector := [
  mkSth "0000000000000000000000000000000000000000000000000000000000000000"
    "40766b2033429026f53d54502679a839706b4741f8dcaf3a8bba5f41b5ffe075" 1 1000000000
    "f4309b52a9cf65a2eab2d3198178eae500ea8860eee9520fbb6cf926b396d6a57a91a7d3bb5b2d2511a53995c771312105ceb56f4340834008a150711229a802";
  mkSth "0000000000000000000000000000000000000000000000000000000000000000"
    "256b9e8825e5d370a4ae005d0901ea291977e2927f5cf8e3e72660dd09519edb" 4 2000000000
    "b06ed4da2acc5480ebb5ba347e5b4294aee7ceb96b86e7a5f78bc392c0dc40b4936c95b575398001597bff38f09bc44b4de4c5c0ee4620a4bfed06ab48792f00";
  mkSth "0000000000000000000000000000000000000000000000000000000000000000"
    "dfcc13b9b0ca932c68de3d59eaaa8fe266a9c8091c0300e8405ebfeb0d0e5832" 8 1713362400000000000
    "248508a055c834fb6f55130bab3d7da31f25ecbacfc942b07b6621dfbb3042d739e7617cb8d74cc26e041bcc7908d1bf4aa992160ee0a5e1646bd3180b31a10f"].
