(* ===== verification/CoreTests.v ===== *)
(** * The tests of settled-core (crates/settled-core/src/{hash,merkle,proof,sth}.rs, [mod tests])

    The unit tests of the crate as functions of the model: a failed assertion or [unwrap] is a panic, and a
    test passes when it returns.  The files they read are arguments ([TestVectors] holds the
    repository's), [hex::decode] is a parameter.  The property tests are shown for every input they may
    be given; one of them is not a property of the code, and the inputs on which it fails are described. *)

From Stdlib Require String.
From S2P Require Import TestVectors.
From S2P Require Import Prelude Bytes Hash MerkleSpec Merkle MerkleProof Sha256Instance ProofTheorems Sth Utf8 Tools.
Import String.StringSyntax.

(** ** Assertions *)

(** [assert!(b)]; [assert_eq!] and [assert_ne!] compare first. *)
Definition assert (b : bool) : outcome unit := if b then Ret tt else Panic.
(** [Result::unwrap] *)
Definition unwrap_ok {A E} (r : result A E) : outcome A := match r with Ok a => Ret a | Err _ => Panic end.
(** [for x in l { f(x) }] *)
Fixpoint for_each {A} (l : list A) (f : A -> outcome unit) : outcome unit :=
  match l with
  | [] => Ret tt
  | x :: l => let! _ := f x in for_each l f
  end.
(** [iter().map(f).collect()] of a closure that may panic. *)
Fixpoint map_each {A B} (f : A -> outcome B) (l : list A) : outcome (list B) :=
  match l with
  | [] => Ret []
  | x :: l => let! y := f x in let! ys := map_each f l in Ret (y :: ys)
  end.

Lemma for_each_ret {A} (l : list A) f : (forall x, x ∈ l -> f x = Ret tt) -> for_each l f = Ret tt.
Proof.
  induction l as [|x l IH]; intros Hf; [done|]. cbn. rewrite Hf by left. apply IH. intros y Hy. apply Hf. by right.
Qed.

Class HexDecode := hex_decode : String.string -> option bytes.

Section Shared.
Context `{Sha256} `{HexDecode}.

Definition decode32 (s : String.string) : outcome hash32 :=
  let! b := unwrap (hex_decode s) in unwrap (array_try_from 32 b).

(** [format!("entry-{i}")] for [i] in [0..8], hashed. *)
Definition standard_leaf_hashes : list hash32 :=
  (fun i => leaf_hash (txt "entry-" ++ dec (Z.of_nat i))) <$> seq 0 8.
End Shared.

(** ** hash.rs *)
Module HashTests.
Section Tests.
Context `{Sha256} `{HexDecode}.

Definition leaf_hash_vectors (vectors : list leaf_vector) : outcome unit :=
  for_each vectors (fun v =>
    let! input := unwrap (hex_decode (input_hex v)) in
    let! expected := unwrap (hex_decode (leaf_hash_hex v)) in
    assert (bool_decide (to_vec (leaf_hash input) = expected))).

Definition node_hash_vectors (vectors : list node_vector) : outcome unit :=
  for_each vectors (fun v =>
    match node_hash_hex v with
    | None => Ret tt
    | Some hash =>
        let! l := decode32 (left_hex v) in
        let! r := decode32 (right_hex v) in
        let! expected := unwrap (hex_decode hash) in
        assert (bool_decide (to_vec (node_hash l r) = expected))
    end).

Definition node_hash_not_commutative (vectors : list node_vector) : outcome unit :=
  for_each vectors (fun v =>
    match swapped_hash_hex v with
    | None => Ret tt
    | Some swapped =>
        let! hash := unwrap (node_hash_hex v) in
        let! hash := unwrap (hex_decode hash) in
        let! swapped := unwrap (hex_decode swapped) in
        assert (negb (bool_decide (hash = swapped)))
    end).
End Tests.
End HashTests.

(** ** merkle.rs *)
Module MerkleTests.
Section Tests.
Context `{Sha256} `{HexDecode} `{Profile}.

Definition mth_vectors (vectors : list root_vector) : outcome unit :=
  for_each vectors (fun v =>
    let! leaf_hashes := map_each decode32 (leaf_hashes_hex v) in
    let! expected := decode32 (root_hex v) in
    let! got := mth leaf_hashes in
    let! got := unwrap got in
    assert (bool_decide (got = expected))).

(** [for (i, &lh) in leaf_hashes.iter().enumerate()] with the tree that grows. *)
Fixpoint grow_tree (expected : Z -> outcome hash32) (tree : MerkleTree.t) (i : Z) (rest : list hash32)
  : outcome unit :=
  match rest with
  | [] => Ret tt
  | lh :: rest =>
      let! (tree, _) := MerkleTree.append tree lh in
      let! want := expected i in
      let! root := MerkleTree.root tree in
      let! root := unwrap root in
      let! _ := assert (bool_decide (root = want)) in
      grow_tree expected tree (i + 1) rest
  end.

Definition incremental_tree_matches_mth : outcome unit :=
  let leaf_hashes := standard_leaf_hashes in
  grow_tree (fun i => let! l := slice_to leaf_hashes (i + 1) in let! r := mth l in unwrap r)
    MerkleTree.new 0 leaf_hashes.

Definition tree_root_vectors (vectors : list root_vector) : outcome unit :=
  grow_tree (fun i => let! v := index vectors i in decode32 (root_hex v)) MerkleTree.new 0 standard_leaf_hashes.
End Tests.
End MerkleTests.

(** ** proof.rs *)
Module ProofTests.
Section Tests.
Context `{Sha256} `{HexDecode} `{Profile}.

(** [inclusion_proof(..).unwrap()] and [consistency_proof(..).unwrap()] *)
Definition proof_of {E} (o : outcome (result (list hash32) E)) : outcome (list hash32) :=
  let! r := o in unwrap_ok r.
(** [mth(..).unwrap()] *)
Definition root_of (l : list hash32) : outcome hash32 := let! r := mth l in unwrap r.
(** [assert!] and [assert!(!..)] of a verifier's answer. *)
Definition accepts (o : outcome bool) : outcome unit := let! b := o in assert b.
Definition rejects (o : outcome bool) : outcome unit := let! b := o in assert (negb b).

Definition inclusion_proof_vectors (vectors : list inclusion_vector) : outcome unit :=
  let lh := standard_leaf_hashes in
  for_each vectors (fun v =>
    let! expected_root := decode32 (i_root_hex v) in
    let! expected_proof := map_each decode32 (i_proof_hex v) in
    let! l := slice_to lh (i_tree_size v) in
    let! got := proof_of (inclusion_proof l (i_leaf_index v)) in
    let! _ := assert (bool_decide (got = expected_proof)) in
    let! leaf := index lh (i_leaf_index v) in
    accepts (verify_inclusion leaf (i_leaf_index v) (i_tree_size v) got expected_root)).

(** The cases whose names start with [inclusion_]. *)
Definition inclusion_negative_cases (cases : list inclusion_vector) : outcome unit :=
  for_each cases (fun v =>
    let! lh := decode32 (i_leaf_hash_hex v) in
    let! proof := map_each decode32 (i_proof_hex v) in
    let! root := decode32 (i_root_hex v) in
    rejects (verify_inclusion lh (i_leaf_index v) (i_tree_size v) proof root)).

Definition consistency_proof_vectors (vectors : list consistency_vector) : outcome unit :=
  let lh := standard_leaf_hashes in
  for_each vectors (fun v =>
    let! old_root := decode32 (c_old_root_hex v) in
    let! new_root := decode32 (c_new_root_hex v) in
    let! expected_proof := map_each decode32 (c_proof_hex v) in
    let! l := slice_to lh (c_new_size v) in
    let! got := proof_of (consistency_proof l (c_old_size v)) in
    let! _ := assert (bool_decide (got = expected_proof)) in
    accepts (verify_consistency (c_old_size v) (c_new_size v) got old_root new_root)).

Definition consistency_negative_cases (cases : list consistency_vector) : outcome unit :=
  for_each cases (fun v =>
    let! proof := map_each decode32 (c_proof_hex v) in
    let! old_root := decode32 (c_old_root_hex v) in
    let! new_root := decode32 (c_new_root_hex v) in
    rejects (verify_consistency (c_old_size v) (c_new_size v) proof old_root new_root)).

Definition cross_check_roots_match_python_vectors (vectors : list root_vector) : outcome unit :=
  let lh := standard_leaf_hashes in
  for_each vectors (fun v =>
    let! expected := decode32 (root_hex v) in
    let! l := slice_to lh (root_size v) in
    let! got := root_of l in
    assert (bool_decide (got = expected))).

Definition tampered_history_fails_consistency_check : outcome unit :=
  let real_hashes := standard_leaf_hashes in
  let! l := slice_to real_hashes 4 in
  let! old_root := root_of l in
  let! tampered := index_set real_hashes 0 (leaf_hash (txt "TAMPERED-ENTRY")) in
  let! tampered_new_root := root_of tampered in
  let! tampered_proof := proof_of (consistency_proof tampered 4) in
  let! _ := rejects (verify_consistency 4 8 tampered_proof old_root tampered_new_root) in
  let! real_proof := proof_of (consistency_proof real_hashes 4) in
  let! real_new_root := root_of real_hashes in
  accepts (verify_consistency 4 8 real_proof old_root real_new_root).

(** [(a..b).map(|i| leaf_hash(&[i]))] *)
Definition byte_leaves (first : Z) : list hash32 :=
  (fun i => leaf_hash [byte_of_Z i]) <$> seqZ first 8.

Definition proof_from_different_tree_fails : outcome unit :=
  let tree_a := byte_leaves 0 in
  let tree_b := byte_leaves 10 in
  let! l := slice_to tree_a 4 in
  let! old_root_a := root_of l in
  let! new_root_b := root_of tree_b in
  let! proof_b := proof_of (consistency_proof tree_b 4) in
  rejects (verify_consistency 4 8 proof_b old_root_a new_root_b).

Definition zero_hash : hash32 := array_fill 32 Init.Byte.x00.

Definition consistency_edge_cases : outcome unit :=
  let lh := standard_leaf_hashes in
  let! l := slice_to lh 4 in
  let! old_root := root_of l in
  let! new_root := root_of lh in
  let! proof := proof_of (consistency_proof lh 4) in
  let! _ := rejects (verify_consistency 8 4 proof old_root new_root) in
  let! _ := rejects (verify_consistency 0 8 proof old_root new_root) in
  let long_proof := proof ++ [zero_hash] in
  let! _ := rejects (verify_consistency 4 8 long_proof old_root new_root) in
  let! short := slice_to proof (len proof - 1) in
  let! _ := rejects (verify_consistency 4 8 short old_root new_root) in
  rejects (verify_consistency 4 8 [] old_root new_root).

Definition inclusion_edge_cases : outcome unit :=
  let lh := standard_leaf_hashes in
  let! root := root_of lh in
  let! proof := proof_of (inclusion_proof lh 3) in
  let! l3 := index lh 3 in
  let! l0 := index lh 0 in
  let! _ := rejects (verify_inclusion l3 8 8 proof root) in
  let! _ := rejects (verify_inclusion l0 0 0 [] root) in
  let long_proof := proof ++ [zero_hash] in
  rejects (verify_inclusion l3 3 8 long_proof root).

(** *** Property tests; [entries] is what proptest generates *)

Definition prop_every_leaf_verifies (entries : list bytes) : outcome unit :=
  let lh := leaf_hash <$> entries in
  let! root := root_of lh in
  let n := len lh in
  for_each (seqZ 0 n) (fun i =>
    let! proof := proof_of (inclusion_proof lh i) in
    let! leaf := index lh i in
    accepts (verify_inclusion leaf i n proof root)).

Definition prop_any_two_snapshots_consistent (entries : list bytes) : outcome unit :=
  let lh := leaf_hash <$> entries in
  let n := len lh in
  for_each (seqZ 1 n) (fun old =>
    let! l := slice_to lh old in
    let! old_root := root_of l in
    let! new_root := root_of lh in
    let! proof := proof_of (consistency_proof lh old) in
    accepts (verify_consistency old n proof old_root new_root)).

Definition prop_wrong_index_fails (entries : list bytes) : outcome unit :=
  let lh := leaf_hash <$> entries in
  let! root := root_of lh in
  let n := len lh in
  let! proof := proof_of (inclusion_proof lh 0) in
  let! l0 := index lh 0 in
  rejects (verify_inclusion l0 1 n proof root).
End Tests.
End ProofTests.

(** ** sth.rs *)
Module SthTests.
Section Tests.
Context `{Ed25519} `{HexDecode} `{Profile}.

(** [bad_root[0] ^= 0xFF] *)
Definition flip_first (b : bytes) : bytes :=
  match b with [] => [] | x :: b => byte_of_Z (Z.lxor (Z_of_byte x) 0xff) :: b end.

Definition i64_add_one (t : Z) : outcome Z :=
  if t + 1 <? two63 then Ret (t + 1) else if overflow_checks then Panic else Ret (wrap_i64 (t + 1)).

Definition sth_vectors (vectors : list sth_vector) : outcome unit :=
  for_each vectors (fun v =>
    let! seed := decode32 (t_seed_hex v) in
    let! root := decode32 (t_root_hash_hex v) in
    let! s := unwrap (hex_decode (t_signature_hex v)) in
    let! expected_sig := unwrap (array_try_from 64 s) in
    let signing_key := sk_from_bytes seed in
    let sig := sign_tree_head signing_key (t_tree_size v) root (t_timestamp_ns v) in
    let! _ := assert (bool_decide (sig = expected_sig)) in
    let key := verifying_key signing_key in
    let! _ := assert (verify_tree_head key (t_tree_size v) root (t_timestamp_ns v) sig) in
    let! size1 := u64_add (t_tree_size v) 1 in
    let! _ := assert (negb (verify_tree_head key size1 root (t_timestamp_ns v) sig)) in
    let! bad_root := unwrap (array_try_from 32 (flip_first (to_vec root))) in
    let! _ := assert (negb (verify_tree_head key (t_tree_size v) bad_root (t_timestamp_ns v) sig)) in
    let! ts1 := i64_add_one (t_timestamp_ns v) in
    assert (negb (verify_tree_head key (t_tree_size v) root ts1 sig))).

Definition wrong_key_fails : outcome unit :=
  let key_a := sk_from_bytes (array_fill 32 Init.Byte.x00) in
  let key_b := sk_from_bytes (array_fill 32 Init.Byte.x01) in
  let root := array_fill 32 Init.Byte.xab in
  let sig := sign_tree_head key_a 100 root 999999999 in
  let! _ := assert (verify_tree_head (verifying_key key_a) 100 root 999999999 sig) in
  assert (negb (verify_tree_head (verifying_key key_b) 100 root 999999999 sig)).
End Tests.
End SthTests.

(** ** The tests for every input *)

Section Theorems.
Context `{Sha256} `{Profile}.
Implicit Types (entries : list bytes) (lh : list hash32).

Lemma root_of_ok lh root : mth lh = Ret (Some root) -> ProofTests.root_of lh = Ret root.
Proof. unfold ProofTests.root_of. by intros ->. Qed.

Lemma every_leaf_verifies entries :
  entries <> [] -> len entries < two64 -> ProofTests.prop_every_leaf_verifies entries = Ret tt.
Proof.
  intros Hne Hl. unfold ProofTests.prop_every_leaf_verifies. set (lh := leaf_hash <$> entries).
  assert (Hlh : len lh < two64) by (unfold lh; by rewrite len_fmap).
  destruct (mth_nonempty lh Hlh) as [root Hroot]; [by intros ?%fmap_nil_inv|].
  rewrite (root_of_ok _ _ Hroot). cbn [obind]. apply for_each_ret. intros i Hi%elem_of_seqZ.
  destruct (lookup_lt_is_Some_2 lh (Z.to_nat i)) as [x Hx]; [unfold len in Hi; lia|].
  destruct (inclusion_complete_tree lh i x) as (p & root' & Hp & Hr & Hv); [done|lia|done|].
  rewrite Hroot in Hr. injection Hr as <-. unfold ProofTests.proof_of, ProofTests.accepts.
  rewrite Hp. cbn [obind unwrap_ok]. rewrite (index_Some _ _ _ (proj1 Hi) Hx). cbn [obind]. by rewrite Hv.
Qed.

Lemma any_two_snapshots_consistent entries :
  len entries < two64 -> ProofTests.prop_any_two_snapshots_consistent entries = Ret tt.
Proof.
  intros Hl. unfold ProofTests.prop_any_two_snapshots_consistent. set (lh := leaf_hash <$> entries).
  assert (Hlh : len lh < two64) by (unfold lh; by rewrite len_fmap).
  apply for_each_ret. intros old Hold%elem_of_seqZ.
  destruct (consistency_complete_tree lh old) as (p & r1 & r2 & Hp & H1 & H2 & Hv); [done|lia|].
  rewrite slice_to_take by lia. cbn [obind]. rewrite (root_of_ok _ _ H1), (root_of_ok _ _ H2).
  unfold ProofTests.proof_of, ProofTests.accepts. cbn [obind]. rewrite Hp. cbn [obind unwrap_ok]. by rewrite Hv.
Qed.

(** Twins at the first two positions have the same audit path. *)
Lemma tpath_twins T x :
  rfc_shape T -> leaves T !! 0%nat = Some x -> leaves T !! 1%nat = Some x -> tpath T 0 = tpath T 1.
Proof.
  induction T as [y|l IHl r IHr]; [done|]. intros ((h & Hh & El & Er) & Sl & Sr) L0 L1.
  cbn [leaves tpath] in *. pose proof (tsize_pos l). rewrite (proj2 (Z.ltb_lt 0 (tsize l))) by lia.
  destruct (Z.ltb_spec 1 (tsize l)) as [Hlt|Hge].
  - unfold tsize, len in Hlt. rewrite lookup_app_l in L0, L1 by lia. by rewrite IHl.
  - pose proof (tsize_pos r). destruct l as [a|? ?]; [|rewrite tsize_Node in Hge;
      match goal with |- context [Node ?a ?b] => pose proof (tsize_pos a); pose proof (tsize_pos b) end; lia].
    destruct r as [b|? ?]; [|rewrite tsize_Leaf, tsize_Node in *;
      match goal with |- context [Node ?a ?b] => pose proof (tsize_pos a); pose proof (tsize_pos b) end; lia].
    cbn in L0, L1 |- *. congruence.
Qed.

(** The path of the first leaf also verifies its twin's position. *)
Lemma twins_verify lh x p root :
  len lh < two64 -> lh !! 0%nat = Some x -> lh !! 1%nat = Some x ->
  inclusion_proof lh 0 = Ret (Ok p) -> mth lh = Ret (Some root) ->
  verify_inclusion x 1 (len lh) p root = Ret true.
Proof.
  intros Hl L0 L1 Hp Hroot. destruct (build_spec lh) as (T & HT & <- & ST); [by intros ->|].
  assert (Hs : 1 < tsize T) by (apply lookup_lt_Some in L1; unfold tsize, len; lia).
  rewrite inclusion_proof_tree in Hp by (done || lia). injection Hp as <-.
  rewrite mth_leaves in Hroot by done. injection Hroot as <-.
  fold (tsize T). rewrite verify_inclusion_tree by (done || lia). f_equal.
  apply bool_decide_eq_true. rewrite (tpath_twins T x ST L0 L1). by apply tfold_tpath.
Qed.

Lemma wrong_index_fails e0 e1 entries :
  let lh := leaf_hash <$> e0 :: e1 :: entries in
  len lh < two64 ->
  exists p root, inclusion_proof lh 0 = Ret (Ok p) /\ mth lh = Ret (Some root) /\
    ProofTests.prop_wrong_index_fails (e0 :: e1 :: entries) =
      ProofTests.rejects (verify_inclusion (leaf_hash e0) 1 (len lh) p root).
Proof.
  intros lh Hl. destruct (inclusion_complete_tree lh 0 (leaf_hash e0)) as (p & root & Hp & Hr & _); [done..|].
  exists p, root. split; [done|]. split; [done|].
  unfold ProofTests.prop_wrong_index_fails. fold lh. rewrite (root_of_ok _ _ Hr). cbn [obind].
  unfold ProofTests.proof_of. rewrite Hp. cbn [obind unwrap_ok].
  rewrite (index_Some lh 0 (leaf_hash e0)) by done. done.
Qed.

(** The collision behind a proof for the first leaf that verifies at the second. *)
Definition wrong_index_collision (e0 e1 : bytes) (rest : list bytes) : option (bytes * bytes) :=
  let lh := leaf_hash <$> e0 :: e1 :: rest in
  match inclusion_proof lh 0 with
  | Ret (Ok p) => or_else (inclusion_collision lh 1 (leaf_hash e0) p) (leaf_clash [e1] [e0])
  | _ => None
  end.

Lemma wrong_index_collision_spec e0 e1 rest p root :
  let lh := leaf_hash <$> e0 :: e1 :: rest in
  len lh < two64 -> inclusion_proof lh 0 = Ret (Ok p) -> mth lh = Ret (Some root) ->
  verify_inclusion (leaf_hash e0) 1 (len lh) p root = Ret true ->
  clash_or (wrong_index_collision e0 e1 rest) (e0 = e1).
Proof.
  intros lh Hl Hp Hr Hv. unfold wrong_index_collision. fold lh. rewrite Hp.
  eapply clash_or_else; [by eapply (inclusion_sound_tree lh root 1)|]. intros [= E].
  eapply clash_or_impl; [apply leaf_clash_spec; cbn; by rewrite E|]. by intros [= ->].
Qed.

(** C20: the property tests of proof.rs, for every input.  Over any non-empty list of entries of [u64] length,
    [prop_every_leaf_verifies] and [prop_any_two_snapshots_consistent] pass: no assertion fails and nothing
    panics.  [prop_wrong_index_fails] is different: it fails whenever the first two entries are equal (as
    proptest may generate them), and otherwise it passes or [wrong_index_collision] returns a SHA-256 collision. *)
Theorem property_tests (e0 : bytes) (rest : list bytes) (Hl : len (e0 :: rest) < two64) :
  ProofTests.prop_every_leaf_verifies (e0 :: rest) = Ret tt /\
  ProofTests.prop_any_two_snapshots_consistent (e0 :: rest) = Ret tt /\
  forall e1 rest', rest = e1 :: rest' ->
    (e0 = e1 -> ProofTests.prop_wrong_index_fails (e0 :: rest) = Panic) /\
    (e0 <> e1 -> ProofTests.prop_wrong_index_fails (e0 :: rest) = Ret tt \/
      exists c, wrong_index_collision e0 e1 rest' = Some c /\ collision c).
Proof.
  split; [by apply every_leaf_verifies|]. split; [by apply any_two_snapshots_consistent|].
  intros e1 rest' ->. pose proof (wrong_index_fails e0 e1 rest') as K. cbv zeta in K.
  set (lh := leaf_hash <$> e0 :: e1 :: rest') in *.
  assert (Hlh : len lh < two64) by (unfold lh; by rewrite len_fmap).
  destruct (K Hlh) as (p & root & Hp & Hr & ->). unfold ProofTests.rejects. split.
  - intros <-. by rewrite (twins_verify lh (leaf_hash e0) p root).
  - intros Hne. assert (Hb : in_u64 (len lh)) by (split; [apply len_nonneg|done]).
    destruct (verifiers_return 1 (len lh) ltac:(done) Hb (leaf_hash e0) root root p) as [[[] Ev] _].
    + right. pose proof (wrong_index_collision_spec e0 e1 rest' p root Hlh Hp Hr Ev) as S.
      destruct (wrong_index_collision e0 e1 rest') as [c|]; [by exists c|done].
    + left. by rewrite Ev.
Qed.
End Theorems.

(** ** The tests of tree head signatures

    Ed25519 is a parameter: the tests pass for a scheme that signs as the vectors say, unless it accepts
    a changed head. *)

Section SthTheorems.
Context `{Ed25519Laws} `{HexDecode} `{Profile}.

(** The vector decodes to these fields, and the signature is what the scheme produces for them. *)
Definition vector_signed (v : sth_vector) : Prop :=
  exists seed root sig,
    decode32 (t_seed_hex v) = Ret seed /\ decode32 (t_root_hash_hex v) = Ret root /\
    hex_decode (t_signature_hex v) = Some sig /\
    sig = to_vec (sign_tree_head (sk_from_bytes seed) (t_tree_size v) root (t_timestamp_ns v)) /\
    in_u64 (t_tree_size v) /\ t_tree_size v + 1 < two64 /\
    in_i64 (t_timestamp_ns v) /\ t_timestamp_ns v + 1 < two63.

(** The signature of [v] also verifies for one of the three heads the test makes from it by changing a field,
    each of which has another payload. *)
Definition forged (v : sth_vector) : Prop :=
  exists seed root n r t,
    decode32 (t_seed_hex v) = Ret seed /\ decode32 (t_root_hash_hex v) = Ret root /\
    (n = t_tree_size v \/ n = t_tree_size v + 1) /\ (r = root \/ to_vec r = SthTests.flip_first (to_vec root)) /\
    (t = t_timestamp_ns v \/ t = t_timestamp_ns v + 1) /\
    to_vec (signing_payload n r t) <> to_vec (signing_payload (t_tree_size v) root (t_timestamp_ns v)) /\
    let sk := sk_from_bytes seed in
    verify_tree_head (verifying_key sk) n r t
      (sign_tree_head sk (t_tree_size v) root (t_timestamp_ns v)) = true.

Lemma head_binding v seed root n r t :
  decode32 (t_seed_hex v) = Ret seed -> decode32 (t_root_hash_hex v) = Ret root ->
  (n = t_tree_size v \/ n = t_tree_size v + 1) -> (r = root \/ to_vec r = SthTests.flip_first (to_vec root)) ->
  (t = t_timestamp_ns v \/ t = t_timestamp_ns v + 1) ->
  in_u64 (t_tree_size v) -> in_u64 n -> in_i64 (t_timestamp_ns v) -> in_i64 t ->
  (n, r, t) <> (t_tree_size v, root, t_timestamp_ns v) ->
  let sk := sk_from_bytes seed in
  verify_tree_head (verifying_key sk) n r t (sign_tree_head sk (t_tree_size v) root (t_timestamp_ns v)) = false \/
  forged v.
Proof.
  intros E1 E2 Hn Hr Ht Hv Hn' Hvt Ht' Hne sk. destruct (verify_tree_head _ _ _ _ _) eqn:E; [right|by left].
  exists seed, root, n, r, t. do 5 (split; [done|]). split; [|exact E].
  intros Eq. apply Hne. by apply signing_payload_inj in Eq as (-> & -> & ->).
Qed.

Lemma flip_first_array (r : hash32) :
  exists r', array_try_from 32 (SthTests.flip_first (to_vec r)) = Some r' /\ r' <> r.
Proof.
  assert (Hl : length (SthTests.flip_first (to_vec r)) = 32%nat).
  { pose proof (array_length r) as L. destruct (to_vec r) as [|x b]; [done|exact L]. }
  destruct (array_try_from 32 (SthTests.flip_first (to_vec r))) as [r'|] eqn:E.
  2:{ by apply array_try_from_None in E. }
  exists r'. split; [done|]. intros ->. apply array_try_from_Some in E.
  pose proof (array_length r) as L. destruct (to_vec r) as [|x b]; [done|]. cbn in E. injection E as E.
  revert E. by destruct x; vm_compute.
Qed.

Lemma sth_vector_test v : vector_signed v -> SthTests.sth_vectors [v] = Ret tt \/ forged v.
Proof.
  intros (seed & root & sig & E1 & E2 & E3 & -> & Hn & Hn1 & Ht & Ht1).
  unfold SthTests.sth_vectors. cbn [for_each]. rewrite E1. cbn [obind]. rewrite E2. cbn [obind].
  rewrite E3. cbn [unwrap obind]. rewrite array_try_from_to_vec. cbn [unwrap obind].
  rewrite bool_decide_true by done. cbn [assert obind].
  set (sk := sk_from_bytes seed). set (n := t_tree_size v) in *. set (t := t_timestamp_ns v) in *.
  assert (Hv : verify_tree_head (verifying_key sk) n root t (sign_tree_head sk n root t) = true)
    by apply ed_sign_verify.
  rewrite Hv. cbn [assert obind]. rewrite u64_add_in by ulia. cbn [obind].
  destruct (flip_first_array root) as (bad & Ebad & Hbad).
  assert (Hflip : to_vec bad = SthTests.flip_first (to_vec root)) by (by apply array_try_from_Some in Ebad).
  destruct (head_binding v seed root (n + 1) root t) as [B1|F]; [auto..|done|ulia|done|done|intros [= ?]; lia| |by right].
  cbv zeta in B1. fold sk n t in B1. rewrite B1. cbn [negb assert obind]. rewrite Ebad. cbn [unwrap obind].
  destruct (head_binding v seed root n bad t) as [B2|F]; [auto..|done|done|done|done|congruence| |by right].
  cbv zeta in B2. fold sk n t in B2. rewrite B2.
  cbn [negb assert obind]. unfold SthTests.i64_add_one. rewrite (proj2 (Z.ltb_lt _ _) Ht1). cbn [obind].
  destruct (head_binding v seed root n root (t + 1)) as [B3|F]; [auto..|done|done|done|ulia|intros [= ?]; lia| |by right].
  cbv zeta in B3. fold sk n t in B3. rewrite B3. by left.
Qed.

Lemma for_each_app {A} (l1 l2 : list A) f :
  for_each (l1 ++ l2) f = let! _ := for_each l1 f in for_each l2 f.
Proof.
  induction l1 as [|x l1 IH]; [done|]. cbn [for_each app]. destruct (f x); cbn [obind]; [apply IH|done..].
Qed.

(** [sth_vectors] passes on vectors the scheme agrees with, unless it accepts the signature of one of them for
    a changed head. *)
Theorem sth_vectors_test (vs : list sth_vector) (Hv : Forall vector_signed vs) :
  SthTests.sth_vectors vs = Ret tt \/ Exists forged vs.
Proof.
  induction Hv as [|v vs Hv _ [IH|IH]]; [by left| |right; by apply Exists_cons_tl].
  destruct (sth_vector_test v Hv) as [E|F]; [left|right; by apply Exists_cons_hd].
  unfold SthTests.sth_vectors in *. change (v :: vs) with ([v] ++ vs). rewrite for_each_app, E. exact IH.
Qed.
End SthTheorems.

(** ** The tests on the repository's vectors, with SHA-256 itself *)

#[local] Instance hex_literal : HexDecode := fun s => Some (hex s).

Section Vectors.
#[local] Existing Instance fips_sha256.
#[local] Existing Instance Vectors.release.

Example hash_tests_pass :
  HashTests.leaf_hash_vectors leaf_hashes_json = Ret tt /\
  HashTests.node_hash_vectors node_hashes_json = Ret tt /\
  HashTests.node_hash_not_commutative node_hashes_json = Ret tt.
Proof. split; [|split]; vm_cast_no_check (@eq_refl (outcome unit) (Ret tt)). Qed.

Example merkle_tests_pass :
  MerkleTests.mth_vectors tree_roots_json = Ret tt /\
  MerkleTests.incremental_tree_matches_mth = Ret tt /\
  MerkleTests.tree_root_vectors tree_roots_json = Ret tt.
Proof. split; [|split]; vm_cast_no_check (@eq_refl (outcome unit) (Ret tt)). Qed.

Example proof_tests_pass :
  ProofTests.inclusion_proof_vectors inclusion_proofs_json = Ret tt /\
  ProofTests.consistency_proof_vectors consistency_proofs_json = Ret tt /\
  ProofTests.cross_check_roots_match_python_vectors tree_roots_json = Ret tt.
Proof. split; [|split]; vm_cast_no_check (@eq_refl (outcome unit) (Ret tt)). Qed.

Example negative_tests_pass :
  ProofTests.inclusion_negative_cases negative_inclusion_json = Ret tt /\
  ProofTests.consistency_negative_cases negative_consistency_json = Ret tt /\
  ProofTests.tampered_history_fails_consistency_check = Ret tt.
Proof. split; [|split]; vm_cast_no_check (@eq_refl (outcome unit) (Ret tt)). Qed.

Example edge_case_tests_pass :
  ProofTests.proof_from_different_tree_fails = Ret tt /\
  ProofTests.consistency_edge_cases = Ret tt /\
  ProofTests.inclusion_edge_cases = Ret tt.
Proof. split; [|split]; vm_cast_no_check (@eq_refl (outcome unit) (Ret tt)). Qed.

(** The signing keys of [wrong_key_fails] are told apart. *)
Example wrong_key_test_passes : SthTests.wrong_key_fails (H := ToyEd25519.toy) = Ret tt.
Proof. vm_cast_no_check (@eq_refl (outcome unit) (Ret tt)). Qed.

(** Two equal entries at the front, as proptest may generate them. *)
Lemma property_tests_witness :
  ProofTests.prop_wrong_index_fails [[Init.Byte.x00]; [Init.Byte.x00]] = Panic.
Proof.
  exact (proj1 (proj2 (proj2 (property_tests [Init.Byte.x00] [[Init.Byte.x00]] ltac:(done))) _ _ eq_refl) eq_refl).
Defined.
End Vectors.
