(* ===== verification/StorageTests.v ===== *)
(** * The tests of settled-storage (crates/settled-storage/src/{log_store,tree_store,head_store,lib}.rs)

    The unit tests of the stores and the crash recovery test of lib.rs, as functions that return
    unless an assertion or an [unwrap] panics.  [fresh] is what RocksDB opens in an empty directory, [clock] what
    the clock shows at the append numbered [i].  The unit tests run on the in-memory database; the
    crash recovery test is shown to pass for every two sizes on every database that reports no error,
    and so is the test of concurrent appends, in every interleaving. *)

From Stdlib Require String.
From stdpp Require Import relations pretty.
From S2P Require Import Prelude Bytes Hash MerkleSpec Merkle MerkleProof Sha256Instance ProofTheorems Sth Rocksdb StorageTypes Utf8.
From S2P Require Import Db LogStore LogTheorems TreeStore Table LogConcurrent HeadStore StorageDemo CoreTests.
Import String.StringSyntax.
Import ProofTests.

Section Tests.
Context `{Sha256} `{Rocksdb} `{Prost} `{Profile}.
Variables (fresh : rdb) (clock : Z -> Z).

(** [Db::open(dir.path()).unwrap()] on a new directory, and on the directory of a dropped [Db]. *)
Definition open_fresh : outcome DbInner := let! r := open (Ok fresh) in unwrap_ok r.
Definition reopen (s : DbInner) : outcome DbInner := let! r := open (Ok (db s)) in unwrap_ok r.

(** [log.append(key, data).unwrap()], the append numbered [i] of the test. *)
Definition append_ok (s : DbInner) (i : Z) (key data : bytes) : outcome (DbInner * (Z * Z)) :=
  let! (s, r) := append s (clock i) key data in
  let! x := unwrap_ok r in
  Ret (s, x).
(** [store.write(..).unwrap()] *)
Definition written (w : DbInner * result unit Error) : outcome DbInner :=
  let '(s, r) := w in let! _ := unwrap_ok r in Ret s.
(** [.unwrap().unwrap()] *)
Definition found {A} (r : result (option A) Error) : outcome A := let! o := unwrap_ok r in unwrap o.

(** [for i in .. { log.append("k{i}", "{prefix}{i}") }], with the leaf hashes of the data. *)
Fixpoint append_range (prefix : bytes) (s : DbInner) (range : list Z) : outcome (DbInner * list hash32) :=
  match range with
  | [] => Ret (s, [])
  | i :: range =>
      let data := prefix ++ dec i in
      let! (s, _) := append_ok s i (txt "k" ++ dec i) data in
      let! (s, hs) := append_range prefix s range in
      Ret (s, leaf_hash data :: hs)
  end.

(** ** log_store.rs *)

Definition written_entry_is_retrievable_by_seq : outcome unit :=
  let! s := open_fresh in
  let! (s, (seq, _)) := append_ok s 0 (txt "k1") (txt "hello world") in
  let! entry := found (get_by_seq s seq) in
  let! _ := assert (LogEntry.seq entry =? seq) in
  let! _ := assert (bool_decide (LogEntry.key entry = txt "k1")) in
  let! _ := assert (bool_decide (LogEntry.data entry = txt "hello world")) in
  assert (bool_decide (LogEntry.leaf_hash entry = leaf_hash (txt "hello world"))).

Definition entry_survives_close_and_reopen : outcome unit :=
  let! s := open_fresh in
  let! (s, (seq, _)) := append_ok s 0 (txt "mykey") (txt "mydata") in
  let! s := reopen s in
  let! entry := found (get_by_seq s seq) in
  let! _ := assert (bool_decide (LogEntry.key entry = txt "mykey")) in
  assert (bool_decide (LogEntry.data entry = txt "mydata")).

Definition index_survives_close_and_reopen : outcome unit :=
  let! s := open_fresh in
  let! (s, (seq, _)) := append_ok s 0 (txt "lookup-key") (txt "data") in
  let! s := reopen s in
  let! found_seq := found (get_seq_by_key s (txt "lookup-key")) in
  assert (found_seq =? seq).

(** [assert_eq!(entries[i].seq, n)] *)
Definition seq_at (entries : list LogEntry.t) (i n : Z) : outcome unit :=
  let! e := index entries i in assert (LogEntry.seq e =? n).

Definition seq_range_returns_entries_in_order : outcome unit :=
  let! s := open_fresh in
  let! (s, _) := append_range (txt "d") s (seqZ 0 10) in
  let! entries := unwrap_ok (seq_range s 3 7) in
  let! _ := assert (len entries =? 4) in
  let! _ := seq_at entries 0 3 in
  seq_at entries 3 6.

Definition latest_returns_empty_for_empty_log : outcome unit :=
  let! s := open_fresh in
  let! entries := unwrap_ok (latest s 5) in
  assert (len entries =? 0).

Definition latest_returns_zero_for_n_zero : outcome unit :=
  let! s := open_fresh in
  let! (s, _) := append_ok s 0 (txt "k") (txt "v") in
  let! entries := unwrap_ok (latest s 0) in
  assert (len entries =? 0).

Definition latest_returns_newest_first_and_caps_at_n : outcome unit :=
  let! s := open_fresh in
  let! (s, _) := append_range (txt "d") s (seqZ 0 10) in
  let! entries := unwrap_ok (latest s 3) in
  let! _ := assert (len entries =? 3) in
  let! _ := seq_at entries 0 9 in
  let! _ := seq_at entries 1 8 in
  let! _ := seq_at entries 2 7 in
  let! e := index entries 0 in
  assert (bool_decide (LogEntry.data e = txt "d9")).

Definition latest_returns_all_when_n_exceeds_log_size : outcome unit :=
  let! s := open_fresh in
  let! (s, _) := append_range (txt "d") s (seqZ 0 3) in
  let! entries := unwrap_ok (latest s 100) in
  let! _ := assert (len entries =? 3) in
  let! _ := seq_at entries 0 2 in
  seq_at entries 2 0.

Definition entries_by_key_exact_match_and_pagination : outcome unit :=
  let! s := open_fresh in
  let! (s, _) := append_ok s 0 (txt "alice") (txt "a0") in
  let! (s, _) := append_ok s 1 (txt "bob") (txt "b1") in
  let! (s, _) := append_ok s 2 (txt "alice") (txt "a2") in
  let! (s, _) := append_ok s 3 (txt "bob") (txt "b3") in
  let! (s, _) := append_ok s 4 (txt "alice") (txt "a4") in
  let page key from limit := let! r := entries_by_key s key from limit in unwrap_ok r in
  let! (entries, next) := page (txt "alice") 0 10 in
  let! _ := assert (len entries =? 3) in
  let! _ := seq_at entries 0 0 in
  let! _ := seq_at entries 1 2 in
  let! _ := seq_at entries 2 4 in
  let! _ := assert (next =? 0) in
  let! (page1, next1) := page (txt "alice") 0 2 in
  let! _ := assert (len page1 =? 2) in
  let! _ := assert (next1 >? 0) in
  let! (page2, next2) := page (txt "alice") next1 2 in
  let! _ := assert (len page2 =? 1) in
  let! _ := assert (next2 =? 0) in
  let! (none, next) := page (txt "charlie") 0 10 in
  let! _ := assert (len none =? 0) in
  assert (next =? 0).

(** [seqs.windows(2)]: each number is one more than the one before. *)
Fixpoint consecutive (seqs : list Z) : outcome unit :=
  match seqs with
  | a :: (b :: _) as rest => let! a1 := u64_add a 1 in let! _ := assert (b =? a1) in consecutive rest
  | _ => Ret tt
  end.

(** The end of [concurrent_appends_are_gap_free], after the threads have joined; [n] is
    [n_threads * n_per_thread]. *)
Definition gap_free_check (s : DbInner) (n : Z) : outcome unit :=
  let! entries := unwrap_ok (seq_range s 0 n) in
  let! _ := assert (len entries =? n) in
  let seqs := merge_sort Z.le (LogEntry.seq <$> entries) in
  let! first := index seqs 0 in
  let! _ := assert (first =? 0) in
  let! last := unwrap (last seqs) in
  let! n1 := u64_sub n 1 in
  let! _ := assert (last =? n1) in
  consecutive seqs.
(** ** tree_store.rs *)

Definition written_nodes_are_retrievable : outcome unit :=
  let! s := open_fresh in
  let hash := array_fill 32 Init.Byte.xab in
  let! s := written (write_batch s [(0, 5, hash)]) in
  let! o := unwrap_ok (get_node s 0 5) in
  let! _ := assert (bool_decide (o = Some hash)) in
  let! o := unwrap_ok (get_node s 0 6) in
  assert (bool_decide (o = None)).

(** [leaf_hashes.iter().copied().enumerate().map(|(i, h)| (i as u64, h)).collect()] *)
Definition numbered (leaf_hashes : list hash32) : list (Z * hash32) :=
  zip (seqZ 0 (len leaf_hashes)) leaf_hashes.

(** Every leaf has a proof that verifies against the root. *)
Definition all_included (leaf_hashes : list hash32) (n : Z) (root : hash32) : outcome unit :=
  for_each (seqZ 0 n) (fun idx =>
    let! path := proof_of (inclusion_proof leaf_hashes idx) in
    let! leaf := index leaf_hashes idx in
    accepts (verify_inclusion leaf idx n path root)).

Definition inclusion_proofs_verify_after_tree_write (n : Z) : outcome unit :=
  let! s := open_fresh in
  let! (s, leaf_hashes) := append_range (txt "entry-") s (seqZ 0 n) in
  let! nodes := compute_nodes_from_leaves (numbered leaf_hashes) in
  let! s := written (write_batch s nodes) in
  let! root := root_of leaf_hashes in
  all_included leaf_hashes n root.

(** Every node of [nodes] is stored. *)
Definition nodes_stored (s : DbInner) (nodes : list node) : outcome unit :=
  for_each nodes (fun '(level, index, expected) =>
    let! got := found (get_node s level index) in
    assert (bool_decide (got = expected))).

(** [rebuild_produces_identical_nodes] rebuilds once, [rebuild_is_idempotent] twice. *)
Fixpoint rebuild_times (k : nat) (s : DbInner) : outcome DbInner :=
  match k with
  | O => Ret s
  | S k => let! w := rebuild_from_log s in let! s := written w in rebuild_times k s
  end.
Definition rebuild_test (n : Z) (times : nat) : outcome unit :=
  let! s := open_fresh in
  let! (s, leaf_hashes) := append_range (txt "entry-") s (seqZ 0 n) in
  let! nodes := compute_nodes_from_leaves (numbered leaf_hashes) in
  let! s := written (write_batch s nodes) in
  let! s := rebuild_times times s in
  nodes_stored s nodes.

(** ** head_store.rs *)

Definition fake_sth (tree_size : Z) : SignedTreeHead.t :=
  SignedTreeHead.mk tree_size (array_fill 32 (byte_of_Z tree_size)) (wrap_i64 tree_size * 1000000)
    (array_fill 64 Init.Byte.x00) (array_fill 32 Init.Byte.x00) 1.

Fixpoint write_heads (s : DbInner) (sizes : list Z) : outcome DbInner :=
  match sizes with
  | [] => Ret s
  | size :: sizes => let! s := written (head_write s (fake_sth size)) in write_heads s sizes
  end.

Definition latest_returns_largest_tree_size : outcome unit :=
  let! s := open_fresh in
  let! s := write_heads s [1; 5; 3; 10; 7] in
  let! head := found (head_latest s) in
  assert (SignedTreeHead.tree_size head =? 10).

Definition at_size_returns_exact_match : outcome unit :=
  let! s := open_fresh in
  let! s := write_heads s (seqZ 1 10) in
  let! sth := found (at_size s 7) in
  assert (SignedTreeHead.tree_size sth =? 7).

Definition at_size_missing_returns_none : outcome unit :=
  let! s := open_fresh in
  let! s := write_heads s [5; 10] in
  let! o := unwrap_ok (at_size s 7) in
  assert (match o with None => true | Some _ => false end).

Definition range_returns_correct_subset : outcome unit :=
  let! s := open_fresh in
  let! s := write_heads s (seqZ 1 10) in
  let! result := unwrap_ok (head_range s 3 6) in
  let! _ := assert (len result =? 4) in
  let! first := index result 0 in
  let! _ := assert (SignedTreeHead.tree_size first =? 3) in
  let! fourth := index result 3 in
  assert (SignedTreeHead.tree_size fourth =? 6).

Definition latest_on_empty_store_returns_none : outcome unit :=
  let! s := open_fresh in
  let! o := unwrap_ok (head_latest s) in
  assert (match o with None => true | Some _ => false end).

(** ** lib.rs *)

(** [crash_recovery_rebuild]: [old] entries with their nodes, a crash, more entries up to [new] in the log only,
    a second crash, then the rebuild and the checks.  The test has 1000 and 1100. *)
Definition crash_recovery (old new : Z) : outcome unit :=
  (* Phase A *)
  let! s := open_fresh in
  let! (s, leaf_hashes) := append_range (txt "entry-") s (seqZ 0 old) in
  let! nodes := compute_nodes_from_leaves (numbered leaf_hashes) in
  let! s := written (write_batch s nodes) in
  let! old_root := root_of leaf_hashes in
  (* Phase B *)
  let! s := reopen s in
  let! (s, _) := append_range (txt "entry-") s (seqZ old (new - old)) in
  (* Phase C *)
  let! s := reopen s in
  let! w := rebuild_from_log s in
  let! s := written w in
  let! entries := unwrap_ok (seq_range s 0 new) in
  let! _ := assert (len entries =? new) in
  let leaf_hashes := LogEntry.leaf_hash <$> entries in
  let! new_root := root_of leaf_hashes in
  let! _ := for_each entries (fun e =>
    let! got := found (get_by_seq s (LogEntry.seq e)) in
    let! _ := assert (LogEntry.seq got =? LogEntry.seq e) in
    assert (bool_decide (LogEntry.data got = LogEntry.data e))) in
  let! _ := all_included leaf_hashes new new_root in
  let! proof := proof_of (consistency_proof leaf_hashes old) in
  accepts (verify_consistency old new proof old_root new_root).
Definition crash_recovery_rebuild : outcome unit := crash_recovery 1000 1100.
End Tests.

(** ** The length of a number *)

Lemma pretty_N_go_length (k : nat) x acc :
  (x < 2 ^ N.of_nat k)%N -> (length (as_bytes (pretty_N_go x acc)) <= k + length (as_bytes acc))%nat.
Proof.
  revert x acc. induction k as [|k IH]; intros x acc Hx.
  - assert (x = 0%N) as -> by (cbn in Hx; lia). by rewrite pretty_N_go_0.
  - destruct (decide (x = 0%N)) as [->|Hne]; [rewrite pretty_N_go_0; lia|].
    rewrite pretty_N_go_step by lia. assert (Hd : (x / 10 < 2 ^ N.of_nat k)%N).
    { rewrite Nat2N.inj_succ, N.pow_succ_r' in Hx. apply N.Div0.div_lt_upper_bound. lia. }
    specialize (IH _ (String.String (pretty_N_char (x mod 10)) acc) Hd).
    assert (El : length (as_bytes (String.String (pretty_N_char (x mod 10)) acc)) = S (length (as_bytes acc))) by reflexivity.
    lia.
Qed.

Lemma dec_length n : in_u64 n -> len (dec n) <= 64.
Proof.
  intros Hn. unfold dec, pretty, pretty_Z, pretty, pretty_positive, pretty, pretty_N.
  destruct n as [|p|p]; [done| |unfold in_u64 in Hn; lia]. rewrite decide_False by done.
  pose proof (pretty_N_go_length 64 (Npos p) String.EmptyString) as K. unfold len.
  assert (Hp : (Npos p < 2 ^ N.of_nat 64)%N) by (change (2 ^ N.of_nat 64)%N with 18446744073709551616%N; unfold in_u64, two64 in Hn; lia).
  specialize (K Hp). change (length (as_bytes String.EmptyString)) with 0%nat in K. lia.
Qed.

(** ** A database that reports no error *)

Class HealthyDisk `{Rocksdb} `{Prost} := {
  healthy : rdb -> Prop;
  healthy_get : forall d c k, healthy d -> exists o, rdb_get d c k = Ok o;
  healthy_put : forall d c k v, healthy d -> exists d', rdb_put d c k v = (d', Ok tt) /\ healthy d';
  healthy_write : forall d b, healthy d -> exists d', rdb_write d b = (d', Ok tt) /\ healthy d';
  healthy_iter : forall d c mode, healthy d -> exists l, rdb_iter d c mode = (l, None);
  (** Encoding into a vector, which grows. *)
  healthy_encode : forall p, exists b, encode_log_entry p = Ok b
}.

Section Healthy.
Context `{Sha256} {R : Rocksdb} {P : Prost} {RL : RocksdbLaws} {PL : ProstLaws} {HD : HealthyDisk} `{Profile}.
Variables (fresh : rdb) (clock : Z -> Z).
Hypothesis (Hfresh : healthy fresh) (Hempty : forall c, contents fresh c = []) (Hclock : forall i, 0 <= clock i).
Abbreviation seq := LogEntry.seq.

(** The store holds [es], without a gap, on a disk that works. *)
Record good (s : DbInner) (es : list LogEntry.t) : Prop := {
  good_rep : db_rep s es;
  good_gap_free : gap_free s es;
  good_disk : healthy (db s);
  good_schema : forall v, kv_get (contents (db s) CF_DEFAULT) SCHEMA_VERSION_KEY = Some v ->
    v = to_vec (u32_to_be_bytes CURRENT_SCHEMA_VERSION)
}.

Lemma no_iter_fault d c mode e : healthy d -> ~ iter_fails d c mode e.
Proof. intros Hh [l E]. destruct (healthy_iter d c mode Hh) as [l' E']. congruence. Qed.

Lemma no_get_fault d c k e : healthy d -> rdb_get d c k <> Err e.
Proof. intros Hh E. destruct (healthy_get d c k Hh). congruence. Qed.

Lemma write_then_healthy {A} s b (x : A) :
  healthy (db s) -> exists s', write_then s b x = (s', Ok x) /\ healthy (db s').
Proof.
  intros Hh. unfold write_then. destruct (healthy_write (db s) b Hh) as (d & -> & Hd). eexists. by split.
Qed.

Lemma good_append s es now key data :
  good s es -> next_seq s + 1 < two64 -> 0 <= now -> pair_ok (key, data) ->
  exists s', append s now key data = Ret (s', Ok (next_seq s, wrap_i64 now)) /\
    good s' (es ++ [new_entry (next_seq s) (wrap_i64 now) key data]).
Proof.
  intros [Hr Hg Hh Hs] Hroom Hnow Hp.
  destruct (append_spec s es now key data Hr Hroom Hnow Hp) as (s' & r & E & En & Hc & Hm).
  assert (Hok : exists s'', append s now key data = Ret (s'', Ok (next_seq s, wrap_i64 now)) /\ healthy (db s'')).
  { unfold append, fetch_add, unix_nanos. rewrite (proj2 (Z.ltb_ge now 0)) by lia. cbn [obind].
    destruct (healthy_encode (LogEntryProto.mk (next_seq s) (wrap_i64 now) key data (to_vec (leaf_hash data))))
      as [b ->].
    match goal with |- context [write_then ?s ?b ?x] => destruct (write_then_healthy s b x) as (s2 & -> & Hd) end;
      [done|]. by eexists. }
  destruct Hok as (s'' & E' & Hd). rewrite E' in E. injection E as <- <-. exists s''. split; [done|].
  destruct Hm as (_ & _ & Hr'). split; [done|by apply (gap_free_snoc s)|done|].
  by rewrite Hc.
Qed.

Lemma good_reopen s es : good s es -> exists s', reopen s = Ret s' /\ good s' es.
Proof.
  intros [Hr Hg Hh Hs]. unfold reopen. destruct (reopen_spec s es Hr) as (r & E & Hm).
  assert (Hch : exists d, check_schema (db s) = (d, Ok tt) /\ healthy d /\
    forall v, kv_get (contents d CF_DEFAULT) SCHEMA_VERSION_KEY = Some v ->
      v = to_vec (u32_to_be_bytes CURRENT_SCHEMA_VERSION)).
  { unfold check_schema. destruct (healthy_get (db s) CF_DEFAULT SCHEMA_VERSION_KEY Hh) as [o Eo].
    rewrite Eo. apply rdb_get_ok in Eo. destruct o as [v|].
    - rewrite (Hs v ltac:(done)). rewrite array_try_from_to_vec. exists (db s). by split; [vm_compute|].
    - destruct (healthy_put (db s) CF_DEFAULT SCHEMA_VERSION_KEY
        (to_vec (u32_to_be_bytes CURRENT_SCHEMA_VERSION)) Hh) as (d & Ep & Hd).
      rewrite Ep. exists d. split; [done|]. split; [done|]. intros v.
      rewrite (rdb_put_ok _ _ _ _ _ _ Ep). cbn [apply_batch foldl apply_op]. rewrite decide_True by done.
      rewrite kv_get_put by apply contents_sorted. rewrite decide_True by done. by intros [= <-]. }
  destruct Hch as (d & Ec & Hd & Hv). pose proof (check_schema_ok _ _ _ Ec) as [Hc _].
  assert (Hr1 : db_rep {| db := d; next_seq := next_seq s |} es)
    by (apply rep_transport with s; [done|done|apply Hr|apply Hr]).
  destruct (initial_next_seq_ok _ es Hr1) as [En|(x & Hx & _)]; [|by apply no_iter_fault in Hx].
  cbn [db] in En. unfold open in *. rewrite Ec, En in *. cbn [obind unwrap_ok] in *. injection E as <-.
  eexists. split; [done|]. destruct Hm as (Hr' & _ & _ & Hg'). split; [done|apply Hg', Hg|done|done].
Qed.

Lemma good_fresh : exists s, open_fresh fresh = Ret s /\ good s [].
Proof.
  change (open_fresh fresh) with (reopen {| db := fresh; next_seq := 0 |}). apply good_reopen.
  split; [|done|done|cbn; rewrite Hempty; done].
  split; cbn; [|intros k; by rewrite Hempty|constructor|done]. unfold log_rep. rewrite Hempty. constructor.
Qed.

Lemma range_pair_ok prefix i :
  in_u64 i -> len prefix <= 64 -> pair_ok (txt "k" ++ dec i, prefix ++ dec i).
Proof.
  intros Hi Hp. pose proof (dec_length i Hi). unfold pair_ok. cbn [fst snd]. rewrite !len_app.
  change (len (txt "k")) with 1. unfold two64. lia.
Qed.

Lemma good_range prefix : len prefix <= 64 -> forall k s es,
  good s es -> len es + Z.of_nat k < two64 ->
  exists s' news, append_range clock prefix s (seqZ (len es) (Z.of_nat k)) = Ret (s', LogEntry.leaf_hash <$> news) /\
    good s' (es ++ news) /\ len news = Z.of_nat k.
Proof.
  intros Hp. induction k as [|k IH]; intros s es Hg Hlen.
  - exists s, []. cbn. by rewrite app_nil_r.
  - rewrite Nat2Z.inj_succ in Hlen |- *. rewrite seqZ_cons, Z.pred_succ by lia. cbn [append_range].
    pose proof (len_nonneg es). pose proof (good_gap_free _ _ Hg) as [_ En].
    unfold append_ok at 1.
    destruct (good_append s es (clock (len es)) (txt "k" ++ dec (len es)) (prefix ++ dec (len es)))
      as (s1 & E & Hg1); [done|lia|done|apply range_pair_ok; [unfold in_u64; lia|done]|].
    rewrite E. cbn [obind unwrap_ok]. set (e := new_entry _ _ _ _) in *.
    destruct (IH s1 (es ++ [e]) Hg1) as (s2 & news & E2 & Hg2 & Hn2).
    { rewrite len_app. change (len [e]) with 1. lia. }
    rewrite len_app in E2. change (len [e]) with 1 in E2. unfold Z.succ at 1. rewrite E2. cbn [obind].
    exists s2, (e :: news). split; [done|]. rewrite <- app_assoc in Hg2. split; [done|].
    rewrite len_cons. lia.
Qed.

Lemma good_write s es nodes :
  good s es -> exists s', written (write_batch s nodes) = Ret s' /\ good s' es.
Proof.
  intros [Hr Hg Hh Hs]. unfold write_batch.
  destruct (write_then_healthy s (node_op <$> nodes) tt Hh) as (s' & E & Hh').
  rewrite E. exists s'. split; [done|].
  pose proof (write_then_spec _ _ _ _ _ E) as [En [_ Hc]]. split; [|split; [apply Hg|rewrite En; apply Hg]|done|].
  - eapply write_then_frame; [exact E|done|]. intros c m [->| ->]; by apply apply_nodes_frame.
  - rewrite Hc, apply_nodes_frame by done. done.
Qed.

Lemma clear_healthy s :
  healthy (db s) ->
  let keys := (rdb_iter (db s) CF_TREE IterStart).1.*1 in
  exists s1, (if len keys =? 0 then (s, Ok tt) else write_then s (DeleteCf CF_TREE <$> keys) tt) = (s1, Ok tt) /\
    healthy (db s1) /\ contents (db s1) CF_DEFAULT = contents (db s) CF_DEFAULT.
Proof.
  intros Hh keys. destruct (len keys =? 0); [by exists s|].
  destruct (write_then_healthy s (DeleteCf CF_TREE <$> keys) tt Hh) as (s1 & E & Hh1). exists s1.
  split; [done|]. split; [done|]. apply write_then_spec in E as [_ [_ ->]]. by apply apply_deletes_frame.
Qed.

(** On such a disk the rebuild succeeds, and the tree is that of the log. *)
Lemma good_rebuild s es :
  good s es -> exists s', rebuild_from_log s = Ret (s', Ok tt) /\ good s' es /\
    tree_ok s' (LogEntry.leaf_hash <$> es).
Proof.
  intros [Hr Hg Hh Hs].
  assert (Hit : forall e, ~ iter_fails (db s) CF_TREE IterStart e) by (intros; by apply no_iter_fault).
  destruct (rebuild_spec s es Hr Hg Hit) as (s' & r & E & Hr' & Ht & _).
  destruct (clear_tree_ok s es Hr Hit) as (s1 & r1 & E1 & Hr1 & Hn1 & _).
  destruct (clear_healthy s Hh) as (s1' & E1' & Hh1 & Hd1). cbv zeta in E1, E1'.
  rewrite E1' in E1. injection E1 as -> <-.
  pose proof E as E2. unfold rebuild_from_log in E2. cbv zeta in E2. rewrite E1' in E2.
  destruct (seq_range_ok s1 es 0 (two64 - 1) Hr1 ltac:(done)) as [Er|(x & Hx & _)];
    [|by apply no_iter_fault in Hx]. rewrite Er in E2.
  destruct (compute_nodes_from_leaves _) as [nodes| |]; cbn [obind] in E2; try done. injection E2 as E2.
  destruct (write_then_healthy s1 (node_op <$> nodes) tt Hh1) as (s2 & Ew & Hh2).
  unfold write_batch in E2. rewrite Ew in E2. injection E2 as -> <-.
  pose proof (write_then_spec _ _ _ _ _ Ew) as [En [_ Hc]].
  exists s'. split; [done|]. split; [|by apply Ht]. split; [done| |done|].
  - split; [apply Hg|]. rewrite En, Hn1. apply Hg.
  - rewrite Hc, apply_nodes_frame, Hd1 by done. done.
Qed.

Lemma good_get s es e :
  good s es -> e ∈ es -> get_by_seq s (seq e) = Ok (Some e).
Proof.
  intros [Hr _ Hh _] He. pose proof (rep_wf s es Hr) as Hw. rewrite Forall_forall in Hw.
  destruct (get_by_seq_ok s es (seq e) Hr) as [(o & -> & Ho)|(x & Ex & _)]; [by apply Hw| |].
  - f_equal. by apply Ho.
  - by apply no_get_fault in Ex.
Qed.

Lemma good_seq_range s es : good s es -> seq_range s 0 (len es) = Ok es.
Proof.
  intros [Hr Hg Hh _]. destruct (seq_range_ok s es 0 (len es) Hr ltac:(done)) as [E|(x & Hx & _)].
  - rewrite E. f_equal. rewrite (gap_free_take s) by (done || apply len_nonneg). unfold len. rewrite Nat2Z.id.
    by apply firstn_all.
  - by apply no_iter_fault in Hx.
Qed.

Lemma good_len s es : good s es -> len es < two64.
Proof. intros [[_ _ _ Hn] [_ <-] _ _]. apply Hn. Qed.

Lemma all_included_ok (l : list hash32) root :
  len l < two64 -> mth l = Ret (Some root) -> all_included l (len l) root = Ret tt.
Proof.
  intros Hl Hroot. apply for_each_ret. intros i Hi%elem_of_seqZ.
  destruct (lookup_lt_is_Some_2 l (Z.to_nat i)) as [x Hx]; [unfold len in Hi; lia|].
  destruct (inclusion_complete_tree l i x) as (p & root' & Hp & Hr & Hv); [done|lia|done|].
  rewrite Hroot in Hr. injection Hr as <-. unfold proof_of, accepts.
  rewrite Hp. cbn [obind unwrap_ok]. rewrite (index_Some _ _ _ (proj1 Hi) Hx). cbn [obind]. by rewrite Hv.
Qed.

(** The entries of a phase: those numbered from the length of the log on. *)
Lemma good_entries n s es :
  good s es -> 0 <= n -> len es + n < two64 ->
  exists s' news, append_range clock (txt "entry-") s (seqZ (len es) n) = Ret (s', LogEntry.leaf_hash <$> news) /\
    good s' (es ++ news) /\ len news = n.
Proof.
  intros Hg Hn Hlen. destruct (good_range (txt "entry-") ltac:(done) (Z.to_nat n) s es Hg) as (s' & news & H3);
    rewrite Z2Nat.id in * by done; [done|]. by exists s', news.
Qed.

(** A log with its nodes, as the tests build it. *)
Lemma good_built n :
  0 <= n < two64 ->
  exists s s' es nodes, open_fresh fresh = Ret s /\
    append_range clock (txt "entry-") s (seqZ 0 n) = Ret (s', LogEntry.leaf_hash <$> es) /\
    good s' es /\ len es = n /\
    compute_nodes_from_leaves (numbered (LogEntry.leaf_hash <$> es)) = Ret nodes /\
    forall h i x, (h, i, x) ∈ nodes <->
      0 <= h < 63 /\ 0 <= i /\ subtree (LogEntry.leaf_hash <$> es) (Z.to_nat h) i = Some x.
Proof.
  intros Hn. destruct good_fresh as (s & E & Hg).
  destruct (good_entries n s [] Hg) as (s' & es & Ea & Hg' & Hl); [lia|rewrite len_nil; lia|].
  destruct (compute_nodes_ok (LogEntry.leaf_hash <$> es)) as (nodes & En & Hno); [rewrite len_fmap; lia|].
  by exists s, s', es, nodes.
Qed.

Lemma good_found s es : good s es ->
  for_each es (fun e =>
    let! got := found (get_by_seq s (seq e)) in
    let! _ := assert (seq got =? seq e) in
    assert (bool_decide (LogEntry.data got = LogEntry.data e))) = Ret tt.
Proof.
  intros Hg. apply for_each_ret. intros e He. unfold found. rewrite (good_get s es e Hg He).
  cbn [obind unwrap_ok unwrap]. rewrite Z.eqb_refl, bool_decide_true by done. done.
Qed.

(** C8: crash recovery.  On every database that satisfies the laws of RocksDB and reports no error, with any
    clock after 1970 and any two sizes [1 <= old <= new < 2^64], the test of lib.rs passes: after entries
    with their nodes, a crash, entries whose nodes were never written and a second crash, the store reopens,
    [rebuild_from_log] succeeds, all entries are read back by number, every inclusion proof and the consistency
    proof from the root before the crash verify. *)
Theorem crash_recovery_passes (old new : Z) (Hold : 1 <= old) (Hnew : old <= new < two64) :
  crash_recovery fresh clock old new = Ret tt.
Proof.
  destruct (good_built old) as (s0 & s1 & es & nodes & E0 & E1 & Hg1 & Hl1 & En & _); [lia|].
  unfold crash_recovery. rewrite E0. cbn [obind]. rewrite E1. cbn [obind]. rewrite En. cbn [obind].
  destruct (good_write s1 es nodes Hg1) as (s2 & -> & Hg2). cbn [obind].
  assert (Hlen : forall l : list LogEntry.t, len (LogEntry.leaf_hash <$> l) = len l) by (intros; apply len_fmap).
  destruct (good_reopen s2 es Hg2) as (s3 & E3 & Hg3).
  destruct (good_entries (new - old) s3 es Hg3) as (s4 & more & E4 & Hg4 & Hl4); [lia|lia|].
  rewrite Hl1 in E4. destruct (good_reopen s4 _ Hg4) as (s5 & E5 & Hg5).
  destruct (good_rebuild s5 _ Hg5) as (s6 & E6 & Hg6 & _).
  set (all := es ++ more) in *. assert (Hall : len all = new) by (unfold all; rewrite len_app; lia).
  set (lh := LogEntry.leaf_hash <$> all). pose proof (Hlen all) as Hlh. fold lh in Hlh.
  destruct (consistency_complete_tree lh old) as (p & r1 & r2 & Hp & H1 & H2 & Hv); [lia|lia|].
  assert (Etake : take (Z.to_nat old) lh = LogEntry.leaf_hash <$> es).
  { unfold lh, all. rewrite fmap_app. apply take_app_length'. rewrite length_fmap. unfold len in Hl1. lia. }
  rewrite Etake in H1. rewrite (root_of_ok _ _ H1). cbn [obind]. rewrite E3. cbn [obind]. rewrite E4. cbn [obind].
  rewrite E5. cbn [obind]. rewrite E6. cbn [obind written unwrap_ok].
  rewrite <- Hall, (good_seq_range s6 all Hg6). cbn [obind unwrap_ok]. rewrite Z.eqb_refl. cbn [assert obind].
  fold lh. rewrite (root_of_ok _ _ H2). cbn [obind]. rewrite (good_found s6 all Hg6). cbn [obind].
  rewrite <- Hlh, all_included_ok by (lia || done). cbn [obind]. unfold proof_of. rewrite Hp.
  cbn [obind unwrap_ok]. unfold accepts. by rewrite Hv.
Qed.

Lemma good_rebuild_times k s es :
  good s es -> exists s', rebuild_times (S k) s = Ret s' /\ good s' es /\ tree_ok s' (LogEntry.leaf_hash <$> es).
Proof.
  revert s. induction k as [|k IH]; intros s Hg; destruct (good_rebuild s es Hg) as (s1 & E & Hg1 & Ht).
  - exists s1. cbn [rebuild_times]. by rewrite E.
  - destruct (IH s1 Hg1) as (s2 & E2 & H2). exists s2. split; [|done]. cbn [rebuild_times] in E2 |- *.
    rewrite E. exact E2.
Qed.

(** [rebuild_produces_identical_nodes] and [rebuild_is_idempotent] pass for every size and number of
    rebuilds: the nodes written along with the entries are the nodes a rebuild leaves. *)
Theorem rebuild_test_passes (n : Z) (k : nat) (Hn : 0 <= n < two64) :
  rebuild_test fresh clock n (S k) = Ret tt.
Proof.
  destruct (good_built n Hn) as (s0 & s1 & es & nodes & E0 & E1 & Hg1 & Hl1 & En & Hnodes).
  unfold rebuild_test. rewrite E0. cbn [obind]. rewrite E1. cbn [obind]. rewrite En. cbn [obind].
  destruct (good_write s1 es nodes Hg1) as (s2 & -> & Hg2). cbn [obind].
  destruct (good_rebuild_times k s2 es Hg2) as (s3 & E3 & Hg3 & Ht). rewrite E3. cbn [obind].
  apply for_each_ret. intros [[h i] x] Hin. apply Hnodes in Hin as (Hh & Hi & Hx).
  assert (HL : len (LogEntry.leaf_hash <$> es) < two64) by (rewrite len_fmap; lia).
  pose proof Hx as Hx'. apply subtree_mth in Hx' as [Hle Hm]; [|done|lia|done].
  assert (Hi64 : in_u64 i) by (pose proof (pow2_pos h ltac:(lia)); unfold in_u64; nia).
  assert (Hget : get_node s3 h i = Ok (Some x)).
  { specialize (Ht h i ltac:(ulia) Hi64). destruct (get_node s3 h i) as [o|e].
    - f_equal. apply Ht. split; [lia|done].
    - destruct Ht as (e' & Ee & _). by apply no_get_fault in Ee; [|apply Hg3]. }
  unfold found. rewrite Hget. cbn [obind unwrap_ok unwrap]. by rewrite bool_decide_true.
Qed.

(** *** Concurrent appends *)

Lemma merge_sort_sorted l : StronglySorted Z.le l -> merge_sort Z.le l = l.
Proof.
  intros Hs. apply (StronglySorted_unique Z.le); [apply (StronglySorted_merge_sort Z.le)|done|].
  apply (merge_sort_Permutation Z.le).
Qed.

Lemma seqZ_sorted a n : StronglySorted Z.le (seqZ a n).
Proof.
  destruct (Z.lt_ge_cases n 0) as [Hn|Hn]; [rewrite seqZ_nil by lia; constructor|].
  revert a. pattern n. apply natlike_ind; [constructor| |done]. intros m Hm IH a.
  rewrite seqZ_cons, Z.pred_succ by lia. constructor; [apply IH|].
  apply Forall_forall. intros x Hx%elem_of_seqZ. lia.
Qed.

Lemma consecutive_seqZ k : forall a, 0 <= a -> a + Z.of_nat k < two64 -> consecutive (seqZ a (Z.of_nat k)) = Ret tt.
Proof.
  induction k as [|[|k] IH]; intros a Ha Hk; [done|done|].
  rewrite Nat2Z.inj_succ in *. rewrite seqZ_cons, Z.pred_succ by lia.
  specialize (IH (Z.succ a) ltac:(lia) ltac:(lia)). rewrite Nat2Z.inj_succ in *.
  rewrite seqZ_cons, Z.pred_succ in IH |- * by lia. cbn [consecutive] in *.
  rewrite u64_add_in by ulia. cbn [obind]. unfold Z.succ at 1. rewrite Z.eqb_refl. exact IH.
Qed.

Lemma gap_free_check_ok s es :
  seq_range s 0 (len es) = Ok es -> seq <$> es = seqZ 0 (len es) -> 0 < len es < two64 ->
  gap_free_check s (len es) = Ret tt.
Proof.
  intros Hsr Hseq Hl. unfold gap_free_check. rewrite Hsr. cbn [obind unwrap_ok]. rewrite Z.eqb_refl.
  cbn [assert obind]. rewrite Hseq, merge_sort_sorted by apply seqZ_sorted.
  rewrite (index_Some _ 0 0) by (done || (apply lookup_seqZ; lia)). cbn [obind Z.eqb assert].
  rewrite last_lookup, length_seqZ, (proj2 (lookup_seqZ 0 (len es) _ (len es - 1))) by lia.
  cbn [unwrap obind]. rewrite u64_sub_in by ulia. cbn [obind]. rewrite Z.eqb_refl. cbn [assert obind].
  rewrite <- (Z2Nat.id (len es)) by lia. apply consecutive_seqZ; lia.
Qed.

Lemma threads_healthy t t' : rtc (tstep false) t t' -> healthy (db (store t)) -> healthy (db (store t')).
Proof.
  induction 1 as [|t t1 t2 Hstep _ IH]; [done|]. intros Hh. apply IH.
  destruct Hstep as [t now pairs s news _ _ _ Hb|t now pairs _ _ _ _ [=]|t i news s r _ Hf _]; cbn [store].
  - unfold begin_append, fetch_add, unix_nanos in Hb. destruct (now <? 0); [done|]. by injection Hb as <- _.
  - unfold finish_append in Hf. destruct (encode_all news) as [vs|e]; [|by injection Hf as <- _].
    destruct (write_then_healthy (store t) (concat (zip_with entry_ops news vs)) tt Hh) as (s' & E & Hh').
    rewrite E in Hf. by injection Hf as <- _.
Qed.

(** [concurrent_appends_are_gap_free] passes: when threads have appended [n] entries to a new store, in
    whatever order their counter updates and writes happened, the checks after the join succeed. *)
Theorem concurrent_test_passes (s : DbInner) (t : threads) (Ho : open_fresh fresh = Ret s)
    (Hr : rtc (tstep false) (mkThreads s [] []) t) (Hj : inflight t = []) (Hn : begun t <> []) :
  gap_free_check (store t) (len (begun t)) = Ret tt.
Proof.
  destruct good_fresh as (s' & E & [Hrep Hg Hh _]). rewrite Ho in E. injection E as <-.
  destruct (concurrent_spec false s [] t Hrep Hg Hr) as [_ Hq]. destruct (Hq eq_refl Hj) as (_ & Hgf & Hsr).
  pose proof (threads_reach false _ t _ _ (threads_start false _ _ Hrep Hg) Hr) as [(es & lost & Hok) _].
  apply gap_free_check_ok; [|apply Hgf|].
  - destruct Hsr as [E|(e & He & _)]; [done|]. apply no_iter_fault in He; [done|].
    by apply (threads_healthy _ _ Hr).
  - split; [|apply (thr_range _ _ _ _ Hok)]. destruct (begun t); [done|]. rewrite len_cons.
    pose proof (len_nonneg l). lia.
Qed.
End Healthy.

(** ** On the in-memory database *)

Section Evaluate.
#[local] Existing Instance fips_sha256.
#[local] Existing Instance MemDb.memdb.
#[local] Existing Instance DemoCodec.codec.
#[local] Existing Instance StorageDemo.checked_build.

Definition disk : rdb := MemDb.empty [].
Definition wall (_ : Z) : Z := StorageDemo.now.

(** Without scheduled failures the in-memory database is healthy. *)
#[local] Existing Instance MemDb.memdb_laws.
#[local] Existing Instance DemoCodec.codec_laws.
#[local] Instance memdb_healthy : HealthyDisk.
Proof.
  refine {| healthy := (fun d => MemDb.fail_writes d = []) : @rdb MemDb.memdb -> Prop |}; cbn; intros.
  - eauto.
  - unfold MemDb.write. rewrite H. eauto.
  - unfold MemDb.write. rewrite H. eauto.
  - eauto.
  - eauto.
Defined.

Example log_store_tests_pass :
  Forall (fun t => t = Ret tt)
    [written_entry_is_retrievable_by_seq disk wall; entry_survives_close_and_reopen disk wall;
     index_survives_close_and_reopen disk wall; seq_range_returns_entries_in_order disk wall;
     latest_returns_empty_for_empty_log disk; latest_returns_zero_for_n_zero disk wall;
     latest_returns_newest_first_and_caps_at_n disk wall;
     latest_returns_all_when_n_exceeds_log_size disk wall;
     entries_by_key_exact_match_and_pagination disk wall].
Proof. repeat (apply Forall_cons_2; [vm_compute; exact eq_refl|]). apply Forall_nil_2. Qed.

Example tree_store_tests_pass :
  Forall (fun t => t = Ret tt)
    [written_nodes_are_retrievable disk; inclusion_proofs_verify_after_tree_write disk wall 8;
     rebuild_test disk wall 7 1; rebuild_test disk wall 5 2; crash_recovery disk wall 5 7].
Proof. repeat (apply Forall_cons_2; [vm_compute; exact eq_refl|]). apply Forall_nil_2. Qed.

Example head_store_tests_pass :
  Forall (fun t => t = Ret tt)
    [latest_returns_largest_tree_size disk; at_size_returns_exact_match disk;
     at_size_missing_returns_none disk; range_returns_correct_subset disk;
     latest_on_empty_store_returns_none disk].
Proof. repeat (apply Forall_cons_2; [vm_compute; exact eq_refl|]). apply Forall_nil_2. Qed.

(** The test with the numbers it has. *)
Lemma crash_recovery_passes_witness : crash_recovery_rebuild disk wall = Ret tt.
Proof.
  exact (crash_recovery_passes disk wall eq_refl (fun c => eq_refl) (fun i => ltac:(discriminate)) 1000 1100
    ltac:(lia) ltac:(unfold two64; lia)).
Defined.
End Evaluate.
