(* ===== verification/Benches.v ===== *)
(** * The benchmarks of settled-core (crates/settled-core/benches/verifier.rs)

    What each benchmark prepares and what the measured call returns; criterion, which repeats and times the
    call, is not modelled.  A benchmark that measured a rejected proof would measure an early return: here
    every measured verification accepts, and every measured generation succeeds. *)

From S2P Require Import Prelude Bytes Hash MerkleSpec Merkle MerkleProof Sha256Instance ProofTheorems CoreTests.
Import ProofTests.

Section Benches.
Context `{Sha256} `{Profile}.

Definition make_leaves (n : Z) : list hash32 := (fun i => leaf_hash (to_vec (u64_to_be_bytes i))) <$> seqZ 0 n.
Definition tree_root (leaves : list hash32) : outcome hash32 := root_of leaves.

(** The two hashes measured. *)
Definition bench_hashing : hash32 * hash32 :=
  (leaf_hash (replicate 64 Init.Byte.x42),
   node_hash (array_fill 32 Init.Byte.xaa) (array_fill 32 Init.Byte.xbb)).

Definition inclusion_case (size : Z) : outcome bool :=
  let leaves := make_leaves size in
  let! root := tree_root leaves in
  let idx := size / 2 in
  let! proof := proof_of (inclusion_proof leaves idx) in
  let! leaf := index leaves idx in
  verify_inclusion leaf idx size proof root.
Definition bench_verify_inclusion : outcome (list bool) := map_each inclusion_case [8; 64; 512; 1024].

Definition consistency_case (sizes : Z * Z) : outcome bool :=
  let '(old, new) := sizes in
  let leaves := make_leaves new in
  let! l := slice_to leaves old in
  let! old_root := tree_root l in
  let! new_root := tree_root leaves in
  let! proof := proof_of (consistency_proof leaves old) in
  verify_consistency old new proof old_root new_root.
Definition bench_verify_consistency : outcome (list bool) :=
  map_each consistency_case [(1, 2); (4, 8); (7, 8); (64, 128); (512, 1024)].

(** The audit path of the middle leaf and the proof from the first half. *)
Definition generation_case (size : Z) : outcome (list hash32 * list hash32) :=
  let leaves := make_leaves size in
  let idx := size / 2 in
  let! inclusion := proof_of (inclusion_proof leaves idx) in
  let old := size / 2 in
  let! consistency := proof_of (consistency_proof leaves old) in
  Ret (inclusion, consistency).
Definition bench_proof_generation : outcome (list (list hash32 * list hash32)) :=
  map_each generation_case [64; 1024].

(** ** What is measured *)

Lemma len_make_leaves n : 0 <= n -> len (make_leaves n) = n.
Proof. intros Hn. unfold make_leaves. rewrite len_fmap. unfold len. rewrite length_seqZ. lia. Qed.

Lemma map_each_ret {A B} (f : A -> outcome B) (g : A -> B) l :
  Forall (fun x => f x = Ret (g x)) l -> map_each f l = Ret (g <$> l).
Proof.
  induction 1 as [|x l Hx _ IH]; [done|]. cbn [map_each]. rewrite Hx. cbn [obind]. by rewrite IH.
Qed.

(** The proof of the middle leaf, for any size. *)
Lemma inclusion_case_setup size : 2 <= size < two64 ->
  let leaves := make_leaves size in
  exists p root leaf, inclusion_proof leaves (size / 2) = Ret (Ok p) /\ mth leaves = Ret (Some root) /\
    index leaves (size / 2) = Ret leaf /\ verify_inclusion leaf (size / 2) size p root = Ret true.
Proof.
  intros Hs leaves. pose proof (len_make_leaves size ltac:(lia)) as Hl. fold leaves in Hl.
  assert (Hi : 0 <= size / 2 < size) by (split; [apply Z.div_pos|apply Z.div_lt]; lia).
  destruct (lookup_lt_is_Some_2 leaves (Z.to_nat (size / 2))) as [x Hx]; [unfold len in Hl; lia|].
  destruct (inclusion_complete_tree leaves (size / 2) x) as (p & root & Hp & Hr & Hv); [lia|lia|done|].
  rewrite Hl in Hv. exists p, root, x. split; [done|]. split; [done|]. split; [|done]. apply index_Some; [lia|done].
Qed.

Lemma consistency_case_setup old new : 1 <= old <= new -> new < two64 ->
  let leaves := make_leaves new in
  exists p r1 r2, consistency_proof leaves old = Ret (Ok p) /\
    slice_to leaves old = Ret (take (Z.to_nat old) leaves) /\
    mth (take (Z.to_nat old) leaves) = Ret (Some r1) /\ mth leaves = Ret (Some r2) /\
    verify_consistency old new p r1 r2 = Ret true.
Proof.
  intros Ho Hn leaves. pose proof (len_make_leaves new ltac:(lia)) as Hl. fold leaves in Hl.
  destruct (consistency_complete_tree leaves old) as (p & r1 & r2 & Hp & H1 & H2 & Hv); [lia|lia|].
  rewrite Hl in Hv. exists p, r1, r2. split; [done|]. split; [apply slice_to_take; lia|]. done.
Qed.

Lemma inclusion_case_accepts size : 2 <= size < two64 -> inclusion_case size = Ret true.
Proof.
  intros Hs. destruct (inclusion_case_setup size Hs) as (p & root & leaf & Hp & Hr & Hi & Hv).
  unfold inclusion_case, tree_root. rewrite (root_of_ok _ _ Hr). cbn [obind]. unfold proof_of.
  rewrite Hp. cbn [obind unwrap_ok]. rewrite Hi. exact Hv.
Qed.

Lemma consistency_case_accepts old new :
  1 <= old <= new -> new < two64 -> consistency_case (old, new) = Ret true.
Proof.
  intros Ho Hn. destruct (consistency_case_setup old new Ho Hn) as (p & r1 & r2 & Hp & Hs & H1 & H2 & Hv).
  unfold consistency_case, tree_root. rewrite Hs. cbn [obind]. rewrite (root_of_ok _ _ H1). cbn [obind].
  rewrite (root_of_ok _ _ H2). cbn [obind]. unfold proof_of. rewrite Hp. exact Hv.
Qed.

Lemma generation_case_returns size : 2 <= size < two64 -> exists r, generation_case size = Ret r.
Proof.
  intros Hs. destruct (inclusion_case_setup size Hs) as (p & root & leaf & Hp & _).
  assert (Ho : 1 <= size / 2 <= size).
  { split; [apply Z.div_le_lower_bound; lia|]. apply Z.lt_le_incl, Z.div_lt; lia. }
  destruct (consistency_case_setup (size / 2) size Ho ltac:(lia)) as (q & r1 & r2 & Hq & _).
  unfold generation_case, proof_of. rewrite Hp. cbn [obind unwrap_ok]. rewrite Hq. by eexists.
Qed.

(** Every measured verification accepts and every measured generation returns a proof, so the benchmarks time
    the work they name. *)
Theorem benchmarks_measure_work :
  bench_verify_inclusion = Ret [true; true; true; true] /\
  bench_verify_consistency = Ret [true; true; true; true; true] /\
  exists a b, bench_proof_generation = Ret [a; b].
Proof.
  split; [|split].
  - apply (map_each_ret inclusion_case (fun _ => true)).
    repeat constructor; apply inclusion_case_accepts; unfold two64; lia.
  - apply (map_each_ret consistency_case (fun _ => true)).
    repeat constructor; apply consistency_case_accepts; unfold two64; lia.
  - destruct (generation_case_returns 64) as [a Ha]; [unfold two64; lia|].
    destruct (generation_case_returns 1024) as [b Hb]; [unfold two64; lia|].
    exists a, b. unfold bench_proof_generation. cbn [map_each]. rewrite Ha. cbn [obind]. by rewrite Hb.
Qed.
End Benches.
