(* ===== verification/Drain.v ===== *)
(** * Shutdown with Watch streams open (crates/settled-server/src/{main,service}.rs)

    After the shutdown signal [serve_with_shutdown] accepts no request and returns when the RPCs in flight have
    ended; only then [main] tells the signing task to make its last head.  A Watch stream is an RPC
    in flight for as long as its client listens, and its task has no part in the shutdown. *)

From S2P Require Import Prelude Bytes Hash Merkle Sth Rocksdb StorageTypes Db LogStore LogTheorems Table.
From S2P Require Import HeadStore ServerState Service ServerInv Watch WatchLive Admin Poison SthTask ServerMain CoreTests.

Section Drain.
Context `{Sha256} {R : Rocksdb} {P : Prost} {RL : RocksdbLaws} {PL : ProstLaws}.
Context {D : ErrorDisplay} `{Ed25519} `{RateLimit} `{Profile} `{Hex} `{B : Broadcast} {BL : BroadcastLaws}.

Definition ended (w : watcher) : bool := match at_ w with Ended _ => true | _ => false end.

(** [serve_with_shutdown] after the signal: the streams [ws] are still open, [sts i] is the state in their turn
    [i].  It returns when all have ended. *)
Fixpoint drain (fuel : nat) (sts : nat -> AppState) (i : nat) (ws : list watcher) : outcome (list watcher) :=
  if forallb ended ws then Ret ws
  else
    match fuel with
    | O => OutOfFuel
    | S fuel => let! ws := map_each (watch_task (sts i)) ws in drain fuel sts (S i) ws
    end.

(** The end of [main]: the streams are drained before the signing task is told to stop. *)
Definition shutdown (fuel : nat) (sts : nat -> AppState) (ws : list watcher) (o : surroundings) (st : AppState)
  : outcome (guarded * list Poison.reply * list (option (result unit StorageTypes.Error)) * result unit MainError) :=
  let! _ := drain fuel sts 0 ws in Ret (serve_until_shutdown o st).

(** A live stream that is not behind by more than the capacity of the channel. *)
Definition listening (sent : list Entry.t) (w : watcher) : Prop :=
  at_ w = Streaming /\ (rx_next (rx w) <= length sent)%nat /\
  (length sent <= rx_next (rx w) + WATCH_CHANNEL_CAP)%nat.

(** It stays one as long as nothing more is appended. *)
Lemma listening_turn st w :
  listening (watch_tx st) w -> exists w', watch_task st w = Ret w' /\ listening (watch_tx st) w'.
Proof.
  intros (Ea & Hle & Hcap). unfold watch_task. rewrite Ea.
  destruct (rx_recv (watch_tx st) (rx w)) as [o rx'] eqn:Er.
  pose proof (recv_next _ _ _ _ Er Hle) as Hn. destruct o as [[e|n|]|].
  - destruct Hn as [He En]. apply lookup_lt_Some in He.
    assert (Hl : forall last out, listening (watch_tx st) (mkWatcher _ rx' Streaming last out))
      by (intros; split; [done|]; cbn [rx]; lia).
    destruct (match last_sent w with Some last => _ | None => _ end); eexists; (split; [done|apply Hl]).
  - destruct Hn as [Hlag _]. lia.
  - done.
  - destruct Hn as [_ En]. eexists. split; [done|]. split; [done|]. cbn [rx]. lia.
Qed.

Lemma map_each_in {A C} (f : A -> outcome C) l l' x :
  map_each f l = Ret l' -> x ∈ l -> exists y, f x = Ret y /\ y ∈ l'.
Proof.
  revert l'. induction l as [|a l IH]; intros l' E Hx; [by apply elem_of_nil in Hx|].
  cbn [map_each] in E. destruct (f a) as [b| |] eqn:Ea; try done. cbn [obind] in E.
  destruct (map_each f l) as [bs| |]; try done. injection E as <-.
  apply elem_of_cons in Hx as [->|Hx].
  - exists b. split; [done|left].
  - destruct (IH bs eq_refl Hx) as (y & Ey & Hy). exists y. split; [done|by right].
Qed.

Lemma listening_open sent w ws : listening sent w -> w ∈ ws -> forallb ended ws = false.
Proof.
  intros [Ea _] Hw. apply not_true_is_false. intros Hf. rewrite forallb_forall in Hf.
  apply list_elem_of_In, Hf in Hw. unfold ended in Hw. by rewrite Ea in Hw.
Qed.

Lemma drain_blocked sent fuel sts : (forall i, watch_tx (sts i) = sent) -> forall i ws w,
  w ∈ ws -> listening sent w -> forall ws', drain fuel sts i ws <> Ret ws'.
Proof.
  intros Hs. induction fuel as [|fuel IH]; intros i ws w Hw Hl ws'; cbn [drain];
    rewrite (listening_open sent w ws Hl Hw); [done|].
  destruct (map_each (watch_task (sts i)) ws) as [ws1| |] eqn:Em; [|done..]. cbn [obind].
  rewrite <- (Hs i) in Hl. destruct (listening_turn (sts i) w Hl) as (w1 & Et & Hl1). rewrite Hs in Hl1.
  destruct (map_each_in _ _ _ _ Em Hw) as (w2 & Et2 & Hw2). rewrite Et in Et2. injection Et2 as <-.
  by eapply IH.
Qed.

(** A client that watches keeps the server from shutting down.  If a stream is live when the signal comes and
    nothing more is appended, the drain never ends, however long one waits, so the last signing of the
    shutdown is never run; without open streams the shutdown is [serve_until_shutdown], which signs. *)
Theorem open_watch_blocks_shutdown (sts : nat -> AppState) (sent : list Entry.t) (ws : list watcher)
    (o : surroundings) (st : AppState) (Hs : forall i, watch_tx (sts i) = sent) :
  (Exists (listening sent) ws -> forall fuel res, shutdown fuel sts ws o st <> Ret res) /\
  (Forall (fun w => ended w = true) ws -> forall fuel, shutdown fuel sts ws o st = Ret (serve_until_shutdown o st)).
Proof.
  split.
  - intros (w & Hw & Hl)%Exists_exists fuel res. unfold shutdown.
    pose proof (drain_blocked sent fuel sts Hs 0 ws w Hw Hl) as Hd.
    destruct (drain fuel sts 0 ws) as [ws'| |]; [by destruct (Hd ws')|done..].
  - intros Hf fuel. unfold shutdown.
    assert (Hall : forallb ended ws = true).
    { apply forallb_forall. intros w Hw%list_elem_of_In. by eapply (proj1 (Forall_forall _ _)) in Hf. }
    destruct fuel; cbn [drain]; by rewrite Hall.
Qed.
End Drain.
