(* ===== verification/DemoFormat.v ===== *)
(** * The demo's formatting (demos/rust/src/main.rs)

    The texts the demo program prints: times, hashes, the header and the rows of its
    table.  A Rust string is its UTF-8 bytes. *)

From Stdlib Require String.
From stdpp Require Import pretty.
From S2P Require Import Prelude Bytes StorageTypes Utf8 Admin Client.
Import String.StringSyntax.

(** ** Definitions *)

Definition fmt_time (ts_ns : Z) : bytes :=
  let secs := Z.abs ts_ns / 1000000000 in
  let ms := (Z.abs ts_ns mod 1000000000) / 1000000 in
  let h := (secs mod 86400) / 3600 in
  let m := (secs mod 3600) / 60 in
  let s := secs mod 60 in
  pad_zero 2 h ++ txt ":" ++ pad_zero 2 m ++ txt ":" ++ pad_zero 2 s ++ txt "." ++ pad_zero 3 ms ++ txt "Z".

Definition table_header (show_proof : bool) : bytes :=
  let h := pad_left 4 (txt "Seq") ++ txt "  " ++ pad_right 20 (txt "Key") ++ txt "  " ++
           pad_right 20 (txt "Data") ++ txt "  " ++ pad_right 20 (txt "Time") ++ txt "  " ++
           pad_right 18 (txt "Leaf Hash") in
  if show_proof then h ++ txt "  Proof" else h.

Section Rows.
Context `{Hex}.

(** The slice is at a character boundary: hexadecimal digits are ASCII. *)
Definition fmt_hash (b : bytes) : bytes :=
  let hex := as_bytes (hex_encode b) in
  take (Nat.min (length hex) 16) hex ++ txt "…".

Definition entry_row (e : Client.Entry) (proof_col : bytes) : bytes :=
  pad_left 4 (dec (Client.seq e)) ++ txt "  " ++
  pad_right 20 (from_utf8_lossy (Client.key e)) ++ txt "  " ++
  pad_right 20 (from_utf8_lossy (Client.data e)) ++ txt "  " ++
  pad_right 20 (fmt_time (Client.e_timestamp_ns e)) ++ txt "  " ++
  pad_right 18 (fmt_hash (Client.leaf_hash e)) ++ proof_col.
End Rows.

(** What the [hex] crate documents: digits only, two per byte. *)
Class HexLaws `{Hex} := {
  hex_ascii : forall b, ascii (as_bytes (hex_encode b)) = true;
  hex_length : forall b, length (as_bytes (hex_encode b)) = (2 * length b)%nat
}.

(** ** Times *)

Definition digits_value (s : bytes) : Z := foldl (fun n x => 10 * n + (Z_of_byte x - 48)) 0 s.

Lemma pad_zero_digits w n :
  (w = 2%nat /\ 0 <= n < 100 \/ w = 3%nat /\ 0 <= n < 1000) ->
  length (pad_zero w n) = w /\ digits_value (pad_zero w n) = n.
Proof.
  assert (E : forallb (fun n => Nat.eqb (length (pad_zero 3 (Z.of_nat n))) 3 &&
      (digits_value (pad_zero 3 (Z.of_nat n)) =? Z.of_nat n)) (seq 0 1000) &&
    forallb (fun n => Nat.eqb (length (pad_zero 2 (Z.of_nat n))) 2 &&
      (digits_value (pad_zero 2 (Z.of_nat n)) =? Z.of_nat n)) (seq 0 100) = true)
    by (vm_compute; reflexivity).
  apply andb_prop in E as [E3 E2]. rewrite forallb_forall in E2, E3.
  intros [[-> Hn]|[-> Hn]].
  - specialize (E2 (Z.to_nat n)). rewrite in_seq, Z2Nat.id in E2 by lia. specialize (E2 ltac:(lia)).
    apply andb_prop in E2 as [?%Nat.eqb_eq ?%Z.eqb_eq]. done.
  - specialize (E3 (Z.to_nat n)). rewrite in_seq, Z2Nat.id in E3 by lia. specialize (E3 ltac:(lia)).
    apply andb_prop in E3 as [?%Nat.eqb_eq ?%Z.eqb_eq]. done.
Qed.

Lemma pad_zero_length w n :
  (w = 2%nat /\ 0 <= n < 100 \/ w = 3%nat /\ 0 <= n < 1000) -> length (pad_zero w n) = w.
Proof. apply pad_zero_digits. Qed.

(** The parts of a time: each in its range, together the millisecond of the day. *)
Lemma time_parts t : 0 <= t ->
  let secs := t / 1000000000 in
  let ms := (t mod 1000000000) / 1000000 in
  let h := (secs mod 86400) / 3600 in
  let m := (secs mod 3600) / 60 in
  let s := secs mod 60 in
  0 <= h < 24 /\ 0 <= m < 60 /\ 0 <= s < 60 /\ 0 <= ms < 1000 /\
  (t / 1000000) mod 86400000 = ((h * 60 + m) * 60 + s) * 1000 + ms.
Proof.
  intros Ht secs ms h m s. subst secs ms h m s.
  Z.to_euclidean_division_equations. lia.
Qed.

Lemma pad_zero_inj w n n' s s' :
  (w = 2%nat /\ 0 <= n < 100 \/ w = 3%nat /\ 0 <= n < 1000) ->
  (w = 2%nat /\ 0 <= n' < 100 \/ w = 3%nat /\ 0 <= n' < 1000) ->
  pad_zero w n ++ s = pad_zero w n' ++ s' -> n = n' /\ s = s'.
Proof.
  intros Hn Hn' E. destruct (pad_zero_digits w n Hn) as [L D], (pad_zero_digits w n' Hn') as [L' D'].
  apply app_inj_len in E as [E ->]; [|congruence]. split; [|done]. by rewrite <- D, E, D'.
Qed.

(** What a printed time says.  [fmt_time] always prints 13 bytes, and two timestamps are
    printed alike exactly when their absolute values fall in the same millisecond of the day: the
    date is lost, and a time before 1970 reads as its mirror image. *)
Theorem fmt_time_spec (a b : Z) :
  length (fmt_time a) = 13%nat /\
  (fmt_time a = fmt_time b <->
   (Z.abs a / 1000000) mod 86400000 = (Z.abs b / 1000000) mod 86400000).
Proof.
  destruct (time_parts (Z.abs a) (Z.abs_nonneg a)) as (Ah & Am & As & Ams & Ea).
  destruct (time_parts (Z.abs b) (Z.abs_nonneg b)) as (Bh & Bm & Bs & Bms & Eb).
  rewrite Ea, Eb. unfold fmt_time. split.
  - rewrite !length_app. rewrite !pad_zero_length by lia. done.
  - split.
    + intros E. apply pad_zero_inj in E as [E1 E]; [|lia..]. apply app_inv_head in E.
      apply pad_zero_inj in E as [E2 E]; [|lia..]. apply app_inv_head in E.
      apply pad_zero_inj in E as [E3 E]; [|lia..]. apply app_inv_head in E.
      apply pad_zero_inj in E as [E4 E]; [|lia..]. congruence.
    + set (ha := _ / 3600) in *. set (hb := Z.abs b / 1000000000 mod 86400 / 3600) in *.
      set (ma := (Z.abs a / 1000000000) mod 3600 / 60) in *.
      set (mb := (Z.abs b / 1000000000) mod 3600 / 60) in *.
      set (sa := (Z.abs a / 1000000000) mod 60) in *. set (sb := (Z.abs b / 1000000000) mod 60) in *.
      set (xa := Z.abs a mod 1000000000 / 1000000) in *. set (xb := Z.abs b mod 1000000000 / 1000000) in *.
      intros E. by assert (ha = hb /\ ma = mb /\ sa = sb /\ xa = xb) as (-> & -> & -> & ->) by lia.
Qed.

(** ** Rows *)

Section RowText.
Context `{HexLaws}.

Lemma fmt_time_utf8 t : utf8 (fmt_time t) = true.
Proof. unfold fmt_time. auto 20 with text. Qed.
Lemma ascii_take n s : ascii s = true -> ascii (take n s) = true.
Proof. intros Hs. rewrite <- (take_drop n s), ascii_app in Hs. by apply andb_prop in Hs as [? _]. Qed.
(** The cut after sixteen bytes is at a character, since hex digits are ASCII. *)
Lemma fmt_hash_utf8 x : utf8 (fmt_hash x) = true.
Proof.
  unfold fmt_hash. apply utf8_cat; [|done]. apply ascii_utf8, ascii_take, hex_ascii.
Qed.
#[local] Hint Resolve fmt_time_utf8 fmt_hash_utf8 : text.

(** The model of a row is a Rust [String]: bytes that are well-formed UTF-8. *)
Lemma entry_row_utf8 (e : Client.Entry) (proof_col : bytes) :
  utf8 proof_col = true -> utf8 (entry_row e proof_col) = true.
Proof. intros Hcol. unfold entry_row. auto 30 with text. Qed.
End RowText.
