(* ===== verification/Demo.v ===== *)
(** * The demo program (demos/rust/src/main.rs)

    A console program over the client: it appends entries, pages through the log, checks heads and
    proofs and prints a table; one of its modes runs until interrupted.  The program
    is an interaction tree.  Its events are the calls of the client ([rpcE]), what it asks of the
    operating system ([osE]: clock, timers, Ctrl-C, the terminal) and the ways it can
    end early ([haltE]). *)

From Stdlib Require String SpecFloat.
From stdpp Require Import gmap pretty.
From S2P Require Import SdkVerifier.
From S2P Require Import Prelude Bytes Hash Sth StorageTypes ServerState Utf8 Admin Client DemoFormat.
From ITree Require Import ITree.
Import String.StringSyntax.

(** Sequencing of trees. *)
Declare Scope demo_scope.
Notation "'let*' x := t 'in' k" := (ITree.bind t (fun x => k))
  (at level 200, x name, t at level 100, k at level 200) : demo_scope.
Notation "'do*' t 'in' k" := (ITree.bind t (fun _ => k))
  (at level 200, t at level 100, k at level 200) : demo_scope.
#[global] Open Scope demo_scope.

(** ** Events *)

Variant rpcE : Type -> Type :=
| Connect (host : bytes) : rpcE (result unit Client.ClientError)
| GetSth (tree_size : Z) : rpcE (result Client.SignedTreeHead Client.ClientError)
| Append (key data : bytes) : rpcE (result Client.AppendResult Client.ClientError)
| Get (seq : Z) : rpcE (result Client.Entry Client.ClientError)
| InclusionProof (seq tree_size : Z) : rpcE (result Client.InclusionProofResult Client.ClientError)
| ConsistencyProof (old_size new_size : Z) : rpcE (result Client.ConsistencyProofResult Client.ClientError)
| ListEntries (from_seq to_seq cursor limit : Z) : rpcE (result Client.ListEntriesResult Client.ClientError)
| GetByKey (key : bytes) (cursor limit : Z) : rpcE (result Client.GetByKeyResult Client.ClientError).

Variant osE : Type -> Type :=
| Now : osE Z                           (* Instant::now, in nanoseconds *)
| Sleep (ns : Z) : osE unit
| SelectCtrlC (ns : Z) : osE bool       (* Ctrl-C arrived before the sleep was over *)
| Print (s : bytes) : osE unit
| Eprint (s : bytes) : osE unit.

Variant haltE : Type -> Type :=
| PanicE : haltE Empty_set
| Exit (code : Z) : haltE Empty_set.

Definition demoE : Type -> Type := rpcE +' osE +' haltE.

(** ** Errors, panics and output *)

(** [Box<dyn std::error::Error>] *)
Inductive DemoError :=
| DClient (e : Client.ClientError)
| DMsg (msg : bytes).

Definition halt {A} (e : haltE Empty_set) : itree demoE A :=
  let* v := trigger e in match v : Empty_set with end.

(** A pure computation: it may panic or run for ever. *)
Definition evaluate {A} (o : outcome A) : itree demoE A :=
  match o with
  | Prelude.Ret a => Ret a
  | Panic => halt PanicE
  | OutOfFuel => ITree.spin
  end.

(** A call of the client whose error is boxed, and the operator [?]. *)
Definition request {A} (e : rpcE (result A Client.ClientError)) : itree demoE (result A DemoError) :=
  let* r := trigger e in Ret (map_err DClient r).
Definition try_bind {A B} (t : itree demoE (result A DemoError))
    (k : A -> itree demoE (result B DemoError)) : itree demoE (result B DemoError) :=
  let* r := t in match r with Ok a => k a | Err e => Ret (Err e) end.
Notation "'try*' x := t 'in' k" := (try_bind t (fun x => k))
  (at level 200, x name, t at level 100, k at level 200) : demo_scope.

Definition print (s : bytes) : itree demoE unit := trigger (Print s).
Definition newline : bytes := [Init.Byte.x0a].
Definition println (s : bytes) : itree demoE unit := print (s ++ newline).

(** ** Floating point (f64) *)

Abbreviation f64 := SpecFloat.spec_float.

(** [m * 2^e * k], rounded to the nearest integer, ties to even. *)
Definition round_even (m e k : Z) : Z :=
  if 0 <=? e then m * 2 ^ e * k
  else
    let q := m * k / 2 ^ (- e) in
    let r := (m * k) mod 2 ^ (- e) in
    let half := 2 ^ (- e - 1) in
    if (half <? r) || ((r =? half) && Z.odd q) then q + 1 else q.

(** [{:.0}] *)
Definition fmt_f64_0 (f : f64) : bytes :=
  match f with
  | SpecFloat.S754_zero s => (if s then txt "-" else []) ++ txt "0"
  | SpecFloat.S754_infinity s => (if s then txt "-" else []) ++ txt "inf"
  | SpecFloat.S754_nan => txt "NaN"
  | SpecFloat.S754_finite s m e => (if s then txt "-" else []) ++ dec (round_even (Zpos m) e 1)
  end.

(** [Duration::from_secs_f64], in nanoseconds. *)
Definition from_secs_f64 (f : f64) : outcome Z :=
  match f with
  | SpecFloat.S754_zero _ => Prelude.Ret 0
  | SpecFloat.S754_finite false m e =>
      let ns := round_even (Zpos m) e 1000000000 in
      if ns <? two64 * 1000000000 then Prelude.Ret ns else Panic
  | _ => Panic
  end.

(** ** Tables *)

Section Program.
Context `{Hex} `{Sha256} `{Ed25519} `{Profile}.

(** [for e in entries { .. }] *)
Fixpoint for_each {A} (l : list A) (body : A -> itree demoE unit) : itree demoE unit :=
  match l with
  | [] => Ret tt
  | x :: l => do* body x in for_each l body
  end.

Definition proof_text (ok : bool) : bytes := if ok then txt "  OK" else txt "  FAIL".

Definition print_header (show_proof : bool) : itree demoE unit :=
  let hdr := table_header show_proof in
  do* println hdr in println (replicate (length hdr) Init.Byte.x2d).

Definition print_table (entries : list Client.Entry) (verified : option (gmap Z bool)) : itree demoE unit :=
  do* print_header (match verified with Some _ => true | None => false end) in
  for_each entries (fun e =>
    let proof_col := match verified with
                     | None => []
                     | Some v => proof_text (default false (v !! Client.seq e))
                     end in
    println (entry_row e proof_col)).

(** ** Helpers *)

Definition to32 (x : bytes) : outcome hash32 := unwrap (array_try_from 32 x).
Fixpoint proof32 (p : list bytes) : outcome (list hash32) :=
  match p with
  | [] => Prelude.Ret []
  | x :: p => let! h := to32 x in let! l := proof32 p in Prelude.Ret (h :: l)
  end.

Definition secs (n : Z) : Z := n * 1000000000.
Definition millis (n : Z) : Z := n * 1000000.

Definition wait_for_sth (min_size : Z) : itree demoE (result Client.SignedTreeHead DemoError) :=
  let* start := trigger Now in
  let deadline := start + secs 10 in
  ITree.iter (fun _ : unit =>
    let* r := trigger (GetSth 0) in
    let rest : itree demoE (unit + result Client.SignedTreeHead DemoError) :=
      let* now := trigger Now in
      if deadline <? now
      then Ret (inr (Err (DMsg (txt "no STH covering " ++ dec min_size ++ txt " entries within 10s"))))
      else do* trigger (Sleep (millis 200)) in Ret (inl tt) in
    match r with
    | Ok sth => if min_size <=? Client.tree_size sth then Ret (inr (Ok sth)) else rest
    | Err _ => rest
    end) tt.

Definition check_sth (min_size : Z) : itree demoE (result Client.SignedTreeHead DemoError) :=
  try* sth := wait_for_sth min_size in
  do* print (txt "Verifying STH signature … ") in
  let* root := evaluate (to32 (Client.root_hash sth)) in
  let ok := SdkVerifier.verify_tree_head (Client.tree_size sth) root (Client.timestamp_ns sth)
              (Client.signature sth) (Client.public_key sth) in
  do* (if ok then println (txt "OK")
       else
         do* println (txt "FAIL") in
         println (txt "  Warning: STH signature invalid — results below may not be trustworthy.")) in
  Ret (Ok sth).

(** The arguments of [verify_inclusion] are evaluated in order. *)
Definition check_proof (e : Client.Entry) (p : Client.InclusionProofResult) (sth : Client.SignedTreeHead)
  : itree demoE bool :=
  let* leaf := evaluate (to32 (Client.leaf_hash e)) in
  let* proof := evaluate (proof32 (Client.proof p)) in
  let* root := evaluate (to32 (Client.root_hash sth)) in
  evaluate (SdkVerifier.verify_inclusion leaf (Client.leaf_index p) (Client.ip_tree_size p) proof root).

Definition noun {A} (l : list A) : bytes := if len l =? 1 then txt "entry" else txt "entries".

Fixpoint inclusions (entries : list Client.Entry) (sth : Client.SignedTreeHead) (results : gmap Z bool)
  : itree demoE (result (gmap Z bool) DemoError) :=
  match entries with
  | [] => Ret (Ok results)
  | e :: entries =>
      try* p := request (InclusionProof (Client.seq e) (Client.tree_size sth)) in
      let* ok := check_proof e p sth in
      inclusions entries sth (<[Client.seq e := ok]> results)
  end.

Definition check_inclusions (entries : list Client.Entry) (sth : Client.SignedTreeHead)
  : itree demoE (result (gmap Z bool) DemoError) :=
  do* print (txt "Verifying inclusion proof for " ++ dec (len entries) ++ txt " " ++ noun entries ++ txt " … ") in
  try* results := inclusions entries sth ∅ in
  let failed := Z.of_nat (size (filter (fun kv => kv.2 = false) results)) in
  do* (if failed =? 0 then println (txt "all OK") else println (dec failed ++ txt " FAILED")) in
  Ret (Ok results).

Definition check_consistency (old_sth new_sth : Client.SignedTreeHead) : itree demoE (result unit DemoError) :=
  do* print (txt "Verifying consistency proof  " ++ dec (Client.tree_size old_sth) ++ txt " → " ++
             dec (Client.tree_size new_sth) ++ txt " … ") in
  if Client.tree_size old_sth =? Client.tree_size new_sth
  then do* println (txt "nothing to prove (tree unchanged)") in Ret (Ok tt)
  else
    try* cp := request (ConsistencyProof (Client.tree_size old_sth) (Client.tree_size new_sth)) in
    let* proof := evaluate (proof32 (Client.cp_proof cp)) in
    let* old_root := evaluate (to32 (Client.root_hash old_sth)) in
    let* new_root := evaluate (to32 (Client.root_hash new_sth)) in
    let* ok := evaluate (SdkVerifier.verify_consistency (Client.old_size cp) (Client.new_size cp) proof old_root new_root) in
    do* println (if ok : bool then txt "OK" else txt "FAIL") in
    Ret (Ok tt).

(** ** Modes *)

Definition demo_entries : list (bytes * bytes) := [
  (txt "user:alice", txt "login");
  (txt "order:1001", txt "created");
  (txt "order:1001", txt "payment_received");
  (txt "order:1001", txt "shipped");
  (txt "user:bob", txt "login");
  (txt "order:1002", txt "created")
].

Fixpoint append_entries (l : list (bytes * bytes)) : itree demoE (result unit DemoError) :=
  match l with
  | [] => Ret (Ok tt)
  | (key, data) :: l =>
      try* res := request (Append key data) in
      do* println (txt "  appended seq=" ++ dec (Client.ar_seq res) ++ txt "  key=" ++ key ++
                   txt "  data=" ++ data) in
      append_entries l
  end.

(** A paging loop: [page] asks for the page at a cursor, which comes with the next one. *)
Definition page_loop (page : Z -> itree demoE (result (list Client.Entry * Z) DemoError))
  : itree demoE (result (list Client.Entry) DemoError) :=
  ITree.iter (fun '(entries, cursor) =>
    let* r := page cursor in
    match r with
    | Err e => Ret (inr (Err e))
    | Ok (news, next_cursor) =>
        let entries := entries ++ news in
        if next_cursor =? 0 then Ret (inr (Ok entries)) else Ret (inl (entries, next_cursor))
    end) ([], 0).

Definition mode_default (do_verify do_consistency skip_append : bool) : itree demoE (result unit DemoError) :=
  let* old_sth := (if do_consistency
                   then let* r := trigger (GetSth 0) in
                        Ret (match r with Ok sth => Some sth | Err _ => None end)
                   else Ret None) in
  try* _ := (if skip_append then Ret (Ok tt)
             else
               do* println (txt "Appending demo entries …") in
               try* _ := append_entries demo_entries in
               do* println [] in Ret (Ok tt)) in
  let* waited := wait_for_sth 1 in
  match waited with
  | Err _ => do* println (txt "Log is empty.") in Ret (Ok tt)
  | Ok sth =>
      do* println (txt "Fetching audit trail …" ++ newline) in
      try* entries := page_loop (fun cursor =>
        try* page := request (ListEntries 0 (Client.tree_size sth) cursor 0) in
        Ret (Ok (Client.le_entries page, Client.le_next_cursor page))) in
      try* verified := (if do_verify
        then
          try* sth := check_sth (Client.tree_size sth) in
          try* v := check_inclusions entries sth in
          try* _ := (if do_consistency
                     then match old_sth with
                          | Some old => check_consistency old sth
                          | None => Ret (Ok tt)
                          end
                     else Ret (Ok tt)) in
          do* println [] in
          Ret (Ok (Some v))
        else Ret (Ok None)) in
      do* print_table entries verified in
      do* println (newline ++ dec (len entries) ++ txt " " ++ noun entries ++ txt " in log.") in
      Ret (Ok tt)
  end.

Definition mode_get (seq : Z) (do_verify : bool) : itree demoE (result unit DemoError) :=
  try* e := request (Get seq) in
  try* proof_col := (if do_verify
    then
      let* next := evaluate (u64_add seq 1) in
      try* sth := check_sth next in
      try* p := request (InclusionProof seq (Client.tree_size sth)) in
      let* ok := check_proof e p sth in
      do* println [] in
      Ret (Ok (proof_text ok))
    else Ret (Ok [])) in
  do* print_header do_verify in
  do* println (entry_row e proof_col) in
  Ret (Ok tt).

(** The entries from [seq] up to the size of a head; one that cannot be fetched is passed over. *)
Definition watch_entries (do_verify : bool) (sth : Client.SignedTreeHead) : Z -> itree demoE Z :=
  ITree.iter (fun seq =>
    if seq <? Client.tree_size sth
    then
      let* r := trigger (Get seq) in
      do* (match r with
           | Err _ => Ret tt
           | Ok e =>
               let* proof_col := (if do_verify
                 then
                   let* p := trigger (InclusionProof seq (Client.tree_size sth)) in
                   match p with
                   | Ok p => let* ok := check_proof e p sth in Ret (proof_text ok)
                   | Err _ => Ret []
                   end
                 else Ret []) in
               println (entry_row e proof_col)
           end) in
      let* seq := evaluate (u64_add seq 1) in
      Ret (inl seq)
    else Ret (inr seq)).

Definition mode_watch (do_verify : bool) (interval_secs : f64) : itree demoE (result unit DemoError) :=
  do* println (txt "Watching for new entries (polling every " ++ fmt_f64_0 interval_secs ++
               txt "s) … Ctrl-C to stop." ++ newline) in
  let* waited := wait_for_sth 1 in
  let seq := match waited with Ok s => Client.tree_size s | Err _ => 0 end in
  do* print_header do_verify in
  let* interval := evaluate (from_secs_f64 interval_secs) in
  ITree.iter (fun seq =>
    let* ctrl_c := trigger (SelectCtrlC interval) in
    if ctrl_c : bool
    then do* println (newline ++ txt "Stopped.") in Ret (inr (Ok tt))
    else
      let* r := wait_for_sth 1 in
      match r with
      | Ok sth => let* seq := watch_entries do_verify sth seq in Ret (inl seq)
      | Err _ => Ret (inl seq)
      end) seq.

Definition mode_append (key data : bytes) : itree demoE (result unit DemoError) :=
  try* res := request (Append key data) in
  do* println (txt "appended  seq=" ++ dec (Client.ar_seq res) ++ txt "  key=" ++ key ++ txt "  data=" ++
               data ++ txt "  leaf_hash=" ++ fmt_hash (Client.ar_leaf_hash res)) in
  Ret (Ok tt).

Definition mode_get_by_key (key : bytes) : itree demoE (result unit DemoError) :=
  try* all_entries := page_loop (fun cursor =>
    try* result := request (GetByKey key cursor 0) in
    Ret (Ok (Client.bk_entries result, Client.bk_next_cursor result))) in
  do* println (dec (len all_entries) ++ txt " " ++ noun all_entries ++ txt " for key " ++ [Init.Byte.x22] ++
               key ++ [Init.Byte.x22] ++ txt ":" ++ newline) in
  do* print_header false in
  do* for_each all_entries (fun e => println (entry_row e [])) in
  Ret (Ok tt).
End Program.

(** ** Entry point *)

(** The arguments as [clap] parses them. *)
Record Args := mkArgs {
  host : bytes;
  skip_append : bool;
  verify : bool;
  consistency : bool;
  get : option Z;
  watch : bool;
  interval : f64;
  append : option (list bytes);
  key : option bytes
}.

(** [Display] of the errors of [tonic]. *)
Class TonicDisplay := {
  transport_display : bytes;
  status_display : Status -> bytes
}.

Section Main.
Context `{Hex} `{Sha256} `{Ed25519} `{Profile} `{TonicDisplay}.

(** [Display] of [ClientError] ([#\[error(..)\]] attributes of sdks/rust/src/client.rs). *)
Definition client_error_display (e : Client.ClientError) : bytes :=
  match e with
  | Client.InvalidAddress addr => txt "invalid address: " ++ as_bytes addr
  | Client.Transport => txt "transport error: " ++ transport_display
  | Client.Rpc s => txt "rpc error: " ++ status_display s
  end.
Definition demo_error_display (e : DemoError) : bytes :=
  match e with DClient e => client_error_display e | DMsg msg => msg end.

Definition fail_with (msg : bytes) : itree demoE unit :=
  do* trigger (Eprint (txt "error: " ++ msg ++ newline)) in halt (Exit 1).

Definition main (args : Args) : itree demoE unit :=
  do* println (txt "Connecting to " ++ host args ++ txt " …" ++ newline) in
  let* c := trigger (Connect (host args)) in
  match c with
  | Err e => fail_with (client_error_display e)
  | Ok _ =>
      let* result := (
        if watch args then mode_watch (verify args) (interval args)
        else match get args with
        | Some seq => mode_get seq (verify args)
        | None =>
        match append args with
        | Some kv =>
            let* k := evaluate (unwrap (kv !! 0%nat)) in
            let* d := evaluate (unwrap (kv !! 1%nat)) in
            mode_append k d
        | None =>
        match key args with
        | Some key => mode_get_by_key key
        | None => mode_default (verify args) (consistency args) (skip_append args)
        end end end) in
      match result with
      | Err e => fail_with (demo_error_display e)
      | Ok _ => Ret tt
      end
  end.
End Main.
