(* ===== verification/DemoRun.v ===== *)
(** * Running the demo

    The events of the demo program interpreted over an environment: what the server answers, what the
    clock shows and when Ctrl-C comes are a function of a state of any type; the terminal
    is kept beside it.  [runs] says that a tree ends with a value; it has one rule per construct, so that a proof
    follows the program.  The first theorem is about any server at all. *)

From Stdlib Require String.
From stdpp Require Import gmap pretty.
From S2P Require Import SdkVerifier.
From S2P Require Import Prelude Bytes Hash Sth StorageTypes ServerState Utf8 Admin Client DemoFormat Demo.
From ITree Require Import ITree ITreeFacts Events.State Events.StateFacts.
Import String.StringSyntax.

(** ** Environments *)

Record Env (W : Type) := mkEnv {
  env_rpc : forall A, rpcE A -> W -> W * A;
  env_now : W -> W * Z;
  env_sleep : Z -> W -> W;
  env_select : Z -> W -> W * bool
}.
Arguments env_rpc {W} _ {A} _ _.
Arguments env_now {W} _ _.
Arguments env_sleep {W} _ _ _.
Arguments env_select {W} _ _ _.

(** The state of an environment and what has been printed. *)
Record world (W : Type) := mkWorld { state : W; stdout : bytes; stderr : bytes }.
Arguments mkWorld {W} _ _ _.
Arguments state {W} _.
Arguments stdout {W} _.
Arguments stderr {W} _.

Section Runs.
Context {W : Type} (E : Env W).

Definition to_state (w : world W) (x : W) : world W := mkWorld x (stdout w) (stderr w).
Definition printed (w : world W) (s : bytes) : world W := mkWorld (state w) (stdout w ++ s) (stderr w).
Definition eprinted (w : world W) (s : bytes) : world W := mkWorld (state w) (stdout w) (stderr w ++ s).

Definition handle_os {A} (e : osE A) (w : world W) : world W * A :=
  match e in osE A return world W * A with
  | Now => let '(x, t) := env_now E (state w) in (to_state w x, t)
  | Sleep ns => (to_state w (env_sleep E ns (state w)), tt)
  | SelectCtrlC ns => let '(x, c) := env_select E ns (state w) in (to_state w x, c)
  | Print s => (printed w s, tt)
  | Eprint s => (eprinted w s, tt)
  end.

Definition handle : demoE ~> Monads.stateT (world W) (itree haltE) := fun A e w =>
  match e with
  | inl1 e => let '(x, a) := env_rpc E e (state w) in Ret (to_state w x, a)
  | inr1 (inl1 e) => Ret (handle_os e w)
  | inr1 (inr1 e) => ITree.bind (ITree.trigger e) (fun a => Ret (w, a))
  end.

Definition run {A} (t : itree demoE A) (w : world W) : itree haltE (world W * A) :=
  interp_state handle t w.

(** The tree ends, normally, in the world [w'] with the value [a]. *)
Definition runs {A} (t : itree demoE A) (w w' : world W) (a : A) : Prop := eutt eq (run t w) (Ret (w', a)).

(** ** Rules *)

Lemma runs_ret {A} (a : A) w : runs (Ret a) w w a.
Proof. unfold runs, run. by rewrite interp_state_ret. Qed.

Lemma runs_bind {A B} (t : itree demoE A) (k : A -> itree demoE B) w w1 w2 a r :
  runs t w w1 a -> runs (k a) w1 w2 r -> runs (ITree.bind t k) w w2 r.
Proof.
  unfold runs, run. intros Ht Hk. rewrite interp_state_bind, Ht, bind_ret_l. exact Hk.
Qed.

Lemma runs_to {A} (t : itree demoE A) w w1 w2 a : runs t w w1 a -> w1 = w2 -> runs t w w2 a.
Proof. by intros Ht <-. Qed.

Lemma runs_try {A B} (t : itree demoE (result A DemoError)) (k : A -> itree demoE (result B DemoError))
    w w1 w2 a r :
  runs t w w1 (Ok a) -> runs (k a) w1 w2 r -> runs (try_bind t k) w w2 r.
Proof. intros Ht Hk. by eapply runs_bind. Qed.

Lemma runs_try_err {A B} (t : itree demoE (result A DemoError)) (k : A -> itree demoE (result B DemoError))
    w w1 e :
  runs t w w1 (Err e) -> runs (try_bind t k) w w1 (Err e).
Proof. intros Ht. eapply runs_bind; [exact Ht|]. apply runs_ret. Qed.

Lemma runs_iter_again {A I} (body : I -> itree demoE (I + A)) i j w w1 w2 r :
  runs (body i) w w1 (inl j) -> runs (ITree.iter body j) w1 w2 r -> runs (ITree.iter body i) w w2 r.
Proof.
  unfold runs, run. intros Hb Hi. rewrite unfold_iter, interp_state_bind, Hb, bind_ret_l.
  cbn. rewrite interp_state_tau, tau_eutt. exact Hi.
Qed.

Lemma runs_iter_done {A I} (body : I -> itree demoE (I + A)) i w w1 r :
  runs (body i) w w1 (inr r) -> runs (ITree.iter body i) w w1 r.
Proof.
  unfold runs, run. intros Hb. rewrite unfold_iter, interp_state_bind, Hb, bind_ret_l.
  cbn. by rewrite interp_state_ret.
Qed.

Lemma runs_rpc {A} (e : rpcE A) w x a :
  env_rpc E e (state w) = (x, a) -> runs (trigger e) w (to_state w x) a.
Proof.
  unfold runs, run. intros Ee. rewrite interp_state_trigger.
  change (handle A (subevent A e) w) with
    (let '(x, a) := env_rpc E e (state w) in Ret (to_state w x, a) : itree haltE (world W * A)).
  by rewrite Ee.
Qed.

Lemma runs_os {A} (e : osE A) w w' a : handle_os e w = (w', a) -> runs (trigger e) w w' a.
Proof.
  unfold runs, run. intros Ee. rewrite interp_state_trigger.
  change (handle A (subevent A e) w) with (Ret (handle_os e w) : itree haltE (world W * A)). by rewrite Ee.
Qed.

Lemma runs_call {A} (e : rpcE (result A Client.ClientError)) w x r :
  env_rpc E e (state w) = (x, r) -> runs (request e) w (to_state w x) (map_err DClient r).
Proof. intros Ee. eapply runs_bind; [by apply runs_rpc|]. apply runs_ret. Qed.

Lemma runs_evaluate {A} (o : outcome A) a w : o = Prelude.Ret a -> runs (evaluate o) w w a.
Proof. intros ->. apply runs_ret. Qed.

Lemma runs_print s w : runs (print s) w (printed w s) tt.
Proof. by apply runs_os. Qed.

Lemma printed_app w s t : printed (printed w s) t = printed w (s ++ t).
Proof. unfold printed. cbn. by rewrite <- app_assoc. Qed.
Lemma printed_nil (w : world W) : printed w [] = w.
Proof. unfold printed. rewrite app_nil_r. by destruct w. Qed.

Lemma runs_for_each {A} (l : list A) (text : A -> bytes) w :
  runs (for_each l (fun x => println (text x))) w (printed w (concat ((fun x => text x ++ newline) <$> l))) tt.
Proof.
  revert w. induction l as [|x l IH]; intros w.
  { cbn. rewrite printed_nil. apply runs_ret. }
  cbn [for_each]. eapply runs_bind; [apply runs_print|].
  eapply runs_to; [apply IH|]. by rewrite printed_app.
Qed.

(** ** Waiting for a head *)

(** [clk] reads a monotonic clock: it never goes back, and a sleep takes as long as it should. *)
Record clock_law (clk : W -> Z) : Prop := {
  clk_now : forall x x' t, env_now E x = (x', t) -> t = clk x /\ clk x <= clk x';
  clk_rpc : forall A (e : rpcE A) x x' a, env_rpc E e x = (x', a) -> clk x <= clk x';
  clk_sleep : forall ns x, 0 <= ns -> clk x + ns <= clk (env_sleep E ns x)
}.

Definition no_head (min_size : Z) : DemoError :=
  DMsg (txt "no STH covering " ++ dec min_size ++ txt " entries within 10s").

(** What [wait_for_sth] has when it ends. *)
Definition waited (clk : W -> Z) (min_size deadline : Z) (w : world W)
    (r : result Client.SignedTreeHead DemoError) : Prop :=
  match r with
  | Ok sth => min_size <= Client.tree_size sth /\ exists x, (env_rpc E (GetSth 0) x).2 = Ok sth
  | Err e => e = no_head min_size /\ deadline < clk (state w)
  end.

Definition wait_body (min_size deadline : Z) (_ : unit)
  : itree demoE (unit + result Client.SignedTreeHead DemoError) :=
  let* r := trigger (GetSth 0) in
  let rest : itree demoE (unit + result Client.SignedTreeHead DemoError) :=
    let* now := trigger Now in
    if deadline <? now then Ret (inr (Err (no_head min_size)))
    else do* trigger (Sleep (millis 200)) in Ret (inl tt) in
  match r with
  | Ok sth => if min_size <=? Client.tree_size sth then Ret (inr (Ok sth)) else rest
  | Err _ => rest
  end.

(** One round: it ends the wait, or leaves less of it. *)
Lemma wait_round clk min_size deadline w :
  clock_law clk -> exists w' r, runs (wait_body min_size deadline tt) w w' r /\
    stdout w' = stdout w /\ stderr w' = stderr w /\
    match r with
    | inr r => waited clk min_size deadline w' r
    | inl _ => clk (state w) <= deadline /\ clk (state w) + millis 200 <= clk (state w')
    end.
Proof.
  intros Hc. destruct (env_rpc E (GetSth 0) (state w)) as [x1 r] eqn:E1.
  destruct (env_now E x1) as [x2 t] eqn:E2.
  destruct (clk_now clk Hc _ _ _ E2) as [-> H2]. pose proof (clk_rpc clk Hc _ _ _ _ _ E1) as H1.
  assert (Hrest : exists w' r, runs
    (let* now := trigger Now in
     if deadline <? now then Ret (inr (Err (no_head min_size)))
     else do* trigger (Sleep (millis 200)) in Ret (inl tt)) (to_state w x1) w' r /\
    stdout w' = stdout w /\ stderr w' = stderr w /\
    match r with
    | inr r => waited clk min_size deadline w' r
    | inl _ => clk (state w) <= deadline /\ clk (state w) + millis 200 <= clk (state w')
    end).
  { destruct (Z.ltb_spec deadline (clk x1)) as [Hd|Hd].
    - exists (to_state w x2), (inr (Err (no_head min_size))). split; [|cbn; do 3 (split; [done|]); lia].
      eapply runs_bind; [apply (runs_os Now _ (to_state w x2) (clk x1)); cbn; by rewrite E2|].
      rewrite (proj2 (Z.ltb_lt _ _)) by done. apply runs_ret.
    - exists (to_state w (env_sleep E (millis 200) x2)), (inl tt).
      split; [|cbn; do 2 (split; [done|]); pose proof (clk_sleep clk Hc (millis 200) x2 ltac:(done)); lia].
      eapply runs_bind; [apply (runs_os Now _ (to_state w x2) (clk x1)); cbn; by rewrite E2|].
      rewrite (proj2 (Z.ltb_ge _ _)) by done.
      eapply runs_bind; [by apply (runs_os (Sleep (millis 200)))|]. apply runs_ret. }
  unfold wait_body. destruct r as [sth|e].
  - destruct (Z.leb_spec min_size (Client.tree_size sth)) as [Hm|Hm].
    + exists (to_state w x1), (inr (Ok sth)). split; [|cbn; do 2 (split; [done|]); split; [done|]; exists (state w); by rewrite E1].
      eapply runs_bind; [by apply runs_rpc|]. cbn. rewrite (proj2 (Z.leb_le _ _)) by done. apply runs_ret.
    + destruct Hrest as (w' & r & Hr & Hpost). exists w', r. split; [|done].
      eapply runs_bind; [by apply runs_rpc|]. cbn. rewrite (proj2 (Z.leb_gt _ _)) by done. exact Hr.
  - destruct Hrest as (w' & r & Hr & Hpost). exists w', r. split; [|done].
    eapply runs_bind; [by apply runs_rpc|]. exact Hr.
Qed.

Lemma wait_loop clk min_size deadline n : clock_law clk -> forall w,
  deadline < clk (state w) + Z.of_nat n * millis 200 ->
  exists w' r, runs (ITree.iter (wait_body min_size deadline) tt) w w' r /\
    stdout w' = stdout w /\ stderr w' = stderr w /\ waited clk min_size deadline w' r.
Proof.
  intros Hc. induction n as [|n IH]; intros w Hn;
    destruct (wait_round clk min_size deadline w Hc) as (w1 & r & Hr & Ho & He & Hpost);
    (destruct r as [[]|r]; [|exists w1, r; split; [by apply runs_iter_done|done]]).
  - lia.
  - destruct (IH w1) as (w2 & r2 & Hr2 & Ho2 & He2 & Hw2); [unfold millis in *; lia|].
    exists w2, r2. split; [by eapply runs_iter_again|]. rewrite Ho2, He2. done.
Qed.

(** C26: waiting for a head ends.  Against any server that answers every GetSth call, whatever the answer, [wait_for_sth] returns if the
    clock advances.  (The client sets no timeout, and the deadline is looked at only after an answer: with a
    server that accepts the call and never answers, the loop waits for ever at main.rs line 129.)  It returns
    with a head the server sent that covers the size asked for, or after more than ten
    seconds with the error; it prints nothing. *)
Theorem wait_for_sth_ends (clk : W -> Z) (min_size : Z) (w : world W) (Hc : clock_law clk) :
  exists w' r, runs (wait_for_sth min_size) w w' r /\
    stdout w' = stdout w /\ stderr w' = stderr w /\
    waited clk min_size (clk (state w) + secs 10) w' r.
Proof.
  destruct (env_now E (state w)) as [x t] eqn:En. destruct (clk_now clk Hc _ _ _ En) as [-> Hx].
  destruct (wait_loop clk min_size (clk (state w) + secs 10) 51 Hc (to_state w x)) as (w' & r & Hr & Hp).
  { unfold secs, millis. cbn [to_state state]. lia. }
  exists w', r. split; [|done].
  eapply runs_bind; [apply (runs_os Now _ (to_state w x) (clk (state w))); cbn; by rewrite En|exact Hr].
Qed.
End Runs.

(** ** What the check of a row does not say *)

Section Forgery.
Context {W : Type} (E : Env W) `{Sha256} `{Profile}.

(** The proof column does not tie a row to the log.  The index and the size of the tree come from the server's
    answer, and the leaf hash from the entry it sent: an answer that claims a tree of one leaf, with an empty proof, is accepted
    for any entry whose leaf hash field repeats the root of the head, whatever
    its number, key and data are and whatever the head's size is. *)
Theorem check_proof_forgeable (w : world W) (e : Client.Entry) (sth : Client.SignedTreeHead)
    (root : hash32) (Hroot : Client.root_hash sth = to_vec root)
    (Hleaf : Client.leaf_hash e = Client.root_hash sth) :
  runs E (check_proof e (Client.mkInclusion 0 1 [] sth) sth) w w true.
Proof.
  unfold check_proof. rewrite Hleaf, Hroot. unfold to32. rewrite array_try_from_to_vec.
  eapply runs_bind; [by apply runs_evaluate|]. eapply runs_bind; [by apply runs_evaluate|].
  eapply runs_bind; [by apply runs_evaluate|]. apply runs_evaluate. cbn.
  unfold SdkVerifier.verify_inclusion. cbn. by rewrite bool_decide_eq_true_2.
Qed.
End Forgery.
