(* ===== verification/DemoTheorems.v ===== *)
(** * The demo against an honest server

    A [site] is a running server of the model with a clock, and the states it will have
    when the demo looks again; its answers are those of the client's methods over
    [serve].  Against a server that satisfies the invariant the demo prints exactly the
    entries that the latest head covers, each with a proof that verifies. *)

From Stdlib Require String.
From stdpp Require Import gmap pretty.
From S2P Require Import SdkVerifier.
From S2P Require Import Prelude Bytes Hash MerkleSpec Merkle MerkleProof Sth Rocksdb StorageTypes.
From S2P Require Import Db LogStore LogTheorems Table HeadStore KeyStore ServerState Service.
From S2P Require Import ServerInv Concurrent ProofTheorems ServiceTheorems Watch Utf8 Admin Client Paging.
From S2P Require Import DemoFormat Demo DemoRun.
From ITree Require Import ITree.
Import String.StringSyntax.

Section Site.
Context `{Sha256} {R : Rocksdb} {P : Prost} {RL : RocksdbLaws} {PL : ProstLaws}.
Context {D : ErrorDisplay} `{Ed25519} {EL : Ed25519Laws} `{RateLimit} `{Profile} `{Hex}.
Abbreviation size := SignedTreeHead.tree_size.

(** ** The server as an environment *)

Record site := mkSite {
  serving : AppState;
  upcoming : list AppState;   (* at the next polls; then Ctrl-C *)
  clock : Z
}.

(** The state after an append: as before when the call is refused or the handler panics. *)
Definition appended (st : AppState) (now : Z) (key data : bytes) : AppState :=
  match interceptor (api_key (config st)) None with
  | Err _ => st
  | Ok _ => match rpc_append st now now key data with Prelude.Ret (st', _) => st' | _ => st end
  end.

Definition site_rpc (A : Type) (e : rpcE A) (x : site) : site * A :=
  let st := serving x in
  let stub := serve st (clock x) (clock x) in
  match e in rpcE A return site * A with
  | Connect host =>
      (x, match @client_connect stub (String.string_of_list_byte host) with
          | Prelude.Ret (Ok _) => Ok tt
          | Prelude.Ret (Err e) => Err e
          | _ => Err Client.Transport
          end)
  | GetSth n => (x, @client_get_sth stub None n)
  | Append key data =>
      (mkSite (appended st (clock x) key data) (upcoming x) (clock x), @client_append stub None key data)
  | Get seq => (x, @client_get stub None seq)
  | InclusionProof seq n => (x, @client_inclusion_proof stub None seq n)
  | ConsistencyProof m n => (x, @client_consistency_proof stub None m n)
  | ListEntries a b c l => (x, @client_list_entries stub None a b c l)
  | GetByKey key c l => (x, @client_get_by_key stub None key c l)
  end.

Definition site_env : Env site := {|
  env_rpc := site_rpc;
  env_now := fun x => (x, clock x);
  env_sleep := fun ns x => mkSite (serving x) (upcoming x) (clock x + ns);
  env_select := fun ns x =>
    match upcoming x with
    | [] => (x, true)
    | st :: l => (mkSite st l (clock x + ns), false)
    end
|}.

Lemma site_clock : clock_law site_env clock.
Proof.
  split.
  - intros x x' t [= <- <-]. done.
  - intros A e x x' a Ee. destruct e; injection Ee as <- <-; cbn; lia.
  - intros ns x Hns. cbn. lia.
Qed.

(** ** Honest servers *)

(** The server has a gap-free log and signed heads, the last of which is [h], asks for no key,
    and its reads succeed. *)
Record honest (st : AppState) (es : list LogEntry.t) (hs : list SignedTreeHead.t)
    (h : SignedTreeHead.t) : Prop := {
  hon_ok : server_ok st es hs;
  hon_gap : gap_free (inner st) es;
  hon_signed : Forall head_signed hs;
  hon_last : last hs = Some h;
  hon_key : api_key (config st) = None;
  hon_heads : ~ read_error st;
  hon_log : forall s, ~ page_fault st s;
  hon_get : forall n e, rdb_get (db (inner st)) CF_LOG (to_vec (u64_to_be_bytes n)) <> Err e
}.

(** Entries and heads as the client has them. *)
Definition client_entry (e : LogEntry.t) : Client.Entry := from_pb_entry (entry_to_pb e).
Definition client_head (h : SignedTreeHead.t) : Client.SignedTreeHead := from_pb_sth (sth_to_pb h).

(** The entries a head covers. *)
Definition covered (es : list LogEntry.t) (h : SignedTreeHead.t) : list LogEntry.t :=
  take (Z.to_nat (size h)) es.

Lemma head_size st es hs h : honest st es hs h -> 0 < size h <= len es /\ len es < two64.
Proof.
  intros Hon.
  destruct (head_ok_elem _ _ _ _ (hon_ok _ _ _ _ Hon) (last_Some_elem_of _ _ (hon_last _ _ _ _ Hon))) as [? _].
  split; [done|]. by eapply len_es_bound, Hon.
Qed.

(** A call that leaves the site alone. *)
Lemma runs_read {A} (e : rpcE A) (w : world site) a :
  site_rpc A e (state w) = (state w, a) -> runs site_env (trigger e) w w a.
Proof. intros Ee. eapply runs_to; [by apply runs_rpc|]. by destruct w. Qed.
Lemma runs_request {A} (e : rpcE (result A Client.ClientError)) (w : world site) a :
  site_rpc _ e (state w) = (state w, Ok a) -> runs site_env (request e) w w (Ok a).
Proof. intros Ee. eapply runs_bind; [by apply runs_read|]. apply runs_ret. Qed.

Lemma site_sth w es hs h : honest (serving (state w)) es hs h ->
  runs site_env (trigger (GetSth 0)) w w (Ok (client_head h)).
Proof. intros Hon. apply runs_read. cbn. f_equal. by eapply served_sth; apply Hon. Qed.

Lemma runs_wait w es hs h n : honest (serving (state w)) es hs h -> n <= size h ->
  runs site_env (wait_for_sth n) w w (Ok (client_head h)).
Proof.
  intros Hon Hn. eapply runs_bind.
  { apply (runs_os site_env Now w w (clock (state w))). by destruct w. }
  apply runs_iter_done. eapply runs_bind; [by eapply site_sth|]. cbn.
  rewrite (proj2 (Z.leb_le _ _)) by done. apply runs_ret.
Qed.

(** ** Checks *)

Definition sth_line : bytes := txt "Verifying STH signature … OK" ++ newline.

Lemma runs_check_sth w es hs h n : honest (serving (state w)) es hs h -> n <= size h ->
  runs site_env (check_sth n) w (printed w sth_line) (Ok (client_head h)).
Proof.
  intros Hon Hn. eapply runs_try; [by eapply runs_wait|].
  eapply runs_bind; [apply runs_print|]. eapply runs_bind.
  { apply runs_evaluate. unfold to32, client_head. cbn. by rewrite array_try_from_to_vec. }
  pose proof (hon_signed _ _ _ _ Hon) as Hs. rewrite Forall_forall in Hs.
  cbn [client_head from_pb_sth sth_to_pb Client.tree_size Client.timestamp_ns Client.signature Client.public_key
    ProtoSth.tree_size ProtoSth.timestamp_ns ProtoSth.signature ProtoSth.public_key].
  rewrite (signed_sdk h (Hs h (last_Some_elem_of _ _ (hon_last _ _ _ _ Hon)))).
  eapply runs_bind; [apply runs_print|]. eapply runs_to; [apply runs_ret|].
  rewrite printed_app. done.
Qed.

(** An entry of the log that the head covers. *)
Definition in_tree (es : list LogEntry.t) (h : SignedTreeHead.t) (e : LogEntry.t) : Prop :=
  exists i, es !! i = Some e /\ Z.of_nat i < size h.

Lemma proof32_to_vec path : proof32 (to_vec <$> path) = Prelude.Ret path.
Proof.
  induction path as [|x path IH]; [done|]. rewrite fmap_cons. cbn [proof32]. unfold to32 at 1.
  rewrite array_try_from_to_vec. cbn [unwrap obind]. by rewrite IH.
Qed.

Lemma runs_proof w es hs h e : honest (serving (state w)) es hs h -> in_tree es h e ->
  exists p, runs site_env (request (InclusionProof (LogEntry.seq e) (size h))) w w (Ok p) /\
    runs site_env (trigger (InclusionProof (LogEntry.seq e) (size h))) w w (Ok p) /\
    runs site_env (check_proof (client_entry e) p (client_head h)) w w true.
Proof.
  intros Hon (i & Hi & Hlt). pose proof (hon_gap _ _ _ _ Hon) as Hg.
  pose proof (gap_free_lookup _ _ _ _ Hg Hi) as Es.
  destruct (served_inclusion (serving (state w)) (clock (state w)) (clock (state w)) es hs h (LogEntry.seq e))
    as (p & e' & path & Ep & Epath & Eidx & Esz & He & Hv);
    [apply Hon|done|apply Hon|by eapply last_Some_elem_of, Hon|lia|apply Hon|].
  rewrite Es, Nat2Z.id, Hi in He. injection He as <-.
  exists p. split; [apply runs_request; cbn; by rewrite Ep|].
  split; [apply runs_read; cbn; by rewrite Ep|].
  unfold check_proof. rewrite Epath, Eidx, Esz, proof32_to_vec.
  eapply runs_bind; [apply runs_evaluate; unfold to32; cbn; by rewrite array_try_from_to_vec|].
  eapply runs_bind; [by apply runs_evaluate|].
  eapply runs_bind; [apply runs_evaluate; unfold to32; cbn; by rewrite array_try_from_to_vec|].
  apply runs_evaluate. rewrite sdk_inclusion_core, (rep_leaf _ _ _ _ (ok_db _ _ _ (hon_ok _ _ _ _ Hon)) Hi).
  exact Hv.
Qed.

(** The results of checking entries whose proofs all verify. *)
Definition all_true (l : list LogEntry.t) (m : gmap Z bool) : gmap Z bool :=
  foldl (fun m e => <[LogEntry.seq e := true]> m) m l.

Lemma all_true_lookup l : forall m n b, all_true l m !! n = Some b ->
  b = true \/ m !! n = Some b /\ ~ n ∈ LogEntry.seq <$> l.
Proof.
  induction l as [|e l IH]; intros m n b Hb; [right; by split; [|set_solver]|]. cbn in Hb.
  destruct (IH _ _ _ Hb) as [?|[Hm Hn]]; [by left|].
  destruct (decide (n = LogEntry.seq e)) as [->|Hne].
  - rewrite lookup_insert_eq in Hm. left. congruence.
  - rewrite lookup_insert_ne in Hm by done. right. split; [done|]. set_solver.
Qed.

Lemma all_true_some l : forall m n, n ∈ LogEntry.seq <$> l \/ is_Some (m !! n) -> is_Some (all_true l m !! n).
Proof.
  induction l as [|e l IH]; intros m n Hn; [set_solver|]. cbn. apply IH.
  destruct (decide (n = LogEntry.seq e)) as [->|Hne]; [right; by rewrite lookup_insert_eq|].
  rewrite lookup_insert_ne by done. set_solver.
Qed.

Lemma all_true_get l e : e ∈ l -> all_true l ∅ !! LogEntry.seq e = Some true.
Proof.
  intros He. destruct (all_true_some l ∅ (LogEntry.seq e)) as [b Hb]; [left; by apply list_elem_of_fmap_2|].
  rewrite Hb. destruct (all_true_lookup _ _ _ _ Hb) as [->|[Hm _]]; [done|]. by rewrite lookup_empty in Hm.
Qed.

Lemma runs_inclusions w es hs h l m : honest (serving (state w)) es hs h -> Forall (in_tree es h) l ->
  runs site_env (inclusions (client_entry <$> l) (client_head h) m) w w (Ok (all_true l m)).
Proof.
  intros Hon Hl. revert m. induction Hl as [|e l He Hl IH]; intros m; [apply runs_ret|].
  rewrite fmap_cons. cbn [inclusions]. destruct (runs_proof w es hs h e Hon He) as (p & Hp & _ & Hc).
  eapply runs_try; [exact Hp|]. eapply runs_bind; [exact Hc|]. apply IH.
Qed.

Definition inclusion_line (n : Z) : bytes :=
  txt "Verifying inclusion proof for " ++ dec n ++ txt " " ++ (if n =? 1 then txt "entry" else txt "entries") ++
  txt " … all OK" ++ newline.

Lemma runs_check_inclusions w es hs h l : honest (serving (state w)) es hs h -> Forall (in_tree es h) l ->
  runs site_env (check_inclusions (client_entry <$> l) (client_head h)) w
    (printed w (inclusion_line (len l))) (Ok (all_true l ∅)).
Proof.
  intros Hon Hl. eapply runs_bind; [apply runs_print|].
  eapply runs_try; [by eapply runs_inclusions|].
  assert (Hf : filter (fun kv : Z * bool => kv.2 = false) (all_true l ∅) = ∅).
  { apply map_empty. intros n. apply map_lookup_filter_None. right. intros b Hb. cbn. intros ->.
    destruct (all_true_lookup _ _ _ _ Hb) as [?|[Hm _]]; [done|]. by rewrite lookup_empty in Hm. }
  rewrite Hf, map_size_empty. cbn [Z.of_nat Z.eqb]. eapply runs_bind; [apply runs_print|].
  eapply runs_to; [apply runs_ret|]. rewrite printed_app. f_equal. unfold inclusion_line, noun.
  rewrite len_fmap, <- !app_assoc. done.
Qed.

(** ** The table *)

Definition header_text (show_proof : bool) : bytes :=
  table_header show_proof ++ newline ++
  replicate (length (table_header show_proof)) Init.Byte.x2d ++ newline.
Definition rows (col : bytes) (l : list LogEntry.t) : bytes :=
  concat ((fun e => entry_row (client_entry e) col ++ newline) <$> l).

Lemma runs_header (w : world site) b : runs site_env (print_header b) w (printed w (header_text b)) tt.
Proof.
  eapply runs_bind; [apply runs_print|]. eapply runs_to; [apply runs_print|].
  rewrite printed_app. unfold header_text. by rewrite <- ?app_assoc.
Qed.

Lemma runs_table (w : world site) l :
  runs site_env (print_table (client_entry <$> l) (Some (all_true l ∅))) w
    (printed w (header_text true ++ rows (txt "  OK") l)) tt.
Proof.
  eapply runs_bind; [apply runs_header|]. eapply runs_to; [apply runs_for_each|].
  rewrite printed_app. do 2 f_equal. unfold rows. f_equal. rewrite <- list_fmap_compose.
  apply list_fmap_ext. intros i e He. unfold compose. cbn.
  by rewrite all_true_get by by eapply list_elem_of_lookup_2.
Qed.

Lemma runs_plain_table (w : world site) l :
  runs site_env (print_table (client_entry <$> l) None) w (printed w (header_text false ++ rows [] l)) tt.
Proof.
  eapply runs_bind; [apply runs_header|]. eapply runs_to; [apply runs_for_each|].
  rewrite printed_app. do 2 f_equal. unfold rows. f_equal. by rewrite <- list_fmap_compose.
Qed.

(** ** Paging *)

(** Following the cursors collects what is left at the first. *)
Lemma runs_pages (w : world site) page rpc left_at failed :
  pages rpc left_at in_u64 failed -> (forall s, ~ failed s) ->
  (forall c l n, rpc c = Prelude.Ret (Ok (l, n)) ->
     runs site_env (page c) w w (Ok (from_pb_entry <$> l, n))) ->
  runs site_env (page_loop page) w w (Ok (client_entry <$> left_at 0)).
Proof.
  intros Hp Hf Hpage. unfold page_loop. set (body := fun _ => _).
  enough (G : forall k acc c, (length (left_at c) <= k)%nat -> in_u64 c ->
    runs site_env (ITree.iter body (acc, c)) w w (Ok (acc ++ (client_entry <$> left_at c)))).
  { by apply (G (length (left_at 0)) [] 0). }
  induction k as [|k IH]; intros acc c Hk Hc;
    destruct (Hp c Hc) as (r & Er & Hr); (destruct r as [[l n]|s]; [|by destruct (Hf s)]);
    destruct Hr as (now & rest & El & -> & Hn); pose proof (Hpage c _ _ Er) as Hrun;
    rewrite <- list_fmap_compose in Hrun; fold client_entry in Hrun; rewrite El in Hk |- *;
    rewrite length_app in Hk; destruct (Z.eqb_spec n 0) as [->|Hne].
  1,3: subst rest; rewrite app_nil_r; apply runs_iter_done; eapply runs_bind; [exact Hrun|]; cbn; apply runs_ret.
  - destruct Hn as (_ & _ & Hnow). destruct now; [done|]. cbn in Hk. lia.
  - destruct Hn as (Hok & Eln & Hnow). eapply runs_iter_again.
    { eapply runs_bind; [exact Hrun|]. cbn. rewrite (proj2 (Z.eqb_neq _ _)) by done. apply runs_ret. }
    rewrite fmap_app, app_assoc, <- Eln. apply IH; [|done]. rewrite Eln. destruct now; [done|]. cbn in Hk. lia.
Qed.

(** The pages of the log up to a head. *)
Lemma covered_filter s es h :
  gap_free s es -> 0 < size h -> filter (in_page 0 (size h)) es = covered es h.
Proof.
  intros Hg Hs. unfold covered. rewrite <- (take_drop (Z.to_nat (size h)) es) at 1. rewrite filter_app.
  rewrite filter_all, filter_none, app_nil_r; [done| |].
  - apply Forall_forall. intros e [i Hi]%list_elem_of_lookup. rewrite lookup_drop in Hi.
    pose proof (gap_free_lookup _ _ _ _ Hg Hi). unfold in_page. lia.
  - apply Forall_forall. intros e [i Hi]%list_elem_of_lookup.
    apply lookup_take_Some in Hi as [Hi Hlt].
    pose proof (gap_free_lookup _ _ _ _ Hg Hi). unfold in_page. lia.
Qed.

Lemma covered_in_tree es h : Forall (in_tree es h) (covered es h).
Proof.
  apply Forall_forall. intros e [i Hi]%list_elem_of_lookup.
  apply lookup_take_Some in Hi as [Hi Hlt]. exists i. split; [done|]. lia.
Qed.

Lemma runs_list w es hs h : honest (serving (state w)) es hs h ->
  runs site_env (page_loop (fun cursor =>
    try* page := request (ListEntries 0 (Client.tree_size (client_head h)) cursor 0) in
    Ret (Ok (Client.le_entries page, Client.le_next_cursor page)))) w w
    (Ok (client_entry <$> covered es h)).
Proof.
  intros Hon. pose proof (head_size _ _ _ _ Hon) as [Hs _].
  rewrite <- (covered_filter _ _ _ (hon_gap _ _ _ _ Hon)) by lia.
  change (filter (in_page 0 (size h)) es) with
    ((fun c => filter (in_page (list_start 0 c) (size h)) es) 0).
  apply (runs_pages w _ (fun c => rpc_list_entries (serving (state w)) 0 (size h) c 0)
    (fun c => filter (in_page (list_start 0 c) (size h)) es) (page_fault (serving (state w)))).
  - apply list_pages; [apply Hon|done|lia|done].
  - apply Hon.
  - intros c l n E. apply (runs_try site_env _ _ _ w w (Client.mkList (from_pb_entry <$> l) n));
      [|apply runs_ret]. apply runs_request. cbn. f_equal.
    unfold client_list_entries. cbn [stub_list_entries serve]. cbn. rewrite E.
    by rewrite guarded_ok by apply Hon.
Qed.

Lemma runs_keyed w es hs h key : honest (serving (state w)) es hs h -> key <> [] ->
  runs site_env (page_loop (fun cursor =>
    try* result := request (GetByKey key cursor 0) in
    Ret (Ok (Client.bk_entries result, Client.bk_next_cursor result)))) w w
    (Ok (client_entry <$> with_key key es 0)).
Proof.
  intros Hon Hk. apply (runs_pages w _ (fun c => rpc_get_by_key (serving (state w)) key c 0)
    (with_key key es) (page_fault (serving (state w)))).
  - apply key_pages; [apply Hon|done|done].
  - apply Hon.
  - intros c l n E. apply (runs_try site_env _ _ _ w w (Client.mkByKey (from_pb_entry <$> l) n));
      [|apply runs_ret]. apply runs_request. cbn. f_equal.
    unfold client_get_by_key. cbn [stub_get_by_key serve]. rewrite E. by rewrite guarded_ok by apply Hon.
Qed.

(** All entries with a key. *)
Lemma with_key_all s es key : gap_free s es -> with_key key es 0 = filter (fun e => LogEntry.key e = key) es.
Proof.
  intros Hg. unfold with_key. rewrite <- (filter_all (fun e => 0 <= LogEntry.seq e) es) at 2.
  - rewrite list_filter_filter. by apply list_filter_iff.
  - apply Forall_forall. intros e [i Hi]%list_elem_of_lookup.
    pose proof (gap_free_lookup _ _ _ _ Hg Hi). lia.
Qed.

(** ** What the demo prints *)

Definition count_text (n : Z) : bytes := dec n ++ txt " " ++ (if n =? 1 then txt "entry" else txt "entries").

(** The lines of the checks that [mode_default] makes. *)
Definition check_lines (consistency : bool) (l : list LogEntry.t) (h : SignedTreeHead.t) : bytes :=
  sth_line ++ inclusion_line (len l) ++
  (if consistency
   then txt "Verifying consistency proof  " ++ dec (size h) ++ txt " → " ++ dec (size h) ++
        txt " … nothing to prove (tree unchanged)" ++ newline
   else []) ++ newline.

Definition default_text (verify consistency : bool) (l : list LogEntry.t) (h : SignedTreeHead.t) : bytes :=
  txt "Fetching audit trail …" ++ newline ++ newline ++
  (if verify then check_lines consistency l h ++ header_text true ++ rows (txt "  OK") l
   else header_text false ++ rows [] l) ++
  newline ++ count_text (len l) ++ txt " in log." ++ newline.

Lemma runs_default_checks w es hs h (b : bool) (old : option Client.SignedTreeHead) :
  honest (serving (state w)) es hs h -> (b = true -> old = Some (client_head h)) ->
  runs site_env
    (try* sth := check_sth (Client.tree_size (client_head h)) in
     try* v := check_inclusions (client_entry <$> covered es h) sth in
     try* _ := (if b
                then match old with
                     | Some old => check_consistency old sth
                     | None => Ret (Ok tt)
                     end
                else Ret (Ok tt)) in
     do* println [] in
     Ret (Ok (Some v))) w (printed w (check_lines b (covered es h) h))
    (Ok (Some (all_true (covered es h) ∅))).
Proof.
  intros Hon Hold. eapply runs_try; [by eapply (runs_check_sth w es hs h)|].
  eapply runs_try; [exact (runs_check_inclusions (printed w sth_line) es hs h _ Hon (covered_in_tree es h))|].
  destruct b.
  - rewrite Hold by done. eapply runs_try.
    + eapply runs_bind; [apply runs_print|]. rewrite Z.eqb_refl.
      eapply runs_bind; [apply runs_print|]. apply runs_ret.
    + eapply runs_bind; [apply runs_print|]. eapply runs_to; [apply runs_ret|].
      rewrite !printed_app. unfold check_lines. by rewrite <- ?app_assoc.
  - eapply runs_try; [apply runs_ret|]. eapply runs_bind; [apply runs_print|].
    eapply runs_to; [apply runs_ret|]. rewrite !printed_app. unfold check_lines. by rewrite <- ?app_assoc.
Qed.

(** C24: the demo shows and verifies the log of an honest server.  With [--skip-append], against an honest server whose state does not
    change during the run, [mode_default]
    ends; it prints, in order and once each, exactly the entries the latest head covers,
    and with [--verify] it reports a valid signature, all inclusion proofs
    valid, and OK on every row; with [--consistency] too it reports that there is nothing to prove, since the head
    has not changed.  (The run that first appends its own entries is not covered: a rate limiter may refuse it.) *)
Theorem demo_default_honest (w : world site) (es : list LogEntry.t) (hs : list SignedTreeHead.t)
    (h : SignedTreeHead.t) (verify consistency : bool) (Hon : honest (serving (state w)) es hs h) :
  runs site_env (mode_default verify consistency true) w
    (printed w (default_text verify consistency (covered es h) h)) (Ok tt).
Proof.
  pose proof (head_size _ _ _ _ Hon) as [Hs _].
  eapply (runs_bind _ _ _ w w _ (if consistency then Some (client_head h) else None)).
  { destruct consistency; [|apply runs_ret].
    eapply runs_bind; [by eapply site_sth|]. apply runs_ret. }
  eapply runs_try; [apply runs_ret|]. eapply runs_bind; [eapply runs_wait; [exact Hon|lia]|].
  cbn match. eapply runs_bind; [apply runs_print|].
  eapply runs_try; [eapply (runs_list _ es hs h); exact Hon|].
  destruct verify.
  - eapply runs_try.
    { eapply (runs_default_checks _ es hs h consistency); [exact Hon|]. by intros ->. }
    eapply runs_bind; [apply runs_table|]. eapply runs_bind; [apply runs_print|].
    eapply runs_to; [apply runs_ret|]. rewrite !printed_app. unfold default_text, count_text, noun.
    rewrite len_fmap. by rewrite <- ?app_assoc.
  - eapply runs_try; [apply runs_ret|].
    eapply runs_bind; [apply runs_plain_table|]. eapply runs_bind; [apply runs_print|].
    eapply runs_to; [apply runs_ret|]. rewrite !printed_app. unfold default_text, count_text, noun.
    rewrite len_fmap. by rewrite <- ?app_assoc.
Qed.

(** ** Looking up entries *)

Lemma runs_get w es hs h i e : honest (serving (state w)) es hs h -> es !! i = Some e ->
  runs site_env (trigger (Get (Z.of_nat i))) w w (Ok (client_entry e)) /\
  runs site_env (request (Get (Z.of_nat i))) w w (Ok (client_entry e)).
Proof.
  intros Hon Hi.
  assert (E : site_rpc _ (Get (Z.of_nat i)) (state w) = (state w, Ok (client_entry e))).
  { cbn. f_equal. apply (served_entry _ _ _ es hs); [apply Hon|apply Hon| |by rewrite Nat2Z.id| |apply Hon].
    - pose proof (head_size _ _ _ _ Hon) as [_ Hlt]. apply lookup_lt_Some in Hi. unfold in_u64, len in *. lia.
    - intros [x Hx]. by eapply hon_get in Hx. }
  split; [by apply runs_read|by apply runs_request].
Qed.

Definition col (verify : bool) : bytes := if verify then txt "  OK" else [].

(** Looking up entries of an honest server.  [mode_get] prints the entry of a covered number,
    checked against a head that verifies when asked to, and
    [mode_get_by_key] all entries with the key in the order of the log, and their number. *)
Theorem demo_lookup_honest (w : world site) (es : list LogEntry.t) (hs : list SignedTreeHead.t)
    (h : SignedTreeHead.t) (i : nat) (e : LogEntry.t) (verify : bool) (key : bytes)
    (Hon : honest (serving (state w)) es hs h) (Hi : es !! i = Some e) (Hlt : Z.of_nat i < size h)
    (Hk : key <> []) :
  runs site_env (mode_get (Z.of_nat i) verify) w
    (printed w ((if verify then sth_line ++ newline else []) ++ header_text verify ++
                entry_row (client_entry e) (col verify) ++ newline)) (Ok tt) /\
  let found := filter (fun e => LogEntry.key e = key) es in
  runs site_env (mode_get_by_key key) w
    (printed w (count_text (len found) ++ txt " for key " ++ [Init.Byte.x22] ++ key ++ [Init.Byte.x22] ++
                txt ":" ++ newline ++ newline ++ header_text false ++ rows [] found)) (Ok tt).
Proof.
  pose proof (head_size _ _ _ _ Hon) as [Hs Hl]. split.
  - eapply runs_try; [by eapply runs_get|]. destruct verify.
    + pose proof (gap_free_lookup _ _ _ _ (hon_gap _ _ _ _ Hon) Hi) as Es.
      destruct (runs_proof (printed w sth_line) es hs h e Hon) as (p & Hp & _ & Hc); [by exists i|].
      rewrite Es in Hp. eapply runs_try.
      { eapply runs_bind; [apply runs_evaluate, u64_add_in; unfold in_u64; lia|].
        eapply runs_try; [eapply (runs_check_sth w es hs h); [exact Hon|lia]|].
        eapply runs_try; [exact Hp|]. eapply runs_bind; [exact Hc|].
        eapply runs_bind; [apply runs_print|]. apply runs_ret. }
      eapply runs_bind; [apply runs_header|]. eapply runs_bind; [apply runs_print|].
      eapply runs_to; [apply runs_ret|]. rewrite !printed_app. by rewrite <- ?app_assoc.
    + eapply runs_try; [apply runs_ret|]. eapply runs_bind; [apply runs_header|].
      eapply runs_bind; [apply runs_print|]. eapply runs_to; [apply runs_ret|].
      rewrite !printed_app. by rewrite <- ?app_assoc.
  - intros found. eapply runs_try; [by eapply runs_keyed|].
    rewrite (with_key_all _ _ _ (hon_gap _ _ _ _ Hon)). fold found.
    eapply runs_bind; [apply runs_print|]. eapply runs_bind; [apply runs_header|].
    eapply runs_bind; [apply runs_for_each|]. eapply runs_to; [apply runs_ret|].
    rewrite !printed_app. unfold count_text, noun, rows. rewrite len_fmap, <- list_fmap_compose.
    by rewrite <- ?app_assoc.
Qed.

(** ** Watching *)

Lemma rows_app c l l' : rows c (l ++ l') = rows c l ++ rows c l'.
Proof. unfold rows. by rewrite fmap_app, concat_app. Qed.

Lemma runs_watch_row w es hs h verify i e : honest (serving (state w)) es hs h ->
  es !! i = Some e -> Z.of_nat i < size h ->
  runs site_env
    (let* proof_col := (if verify : bool
       then
         let* p := trigger (InclusionProof (Z.of_nat i) (Client.tree_size (client_head h))) in
         match p with
         | Ok p => let* ok := check_proof (client_entry e) p (client_head h) in Ret (proof_text ok)
         | Err _ => Ret []
         end
       else Ret [] : itree demoE bytes) in
     println (entry_row (client_entry e) proof_col)) w
    (printed w (rows (col verify) [e])) tt.
Proof.
  intros Hon Hi Hlt. pose proof (gap_free_lookup _ _ _ _ (hon_gap _ _ _ _ Hon) Hi) as Es.
  eapply (runs_bind _ _ _ w w _ (col verify)).
  { destruct verify; [|apply runs_ret].
    destruct (runs_proof w es hs h e Hon) as (p & _ & Hp & Hc); [by exists i|]. rewrite Es in Hp.
    eapply runs_bind; [exact Hp|]. eapply runs_bind; [exact Hc|]. apply runs_ret. }
  eapply runs_to; [apply runs_print|]. unfold rows. cbn. by rewrite app_nil_r.
Qed.

Lemma runs_watch_entries es hs h verify k : forall w a,
  honest (serving (state w)) es hs h -> size h = Z.of_nat a + Z.of_nat k ->
  runs site_env (watch_entries verify (client_head h) (Z.of_nat a)) w
    (printed w (rows (col verify) (drop a (covered es h)))) (size h).
Proof.
  induction k as [|k IH]; intros w a Hon Ek; unfold watch_entries.
  - apply runs_iter_done. cbn. rewrite (proj2 (Z.ltb_ge _ _)) by lia. eapply runs_to.
    { replace (size h) with (Z.of_nat a) by lia. apply runs_ret. }
    unfold covered. rewrite drop_ge by (rewrite length_take; lia). by rewrite printed_nil.
  - pose proof (head_size _ _ _ _ Hon) as [Hs Hl].
    destruct (lookup_lt_is_Some_2 es a) as [e He]; [unfold len in *; lia|].
    assert (Hc : covered es h !! a = Some e) by (unfold covered; rewrite lookup_take_lt by lia; done).
    eapply runs_iter_again.
    { rewrite (proj2 (Z.ltb_lt _ _)) by (cbn; lia). eapply runs_bind; [by eapply runs_get|].
      eapply runs_bind; [eapply runs_watch_row; [exact Hon|exact He|lia]|].
      eapply runs_bind; [apply runs_evaluate, u64_add_in; unfold in_u64; lia|]. apply runs_ret. }
    replace (Z.of_nat a + 1) with (Z.of_nat (S a)) by lia.
    eapply runs_to; [apply IH; [exact Hon|lia]|].
    rewrite printed_app, <- rows_app. by rewrite (drop_S _ _ _ Hc).
Qed.

(** The states of a server at successive polls: honest, with a log that grows and heads that do not
    shrink; at the end the log is [es'] and the head [h']. *)
Inductive grows : list LogEntry.t -> SignedTreeHead.t -> list AppState ->
    list LogEntry.t -> SignedTreeHead.t -> Prop :=
| grows_nil es h : grows es h [] es h
| grows_cons es h st es1 hs1 h1 l es' h' :
    honest st es1 hs1 h1 -> es `prefix_of` es1 -> size h <= size h1 -> grows es1 h1 l es' h' ->
    grows es h (st :: l) es' h'.

Lemma covered_prefix es es1 h h1 :
  es `prefix_of` es1 -> 0 <= size h <= len es -> size h <= size h1 ->
  covered es h = take (Z.to_nat (size h)) (covered es1 h1).
Proof.
  intros [k ->] Hs Hle. unfold covered. rewrite take_take, Nat.min_l by lia.
  rewrite take_app_le; [done|]. unfold len in Hs. lia.
Qed.

Lemma grows_covered es hs h l es' h' st : honest st es hs h -> grows es h l es' h' ->
  covered es h = take (Z.to_nat (size h)) (covered es' h').
Proof.
  intros Hon Hg. revert st hs Hon.
  induction Hg as [es h|es h st1 es1 hs1 h1 l es' h' Hon1 Hp Hle Hg IH]; intros st hs Hon.
  - unfold covered. by rewrite take_take, Nat.min_id.
  - pose proof (head_size _ _ _ _ Hon) as [Hs _].
    rewrite (covered_prefix es es1 h h1) by (done || lia). rewrite (IH st1 hs1 Hon1) at 1.
    rewrite take_take, Nat.min_l by lia. done.
Qed.

(** The loop of [mode_watch], from the number after those already covered. *)
Definition watch_loop (verify : bool) (ns : Z) : Z -> itree demoE (result unit DemoError) :=
  ITree.iter (fun seq =>
    let* ctrl_c := trigger (SelectCtrlC ns) in
    if ctrl_c : bool
    then do* println (newline ++ txt "Stopped.") in Ret (inr (Ok tt))
    else
      let* r := wait_for_sth 1 in
      match r with
      | Ok sth => let* seq := watch_entries verify sth seq in Ret (inl seq)
      | Err _ => Ret (inl seq)
      end).

Definition stopped : bytes := newline ++ txt "Stopped." ++ newline.

Lemma runs_watch_loop verify ns es h l es' h' : grows es h l es' h' -> forall w st hs,
  honest st es hs h -> upcoming (state w) = l ->
  exists x, runs site_env (watch_loop verify ns (size h)) w
    (mkWorld x (stdout w ++ rows (col verify) (drop (Z.to_nat (size h)) (covered es' h')) ++ stopped) (stderr w))
    (Ok tt).
Proof.
  induction 1 as [es h|es h st1 es1 hs1 h1 l es' h' Hon1 Hp Hle Hg IH]; intros w st hs Hon El.
  - exists (state w). apply runs_iter_done. eapply runs_bind.
    { apply (runs_os site_env (SelectCtrlC ns) w w true). cbn. rewrite El. by destruct w. }
    eapply runs_bind; [apply runs_print|]. eapply runs_to; [apply runs_ret|].
    unfold covered. rewrite drop_ge by (rewrite length_take; lia). done.
  - set (w1 := to_state w (mkSite st1 l (clock (state w) + ns))).
    pose proof (head_size _ _ _ _ Hon) as [Hs _]. pose proof (head_size _ _ _ _ Hon1) as [Hs1 _].
    set (w2 := printed w1 (rows (col verify) (drop (Z.to_nat (size h)) (covered es1 h1)))).
    destruct (IH w2 st1 hs1 Hon1 eq_refl) as [x Hx]. exists x. eapply runs_iter_again.
    { eapply runs_bind.
      { apply (runs_os site_env (SelectCtrlC ns) w w1 false). cbn. by rewrite El. }
      eapply runs_bind; [apply (runs_wait w1 es1 hs1 h1 1 Hon1); lia|].
      eapply runs_bind; [|apply runs_ret].
      replace (size h) with (Z.of_nat (Z.to_nat (size h))) by lia.
      apply (runs_watch_entries es1 hs1 h1 verify (Z.to_nat (size h1 - size h)) w1); [exact Hon1|lia]. }
    eapply runs_to; [exact Hx|]. cbn. f_equal. rewrite <- app_assoc. f_equal.
    rewrite app_assoc, <- rows_app. do 2 f_equal.
    rewrite (grows_covered _ _ _ _ _ _ _ Hon1 Hg). rewrite <- (take_drop (Z.to_nat (size h1)) (covered es' h')) at 3.
    rewrite drop_app_le; [done|]. rewrite <- (grows_covered _ _ _ _ _ _ _ Hon1 Hg).
    unfold covered. rewrite length_take. unfold len in *. lia.
Qed.

(** Watching an honest server.  Started with a valid interval and stopped by Ctrl-C after any number of polls,
    while the log and its heads grow, [mode_watch] prints every entry covered since it started exactly once and
    in order, with a proof that verifies when asked to. *)
Theorem demo_watch_honest (w : world site) (es : list LogEntry.t) (hs : list SignedTreeHead.t)
    (h : SignedTreeHead.t) (es' : list LogEntry.t) (h' : SignedTreeHead.t) (verify : bool)
    (interval : f64) (ns : Z) (Hon : honest (serving (state w)) es hs h)
    (Hg : grows es h (upcoming (state w)) es' h') (Hi : from_secs_f64 interval = Prelude.Ret ns) :
  exists x, runs site_env (mode_watch verify interval) w
    (mkWorld x (stdout w ++
       txt "Watching for new entries (polling every " ++ fmt_f64_0 interval ++
       txt "s) … Ctrl-C to stop." ++ newline ++ newline ++ header_text verify ++
       rows (col verify) (drop (Z.to_nat (size h)) (covered es' h')) ++ stopped) (stderr w)) (Ok tt).
Proof.
  pose proof (head_size _ _ _ _ Hon) as [Hs _].
  set (intro := txt "Watching for new entries (polling every " ++ fmt_f64_0 interval ++
                txt "s) … Ctrl-C to stop." ++ newline).
  destruct (runs_watch_loop verify ns es h _ es' h' Hg
    (printed (printed w (intro ++ newline)) (header_text verify)) _ hs Hon eq_refl) as [x Hx].
  exists x. eapply runs_bind; [apply runs_print|].
  eapply runs_bind; [eapply (runs_wait _ es hs h); [exact Hon|lia]|].
  eapply runs_bind; [apply runs_header|]. eapply runs_bind; [by apply runs_evaluate|].
  eapply runs_to; [exact Hx|]. unfold intro, printed. cbn [stdout stderr state]. by rewrite <- ?app_assoc.
Qed.
End Site.
