(* ===== verification/ServerDemo.v ===== *)
(** * The server theorems on concrete runs

    A server over the in-memory database, with the real SHA-256 and token bucket and a
    toy signature scheme: every server theorem is applied to a state reached by
    running the operations, and the races found are exhibited as runs. *)

From Stdlib Require String.
From stdpp Require Import relations.
From S2P Require Import SdkVerifier.
From S2P Require Import Prelude Bytes Hash MerkleSpec Merkle MerkleProof Sha256Instance Sth Rocksdb.
From S2P Require Import StorageTypes Db LogStore LogTheorems TreeStore Table HeadStore KeyStore.
From S2P Require Import StorageDemo ServerState Service ServerInv Concurrent ProofTheorems.
From S2P Require Import ServiceTheorems Watch Admin RateLimit Client Paging.
Import String.StringSyntax.

Module ServerDemo.
#[local] Existing Instance fips_sha256.
#[local] Existing Instance MemDb.memdb.
#[local] Existing Instance MemDb.memdb_laws.
#[local] Existing Instance DemoCodec.codec.
#[local] Existing Instance DemoCodec.codec_laws.
#[local] Existing Instance ToyEd25519.toy.
#[local] Existing Instance ToyEd25519.toy_laws.
#[local] Existing Instance bucket_limiter.
#[local] Instance checked_build : Profile := true.
#[local] Instance display : ErrorDisplay := {|
  rdb_error_display := fun _ => "write failed"%str;
  encode_error_display := fun _ => ""%str;
  decode_error_display := fun _ => "malformed"%str
|}.
Import StorageDemo.

Definition fresh_key : @SigningKey ToyEd25519.toy := ToyEd25519.o32.
Definition config0 : Config := mkConfig None (Some 10) 1000.
Definition app0 : AppState :=
  mkApp _ _ _ (fresh []) MerkleTree.new (mkSigner ToyEd25519.z32 1) None config0 []
    (Some (limiter_new 10 0)).
Definition y0 : sys := mkSys app0 [] [] [].

Lemma app0_ok : server_ok app0 [] [].
Proof. split; [apply fresh_rep|apply fresh_heads|apply new_represents|constructor]. Qed.
Lemma y0_ok : sys_ok false y0 [] [].
Proof. split; [exact app0_ok|constructor|constructor|by split|intros _; apply fresh_gap_free]. Qed.

(** ** A run: append an entry, sign and store a head *)

Definition app_after {A} (o : outcome (AppState * A)) : AppState :=
  match o with Ret (a, _) => a | _ => app0 end.
Definition app_value {A} (o : outcome (AppState * result A Status)) : option A :=
  match o with Ret (_, Ok a) => Some a | _ => None end.
Lemma app_after_ok {A} (o : outcome (AppState * result A Status)) a :
  app_value o = Some a -> o = Ret (app_after o, Ok a).
Proof. destruct o as [[s [b|e]]| |]; cbn; congruence. Qed.

Definition a1 : AppState := app_after (append_commit app0 now k1 d1).
Lemma a1_ok : append_commit app0 now k1 d1 = Ret (a1, Ok (0, now)).
Proof. apply app_after_ok. vm_compute. reflexivity. Qed.

Definition root1 : hash32 := leaf_hash d1.
Definition sig1 : array 64 := sign (signer a1) (signing_payload 1 root1 now).
Definition sth1 : SignedTreeHead.t :=
  SignedTreeHead.mk 1 root1 now sig1 (public_key (signer a1)) (key_version (signer a1)).
Definition a2 : AppState := set_inner a1 (head_write (inner a1) sth1).1.

(** The server after the append, with the given signing runs under way. *)
Definition at1 (tasks : list sign_task) : sys :=
  mkSys a1 tasks [] [[Entry.mk 0 now k1 d1 (to_vec (leaf_hash d1))]].
Definition y7 : sys := mkSys a2 [] [] (outbox (at1 [])).

Lemma append_step race faults : step race faults y0 (at1 []).
Proof.
  apply (step_append race faults y0 now k1 d1 a1 (Ok (0, now)));
    [reflexivity|exact pair_small|discriminate|exact a1_ok|discriminate].
Qed.

Lemma snapshot_step race faults : step race faults (at1 []) (at1 [TSnapshot 1 (Some root1)]).
Proof.
  apply (step_snapshot race faults (at1 []) 1 (Some root1)); [|discriminate].
  vm_compute. reflexivity.
Qed.

(** [up_to_date] as a plain value. *)
Definition check_value (r : result bool StorageTypes.Error) : option bool :=
  match r with Ok b => Some b | Err _ => None end.
Lemma check_value_ok r b : check_value r = Some b -> r = Ok b.
Proof. destruct r; cbn; congruence. Qed.

Lemma check_step race faults :
  step race faults (at1 [TSnapshot 1 (Some root1)]) (at1 [TChecked 1 (Some root1)]).
Proof.
  apply (step_check race faults (at1 [TSnapshot 1 (Some root1)]) 0 1 (Some root1)); [reflexivity|].
  apply check_value_ok. vm_compute. reflexivity.
Qed.

Lemma sign_step race faults :
  step race faults (at1 [TChecked 1 (Some root1)]) (at1 [TSigned 1 root1 now sig1]).
Proof. apply (step_sign race faults (at1 [TChecked 1 (Some root1)]) 0 1 root1 now now); reflexivity. Qed.

Lemma run_to_signed race faults : rtc (step race faults) y0 (at1 [TSigned 1 root1 now sig1]).
Proof.
  eapply rtc_l; [apply append_step|]. eapply rtc_l; [apply snapshot_step|].
  eapply rtc_l; [apply check_step|]. apply rtc_once, sign_step.
Qed.

Lemma run_signs race faults : rtc (step race faults) y0 y7.
Proof.
  transitivity (at1 [TSigned 1 root1 now sig1]); [apply run_to_signed|].
  eapply rtc_l; [apply (step_pubkey race faults (at1 [TSigned 1 root1 now sig1]) 0 1 root1 now sig1); reflexivity|].
  eapply rtc_l; [apply (step_version race faults (at1 [TKeyed 1 root1 now sig1 (public_key (signer a1))])
    0 1 root1 now sig1 (public_key (signer a1))); reflexivity|].
  apply rtc_once. eapply (step_write race faults (at1 [TReady sth1]) 0 sth1); [reflexivity|].
  apply surjective_pairing.
Qed.

Lemma server_invariant_witness :
  exists es hs, [] `prefix_of` es /\
    db_rep (inner (app y7)) es /\ heads_rep (inner (app y7)) hs /\
    represents (merkle (app y7)) (log_leaves es) /\ Forall (head_ok es) hs /\
    (false = false -> gap_free (inner (app y7)) es) /\
    (forall h, h ∈ [] -> exists h', h' ∈ hs /\ SignedTreeHead.tree_size h' = SignedTreeHead.tree_size h /\
       SignedTreeHead.root_hash h' = SignedTreeHead.root_hash h).
Proof. apply (server_invariant true false y0 y7 [] []); [exact y0_ok|exact (run_signs true false)]. Defined.

Lemma heads_verify_witness :
  exists hs, heads_rep (inner (app y7)) hs /\ Forall (fun h => verify_sth h = true) hs.
Proof.
  apply (heads_verify false y0 y7 [] []); [exact y0_ok|reflexivity|constructor|exact (run_signs false false)].
Defined.

Lemma served_proofs_verify_witness :
  exists es, db_rep (inner (app y7)) es /\
  (forall n ts resp, in_u64 n -> in_u64 ts -> rpc_inclusion_proof (app y7) n ts = Ret (Ok resp) ->
     exists e path root, es !! Z.to_nat n = Some e /\ LogEntry.seq e = n /\
       InclusionProofResponse.proof resp = to_vec <$> path /\
       sdk_accepts_head (InclusionProofResponse.sth resp) root /\
       SdkVerifier.verify_inclusion (SdkVerifier.leaf_hash (LogEntry.data e)) n
         (ProtoSth.tree_size (InclusionProofResponse.sth resp)) path root = Ret true) /\
  (forall o n resp, in_u64 o -> in_u64 n -> rpc_consistency_proof (app y7) o n = Ret (Ok resp) ->
     exists path r1 r2, ConsistencyProofResponse.proof resp = to_vec <$> path /\
       sdk_accepts_head (ConsistencyProofResponse.old_sth resp) r1 /\
       sdk_accepts_head (ConsistencyProofResponse.new_sth resp) r2 /\
       ProtoSth.tree_size (ConsistencyProofResponse.old_sth resp) = o /\
       (ProtoSth.tree_size (ConsistencyProofResponse.new_sth resp) <= two63 ->
        SdkVerifier.verify_consistency o (ProtoSth.tree_size (ConsistencyProofResponse.new_sth resp))
          path r1 r2 = Ret true)).
Proof.
  apply (served_proofs_verify y0 y7 [] []);
    [exact y0_ok|reflexivity|constructor|exact (run_signs false false)].
Defined.

(** ** The states of the run satisfy the invariant *)

Lemma a1_server : server_ok a1 [e1] [] /\ next_seq (inner a1) = 1.
Proof.
  destruct (append_commit_ok app0 [] [] now k1 d1 app0_ok ltac:(done) ltac:(done) pair_small)
    as (st & r & E & En & _ & Hr). rewrite a1_ok in E. injection E as <- <-.
  destruct Hr as (_ & _ & Hr). done.
Qed.

Lemma sth1_ok : head_ok [e1] sth1.
Proof. apply snapshot_head_ok; [done|]. vm_compute. reflexivity. Qed.

Lemma a1_signer : signer a1 = mkSigner ToyEd25519.z32 1.
Proof. by destruct (append_commit_frame _ _ _ _ _ _ a1_ok) as [-> _]. Qed.

Definition write_value (r : result unit StorageTypes.Error) : bool :=
  match r with Ok _ => true | Err _ => false end.
Lemma sth1_written : write_value (head_write (inner a1) sth1).2 = true.
Proof. vm_compute. reflexivity. Qed.

Lemma a2_server : server_ok a2 [e1] [sth1] /\ gap_free (inner a2) [e1].
Proof.
  assert (Hw : sth_wf sth1).
  { split; [by split|]. split; [by split|]. cbn. by rewrite a1_signer. }
  destruct (write_head_ok a1 [e1] [] sth1 (proj1 a1_server) Hw sth1_ok) as (d & r & E & En & _ & Hok).
  pose proof sth1_written as Hv. unfold a2. rewrite E in Hv |- *. cbn in Hv. destruct r; [|done].
  split; [exact Hok|]. split; [done|]. cbn. rewrite En. apply a1_server.
Qed.

Lemma a2_keys : keys_rep (inner a2) [].
Proof.
  destruct (head_write_ok (inner a1) [] sth1 (ok_heads _ _ _ (proj1 a1_server))) as (s & r & E & _ & Hc & _).
  { split; [by split|]. split; [by split|]. cbn. by rewrite a1_signer. }
  unfold keys_rep, a2. cbn [inner set_inner]. rewrite E. cbn [fst]. rewrite Hc by done.
  destruct (append_commit_ok app0 [] [] now k1 d1 app0_ok ltac:(done) ltac:(done) pair_small)
    as (st & r' & E' & _ & Hc' & _). rewrite a1_ok in E'. injection E' as <- <-.
  rewrite Hc' by done. constructor.
Qed.

Lemma append_rpc_witness :
  exists st' r, rpc_append a2 5 now k1 d1 = Ret (st', r) /\
    let e := new_entry (next_seq (inner a2)) (wrap_i64 now) k1 d1 in
    match r with
    | Ok resp => (admit_one a2 5).2 = true /\
        resp = AppendResponse.mk (LogEntry.seq e) (LogEntry.timestamp_ns e) (to_vec (leaf_hash d1)) k1 /\
        server_ok st' ([e1] ++ [e]) [sth1] /\ watch_tx st' = watch_tx a2 ++ [entry_to_pb e]
    | Err s => server_ok st' [e1] [sth1] /\ watch_tx st' = watch_tx a2 /\
        if (admit_one a2 5).2
        then exists x, s = to_status (EStorage x) /\ write_fault (db (inner a2)) [e] x
        else code s = ResourceExhausted /\ inner st' = inner a2
    end.
Proof.
  apply (append_rpc a2 [e1] [sth1] 5 now k1 d1);
    [apply a2_server|rewrite (proj2 (proj2 a2_server)); reflexivity|discriminate|exact pair_small].
Defined.

Lemma batch_rpc_witness :
  exists st' r, rpc_batch_append a2 5 now [(k1, d1); (k1, d1)] = Ret (st', r) /\
    let news := batch_entries (next_seq (inner a2)) (wrap_i64 now) [(k1, d1); (k1, d1)] in
    match r with
    | Ok l => len [(k1, d1); (k1, d1)] <= MAX_BATCH /\ server_ok st' ([e1] ++ news) [sth1] /\
        l = (fun e => AppendResponse.mk (LogEntry.seq e) (LogEntry.timestamp_ns e)
                        (to_vec (LogEntry.leaf_hash e)) (LogEntry.key e)) <$> news /\
        watch_tx st' = watch_tx a2 ++ (entry_to_pb <$> news)
    | Err s => server_ok st' [e1] [sth1] /\ watch_tx st' = watch_tx a2 /\
        [(k1, d1); (k1, d1)] <> [] /\
        if MAX_BATCH <? len [(k1, d1); (k1, d1)] then code s = InvalidArgument /\ st' = a2
        else if (admit_n a2 5 (len [(k1, d1); (k1, d1)])).2
        then exists x, s = to_status (EStorage x) /\ write_fault (db (inner a2)) news x
        else code s = ResourceExhausted /\ inner st' = inner a2
    end.
Proof.
  apply (batch_rpc a2 [e1] [sth1] 5 now [(k1, d1); (k1, d1)]);
    [apply a2_server|rewrite (proj2 (proj2 a2_server)); reflexivity|discriminate|].
  repeat constructor; exact pair_small.
Defined.

Lemma inclusion_rpc_witness :
  exists r, rpc_inclusion_proof a2 0 1 = Ret r /\
    match r with
    | Ok resp => exists e h path, [e1] !! Z.to_nat 0 = Some e /\
        requested_head [sth1] 1 = Some h /\
        resp = InclusionProofResponse.mk 0 (SignedTreeHead.tree_size h) (to_vec <$> path) (sth_to_pb h) /\
        verify_inclusion (leaf_hash (LogEntry.data e)) 0 (SignedTreeHead.tree_size h) path
          (SignedTreeHead.root_hash h) = Ret true
    | Err _ => read_error a2 \/
        forall h, requested_head [sth1] 1 = Some h -> SignedTreeHead.tree_size h <= 0
    end.
Proof.
  apply (inclusion_rpc a2 [e1] [sth1] 0 1);
    [apply a2_server|apply a2_server|split; [discriminate|reflexivity]..].
Defined.

Lemma consistency_rpc_witness :
  exists r, rpc_consistency_proof a2 1 0 = Ret r /\
    match r with
    | Ok resp => exists h1 h2 path, find_id SignedTreeHead.tree_size 1 [sth1] = Some h1 /\
        requested_head [sth1] 0 = Some h2 /\
        resp = ConsistencyProofResponse.mk 1 (SignedTreeHead.tree_size h2) (to_vec <$> path)
                 (sth_to_pb h1) (sth_to_pb h2) /\
        verify_consistency 1 (SignedTreeHead.tree_size h2) path (SignedTreeHead.root_hash h1)
          (SignedTreeHead.root_hash h2) = Ret true
    | Err _ => read_error a2 \/
        forall h1 h2, find_id SignedTreeHead.tree_size 1 [sth1] = Some h1 ->
          requested_head [sth1] 0 = Some h2 -> SignedTreeHead.tree_size h2 < 1
    end.
Proof.
  apply (consistency_rpc a2 [e1] [sth1] 1 0);
    [apply a2_server|apply a2_server|split; [discriminate|reflexivity]..].
Defined.

Lemma sign_covers_log_witness :
  exists st' r hs', sign_and_store a1 now = Ret (st', r) /\ server_ok st' [e1] hs' /\
    (hs' = [] \/ exists h, head_ok [e1] h /\ head_signed h /\ hs' = upsert SignedTreeHead.tree_size h []) /\
    match r with
    | Ok _ => [e1] = [] /\ st' = a1 \/ exists h, find_id SignedTreeHead.tree_size (len [e1]) hs' = Some h
    | Err e => hs' = [] /\ external_error e
    end.
Proof.
  apply (sign_covers_log a1 [e1] [] now);
    [apply a1_server|rewrite a1_signer; split; [discriminate|reflexivity]|discriminate].
Defined.

Lemma startup_ok_witness :
  exists r, build config0 true (Ok (db (inner a2))) None true fresh_key FsOk 7 = Ret r /\
    match r with
    | Ok st => server_ok st [e1] [sth1] /\ keys_rep (inner st) (seeded [] (public_key (signer st))) /\
        sig_version (signer st) = start_version [] /\
        (LogEntry.seq <$> [e1] = seqZ 0 (len [e1]) -> gap_free (inner st) [e1]) /\
        next_seq (inner st) = next_number [e1] /\
        sig_key (signer st) = fresh_key /\
        key_file st = Some (to_vec (sk_to_bytes fresh_key))
    | Err StartKeyFile => FsOk <> FsOk
    | Err (StartStorage e) => schema_error (db (inner a2)) e \/ external_error e
    | Err StartDataDir => true = false
    end.
Proof.
  apply (startup_ok config0 (inner a2) [e1] [sth1] [] true None true fresh_key FsOk 7);
    [apply a2_server|apply a2_server|constructor; [exact sth1_ok|constructor]|exact a2_keys].
Defined.

(** ** Rotation *)

Definition hex_digit (n : nat) : String.string :=
  match String.get n "0123456789abcdef"%str with
  | Some c => String.String c String.EmptyString
  | None => String.EmptyString
  end.
#[local] Instance hex_lower : Hex := fun b =>
  foldr (fun x acc => String.append (String.append (hex_digit (Z.to_nat (Z_of_byte x / 16)))
                                      (hex_digit (Z.to_nat (Z_of_byte x mod 16)))) acc)
    String.EmptyString b.

Lemma a2_signer : signer a2 = mkSigner ToyEd25519.z32 1.
Proof. exact a1_signer. Qed.

Lemma rotate_key_spec_witness :
  exists st' r, rotate_key a2 fresh_key FsOk = Ret (st', r) /\ server_ok st' [e1] [sth1] /\
    let v := sig_version (signer a2) + 1 in
    let record := KeyRecord.mk v (vk_to_bytes (verifying_key fresh_key)) (len [e1]) in
    match r with
    | Ok json => json = key_record_json record /\ signer st' = mkSigner fresh_key v /\
        key_file st' = Some (to_vec (sk_to_bytes fresh_key)) /\
        keys_rep (inner st') (upsert KeyRecord.version record [])
    | Err _ => keys_rep (inner st') [] /\ signer st' = mkSigner fresh_key v /\
        exists s e, key_put (inner a2) record = (s, Err e)
    end.
Proof.
  apply (rotate_key_spec a2 [e1] [sth1] [] fresh_key FsOk);
    [apply a2_server|exact a2_keys|rewrite a2_signer; split; [discriminate|reflexivity]
    |rewrite a2_signer; discriminate].
Defined.

(** ** Watching *)

Lemma watch_exact_witness :
  exists sent st, watch 3 (fun _ => s2) 1 (Received <$> (entry_to_pb <$> [e2])) = Ret (sent, st) /\
    match st with
    | None => sent = entry_to_pb <$> (if 0 <? 1 then from 1 ([e1] ++ [e2]) else [e2])
    | Some _ => exists k n e, iter_fails (db ((fun _ : nat => s2) k)) CF_LOG
                                (IterFrom (to_vec (u64_to_be_bytes n))) e
    end.
Proof.
  apply (watch_exact (fun _ => s2) (fun _ => [e1; e2]) [e1] [e2] 1 3).
  - split; [discriminate|reflexivity].
  - split; [intros _; exact s2_rep|]. split; [intros _; reflexivity|intros _; reflexivity].
  - intros _. exists [e2]. reflexivity.
  - exact (log_rep_sorted _ _ (rep_log _ _ s2_rep)).
  - constructor; [discriminate|constructor].
  - vm_compute. lia.
Defined.

Lemma watch_drops_late_witness :
  live [Received (entry_to_pb e2); Received (entry_to_pb e1)] None [] =
    live [] (Some (Entry.seq (entry_to_pb e2))) ([] ++ [entry_to_pb e2]) /\
  live [Received (entry_to_pb e1); Received (entry_to_pb e2)] None [] =
    live [] (Some (Entry.seq (entry_to_pb e2))) ([] ++ [entry_to_pb e1; entry_to_pb e2]).
Proof. apply (watch_drops_late (entry_to_pb e1) (entry_to_pb e2) [] None []); [reflexivity|discriminate]. Defined.

(** Two appends whose notifications are sent in the opposite order. *)
Definition b1 : AppState := app_after (append_commit a1 now k1 d1).
Lemma b1_ok : append_commit a1 now k1 d1 = Ret (b1, Ok (1, now)).
Proof. apply app_after_ok. vm_compute. reflexivity. Qed.
Definition n0 : Entry.t := Entry.mk 0 now k1 d1 (to_vec (leaf_hash d1)).
Definition n1 : Entry.t := Entry.mk 1 now k1 d1 (to_vec (leaf_hash d1)).

Theorem notifications_reorder :
  exists s, rtc (step false false) y0 s /\ watch_tx (app s) = watch_tx b1 ++ [n1] ++ [n0].
Proof.
  set (z1 := mkSys b1 [] [] [[n0]; [n1]]).
  set (z2 := mkSys (send b1 n1) [] [] [[n0]; []]).
  set (z3 := mkSys (send (send b1 n1) n0) [] [] [[]; []]).
  exists z3. split; [|by cbn [app z3 send watch_tx]; rewrite <- app_assoc].
  eapply rtc_l; [apply append_step|].
  eapply (rtc_l _ _ z1).
  { apply (step_append false false (at1 []) now k1 d1 b1 (Ok (1, now)));
      [|exact pair_small|discriminate|exact b1_ok|discriminate].
    cbn [app at1]. rewrite (proj2 a1_server). reflexivity. }
  eapply (rtc_l _ _ z2); [apply (step_send false false z1 1 n1 []); reflexivity|].
  apply rtc_once. apply (step_send false false z2 0 n0 []). reflexivity.
Qed.

(** ** The rotation race *)

Definition sg2 : LocalSigner := mkSigner fresh_key 2.
Definition a3 : AppState := set_signer a1 sg2 (Some (to_vec (sk_to_bytes fresh_key))).
Definition bad_head : SignedTreeHead.t :=
  SignedTreeHead.mk 1 root1 now sig1 (public_key sg2) (key_version sg2).
Definition racing (a : AppState) (t : sign_task) (r : rotate_task) : sys :=
  mkSys a [t] [r] (outbox (at1 [])).

Lemma bad_head_rejected : verify_sth bad_head = false.
Proof. vm_compute. reflexivity. Qed.

Lemma run_races :
  rtc (step true false) y0
    (racing a3 (TReady bad_head) (RSwapped (KeyRecord.mk 2 (public_key sg2) 1))).
Proof.
  transitivity (at1 [TSigned 1 root1 now sig1]); [apply run_to_signed|].
  assert (Esz : MerkleTree.size (merkle a1) = 1).
  { by rewrite (represents_size _ _ (ok_merkle _ _ _ (proj1 a1_server))). }
  eapply (rtc_l _ _ (racing a1 (TSigned 1 root1 now sig1) (RSize 1))).
  { unfold racing. rewrite <- Esz. apply (step_rotate_size true false (at1 [TSigned 1 root1 now sig1])). }
  eapply (rtc_l _ _ (racing a1 (TSigned 1 root1 now sig1) (RVersion 1 2))).
  { apply (step_rotate_version true false (racing a1 (TSigned 1 root1 now sig1) (RSize 1)) 0 1 2);
      [reflexivity|]. cbn [app racing]. unfold key_version. rewrite a1_signer. reflexivity. }
  eapply (rtc_l _ _ (racing a3 (TSigned 1 root1 now sig1) (RSwapped (KeyRecord.mk 2 (public_key sg2) 1)))).
  { apply (step_rotate_swap true false (racing a1 (TSigned 1 root1 now sig1) (RVersion 1 2)) 0 1 2
      fresh_key FsOk sg2 (Some (to_vec (sk_to_bytes fresh_key))) (Some (public_key sg2)));
      [reflexivity|reflexivity|discriminate]. }
  set (rs := RSwapped _).
  eapply rtc_l; [apply (step_pubkey true false (racing a3 (TSigned 1 root1 now sig1) rs) 0 1 root1 now sig1);
    reflexivity|].
  apply rtc_once. apply (step_version true false (racing a3 (TKeyed 1 root1 now sig1 (public_key sg2)) rs)
    0 1 root1 now sig1 (public_key sg2)). reflexivity.
Qed.

(** A rotation between the signature and the public key of a head: the head that is
    ready to be stored does not verify. *)
Theorem rotation_race :
  exists s h, rtc (step true false) y0 s /\ TReady h ∈ signing s /\ verify_sth h = false.
Proof.
  eexists _, bad_head. split; [exact run_races|]. split; [left|exact bad_head_rejected].
Qed.

(** In this run the proof requests succeed. *)
Definition succeeds {A} (o : outcome (result A Status)) : bool :=
  match o with Ret (Ok _) => true | _ => false end.
Example proofs_are_served :
  succeeds (rpc_inclusion_proof (app y7) 0 0) && succeeds (rpc_inclusion_proof (app y7) 0 1) &&
  succeeds (rpc_consistency_proof (app y7) 1 0) = true.
Proof. vm_compute. reflexivity. Qed.

(** ** A proof over a log with a gap

    The second of four appends fails: the numbers 0, 2 and 3 are stored and the tree has three
    leaves.  The head signed for it has size 3, but the leaves numbered below 3 are two. *)

Definition gap0 : AppState := set_inner app0 (fresh [false; true]).
Definition gap1 : AppState := app_after (append_commit gap0 now k1 d1).
Definition gap2 : AppState := app_after (append_commit gap1 now k1 d1).
Definition gap3 : AppState := app_after (append_commit gap2 now k1 d1).
Definition gap4 : AppState := app_after (append_commit gap3 now k1 d1).
Definition gap5 : AppState := app_after (sign_and_store gap4 now).

Definition gap_numbers : list (option (Z * Z)) :=
  [app_value (append_commit gap0 now k1 d1); app_value (append_commit gap1 now k1 d1);
   app_value (append_commit gap2 now k1 d1); app_value (append_commit gap3 now k1 d1)].

(** The size of the head, the path, and what the verifier of the SDK says. *)
Definition gap_answer : option (Z * nat * bool) :=
  match rpc_inclusion_proof gap5 0 0 with
  | Ret (Ok resp) =>
      match mapM (array_try_from 32) (InclusionProofResponse.proof resp),
            array_try_from 32 (ProtoSth.root_hash (InclusionProofResponse.sth resp)) with
      | Some path, Some root =>
          let n := ProtoSth.tree_size (InclusionProofResponse.sth resp) in
          match SdkVerifier.verify_inclusion (SdkVerifier.leaf_hash d1) 0 n path root with
          | Ret b => Some (n, length path, b)
          | _ => None
          end
      | _, _ => None
      end
  | _ => None
  end.

(** InclusionProof for entry 0 answers OK with a path of one hash, which its head refutes. *)
Example gap_proof_rejected :
  gap_numbers = [Some (0, now); None; Some (2, now); Some (3, now)] /\ gap_answer = Some (3, 1%nat, false).
Proof. split; vm_compute; reflexivity. Qed.

(** ** The checker against this server *)

Lemma no_read_error (st : AppState) : read_error st -> False.
Proof. intros (e & [(l & E)|[(l & E)|(n & E)]]); discriminate E. Qed.
Lemma signed_by (s : LocalSigner) n r t v :
  head_signed (SignedTreeHead.mk n r t (sign s (signing_payload n r t)) (public_key s) v).
Proof. exists (sig_key s). split; reflexivity. Qed.
Lemma sth1_signed : head_signed sth1.
Proof. exact (signed_by (signer a1) 1 root1 now (key_version (signer a1))). Qed.
Definition key_of (st : AppState) : option String.string := api_key (config st).
Lemma a2_no_key : api_key (config a2) = None.
Proof. change (key_of a2 = None). vm_compute. reflexivity. Qed.

Lemma check_honest_server_witness :
  @cmd_verify _ _ (serve a2 5 now) _ "http://localhost:50051"%str (Some 0) =
  Ret (match api_key (config a2) with
       | None => Ok tt
       | Some _ => Err (CkClient "Failed to fetch latest STH"%str
                     (Client.Rpc (mkStatus Unauthenticated "missing or invalid api key"%str)))
       end).
Proof.
  apply (check_honest_server a2 5 now [e1] [sth1] sth1 "http://localhost:50051"%str 0);
    [apply a2_server|apply a2_server|constructor; [exact sth1_signed|constructor]|reflexivity
    |split; [discriminate|reflexivity]|exact (no_read_error a2)|discriminate].
Defined.

Definition check_value_of (o : outcome (result unit CheckError)) : bool :=
  match o with Ret (Ok _) => true | _ => false end.
Lemma check_value_of_ok o : check_value_of o = true -> o = Ret (Ok tt).
Proof. destruct o as [[[]|e]| |]; cbn; congruence. Qed.
Lemma a2_checks : @cmd_verify _ _ (serve a2 5 now) _ ""%str (Some 0) = Ret (Ok tt).
Proof. apply check_value_of_ok. vm_compute. reflexivity. Qed.
Lemma a2_index r :
  @client_inclusion_proof (serve a2 5 now) None 0 1 = Ok r -> in_u64 (Client.leaf_index r).
Proof.
  destruct (served_inclusion a2 5 now [e1] [sth1] sth1 0) as (r' & e & path & E & _ & Ei & _);
    [apply a2_server|apply a2_server|exact (no_read_error a2)|left|split; [discriminate|reflexivity]
    |exact a2_no_key|].
  intros Er. change 1 with (SignedTreeHead.tree_size sth1) in Er. rewrite E in Er. injection Er as <-.
  rewrite Ei. by split.
Qed.

Lemma check_sound_witness :
  let sth := from_pb_sth (sth_to_pb sth1) in
  SdkVerifier.verify_tree_head (len [root1]) root1 (Client.timestamp_ns sth) (Client.signature sth)
    (Client.public_key sth) = true /\
  exists res path entry leaf,
    @client_inclusion_proof (serve a2 5 now) None 0 (len [root1]) = Ok res /\
    Client.proof res = to_vec <$> path /\
    @client_get (serve a2 5 now) None 0 = Ok entry /\ Client.leaf_hash entry = to_vec leaf /\
    clash_or (inclusion_collision [root1] (Client.leaf_index res) leaf path)
      ([root1] !! Z.to_nat (Client.leaf_index res) = Some leaf).
Proof.
  apply (@check_sound _ _ (serve a2 5 now) _ ""%str 0 [root1] root1 (from_pb_sth (sth_to_pb sth1)));
    [reflexivity|reflexivity| |reflexivity|reflexivity|exact a2_index|exact a2_checks].
  apply (served_sth a2 5 now [e1] [sth1] sth1);
    [apply a2_server|exact (no_read_error a2)|reflexivity|exact a2_no_key].
Defined.

(** ** Paging and the signing task *)

Lemma paging_complete_witness :
  (exists r, walk 2 (fun c => rpc_list_entries a2 0 0 c 1) 0 = Ret r /\
     match r with
     | Ok l => l = entry_to_pb <$> filter (in_page 0 0) [e1]
     | Err s => page_fault a2 s
     end) /\
  (exists r, walk 2 (fun c => rpc_get_by_key a2 k1 c 1) 0 = Ret r /\
     match r with
     | Ok l => l = entry_to_pb <$> filter (fun e => LogEntry.key e = k1) [e1]
     | Err s => page_fault a2 s
     end).
Proof.
  apply (paging_complete a2 [e1] 0 0 1 k1 2);
    [apply (ok_db _ _ _ (proj1 a2_server))|split; [discriminate|reflexivity]..|discriminate|repeat constructor].
Defined.
End ServerDemo.
