(* ===== verification/HistoryDemo.v ===== *)
(** * The key history on concrete runs

    The theorems of [KeyHistory] applied to a server with one entry, one head and one recorded key:
    an orderly rotation, a restart, a crash inside a rotation, and two rotations that overlap. *)

From Stdlib Require String.
From stdpp Require Import relations.
From S2P Require Import SdkVerifier.
From S2P Require Import Prelude Bytes Hash MerkleSpec Merkle MerkleProof Sha256Instance Sth Rocksdb.
From S2P Require Import StorageTypes Db LogStore LogTheorems TreeStore Table HeadStore KeyStore.
From S2P Require Import StorageDemo ServerState Service ServerInv Concurrent ProofTheorems.
From S2P Require Import ServiceTheorems Watch Admin RateLimit KeyHistory ServerDemo.
Import String.StringSyntax.

Module HistoryDemo.
#[local] Existing Instance fips_sha256.
#[local] Existing Instance MemDb.memdb.
#[local] Existing Instance MemDb.memdb_laws.
#[local] Existing Instance DemoCodec.codec.
#[local] Existing Instance DemoCodec.codec_laws.
#[local] Existing Instance ToyEd25519.toy.
#[local] Existing Instance ToyEd25519.toy_laws.
#[local] Existing Instance bucket_limiter.
Import StorageDemo ServerDemo.
#[local] Existing Instance checked_build.
#[local] Existing Instance display.

(** ** A server with a recorded key *)

Definition rec1 : KeyRecord.t := KeyRecord.mk 1 (public_key (mkSigner ToyEd25519.z32 1)) 0.
Definition put_db (s : DbInner) (r : KeyRecord.t) : DbInner := (key_put s r).1.

(** Writes of the in-memory database succeed. *)
Lemma put_written (s : DbInner) (ks : list KeyRecord.t) (r : KeyRecord.t) :
  keys_rep s ks -> key_wf r -> write_value (key_put s r).2 = true ->
  key_put s r = (put_db s r, Ok tt) /\ keys_rep (put_db s r) (upsert KeyRecord.version r ks) /\
  (forall c, c <> CF_KEYS -> contents (db (put_db s r)) c = contents (db s) c) /\
  next_seq (put_db s r) = next_seq s.
Proof.
  intros Hk Hw Hv. destruct (key_put_ok s ks r Hk Hw) as (s' & x & E & Hk').
  pose proof (key_put_frame _ _ _ _ E) as [En Hc]. unfold put_db. rewrite E in Hv |- *. cbn in *.
  by destruct x as [[]|].
Qed.

Definition ak : AppState := set_inner a2 (put_db (inner a2) rec1).
Lemma rec1_put : write_value (key_put (inner a2) rec1).2 = true.
Proof. vm_compute. reflexivity. Qed.
Lemma rec1_wf : key_wf rec1.
Proof. by repeat split. Qed.

Lemma ak_keys : keys_rep (inner ak) [rec1].
Proof. exact (proj1 (proj2 (put_written _ _ _ a2_keys rec1_wf rec1_put))). Qed.
Lemma ak_server : server_ok ak [e1] [sth1] /\ gap_free (inner ak) [e1].
Proof.
  destruct (put_written _ _ _ a2_keys rec1_wf rec1_put) as (_ & _ & Hc & En).
  destruct a2_server as [Hok [Hg1 Hg2]]. split; [by apply server_ok_put|].
  split; [exact Hg1|]. unfold ak. cbn [inner set_inner]. rewrite En. exact Hg2.
Qed.
Lemma ak_signer : signer ak = mkSigner ToyEd25519.z32 1.
Proof. exact a2_signer. Qed.

Definition q0 : sys := mkSys ak [] [] [].
Lemma q0_ok : sys_ok false q0 [e1] [sth1].
Proof.
  split; cbn [q0 app signing rotating]; [apply ak_server|constructor|constructor| |intros _; apply ak_server].
  rewrite ak_signer. by split.
Qed.
Lemma q0_history : history_ok q0 [rec1].
Proof.
  split; cbn [q0 app signing rotating rotation_at]; rewrite ?ak_signer.
  - exact ak_keys.
  - by repeat constructor.
  - exists rec1. split; [left|done].
  - constructor.
Qed.
Lemma sth1_known : head_known [rec1] sth1.
Proof.
  exists rec1. unfold sth1. cbn [SignedTreeHead.key_version SignedTreeHead.public_key].
  rewrite a1_signer. split; [left|done].
Qed.

(** ** An orderly rotation *)

Definition rec2 : KeyRecord.t := KeyRecord.mk 2 (public_key sg2) 1.
Definition file2 : option bytes := Some (to_vec (sk_to_bytes fresh_key)).
Definition q3 : sys := mkSys (set_signer ak sg2 file2) [] [RSwapped rec2] [].
Definition q4 : sys :=
  mkSys (set_inner (app q3) (put_db (inner ak) rec2)) [] [] [].
Lemma ak_size : MerkleTree.size (merkle ak) = 1.
Proof. by rewrite (represents_size _ _ (ok_merkle _ _ _ (proj1 ak_server))). Qed.
Lemma rec2_wf : key_wf rec2.
Proof. by repeat split. Qed.
Lemma rec2_put : write_value (key_put (inner ak) rec2).2 = true.
Proof. vm_compute. reflexivity. Qed.

(** An action before the swap is orderly. *)
Lemma orderly_plan (rt : list rotate_task) (t : rotate_task) :
  orderly (mkSys ak [] rt []) (mkSys ak [] [t] []).
Proof.
  split; cbn [app rotating signing length]; [lia|by left|intros r _ [=]|].
  rewrite ak_signer. done.
Qed.

(** The first three actions of a rotation, by any of the two kinds of steps. *)
Lemma run_to_swap : rtc (orderly_step false) q0 q3.
Proof.
  eapply (rtc_l _ _ (mkSys ak [] [RSize 1] [])).
  { split; [rewrite <- ak_size; apply (step_rotate_size false false q0)|].
    apply orderly_plan. }
  eapply (rtc_l _ _ (mkSys ak [] [RVersion 1 2] [])).
  { split.
    - apply (step_rotate_version false false (mkSys ak [] [RSize 1] []) 0 1 2); [done|].
      cbn [app]. by rewrite ak_signer.
    - apply orderly_plan. }
  apply rtc_once. split.
  - by apply (step_rotate_swap false false (mkSys ak [] [RVersion 1 2] []) 0 1 2 fresh_key FsOk sg2 file2
      (Some (public_key sg2))).
  - split; cbn [app rotating signing length q3]; [lia|right; constructor|intros r [=]|].
    by rewrite ak_signer.
Qed.

Lemma run_rotates : rtc (orderly_step false) q0 q4.
Proof.
  etransitivity; [exact run_to_swap|]. apply rtc_once.
  destruct (put_written _ _ _ ak_keys rec2_wf rec2_put) as (E & _).
  split.
  - by apply (step_rotate_put false false q3 0 rec2 (put_db (inner ak) rec2) (Ok tt)).
  - split; cbn [app rotating signing length q3 q4]; [lia|by left| |done]. intros r [= <-] _.
    eexists. exact E.
Qed.

Lemma chain_verifies_witness :
  exists hs ks, heads_rep (inner (app q4)) hs /\ keys_rep (inner (app q4)) ks /\ [rec1] `prefix_of` ks /\
    forall h, h ∈ hs ->
      chain_accepts ks h = true \/
      exists r, rotating q4 = [RSwapped r] /\ SignedTreeHead.key_version h = KeyRecord.version r /\
        SignedTreeHead.public_key h = KeyRecord.public_key r.
Proof.
  apply (chain_verifies false q0 q4 [e1] [sth1] [rec1]);
    [exact q0_ok|split; reflexivity|exact q0_history|constructor; [exact sth1_known|constructor]
    |constructor; [exact sth1_signed|constructor]|exact run_rotates].
Defined.

(** ** A crash between the swap and the record *)

Definition started (o : outcome (result AppState StartError)) : AppState :=
  match o with Ret (Ok st) => st | _ => ak end.
Definition starts (o : outcome (result AppState StartError)) : bool :=
  match o with Ret (Ok _) => true | _ => false end.
Lemma started_ok o : starts o = true -> o = Ret (Ok (started o)).
Proof. destruct o as [[st|e]| |]; cbn; congruence. Qed.

(** A start on the disk of [q3]. *)
Abbreviation restart_q3 :=
  (build config0 true (Ok (db (inner (app q3)))) (key_file (app q3)) true fresh_key FsOk 9).
Definition q3_restarted : AppState := started restart_q3.
Lemma q3_starts : starts restart_q3 = true.
Proof. vm_compute. reflexivity. Qed.
Lemma q3_restarts : restart_q3 = Ret (Ok q3_restarted).
Proof. apply started_ok. exact q3_starts. Qed.

Lemma q3_history : history_ok q3 [rec1].
Proof.
  split; cbn [q3 app signing rotating rotation_at inner signer set_signer].
  - exact ak_keys.
  - by repeat constructor.
  - split; [exact rec2_wf|]. by repeat constructor.
  - constructor.
Qed.

Lemma q3_file : file_current (app q3).
Proof. unfold file_current, q3. cbn [app key_file set_signer signer sig_key sg2]. exact eq_refl. Qed.
Lemma q3_server : server_ok (app q3) [e1] [sth1].
Proof. exact (server_ok_signer ak [e1] [sth1] sg2 file2 (proj1 ak_server)). Qed.

Lemma restart_history_witness :
  match rotating q3 with
  | [] => signer q3_restarted = signer (app q3) /\
      history_ok (mkSys q3_restarted [] [] []) [rec1]
  | [RSwapped r] => exists old, last [rec1] = Some old /\
      find_id KeyRecord.version (sig_version (signer q3_restarted)) [rec1] = Some old /\
      public_key (signer q3_restarted) = KeyRecord.public_key r /\
      sig_version (signer q3_restarted) < KeyRecord.version r
  | _ => True
  end.
Proof.
  exact (restart_history config0 q3 [e1] [sth1] [rec1] true true fresh_key FsOk 9 q3_restarted
    q3_server q3_history (fun E => ltac:(discriminate E)) q3_file q3_restarts).
Defined.

(** What that server signs, the history does not authenticate. *)
Example crash_breaks_chain :
  let sg := signer q3_restarted in
  chain_accepts [rec1] (SignedTreeHead.mk 1 root1 now (sign sg (signing_payload 1 root1 now))
    (public_key sg) (key_version sg)) = false.
Proof. vm_compute. reflexivity. Qed.

(** ** Overlapping rotations *)

Definition other_key : @SigningKey ToyEd25519.toy := array_fill 32 Init.Byte.x02.
Definition sg2' : LocalSigner := mkSigner other_key 2.
Definition rec2' : KeyRecord.t := KeyRecord.mk 2 (public_key sg2') 1.
Definition file2' : option bytes := Some (to_vec (sk_to_bytes other_key)).
Definition head2 : SignedTreeHead.t :=
  SignedTreeHead.mk 1 root1 now (sign sg2 (signing_payload 1 root1 now)) (public_key sg2) 2.

(** A signed entry [a1] whose first key is recorded; a head is being signed. *)
Definition ar : AppState := set_inner a1 (put_db (inner a1) rec1).
Definition overlap (sg : LocalSigner) (f : option bytes) (t : list sign_task) (r : list rotate_task) : sys :=
  mkSys (set_signer ar sg f) t r [].
Definition ov0 : sys := overlap (signer a1) (key_file a1) [TChecked 1 (Some root1)] [].
Definition db2 : DbInner := put_db (put_db (inner ar) rec2) rec2'.
Definition ov_end : sys :=
  mkSys (set_inner (set_signer ar sg2' file2') (head_write db2 head2).1) [] [] [].

Lemma a1_keys : keys_rep (inner a1) [].
Proof.
  destruct (append_commit_ok app0 [] [] now k1 d1 app0_ok ltac:(done) ltac:(done) pair_small)
    as (st & r' & E' & _ & Hc' & _). rewrite a1_ok in E'. injection E' as <- <-.
  unfold keys_rep. rewrite Hc' by done. constructor.
Qed.
Lemma puts_written :
  write_value (key_put (inner a1) rec1).2 && write_value (key_put (inner ar) rec2).2 &&
  write_value (key_put (put_db (inner ar) rec2) rec2').2 && write_value (head_write db2 head2).2 = true.
Proof. vm_compute. reflexivity. Qed.

(** Both rotations read version 1; the first swaps, a head is signed with its key; the second
    swaps; the records are written in turn. *)
Lemma run_overlaps : rtc (step false false) ov0 ov_end.
Proof.
  assert (Esz : MerkleTree.size (merkle ar) = 1).
  { change (merkle ar) with (merkle a1). by rewrite (represents_size _ _ (ok_merkle _ _ _ (proj1 a1_server))). }
  assert (Es : signer a1 = mkSigner ToyEd25519.z32 1) by exact a1_signer.
  set (o := overlap (signer a1) (key_file a1)). set (chk := [TChecked 1 (Some root1)]).
  set (o2 := overlap sg2 file2).
  eapply (rtc_l _ _ (o chk [RSize 1])).
  { unfold o, overlap. rewrite <- Esz. apply (step_rotate_size false false (o chk [])). }
  eapply (rtc_l _ _ (o chk [RSize 1; RSize 1])).
  { unfold o, overlap. rewrite <- Esz at 2. apply (step_rotate_size false false (o chk [RSize 1])). }
  eapply (rtc_l _ _ (o chk [RVersion 1 2; RSize 1])).
  { apply (step_rotate_version false false (o chk [RSize 1; RSize 1]) 0 1 2); [done|].
    unfold o, overlap. cbn [app signer set_signer]. by rewrite Es. }
  eapply (rtc_l _ _ (o chk [RVersion 1 2; RVersion 1 2])).
  { apply (step_rotate_version false false (o chk [RVersion 1 2; RSize 1]) 1 1 2); [done|].
    unfold o, overlap. cbn [app signer set_signer]. by rewrite Es. }
  eapply (rtc_l _ _ (o2 chk [RSwapped rec2; RVersion 1 2])).
  { by apply (step_rotate_swap false false (o chk [RVersion 1 2; RVersion 1 2]) 0 1 2 fresh_key FsOk sg2 file2
      (Some (public_key sg2))); [| |intros _; repeat constructor; intros []]. }
  set (rt := [RSwapped rec2; RVersion 1 2]). set (sg := sign sg2 (signing_payload 1 root1 now)).
  eapply (rtc_l _ _ (o2 [TSigned 1 root1 now sg] rt)).
  { by apply (step_sign false false (o2 chk rt) 0 1 root1 now now). }
  eapply (rtc_l _ _ (o2 [TKeyed 1 root1 now sg (public_key sg2)] rt)).
  { by apply (step_pubkey false false (o2 [TSigned 1 root1 now sg] rt) 0 1 root1 now sg). }
  eapply (rtc_l _ _ (o2 [TReady head2] rt)).
  { by apply (step_version false false (o2 [TKeyed 1 root1 now sg (public_key sg2)] rt) 0 1 root1 now sg
      (public_key sg2)). }
  eapply (rtc_l _ _ (overlap sg2' file2' [TReady head2] [RSwapped rec2; RSwapped rec2'])).
  { by apply (step_rotate_swap false false (o2 [TReady head2] rt) 1 1 2 other_key FsOk sg2' file2'
      (Some (public_key sg2'))); [| |intros _; repeat constructor; intros []]. }
  set (ovd := fun d t r => mkSys (set_inner (set_signer ar sg2' file2') d) t r []).
  eapply (rtc_l _ _ (ovd (put_db (inner ar) rec2) [TReady head2] [RSwapped rec2'])).
  { exact (step_rotate_put false false (overlap sg2' file2' [TReady head2] [RSwapped rec2; RSwapped rec2'])
      0 rec2 _ _ eq_refl (surjective_pairing _)). }
  eapply (rtc_l _ _ (ovd db2 [TReady head2] [])).
  { exact (step_rotate_put false false (ovd (put_db (inner ar) rec2) [TReady head2] [RSwapped rec2'])
      0 rec2' _ _ eq_refl (surjective_pairing _)). }
  apply rtc_once.
  exact (step_write false false (ovd db2 [TReady head2] []) 0 head2 _ _ eq_refl (surjective_pairing _)).
Qed.

Lemma ov_end_rep :
  keys_rep (inner (app ov_end)) [rec1; rec2'] /\ heads_rep (inner (app ov_end)) [head2].
Proof.
  pose proof puts_written as [[[W1 W2]%andb_prop W3]%andb_prop W4]%andb_prop.
  destruct (put_written _ _ _ a1_keys rec1_wf W1) as (_ & K1 & C1 & _).
  change (put_db (inner a1) rec1) with (inner ar) in *.
  destruct (put_written _ _ _ K1 rec2_wf W2) as (_ & K2 & C2 & _).
  assert (Hw : key_wf rec2') by by repeat split.
  destruct (put_written _ _ _ K2 Hw W3) as (_ & K3 & C3 & _). fold db2 in K3, C3.
  assert (Hh : heads_rep db2 []).
  { unfold heads_rep. rewrite C3, C2, C1 by done. exact (ok_heads _ _ _ (proj1 a1_server)). }
  destruct (head_write_ok db2 [] head2 Hh) as (d & r & E & _ & Hc & Hh'); [by repeat split|].
  unfold ov_end. cbn [app inner set_inner]. rewrite E in W4 |- *. cbn [fst snd] in *.
  destruct r; [|done]. split; [|exact Hh']. unfold keys_rep. rewrite Hc by done. exact K3.
Qed.

(** Two rotations that read the version before either swaps record their keys under the same version: the
    second record replaces the first, and a head signed in between with the first key,
    valid and stored, is rejected by the chain. *)
Theorem overlapping_rotations :
  exists s h ks, rtc (step false false) ov0 s /\
    keys_rep (inner (app s)) ks /\ heads_rep (inner (app s)) [h] /\
    verify_sth h = true /\ chain_accepts ks h = false.
Proof.
  exists ov_end, head2, [rec1; rec2']. split; [exact run_overlaps|].
  destruct ov_end_rep as [Hk Hh]. split; [exact Hk|]. split; [exact Hh|]. by vm_compute.
Qed.
End HistoryDemo.
