(* ===== verification/ProcessDemo.v ===== *)
(** * The server process on concrete runs

    The theorems about the process, its admin API and its metrics applied to the server of [ServerDemo]. *)

From Stdlib Require String.
From stdpp Require Import relations.
From S2P Require Import SdkVerifier.
From S2P Require Import Prelude Bytes Hash MerkleSpec Merkle MerkleProof Sha256Instance Sth Rocksdb.
From S2P Require Import StorageTypes Utf8 Db LogStore LogTheorems TreeStore Table HeadStore KeyStore.
From S2P Require Import StorageDemo ServerState Service ServerInv Concurrent ProofTheorems.
From S2P Require Import ServiceTheorems Watch Admin RateLimit Poison SthTask ServerMain Metrics ServerDemo.
Import String.StringSyntax.

Module ProcessDemo.
#[local] Existing Instance fips_sha256.
#[local] Existing Instance MemDb.memdb.
#[local] Existing Instance MemDb.memdb_laws.
#[local] Existing Instance DemoCodec.codec.
#[local] Existing Instance DemoCodec.codec_laws.
#[local] Existing Instance ToyEd25519.toy.
#[local] Existing Instance ToyEd25519.toy_laws.
#[local] Existing Instance bucket_limiter.
Import StorageDemo ServerDemo.
#[local] Existing Instance checked_build.
#[local] Existing Instance display.
#[local] Existing Instance hex_lower.

(** ** Admin requests *)

Lemma now_pos : 0 <= now.
Proof. discriminate. Qed.
Lemma a2_version : 0 <= sig_version (signer a2) < two32 - 1.
Proof. rewrite a2_signer. by split. Qed.

Lemma admin_requests_safe_witness :
  exists st' rep, admin_request POST (txt "/api/sth/force") a2 (Ok []) fresh_key FsOk now = Ret (st', rep) /\
    (exists hs', server_ok st' [e1] hs' /\
       (hs' = [sth1] \/ exists h, head_ok [e1] h /\ head_signed h /\
          hs' = upsert SignedTreeHead.tree_size h [sth1])) /\
    (POST <> POST -> st' = a2) /\
    match find_route (txt "/api/sth/force") with
    | None => rep = ReplyStatus 404 /\ st' = a2
    | Some (m', _) => POST <> m' -> rep = ReplyStatus 405 /\ st' = a2
    end.
Proof.
  exact (admin_requests_safe POST (txt "/api/sth/force") a2 (Ok []) fresh_key FsOk now [e1] [sth1] []
    (proj1 a2_server) a2_keys a2_version now_pos).
Defined.

(** ** From start-up to shutdown *)

(** An append, a forced head and a batch before the task wakes; then a rotation, statistics and two more
    appends before the shutdown. *)
Definition busy : surroundings :=
  mkSurroundings true true
    [([RqAppend 5 now k1 d1; RqForce now; RqBatch 6 now [(k1, d1); (k1, d1)]], now)]
    [RqRotate fresh_key FsOk; RqStats; RqAppend 7 now k1 d1; RqAppend 8 now [] d1] now true.
Lemma a2_heads : Forall (head_ok [e1]) [sth1].
Proof. constructor; [exact sth1_ok|constructor]. Qed.

Lemma busy_timely : Forall timely (requests busy).
Proof.
  repeat constructor; (discriminate || reflexivity).
Qed.
Lemma busy_clock : Forall (fun now => 0 <= now) (handled busy).*2.
Proof. constructor; [exact now_pos|constructor]. Qed.

Lemma shutdown_covers_log_witness :
  exists res r, main Args.default true (Ok (db (inner a2))) None true fresh_key FsOk 7 busy = Ret (res, r) /\
    match res with
    | None => exists e, r = Err (MBuild e)
    | Some (g, rs, ss) => run_ended busy [e1] g rs ss /\
        (admin_bound busy && served busy && joined busy = true -> r = Ok tt)
    end.
Proof.
  exact (shutdown_covers_log Args.default (inner a2) [e1] [sth1] [] true None true fresh_key FsOk 7 busy
    (ok_db _ _ _ (proj1 a2_server)) (ok_heads _ _ _ (proj1 a2_server)) a2_heads a2_keys busy_timely
    busy_clock now_pos ltac:(reflexivity) ltac:(reflexivity)).
Defined.

Definition latest_size (r : result (option SignedTreeHead.t) StorageTypes.Error) : option Z :=
  match r with Ok (Some h) => Some (SignedTreeHead.tree_size h) | _ => None end.

(** All requests succeed, and the last head covers the six entries. *)
Definition process_value (o : outcome (option (guarded * list Poison.reply *
    list (option (result unit StorageTypes.Error))) * result unit MainError)) :=
  match o with
  | Ret (Some (g, rs, ss), Ok _) =>
      Some (rs, (fun r => match r with Some (Ok _) => true | _ => false end) <$> ss,
        latest_size (head_latest (inner (shared g))))
  | _ => None
  end.
Example busy_run :
  process_value (main Args.default true (Ok (db (inner a2))) None true fresh_key FsOk 7 busy) =
  Some (repeat Succeeded 7, [true; true], Some 6).
Proof. vm_compute. reflexivity. Qed.

(** ** Metrics *)

Definition metered {A} (o : outcome (AppState * Metrics.t * A)) : AppState * Metrics.t :=
  match o with Ret (st, m, _) => (st, m) | _ => (app0, Metrics.zero) end.
Definition accepts {A} (o : outcome (AppState * Metrics.t * result A Status)) : bool :=
  match o with Ret (_, _, Ok _) => true | _ => false end.
Lemma metered_ok {A} (o : outcome (AppState * Metrics.t * result A Status)) :
  accepts o = true -> exists x, o = Ret ((metered o).1, (metered o).2, Ok x).
Proof. destruct o as [[[st m] [x|s]]| |]; [|discriminate..]. by exists x. Qed.

(** A signing run from its snapshot to the gauges, beside the runs [l]. *)
Lemma run_completes overlap l st m u new uns n root s :
  (overlap = false -> l = []) -> snapshot st = Ret (n, Some root) -> n <> 0 -> up_to_date st n = Ok false ->
  in_u32 (sig_version (signer st)) -> head_write (inner st) (make_head st n root now) = (s, Ok tt) ->
  rtc (mstep overlap) (mkMeters st m u l new uns)
    (mkMeters (set_inner st s) (Metrics.set_time (Metrics.set_size (Metrics.inc_signed (Metrics.sign_timed m)) n) now)
       u l (new ++ [make_head st n root now]) uns).
Proof.
  intros Ho Hs Hn Hu Hv Hw.
  assert (El : forall x : sign_run, (l ++ [x]) !! length l = Some x).
  { intros x. by rewrite lookup_app_r, Nat.sub_diag. }
  assert (Ei : forall x y : sign_run, <[length l := y]> (l ++ [x]) = l ++ [y]).
  { intros x y. by rewrite insert_app_r_alt, Nat.sub_diag. }
  assert (Ed : forall x : sign_run, delete (length l) (l ++ [x]) = l).
  { intros x. by rewrite delete_middle, app_nil_r. }
  eapply rtc_l; [by apply (m_snapshot _ _ n (Some root))|]. unfold with_runs. cbn [state counts uncounted runs stored unstored].
  eapply rtc_l; [by apply (m_check _ _ (length l) n (Some root)); [apply El|]|]. unfold with_runs.
  cbn [state counts uncounted runs stored unstored]. rewrite Ei.
  eapply rtc_l; [by apply (m_sign _ _ (length l) n root now now); [apply El|reflexivity|]|]. unfold with_runs, with_counts.
  cbn [state counts uncounted runs stored unstored]. rewrite Ei.
  eapply rtc_l; [by eapply (m_write _ _ (length l)); [apply El|]|].
  cbn [state counts uncounted runs stored unstored]. rewrite Ei.
  eapply rtc_l; [by eapply (m_inc _ _ (length l)); apply El|]. unfold with_runs, with_counts.
  cbn [state counts uncounted runs stored unstored]. rewrite Ei.
  eapply rtc_l; [by eapply (m_size _ _ (length l)); apply El|]. unfold with_runs, with_counts.
  cbn [state counts uncounted runs stored unstored]. rewrite Ei.
  apply rtc_once. pose proof (m_time overlap (mkMeters (set_inner st s)
    (Metrics.set_size (Metrics.inc_signed (Metrics.sign_timed m)) n) u
    (l ++ [Sized (make_head st n root now)]) (new ++ [make_head st n root now]) uns) (length l) _ (El _)) as G.
  unfold with_runs, with_counts in G. cbn [state counts uncounted runs stored unstored] in G. rewrite Ed in G. exact G.
Qed.

(** An append to the server of one entry, counted. *)
Abbreviation append1 := (metered_append Metrics.zero a1 5 now k1 d1).
Definition st1 : AppState := (metered append1).1.
Definition m1 : Metrics.t := count_entries (metered append1).2 1.
Lemma append1_accepted : accepts append1 = true.
Proof. vm_compute. reflexivity. Qed.
Lemma a1_room : next_seq (inner a1) + 1 < two64.
Proof. by rewrite (proj2 a1_server). Qed.

Lemma append_counted overlap l :
  rtc (mstep overlap) (mkMeters a1 Metrics.zero [] l [] 0) (mkMeters st1 m1 [] l [] 0).
Proof.
  destruct (metered_ok append1 append1_accepted) as [x E].
  eapply rtc_l; [exact (m_append _ (mkMeters a1 Metrics.zero [] l [] 0) _ _ _ _ _ _ _ a1_room now_pos pair_small E)|].
  apply rtc_once. exact (m_count overlap (mkMeters st1 (metered append1).2 [1] l [] 0) 0 1 eq_refl).
Qed.

Definition snapshot_value (o : outcome (Z * option hash32)) : option (Z * hash32) :=
  match o with Ret (n, Some r) => Some (n, r) | _ => None end.
Lemma snapshot_value_ok o n r : snapshot_value o = Some (n, r) -> o = Ret (n, Some r).
Proof. destruct o as [[n' [r'|]]| |]; cbn; congruence. Qed.

Definition root2 : hash32 := node_hash (leaf_hash d1) (leaf_hash d1).
Lemma st1_snapshot : snapshot st1 = Ret (2, Some root2).
Proof. apply snapshot_value_ok. vm_compute. reflexivity. Qed.
Lemma st1_version : sig_version (signer st1) = 1.
Proof. vm_compute. reflexivity. Qed.
Lemma st1_stale : up_to_date st1 2 = Ok false.
Proof. apply check_value_ok. vm_compute. reflexivity. Qed.

Definition head2 : SignedTreeHead.t := make_head st1 2 root2 now.
Definition db2 : DbInner := (head_write (inner st1) head2).1.
Lemma head2_written : head_write (inner st1) head2 = (db2, Ok tt).
Proof.
  enough (E : write_value (head_write (inner st1) head2).2 = true).
  { unfold db2. destruct (head_write (inner st1) head2) as [s [[]|e]]; [reflexivity|discriminate]. }
  vm_compute. reflexivity.
Qed.
Definition m2 : Metrics.t :=
  Metrics.set_time (Metrics.set_size (Metrics.inc_signed (Metrics.sign_timed m1)) 2) now.

Lemma second_head overlap l : (overlap = false -> l = []) ->
  rtc (mstep overlap) (mkMeters st1 m1 [] l [] 0) (mkMeters (set_inner st1 db2) m2 [] l [head2] 0).
Proof.
  intros Ho. apply (run_completes overlap l st1 m1 [] [] 0 2 root2 db2);
    [exact Ho|exact st1_snapshot|discriminate|exact st1_stale|rewrite st1_version; by split|exact head2_written].
Qed.

Definition after2 : meters := mkMeters (set_inner st1 db2) m2 [] [] [head2] 0.

Lemma after2_reached : rtc (mstep false) (started a1) after2.
Proof. etrans; [exact (append_counted false [])|exact (second_head false [] (fun _ => eq_refl))]. Qed.

Lemma metrics_match_witness :
  exists es' hs, server_ok (state after2) ([e1] ++ es') hs /\
    Metrics.entries_appended (counts after2) = len es' - sum_by id (uncounted after2) /\
    Metrics.sth_signed (counts after2) = (len (stored after2) - sum_by uncounted_head (runs after2)) mod two64 /\
    Metrics.sign_samples (counts after2) =
      (len (stored after2) + unstored after2 + sum_by unwritten_head (runs after2)) mod two64 /\
    gauges_some (counts after2) (stored after2) /\
    (false = false -> runs after2 = [] -> gauges_latest (counts after2) (stored after2) hs).
Proof.
  exact (metrics_match false a1 after2 [e1] [] (proj1 a1_server) after2_reached).
Defined.

(** One entry appended, one head of size 2. *)
Example metrics_after_run : counts after2 = Metrics.mk 1 1 2 now 1 1 [].
Proof. vm_compute. reflexivity. Qed.

(** *** Overlapping signing runs

    The timer's run takes its snapshot at one entry; an entry is appended and a forced run signs two; then the
    timer's run signs and stores its head of size 1, and sets the gauges to it. *)

Definition head1 : SignedTreeHead.t := make_head (set_inner st1 db2) 1 root1 now.
Definition db3 : DbInner := (head_write db2 head1).1.
Lemma head1_written : head_write db2 head1 = (db3, Ok tt).
Proof.
  enough (E : write_value (head_write db2 head1).2 = true).
  { unfold db3. destruct (head_write db2 head1) as [s [[]|e]]; [reflexivity|discriminate]. }
  vm_compute. reflexivity.
Qed.
Definition m3 : Metrics.t :=
  Metrics.set_time (Metrics.set_size (Metrics.inc_signed (Metrics.sign_timed m2)) 1) now.
Definition after3 : meters := mkMeters (set_inner (set_inner st1 db2) db3) m3 [] [] [head2; head1] 0.

Lemma a1_snapshot : snapshot a1 = Ret (1, Some root1).
Proof. apply snapshot_value_ok. vm_compute. reflexivity. Qed.
Lemma a1_stale : up_to_date a1 1 = Ok false.
Proof. apply check_value_ok. vm_compute. reflexivity. Qed.

Lemma signing_overlaps : rtc (mstep true) (started a1) after3.
Proof.
  eapply rtc_l; [exact (m_snapshot true (started a1) 1 (Some root1) ltac:(done) a1_snapshot ltac:(done))|].
  eapply rtc_l; [exact (m_check true (with_runs (started a1) [Snapshotted 1 (Some root1)]) 0 1 (Some root1) eq_refl a1_stale)|].
  etrans; [exact (append_counted true [Checked 1 (Some root1)])|].
  etrans; [exact (second_head true [Checked 1 (Some root1)] ltac:(done))|].
  eapply rtc_l; [refine (m_sign true (mkMeters (set_inner st1 db2) m2 [] [Checked 1 (Some root1)] [head2] 0) 0 1 root1 now now
    eq_refl eq_refl _); cbn [state]; change (signer (set_inner st1 db2)) with (signer st1); rewrite st1_version; by split|].
  eapply rtc_l; [exact (m_write true (mkMeters (set_inner st1 db2) (Metrics.sign_timed m2) [] [Signed head1] [head2] 0)
    0 head1 db3 (Ok tt) eq_refl head1_written)|].
  eapply rtc_l; [exact (m_inc true (mkMeters (state after3) (Metrics.sign_timed m2) [] [Stored head1] [head2; head1] 0)
    0 head1 eq_refl)|].
  eapply rtc_l; [exact (m_size true (mkMeters (state after3) (Metrics.inc_signed (Metrics.sign_timed m2)) []
    [Counted head1] [head2; head1] 0) 0 head1 eq_refl)|].
  apply rtc_once. exact (m_time true (mkMeters (state after3)
    (Metrics.set_size (Metrics.inc_signed (Metrics.sign_timed m2)) 1) [] [Sized head1] [head2; head1] 0) 0 head1 eq_refl).
Qed.

(** The gauge says 1, and the latest head covers 2 entries. *)
Theorem gauges_go_back :
  exists t, rtc (mstep true) (started a1) t /\ runs t = [] /\ Metrics.tree_size (counts t) = 1 /\
    latest_size (head_latest (inner (state t))) = Some 2.
Proof.
  exists after3. split; [exact signing_overlaps|]. split; [reflexivity|]. split; [reflexivity|]. vm_compute. reflexivity.
Qed.

(** A process restarted on a log that is signed already reports no head: its runs find the head up to date. *)
Example gauges_after_restart : check_value (up_to_date a2 1) = Some true /\ gauges (counts (started a2)) = (0, 0).
Proof. split; vm_compute; reflexivity. Qed.
End ProcessDemo.
