(* ===== verification/DemoExample.v ===== *)
(** * The demo on a concrete server

    The theorems about the demo program applied to a server with one entry and one head that
    receives a second entry and a second head while it is watched. *)

From Stdlib Require String SpecFloat.
From stdpp Require Import gmap pretty.
From S2P Require Import SdkVerifier.
From S2P Require Import Prelude Bytes Hash MerkleSpec Merkle MerkleProof Sha256Instance Sth Rocksdb.
From S2P Require Import StorageTypes Db LogStore LogTheorems Table HeadStore KeyStore.
From S2P Require Import StorageDemo ServerState Service ServerInv Concurrent ProofTheorems.
From S2P Require Import ServiceTheorems Watch Utf8 Admin RateLimit Client Paging ServerDemo.
From S2P Require Import DemoFormat Demo DemoRun DemoTheorems.
Import String.StringSyntax.

Module DemoExample.
#[local] Existing Instance fips_sha256.
#[local] Existing Instance MemDb.memdb.
#[local] Existing Instance MemDb.memdb_laws.
#[local] Existing Instance DemoCodec.codec.
#[local] Existing Instance DemoCodec.codec_laws.
#[local] Existing Instance ToyEd25519.toy.
#[local] Existing Instance ToyEd25519.toy_laws.
#[local] Existing Instance bucket_limiter.
Import StorageDemo ServerDemo.
#[local] Existing Instance checked_build.
#[local] Existing Instance display.
#[local] Existing Instance hex_lower.

(** ** The server after a second entry and head *)

Definition c1 : AppState := app_after (append_commit a2 now k1 d1).
Lemma c1_ok : append_commit a2 now k1 d1 = Ret (c1, Ok (1, now)).
Proof. apply app_after_ok. vm_compute. reflexivity. Qed.

Lemma a2_next : next_seq (inner a2) = 1.
Proof. exact (proj2 (proj2 a2_server)). Qed.

Lemma c1_server : server_ok c1 [e1; e2] [sth1] /\ gap_free (inner c1) [e1; e2].
Proof.
  destruct (append_commit_ok a2 [e1] [sth1] now k1 d1 (proj1 a2_server)) as (st & r & E & En & _ & Hr);
    [rewrite a2_next; reflexivity|done|exact pair_small|].
  rewrite c1_ok in E. injection E as <- <-. destruct Hr as (_ & _ & Hr). split; [exact Hr|].
  exact (gap_free_snoc _ _ [e1] e2 (proj2 a2_server) eq_refl (eq_trans En (f_equal (fun n => n + 1) a2_next))).
Qed.

Definition root2 : hash32 := node_hash root1 root1.
Definition sth2 : SignedTreeHead.t :=
  SignedTreeHead.mk 2 root2 now (sign (signer c1) (signing_payload 2 root2 now))
    (public_key (signer c1)) (key_version (signer c1)).
Definition c2 : AppState := set_inner c1 (head_write (inner c1) sth2).1.

Lemma c1_signer : signer c1 = mkSigner ToyEd25519.z32 1.
Proof. destruct (append_commit_frame _ _ _ _ _ _ c1_ok) as [-> _]. exact a2_signer. Qed.
Lemma sth2_ok : head_ok [e1; e2] sth2.
Proof. apply snapshot_head_ok; [done|]. vm_compute. reflexivity. Qed.
Lemma sth2_written : write_value (head_write (inner c1) sth2).2 = true.
Proof. vm_compute. reflexivity. Qed.
Lemma sth2_signed : head_signed sth2.
Proof. exact (signed_by (signer c1) 2 root2 now (key_version (signer c1))). Qed.

Lemma c2_server : server_ok c2 [e1; e2] [sth1; sth2] /\ gap_free (inner c2) [e1; e2].
Proof.
  assert (Hw : sth_wf sth2).
  { split; [by split|]. split; [by split|]. unfold sth2. cbn [SignedTreeHead.key_version].
    rewrite c1_signer. by split. }
  destruct (write_head_ok c1 [e1; e2] [sth1] sth2 (proj1 c1_server) Hw sth2_ok) as (d & r & E & En & _ & Hok).
  pose proof sth2_written as Hv. unfold c2. rewrite E in Hv |- *. cbn [fst snd] in *. destruct r; [|done].
  split; [exact Hok|]. destruct c1_server as [_ [Hg1 Hg2]]. split; [exact Hg1|].
  cbn [inner set_inner]. rewrite En. exact Hg2.
Qed.

(** ** Both states are honest: the in-memory database never fails *)

Lemma no_fault (st : AppState) s : ~ page_fault st s.
Proof. intros (n & e & [l E] & _). discriminate E. Qed.
Lemma no_get_error (st : AppState) n e :
  rdb_get (db (inner st)) CF_LOG (to_vec (u64_to_be_bytes n)) <> Err e.
Proof. discriminate. Qed.

Lemma c2_no_key : api_key (config c2) = None.
Proof. change (key_of c2 = None). vm_compute. reflexivity. Qed.

Lemma a2_honest : honest a2 [e1] [sth1] sth1.
Proof.
  split; [apply a2_server|apply a2_server|constructor; [exact sth1_signed|constructor]|reflexivity
    |exact a2_no_key|exact (no_read_error a2)|exact (no_fault a2)|exact (no_get_error a2)].
Qed.
Lemma c2_honest : honest c2 [e1; e2] [sth1; sth2] sth2.
Proof.
  split; [apply c2_server|apply c2_server|constructor; [exact sth1_signed|constructor; [exact sth2_signed|constructor]]
    |reflexivity|exact c2_no_key|exact (no_read_error c2)|exact (no_fault c2)|exact (no_get_error c2)].
Qed.
Lemma growth : grows [e1] sth1 [c2] [e1; e2] sth2.
Proof.
  apply (grows_cons [e1] sth1 c2 [e1; e2] [sth1; sth2] sth2 [] [e1; e2] sth2);
    [exact c2_honest|by exists [e2]|done|apply grows_nil].
Qed.

Definition w0 : world site := mkWorld (mkSite a2 [c2] now) [] [].

Lemma demo_default_honest_witness :
  runs site_env (mode_default true true true) w0
    (printed w0 (default_text true true (covered [e1] sth1) sth1)) (Ok tt).
Proof. apply (demo_default_honest w0 [e1] [sth1] sth1 true true). exact a2_honest. Defined.

Lemma demo_lookup_honest_witness :
  runs site_env (mode_get (Z.of_nat 0) true) w0
    (printed w0 ((if true then sth_line ++ newline else []) ++ header_text true ++
                entry_row (client_entry e1) (col true) ++ newline)) (Ok tt) /\
  let found := filter (fun e => LogEntry.key e = k1) [e1] in
  runs site_env (mode_get_by_key k1) w0
    (printed w0 (count_text (len found) ++ txt " for key " ++ [Init.Byte.x22] ++ k1 ++ [Init.Byte.x22] ++
                txt ":" ++ newline ++ newline ++ header_text false ++ rows [] found)) (Ok tt).
Proof.
  apply (demo_lookup_honest w0 [e1] [sth1] sth1 0 e1 true k1); [exact a2_honest|reflexivity..|discriminate].
Defined.

(** Two seconds. *)
Definition two : f64 := SpecFloat.S754_finite false 4503599627370496 (-51).

Lemma demo_watch_honest_witness :
  exists x, runs site_env (mode_watch true two) w0
    (mkWorld x (stdout w0 ++
       txt "Watching for new entries (polling every " ++ fmt_f64_0 two ++
       txt "s) … Ctrl-C to stop." ++ newline ++ newline ++ header_text true ++
       rows (col true) (drop (Z.to_nat (SignedTreeHead.tree_size sth1)) (covered [e1; e2] sth2)) ++ stopped)
       (stderr w0)) (Ok tt).
Proof.
  apply (demo_watch_honest w0 [e1] [sth1] sth1 [e1; e2] sth2 true two 2000000000);
    [exact a2_honest|exact growth|vm_compute; reflexivity].
Defined.

Lemma wait_for_sth_ends_witness :
  exists w' r, runs site_env (wait_for_sth 1) w0 w' r /\
    stdout w' = stdout w0 /\ stderr w' = stderr w0 /\
    waited site_env clock 1 (clock (state w0) + secs 10) w' r.
Proof. apply (wait_for_sth_ends site_env clock 1 w0). exact site_clock. Defined.

(** An entry that is nowhere in the log is marked OK. *)
Definition fake : Client.Entry := Client.mkEntry 41 now (txt "user:mallory") (txt "paid") (to_vec root2).
Lemma head2_root : Client.root_hash (client_head sth2) = to_vec root2.
Proof. unfold client_head, from_pb_sth, sth_to_pb, sth2. cbn [Client.root_hash ProtoSth.root_hash SignedTreeHead.root_hash]. exact eq_refl. Qed.
Lemma fake_leaf : Client.leaf_hash fake = Client.root_hash (client_head sth2).
Proof. rewrite head2_root. unfold fake. cbn [Client.leaf_hash]. exact eq_refl. Qed.
Lemma check_proof_forgeable_witness :
  runs site_env (check_proof fake (Client.mkInclusion 0 1 [] (client_head sth2)) (client_head sth2)) w0 w0 true.
Proof. exact (check_proof_forgeable site_env w0 fake (client_head sth2) root2 head2_root fake_leaf). Defined.

(** ** Rows *)

Lemma as_bytes_app s t : as_bytes (String.append s t) = as_bytes s ++ as_bytes t.
Proof.
  unfold as_bytes, String.list_byte_of_string. induction s as [|c s IH]; [done|].
  change (String.append (String.String c s) t) with (String.String c (String.append s t)).
  cbn. f_equal. exact IH.
Qed.

Lemma hex_digit_ok n : (n < 16)%nat ->
  ascii (as_bytes (hex_digit n)) = true /\ length (as_bytes (hex_digit n)) = 1%nat.
Proof. intros Hn. do 16 (destruct n as [|n]; [done|]). lia. Qed.

Lemma nibbles x : (Z.to_nat (Z_of_byte x / 16) < 16)%nat /\ (Z.to_nat (Z_of_byte x mod 16) < 16)%nat.
Proof.
  pose proof (Z_of_byte_range x). pose proof (Z.mod_pos_bound (Z_of_byte x) 16 ltac:(lia)).
  split; [|lia]. apply Nat2Z.inj_lt. rewrite Z2Nat.id by (apply Z.div_pos; lia).
  apply Z.div_lt_upper_bound; lia.
Qed.

Lemma hex_lower_cons x b :
  as_bytes (hex_lower (x :: b)) =
  as_bytes (hex_digit (Z.to_nat (Z_of_byte x / 16))) ++ as_bytes (hex_digit (Z.to_nat (Z_of_byte x mod 16))) ++
  as_bytes (hex_lower b).
Proof.
  change (hex_lower (x :: b)) with (String.append (String.append (hex_digit (Z.to_nat (Z_of_byte x / 16)))
    (hex_digit (Z.to_nat (Z_of_byte x mod 16)))) (hex_lower b)).
  by rewrite !as_bytes_app, <- app_assoc.
Qed.

#[local] Instance hex_lower_laws : HexLaws.
Proof.
  split; intros b; (induction b as [|x b IH]; [done|]);
    destruct (nibbles x) as [[A1 L1]%hex_digit_ok [A2 L2]%hex_digit_ok];
    unfold hex_encode in *; rewrite hex_lower_cons.
  - by rewrite !ascii_app, A1, A2, IH.
  - rewrite !length_app, L1, L2, IH. cbn [length]. lia.
Qed.

(** The table of the run above, as printed. *)
Example table_printed :
  default_text true false (covered [e1] sth1) sth1 =
  txt "Fetching audit trail …" ++ newline ++ newline ++
  txt "Verifying STH signature … OK" ++ newline ++
  txt "Verifying inclusion proof for 1 entry … all OK" ++ newline ++ newline ++
  txt " Seq  Key                   Data                  Time                  Leaf Hash           Proof" ++ newline ++
  txt "-------------------------------------------------------------------------------------------------" ++ newline ++
  txt "   0  a                     " ++ d1 ++ txt "                    22:13:20.000Z         ae4b3280e56e2faf…   OK" ++ newline ++
  newline ++ txt "1 entry in log." ++ newline.
Proof. vm_compute. reflexivity. Qed.
End DemoExample.
