(* ===== verification/RaceDemo.v ===== *)
(** * Interleaved requests on concrete runs

    The theorems about requests whose reads or deliveries are interleaved with other tasks, applied to the
    server of [ServerDemo], and the races they leave open exhibited as runs. *)

From Stdlib Require String.
From stdpp Require Import relations.
From S2P Require Import SdkVerifier.
From S2P Require Import Prelude Bytes Hash MerkleSpec Merkle MerkleProof Sha256Instance Sth Rocksdb.
From S2P Require Import StorageTypes Db LogStore LogTheorems TreeStore Table HeadStore KeyStore.
From S2P Require Import StorageDemo ServerState Service ServerInv Concurrent ProofTheorems.
From S2P Require Import ServiceTheorems RateLimit Admin Reads LogConcurrent Watch WatchLive Poison ServerMain Drain ServerDemo.
Import String.StringSyntax.

Module RaceDemo.
#[local] Existing Instance fips_sha256.
#[local] Existing Instance MemDb.memdb.
#[local] Existing Instance MemDb.memdb_laws.
#[local] Existing Instance DemoCodec.codec.
#[local] Existing Instance DemoCodec.codec_laws.
#[local] Existing Instance ToyEd25519.toy.
#[local] Existing Instance ToyEd25519.toy_laws.
#[local] Existing Instance bucket_limiter.
Import StorageDemo ServerDemo.
#[local] Existing Instance checked_build.
#[local] Existing Instance display.
#[local] Existing Instance hex_lower.

Lemma interleaved_proofs_verify_witness :
  exists es, db_rep (inner (app y7)) es /\
  (forall n ts s' resp, in_u64 n -> in_u64 ts -> ts <= len es ->
     answers (step false false) y7 (inclusion_handler n ts) s' (Ret (Ok resp)) ->
     exists es' e path root, db_rep (inner (app s')) es' /\ es `prefix_of` es' /\
       es' !! Z.to_nat n = Some e /\ LogEntry.seq e = n /\
       InclusionProofResponse.proof resp = to_vec <$> path /\
       sdk_accepts_head (InclusionProofResponse.sth resp) root /\
       SdkVerifier.verify_inclusion (SdkVerifier.leaf_hash (LogEntry.data e)) n
         (ProtoSth.tree_size (InclusionProofResponse.sth resp)) path root = Ret true) /\
  (forall o n s' resp, in_u64 o -> in_u64 n -> n <= len es ->
     answers (step false false) y7 (consistency_handler o n) s' (Ret (Ok resp)) ->
     exists path r1 r2, ConsistencyProofResponse.proof resp = to_vec <$> path /\
       sdk_accepts_head (ConsistencyProofResponse.old_sth resp) r1 /\
       sdk_accepts_head (ConsistencyProofResponse.new_sth resp) r2 /\
       ProtoSth.tree_size (ConsistencyProofResponse.old_sth resp) = o /\
       (ProtoSth.tree_size (ConsistencyProofResponse.new_sth resp) <= two63 ->
        SdkVerifier.verify_consistency o (ProtoSth.tree_size (ConsistencyProofResponse.new_sth resp))
          path r1 r2 = Ret true)).
Proof.
  exact (interleaved_proofs_verify y0 y7 [] [] y0_ok eq_refl (Forall_nil_2 _) (run_signs false false)).
Defined.

(** ** A size that is reached between two reads

    The request (0, 2) arrives when the log has one entry.  Its leaves are read; then a second
    entry is appended and a head of size 2 stored; then the handler finds that head. *)

Definition k2 : bytes := [Init.Byte.x62].
Definition d2 : bytes := [Init.Byte.x03].
Lemma pair_small2 : pair_ok (k2, d2).
Proof. by split. Qed.

Definition c1 : AppState := app_after (append_commit a2 now k2 d2).
Lemma second_ok : append_commit a2 now k2 d2 = Ret (c1, Ok (1, now)).
Proof. apply app_after_ok. vm_compute. reflexivity. Qed.

Definition root2 : hash32 := node_hash (leaf_hash d1) (leaf_hash d2).
Definition sig2 : array 64 := sign (signer c1) (signing_payload 2 root2 now).
Definition sth2 : SignedTreeHead.t :=
  SignedTreeHead.mk 2 root2 now sig2 (public_key (signer c1)) (key_version (signer c1)).
Definition c2 : AppState := set_inner c1 (head_write (inner c1) sth2).1.
Definition box2 : list (list Entry.t) :=
  outbox y7 ++ [[Entry.mk 1 now k2 d2 (to_vec (leaf_hash d2))]].
Definition at2 (tasks : list sign_task) : sys := mkSys c1 tasks [] box2.
Definition y9 : sys := mkSys c2 [] [] box2.

Lemma run_second : rtc (step false false) y7 y9.
Proof.
  eapply (rtc_l _ _ (at2 [])).
  { apply (step_append false false y7 now k2 d2 c1 (Ok (1, now)));
      [cbn [app y7]; rewrite (proj2 (proj2 a2_server)); reflexivity|exact pair_small2|discriminate|exact second_ok|discriminate]. }
  eapply (rtc_l _ _ (at2 [TSnapshot 2 (Some root2)])).
  { apply (step_snapshot false false (at2 []) 2 (Some root2)); [vm_compute; reflexivity|discriminate]. }
  eapply (rtc_l _ _ (at2 [TChecked 2 (Some root2)])).
  { apply (step_check false false (at2 [TSnapshot 2 (Some root2)]) 0 2 (Some root2)); [reflexivity|].
    apply check_value_ok. vm_compute. reflexivity. }
  eapply (rtc_l _ _ (at2 [TSigned 2 root2 now sig2])).
  { apply (step_sign false false (at2 [TChecked 2 (Some root2)]) 0 2 root2 now now); reflexivity. }
  eapply rtc_l; [apply (step_pubkey false false (at2 [TSigned 2 root2 now sig2]) 0 2 root2 now sig2); reflexivity|].
  eapply rtc_l; [apply (step_version false false (at2 [TKeyed 2 root2 now sig2 (public_key (signer c1))])
    0 2 root2 now sig2 (public_key (signer c1))); reflexivity|].
  apply rtc_once. eapply (step_write false false (at2 [TReady sth2]) 0 sth2); [reflexivity|].
  apply surjective_pairing.
Qed.

Lemma no_iter_error (s : DbInner) c mode e : iter_fails (db s) c mode e -> False.
Proof. intros [l E]. discriminate E. Qed.

Lemma a2_range : seq_range (inner a2) 0 2 = Ok [e1].
Proof.
  destruct (seq_range_ok (inner a2) [e1] 0 2 (ok_db _ _ _ (proj1 a2_server)) ltac:(done)) as [E|(e & He & _)];
    [exact E|destruct (no_iter_error _ _ _ _ He)].
Qed.

Definition e3 : LogEntry.t := new_entry 1 now k2 d2.

Lemma second_server : server_ok c1 [e1; e3] [sth1].
Proof.
  destruct (append_commit_ok a2 [e1] [sth1] now k2 d2 (proj1 a2_server)) as (st & r & E & _ & _ & Hr);
    [rewrite (proj2 (proj2 a2_server)); reflexivity|discriminate|exact pair_small2|].
  rewrite (proj2 (proj2 a2_server)) in Hr. rewrite second_ok in E. injection E as <- <-. by destruct Hr as (_ & _ & Hr).
Qed.

Lemma second_head_written : write_value (head_write (inner c1) sth2).2 = true.
Proof. vm_compute. reflexivity. Qed.

Lemma second_signer : signer c1 = mkSigner ToyEd25519.z32 1.
Proof. rewrite (proj1 (append_commit_frame _ _ _ _ _ _ second_ok)). exact a2_signer. Qed.

Lemma c2_heads : heads_rep (inner c2) [sth1; sth2].
Proof.
  destruct (head_write_ok (inner c1) [sth1] sth2 (ok_heads _ _ _ second_server)) as (d & r & E & _ & _ & Hh).
  { split; [by split|]. split; [by split|]. cbn. by rewrite second_signer. }
  pose proof second_head_written as Hw. unfold c2. cbn [inner set_inner]. rewrite E in Hw |- *. cbn [fst snd] in *.
  destruct r; [exact Hh|done].
Qed.

Lemma c2_head : at_size (inner c2) 2 = Ok (Some sth2).
Proof.
  destruct (at_size_ok (inner c2) _ 2 c2_heads) as [E|(e & He & _)]; [by split|exact E|discriminate He].
Qed.

Definition late_answer : InclusionProofResponse.t := InclusionProofResponse.mk 0 2 [] (sth_to_pb sth2).

Lemma late_run : answers (step false false) y7 (inclusion_handler 0 2) y9 (Ret (Ok late_answer)).
Proof.
  exists y7. split; [reflexivity|]. cbn [ask app y7]. rewrite a2_range.
  exists y9. split; [exact run_second|]. cbn [ask app y9]. rewrite c2_head. by split.
Qed.

(** A size that is reached between the reads of the handler: the answer is a success, its head
    verifies, and its path does not. *)
Theorem late_size_race :
  exists s s' resp root, rtc (step false false) y0 s /\
    answers (step false false) s (inclusion_handler 0 2) s' (Ret (Ok resp)) /\
    sdk_accepts_head (InclusionProofResponse.sth resp) root /\
    InclusionProofResponse.proof resp = [] /\
    SdkVerifier.verify_inclusion (SdkVerifier.leaf_hash d1) 0 2 [] root = Ret false.
Proof.
  exists y7, y9, late_answer, (SignedTreeHead.root_hash sth2).
  split; [exact (run_signs false false)|]. split; [exact late_run|].
  split; [|split; [reflexivity|vm_compute; reflexivity]].
  unfold late_answer. cbn [InclusionProofResponse.sth]. refine (signed_accepts sth2 _).
  exact (signed_by (signer c1) 2 root2 now (key_version (signer c1))).
Qed.

(** ** Two threads appending under one key

    The first takes number 0, the second number 1; the second writes first. *)

Definition th0 : threads := mkThreads (fresh []) [] [].
Definition taken (n : Z) : DbInner := {| db := MemDb.empty []; next_seq := n |}.
Definition th2 : threads := mkThreads (taken 2) [[e1]; [e2]] [e1; e2].
Definition w1 : DbInner := (finish_append (taken 2) [e2]).1.
Definition w2 : DbInner := (finish_append w1 [e1]).1.
Definition th4 : threads := mkThreads w2 [] [e1; e2].

Lemma write_value_ok (p : DbInner * result unit StorageTypes.Error) :
  write_value p.2 = true -> p = (p.1, Ok tt).
Proof. destruct p as [s [[]|e]]; [done|done]. Qed.

Lemma run_threads : rtc (tstep false) th0 th4.
Proof.
  eapply (rtc_l _ _ (mkThreads (taken 1) [[e1]] [e1])).
  { apply (tstep_begin false th0 now [(k1, d1)] (taken 1) [e1]);
      [discriminate|reflexivity|constructor; [exact pair_small|constructor]|reflexivity]. }
  eapply (rtc_l _ _ th2).
  { apply (tstep_begin false (mkThreads (taken 1) [[e1]] [e1]) now [(k1, d1)] (taken 2) [e2]);
      [discriminate|reflexivity|constructor; [exact pair_small|constructor]|reflexivity]. }
  eapply (rtc_l _ _ (mkThreads w1 [[e1]] [e1; e2])).
  { apply (tstep_finish false th2 1 [e2] w1 (Ok tt)); [reflexivity| |discriminate].
    apply (write_value_ok (finish_append (taken 2) [e2])). vm_compute. reflexivity. }
  apply rtc_once.
  apply (tstep_finish false (mkThreads w1 [[e1]] [e1; e2]) 0 [e1] w2 (Ok tt)); [reflexivity| |discriminate].
  apply (write_value_ok (finish_append w1 [e1])). vm_compute. reflexivity.
Qed.


(** A thread that panics on a clock before 1970 has taken its number: the next append gets 1. *)
Lemma run_panicking : rtc (tstep true) th0 (mkThreads (taken 2) [[e2]] [new_entry 0 (-1) k1 d1; e2]).
Proof.
  eapply (rtc_l _ _ (mkThreads (taken 1) [] [new_entry 0 (-1) k1 d1])).
  { apply (tstep_panic true th0 (-1) [(k1, d1)]);
      [discriminate|reflexivity|constructor; [exact pair_small|constructor]|reflexivity|reflexivity]. }
  apply rtc_once.
  apply (tstep_begin true (mkThreads (taken 1) [] [new_entry 0 (-1) k1 d1]) now [(k1, d1)] (taken 2) [e2]);
    [discriminate|reflexivity|constructor; [exact pair_small|constructor]|reflexivity].
Qed.

Definition index_value (r : result (option Z) StorageTypes.Error) : option Z :=
  match r with Ok o => o | Err _ => None end.

(** The index is left at the older entry of the key. *)
Theorem index_goes_back :
  exists t, rtc (tstep false) th0 t /\ inflight t = [] /\
    LogEntry.key <$> begun t = [k1; k1] /\ index_value (get_seq_by_key (store t) k1) = Some 0.
Proof.
  exists th4. split; [exact run_threads|]. split; [reflexivity|]. split; [reflexivity|].
  vm_compute. reflexivity.
Qed.

(** ** A watch stream *)

(** A channel with the documented behaviour: a receiver is the number of values it is past. *)
#[local] Instance list_channel : Broadcast := {|
  receiver := nat;
  rx_subscribe := fun sent => length sent;
  rx_recv := fun sent pos =>
    if (pos + WATCH_CHANNEL_CAP <? length sent)%nat
    then (Some (Lagged (Z.of_nat (length sent - WATCH_CHANNEL_CAP - pos))), (length sent - WATCH_CHANNEL_CAP)%nat)
    else match sent !! pos with
         | Some e => (Some (Received e), S pos)
         | None => (None, pos)
         end
|}.

Definition list_channel_laws : BroadcastLaws.
Proof.
  refine {| rx_next := (fun pos => pos) : @receiver list_channel -> nat |}; cbn [rx_recv rx_subscribe list_channel receiver].
  - done.
  - intros sent pos o pos' Hr Hle. destruct (Nat.ltb_spec (pos + WATCH_CHANNEL_CAP) (length sent)) as [Hlt|Hge].
    + injection Hr as <- <-. split; [done|]. unfold WATCH_CHANNEL_CAP in *. lia.
    + destruct (sent !! pos) as [e|] eqn:Ee; injection Hr as <- <-; [done|].
      apply lookup_ge_None in Ee. split; [lia|done].
Defined.
#[local] Existing Instance list_channel_laws.

Definition live1 : sys := mkSys (send a1 n0) [] [] [[]].
Definition wa : watcher := watch_start app0 0.
Definition wb : watcher := mkWatcher _ (1%nat : @receiver list_channel) Streaming (Some 0) [n0].

Lemma run_watch : rtc (wstep false) (y0, wa) (live1, wb).
Proof.
  eapply (rtc_l _ _ (at1 [], wa)).
  { apply wstep_server. split; [apply append_step|]. intros i e rest Hi. discriminate Hi. }
  eapply (rtc_l _ _ (live1, wa)).
  { apply wstep_server. split; [apply (step_send false false (at1 []) 0 n0 []); reflexivity|].
    intros [|i] e rest Hi Ho; [constructor|discriminate Hi]. }
  apply rtc_once, wstep_task. reflexivity.
Qed.

(** A shutdown while that stream is open does not end. *)
Example watch_hangs_shutdown :
  forall fuel o res, shutdown fuel (fun _ => app live1) [wb] o (app live1) <> Ret res.
Proof.
  intros fuel o. refine (proj1 (open_watch_blocks_shutdown (fun _ => app live1) (watch_tx (app live1)) [wb] o
    (app live1) (fun _ => eq_refl)) _ fuel).
  apply Exists_cons_hd. split; [reflexivity|]. split; vm_compute; lia.
Qed.


(** ** A clock before 1970 *)

Definition ga : guarded := mkGuarded _ _ _ a2 false true.
Lemma a2_admits : (admit_one (shared ga) 5).2 = true.
Proof. vm_compute. reflexivity. Qed.
Lemma ga_room : next_seq (inner (shared ga)) + 1 < two64.
Proof. cbn [shared ga]. rewrite (proj2 (proj2 a2_server)). reflexivity. Qed.

Lemma clock_panic_stops_server_witness :
  exists g', guarded_append ga 5 (-1) k1 d1 = (g', None) /\
    server_ok (shared g') [e1] [sth1] /\ next_seq (inner (shared g')) = len [e1] + 1 /\
    (forall rqs, Forall (fun rq => forall at_ now, rq <> RqBatch at_ now []) rqs ->
       let '(g'', rs) := exec_all g' rqs in
       server_ok (shared g'') [e1] [sth1] /\ inner (shared g'') = inner (shared g') /\ Succeeded ∉ rs /\
       ((exists now, RqTick now ∈ rqs) -> sth_alive g'' = false)) /\
    (forall cfg ks dir_ok file read_ok fresh w start st, keys_rep (inner (shared g')) ks ->
       build cfg dir_ok (Ok (db (inner (shared g')))) file read_ok fresh w start = Ret (Ok st) ->
       server_ok st [e1] [sth1] /\ gap_free (inner st) [e1]).
Proof.
  exact (clock_panic_stops_server ga [e1] [sth1] 5 (-1) k1 d1 (proj1 a2_server) (proj2 a2_server)
    ga_room eq_refl a2_admits eq_refl).
Defined.
End RaceDemo.
